(* ===== verification/_CoqProject ===== *)
-Q . S2P
Prelude.v
CircularInt.v
NodeVersion.v
Permuter.v
KSearch.v
StringSlice.v
MassKey.v
StringBag.v
IncllWord.v
Incll.v
ExtLog.v
Ppp.v
Rcu.v
GlobalFlush.v
ValueLog.v
LogReplay.v
Internode.v
LeafSplit.v
LeafLink.v
ValueArray.v
ValueVersioned.v
ValueString.v
ValueBag.v
Msgpack.v
MsgpackStream.v
MsgpackPieces.v
LogApply.v
LogOrder.v
LogRestore.v
Tree.v
TreeShape.v
TreeMap.v
TreeOps.v
TreeRemove.v
TreeScan.v
TreeListing.v
TreeLeaves.v
TreeForward.v
TreeInsert.v
TreeSplit.v
TreeLayer.v
TreeGrow.v
TreeTwig.v
TreeMono.v
TreePut.v
TreePrune.v
TreeDelete.v
TreeGc.v
TreeDestroy.v
TreeTable.v
