(* ===== verification/Prelude.v ===== *)
(** Verification of Incll: Masstree with in-cache-line logging on persistent memory.

    The program is a concurrent ordered map from byte strings to rows.  It is a trie of
    B+-trees: each layer indexes eight bytes of the key, a slot of a leaf holds a value or
    the root of the layer below.  Readers take no locks and check version words; writers lock
    nodes.  The nodes live in persistent memory: the first change of a leaf in an epoch is
    logged in spare words of the cache line it changes, other changes log the whole node in an
    external log, and after a crash the state of the start of the failed epoch comes back.

    * Files, and the code they model (all under src/)

    - Prelude: bit and word notations, lists indexed by Z, ranges, tactics.
    - CircularInt: circular_int.hh, integers compared modulo their width.
    - NodeVersion: nodeversion.hh.  Every operation on a version word, both word layouts, the
      single-threaded variant, and a step relation of threads that lock, mark and unlock.
    - Permuter: kpermuter.hh.  The word that orders a leaf's slots, with the shifts and masks
      of the code; each operation refines an operation on (size, list).
    - KSearch: ksearch.hh.  Linear and binary search over any permuter.
    - StringSlice, MassKey: string_slice.hh, masstree_key.hh.  Loading up to eight bytes as
      an integer that compares like the string; keys that shift from layer to layer.
    - StringBag: stringbag.hh, the storage of key suffixes in a leaf.
    - IncllWord, Incll: incll_configs.hh, masstree_struct.hh, masstree_insert.hh.  The packed
      log word, and a leaf's insertions, updates and recovery as sequences of stores
      that a crash may cut and whose cache lines may persist separately.
    - ExtLog: incll_extlog.hh, incll_pextlog.hh, incll_extflush.hh, the log of whole nodes.
    - Ppp: kvthread_persistent.hh, kvthread_pallocator.hh, kvthread.hh.  Pointers with an
      epoch and an undo copy, the persistent arena, the pools of equal blocks.
    - Rcu: kvthread.hh, kvthread.cc.  The limbo lists of memory to free, and epochs.
    - GlobalFlush: incll_gf.hh, incll_barrier.hh, incll_globals.cc, mttest.cc.  The two protocols
      by which threads flush and advance the epoch, as steps over semaphores and a barrier.
    - ValueLog, LogReplay: log.cc, log.hh, mtd.cc.  The bytes of the request log, the threads
      that record and the logger, the passes of recovery; proofs from the records to the replay.
    - LogApply, LogOrder, LogRestore: log.cc, kvrow.hh, kvthread.hh, mtd.cc.  What a replayed
      record does to a row, in any order; the requests that were recorded; proofs.
    - Internode, LeafSplit: masstree_struct.hh, masstree_split.hh, masstree_insert.hh.
      Inserting into interior nodes and leaves, and splitting them.
    - LeafLink: btree_leaflink.hh, the doubly linked list of leaves, at the grain of
      single memory accesses by any number of threads.
    - Tree: masstree_struct.hh, masstree_get.hh.  Lookup through levels and layers.
    - TreeOps: masstree_get.hh, masstree_insert.hh, masstree_split.hh, kvrow.hh.  Insertion:
      the search that redirects stale layer roots, new layers, splits up to a new root.
    - TreeShape, TreeMap: what the memory of a layer is, in what order its entries are,
      and the map from strings to values that a tree of layers stands for.
    - TreeInsert, TreeSplit, TreeLayer, TreeGrow, TreeTwig, TreeMono: proofs about insertion: one
      turn of the split loop, the loop, one layer, the family of layers, new layers, fuel.
    - TreePut: [put] as an update of that map.
    - TreeRemove, TreePrune, TreeDelete: masstree_remove.hh, kvrow.hh.  Removal: empty leaves
      are unlinked, interior nodes collapse, keys above move up; proofs about one turn of
      the loop, the loop and the whole operation.  TreeGc, TreeDestroy: the callbacks, defined
      in TreeRemove, that collect an empty layer and that free a whole tree.
    - TreeScan, TreeListing, TreeLeaves, TreeForward: masstree_scan.hh, kvrow.hh.  Scans as the
      code's state machine with its key buffer; the bindings in order; proofs about a step,
      a layer and the whole scan.
    - TreeTable: sequences of requests to a table, with memory given back and used again.
    - ValueArray, ValueString, ValueBag: the row formats of the same names.  ValueVersioned: rows
      updated in place under a version word, with readers that take snapshots.
    - Msgpack, MsgpackStream, MsgpackPieces: msgpack.hh, msgpack.cc, json.hh, json.cc and
      mtd.cc.  The binary formats, the pull parser, the streaming parser with its stack
      of pointers into the value under construction, and the receive loop.

    A component's file follows the code's names; PROJECT.json maps every definition to the
    lines it translates.

    * What the theorems show

    - The table: [TreeTable.table_refines_map], that a new table answers any requests as a
      finite map does, and [TreeTable.table_answers], that it does answer; from
      [TreePut.put_correct], [TreeDelete.remove_correct], [TreeForward.scan_correct] and
      [TreeMap.get_correct] on any well-formed tree, which rest on the search within a node,
      the order of keys and the splits of single nodes.  [TreeGc.gc_callback_correct] and
      [TreeDestroy.destroy_correct]: what is collected or destroyed, and that the map stays.
    - Durability: [Incll.incll_crash_recovery] for every crash point and every choice of lines
      that reached memory, under the hypotheses [Incll.recovery_hypotheses_needed] shows to
      be necessary; [ExtLog.undo_restores], [Ppp.ppp_rollback].
    - The log of requests: [LogReplay.log_replay_correct], from the records of threads through a
      crash to the updates a replay runs; [LogReplay.recover_logs_correct], the range of epochs
      over all logs; [LogRestore.replay_restores], that the updates in any order over a
      checkpoint give the rows the clients made.
    - Concurrency: [LeafLink.leaflink_concurrent], [NodeVersion.lock_mutual_exclusion],
      [NodeVersion.has_changed_sound], [Rcu.rcu_grace],
      [ValueVersioned.Versioned.Shared.snapshot_consistent],
      [GlobalFlush.Manual.advance_epoch_correct], [GlobalFlush.Automatic.flush_meets], each over
      all interleavings of any number of threads, with sequentially consistent memory.
    - Structure: [LeafSplit.leaf_split_correct], [Internode.insert_child_correct],
      [Permuter.perm_op_refines], [StringBag.assign_correct].
    - Messages and rows: [MsgpackStream.json_roundtrip], [MsgpackPieces.receive_pieces] and the
      updates of the four row formats.
    - Limits of the code: the theorems of kind error and bounds, and the findings of
      PROJECT.json that name them.

    * Conventions

    Machine words are integers with their wrap-around written out.  A definition that can fail
    an assertion, leave an array or run out of fuel returns an option, and its theorem says
    that it returns a result: fuel is a number of loop turns, and the theorems give a
    bound or prove that one exists.  Addresses are integers and 0 is the null pointer.
    Memory that the code reads before writing it is a parameter named [uninit].

    * Not modelled

    The tree's files have one thread; what many threads do is modelled where they meet: version
    words, leaf links, epochs, flushes, the log of requests.  [TreeTable.table_refines_map] is
    about tables whose empty layers stay; that a collection keeps the map is a theorem of its
    own, since collections and the table's stale root pointer do not go together
    ([TreeTable.stale_root_failures]).  Reverse scans are modelled, but they repeat rows where a
    layer is empty ([TreeTable.rscan_repeats]); the theorems are about forward scans.  The log
    and the checkpoints do file I/O around formats that are modelled; opening, mapping and
    renaming files, and the timers that ask for flushes, are system calls.  Phantom epochs,
    which only tests of transactions read, are left out, and so are servers, clients,
    benchmarks, command lines, the string library, Json text, printing and the weaker memory
    orders that the hardware may show: they are I/O, or general libraries that the tree does
    not rest on, or would need a model of the memory that the code does not state. *)
From Stdlib Require Export ZArith Lia Bool.
From stdpp Require Export base tactics functions list gmap numbers.
From coqutil Require Export Z.bitblast.

#[global] Open Scope Z_scope.
#[global] Set Default Goal Selector "!".

(** * Machine integers

    A [w]-bit unsigned integer of the program is a [Z] in [0, 2^w); every
    arithmetic result is brought back to that range by [wrap].  A signed
    integer is read from its unsigned image by [to_signed]. *)

Definition wrap (w x : Z) : Z := x mod 2 ^ w.
Definition to_signed (w x : Z) : Z :=
  let y := wrap w x in if y <? 2 ^ (w - 1) then y else y - 2 ^ w.

Abbreviation u8 := (wrap 8).
Abbreviation u16 := (wrap 16).
Abbreviation u32 := (wrap 32).
Abbreviation u64 := (wrap 64).

(** C-like spelling of the bit operations, in a scope of its own. *)
Declare Scope mt_scope.
Delimit Scope mt_scope with mt.
Infix ".&" := Z.land (at level 40, left associativity) : mt_scope.
Infix ".|" := Z.lor (at level 50, left associativity) : mt_scope.
Infix ".^" := Z.lxor (at level 50, left associativity) : mt_scope.
Infix ".<<" := Z.shiftl (at level 40, left associativity) : mt_scope.
Infix ".>>" := Z.shiftr (at level 40, left associativity) : mt_scope.
#[global] Open Scope mt_scope.

(** [v & m] used as a C condition. *)
Definition tst (v m : Z) : bool := negb (v .& m =? 0).

(** A C [bool] used as an integer. *)
Definition b2z (b : bool) : Z := if b then 1 else 0.

(** The three-way [compare] of compiler.hh. *)
Definition compare (a b : Z) : Z :=
  if a =? b then 0 else if a <? b then -1 else 1.

(** * Arrays indexed by a machine integer

    The program indexes its arrays with [int]s.  Reading outside the array is
    undefined in the program; the model returns 0 and writing outside leaves
    the array unchanged, so theorems state the bounds they need. *)

Definition get (l : list Z) (i : Z) : Z :=
  if i <? 0 then 0 else nth (Z.to_nat i) l 0.
Definition upd {A} (l : list A) (i : Z) (x : A) : list A :=
  if i <? 0 then l else <[Z.to_nat i := x]> l.

Create HintDb mt discriminated.
#[export] Hint Constants Transparent : mt.

(** * Tactics *)

(** Split boolean tests in hypotheses and goal into propositions. *)
Ltac boolify :=
  repeat match goal with
  | H : (_ && _) = true |- _ => apply andb_true_iff in H; destruct H
  | H : (_ || _) = false |- _ => apply orb_false_iff in H; destruct H
  | H : negb _ = true |- _ => apply negb_true_iff in H
  | H : negb _ = false |- _ => apply negb_false_iff in H
  | H : (_ =? _) = true |- _ => apply Z.eqb_eq in H
  | H : (_ =? _) = false |- _ => apply Z.eqb_neq in H
  | H : (_ <? _) = true |- _ => apply Z.ltb_lt in H
  | H : (_ <? _) = false |- _ => apply Z.ltb_ge in H
  | H : (_ <=? _) = true |- _ => apply Z.leb_le in H
  | H : (_ <=? _) = false |- _ => apply Z.leb_gt in H
  end.

(** Case analysis on the innermost integer comparison of the goal. *)
Ltac zcase :=
  match goal with
  | |- context [?a =? ?b] => destruct (Z.eqb_spec a b)
  | |- context [?a <? ?b] => destruct (Z.ltb_spec a b)
  | |- context [?a <=? ?b] => destruct (Z.leb_spec a b)
  end.
Ltac zcases := repeat (zcase; try lia).

(** Arithmetic with [wrap] and constant moduli. *)
Ltac zwrap := unfold wrap in *; Z.div_mod_to_equations; lia.

(** * Lemmas on wrap *)

Lemma wrap_range w x : 0 <= w -> 0 <= wrap w x < 2 ^ w.
Proof. intros. apply Z.mod_pos_bound. lia. Qed.

Lemma wrap_small w x : 0 <= x < 2 ^ w -> wrap w x = x.
Proof. apply Z.mod_small. Qed.

Lemma wrap_wrap w x : wrap w (wrap w x) = wrap w x.
Proof. unfold wrap. apply Zmod_mod. Qed.

Lemma wrap_testbit w x i : 0 <= w ->
  Z.testbit (wrap w x) i = (i <? w) && Z.testbit x i.
Proof.
  intros. unfold wrap. destruct (Z.ltb_spec i w); simpl.
  - destruct (Z.ltb_spec i 0); [by rewrite !Z.testbit_neg_r|].
    by apply Z.mod_pow2_bits_low.
  - by apply Z.mod_pow2_bits_high.
Qed.

(** A number below [2^w] has no bit at or above [w]. *)
Lemma testbit_high w x i : 0 <= x < 2 ^ w -> w <= i -> Z.testbit x i = false.
Proof.
  intros Hx Hi. destruct (Z.ltb_spec i 0); [by apply Z.testbit_neg_r|].
  rewrite <- (Z.mod_small x (2 ^ w)) by done.
  destruct (Z.ltb_spec w 0).
  { rewrite Z.pow_neg_r in Hx by lia. lia. }
  apply Z.mod_pow2_bits_high. lia.
Qed.

(** The bits [a, b) of [x]: masking with a contiguous mask is subtraction. *)
Lemma land_region x a b : 0 <= a <= b ->
  x .& (2 ^ b - 2 ^ a) = x mod 2 ^ b - x mod 2 ^ a.
Proof.
  intros [Ha Hb].
  assert (E : 2 ^ b - 2 ^ a = Z.ldiff (Z.ones b) (Z.ones a)).
  { rewrite Z.ones_equiv. rewrite Z.ones_equiv.
    rewrite <- Z.sub_nocarry_ldiff; [lia|].
    rewrite <- !Z.ones_equiv. Z.bitblast. }
  rewrite E.
  replace (x mod 2 ^ b - x mod 2 ^ a) with (Z.ldiff (x mod 2 ^ b) (x mod 2 ^ a)).
  - rewrite <- !Z.land_ones by lia. Z.bitblast.
  - rewrite Z.sub_nocarry_ldiff; [done|].
    rewrite <- !Z.land_ones by lia. Z.bitblast.
Qed.

Lemma land_disjoint_add x m n : m .& n = 0 -> x .& (m + n) = x .& m + x .& n.
Proof.
  intros H.
  rewrite <- (Z.or_to_plus m n) by done.
  rewrite <- Z.or_to_plus.
  - apply Z.land_lor_distr_r.
  - rewrite <- (Z.land_assoc x m), (Z.land_comm x n), (Z.land_assoc m n x), H.
    by rewrite Z.land_0_l, Z.land_0_r.
Qed.

(** Setting bits that are clear is addition. *)
Lemma lor_clear_add x m : x .& m = 0 -> x .| m = x + m.
Proof. apply Z.or_to_plus. Qed.

Lemma lxor_zero_iff a b : a .^ b = 0 <-> a = b.
Proof. apply Z.lxor_eq_0_iff. Qed.

Lemma lxor_range w a b : 0 <= w -> 0 <= a < 2 ^ w -> 0 <= b < 2 ^ w ->
  0 <= a .^ b < 2 ^ w.
Proof.
  intros Hw Ha Hb. replace (a .^ b) with (wrap w (a .^ b)).
  { by apply wrap_range. }
  apply Z.bits_inj'; intros i Hi. rewrite wrap_testbit by lia.
  destruct (Z.ltb_spec i w); [done|]. simpl.
  rewrite Z.lxor_spec, (testbit_high w a i), (testbit_high w b i) by lia. done.
Qed.

(** * Lemmas on arrays *)

Lemma get_upd_eq l i x : 0 <= i < Z.of_nat (length l) -> get (upd l i x) i = x.
Proof.
  intros H. unfold get, upd. destruct (Z.ltb_spec i 0); [lia|].
  apply nth_lookup_Some. apply list_lookup_insert_eq. lia.
Qed.

Lemma get_upd_ne l i j x : i <> j -> get (upd l i x) j = get l j.
Proof.
  intros H. unfold get, upd. zcases; try done.
  rewrite !nth_lookup. rewrite list_lookup_insert_ne by lia. done.
Qed.

Lemma length_upd {A} (l : list A) i x : length (upd l i x) = length l.
Proof. unfold upd. destruct (i <? 0); [done|]. apply length_insert. Qed.

Lemma upd_upd_eq {A} (l : list A) i x y : upd (upd l i x) i y = upd l i y.
Proof. unfold upd. destruct (i <? 0); [done|]. apply list_insert_insert_eq. Qed.

Lemma upd_get_id l i : upd l i (get l i) = l.
Proof.
  unfold upd, get. destruct (Z.ltb_spec i 0); [done|].
  destruct (decide (Z.to_nat i < length l)%nat) as [Hlt|Hge].
  - apply list_insert_id. destruct (lookup_lt_is_Some_2 l (Z.to_nat i) Hlt) as [y Hy].
    rewrite Hy. f_equal. symmetry. by apply nth_lookup_Some.
  - apply list_insert_ge. lia.
Qed.

Create Rewrite HintDb mt.
#[export] Hint Rewrite @length_upd @upd_upd_eq upd_get_id wrap_wrap : mt.
#[export] Hint Resolve wrap_range : mt.

(** * Stretches of arrays and insertion into lists *)

Abbreviation arr f a n := (f <$> seqZ a n).
Definition insert_at {A} (i : Z) (v : A) (l : list A) : list A :=
  take (Z.to_nat i) l ++ v :: drop (Z.to_nat i) l.

Section Arr.
Context {A : Type}.
Implicit Types f g : Z -> A.
Lemma arr_ext f g a b n m : n = m -> (forall i, 0 <= i < n -> f (a + i) = g (b + i)) -> arr f a n = arr g b m.
Proof.
  intros <- H. apply list_eq. intros i. rewrite !list_lookup_fmap.
  destruct (decide (Z.of_nat i < n)).
  - rewrite !lookup_seqZ_lt by lia. cbn. f_equal. apply H. lia.
  - by rewrite !lookup_seqZ_ge by lia.
Qed.
Lemma arr_ext0 f g a n : (forall i, a <= i < a + n -> f i = g i) -> arr f a n = arr g a n.
Proof. intros H. apply arr_ext; [done|]. intros. apply H. lia. Qed.
Lemma arr_split f a n m : 0 <= n -> 0 <= m -> arr f a (n + m) = arr f a n ++ arr f (a + n) m.
Proof. intros. by rewrite seqZ_app, fmap_app. Qed.
Lemma arr_cut k f a n : 0 <= k <= n -> arr f a n = arr f a k ++ arr f (a + k) (n - k).
Proof. intros. rewrite <- arr_split by lia. by replace (k + (n - k)) with n by lia. Qed.
Lemma arr_one f a : arr f a 1 = [f a].
Proof. reflexivity. Qed.
Lemma arr_cons f a n : 0 < n -> arr f a n = f a :: arr f (a + 1) (n - 1).
Proof. intros. rewrite (arr_cut 1) by lia. by rewrite arr_one. Qed.
Lemma length_arr f a n : 0 <= n -> Z.of_nat (List.length (arr f a n)) = n.
Proof. intros. rewrite length_fmap, length_seqZ. lia. Qed.
Lemma insert_at_arr i (v : A) f n : 0 <= i <= n -> insert_at i v (arr f 0 n) = arr f 0 i ++ v :: arr f i (n - i).
Proof.
  intros. unfold insert_at. rewrite (arr_cut i f 0 n) by lia. cbn [Z.add].
  pose proof (length_arr f 0 i ltac:(lia)).
  rewrite take_app_length' by lia. by rewrite drop_app_length' by lia.
Qed.

Lemma insert_at_app i (v : A) a b : 0 <= i <= Z.of_nat (List.length a) -> insert_at i v (a ++ b) = insert_at i v a ++ b.
Proof.
  intros. unfold insert_at. rewrite take_app_le, drop_app_le by lia. by rewrite <- app_assoc.
Qed.
Lemma elem_of_insert_at i (v : A) l c : c ∈ insert_at i v l <-> c = v \/ c ∈ l.
Proof.
  unfold insert_at. rewrite elem_of_app, elem_of_cons. rewrite <- (take_drop (Z.to_nat i) l) at 3.
  rewrite elem_of_app. tauto.
Qed.
Lemma insert_at_Permutation i (v : A) l : insert_at i v l ≡ₚ v :: l.
Proof. unfold insert_at. by rewrite <- Permutation_middle, take_drop. Qed.
End Arr.
