(* ===== verification/CircularInt.v ===== *)
(** circular_int.hh: integers compared on a circle.

    [circular_int<T>] holds a [value_type], the unsigned [w]-bit image of [T];
    it orders two values by the sign of their [w]-bit difference.  The log
    epochs ([kvepoch_t], [w = 64]), the RCU epochs and the phantom epochs of
    leaves are ordered this way. *)
From S2P Require Import Prelude.

Section CircularInt.
Context (w : Z) (Hw : 0 < w).

(** Increment and decrement wrap. *)
Definition incr (v : Z) : Z := wrap w (v + 1).
Definition decr (v : Z) : Z := wrap w (v - 1).
(** [operator++(int)] returns the value before the increment. *)
Definition post_incr (v : Z) : Z * Z := let v' := wrap w (v + 1) in (v', wrap w (v' - 1)).
Definition post_decr (v : Z) : Z * Z := let v' := wrap w (v - 1) in (v', wrap w (v' + 1)).
Definition add (v x : Z) : Z := wrap w (v + x).
Definition sub (v x : Z) : Z := wrap w (v - x).
(** [v + !v] skips zero, which is not a valid epoch. *)
Definition next_nonzero (v : Z) : Z :=
  let v' := wrap w (v + 1) in wrap w (v' + b2z (v' =? 0)).
(** [circular - circular] is the signed difference. *)
Definition diff (a b : Z) : Z := to_signed w (a - b).
Definition less (a b : Z) : bool := diff a b <? 0.
Definition less_equal (a b : Z) : bool := diff a b <=? 0.
Definition op_lt (a b : Z) : bool := less a b.
Definition op_le (a b : Z) : bool := negb (less b a).
Definition op_ge (a b : Z) : bool := negb (less a b).
Definition op_gt (a b : Z) : bool := less b a.
(** One compare-and-swap of the cell: the new content and the old one. *)
Definition cmpxchg (cell expected desired : Z) : Z * Z :=
  (if cell =? expected then desired else cell, cell).

(** ** Lemmas *)

Lemma pow_half : 2 ^ w = 2 * 2 ^ (w - 1).
Proof. rewrite <- Z.pow_succ_r by lia. f_equal. lia. Qed.

Lemma diff_range a b : - 2 ^ (w - 1) <= diff a b < 2 ^ (w - 1).
Proof.
  unfold diff, to_signed. pose proof (wrap_range w (a - b) ltac:(lia)).
  pose proof pow_half. zcases.
Qed.

Lemma wrap_eq_split x : exists k, x = wrap w x + k * 2 ^ w.
Proof. exists (x / 2 ^ w). unfold wrap. pose proof (Z.div_mod x (2 ^ w)). lia. Qed.

(** The signed difference is the plain one for values less than half a circle apart. *)
Lemma diff_near a b : - 2 ^ (w - 1) <= a - b < 2 ^ (w - 1) -> diff a b = a - b.
Proof.
  intros H. unfold diff, to_signed. pose proof pow_half as P.
  destruct (Z.leb_spec 0 (a - b)).
  - rewrite wrap_small by lia. zcases.
  - assert (wrap w (a - b) = a - b + 2 ^ w) as ->; [|zcases].
    unfold wrap. symmetry. apply Z.mod_unique_pos with (q := -1); lia.
Qed.

Lemma diff_wrap a b : diff (wrap w a) (wrap w b) = diff a b.
Proof. unfold diff, to_signed, wrap. by rewrite <- Zminus_mod. Qed.

Lemma diff_self a : diff a a = 0.
Proof. rewrite diff_near; pose proof pow_half; lia. Qed.

(** C20  Within any window shorter than half the circle the circular order is
    the order of the unwrapped integers, all five comparison operators agree
    with it, and [next_nonzero] is the successor that skips the invalid value
    zero. *)
Theorem less_window base x y
  (Hx : base <= x < base + 2 ^ (w - 1)) (Hy : base <= y < base + 2 ^ (w - 1)) :
  less (wrap w x) (wrap w y) = (x <? y) /\
  less_equal (wrap w x) (wrap w y) = (x <=? y) /\
  op_lt (wrap w x) (wrap w y) = (x <? y) /\
  op_le (wrap w x) (wrap w y) = (x <=? y) /\
  op_ge (wrap w x) (wrap w y) = (y <=? x) /\
  op_gt (wrap w x) (wrap w y) = (y <? x) /\
  next_nonzero (wrap w x) <> 0.
Proof.
  pose proof pow_half as P.
  unfold op_lt, op_le, op_ge, op_gt, less, less_equal.
  rewrite !diff_wrap, !diff_near by lia.
  repeat split; zcases; try done.
  unfold next_nonzero, b2z.
  pose proof (wrap_range w (wrap w x + 1) ltac:(lia)).
  assert (2 <= 2 ^ w) by (pose proof (Z.pow_pos_nonneg 2 (w - 1)); lia).
  destruct (Z.eqb_spec (wrap w (wrap w x + 1)) 0) as [->|]; rewrite wrap_small; lia.
Qed.
End CircularInt.

(** [kvepoch_t] and the RCU epochs are 64-bit circular integers. *)
Abbreviation less64 := (less 64).
Abbreviation less_equal64 := (less_equal 64).

Lemma less_window_witness :
  less 64 (wrap 64 (2 ^ 64 - 1)) (wrap 64 (2 ^ 64 + 3)) = true /\
  next_nonzero 64 (wrap 64 (2 ^ 64 - 1)) <> 0.
Proof.
  destruct (less_window 64 ltac:(lia) (2 ^ 64 - 10) (2 ^ 64 - 1) (2 ^ 64 + 3)
    ltac:(lia) ltac:(lia)) as (A & _ & _ & _ & _ & _ & B).
  split; [exact A | exact B].
Defined.
