(* ===== verification/NodeVersion.v ===== *)
(** nodeversion.hh: version words, node locks and the optimistic readers'
    validation.

    A version word packs a lock bit, the dirty bits (inserting, splitting), an
    insert counter, a split counter and the deleted, root and leaf bits.
    Section [Ops] translates [nodeversion<P>] for any parameters [P];
    [params32] and [params64] are the two specialisations of
    [nodeversion_parameters].  Module [Single] is [singlethreaded_nodeversion].
    Section [Protocol] runs the lock loop of several threads as a step relation
    on one shared word. *)
From S2P Require Import Prelude.

(** * Parameters *)

Record nodeversion_parameters := {
  bits : Z;
  lock_bit : Z; inserting_shift : Z; inserting_bit : Z; splitting_bit : Z;
  dirty_mask : Z; vinsert_lowbit : Z; vsplit_lowbit : Z; unused1_bit : Z;
  deleted_bit : Z; root_bit : Z; isleaf_bit : Z;
  split_unlock_mask : Z; unlock_mask : Z; version_counter_mask : Z;
  top_stable_bits : Z
}.

Definition params32 : nodeversion_parameters := {|
  bits := 32;
  lock_bit := 1 .<< 0; inserting_shift := 1; inserting_bit := 1 .<< 1;
  splitting_bit := 1 .<< 2;
  dirty_mask := (1 .<< 1) .| (1 .<< 2);
  vinsert_lowbit := 1 .<< 3; vsplit_lowbit := 1 .<< 9;
  unused1_bit := 1 .<< 28; deleted_bit := 1 .<< 29; root_bit := 1 .<< 30;
  isleaf_bit := 1 .<< 31;
  split_unlock_mask := u32 (Z.lnot ((1 .<< 30) .| (1 .<< 28) .| ((1 .<< 9) - 1)));
  unlock_mask := u32 (Z.lnot ((1 .<< 28) .| ((1 .<< 3) - 1)));
  version_counter_mask := u32 (Z.lnot 0x3FFFFFFF);
  top_stable_bits := 4
|}.

(** The 64-bit parameters declare no [version_counter_mask]; it is not used there. *)
Definition params64 : nodeversion_parameters := {|
  bits := 64;
  lock_bit := 1 .<< 8; inserting_shift := 9; inserting_bit := 1 .<< 9;
  splitting_bit := 1 .<< 10;
  dirty_mask := (1 .<< 9) .| (1 .<< 10);
  vinsert_lowbit := 1 .<< 11; vsplit_lowbit := 1 .<< 27;
  unused1_bit := 1 .<< 60; deleted_bit := 1 .<< 61; root_bit := 1 .<< 62;
  isleaf_bit := 1 .<< 63;
  split_unlock_mask := u64 (Z.lnot ((1 .<< 62) .| (1 .<< 60) .| ((1 .<< 27) - 1)));
  unlock_mask := u64 (Z.lnot ((1 .<< 60) .| ((1 .<< 11) - 1)));
  version_counter_mask := 0;
  top_stable_bits := 4
|}.

(** * Operations of [nodeversion<P>]

    The word [v_] is the first argument; an operation that changes it returns
    the new word.  Fences order memory accesses and have no effect here. *)
Section Ops.
Context (P : nodeversion_parameters).

Definition init (leaf : bool) : Z := if leaf then isleaf_bit P else 0.
Definition isleaf (v : Z) : bool := tst v (isleaf_bit P).

(** The reads of [v_] that the spin loop sees, in order: [None] while it still
    spins, the first clean word otherwise. *)
Fixpoint stable (reads : list Z) : option Z :=
  match reads with
  | [] => None
  | x :: reads' => if tst x (dirty_mask P) then stable reads' else Some x
  end.

Definition locked (v : Z) : bool := tst v (lock_bit P).
Definition inserting (v : Z) : bool := tst v (inserting_bit P).
Definition splitting (v : Z) : bool := tst v (splitting_bit P).
Definition deleted (v : Z) : bool := tst v (deleted_bit P).
Definition is_root (v : Z) : bool := tst v (root_bit P).
Definition has_changed (v x : Z) : bool := lock_bit P <? (x .^ v).
Definition has_split (v x : Z) : bool := vsplit_lowbit P <=? (x .^ v).
Definition simple_has_split (v x : Z) : bool := vsplit_lowbit P <=? (x .^ v).

(** One turn of the loop of [lock]: the compare-and-swap succeeds ([inl] the new
    word and the version to return) or the expected version is read again. *)
Definition lock_turn (v expected : Z) : (Z * Z) + Z :=
  if negb (tst expected (lock_bit P)) && (v =? expected)
  then inl (expected .| lock_bit P, expected .| lock_bit P)
  else inr v.

(** [unlock(x)]: the word stored when the holder's version is [x]. *)
Definition unlock (x : Z) : Z :=
  if tst x (splitting_bit P)
  then wrap (bits P) (x + vsplit_lowbit P) .& split_unlock_mask P
  else wrap (bits P) (x + wrap (bits P) ((x .& inserting_bit P) .<< 2)) .& unlock_mask P.

Definition mark_insert (v : Z) : Z := v .| inserting_bit P.
Definition clear_unlock (v : Z) : Z := v .& wrap (bits P) (Z.lnot (lock_bit P)).
Definition clear_insert (v : Z) : Z := v .& wrap (bits P) (Z.lnot (inserting_bit P)).
Definition clear_version_counter_bits (v : Z) : Z := v .& version_counter_mask P.
Definition mark_split (v : Z) : Z := v .| splitting_bit P.
Definition mark_change (v : Z) (is_split : bool) : Z :=
  v .| ((b2z is_split + 1) .<< inserting_shift P).
Definition mark_deleted (v : Z) : Z := v .| (deleted_bit P .| splitting_bit P).
Definition mark_deleted_tree (v : Z) : Z := v .| deleted_bit P.
Definition mark_root (v : Z) : Z := v .| root_bit P.
Definition mark_nonroot (v : Z) : Z := v .& wrap (bits P) (Z.lnot (root_bit P)).
Definition unlocked_version_value (v : Z) : Z := v .& unlock_mask P.
End Ops.

(** * [singlethreaded_nodeversion<P>]: no lock, no counters *)
Module Single.
Section Ops.
Context (P : nodeversion_parameters).
Definition init (leaf : bool) : Z := if leaf then isleaf_bit P else 0.
Definition isleaf (v : Z) : bool := tst v (isleaf_bit P).
Definition stable (v : Z) : Z := v.
Definition locked (v : Z) : bool := false.
Definition inserting (v : Z) : bool := false.
Definition splitting (v : Z) : bool := false.
Definition deleted (v : Z) : bool := false.
Definition has_changed (v x : Z) : bool := false.
Definition is_root (v : Z) : bool := tst v (root_bit P).
Definition has_split (v x : Z) : bool := false.
Definition lock (v : Z) : Z := v.
Definition unlock (v : Z) : Z := v.
Definition mark_insert (v : Z) : Z := v.
Definition mark_split (v : Z) : Z := v .& wrap (bits P) (Z.lnot (root_bit P)).
Definition mark_change (v : Z) (is_split : bool) : Z := if is_split then mark_split v else v.
Definition mark_deleted (v : Z) : Z := v.
Definition mark_deleted_tree (v : Z) : Z := v .| deleted_bit P.
Definition mark_root (v : Z) : Z := v .| root_bit P.
Definition mark_nonroot (v : Z) : Z := v .& wrap (bits P) (Z.lnot (root_bit P)).
Definition unlocked_version_value (v : Z) : Z := v.
End Ops.
End Single.

(** * Laws of the parameters

    Both specialisations lay their fields out the same way: lock, inserting and
    splitting bits at [lpos], [lpos+1], [lpos+2]; the insert counter from
    [lpos+3], the split counter from [spos], the unused bit at [upos] and the
    deleted, root and leaf bits above it.  The theorems below are proved against
    this interface. *)
Class VersionLaws (P : nodeversion_parameters) := {
  lpos : Z; spos : Z; upos : Z;
  law_l : 0 <= lpos; law_s : lpos + 3 < spos; law_u : spos < upos;
  law_bits : bits P = upos + 4;
  law_lock : lock_bit P = 2 ^ lpos;
  law_shift : inserting_shift P = lpos + 1;
  law_inserting : inserting_bit P = 2 ^ (lpos + 1);
  law_splitting : splitting_bit P = 2 ^ (lpos + 2);
  law_dirty : dirty_mask P = 2 ^ (lpos + 1) .| 2 ^ (lpos + 2);
  law_vinsert : vinsert_lowbit P = 2 ^ (lpos + 3);
  law_vsplit : vsplit_lowbit P = 2 ^ spos;
  law_unused1 : unused1_bit P = 2 ^ upos;
  law_deleted : deleted_bit P = 2 ^ (upos + 1);
  law_root : root_bit P = 2 ^ (upos + 2);
  law_isleaf : isleaf_bit P = 2 ^ (upos + 3);
  law_unlock : forall i, 0 <= i -> Z.testbit (unlock_mask P) i =
    (lpos + 3 <=? i) && (i <? upos + 4) && negb (i =? upos);
  law_split_unlock : forall i, 0 <= i -> Z.testbit (split_unlock_mask P) i =
    (spos <=? i) && (i <? upos + 4) && negb (i =? upos) && negb (i =? upos + 2)
}.

(** A mask below [2^n] is determined by its [n] bits. *)
Lemma mask_bits n m f :
  (forall i, Z.of_nat n <= i -> f i = false) -> 0 <= m < 2 ^ Z.of_nat n ->
  forallb (fun k => Bool.eqb (Z.testbit m (Z.of_nat k)) (f (Z.of_nat k))) (seq 0 n) = true ->
  forall i, 0 <= i -> Z.testbit m i = f i.
Proof.
  intros Hf Hm Hall i Hi. destruct (Z.ltb_spec i (Z.of_nat n)).
  - rewrite forallb_forall in Hall. specialize (Hall (Z.to_nat i)).
    rewrite Z2Nat.id in Hall by lia. apply eqb_prop, Hall, in_seq. lia.
  - rewrite Hf by lia. by apply (testbit_high (Z.of_nat n)).
Qed.

#[export] Instance params32_laws : VersionLaws params32.
Proof.
  refine {| lpos := 0; spos := 9; upos := 28 |}; try done; try lia.
  - apply (mask_bits 32); [intros; zcases; done|split; vm_compute; congruence|by vm_compute].
  - apply (mask_bits 32); [intros; zcases; done|split; vm_compute; congruence|by vm_compute].
Defined.

#[export] Instance params64_laws : VersionLaws params64.
Proof.
  refine {| lpos := 8; spos := 27; upos := 60 |}; try done; try lia.
  - apply (mask_bits 64); [intros; zcases; done|split; vm_compute; congruence|by vm_compute].
  - apply (mask_bits 64); [intros; zcases; done|split; vm_compute; congruence|by vm_compute].
Defined.

(** Testing a one-bit mask reads that bit. *)
Lemma tst_pow2 v k : 0 <= k -> tst v (2 ^ k) = Z.testbit v k.
Proof.
  intros Hk. unfold tst. destruct (Z.testbit v k) eqn:E.
  - apply negb_true_iff, Z.eqb_neq. intros H.
    assert (Z.testbit (v .& 2 ^ k) k = false) as C by (rewrite H; apply Z.testbit_0_l).
    rewrite Z.land_spec, E, Z.pow2_bits_true in C by lia. done.
  - apply negb_false_iff, Z.eqb_eq. apply Z.bits_inj'; intros i Hi.
    rewrite Z.land_spec, Z.testbit_0_l, Z.pow2_bits_eqb by lia.
    destruct (Z.eqb_spec k i) as [->|]; [by rewrite E|apply andb_false_r].
Qed.

Lemma tst_lor v a b : tst v (a .| b) = tst v a || tst v b.
Proof.
  unfold tst. rewrite Z.land_lor_distr_r.
  destruct (Z.eqb_spec (v .& a) 0) as [->|Ha]; simpl.
  - by rewrite Z.lor_0_l.
  - apply negb_true_iff, Z.eqb_neq. intros H. by apply Z.lor_eq_0_iff in H as [? _].
Qed.

Section Facts.
Context (P : nodeversion_parameters) {L : VersionLaws P}.

Lemma locked_bit v : locked P v = Z.testbit v lpos.
Proof. unfold locked. rewrite law_lock. apply tst_pow2, law_l. Qed.
Lemma inserting_bit_spec v : inserting P v = Z.testbit v (lpos + 1).
Proof. unfold inserting. rewrite law_inserting. apply tst_pow2. pose proof law_l. lia. Qed.
Lemma splitting_bit_spec v : splitting P v = Z.testbit v (lpos + 2).
Proof. unfold splitting. rewrite law_splitting. apply tst_pow2. pose proof law_l. lia. Qed.
Lemma dirty_spec v : tst v (dirty_mask P) = inserting P v || splitting P v.
Proof.
  rewrite law_dirty, tst_lor. unfold inserting, splitting.
  by rewrite law_inserting, law_splitting.
Qed.

(** The bits a word of the protocol may have. *)
Record wf_word (v : Z) : Prop := {
  wf_range : 0 <= v < 2 ^ bits P;
  wf_low : forall i, i < lpos -> Z.testbit v i = false;
  wf_unused : Z.testbit v upos = false
}.

(** The insert and split counters, read as one number. *)
Definition counter_bits : Z := upos - (lpos + 3).
Definition counter (v : Z) : Z := (v / 2 ^ (lpos + 3)) mod 2 ^ counter_bits.

Lemma positions : 0 <= lpos /\ lpos + 3 < spos /\ spos < upos /\ bits P = upos + 4.
Proof. pose proof law_l; pose proof law_s; pose proof law_u; pose proof law_bits. lia. Qed.

Lemma counter_testbit v i : 0 <= i ->
  Z.testbit (counter v) i = (i <? counter_bits) && Z.testbit v (i + (lpos + 3)).
Proof.
  intros Hi. unfold counter. pose proof positions.
  change (?x mod 2 ^ ?w) with (wrap w x). rewrite wrap_testbit by (unfold counter_bits; lia).
  by rewrite Z.div_pow2_bits by lia.
Qed.

(** Words that agree on the counter bits have the same counter. *)
Lemma counter_ext v v' :
  (forall i, lpos + 3 <= i < upos -> Z.testbit v i = Z.testbit v' i) ->
  counter v = counter v'.
Proof.
  intros H. apply Z.bits_inj'; intros i Hi. rewrite !counter_testbit by lia.
  unfold counter_bits. destruct (Z.ltb_spec i (upos - (lpos + 3))); [|done].
  simpl. apply H. lia.
Qed.

Lemma counter_range v : 0 <= counter v < 2 ^ counter_bits.
Proof. apply Z.mod_pos_bound, Z.pow_pos_nonneg; [lia|]. unfold counter_bits. pose proof positions. lia. Qed.

(** Words whose bits agree except the lock bit are the ones a reader accepts. *)
Lemma has_changed_false v x : wf_word v -> wf_word x ->
  has_changed P v x = false -> forall i, i <> lpos -> Z.testbit v i = Z.testbit x i.
Proof.
  intros Hv Hx H i Hi. unfold has_changed in H. boolify. rewrite law_lock in H.
  pose proof positions as Q.
  assert (Hr : 0 <= x .^ v < 2 ^ bits P) by (apply lxor_range; [lia|apply Hx|apply Hv]).
  destruct (Z.ltb_spec i lpos).
  { by rewrite (wf_low _ Hv), (wf_low _ Hx) by lia. }
  assert (Hlow : (x .^ v) mod 2 ^ lpos = 0).
  { apply Z.bits_inj'; intros j Hj. rewrite Z.testbit_0_l.
    destruct (Z.ltb_spec j lpos).
    - rewrite Z.mod_pow2_bits_low, Z.lxor_spec, (wf_low _ Hv), (wf_low _ Hx) by lia. done.
    - by rewrite Z.mod_pow2_bits_high by lia. }
  assert (x .^ v = 0 \/ x .^ v = 2 ^ lpos) as [E|E].
  { apply Z.mod_divide in Hlow as [k Hk]; [|lia].
    assert (0 < 2 ^ lpos) by lia. assert (k = 0 \/ k = 1) by nia. nia. }
  - apply Z.lxor_eq in E. by subst.
  - assert (Z.testbit (x .^ v) i = false) as C.
    { rewrite E. apply Z.pow2_bits_false. lia. }
    rewrite Z.lxor_spec in C. destruct (Z.testbit x i), (Z.testbit v i); done.
Qed.
End Facts.
Arguments counter_bits _ {_}.

(** * The effect of each operation, bit by bit *)
Section Effects.
Context (P : nodeversion_parameters) {L : VersionLaws P}.

Lemma testbit_pow2 k i : 0 <= k -> 0 <= i -> Z.testbit (2 ^ k) i = (k =? i).
Proof. intros. by rewrite Z.pow2_bits_eqb. Qed.

Lemma clear_bit_testbit v k i : 0 <= i -> 0 <= k < bits P ->
  Z.testbit (v .& wrap (bits P) (Z.lnot (2 ^ k))) i =
  (i <? bits P) && Z.testbit v i && negb (i =? k).
Proof.
  intros Hi Hk. rewrite Z.land_spec, wrap_testbit, Z.lnot_spec, testbit_pow2 by lia.
  rewrite (Z.eqb_sym k i). destruct (Z.testbit v i), (i <? bits P), (i =? k); done.
Qed.

(** [x] or-ed with bit masks: which bits are set. *)
Definition sets (v v' : Z) (ks : list Z) : Prop :=
  forall i, 0 <= i -> Z.testbit v' i = Z.testbit v i || existsb (Z.eqb i) ks.

Lemma lock_sets v : sets v (v .| lock_bit P) [lpos].
Proof.
  intros i Hi. pose proof (positions P). rewrite law_lock, Z.lor_spec, testbit_pow2 by lia.
  simpl. by rewrite orb_false_r, Z.eqb_sym.
Qed.
Lemma mark_insert_sets v : sets v (mark_insert P v) [lpos + 1].
Proof.
  intros i Hi. pose proof (positions P). unfold mark_insert.
  rewrite law_inserting, Z.lor_spec, testbit_pow2 by lia.
  simpl. by rewrite orb_false_r, Z.eqb_sym.
Qed.
Lemma mark_split_sets v : sets v (mark_split P v) [lpos + 2].
Proof.
  intros i Hi. pose proof (positions P). unfold mark_split.
  rewrite law_splitting, Z.lor_spec, testbit_pow2 by lia.
  simpl. by rewrite orb_false_r, Z.eqb_sym.
Qed.
Lemma mark_change_is v b :
  mark_change P v b = if b then mark_split P v else mark_insert P v.
Proof.
  unfold mark_change, mark_split, mark_insert.
  rewrite law_shift, law_splitting, law_inserting. pose proof (positions P).
  destruct b; rewrite Z.shiftl_mul_pow2 by lia; f_equal.
  - replace (lpos + 2) with (Z.succ (lpos + 1)) by lia. by rewrite Z.pow_succ_r by lia.
  - apply Z.mul_1_l.
Qed.
Lemma mark_deleted_sets v : sets v (mark_deleted P v) [upos + 1; lpos + 2].
Proof.
  intros i Hi. pose proof (positions P). unfold mark_deleted.
  rewrite law_deleted, law_splitting, !Z.lor_spec, !testbit_pow2 by lia.
  simpl. by rewrite orb_false_r, (Z.eqb_sym i (upos + 1)), (Z.eqb_sym i (lpos + 2)).
Qed.
Lemma mark_deleted_tree_sets v : sets v (mark_deleted_tree P v) [upos + 1].
Proof.
  intros i Hi. pose proof (positions P). unfold mark_deleted_tree.
  rewrite law_deleted, Z.lor_spec, testbit_pow2 by lia.
  simpl. by rewrite orb_false_r, Z.eqb_sym.
Qed.
Lemma mark_root_sets v : sets v (mark_root P v) [upos + 2].
Proof.
  intros i Hi. pose proof (positions P). unfold mark_root.
  rewrite law_root, Z.lor_spec, testbit_pow2 by lia.
  simpl. by rewrite orb_false_r, Z.eqb_sym.
Qed.

(** A word given by its bits is in range when the high ones are clear. *)
Lemma range_of_bits w v : 0 <= w -> 0 <= v -> (forall i, w <= i -> Z.testbit v i = false) ->
  0 <= v < 2 ^ w.
Proof.
  intros Hw Hv H. split; [done|].
  destruct (Z.eq_dec v 0) as [->|]; [lia|].
  apply Z.log2_lt_pow2; [lia|].
  destruct (Z.ltb_spec (Z.log2 v) w); [done|].
  specialize (H (Z.log2 v) ltac:(lia)). rewrite Z.bit_log2 in H by lia. done.
Qed.

Lemma sets_wf v v' ks : wf_word P v -> sets v v' ks -> 0 <= v' ->
  Forall (fun k => lpos <= k < bits P /\ k <> upos) ks -> wf_word P v'.
Proof.
  intros Hv Hs H0 Hk. pose proof (positions P).
  assert (E : forall i, (i < lpos \/ bits P <= i \/ i = upos) -> existsb (Z.eqb i) ks = false).
  { intros i Hi. apply not_true_iff_false. intros C%existsb_exists.
    destruct C as (k & Hin & ->%Z.eqb_eq).
    apply Forall_forall with (x := k) in Hk; [lia|exact Hin]. }
  split.
  - apply range_of_bits; [lia|done|]. intros i Hi. rewrite Hs by lia.
    rewrite (testbit_high (bits P) v i) by (apply Hv || lia). rewrite E by lia. done.
  - intros i Hi. destruct (Z.ltb_spec i 0); [by rewrite Z.testbit_neg_r|].
    rewrite Hs by lia. rewrite (wf_low _ _ Hv) by lia. rewrite E by lia. done.
  - rewrite Hs by lia. rewrite (wf_unused _ _ Hv). rewrite E by lia. done.
Qed.

(** ** unlock *)

Lemma shift2_inserting v :
  wrap (bits P) ((v .& inserting_bit P) .<< 2) =
  if inserting P v then 2 ^ (lpos + 3) else 0.
Proof.
  pose proof (positions P). rewrite law_inserting, (inserting_bit_spec P).
  apply Z.bits_inj'; intros i Hi.
  rewrite wrap_testbit by lia.
  destruct (Z.ltb_spec i 2).
  { rewrite Z.shiftl_spec_low by lia.
    destruct (Z.testbit v (lpos + 1)); rewrite ?testbit_pow2, ?Z.testbit_0_l by lia.
    - by zcases; rewrite ?andb_false_r.
    - by rewrite andb_false_r. }
  rewrite Z.shiftl_spec, Z.land_spec, testbit_pow2 by lia.
  destruct (Z.testbit v (lpos + 1)) eqn:E; rewrite ?testbit_pow2, ?Z.testbit_0_l by lia.
  - destruct (Z.eqb_spec (lpos + 1) (i - 2)) as [Hi2|Hi2].
    + rewrite <- Hi2, E. by zcases.
    + rewrite andb_false_r, andb_false_r. by zcases.
  - destruct (Z.eqb_spec (lpos + 1) (i - 2)) as [Hi2|Hi2].
    + rewrite <- Hi2, E. by rewrite andb_false_r.
    + by rewrite !andb_false_r.
Qed.

(** The sum before masking: no carry leaves the unused bit, so every bit above
    it keeps its value. *)
Lemma add_low_high v d i : wf_word P v -> 0 <= d <= 2 ^ spos -> upos < i ->
  Z.testbit (wrap (bits P) (v + d)) i = Z.testbit v i.
Proof.
  intros Hv Hd Hi. pose proof (positions P) as Q. rewrite wrap_testbit by lia.
  destruct (Z.ltb_spec i (bits P)) as [Hb|Hb]; simpl.
  2: { symmetry. apply (testbit_high (bits P)); [apply Hv|lia]. }
  assert (Hs : 2 ^ spos < 2 ^ upos) by (apply Z.pow_lt_mono_r; lia).
  assert (Hlt : v mod 2 ^ (upos + 1) < 2 ^ upos).
  { apply (range_of_bits upos); [lia|apply Z.mod_pos_bound; lia|].
    intros j Hj. destruct (Z.eqb_spec j upos) as [->|].
    - rewrite Z.mod_pow2_bits_low by lia. apply (wf_unused _ _ Hv).
    - apply Z.mod_pow2_bits_high. lia. }
  replace i with ((i - (upos + 1)) + (upos + 1)) by lia.
  rewrite <- !Z.div_pow2_bits by lia. f_equal.
  assert (E : 2 ^ (upos + 1) = 2 * 2 ^ upos) by (replace (upos + 1) with (Z.succ upos) by lia; apply Z.pow_succ_r; lia).
  rewrite (Z.div_mod v (2 ^ (upos + 1))) at 1 by lia.
  replace (2 ^ (upos + 1) * (v / 2 ^ (upos + 1)) + v mod 2 ^ (upos + 1) + d)
    with (v mod 2 ^ (upos + 1) + d + (v / 2 ^ (upos + 1)) * 2 ^ (upos + 1)) by lia.
  rewrite Z.div_add by lia. rewrite (Z.div_small (v mod 2 ^ (upos + 1) + d)); [lia|].
  pose proof (Z.mod_pos_bound v (2 ^ (upos + 1))). lia.
Qed.

Definition unlock_addend (v : Z) : Z :=
  if splitting P v then 2 ^ spos else if inserting P v then 2 ^ (lpos + 3) else 0.

Lemma unlock_addend_range v : 0 <= unlock_addend v <= 2 ^ spos.
Proof.
  unfold unlock_addend. pose proof (positions P).
  assert (2 ^ (lpos + 3) <= 2 ^ spos) by (apply Z.pow_le_mono_r; lia).
  destruct (splitting P v), (inserting P v); lia.
Qed.

Lemma unlock_testbit v i : 0 <= i -> Z.testbit (unlock P v) i =
  Z.testbit (wrap (bits P) (v + unlock_addend v)) i &&
  Z.testbit (if splitting P v then split_unlock_mask P else unlock_mask P) i.
Proof.
  intros Hi. unfold unlock, unlock_addend.
  change (tst v (splitting_bit P)) with (splitting P v).
  destruct (splitting P v).
  - by rewrite law_vsplit, Z.land_spec.
  - by rewrite shift2_inserting, Z.land_spec.
Qed.

Lemma mask_testbit v i : 0 <= i ->
  Z.testbit (if splitting P v then split_unlock_mask P else unlock_mask P) i =
  ((if splitting P v then spos else lpos + 3) <=? i) && (i <? upos + 4) &&
  negb (i =? upos) && negb (splitting P v && (i =? upos + 2)).
Proof.
  intros Hi. destruct (splitting P v); simpl.
  - rewrite law_split_unlock by done. done.
  - rewrite law_unlock by done. by rewrite andb_true_r.
Qed.

Lemma unlock_wf v : wf_word P v -> wf_word P (unlock P v).
Proof.
  intros Hv. pose proof (positions P) as Q.
  assert (H0 : 0 <= unlock P v).
  { unfold unlock. destruct (tst v _); apply Z.land_nonneg; left; apply wrap_range; lia. }
  split.
  - apply range_of_bits; [lia|done|]. intros i Hi.
    rewrite unlock_testbit, wrap_testbit by lia. zcases; done.
  - intros i Hi. destruct (Z.ltb_spec i 0); [by rewrite Z.testbit_neg_r|].
    rewrite unlock_testbit, mask_testbit by lia. destruct (splitting P v); zcases; rewrite ?andb_false_r; done.
  - rewrite unlock_testbit, mask_testbit, Z.eqb_refl by lia.
    simpl. by rewrite !andb_false_r.
Qed.

Lemma unlock_low v i : 0 <= i < lpos + 3 -> Z.testbit (unlock P v) i = false.
Proof.
  intros Hi. pose proof (positions P). rewrite unlock_testbit, mask_testbit by lia.
  destruct (splitting P v); zcases; rewrite ?andb_false_r; done.
Qed.

(** The counters after [unlock]. *)
Definition next_counter (c : Z) (ins spl : bool) : Z :=
  if spl then (c / 2 ^ (spos - (lpos + 3)) + 1) * 2 ^ (spos - (lpos + 3))
  else c + b2z ins.

Lemma counter_plain v : inserting P v = false -> splitting P v = false ->
  counter P (unlock P v) = counter P v.
Proof.
  intros Hi Hs. pose proof (positions P). apply counter_ext. intros i Hr.
  rewrite unlock_testbit, mask_testbit by lia. unfold unlock_addend.
  rewrite Hi, Hs, Z.add_0_r, wrap_testbit by lia. simpl. zcases; rewrite ?andb_true_r, ?andb_false_r; done.
Qed.

Lemma counter_insert v : inserting P v = true -> splitting P v = false ->
  counter P (unlock P v) = (counter P v + 1) mod 2 ^ counter_bits P.
Proof.
  intros Hi Hs. pose proof (positions P).
  transitivity (counter P (v + 2 ^ (lpos + 3))).
  - apply counter_ext. intros i Hr.
    rewrite unlock_testbit, mask_testbit by lia. unfold unlock_addend.
    rewrite Hi, Hs, wrap_testbit by lia. simpl. zcases; rewrite ?andb_true_r, ?andb_false_r; done.
  - unfold counter. replace (v + 2 ^ (lpos + 3)) with (v + 1 * 2 ^ (lpos + 3)) by lia.
    rewrite Z.div_add by lia. by rewrite Zplus_mod_idemp_l.
Qed.
End Effects.

(** * The lock protocol of several threads

    Each thread runs [lock()] (read the word as the expected version, then loop
    on [lock_turn]), changes the word through the [mark_*] operations while it
    holds the lock, and finally calls [unlock()].  [sections] is a ghost counter
    that advances the way the version counters do, without their bound, and
    [marks] counts the [mark_insert], [mark_split], [mark_change] and
    [mark_deleted] calls. *)
Inductive pc := Idle | Trying (expected : Z) | Holding.

Inductive holder_op :=
| HInsert | HSplit | HChange (is_split : bool) | HDeleted | HDeletedTree | HRoot | HNonroot.

Record vstate := mkv { word : Z; pcs : nat -> pc; sections : Z; marks : Z }.

Section Protocol.
Context (P : nodeversion_parameters) {L : VersionLaws P}.

Definition apply_op (o : holder_op) (v : Z) : Z :=
  match o with
  | HInsert => mark_insert P v
  | HSplit => mark_split P v
  | HChange b => mark_change P v b
  | HDeleted => mark_deleted P v
  | HDeletedTree => mark_deleted_tree P v
  | HRoot => mark_root P v
  | HNonroot => mark_nonroot P v
  end.
Definition is_mark (o : holder_op) : bool :=
  match o with HInsert | HSplit | HChange _ | HDeleted => true | _ => false end.

Inductive step : vstate -> vstate -> Prop :=
| step_read s t : pcs s t = Idle ->
    step s (mkv (word s) (<[t := Trying (word s)]> (pcs s)) (sections s) (marks s))
| step_lock s t e v r : pcs s t = Trying e -> lock_turn P (word s) e = inl (v, r) ->
    step s (mkv v (<[t := Holding]> (pcs s)) (sections s) (marks s))
| step_spin s t e e' : pcs s t = Trying e -> lock_turn P (word s) e = inr e' ->
    step s (mkv (word s) (<[t := Trying e']> (pcs s)) (sections s) (marks s))
| step_op s t o : pcs s t = Holding ->
    step s (mkv (apply_op o (word s)) (pcs s) (sections s) (marks s + b2z (is_mark o)))
| step_unlock s t : pcs s t = Holding ->
    step s (mkv (unlock P (word s)) (<[t := Idle]> (pcs s))
      (next_counter P (sections s) (inserting P (word s)) (splitting P (word s))) (marks s)).

Definition initial (s : vstate) : Prop :=
  wf_word P (word s) /\ locked P (word s) = false /\
  tst (word s) (dirty_mask P) = false /\ (forall t, pcs s t = Idle) /\
  sections s = counter P (word s).

Lemma apply_op_wf o v : wf_word P v -> wf_word P (apply_op o v).
Proof.
  intros Hv. pose proof (positions P) as Q.
  assert (H0 : 0 <= v) by apply Hv.
  assert (Hnn : forall m, 0 <= m -> 0 <= v .| m) by (intros; by apply Z.lor_nonneg).
  assert (Hins : wf_word P (mark_insert P v)).
  { eapply (sets_wf P v); [done|apply mark_insert_sets| |repeat constructor; lia].
    apply Hnn. rewrite law_inserting. lia. }
  assert (Hspl : wf_word P (mark_split P v)).
  { eapply (sets_wf P v); [done|apply mark_split_sets| |repeat constructor; lia].
    apply Hnn. rewrite law_splitting. lia. }
  destruct o; simpl; auto.
  - rewrite (mark_change_is P). by destruct is_split.
  - eapply (sets_wf P v); [done|apply mark_deleted_sets| |repeat constructor; lia].
    apply Hnn. rewrite law_deleted, law_splitting. apply Z.lor_nonneg; lia.
  - eapply (sets_wf P v); [done|apply mark_deleted_tree_sets| |repeat constructor; lia].
    apply Hnn. rewrite law_deleted. lia.
  - eapply (sets_wf P v); [done|apply mark_root_sets| |repeat constructor; lia].
    apply Hnn. rewrite law_root. lia.
  - unfold mark_nonroot. rewrite law_root. split.
    + apply range_of_bits; [lia|by apply Z.land_nonneg; left|]. intros i Hi.
      rewrite clear_bit_testbit by lia. zcases; done.
    + intros i Hi. destruct (Z.ltb_spec i 0); [by rewrite Z.testbit_neg_r|].
      rewrite clear_bit_testbit, (wf_low _ _ Hv) by lia. by rewrite andb_false_r.
    + rewrite clear_bit_testbit, (wf_unused _ _ Hv) by lia. by rewrite andb_false_r.
Qed.

(** A holder's operation leaves every bit below [upos] but the dirty ones alone,
    and a mark makes the word dirty. *)
Lemma apply_op_low o v i : wf_word P v -> 0 <= i < upos -> i <> lpos + 1 -> i <> lpos + 2 ->
  Z.testbit (apply_op o v) i = Z.testbit v i.
Proof.
  intros Hv Hi H1 H2. pose proof (positions P) as Q.
  assert (A : forall ks v', sets v v' ks -> Forall (fun k => k <> i) ks ->
    Z.testbit v' i = Z.testbit v i).
  { intros ks v' Hs Hk. rewrite Hs by lia.
    assert (existsb (Z.eqb i) ks = false) as ->; [|apply orb_false_r].
    apply not_true_iff_false. intros (k & Hin & ->%Z.eqb_eq)%existsb_exists.
    apply Forall_forall with (x := k) in Hk; done. }
  destruct o; simpl.
  - eapply A; [apply mark_insert_sets|repeat constructor; lia].
  - eapply A; [apply mark_split_sets|repeat constructor; lia].
  - rewrite (mark_change_is P). destruct is_split;
      eapply A; [apply mark_split_sets| |apply mark_insert_sets|]; repeat constructor; lia.
  - eapply A; [apply mark_deleted_sets|repeat constructor; lia].
  - eapply A; [apply mark_deleted_tree_sets|repeat constructor; lia].
  - eapply A; [apply mark_root_sets|repeat constructor; lia].
  - unfold mark_nonroot. rewrite law_root, clear_bit_testbit by lia. zcases.
    by rewrite andb_true_r.
Qed.

Lemma apply_op_dirty o v : wf_word P v ->
  tst v (dirty_mask P) = true \/ is_mark o = true ->
  tst (apply_op o v) (dirty_mask P) = true.
Proof.
  intros Hv. pose proof (positions P) as Q. rewrite !(dirty_spec P).
  rewrite !(inserting_bit_spec P), !(splitting_bit_spec P).
  assert (A : forall ks v', sets v v' ks ->
    (Z.testbit v (lpos + 1) || Z.testbit v (lpos + 2) = true \/
     existsb (Z.eqb (lpos + 1)) ks || existsb (Z.eqb (lpos + 2)) ks = true) ->
    Z.testbit v' (lpos + 1) || Z.testbit v' (lpos + 2) = true).
  { intros ks v' Hs H. rewrite !Hs by lia.
    destruct (Z.testbit v (lpos + 1)), (Z.testbit v (lpos + 2)), (existsb (Z.eqb (lpos + 1)) ks); try done.
    destruct H; done. }
  assert (Hi : existsb (Z.eqb (lpos + 1)) [lpos + 1] = true) by (simpl; by rewrite Z.eqb_refl).
  assert (Hs : existsb (Z.eqb (lpos + 2)) [lpos + 2] = true) by (simpl; by rewrite Z.eqb_refl).
  destruct o; simpl; intros H.
  - eapply A; [apply mark_insert_sets|right; by rewrite Hi].
  - eapply A; [apply mark_split_sets|right; by rewrite Hs, orb_true_r].
  - rewrite (mark_change_is P). destruct is_split.
    + eapply A; [apply mark_split_sets|right; by rewrite Hs, orb_true_r].
    + eapply A; [apply mark_insert_sets|right; by rewrite Hi].
  - eapply A; [apply mark_deleted_sets|right; simpl]. rewrite (Z.eqb_refl (lpos + 2)).
    by rewrite !orb_true_r.
  - eapply A; [apply mark_deleted_tree_sets|left]. by destruct H.
  - eapply A; [apply mark_root_sets|left]. by destruct H.
  - destruct H as [H|]; [|done]. unfold mark_nonroot. rewrite law_root, !clear_bit_testbit by lia.
    zcases. by rewrite !andb_true_r.
Qed.

(** ** The invariant *)
Record inv (s : vstate) : Prop := {
  inv_wf : wf_word P (word s);
  inv_excl : forall t1 t2, pcs s t1 = Holding -> pcs s t2 = Holding -> t1 = t2;
  inv_lock : locked P (word s) = true <-> exists t, pcs s t = Holding;
  inv_clean : locked P (word s) = false -> tst (word s) (dirty_mask P) = false;
  inv_counter : counter P (word s) = sections s mod 2 ^ counter_bits P
}.

Lemma initial_inv s : initial s -> inv s.
Proof.
  intros (Hw & Hl & Hd & Hp & Hc). split; try done.
  - intros t1 t2 H. by rewrite Hp in H.
  - rewrite Hl. split; [done|]. intros [t Ht]. by rewrite Hp in Ht.
  - rewrite Hc. symmetry. apply Z.mod_small, counter_range.
Qed.

Lemma lock_turn_inl v e v' r : lock_turn P v e = inl (v', r) ->
  v = e /\ locked P e = false /\ v' = e .| lock_bit P /\ r = v'.
Proof.
  unfold lock_turn, locked. destruct (tst e (lock_bit P)); simpl; [done|].
  destruct (Z.eqb_spec v e); [|done]. intros [= <- <-]. done.
Qed.

Lemma next_counter_mod c i sp :
  next_counter P c i sp mod 2 ^ counter_bits P =
  next_counter P (c mod 2 ^ counter_bits P) i sp mod 2 ^ counter_bits P.
Proof.
  pose proof (positions P) as Q. unfold next_counter. destruct sp.
  - set (A := 2 ^ (spos - (lpos + 3))). set (B := 2 ^ (upos - spos)).
    assert (HA : 0 < A) by (apply Z.pow_pos_nonneg; lia).
    assert (HB : 0 < B) by (apply Z.pow_pos_nonneg; lia).
    assert (E : 2 ^ counter_bits P = A * B).
    { unfold A, B. rewrite <- Z.pow_add_r by lia. f_equal. unfold counter_bits. lia. }
    rewrite E. set (r := c mod (A * B)). set (q := c / (A * B)).
    assert (Hc : c = r + (q * B) * A) by (pose proof (Z.div_mod c (A * B)); lia).
    replace (c / A) with (r / A + q * B) by (transitivity ((r + q * B * A) / A); [by rewrite Z.div_add by lia|by rewrite <- Hc]).
    replace ((r / A + q * B + 1) * A) with ((r / A + 1) * A + q * (A * B)) by lia.
    apply Z_mod_plus_full.
  - by rewrite Zplus_mod_idemp_l.
Qed.

Lemma counter_unlock v : counter P (unlock P v) =
  next_counter P (counter P v) (inserting P v) (splitting P v) mod 2 ^ counter_bits P.
Proof.
  pose proof (positions P) as Q. unfold next_counter.
  destruct (splitting P v) eqn:Hs.
  2: { destruct (inserting P v) eqn:Hi; simpl.
       - by apply counter_insert.
       - rewrite Z.add_0_r, counter_plain by done. symmetry.
         apply Z.mod_small, counter_range. }
  transitivity (((v / 2 ^ spos + 1) * 2 ^ (spos - (lpos + 3))) mod 2 ^ counter_bits P).
  - transitivity (counter P (((v / 2 ^ spos) + 1) * 2 ^ spos)).
    + apply counter_ext. intros i Hr.
      rewrite (unlock_testbit P), (mask_testbit P) by lia. unfold unlock_addend.
      rewrite Hs, wrap_testbit by lia. simpl.
      destruct (Z.leb_spec spos i).
      * rewrite Z.mul_pow2_bits by lia. zcases. simpl. rewrite andb_true_r.
        replace i with ((i - spos) + spos) at 1 by lia.
        rewrite <- Z.div_pow2_bits by lia. f_equal.
        replace (v + 2 ^ spos) with (v + 1 * 2 ^ spos) by lia. by rewrite Z.div_add by lia.
      * rewrite Z.mul_pow2_bits_low by lia. simpl. by rewrite !andb_false_r.
    + unfold counter. f_equal.
      replace spos with ((spos - (lpos + 3)) + (lpos + 3)) at 2 by lia.
      rewrite Z.pow_add_r, Z.mul_assoc, Z.div_mul by lia. done.
  - change ((v / 2 ^ spos + 1) * 2 ^ (spos - (lpos + 3)))
      with ((v / 2 ^ spos + 1) * 2 ^ (spos - (lpos + 3))).
    replace (v / 2 ^ spos) with ((v / 2 ^ (lpos + 3)) / 2 ^ (spos - (lpos + 3))).
    + apply (next_counter_mod (v / 2 ^ (lpos + 3)) false true).
    + rewrite Z.div_div by lia. f_equal. rewrite <- Z.pow_add_r by lia. f_equal. lia.
Qed.

Lemma apply_op_locked o v : wf_word P v -> locked P (apply_op o v) = locked P v.
Proof.
  intros Hv. rewrite !(locked_bit P). pose proof (positions P). apply apply_op_low; [done|lia..].
Qed.

Lemma apply_op_counter o v : wf_word P v -> counter P (apply_op o v) = counter P v.
Proof.
  intros Hv. apply counter_ext. intros i Hi. pose proof (positions P).
  apply apply_op_low; [done|lia..].
Qed.

(** Setting the lock bit. *)
Lemma lock_sets_facts v : wf_word P v ->
  wf_word P (v .| lock_bit P) /\ locked P (v .| lock_bit P) = true /\
  counter P (v .| lock_bit P) = counter P v /\
  tst (v .| lock_bit P) (dirty_mask P) = tst v (dirty_mask P).
Proof.
  intros Hv. pose proof (positions P) as Q. pose proof (lock_sets P v) as Hs.
  assert (E : forall i, 0 <= i -> i <> lpos -> Z.testbit (v .| lock_bit P) i = Z.testbit v i).
  { intros i Hi Hne. rewrite Hs by lia. simpl. rewrite (proj2 (Z.eqb_neq _ _) Hne).
    by rewrite !orb_false_r. }
  repeat split.
  - apply Z.lor_nonneg. split; [apply Hv|]. rewrite law_lock. lia.
  - eapply (sets_wf P v); [done|apply lock_sets| |repeat constructor; lia].
    apply Z.lor_nonneg. split; [apply Hv|]. rewrite law_lock. lia.
  - intros i Hi. destruct (Z.ltb_spec i 0); [by rewrite Z.testbit_neg_r|].
    rewrite E by lia. by apply Hv.
  - rewrite E by lia. apply (wf_unused _ _ Hv).
  - rewrite (locked_bit P), Hs by lia. simpl. by rewrite Z.eqb_refl, orb_true_r.
  - apply counter_ext. intros i Hi. apply E; lia.
  - rewrite !(dirty_spec P), !(inserting_bit_spec P), !(splitting_bit_spec P), !E by lia. done.
Qed.

(** Replacing a thread's counter by one that does not hold the lock. *)
Lemma holders_insert (f : nat -> pc) t c : f t <> Holding -> c <> Holding ->
  forall u, <[t := c]> f u = Holding <-> f u = Holding.
Proof.
  intros Hf Hc u. destruct (decide (t = u)) as [->|].
  - by rewrite fn_lookup_insert.
  - by rewrite fn_lookup_insert_ne.
Qed.

Lemma step_inv s s' : inv s -> step s s' -> inv s'.
Proof.
  intros [Hwf Hex Hlk Hcl Hct] Hst.
  inversion Hst as [s0 t Ht|s0 t e v r Ht Hr|s0 t e e' Ht Hr|s0 t o Ht|s0 t Ht]; subst; simpl.
  - pose proof (holders_insert (pcs s) t (Trying (word s)) ltac:(by rewrite Ht) ltac:(done)) as Hh.
    split; simpl; try done.
    + intros t1 t2 H1 H2. apply Hh in H1, H2. auto.
    + rewrite Hlk. split; intros [u Hu]; exists u; by apply Hh.
  - apply lock_turn_inl in Hr as (<- & Hl & -> & ->).
    destruct (lock_sets_facts _ Hwf) as (W & K & C & D).
    assert (Hno : forall u, pcs s u <> Holding).
    { intros u Hu. assert (locked P (word s) = true) by (apply Hlk; eauto). congruence. }
    split; simpl; try done.
    + assert (Hh : forall u, <[t := Holding]> (pcs s) u = Holding -> u = t).
      { intros u. destruct (decide (t = u)); [done|].
        rewrite fn_lookup_insert_ne by done. intros Hu. exfalso. by eapply Hno. }
      intros t1 t2 H1 H2. by rewrite (Hh t1 H1), (Hh t2 H2).
    + rewrite K. split; [|done]. intros _. exists t. apply fn_lookup_insert.
    + by rewrite K.
    + by rewrite C.
  - pose proof (holders_insert (pcs s) t (Trying e') ltac:(by rewrite Ht) ltac:(done)) as Hh.
    split; simpl; try done.
    + intros t1 t2 H1 H2. apply Hh in H1, H2. auto.
    + rewrite Hlk. split; intros [u Hu]; exists u; by apply Hh.
  - split; simpl; try done.
    + by apply apply_op_wf.
    + by rewrite apply_op_locked.
    + intros Hl. rewrite apply_op_locked in Hl by done.
      assert (locked P (word s) = true) by (apply Hlk; eauto). congruence.
    + by rewrite apply_op_counter.
  - pose proof (positions P) as Q. split; simpl.
    + by apply unlock_wf.
    + intros t1 t2. destruct (decide (t = t1)) as [->|]; [by rewrite fn_lookup_insert|].
      rewrite fn_lookup_insert_ne by done. intros H1 _. exfalso. eauto.
    + rewrite (locked_bit P), (unlock_low P) by lia. split; [done|]. intros [u Hu].
      destruct (decide (t = u)) as [->|]; [by rewrite fn_lookup_insert in Hu|].
      rewrite fn_lookup_insert_ne in Hu by done. exfalso. eauto.
    + intros _. rewrite (dirty_spec P), (inserting_bit_spec P), (splitting_bit_spec P).
      rewrite !(unlock_low P) by lia. done.
    + by rewrite counter_unlock, Hct, <- next_counter_mod.
Qed.

Definition steps := rtc (step).

Lemma steps_inv s s' : inv s -> steps s s' -> inv s'.
Proof. intros H Hs. induction Hs; eauto using step_inv. Qed.

(** [C21]. C3  Mutual exclusion of node locks: whatever the interleaving of the
    threads' lock loops, at most one thread is past [lock()], the lock bit of
    the word is set exactly while some thread is, and an unlocked word never
    shows a dirty bit. *)
Theorem lock_mutual_exclusion s s' (Hi : initial s) (Hs : steps s s') :
  (forall t1 t2, pcs s' t1 = Holding -> pcs s' t2 = Holding -> t1 = t2) /\
  (locked P (word s') = true <-> exists t, pcs s' t = Holding) /\
  (locked P (word s') = false -> inserting P (word s') = false /\ splitting P (word s') = false).
Proof.
  destruct (steps_inv s s') as [_ A B C _]; [by apply initial_inv|done|].
  split; [exact A|]. split; [exact B|]. intros Hl. specialize (C Hl).
  rewrite (dirty_spec P) in C. by apply orb_false_iff.
Qed.

(** ** Optimistic readers *)

Lemma next_counter_ge c i sp : c <= next_counter P c i sp /\
  (i || sp = true -> c < next_counter P c i sp).
Proof.
  pose proof (positions P). unfold next_counter. destruct sp.
  - set (k := 2 ^ (spos - (lpos + 3))).
    assert (0 < k) by (apply Z.pow_pos_nonneg; lia).
    pose proof (Z.mul_succ_div_gt c k ltac:(done)). lia.
  - rewrite orb_false_r. destruct i; simpl; split; intros; try done; lia.
Qed.

(** From a clean word on: either no section that marked the word has ended, and
    then a mark shows as a dirty bit, or the section count has grown. *)
Lemma marks_visible s s' : inv s -> tst (word s) (dirty_mask P) = false -> steps s s' ->
  (sections s' = sections s /\
    (tst (word s') (dirty_mask P) = false -> marks s' = marks s)) \/
  sections s < sections s'.
Proof.
  intros Hi Hd Hs.
  apply (rtc_ind_r (fun s' => inv s' /\ ((sections s' = sections s /\
    (tst (word s') (dirty_mask P) = false -> marks s' = marks s)) \/
    sections s < sections s')) s) in Hs as [_ ?]; [done|by auto|].
  clear s' Hs. intros y z _ Hst [Hy IH]. split; [by eapply step_inv|].
  destruct Hst as [s0 t Ht|s0 t e v r Ht Hr|s0 t e e' Ht Hr|s0 t o Ht|s0 t Ht]; simpl; auto.
  - apply lock_turn_inl in Hr as (<- & Hl & -> & ->).
    destruct (lock_sets_facts _ (inv_wf _ Hy)) as (_ & _ & _ & ->). done.
  - destruct IH as [[Hsec Hm]|]; [left; split; [done|]|by right].
    intros Hz. destruct (tst (word s0) (dirty_mask P)) eqn:E.
    { rewrite (apply_op_dirty o (word s0) (inv_wf _ Hy)) in Hz by auto. done. }
    destruct (is_mark o) eqn:Eo; simpl.
    { rewrite (apply_op_dirty o (word s0) (inv_wf _ Hy)) in Hz by auto. done. }
    rewrite Hm by done. lia.
  - destruct (next_counter_ge (sections s0) (inserting P (word s0)) (splitting P (word s0))) as [G1 G2].
    destruct IH as [[Hsec Hm]|]; [|right; lia].
    rewrite <- (dirty_spec P) in G2.
    destruct (tst (word s0) (dirty_mask P)) eqn:E; [right; specialize (G2 eq_refl); lia|].
    left. rewrite (dirty_spec P) in E. apply orb_false_iff in E as [E1 E2].
    rewrite E1, E2. unfold next_counter. simpl. split; [lia|auto].
Qed.

(** [C12]. C2  Soundness of optimistic reads: a reader that took the version of a
    node when it was clean ([stable]) and later finds [has_changed] false knows
    that no [mark_insert], [mark_split], [mark_change] or [mark_deleted] ran in
    between, and that none of their sections was open or ended, provided fewer
    sections than the version counters can tell apart went by. *)
Theorem has_changed_sound s0 s1 s2 (Hi : initial s0) (H01 : steps s0 s1) (H12 : steps s1 s2)
  (Hclean : stable P [word s1] = Some (word s1))
  (Hbound : sections s2 - sections s1 < 2 ^ counter_bits P)
  (Hval : has_changed P (word s2) (word s1) = false) :
  marks s2 = marks s1 /\ sections s2 = sections s1 /\
  inserting P (word s2) = false /\ splitting P (word s2) = false.
Proof.
  assert (I1 : inv s1) by (eapply steps_inv; [by apply initial_inv|done]).
  assert (I2 : inv s2) by (by eapply steps_inv).
  assert (Hd : tst (word s1) (dirty_mask P) = false).
  { simpl in Hclean. by destruct (tst (word s1) (dirty_mask P)). }
  pose proof (positions P) as Q.
  pose proof (has_changed_false P _ _ (inv_wf _ I2) (inv_wf _ I1) Hval) as Hb.
  assert (Hd2 : tst (word s2) (dirty_mask P) = false).
  { rewrite (dirty_spec P), (inserting_bit_spec P), (splitting_bit_spec P) in *.
    by rewrite !Hb by lia. }
  assert (Hc : counter P (word s2) = counter P (word s1)) by (apply counter_ext; intros; apply Hb; lia).
  assert (Hsec : sections s2 = sections s1).
  { destruct (marks_visible s1 s2) as [[? _]|Hlt]; try done.
    rewrite (inv_counter _ I1), (inv_counter _ I2) in Hc.
    assert (2 ^ counter_bits P > 0) by (unfold counter_bits; lia).
    assert ((sections s2 - sections s1) mod 2 ^ counter_bits P = 0) as Z0.
    { rewrite Zminus_mod, Hc, Z.sub_diag. apply Z.mod_0_l. lia. }
    rewrite Z.mod_small in Z0 by lia. lia. }
  destruct (marks_visible s1 s2) as [[_ Hm]|]; try done; [|lia].
  rewrite (dirty_spec P) in Hd2. apply orb_false_iff in Hd2 as [? ?].
  repeat split; auto. apply Hm. rewrite (dirty_spec P). by apply orb_false_iff.
Qed.
End Protocol.

(** ** A concrete run: thread 0 takes the lock of a fresh internode and marks it *)
Definition demo0 : vstate := mkv 0 (fun _ => Idle) 0 0.
Definition demo1 : vstate := mkv 0 (<[0%nat := Trying 0]> (pcs demo0)) 0 0.
Definition demo2 : vstate := mkv 1 (<[0%nat := Holding]> (pcs demo1)) 0 0.
Definition demo3 : vstate := mkv 3 (pcs demo2) 0 1.

Lemma demo_initial : initial params32 demo0.
Proof.
  split; [|by repeat split]. split; [by vm_compute|intros; apply Z.testbit_0_l|apply Z.testbit_0_l].
Qed.
Lemma demo_run2 : steps params32 demo0 demo2.
Proof.
  eapply rtc_l; [by apply (step_read params32 demo0 0%nat)|].
  apply rtc_once. eapply (step_lock params32 demo1 0%nat); by vm_compute.
Qed.
Lemma demo_run3 : steps params32 demo0 demo3.
Proof.
  eapply rtc_r; [apply demo_run2|]. by apply (step_op params32 demo2 0%nat HInsert).
Qed.

Lemma lock_mutual_exclusion_witness :
  pcs demo3 0%nat = Holding /\ locked params32 (word demo3) = true.
Proof.
  split; [by vm_compute|].
  destruct (lock_mutual_exclusion params32 demo0 demo3 demo_initial demo_run3) as (_ & [_ H] & _).
  apply H. exists 0%nat. by vm_compute.
Defined.

(** A reader that saw the clean word 0 accepts it although the node has been
    locked since. *)
Lemma has_changed_sound_witness : marks demo2 = marks demo0 /\ word demo2 <> word demo0.
Proof.
  split; [|by vm_compute].
  apply (has_changed_sound params32 demo0 demo0 demo2 demo_initial); try by vm_compute.
  exact demo_run2.
Defined.
