(* ===== verification/Permuter.v ===== *)
(** kpermuter.hh: a permutation of [0, width) and a size packed in one word.

    Nibble 0 of the word is the size, nibble [i + 1] is element [i].  Section
    [Ops] translates [kpermuter<width>]; the storage word has [nb] nibbles
    ([max_width + 1]) and arithmetic is done on [value_type].  The abstract view
    of a permuter is the list [elems] of its [width] elements together with its
    size, and each operation is proved to refine a list operation. *)
From S2P Require Import Prelude.

(** [sized_kpermuter_info<C>]: number of nibbles of the storage type, bits of the
    value type, and the two constants. *)
Record sized_kpermuter_info := {
  nibbles : Z; value_bits : Z; initial_value : Z; full_value : Z }.
Definition info0 := {| nibbles := 4; value_bits := 32; initial_value := 0x0120; full_value := 0x2100 |}.
Definition info1 := {| nibbles := 8; value_bits := 32; initial_value := 0x01234560; full_value := 0x65432100 |}.
Definition info2 := {| nibbles := 16; value_bits := 64;
  initial_value := 0x0123456789ABCDE0; full_value := 0xEDCBA98765432100 |}.
(** [(width > 3) + (width > 7) + (width > 15)] selects the specialisation; there
    is none for larger widths. *)
Definition info (width : Z) : sized_kpermuter_info :=
  if width <=? 3 then info0 else if width <=? 7 then info1 else info2.

Section Ops.
Context (width : Z).
Definition vbits := value_bits (info width).
Definition max_width := nibbles (info width) - 1.
(** Arithmetic on [value_type] wraps; a store into [x_] truncates to the storage type. *)
Definition vt (x : Z) : Z := wrap vbits x.
Definition store (x : Z) : Z := wrap (4 * nibbles (info width)) x.
Definition vnot (x : Z) : Z := vt (Z.lnot x).

Definition make_empty : Z :=
  let p := initial_value (info width) .>> ((max_width - width) .<< 2) in p .& vnot 15.
Definition make_sorted (n : Z) : Z :=
  let mask := vt ((if n =? width then 0 else vt (16 .<< (n .<< 2))) - 1) in
  vt (make_empty .<< (n .<< 2)) .| (full_value (info width) .& mask) .| n.

(** The constructor stores a [value_type] in the word. *)
Definition kpermuter (x : Z) : Z := store x.

Definition size (x : Z) : Z := x .& 15.
Definition elem (x i : Z) : Z := (x .>> ((i .<< 2) + 4)) .& 15.
Definition back (x : Z) : Z := elem x (width - 1).
Definition value_from (x i : Z) : Z := x .>> ((i + 1) .<< 2).
Definition set_size (x n : Z) : Z := store ((x .& vnot 15) .| n).

(** Each mutator returns the new word; [insert_from_back] also the element. *)
Definition insert_from_back (x i : Z) : Z * Z :=
  let value := back x in
  (store ((vt (x + 1) .& vt (vt (16 .<< (i .<< 2)) - 1))
    .| vt (value .<< ((i .<< 2) + 4))
    .| (vt (x .<< 4) .& vnot (vt (vt (256 .<< (i .<< 2)) - 1)))), value).

Definition insert_selected (x di si : Z) : Z :=
  let value := elem x si in
  let mask := vt (vt (256 .<< (si .<< 2)) - 1) in
  store ((vt (x + 1) .& vt (vt (16 .<< (di .<< 2)) - 1))
    .| vt (value .<< ((di .<< 2) + 4))
    .| (vt (x .<< 4) .& mask .& vnot (vt (vt (256 .<< (di .<< 2)) - 1)))
    .| (x .& vnot mask)).

Definition remove (x i : Z) : Z :=
  if x .& 15 =? i + 1 then store (vt (x - 1))
  else
    let rot_amount := ((x .& 15) - i - 1) .<< 2 in
    let rot_mask := vt (vt (vt (16 .<< rot_amount) - 1) .<< ((i + 1) .<< 2)) in
    store ((vt (x - 1) .& vnot rot_mask)
      .| (((x .& rot_mask) .>> 4) .& rot_mask)
      .| (vt ((x .& rot_mask) .<< rot_amount) .& rot_mask)).

Definition remove_to_back (x_ i : Z) : Z :=
  let mask := vnot (vt (vt (16 .<< (i .<< 2)) - 1)) in
  let x := x_ .& vt (vt (16 .<< (width .<< 2)) - 1) in
  store ((vt (x - 1) .& vnot mask)
    .| ((x .>> 4) .& mask)
    .| vt ((x .& mask) .<< ((width - i - 1) .<< 2))).

Definition rotate (x_ i j : Z) : Z :=
  let mask := vt ((if i =? width then 0 else vt (16 .<< (i .<< 2))) - 1) in
  let x := x_ .& vt (vt (16 .<< (width .<< 2)) - 1) in
  store ((x .& mask)
    .| ((x .>> ((j - i) .<< 2)) .& vnot mask)
    .| vt ((x .& vnot mask) .<< ((width - j) .<< 2))).

Definition exchange (x i j : Z) : Z :=
  let diff := ((x .>> (i .<< 2)) .^ (x .>> (j .<< 2))) .& 240 in
  store (x .^ (vt (diff .<< (i .<< 2)) .| vt (diff .<< (j .<< 2)))).

(** The loop of [exchange_values]: [n] turns left. *)
Fixpoint exchange_values_loop (n : nat) (x y diff p : Z) : Z :=
  match n with
  | O => diff
  | S n' =>
      let v := (p .>> (width .<< 2)) .& 15 in
      let d := vt (vt (- b2z ((v =? x) || (v =? y))) .& (x .^ y)) in
      exchange_values_loop n' x y (vt ((diff .^ d) .<< 4)) (vt (p .<< 4))
  end.
Definition exchange_values (x_ x y : Z) : Z :=
  store (x_ .^ exchange_values_loop (Z.to_nat width) x y 0 x_).
End Ops.

(** [identity_kpermuter]: positions are elements. *)
Module Identity.
Definition size (s : Z) : Z := s.
Definition elem (s i : Z) : Z := i.
End Identity.

(** [key_permuter<T>::permutation]: a node's permuter, or the identity on its size. *)
Inductive key_permuter := Permuted (x : Z) | Sized (n : Z).
Definition kp_size (p : key_permuter) : Z :=
  match p with Permuted x => size x | Sized n => Identity.size n end.
Definition kp_elem (p : key_permuter) (i : Z) : Z :=
  match p with Permuted x => elem x i | Sized n => Identity.elem n i end.

(** * Nibble algebra *)

Definition nib (x k : Z) : Z := (x .>> (4 * k)) .& 15.

Lemma nib_testbit x k i : 0 <= k -> 0 <= i ->
  Z.testbit (nib x k) i = (i <? 4) && Z.testbit x (i + 4 * k).
Proof.
  intros Hk Hi. unfold nib. rewrite Z.land_spec, Z.shiftr_spec by lia.
  change 15 with (Z.ones 4). rewrite Z.testbit_ones_nonneg by lia. apply andb_comm.
Qed.

Lemma nib_range x k : 0 <= nib x k < 16.
Proof. unfold nib. change 15 with (Z.ones 4). rewrite Z.land_ones by lia. by apply Z.mod_pos_bound. Qed.

Ltac nib_ext :=
  apply Z.bits_inj'; let b := fresh "b" in let Hb := fresh "Hb" in intros b Hb.

Lemma nib_lor a b k : 0 <= k -> nib (a .| b) k = nib a k .| nib b k.
Proof.
  intros. nib_ext. rewrite Z.lor_spec, !nib_testbit, Z.lor_spec by lia. by rewrite andb_orb_distrib_r.
Qed.
Lemma nib_land a b k : 0 <= k -> nib (a .& b) k = nib a k .& nib b k.
Proof.
  intros. nib_ext. rewrite Z.land_spec, !nib_testbit, Z.land_spec by lia.
  destruct (b0 <? 4); done.
Qed.
Lemma nib_lxor a b k : 0 <= k -> nib (a .^ b) k = nib a k .^ nib b k.
Proof.
  intros. nib_ext. rewrite Z.lxor_spec, !nib_testbit, Z.lxor_spec by lia.
  destruct (b0 <? 4); done.
Qed.
Lemma nib_shiftl x m k : 0 <= m -> 0 <= k ->
  nib (x .<< (4 * m)) k = if k <? m then 0 else nib x (k - m).
Proof.
  intros. nib_ext. rewrite nib_testbit by lia. destruct (Z.ltb_spec k m).
  - rewrite Z.testbit_0_l. destruct (Z.ltb_spec b 4); [|done].
    by rewrite Z.shiftl_spec_low by lia.
  - rewrite nib_testbit by lia. destruct (Z.ltb_spec b 4); [|done].
    rewrite Z.shiftl_spec by lia. do 2 f_equal. lia.
Qed.
Lemma nib_shiftr x m k : 0 <= m -> 0 <= k -> nib (x .>> (4 * m)) k = nib x (k + m).
Proof.
  intros. nib_ext. rewrite !nib_testbit, Z.shiftr_spec by lia. do 2 f_equal. lia.
Qed.
Lemma nib_wrap w x k : 0 <= k -> 4 * (k + 1) <= w -> nib (wrap w x) k = nib x k.
Proof.
  intros. nib_ext. rewrite !nib_testbit, wrap_testbit by lia.
  destruct (Z.ltb_spec b 4); [|done]. zcases. done.
Qed.
Lemma nib_ones m k : 0 <= m -> 0 <= k -> nib (2 ^ (4 * m) - 1) k = if k <? m then 15 else 0.
Proof.
  intros. rewrite Z.sub_1_r, <- Z.ones_equiv. nib_ext. rewrite nib_testbit by lia.
  rewrite Z.testbit_ones_nonneg by lia. change 15 with (Z.ones 4).
  destruct (Z.ltb_spec k m); rewrite ?Z.testbit_ones_nonneg, ?Z.testbit_0_l by lia; zcases; done.
Qed.
Lemma nib_lnot x k : 0 <= k -> nib (Z.lnot x) k = 15 .^ nib x k.
Proof.
  intros. nib_ext. rewrite Z.lxor_spec, !nib_testbit, Z.lnot_spec by lia.
  change 15 with (Z.ones 4). rewrite Z.testbit_ones_nonneg by lia.
  destruct (b <? 4); [|done]. simpl. by destruct (Z.testbit x (b + 4 * k)).
Qed.
Lemma nib_small v k : 0 <= v < 16 -> 0 <= k -> nib v k = if k =? 0 then v else 0.
Proof.
  intros. nib_ext. rewrite nib_testbit by lia. destruct (Z.eqb_spec k 0).
  - subst. rewrite Z.add_0_r. destruct (Z.ltb_spec b 4); [done|].
    symmetry. apply (testbit_high 4); done.
  - rewrite Z.testbit_0_l. rewrite (testbit_high 4 v) by lia. apply andb_false_r.
Qed.

(** Nibble 0 counts without carry when it does not overflow. *)
Lemma nib_arith x k : 0 <= k -> nib x k = (x / 16 ^ k) mod 16.
Proof.
  intros. unfold nib. change 15 with (Z.ones 4). rewrite Z.land_ones, Z.shiftr_div_pow2 by lia.
  by rewrite Z.pow_mul_r by lia.
Qed.
Lemma nib_add x d k : 0 <= nib x 0 + d < 16 -> 0 <= k ->
  nib (x + d) k = if k =? 0 then nib x 0 + d else nib x k.
Proof.
  intros Hd Hk. assert (E : nib x 0 = x mod 16) by (rewrite nib_arith, Z.pow_0_r, Z.div_1_r; done || lia).
  rewrite E in *. destruct (Z.eqb_spec k 0) as [->|].
  - rewrite nib_arith, Z.pow_0_r, Z.div_1_r by lia.
    replace (x + d) with ((x mod 16 + d) + (x / 16) * 16) by (pose proof (Z.div_mod x 16); lia).
    rewrite Z_mod_plus_full. by apply Z.mod_small.
  - rewrite !nib_arith by lia. f_equal.
    replace k with (1 + (k - 1)) by lia. rewrite Z.pow_add_r, Z.pow_1_r by lia.
    rewrite <- !Z.div_div by lia. f_equal.
    replace (x + d) with ((x mod 16 + d) + (x / 16) * 16) by (pose proof (Z.div_mod x 16); lia).
    rewrite Z.div_add by lia. rewrite (Z.div_small (x mod 16 + d)) by lia. lia.
Qed.

(** Nibble masks select. *)
Lemma land_nib_mask n (b : bool) : 0 <= n < 16 -> n .& (if b then 15 else 0) = if b then n else 0.
Proof.
  intros. destruct b; [|apply Z.land_0_r]. change 15 with (Z.ones 4).
  rewrite Z.land_ones by lia. by apply Z.mod_small.
Qed.
Lemma lxor_nib_mask (b : bool) : 15 .^ (if b then 15 else 0) = if negb b then 15 else 0.
Proof. by destruct b. Qed.

Lemma size_nib x : size x = nib x 0.
Proof. unfold size, nib. by rewrite Z.mul_0_r, Z.shiftr_0_r. Qed.
Lemma elem_nib x i : elem x i = nib x (i + 1).
Proof. unfold elem, nib. rewrite Z.shiftl_mul_pow2 by lia. do 2 f_equal. lia. Qed.

Lemma shl2 i : i .<< 2 = 4 * i.
Proof. rewrite Z.shiftl_mul_pow2 by lia. lia. Qed.

(** * The operations, nibble by nibble *)
Section Nibbles.
Context (width : Z) (Hw : 1 <= width <= 15).

Lemma info_facts : width + 1 <= nibbles (info width) /\ 4 * nibbles (info width) <= vbits width /\
  max_width width = nibbles (info width) - 1.
Proof. unfold vbits, max_width, info. zcases; simpl; lia. Qed.

Lemma nib_vt x k : 0 <= k <= width -> nib (vt width x) k = nib x k.
Proof. intros. pose proof info_facts. apply nib_wrap; lia. Qed.
Lemma nib_store x k : 0 <= k <= width -> nib (store width x) k = nib x k.
Proof. intros. pose proof info_facts. apply nib_wrap; lia. Qed.
Lemma nib_vnot x k : 0 <= k <= width -> nib (vnot width x) k = 15 .^ nib x k.
Proof. intros. unfold vnot. rewrite nib_vt, nib_lnot; lia. Qed.

Lemma nib_mask c m k : c = 2 ^ (4 * m) -> forall i, 0 <= m -> 0 <= i -> 0 <= k <= width ->
  nib (vt width (vt width (c .<< (i .<< 2)) - 1)) k = if k <? i + m then 15 else 0.
Proof.
  intros -> i Hm Hi Hk.
  assert (vt width (vt width (2 ^ (4 * m) .<< (i .<< 2)) - 1) = vt width (2 ^ (4 * (i + m)) - 1)) as ->.
  { unfold vt, wrap. rewrite Zminus_mod_idemp_l. f_equal.
    rewrite !Z.shiftl_mul_pow2 by (try apply Z.shiftl_nonneg; lia).
    change (2 ^ 2) with 4. rewrite <- Z.pow_add_r by lia. do 2 f_equal. lia. }
  rewrite nib_vt, nib_ones; [done|lia..].
Qed.
Lemma nib_mask16 i k : 0 <= i -> 0 <= k <= width ->
  nib (vt width (vt width (16 .<< (i .<< 2)) - 1)) k = if k <? i + 1 then 15 else 0.
Proof. intros. by apply nib_mask. Qed.
Lemma nib_mask256 i k : 0 <= i -> 0 <= k <= width ->
  nib (vt width (vt width (256 .<< (i .<< 2)) - 1)) k = if k <? i + 2 then 15 else 0.
Proof. intros. by apply nib_mask. Qed.
Lemma nib_guarded_mask i k : 0 <= i <= width -> 0 <= k <= width ->
  nib (vt width ((if i =? width then 0 else vt width (16 .<< (i .<< 2))) - 1)) k =
  if k <? i + 1 then 15 else 0.
Proof.
  intros. destruct (Z.eqb_spec i width) as [->|]; [|apply nib_mask16; lia].
  rewrite nib_vt by lia. zcases. change (0 - 1) with (Z.lnot 0).
  rewrite nib_lnot, nib_small by lia. zcases; done.
Qed.

Lemma nib_shl4 x k : 0 <= k <= width -> nib (vt width (x .<< 4)) k = if k <? 1 then 0 else nib x (k - 1).
Proof. intros. rewrite nib_vt by lia. change 4 with (4 * 1). apply nib_shiftl; lia. Qed.
Lemma nib_shl4i x i k : 0 <= i -> 0 <= k <= width ->
  nib (vt width (x .<< (i .<< 2))) k = if k <? i then 0 else nib x (k - i).
Proof.
  intros. rewrite nib_vt, shl2 by lia. apply nib_shiftl; lia.
Qed.
Lemma nib_shr4i x i k : 0 <= i -> 0 <= k -> nib (x .>> (i .<< 2)) k = nib x (k + i).
Proof. intros. rewrite shl2. apply nib_shiftr; lia. Qed.
Lemma nib_slot v i k : 0 <= v < 16 -> 0 <= i -> 0 <= k <= width ->
  nib (vt width (v .<< ((i .<< 2) + 4))) k = if k =? i + 1 then v else 0.
Proof.
  intros. rewrite nib_vt by lia.
  replace ((i .<< 2) + 4) with (4 * (i + 1)) by (rewrite shl2; lia).
  rewrite nib_shiftl by lia. destruct (Z.ltb_spec k (i + 1)).
  - destruct (Z.eqb_spec k (i + 1)); [lia|done].
  - rewrite nib_small by lia. destruct (Z.eqb_spec (k - (i + 1)) 0), (Z.eqb_spec k (i + 1)); lia || done.
Qed.

End Nibbles.

Create Rewrite HintDb nib.
#[export] Hint Rewrite nib_lor nib_land nib_lxor nib_store nib_vnot nib_mask16 nib_mask256
  nib_guarded_mask nib_shl4 nib_shl4i nib_shr4i using lia : nib.

Lemma nib_land_15 x k : nib x k .& 15 = nib x k.
Proof. apply (land_nib_mask _ true), nib_range. Qed.
Lemma lxor_swap_l a b : a .^ (a .^ b) = b.
Proof. by rewrite <- Z.lxor_assoc, Z.lxor_nilpotent, Z.lxor_0_l. Qed.
Lemma lxor_swap_r a b : b .^ (a .^ b) = a.
Proof. by rewrite (Z.lxor_comm a), lxor_swap_l. Qed.
Create Rewrite HintDb nibval.
#[export] Hint Rewrite nib_land_15 Z.lor_0_l Z.lor_0_r Z.land_0_l Z.land_0_r
  Z.lxor_0_l Z.lxor_0_r Z.lxor_nilpotent lxor_swap_l lxor_swap_r : nibval.
#[export] Hint Rewrite (land_nib_mask) using first [apply nib_range | lia] : nibval.

(** Evaluate the nibble of an operation's result: push [nib] through, split the
    masks, and compare what is left. *)
Ltac nib_split :=
  repeat match goal with
  | |- context [?a <? ?b] => destruct (Z.ltb_spec a b); try lia
  | |- context [?a =? ?b] => destruct (Z.eqb_spec a b); try lia
  end.
Lemma land_15 n : 0 <= n < 16 -> n .& 15 = n.
Proof. by apply (land_nib_mask n true). Qed.
Ltac nib_val :=
  change (15 .^ 15) with 0; change (15 .^ 0) with 15;
  autorewrite with nibval; repeat (rewrite land_15 by (apply nib_range || lia));
  autorewrite with nibval.
Ltac nibs :=
  autorewrite with nib; nib_split; nib_val; try done; try (f_equal; lia).

Section Pointwise.
Context (width : Z) (Hw : 1 <= width <= 15).

Lemma nib_add_vt x d k : 0 <= nib x 0 + d < 16 -> 0 <= k <= width ->
  nib (vt width (x + d)) k = if k =? 0 then nib x 0 + d else nib x k.
Proof. intros. rewrite nib_vt, nib_add by lia. done. Qed.

Lemma insert_from_back_nib x i k : 0 <= i < width -> size x < width -> 0 <= k <= width ->
  nib (insert_from_back width x i).1 k =
  if k =? 0 then size x + 1
  else if k <? i + 1 then nib x k
  else if k =? i + 1 then back width x else nib x (k - 1).
Proof.
  intros Hi Hs Hk. rewrite size_nib in *. pose proof (nib_range x 0).
  unfold insert_from_back. cbn [fst]. unfold back. rewrite elem_nib.
  pose proof (nib_range x (width - 1 + 1)).
  rewrite nib_store, !nib_lor, nib_slot, !nib_land, nib_add_vt by lia.
  nibs.
Qed.

Lemma insert_selected_nib x di si k : 0 <= di <= si -> si < width -> size x < width ->
  0 <= k <= width ->
  nib (insert_selected width x di si) k =
  if k =? 0 then size x + 1
  else if k <? di + 1 then nib x k
  else if k =? di + 1 then elem x si
  else if k <? si + 2 then nib x (k - 1) else nib x k.
Proof.
  intros Hi Hsi Hs Hk. rewrite size_nib, elem_nib in *. pose proof (nib_range x 0).
  unfold insert_selected. rewrite elem_nib. pose proof (nib_range x (si + 1)).
  rewrite nib_store, !nib_lor, nib_slot, !nib_land, nib_add_vt by lia.
  nibs.
Qed.

(** The nibbles of masks that no shift truncates, at any position. *)
Lemma nib_vt_exact y k : 0 <= y < 2 ^ vbits width -> nib (vt width y) k = nib y k.
Proof. intros. unfold vt. by rewrite wrap_small. Qed.

Lemma pow_vbits a : 0 <= a <= width + 1 -> 2 ^ (4 * a) <= 2 ^ vbits width.
Proof. intros. pose proof (info_facts width Hw). apply Z.pow_le_mono_r; lia. Qed.

Lemma vt_mask a : 0 <= a <= width + 1 -> forall c m i, c = 2 ^ (4 * m) -> 0 <= m -> 0 <= i ->
  a = i + m -> vt width (vt width (c .<< (i .<< 2)) - 1) = 2 ^ (4 * a) - 1.
Proof.
  intros Ha c m i -> Hm Hi ->. unfold vt at 2. unfold vt, wrap. rewrite Zminus_mod_idemp_l.
  rewrite shl2, Z.shiftl_mul_pow2, <- Z.pow_add_r by lia.
  replace (4 * m + 4 * i) with (4 * (i + m)) by lia.
  pose proof (pow_vbits (i + m) ltac:(lia)). apply Z.mod_small.
  assert (0 < 2 ^ (4 * (i + m))) by (apply Z.pow_pos_nonneg; lia). lia.
Qed.

Lemma rot_mask_nib n i k : 0 <= i -> i + 1 < n -> n <= width -> 0 <= k ->
  nib (vt width (vt width (vt width (16 .<< ((n - i - 1) .<< 2)) - 1) .<< ((i + 1) .<< 2))) k =
  if k <? i + 1 then 0 else if k <? n + 1 then 15 else 0.
Proof.
  intros Hi Hn Hnw Hk.
  rewrite (vt_mask (n - i) ltac:(lia) 16 1 (n - i - 1)) by lia.
  rewrite nib_vt_exact.
  - rewrite shl2, nib_shiftl by lia. destruct (Z.ltb_spec k (i + 1)); [done|].
    rewrite nib_ones by lia. nibs.
  - rewrite shl2, Z.shiftl_mul_pow2 by lia.
    pose proof (pow_vbits (n + 1) ltac:(lia)) as B.
    replace (4 * (n + 1)) with (4 * (n - i) + 4 * (i + 1)) in B by lia.
    rewrite Z.pow_add_r in B by lia.
    assert (0 < 2 ^ (4 * (n - i))) by (apply Z.pow_pos_nonneg; lia).
    assert (0 < 2 ^ (4 * (i + 1))) by (apply Z.pow_pos_nonneg; lia). nia.
Qed.

Lemma nib_shr4 x k : 0 <= k -> nib (x .>> 4) k = nib x (k + 1).
Proof. intros. change 4 with (4 * 1) at 1. apply nib_shiftr; lia. Qed.

Lemma nib_clear_unused x k : 0 <= k ->
  nib (x .& vt width (vt width (16 .<< (width .<< 2)) - 1)) k = if k <? width + 1 then nib x k else 0.
Proof.
  intros. rewrite (vt_mask (width + 1) ltac:(lia) 16 1 width) by lia.
  rewrite nib_land, nib_ones, land_nib_mask by (apply nib_range || lia). done.
Qed.

Lemma remove_nib x i k : 0 <= i < size x -> size x <= width -> 0 <= k <= width ->
  nib (remove width x i) k =
  if k =? 0 then size x - 1
  else if k <? i + 1 then nib x k
  else if k <? size x then nib x (k + 1)
  else if k =? size x then elem x i else nib x k.
Proof.
  intros Hi Hs Hk. unfold remove. fold (size x). rewrite size_nib, elem_nib in *.
  pose proof (nib_range x 0). set (n := nib x 0) in *.
  destruct (Z.eqb_spec n (i + 1)) as [En|En].
  - rewrite nib_store by lia. change (x - 1) with (x + -1). rewrite nib_add_vt by (fold n; lia).
    fold n. nibs.
  - pose proof (fun j => rot_mask_nib n i j) as HM. cbv zeta.
    generalize dependent (vt width (vt width (vt width (16 .<< ((n - i - 1) .<< 2)) - 1) .<< ((i + 1) .<< 2))).
    intros rm HM. change (x - 1) with (x + -1).
    rewrite nib_store, !nib_lor, !nib_land, nib_vnot, nib_add_vt, !HM by (fold n; lia).
    fold n. rewrite nib_shr4, nib_land, HM, nib_shl4i by lia.
    destruct (Z.ltb_spec k (n - i - 1)); [|rewrite nib_land, HM by lia]; nibs.
Qed.

Lemma remove_to_back_nib x i k : 0 <= i < width -> 0 < size x -> 0 <= k <= width ->
  nib (remove_to_back width x i) k =
  if k =? 0 then size x - 1
  else if k <? i + 1 then nib x k
  else if k <? width then nib x (k + 1) else elem x i.
Proof.
  intros Hi Hs Hk. unfold remove_to_back. rewrite size_nib, elem_nib in *. cbv zeta.
  pose proof (nib_range x 0).
  pose proof (nib_clear_unused x) as HX.
  assert (HM : forall j, 0 <= j <= width -> nib (vnot width (vt width (vt width (16 .<< (i .<< 2)) - 1))) j
    = if j <? i + 1 then 0 else 15).
  { intros. rewrite nib_vnot, nib_mask16 by lia. nib_split; done. }
  generalize dependent (x .& vt width (vt width (16 .<< (width .<< 2)) - 1)). intros y HX.
  generalize dependent (vnot width (vt width (vt width (16 .<< (i .<< 2)) - 1))). intros m HM.
  assert (Hy0 : nib y 0 = nib x 0) by (rewrite HX by lia; nib_split; done).
  change (y - 1) with (y + -1).
  rewrite nib_store, !nib_lor, !nib_land, nib_vnot, nib_add_vt, !HM by (rewrite ?Hy0; lia).
  rewrite nib_shr4, nib_shl4i, Hy0, !HX by lia.
  destruct (Z.ltb_spec k (width - i - 1)); [|rewrite nib_land, HM, HX by lia]; nibs.
Qed.

Lemma rotate_nib x i j k : 0 <= i <= j -> j <= width -> 0 <= k <= width ->
  nib (rotate width x i j) k =
  if k <? i + 1 then nib x k
  else if k <? width - j + i + 1 then nib x (k + (j - i)) else nib x (k - (width - j)).
Proof.
  intros Hi Hj Hk. unfold rotate. cbv zeta.
  pose proof (nib_clear_unused x) as HX.
  assert (HM : forall q, 0 <= q <= width -> nib (vt width ((if i =? width then 0 else vt width (16 .<< (i .<< 2))) - 1)) q
    = if q <? i + 1 then 15 else 0).
  { intros. rewrite nib_guarded_mask by lia. nib_split; done. }
  generalize dependent (x .& vt width (vt width (16 .<< (width .<< 2)) - 1)). intros y HX.
  generalize dependent (vt width ((if i =? width then 0 else vt width (16 .<< (i .<< 2))) - 1)). intros m HM.
  rewrite nib_store, !nib_lor, !nib_land, nib_vnot, nib_shr4i, nib_shl4i, !HM, !HX by lia.
  destruct (Z.ltb_spec k (width - j)); [|rewrite nib_land, nib_vnot, HM, HX by lia]; nibs.
Qed.

Lemma exchange_nib x i j k : 0 <= i < width -> 0 <= j < width -> 0 <= k <= width ->
  nib (exchange width x i j) k =
  if k =? i + 1 then elem x j else if k =? j + 1 then elem x i else nib x k.
Proof.
  intros Hi Hj Hk. unfold exchange. cbv zeta. rewrite !elem_nib.
  assert (HD : forall q, 0 <= q -> nib (((x .>> (i .<< 2)) .^ (x .>> (j .<< 2))) .& 240) q
    = if q =? 1 then nib x (i + 1) .^ nib x (j + 1) else 0).
  { intros. rewrite nib_land, nib_lxor, !nib_shr4i by lia.
    replace (nib 240 q) with (if q =? 1 then 15 else 0).
    - destruct (Z.eqb_spec q 1) as [->|]; [|by rewrite Z.land_0_r].
      rewrite (Z.add_comm i), (Z.add_comm j). apply land_15, (lxor_range 4); lia || apply nib_range.
    - change 240 with (15 .<< (4 * 1)). rewrite nib_shiftl by lia.
      destruct (Z.ltb_spec q 1); [nib_split; done|]. rewrite nib_small by lia. nib_split; done. }
  generalize dependent (((x .>> (i .<< 2)) .^ (x .>> (j .<< 2))) .& 240). intros d HD.
  rewrite nib_store, nib_lxor, nib_lor, !nib_shl4i by lia.
  destruct (Z.eq_dec k (i + 1)) as [->|]; [|destruct (Z.eq_dec k (j + 1)) as [->|]];
    repeat match goal with |- context [?a <? ?b] => destruct (Z.ltb_spec a b) end; rewrite ?HD by lia;
    nibs; try (subst; nib_val; done); replace i with j by lia; by rewrite Z.lxor_nilpotent, Z.lxor_0_r.
Qed.
End Pointwise.

(** [exchange_values]: the loop walks the elements from the last to the first
    and shifts the difference of each back to its place. *)
Section ExchangeValues.
Context (width : Z) (Hw : 1 <= width <= 15) (x y : Z) (Hx : 0 <= x < 16) (Hy : 0 <= y < 16).

Definition swap_diff (v : Z) : Z := if (v =? x) || (v =? y) then x .^ y else 0.

Lemma swap_diff_range v : 0 <= swap_diff v < 16.
Proof. unfold swap_diff. destruct (_ || _); [apply (lxor_range 4)|]; lia. Qed.

Lemma loop_diff v : vt width (vt width (- b2z ((v =? x) || (v =? y))) .& (x .^ y)) = swap_diff v.
Proof.
  pose proof (lxor_range 4 x y ltac:(lia) Hx Hy) as R. change (2 ^ 4) with 16 in R.
  pose proof (pow_vbits width Hw 1 ltac:(lia)) as B. change (2 ^ (4 * 1)) with 16 in B.
  pose proof (info_facts width Hw) as F.
  unfold swap_diff, vt. destruct (_ || _); simpl b2z; [|by unfold wrap; rewrite !Zmod_0_l].
  change (- (1)) with (-1).
  replace (wrap (vbits width) (-1) .& (x .^ y)) with (x .^ y); [by apply wrap_small; lia|].
  apply Z.bits_inj'; intros b Hb. rewrite Z.land_spec, wrap_testbit by lia.
  rewrite Z.bits_m1 by lia. destruct (Z.ltb_spec b (vbits width)); [done|].
  by rewrite (testbit_high 4 (x .^ y)) by lia.
Qed.

Lemma swap_diff_swaps v : v .^ swap_diff v = if v =? x then y else if v =? y then x else v.
Proof.
  unfold swap_diff. destruct (Z.eqb_spec v x) as [->|]; simpl; [by rewrite lxor_swap_l|].
  destruct (Z.eqb_spec v y) as [->|]; [by rewrite lxor_swap_r|]. apply Z.lxor_0_r.
Qed.

Lemma exchange_values_loop_nib n : forall diff p k, Z.of_nat n <= width -> 0 <= k <= width ->
  nib (exchange_values_loop width n x y diff p) k =
  (if k <? Z.of_nat n then 0 else nib diff (k - Z.of_nat n)) .^
  (if (1 <=? k) && (k <=? Z.of_nat n) then swap_diff (nib p (width - Z.of_nat n + k)) else 0).
Proof.
  induction n as [|n IH]; intros diff p k Hn Hk; cbn [exchange_values_loop].
  { change (Z.of_nat 0) with 0. destruct (Z.ltb_spec k 0); [lia|].
    replace (k - 0) with k by lia. destruct (Z.leb_spec 1 k), (Z.leb_spec k 0); try lia; by rewrite Z.lxor_0_r. }
  rewrite Nat2Z.inj_succ in *. unfold Z.succ in *. rewrite loop_diff.
  rewrite shl2. fold (nib p width). rewrite IH by lia.
  set (m := Z.of_nat n) in *. assert (0 <= m) by lia.
  pose proof (swap_diff_range (nib p width)) as R.
  replace (if k <? m then 0 else nib (vt width ((diff .^ swap_diff (nib p width)) .<< 4)) (k - m))
    with ((if k <? m + 1 then 0 else nib diff (k - (m + 1))) .^ (if k =? m + 1 then swap_diff (nib p width) else 0)).
  2:{ destruct (Z.ltb_spec k m), (Z.ltb_spec k (m + 1)); try lia.
      - nib_split; done.
      - rewrite nib_shl4 by lia. nib_split; done.
      - rewrite nib_shl4, nib_lxor, (nib_small (swap_diff _)) by lia.
        destruct (Z.ltb_spec (k - m) 1); [lia|]. replace (k - m - 1) with (k - (m + 1)) by lia.
        nib_split; done. }
  destruct (Z.leb_spec 1 k), (Z.leb_spec k m), (Z.leb_spec k (m + 1)), (Z.ltb_spec k (m + 1)),
    (Z.eqb_spec k (m + 1)); try lia; cbn [andb]; rewrite ?Z.lxor_0_r, ?Z.lxor_0_l; try done.
  - rewrite nib_shl4 by lia. destruct (Z.ltb_spec (width - m + k) 1); [lia|].
    do 2 f_equal. lia.
  - replace (width - (m + 1) + k) with width by lia. done.
Qed.

Lemma exchange_values_nib z k : 0 <= k <= width ->
  nib (exchange_values width z x y) k =
  if k =? 0 then nib z 0
  else if nib z k =? x then y else if nib z k =? y then x else nib z k.
Proof.
  intros Hk. unfold exchange_values.
  rewrite nib_store, nib_lxor, exchange_values_loop_nib by lia. rewrite Z2Nat.id by lia.
  replace (if k <? width then 0 else nib 0 (k - width)) with 0.
  2:{ destruct (Z.ltb_spec k width); [done|]. rewrite nib_small by lia. nib_split; done. }
  rewrite Z.lxor_0_l. replace (width - width + k) with k by lia.
  destruct (Z.eqb_spec k 0) as [->|]; simpl; [apply Z.lxor_0_r|].
  destruct (Z.leb_spec 1 k), (Z.leb_spec k width); try lia. apply swap_diff_swaps.
Qed.
End ExchangeValues.

(** * The list view *)

Definition elems (width x : Z) : list Z := elem x <$> seqZ 0 width.

(** Take the element at [s] out and put it back at [d]. *)
Definition list_move (s d : Z) (l : list Z) : list Z :=
  let l' := delete (Z.to_nat s) l in
  take (Z.to_nat d) l' ++ get l s :: drop (Z.to_nat d) l'.
Definition list_rotate (i j : Z) (l : list Z) : list Z :=
  take (Z.to_nat i) l ++ drop (Z.to_nat j) l ++ drop (Z.to_nat i) (take (Z.to_nat j) l).
Definition list_swap (i j : Z) (l : list Z) : list Z := upd (upd l i (get l j)) j (get l i).
Definition value_swap (x y : Z) (l : list Z) : list Z :=
  (fun v => if v =? x then y else if v =? y then x else v) <$> l.

(** A well-formed permuter: it fits its word, its size is at most [width], its
    elements are [0 .. width - 1] in some order. *)
Definition perm_wf (width x : Z) : Prop :=
  0 <= x < 2 ^ (4 * nibbles (info width)) /\ size x <= width /\ elems width x ≡ₚ seqZ 0 width.

(** The operations as data: preconditions of the code's comments, the code, and
    what each does to the pair of size and list. *)
Inductive perm_op :=
  | OpInsertFromBack (i : Z) | OpInsertSelected (di si : Z) | OpRemove (i : Z)
  | OpRemoveToBack (i : Z) | OpRotate (i j : Z) | OpExchange (i j : Z)
  | OpExchangeValues (x y : Z) | OpSetSize (n : Z).
Definition op_pre (width : Z) (o : perm_op) (n : Z) : Prop :=
  match o with
  | OpInsertFromBack i => 0 <= i < width /\ n < width
  | OpInsertSelected di si => 0 <= di <= si /\ n <= si < width
  | OpRemove i => 0 <= i < n
  | OpRemoveToBack i => 0 <= i < n
  | OpRotate i j => 0 <= i <= j /\ j <= width
  | OpExchange i j => 0 <= i < width /\ 0 <= j < width
  | OpExchangeValues x y => 0 <= x < width /\ 0 <= y < width
  | OpSetSize m => 0 <= m <= width
  end.
Definition op_run (width : Z) (o : perm_op) (x : Z) : Z :=
  match o with
  | OpInsertFromBack i => (insert_from_back width x i).1
  | OpInsertSelected di si => insert_selected width x di si
  | OpRemove i => remove width x i
  | OpRemoveToBack i => remove_to_back width x i
  | OpRotate i j => rotate width x i j
  | OpExchange i j => exchange width x i j
  | OpExchangeValues a b => exchange_values width x a b
  | OpSetSize m => set_size width x m
  end.
Definition op_spec (width : Z) (o : perm_op) (a : Z * list Z) : Z * list Z :=
  let '(n, l) := a in
  match o with
  | OpInsertFromBack i => (n + 1, list_move (width - 1) i l)
  | OpInsertSelected di si => (n + 1, list_move si di l)
  | OpRemove i => (n - 1, list_move i (n - 1) l)
  | OpRemoveToBack i => (n - 1, list_move i (width - 1) l)
  | OpRotate i j => (n, list_rotate i j l)
  | OpExchange i j => (n, list_swap i j l)
  | OpExchangeValues a b => (n, value_swap a b l)
  | OpSetSize m => (m, l)
  end.
Definition perm_view (width x : Z) : Z * list Z := (size x, elems width x).

Section ListLemmas.
Lemma get_default l i : 0 <= i -> get l i = default 0 (l !! Z.to_nat i).
Proof. intros. unfold get. destruct (Z.ltb_spec i 0); [lia|]. apply nth_lookup. Qed.

Lemma get_list_move s d l k : 0 <= s < Z.of_nat (length l) -> 0 <= d < Z.of_nat (length l) ->
  0 <= k < Z.of_nat (length l) ->
  get (list_move s d l) k =
  if k =? d then get l s
  else let k' := if k <? d then k else k - 1 in get l (if k' <? s then k' else k' + 1).
Proof.
  intros Hs Hd Hk. unfold list_move. rewrite (get_default _ k) by lia.
  assert (Hlen : length (delete (Z.to_nat s) l) = (length l - 1)%nat).
  { apply length_delete, lookup_lt_is_Some. lia. }
  assert (Htk : length (take (Z.to_nat d) (delete (Z.to_nat s) l)) = Z.to_nat d).
  { rewrite length_take. lia. }
  destruct (Z.eqb_spec k d) as [->|].
  { rewrite lookup_app_r by lia. rewrite Htk, Nat.sub_diag. done. }
  cbv zeta. destruct (Z.ltb_spec k d).
  - rewrite lookup_app_l, lookup_take_lt by lia. rewrite list_lookup_delete.
    rewrite get_default by (zcases; lia). repeat case_decide; zcases; do 2 f_equal; lia.
  - rewrite lookup_app_r by lia. rewrite Htk.
    replace (Z.to_nat k - Z.to_nat d)%nat with (S (Z.to_nat (k - d - 1))) by lia.
    rewrite lookup_cons.
    rewrite lookup_drop, list_lookup_delete.
    rewrite get_default by (zcases; lia). repeat case_decide; zcases; do 2 f_equal; lia.
Qed.
Lemma length_list_move s d l : 0 <= s < Z.of_nat (length l) -> 0 <= d < Z.of_nat (length l) ->
  length (list_move s d l) = length l.
Proof.
  intros. unfold list_move. rewrite length_app, length_take. cbn [length]. rewrite length_drop.
  rewrite length_delete by (apply lookup_lt_is_Some; lia). lia.
Qed.
Lemma list_move_Permutation s d l : 0 <= s < Z.of_nat (length l) -> list_move s d l ≡ₚ l.
Proof.
  intros. unfold list_move. rewrite <- Permutation_middle, take_drop.
  symmetry. apply delete_Permutation. rewrite get_default by lia.
  destruct (lookup_lt_is_Some_2 l (Z.to_nat s)) as [v ->]; [lia|done].
Qed.

Lemma get_list_rotate i j l k : 0 <= i <= j -> j <= Z.of_nat (length l) ->
  0 <= k < Z.of_nat (length l) ->
  get (list_rotate i j l) k =
  get l (if k <? i then k else if k <? Z.of_nat (length l) - j + i then k + (j - i)
         else k - (Z.of_nat (length l) - j)).
Proof.
  intros. unfold list_rotate. rewrite !get_default by (zcases; lia).
  assert (length (take (Z.to_nat i) l) = Z.to_nat i) as E by (rewrite length_take; lia).
  destruct (Z.ltb_spec k i).
  { rewrite lookup_app_l by lia. by rewrite lookup_take_lt by lia. }
  rewrite lookup_app_r by lia. rewrite E. destruct (Z.ltb_spec k (Z.of_nat (length l) - j + i)).
  - rewrite lookup_app_l by (rewrite length_drop; lia). rewrite lookup_drop. do 2 f_equal. lia.
  - rewrite lookup_app_r by (rewrite length_drop; lia). rewrite length_drop, lookup_drop.
    rewrite lookup_take_lt by lia. do 2 f_equal. lia.
Qed.
Lemma list_rotate_Permutation i j l : 0 <= i <= j -> list_rotate i j l ≡ₚ l.
Proof.
  intros. unfold list_rotate. rewrite (Permutation_app_comm (drop (Z.to_nat j) l)), app_assoc.
  assert (take (Z.to_nat i) l ++ drop (Z.to_nat i) (take (Z.to_nat j) l) = take (Z.to_nat j) l) as ->.
  { rewrite <- (take_drop (Z.to_nat i) (take (Z.to_nat j) l)) at 2. by rewrite take_take, Nat.min_l by lia. }
  by rewrite take_drop.
Qed.
End ListLemmas.

(** * Refinement *)
Section Refinement.
Context (width : Z) (Hw : 1 <= width <= 15).

Lemma length_elems x : Z.of_nat (length (elems width x)) = width.
Proof. unfold elems. rewrite length_fmap, length_seqZ. lia. Qed.
Lemma get_elems x k : 0 <= k < width -> get (elems width x) k = elem x k.
Proof.
  intros. rewrite get_default by lia. unfold elems.
  rewrite list_lookup_fmap, lookup_seqZ_lt by lia. simpl. f_equal. lia.
Qed.
Lemma elems_ext x l : Z.of_nat (length l) = width ->
  (forall k, 0 <= k < width -> elem x k = get l k) -> elems width x = l.
Proof.
  intros Hl H. apply (list_eq_same_length _ _ (length l)); [done| |].
  { pose proof (length_elems x). lia. }
  intros i a b Hi Ha Hb. specialize (H (Z.of_nat i) ltac:(lia)).
  rewrite <- get_elems, !get_default, Nat2Z.id, Ha, Hb in H by lia. done.
Qed.
Lemma elem_wf x k : perm_wf width x -> 0 <= k < width -> 0 <= elem x k < width.
Proof.
  intros (_ & _ & HP) Hk.
  assert (elem x k ∈ elems width x) as Hin.
  { apply list_elem_of_fmap. exists k. split; [done|]. apply elem_of_seqZ. lia. }
  rewrite HP in Hin. apply elem_of_seqZ in Hin. lia.
Qed.
Lemma store_range x : 0 <= store width x < 2 ^ (4 * nibbles (info width)).
Proof. apply wrap_range. pose proof (info_facts width Hw). lia. Qed.

Lemma set_size_nib x n k : 0 <= n <= width -> 0 <= k <= width ->
  nib (set_size width x n) k = if k =? 0 then n else nib x k.
Proof.
  intros. unfold set_size. rewrite nib_store, nib_lor, nib_land, nib_vnot, (nib_small n k), (nib_small 15 k) by lia.
  nibs.
Qed.

Lemma op_run_range o x : 0 <= op_run width o x < 2 ^ (4 * nibbles (info width)).
Proof. destruct o; simpl; unfold remove; try case_match; apply store_range. Qed.

Lemma list_swap_Permutation i j l : 0 <= i < Z.of_nat (length l) -> 0 <= j < Z.of_nat (length l) ->
  list_swap i j l ≡ₚ l.
Proof.
  intros Hi Hj. unfold list_swap. destruct (decide (i = j)) as [->|Hij].
  { by rewrite upd_upd_eq, upd_get_id. }
  apply Permutation_inj. rewrite !length_upd. split; [done|].
  exists (fun k => if decide (k = Z.to_nat i) then Z.to_nat j
    else if decide (k = Z.to_nat j) then Z.to_nat i else k).
  split.
  - intros k k' ?. repeat case_decide; lia.
  - intros k. unfold upd. destruct (Z.ltb_spec i 0), (Z.ltb_spec j 0); try lia.
    rewrite !list_lookup_insert, length_insert, !get_default by lia.
    destruct (lookup_lt_is_Some_2 l (Z.to_nat i)) as [u Hu]; [lia|].
    destruct (lookup_lt_is_Some_2 l (Z.to_nat j)) as [v Hv]; [lia|].
    rewrite Hu, Hv. repeat case_decide; try lia; by subst; simpl.
Qed.

Lemma value_swap_Permutation a b l : l ≡ₚ seqZ 0 width -> 0 <= a < width -> 0 <= b < width ->
  value_swap a b l ≡ₚ l.
Proof.
  intros Hl Ha Hb. rewrite Hl at 2. unfold value_swap. rewrite Hl. apply NoDup_Permutation.
  - apply NoDup_fmap_2_strong; [|apply NoDup_seqZ]. intros u v _ _ ?.
    repeat match goal with H : context [?p =? ?q] |- _ => destruct (Z.eqb_spec p q) end; lia.
  - apply NoDup_seqZ.
  - intros v. rewrite elem_of_seqZ, list_elem_of_fmap. split.
    + intros (u & -> & Hu%elem_of_seqZ). zcases; lia.
    + intros Hv. exists (if v =? a then b else if v =? b then a else v). rewrite elem_of_seqZ.
      zcases; split; lia.
Qed.

Lemma op_spec_Permutation o n l : Z.of_nat (length l) = width -> l ≡ₚ seqZ 0 width ->
  op_pre width o n -> n <= width -> (op_spec width o (n, l)).2 ≡ₚ l.
Proof.
  intros Hlen Hl Hpre Hn. destruct o; simpl in *; try done;
    first [apply list_move_Permutation | apply list_rotate_Permutation
      | apply list_swap_Permutation | apply value_swap_Permutation]; try done; lia.
Qed.
Lemma op_spec_size o n l : op_pre width o n -> 0 <= n <= width ->
  0 <= (op_spec width o (n, l)).1 <= width.
Proof. intros. destruct o; simpl in *; lia. Qed.

(** One operation: its nibble lemma against the [get] lemma of its list operation. *)
Ltac elems_goal :=
  cbv zeta; nib_split; rewrite ?get_elems by lia; rewrite ?elem_nib; try done; f_equal; lia.

Lemma op_run_size o x : 0 <= size x <= width -> op_pre width o (size x) ->
  size (op_run width o x) = (op_spec width o (perm_view width x)).1.
Proof.
  intros Hs Hpre. unfold perm_view. rewrite size_nib. pose proof (size_nib x).
  destruct o; cbn [op_run op_spec op_pre fst] in *.
  - rewrite insert_from_back_nib by lia. done.
  - rewrite insert_selected_nib by lia. done.
  - rewrite remove_nib by lia. done.
  - rewrite remove_to_back_nib by lia. done.
  - rewrite rotate_nib by lia. nib_split; done.
  - rewrite exchange_nib by lia. nib_split; done.
  - rewrite exchange_values_nib by lia. done.
  - rewrite set_size_nib by lia. done.
Qed.

Lemma op_run_elems o x : 0 <= size x <= width -> op_pre width o (size x) ->
  elems width (op_run width o x) = (op_spec width o (perm_view width x)).2.
Proof.
  intros Hs Hpre. unfold perm_view. pose proof (length_elems x) as Hlen.
  destruct o; cbn [op_run op_spec op_pre snd] in *; apply elems_ext;
    rewrite ?length_list_move by lia; try done;
    try (intros k Hk; rewrite elem_nib); rewrite ?get_list_move by lia.
  - rewrite insert_from_back_nib by lia. unfold back. elems_goal.
  - rewrite insert_selected_nib by lia. elems_goal.
  - rewrite remove_nib by lia. elems_goal.
  - rewrite remove_to_back_nib by lia. elems_goal.
  - by rewrite list_rotate_Permutation by lia.
  - rewrite rotate_nib, get_list_rotate, Hlen by lia. elems_goal.
  - unfold list_swap. by rewrite !length_upd.
  - rewrite exchange_nib by lia. unfold list_swap.
    destruct (Z.eq_dec k j) as [->|]; [|destruct (Z.eq_dec k i) as [->|]].
    + rewrite get_upd_eq by (rewrite length_upd; lia). elems_goal.
    + rewrite get_upd_ne, get_upd_eq by lia. elems_goal.
    + rewrite !get_upd_ne by lia. elems_goal.
  - unfold value_swap. by rewrite length_fmap.
  - rewrite exchange_values_nib by lia. unfold value_swap.
    rewrite get_default, list_lookup_fmap by lia.
    pose proof (get_elems x k Hk) as G. rewrite get_default in G by lia.
    destruct (lookup_lt_is_Some_2 (elems width x) (Z.to_nat k)) as [v Hv]; [lia|].
    rewrite Hv in *. simpl in *. subst v. rewrite elem_nib. nib_split; done.
  - rewrite set_size_nib by lia. elems_goal.
Qed.

Lemma perm_op_step o x : perm_wf width x -> op_pre width o (size x) ->
  perm_view width (op_run width o x) = op_spec width o (perm_view width x) /\
  perm_wf width (op_run width o x).
Proof.
  intros (Hr & Hs & HP) Hpre. pose proof (nib_range x 0) as Hn. rewrite <- size_nib in Hn.
  assert (Hv : perm_view width (op_run width o x) = op_spec width o (perm_view width x)).
  { unfold perm_view at 1. rewrite op_run_size, op_run_elems by (done || lia). by destruct (op_spec _ _ _). }
  split; [done|]. split_and!; [apply op_run_range..| |].
  - rewrite op_run_size by (done || lia). apply op_spec_size; [done|lia].
  - rewrite op_run_elems by (done || lia). etrans; [|exact HP].
    pose proof (length_elems x). apply op_spec_Permutation; done.
Qed.

(** [C16]. Every mutator of the permuter implements its list operation: on a
    well-formed permuter and under the operation's precondition, the word arithmetic
    changes size and element order exactly as the specification does, and the result
    is again a permutation of all slots within its word. *)
Theorem perm_op_refines o x : perm_wf width x -> op_pre width o (size x) ->
  perm_view width (op_run width o x) = op_spec width o (perm_view width x) /\
  perm_wf width (op_run width o x).
Proof. apply perm_op_step. Qed.
End Refinement.

(** * Construction *)

Definition make_sorted_spec (width n : Z) : Z * list Z :=
  (n, seqZ 0 n ++ reverse (seqZ n (width - n))).
Definition make_sorted_check (width n : Z) : bool :=
  bool_decide (perm_view width (kpermuter width (make_sorted width n)) = make_sorted_spec width n) &&
  bool_decide (make_sorted width 0 = make_empty width).
Lemma make_sorted_all : forallb (fun w => forallb (make_sorted_check w) (seqZ 0 (w + 1))) (seqZ 1 15) = true.
Proof. vm_compute. reflexivity. Qed.

Lemma forallb_seqZ f m n : forallb f (seqZ m n) = true -> forall i, m <= i < m + n -> f i = true.
Proof.
  intros H i Hi. rewrite forallb_forall in H. apply H, list_elem_of_In, elem_of_seqZ. lia.
Qed.

(** ** Element by element, for the clients of the permuter *)
Section Elementwise.
Context (width : Z) (Hw : 1 <= width <= 15).

Lemma elem_inj x i j : perm_wf width x -> 0 <= i < width -> 0 <= j < width ->
  elem x i = elem x j -> i = j.
Proof using Hw.
  intros (_ & _ & HP) Hi Hj E. assert (HN : NoDup (elems width x)) by (rewrite HP; apply NoDup_seqZ).
  pose proof (length_elems width Hw x).
  assert (HL : forall k, 0 <= k < width -> elems width x !! Z.to_nat k = Some (elem x k)).
  { intros k Hk. destruct (lookup_lt_is_Some_2 (elems width x) (Z.to_nat k)) as [v Hv]; [lia|].
    rewrite Hv. f_equal. rewrite <- (get_elems width x k Hk), get_default, Hv by lia. done. }
  pose proof (proj1 (NoDup_alt _) HN (Z.to_nat i) (Z.to_nat j) (elem x i)) as Hinj.
  rewrite !HL in Hinj by lia. specialize (Hinj eq_refl ltac:(by rewrite E)). lia.
Qed.
Lemma set_size_elem x n k : 0 <= n <= width -> 0 <= k < width -> elem (set_size width x n) k = elem x k.
Proof using Hw. intros. rewrite !elem_nib, set_size_nib by lia. by destruct (Z.eqb_spec (k + 1) 0); [lia|]. Qed.
Lemma exchange_elem x i j k : 0 <= i < width -> 0 <= j < width -> 0 <= k < width ->
  elem (exchange width x i j) k = if k =? i then elem x j else if k =? j then elem x i else elem x k.
Proof using Hw. intros. rewrite !elem_nib, exchange_nib, !elem_nib by lia. zcases; done. Qed.
Lemma insert_from_back_elem x i k : 0 <= i < width -> size x < width -> 0 <= k < width ->
  elem (insert_from_back width x i).1 k
  = if k <? i then elem x k else if k =? i then back width x else elem x (k - 1).
Proof using Hw.
  intros. rewrite elem_nib, insert_from_back_nib by lia. rewrite !elem_nib.
  destruct (Z.eqb_spec (k + 1) 0); [lia|]. zcases; done || (f_equal; lia).
Qed.
Lemma remove_to_back_elem x i k : 0 <= i < width -> 0 < size x -> 0 <= k < width ->
  elem (remove_to_back width x i) k
  = if k <? i then elem x k else if k <? width - 1 then elem x (k + 1) else elem x i.
Proof using Hw.
  intros. rewrite elem_nib, remove_to_back_nib by lia. rewrite !elem_nib.
  destruct (Z.eqb_spec (k + 1) 0); [lia|]. zcases; done || (f_equal; lia).
Qed.
Lemma make_sorted_elem n k : 0 <= n <= width -> 0 <= k < n ->
  elem (kpermuter width (make_sorted width n)) k = k.
Proof using Hw.
  intros Hn Hk. pose proof (forallb_seqZ _ _ _ make_sorted_all width ltac:(lia)) as H.
  pose proof (forallb_seqZ _ _ _ H n ltac:(lia)) as Hc. unfold make_sorted_check in Hc. boolify.
  repeat match goal with H : bool_decide _ = true |- _ => apply bool_decide_eq_true_1 in H end.
  match goal with H : perm_view _ _ = _ |- _ => apply (f_equal snd) in H; rename H into E end.
  assert (Hg : get (elems width (kpermuter width (make_sorted width n))) k = k).
  { cbn [perm_view make_sorted_spec snd] in E. rewrite E.
    rewrite get_default by lia. rewrite lookup_app_l by (rewrite length_seqZ; lia).
    rewrite lookup_seqZ_lt by lia. cbn. lia. }
  rewrite get_elems in Hg by lia. exact Hg.
Qed.
End Elementwise.

Lemma make_sorted_facts width n : 1 <= width <= 15 -> 0 <= n <= width ->
  perm_wf width (kpermuter width (make_sorted width n)) /\
  perm_view width (kpermuter width (make_sorted width n)) = make_sorted_spec width n /\
  make_sorted width 0 = make_empty width.
Proof.
  intros Hw Hn. pose proof (forallb_seqZ _ _ _ make_sorted_all width ltac:(lia)) as H.
  pose proof (forallb_seqZ _ _ _ H n ltac:(lia)) as Hc. unfold make_sorted_check in Hc. boolify.
  repeat match goal with H : bool_decide _ = true |- _ => apply bool_decide_eq_true in H end.
  split_and!; try done. split; [by apply store_range|].
  unfold perm_view, make_sorted_spec in *. simplify_eq. split; [lia|].
  match goal with H : elems _ _ = _ |- _ => rewrite H end.
  rewrite reverse_Permutation.
  replace width with (n + (width - n)) at 2 by lia.
  rewrite seqZ_app by lia. done.
Qed.

(** [make_sorted(n)] holds the slots [0 .. n-1] in order, then the free slots
    from the highest down, so that insertions from the back take [n], [n+1], ...; [make_empty] is [make_sorted(0)]. *)
Theorem make_sorted_correct width n : 1 <= width <= 15 -> 0 <= n <= width ->
  perm_wf width (kpermuter width (make_sorted width n)) /\
  perm_view width (kpermuter width (make_sorted width n)) = make_sorted_spec width n /\
  make_empty width = make_sorted width 0.
Proof. intros Hw Hn. by destruct (make_sorted_facts width n Hw Hn) as (? & ? & ->). Qed.
Lemma make_sorted_correct_witness : perm_view 15 (kpermuter 15 (make_sorted 15 3)) =
  (3, [0; 1; 2; 14; 13; 12; 11; 10; 9; 8; 7; 6; 5; 4; 3]).
Proof. apply (make_sorted_correct 15 3); lia. Defined.

Lemma perm_op_refines_witness :
  perm_view 15 (insert_from_back 15 (kpermuter 15 (make_sorted 15 3)) 1).1 =
  (4, [0; 3; 1; 2; 14; 13; 12; 11; 10; 9; 8; 7; 6; 5; 4]).
Proof.
  refine (eq_trans (proj1 (perm_op_refines 15 ltac:(lia) (OpInsertFromBack 1)
    (kpermuter 15 (make_sorted 15 3)) _ _)) _).
  - apply make_sorted_facts; lia.
  - simpl. split; [lia|]. vm_compute. reflexivity.
  - vm_compute. reflexivity.
Defined.

(** Inserting a free slot and then removing it restores the logical contents:
    the occupied positions name the same slots in the same order. *)
Theorem insert_remove_roundtrip width x i : 1 <= width <= 15 -> perm_wf width x ->
  0 <= i <= size x -> size x < width ->
  let y := remove width (insert_from_back width x i).1 i in
  size y = size x /\ forall k, 0 <= k < size x -> elem y k = elem x k.
Proof.
  intros Hw Hx Hi Hs y. pose proof (size_nib x). pose proof (nib_range x 0).
  assert (size (insert_from_back width x i).1 = size x + 1) as E.
  { rewrite size_nib, insert_from_back_nib by lia. done. }
  split.
  - unfold y. rewrite size_nib, remove_nib by lia. rewrite Z.eqb_refl. lia.
  - intros k Hk. unfold y. rewrite !elem_nib, remove_nib by lia.
    nib_split; rewrite insert_from_back_nib by lia; nib_split; done || (f_equal; lia).
Qed.
Lemma insert_remove_roundtrip_witness :
  size (remove 15 (insert_from_back 15 (kpermuter 15 (make_sorted 15 3)) 1).1 1) = 3.
Proof.
  refine (proj1 (insert_remove_roundtrip 15 (kpermuter 15 (make_sorted 15 3)) 1 ltac:(lia) _ _ _)).
  - apply make_sorted_facts; lia.
  - vm_compute. split; congruence.
  - vm_compute. reflexivity.
Defined.

(** The comment of [rotate] takes the rotation modulo [size() - i]; the code rotates
    over all [width - i] slots, occupied or not. *)
Theorem rotate_not_modulo_size :
  let x := kpermuter 15 (make_sorted 15 6) in
  elem (rotate 15 x 2 4) 4 = 14 /\ elem x (2 + (4 - 2 + 4 - 2) mod (size x - 2)) = 2.
Proof. vm_compute. done. Qed.
