(* ===== verification/KSearch.v ===== *)
(** ksearch.hh: binary and linear search of a node's keys through its permuter.

    A node is seen through its permuter and the comparator: [cmp p] is the sign
    of the comparison of the searched key with the key in slot [p].  The loops
    take fuel and return [None] when it runs out; the theorems show that the
    fuel the entry points pass is always enough. *)
From S2P Require Import Prelude Permuter.

Record key_indexed_position := { kx_i : Z; kx_p : Z }.

Section Search.
Context (perm : key_permuter) (cmp : Z -> Z).

Fixpoint key_upper_bound_loop (fuel : nat) (l r : Z) : option Z :=
  match fuel with
  | O => None
  | S fuel =>
      if l <? r then
        let m := (l + r) .>> 1 in
        let mp := kp_elem perm m in
        let c := cmp mp in
        if c <? 0 then key_upper_bound_loop fuel l m
        else if c =? 0 then Some (m + 1)
        else key_upper_bound_loop fuel (m + 1) r
      else Some l
  end.

Fixpoint key_lower_bound_loop (fuel : nat) (l r : Z) : option key_indexed_position :=
  match fuel with
  | O => None
  | S fuel =>
      if l <? r then
        let m := (l + r) .>> 1 in
        let mp := kp_elem perm m in
        let c := cmp mp in
        if c <? 0 then key_lower_bound_loop fuel l m
        else if c =? 0 then Some {| kx_i := m; kx_p := mp |}
        else key_lower_bound_loop fuel (m + 1) r
      else Some {| kx_i := l; kx_p := -1 |}
  end.

Fixpoint key_find_upper_bound_loop (fuel : nat) (l r : Z) : option Z :=
  match fuel with
  | O => None
  | S fuel =>
      if l <? r then
        let lp := kp_elem perm l in
        if cmp lp <? 0 then Some l else key_find_upper_bound_loop fuel (l + 1) r
      else Some l
  end.

Fixpoint key_find_lower_bound_loop (fuel : nat) (l r : Z) : option key_indexed_position :=
  match fuel with
  | O => None
  | S fuel =>
      if l <? r then
        let lp := kp_elem perm l in
        let c := cmp lp in
        if c <? 0 then Some {| kx_i := l; kx_p := -1 |}
        else if c =? 0 then Some {| kx_i := l; kx_p := lp |}
        else key_find_lower_bound_loop fuel (l + 1) r
      else Some {| kx_i := l; kx_p := -1 |}
  end.

(** Fuel: [log2 n + 2] turns for the binary searches, [n + 1] for the linear ones. *)
Definition binary_fuel (n : Z) : nat := Z.to_nat (Z.log2 n + 2).
Definition linear_fuel (n : Z) : nat := S (Z.to_nat n).

Definition key_upper_bound_by : option Z :=
  key_upper_bound_loop (binary_fuel (kp_size perm)) 0 (kp_size perm).
Definition key_lower_bound_by : option key_indexed_position :=
  key_lower_bound_loop (binary_fuel (kp_size perm)) 0 (kp_size perm).
Definition key_find_upper_bound_by : option Z :=
  key_find_upper_bound_loop (linear_fuel (kp_size perm)) 0 (kp_size perm).
Definition key_find_lower_bound_by : option key_indexed_position :=
  key_find_lower_bound_loop (linear_fuel (kp_size perm)) 0 (kp_size perm).

(** The specification: the keys of the node are in strictly increasing order, so
    the comparison results decrease along the permutation. *)
Definition cmp_at (i : Z) : Z := cmp (kp_elem perm i).
Definition node_sorted : Prop :=
  forall i j, 0 <= i < j -> j < kp_size perm -> 0 <= cmp_at j -> 0 < cmp_at i.

Definition upper_bound_spec (u : Z) : Prop :=
  0 <= u <= kp_size perm /\ (forall i, 0 <= i < u -> 0 <= cmp_at i) /\
  (forall i, u <= i < kp_size perm -> cmp_at i < 0).
Definition lower_bound_spec (x : key_indexed_position) : Prop :=
  0 <= kx_i x <= kp_size perm /\
  (forall i, 0 <= i < kx_i x -> 0 < cmp_at i) /\
  if kx_p x =? -1 then forall i, kx_i x <= i < kp_size perm -> cmp_at i < 0
  else kx_i x < kp_size perm /\ cmp_at (kx_i x) = 0 /\ kx_p x = kp_elem perm (kx_i x).
End Search.

(** [key_bound<max_size, method>]: the class that a node searches with. *)
Inductive bound_method := bound_method_fast | bound_method_binary | bound_method_linear.
Inductive key_bound_type := key_bound_binary | key_bound_linear.
Definition key_bound (max_size : Z) (m : bound_method) : key_bound_type :=
  match m with
  | bound_method_binary => key_bound_binary
  | bound_method_linear => key_bound_linear
  | bound_method_fast => if 16 <? max_size then key_bound_binary else key_bound_linear
  end.
Definition upper (b : key_bound_type) (perm : key_permuter) (cmp : Z -> Z) : option Z :=
  match b with
  | key_bound_binary => key_upper_bound_by perm cmp
  | key_bound_linear => key_find_upper_bound_by perm cmp
  end.
Definition lower_by (b : key_bound_type) (perm : key_permuter) (cmp : Z -> Z) : option key_indexed_position :=
  match b with
  | key_bound_binary => key_lower_bound_by perm cmp
  | key_bound_linear => key_find_lower_bound_by perm cmp
  end.

Lemma mid_between l r : l < r -> l <= (l + r) .>> 1 < r.
Proof. intros. rewrite Z.shiftr_div_pow2 by lia. change (2 ^ 1) with 2. Z.div_mod_to_equations. lia. Qed.

Lemma mid_halves l r k : l < r -> r - l < 2 * k ->
  (l + r) .>> 1 - l < k /\ r - ((l + r) .>> 1 + 1) < k.
Proof. intros. rewrite Z.shiftr_div_pow2 by lia. change (2 ^ 1) with 2. Z.div_mod_to_equations. lia. Qed.

Lemma binary_fuel_enough n : 0 <= n -> n < 2 ^ (Z.of_nat (binary_fuel n) - 1).
Proof.
  intros. unfold binary_fuel. pose proof (Z.log2_nonneg n). rewrite Z2Nat.id by lia.
  replace (Z.log2 n + 2 - 1) with (Z.succ (Z.log2 n)) by lia.
  destruct (Z.eq_dec n 0) as [->|]; [done|]. apply Z.log2_spec. lia.
Qed.

Section Correct.
Context (perm : key_permuter) (cmp : Z -> Z) (Hsorted : node_sorted perm cmp).
Context (Hsize : 0 <= kp_size perm)
  (Helem : forall i, 0 <= i < kp_size perm -> 0 <= kp_elem perm i).
Abbreviation n := (kp_size perm).
Abbreviation c := (cmp_at perm cmp).

(** What both loops keep true of the interval that is left. *)
Definition bracket (l r : Z) : Prop :=
  0 <= l <= r /\ r <= n /\ (forall i, 0 <= i < l -> 0 < c i) /\ (forall i, r <= i < n -> c i < 0).

Lemma bracket_low l r m : bracket l r -> l <= m < r -> c m < 0 -> bracket l m.
Proof.
  intros (? & ? & Hl & Hr) ? ?. split_and!; try lia; [done|]. intros i ?.
  destruct (Z.eq_dec i m) as [->|]; [done|].
  destruct (Z.ltb_spec (c i) 0); [done|]. pose proof (Hsorted m i ltac:(lia) ltac:(lia) ltac:(lia)). lia.
Qed.
Lemma bracket_high l r m : bracket l r -> l <= m < r -> 0 < c m -> bracket (m + 1) r.
Proof.
  intros (? & ? & Hl & Hr) ? ?. split_and!; try lia; [|done]. intros i ?.
  destruct (Z.eq_dec i m) as [->|]; [done|]. apply (Hsorted i m); lia.
Qed.
Lemma match_neighbours m : 0 <= m < n -> c m = 0 ->
  (forall i, 0 <= i < m -> 0 < c i) /\ (forall i, m < i < n -> c i < 0).
Proof.
  intros Hm H0. split; intros i Hi.
  - apply (Hsorted i m); lia.
  - destruct (Z.ltb_spec (c i) 0); [done|]. pose proof (Hsorted m i ltac:(lia) ltac:(lia) ltac:(lia)). lia.
Qed.

Lemma bracket_closed l r : bracket l r -> r <= l -> bracket l l.
Proof. intros Hb ?. assert (r = l) as -> by (destruct Hb; lia). done. Qed.
Lemma halved fuel l r : l < r -> r - l < 2 ^ (Z.of_nat (S fuel) - 1) ->
  (l + r) .>> 1 - l < 2 ^ (Z.of_nat fuel - 1) /\ r - ((l + r) .>> 1 + 1) < 2 ^ (Z.of_nat fuel - 1).
Proof.
  intros Hlr Hf. destruct fuel as [|fuel]; [simpl in Hf; lia|]. apply mid_halves; [done|].
  rewrite <- Z.pow_succ_r by lia.
  by replace (Z.succ (Z.of_nat (S fuel) - 1)) with (Z.of_nat (S (S fuel)) - 1) by lia.
Qed.

Lemma bracket_upper l : bracket l l -> upper_bound_spec perm cmp l.
Proof. intros (? & ? & Hl & Hr). split; [lia|]. split; [|done]. intros i ?. specialize (Hl i). lia. Qed.
Lemma bracket_lower l : bracket l l -> lower_bound_spec perm cmp {| kx_i := l; kx_p := -1 |}.
Proof. intros (? & ? & Hl & Hr). split; simpl; [lia|]. done. Qed.
Lemma match_upper m : 0 <= m < n -> c m = 0 -> upper_bound_spec perm cmp (m + 1).
Proof.
  intros Hm H0. destruct (match_neighbours m Hm H0) as [Hl Hr].
  split; [lia|]. split; intros i ?; [|apply Hr; lia].
  destruct (Z.eq_dec i m) as [->|]; [lia|]. specialize (Hl i). lia.
Qed.
Lemma match_lower m : 0 <= m < n -> c m = 0 ->
  lower_bound_spec perm cmp {| kx_i := m; kx_p := kp_elem perm m |}.
Proof.
  intros Hm H0. destruct (match_neighbours m Hm H0) as [Hl Hr].
  split; simpl; [lia|]. split; [done|]. pose proof (Helem m Hm).
  destruct (Z.eqb_spec (kp_elem perm m) (-1)); [lia|]. split_and!; done || lia.
Qed.

Lemma key_upper_bound_loop_ok fuel : forall l r, bracket l r -> r - l < 2 ^ (Z.of_nat fuel - 1) ->
  exists u, key_upper_bound_loop perm cmp fuel l r = Some u /\ upper_bound_spec perm cmp u.
Proof.
  induction fuel as [|fuel IH]; intros l r Hb Hf; [destruct Hb; simpl in Hf; lia|].
  cbn [key_upper_bound_loop]. fold (c ((l + r) .>> 1)).
  destruct (Z.ltb_spec l r) as [Hlr|]; [|eexists; split; [done|by eapply bracket_upper, bracket_closed]].
  pose proof (mid_between l r Hlr) as Hm. pose proof (halved fuel l r Hlr Hf) as Hd.
  set (m := (l + r) .>> 1) in *.
  destruct (Z.ltb_spec (c m) 0); [apply IH; [by apply (bracket_low l r)|lia]|].
  destruct (Z.eqb_spec (c m) 0); [|apply IH; [apply (bracket_high l r); done || lia|lia]].
  eexists; split; [done|]. destruct Hb. by apply match_upper; [lia|].
Qed.

Lemma key_lower_bound_loop_ok fuel : forall l r, bracket l r -> r - l < 2 ^ (Z.of_nat fuel - 1) ->
  exists x, key_lower_bound_loop perm cmp fuel l r = Some x /\ lower_bound_spec perm cmp x.
Proof.
  induction fuel as [|fuel IH]; intros l r Hb Hf; [destruct Hb; simpl in Hf; lia|].
  cbn [key_lower_bound_loop]. fold (c ((l + r) .>> 1)).
  destruct (Z.ltb_spec l r) as [Hlr|]; [|eexists; split; [done|by eapply bracket_lower, bracket_closed]].
  pose proof (mid_between l r Hlr) as Hm. pose proof (halved fuel l r Hlr Hf) as Hd.
  set (m := (l + r) .>> 1) in *.
  destruct (Z.ltb_spec (c m) 0); [apply IH; [by apply (bracket_low l r)|lia]|].
  destruct (Z.eqb_spec (c m) 0); [|apply IH; [apply (bracket_high l r); done || lia|lia]].
  eexists; split; [done|]. destruct Hb. by apply match_lower; [lia|].
Qed.

Lemma below_from l i : 0 <= l -> c l < 0 -> l <= i < n -> c i < 0.
Proof.
  intros Hl H0 Hi. destruct (Z.eq_dec i l) as [->|]; [done|].
  destruct (Z.ltb_spec (c i) 0); [done|]. pose proof (Hsorted l i ltac:(lia) ltac:(lia) ltac:(lia)). lia.
Qed.

Lemma key_find_upper_bound_loop_ok fuel : forall l, 0 <= l <= n -> n - l < Z.of_nat fuel ->
  (forall i, 0 <= i < l -> 0 <= c i) ->
  exists u, key_find_upper_bound_loop perm cmp fuel l n = Some u /\ upper_bound_spec perm cmp u.
Proof.
  induction fuel as [|fuel IH]; intros l Hl Hf Hlow; [lia|].
  cbn [key_find_upper_bound_loop]. fold (c l). destruct (Z.ltb_spec l n).
  - destruct (Z.ltb_spec (c l) 0).
    + eexists; split; [done|]. split; [lia|]. split; [done|]. intros i ?. by apply (below_from l); lia.
    + apply IH; [lia..|]. intros i ?. destruct (Z.eq_dec i l) as [->|]; [lia|]. apply Hlow. lia.
  - eexists; split; [done|]. split; [lia|]. split; [done|]. lia.
Qed.

Lemma key_find_lower_bound_loop_ok fuel : forall l, 0 <= l <= n -> n - l < Z.of_nat fuel ->
  (forall i, 0 <= i < l -> 0 < c i) ->
  exists x, key_find_lower_bound_loop perm cmp fuel l n = Some x /\ lower_bound_spec perm cmp x.
Proof.
  induction fuel as [|fuel IH]; intros l Hl Hf Hlow; [lia|].
  cbn [key_find_lower_bound_loop]. fold (c l). destruct (Z.ltb_spec l n).
  - destruct (Z.ltb_spec (c l) 0); [|destruct (Z.eqb_spec (c l) 0)].
    + eexists; split; [done|]. split; simpl; [lia|]. split; [done|]. intros i ?. by apply (below_from l); lia.
    + eexists; split; [done|]. by apply match_lower; [lia|].
    + apply IH; [lia..|]. intros i ?. destruct (Z.eq_dec i l) as [->|]; [lia|]. apply Hlow. lia.
  - eexists; split; [done|]. split; simpl; [lia|]. split; [done|]. lia.
Qed.

(** The result of a search is determined by its specification. *)
Lemma upper_bound_unique u v : upper_bound_spec perm cmp u -> upper_bound_spec perm cmp v -> u = v.
Proof.
  intros (Hu & Hul & Hur) (Hv & Hvl & Hvr). destruct (Z.lt_trichotomy u v) as [H|[H|H]]; [|done|].
  - specialize (Hur u ltac:(lia)). specialize (Hvl u ltac:(lia)). lia.
  - specialize (Hvr v ltac:(lia)). specialize (Hul v ltac:(lia)). lia.
Qed.
Lemma lower_bound_not_before x y : lower_bound_spec perm cmp x -> lower_bound_spec perm cmp y ->
  ~ kx_i x < kx_i y.
Proof.
  intros (Hi & Hil & Hx) (Hj & Hjl & _) Hlt. specialize (Hjl (kx_i x) ltac:(lia)).
  destruct (kx_p x =? -1); [specialize (Hx (kx_i x) ltac:(lia)); lia|lia].
Qed.
Lemma lower_bound_unique x y : lower_bound_spec perm cmp x -> lower_bound_spec perm cmp y -> x = y.
Proof.
  intros Hx Hy. pose proof (lower_bound_not_before x y Hx Hy). pose proof (lower_bound_not_before y x Hy Hx).
  destruct x as [i p], y as [j q]; simpl in *. assert (j = i) as -> by lia. f_equal.
  destruct Hx as (Hi & _ & Hx), Hy as (_ & _ & Hy); simpl in *.
  destruct (Z.eqb_spec p (-1)), (Z.eqb_spec q (-1)); try lia.
  - destruct Hy as (? & ? & _). specialize (Hx i ltac:(lia)). lia.
  - destruct Hx as (? & ? & _). specialize (Hy i ltac:(lia)). lia.
Qed.

Lemma whole_bracket : bracket 0 n.
Proof. split_and!; lia. Qed.

Lemma upper_ok b : exists u, upper b perm cmp = Some u /\ upper_bound_spec perm cmp u.
Proof.
  destruct b; simpl.
  - apply key_upper_bound_loop_ok; [apply whole_bracket|].
    pose proof (binary_fuel_enough n Hsize). by rewrite Z.sub_0_r.
  - apply key_find_upper_bound_loop_ok; unfold linear_fuel; lia.
Qed.
Lemma lower_ok b : exists x, lower_by b perm cmp = Some x /\ lower_bound_spec perm cmp x.
Proof.
  destruct b; simpl.
  - apply key_lower_bound_loop_ok; [apply whole_bracket|].
    pose proof (binary_fuel_enough n Hsize). by rewrite Z.sub_0_r.
  - apply key_find_lower_bound_loop_ok; unfold linear_fuel; lia.
Qed.
End Correct.

(** [C26]. On a sorted node every search method terminates within its fuel and finds
    the bounds: [upper] returns the position before which no key is above the searched
    key and from which all are; [lower_by] the matching position and its slot when the
    key is present, otherwise the insertion position and slot -1. *)
Theorem key_bound_correct b perm cmp : node_sorted perm cmp -> 0 <= kp_size perm ->
  (forall i, 0 <= i < kp_size perm -> 0 <= kp_elem perm i) ->
  (exists u, upper b perm cmp = Some u /\ upper_bound_spec perm cmp u) /\
  (exists x, lower_by b perm cmp = Some x /\ lower_bound_spec perm cmp x).
Proof. intros Hs Hn He. split; [by apply upper_ok | by apply lower_ok]. Qed.

(** Binary and linear search agree on a sorted node, so [key_bound]'s choice
    of method does not change any result. *)
Theorem key_bound_methods_agree max_size m m' perm cmp : node_sorted perm cmp -> 0 <= kp_size perm ->
  (forall i, 0 <= i < kp_size perm -> 0 <= kp_elem perm i) ->
  upper (key_bound max_size m) perm cmp = upper (key_bound max_size m') perm cmp /\
  lower_by (key_bound max_size m) perm cmp = lower_by (key_bound max_size m') perm cmp.
Proof.
  intros Hs Hn He. split.
  - destruct (upper_ok perm cmp Hs Hn (key_bound max_size m)) as (u & -> & Hu),
      (upper_ok perm cmp Hs Hn (key_bound max_size m')) as (v & -> & Hv).
    f_equal. by eapply upper_bound_unique.
  - destruct (lower_ok perm cmp Hs Hn He (key_bound max_size m)) as (x & -> & Hx),
      (lower_ok perm cmp Hs Hn He (key_bound max_size m')) as (y & -> & Hy).
    f_equal. by eapply lower_bound_unique.
Qed.

Lemma elem_nonneg x i : 0 <= kp_elem (Permuted x) i.
Proof. simpl. unfold elem. change 15 with (Z.ones 4). rewrite Z.land_ones by lia. by apply Z.mod_pos_bound. Qed.

(** A node with keys 10, 20, 30 in slots 0, 2, 1, searched for 20. *)
Definition example_perm : key_permuter := Permuted 0x1203.
Definition example_cmp (p : Z) : Z := compare 20 (get [10; 30; 20] p).
Lemma example_sorted : node_sorted example_perm example_cmp.
Proof.
  intros i j Hi Hj Hc. change (kp_size example_perm) with 3 in Hj.
  assert (i = 0 \/ i = 1) as [->| ->] by lia; [vm_compute; done|].
  assert (j = 2) as -> by lia. vm_compute in Hc. done.
Qed.
Lemma key_bound_correct_witness :
  exists x, lower_by key_bound_binary example_perm example_cmp = Some x /\ kx_i x = 1 /\ kx_p x = 2.
Proof.
  destruct (proj2 (key_bound_correct key_bound_binary example_perm example_cmp example_sorted
    ltac:(vm_compute; congruence) ltac:(intros; apply elem_nonneg))) as (x & Hx & _).
  exists x. split; [done|]. vm_compute in Hx. by injection Hx as <-.
Defined.
Lemma key_bound_methods_agree_witness :
  lower_by (key_bound 15 bound_method_linear) example_perm example_cmp =
  lower_by (key_bound 15 bound_method_binary) example_perm example_cmp.
Proof.
  apply (key_bound_methods_agree 15 bound_method_linear bound_method_binary); [apply example_sorted|..].
  - vm_compute. congruence.
  - intros. apply elem_nonneg.
Defined.
