(* ===== verification/StringSlice.v ===== *)
(** string_slice.hh: integers made of a string's first bytes.

    Memory is a function [mem] from addresses to bytes, so that the sloppy
    variants, which read outside the string, are modelled as they are.  The
    machine is little-endian (WORDS_BIGENDIAN is 0); [unaligned] is
    HAVE_UNALIGNED_ACCESS. *)
From S2P Require Import Prelude.

(** * Bytes and integers *)

Definition byte_ok (b : Z) : Prop := 0 <= b < 256.

(** The integer whose memory image is the list of bytes. *)
Fixpoint le_value (l : list Z) : Z :=
  match l with [] => 0 | b :: r => b + 256 * le_value r end.
(** The memory image of an [n]-byte integer. *)
Fixpoint le_bytes (n : nat) (x : Z) : list Z :=
  match n with O => [] | S n => x mod 256 :: le_bytes n (x / 256) end.

Lemma length_le_bytes n x : length (le_bytes n x) = n.
Proof. revert x. induction n; intros; simpl; auto. Qed.

Lemma le_bytes_ok n x : Forall byte_ok (le_bytes n x).
Proof.
  revert x. induction n; intros x; simpl; constructor; [|done].
  unfold byte_ok. by apply Z.mod_pos_bound.
Qed.

Lemma le_value_bytes n x : le_value (le_bytes n x) = x mod 256 ^ Z.of_nat n.
Proof.
  revert x. induction n as [|n IH]; intros x; [by rewrite Z.mod_1_r|].
  cbn [le_bytes le_value]. rewrite IH. rewrite Nat2Z.inj_succ, Z.pow_succ_r by lia.
  rewrite Z.rem_mul_r by lia. lia.
Qed.

Lemma le_bytes_value l : Forall byte_ok l -> le_bytes (length l) (le_value l) = l.
Proof.
  induction 1 as [|b l Hb Hl IH]; [done|]. cbn [le_value length le_bytes].
  rewrite (Z.mul_comm 256), Z_mod_plus_full, Z.mod_small by exact Hb.
  rewrite Z.div_add, Z.div_small, Z.add_0_l by (exact Hb || lia). by rewrite IH.
Qed.

Lemma le_value_range l : Forall byte_ok l -> 0 <= le_value l < 256 ^ Z.of_nat (length l).
Proof.
  induction 1 as [|b l Hb Hl IH]; [simpl; lia|]. cbn [le_value length].
  rewrite Nat2Z.inj_succ, Z.pow_succ_r by lia. unfold byte_ok in Hb. lia.
Qed.

Lemma le_value_app a b : le_value (a ++ b) = le_value a + 256 ^ Z.of_nat (length a) * le_value b.
Proof.
  induction a as [|x a IH]; [rewrite Z.mul_1_l; done|]. cbn [le_value length app].
  rewrite IH, Nat2Z.inj_succ, Z.pow_succ_r by lia. ring.
Qed.

Lemma le_value_zeros n : le_value (replicate n 0) = 0.
Proof. induction n as [|n IH]; [done|]. cbn [replicate le_value]. by rewrite IH. Qed.

(** [net_to_host_order] and [host_to_net_order]: reverse the bytes. *)
Definition net_to_host_order (size : Z) (x : Z) : Z := le_value (rev (le_bytes (Z.to_nat size) x)).
Definition host_to_net_order := net_to_host_order.

Lemma net_to_host_involutive size x : 0 <= size -> 0 <= x < 256 ^ size ->
  net_to_host_order size (host_to_net_order size x) = x.
Proof.
  intros Hs Hx. unfold host_to_net_order, net_to_host_order.
  set (n := Z.to_nat size).
  assert (length (rev (le_bytes n x)) = n) as El by (by rewrite length_rev, length_le_bytes).
  rewrite <- El at 1. rewrite le_bytes_value, rev_involutive, le_value_bytes.
  - apply Z.mod_small. unfold n. by rewrite Z2Nat.id.
  - apply Forall_rev, le_bytes_ok.
Qed.

(** The big-endian value of a list of bytes. *)
Definition be_value (l : list Z) : Z := le_value (rev l).

(** Lexicographic comparison of byte strings, as [memcmp] followed by length. *)
Fixpoint lex_compare (a b : list Z) : Z :=
  match a, b with
  | [], [] => 0
  | [], _ :: _ => -1
  | _ :: _, [] => 1
  | x :: a, y :: b => if x =? y then lex_compare a b else if x <? y then -1 else 1
  end.

Lemma be_value_cons x l : be_value (x :: l) = x * 256 ^ Z.of_nat (length l) + be_value l.
Proof. unfold be_value. simpl. rewrite le_value_app, length_rev. simpl. lia. Qed.
Lemma be_value_range l : Forall byte_ok l -> 0 <= be_value l < 256 ^ Z.of_nat (length l).
Proof.
  intros H. unfold be_value. rewrite <- length_rev. apply le_value_range.
  by apply Forall_rev.
Qed.

(** Equally long byte strings compare as their big-endian values. *)
Lemma be_value_compare a b : length a = length b -> Forall byte_ok a -> Forall byte_ok b ->
  compare (be_value a) (be_value b) = lex_compare a b.
Proof.
  revert b. induction a as [|x a IH]; intros [|y b] Hl Ha Hb; simplify_eq/=; [done|].
  inversion Ha as [|? ? Hx Ha']; inversion Hb as [|? ? Hy Hb']; subst.
  rewrite !be_value_cons, Hl.
  pose proof (be_value_range a Ha') as Ra. pose proof (be_value_range b Hb') as Rb. rewrite Hl in Ra.
  specialize (IH b Hl Ha' Hb'). unfold compare in *.
  set (P := 256 ^ Z.of_nat (length b)) in *.
  destruct (Z.eqb_spec x y) as [->|Hne].
  - rewrite <- IH. zcases; done.
  - destruct (Z.ltb_spec x y).
    + assert (x * P + P <= y * P) by nia. zcases; done.
    + assert (y * P + P <= x * P) by nia. zcases; done.
Qed.

(** [pad n l]: the first [n] bytes of [l], with zeros for the missing ones. *)
Fixpoint pad (n : nat) (l : list Z) : list Z :=
  match n with
  | O => []
  | S n => match l with [] => 0 :: pad n [] | x :: l => x :: pad n l end
  end.
Lemma pad_spec n l : pad n l = take n l ++ replicate (n - length l) 0.
Proof.
  revert l. induction n as [|n IH]; intros [|x l]; simpl; try done; rewrite IH; simpl; by rewrite ?take_nil, ?Nat.sub_0_r.
Qed.

Lemma lex_compare_cases a b : lex_compare a b = 0 \/ lex_compare a b = -1 \/ lex_compare a b = 1.
Proof. revert b. induction a as [|x a IH]; intros [|y b]; simpl; auto. zcases; auto. Qed.
Lemma lex_compare_refl a : lex_compare a a = 0.
Proof. induction a as [|x a IH]; [done|]. simpl. by rewrite Z.eqb_refl. Qed.
Lemma lex_compare_eq a b : lex_compare a b = 0 -> a = b.
Proof.
  revert b. induction a as [|x a IH]; intros [|y b]; simpl; try done.
  zcases; try done. intros. subst. f_equal. by apply IH.
Qed.

(** Unequal padded prefixes decide the comparison of the strings. *)
Lemma lex_pad n a b : Forall byte_ok a -> Forall byte_ok b ->
  lex_compare (pad n a) (pad n b) <> 0 -> lex_compare a b = lex_compare (pad n a) (pad n b).
Proof.
  revert a b. induction n as [|n IH]; intros a b Ha Hb Hne; [done|].
  destruct Ha as [|x a Hx Ha], Hb as [|y b Hy Hb]; unfold byte_ok in *; cbn [pad lex_compare] in *.
  - rewrite Z.eqb_refl in *. specialize (IH [] [] ltac:(constructor) ltac:(constructor) Hne). done.
  - destruct (Z.eqb_spec 0 y).
    + specialize (IH [] b ltac:(constructor) Hb Hne). rewrite <- IH in *. by destruct b.
    + destruct (Z.ltb_spec 0 y); [done|lia].
  - destruct (Z.eqb_spec x 0).
    + specialize (IH a [] Ha ltac:(constructor) Hne). rewrite <- IH in *. by destruct a.
    + destruct (Z.ltb_spec x 0); [lia|done].
  - destruct (Z.eqb_spec x y); [by apply IH|done].
Qed.

(** Equal padded prefixes leave the comparison to the lengths. *)
Lemma lex_pad_eq n a b : Forall byte_ok a -> Forall byte_ok b -> pad n a = pad n b ->
  (length a <= n)%nat ->
  lex_compare a b = compare (Z.of_nat (length a)) (Z.of_nat (length b)).
Proof.
  intros Ha Hb. revert n. revert b Hb. induction Ha as [|x a Hx Ha IH]; intros b Hb n E Hl.
  - destruct Hb as [|y b Hy Hb]; [done|]. simpl. unfold compare. zcases; done.
  - destruct n as [|n]; [simpl in Hl; lia|]. destruct Hb as [|y b Hy Hb].
    + simpl. unfold compare. zcases; done.
    + cbn [pad lex_compare length] in *. simplify_eq. rewrite Z.eqb_refl.
      rewrite (IH b Hb n) by (done || lia). unfold compare. zcases; done.
Qed.

(** * string_slice<T> *)
Section StringSlice.
Context (unaligned : bool) (size : Z) (mem : Z -> Z).

(** The bytes [s, s + len) of memory, and a [T] loaded from [s]. *)
Definition mem_bytes (s len : Z) : list Z := mem <$> seqZ s len.
Definition load (s : Z) : Z := le_value (mem_bytes s size).

(** [union_type u(0); memcpy(u.s, s, min(len, size)); u.x]. *)
Definition make_copy (s len : Z) : Z :=
  let n := Z.min len size in le_value (mem_bytes s n ++ replicate (Z.to_nat (size - n)) 0).
Definition make (s len : Z) : Z :=
  if len <=? 0 then 0
  else if unaligned && (size <=? len) then load s
  else make_copy s len.
Definition make_comparable (s len : Z) : Z := net_to_host_order size (make s len).

Definition make_sloppy (s len : Z) : Z :=
  if len <=? 0 then 0
  else if unaligned then
    if size <=? len then load s
    else load (s - (size - len)) .>> (8 * (size - len))
  else make_copy s len.
Definition make_comparable_sloppy (s len : Z) : Z := net_to_host_order size (make_sloppy s len).

(** [unparse_comparable]: the bytes written, their number is the result. *)
Fixpoint trim_zeros (u : list Z) (l : nat) : nat :=
  match l with
  | O => O
  | S l' => if get u (Z.of_nat l') =? 0 then trim_zeros u l' else l
  end.
Definition unparse_comparable_trim (buflen value : Z) : list Z :=
  let u := le_bytes (Z.to_nat size) (host_to_net_order size value) in
  let l := Z.of_nat (trim_zeros u (Z.to_nat size)) in
  take (Z.to_nat (Z.min l buflen)) u.
Definition unparse_comparable (buflen value len : Z) : list Z :=
  let u := le_bytes (Z.to_nat size) (host_to_net_order size value) in
  take (Z.to_nat (Z.min (Z.min len size) buflen)) u.

(** [equals_sloppy]: one xor of two loads for short strings, else [memcmp]. *)
Definition equals_sloppy (a b len : Z) : bool :=
  if unaligned && (len <=? size) then
    let delta := load a .^ load b in
    if len <=? 0 then true
    else wrap (8 * size) (delta .<< (8 * (size - len))) =? 0
  else bool_decide (mem_bytes a len = mem_bytes b len).

(** * Properties *)
Context (Hsize : 0 < size) (Hmem : forall a, byte_ok (mem a)).

Lemma length_mem_bytes s len : length (mem_bytes s len) = Z.to_nat len.
Proof. unfold mem_bytes. by rewrite length_fmap, length_seqZ. Qed.
Lemma mem_bytes_ok s len : Forall byte_ok (mem_bytes s len).
Proof. unfold mem_bytes. apply Forall_fmap, Forall_true. intros. apply Hmem. Qed.
Lemma mem_bytes_app s m n : 0 <= m -> 0 <= n ->
  mem_bytes s (m + n) = mem_bytes s m ++ mem_bytes (s + m) n.
Proof. intros. unfold mem_bytes. by rewrite seqZ_app, fmap_app by lia. Qed.

(** The string's first [size] bytes, padded with zeros. *)
Definition slice_bytes (s len : Z) : list Z :=
  let n := Z.max 0 (Z.min len size) in mem_bytes s n ++ replicate (Z.to_nat (size - n)) 0.

Lemma length_slice_bytes s len : length (slice_bytes s len) = Z.to_nat size.
Proof. unfold slice_bytes. rewrite length_app, length_mem_bytes, length_replicate. lia. Qed.
Lemma slice_bytes_ok s len : Forall byte_ok (slice_bytes s len).
Proof.
  unfold slice_bytes. apply Forall_app_2; [apply mem_bytes_ok|].
  apply Forall_replicate. unfold byte_ok. lia.
Qed.

Lemma make_slice s len : make s len = le_value (slice_bytes s len).
Proof.
  unfold make, slice_bytes. destruct (Z.leb_spec len 0).
  - rewrite Z.max_l by lia. simpl. by rewrite Z.sub_0_r, le_value_zeros.
  - rewrite Z.max_r by lia. destruct unaligned; simpl; [|done].
    destruct (Z.leb_spec size len); [|done]. rewrite Z.min_r, Z.sub_diag by lia.
    unfold load. by rewrite app_nil_r.
Qed.
Lemma make_sloppy_slice s len : make_sloppy s len = le_value (slice_bytes s len).
Proof.
  rewrite <- make_slice. unfold make_sloppy, make. destruct (Z.leb_spec len 0); [done|].
  destruct unaligned; simpl; [|done]. destruct (Z.leb_spec size len); [done|].
  unfold load, make_copy. rewrite Z.min_l by lia.
  replace size with ((size - len) + len) at 2 by lia.
  rewrite mem_bytes_app by lia. replace (s - (size - len) + (size - len)) with s by lia.
  rewrite !le_value_app, le_value_zeros, Z.mul_0_r, Z.add_0_r, length_mem_bytes.
  rewrite Z.shiftr_div_pow2, Z2Nat.id by lia. replace (2 ^ (8 * (size - len))) with (256 ^ (size - len)).
  2:{ change 256 with (2 ^ 8). by rewrite <- Z.pow_mul_r by lia. }
  pose proof (le_value_range _ (mem_bytes_ok (s - (size - len)) (size - len))) as R.
  rewrite length_mem_bytes, Z2Nat.id in R by lia.
  rewrite Z.mul_comm, Z.div_add by lia. rewrite Z.div_small by done. lia.
Qed.
Lemma make_comparable_be s len : make_comparable s len = be_value (slice_bytes s len).
Proof.
  unfold make_comparable, net_to_host_order, be_value. rewrite make_slice.
  rewrite <- (length_slice_bytes s len), le_bytes_value; [done|apply slice_bytes_ok].
Qed.
Lemma make_comparable_sloppy_eq s len : make_comparable_sloppy s len = make_comparable s len.
Proof. unfold make_comparable_sloppy, make_comparable. by rewrite make_sloppy_slice, make_slice. Qed.
Lemma make_comparable_range s len : 0 <= make_comparable s len < 256 ^ size.
Proof.
  rewrite make_comparable_be. pose proof (be_value_range _ (slice_bytes_ok s len)) as H.
  rewrite length_slice_bytes, Z2Nat.id in H by lia. done.
Qed.
Lemma host_bytes_comparable s len :
  le_bytes (Z.to_nat size) (host_to_net_order size (make_comparable s len)) = slice_bytes s len.
Proof.
  unfold host_to_net_order. unfold net_to_host_order at 1. rewrite make_comparable_be. unfold be_value.
  set (l := slice_bytes s len).
  assert (Z.to_nat size = length (rev l)) as -> by (unfold l; by rewrite length_rev, length_slice_bytes).
  assert (Hok : Forall byte_ok l) by apply slice_bytes_ok.
  rewrite le_bytes_value by (by apply Forall_rev).
  rewrite rev_involutive, length_rev. by apply le_bytes_value.
Qed.
Lemma slice_bytes_pad s len : slice_bytes s len = pad (Z.to_nat size) (mem_bytes s len).
Proof.
  rewrite pad_spec, length_mem_bytes. unfold slice_bytes. destruct (Z.leb_spec len 0).
  { rewrite Z.max_l by lia. unfold mem_bytes. rewrite !(seqZ_nil _ _) by lia. simpl.
    rewrite take_nil. simpl. f_equal. lia. }
  rewrite Z.max_r by lia. f_equal; [|f_equal; lia]. destruct (Z.leb_spec len size).
  - rewrite Z.min_l by lia. rewrite take_ge; [done|]. rewrite length_mem_bytes. lia.
  - rewrite Z.min_r by lia. replace len with (size + (len - size)) by lia.
    rewrite mem_bytes_app, take_app_length' by (rewrite ?length_mem_bytes; lia). done.
Qed.

(** The loaded value modulo the bytes below [len] is the string's value. *)
Lemma load_mod s len : 0 <= len <= size -> load s mod 256 ^ len = le_value (mem_bytes s len).
Proof.
  intros. unfold load. replace size with (len + (size - len)) by lia.
  rewrite mem_bytes_app, le_value_app, length_mem_bytes, Z2Nat.id by lia.
  rewrite Z.mul_comm, Z_mod_plus_full. apply Z.mod_small.
  pose proof (le_value_range _ (mem_bytes_ok s len)) as R. by rewrite length_mem_bytes, Z2Nat.id in R by lia.
Qed.

Lemma wrap_shiftl_zero w k x : 0 <= k <= w -> wrap w (x .<< (w - k)) = 0 <-> x mod 2 ^ k = 0.
Proof.
  intros. unfold wrap. rewrite Z.shiftl_mul_pow2 by lia.
  replace (2 ^ w) with (2 ^ k * 2 ^ (w - k)) by (rewrite <- Z.pow_add_r by lia; f_equal; lia).
  rewrite Z.mul_mod_distr_r by (apply Z.pow_nonzero; lia).
  assert (0 < 2 ^ (w - k)) by (apply Z.pow_pos_nonneg; lia). nia.
Qed.
Lemma lxor_mod_zero k a b : 0 <= k -> (a .^ b) mod 2 ^ k = 0 <-> a mod 2 ^ k = b mod 2 ^ k.
Proof.
  intros. rewrite <- !Z.land_ones by lia. rewrite <- (lxor_zero_iff (a .& _)).
  replace ((a .& Z.ones k) .^ (b .& Z.ones k)) with ((a .^ b) .& Z.ones k); [done|].
  apply Z.bits_inj'; intros i ?. rewrite !Z.land_spec, !Z.lxor_spec, !Z.land_spec.
  by destruct (Z.testbit a i), (Z.testbit b i), (Z.testbit (Z.ones k) i).
Qed.

Lemma le_value_inj l l' : length l = length l' -> Forall byte_ok l -> Forall byte_ok l' ->
  le_value l = le_value l' -> l = l'.
Proof. intros El Hl Hl' E. rewrite <- (le_bytes_value l), <- (le_bytes_value l') by done. by rewrite E, El. Qed.

(** [equals_sloppy] answers [memcmp(a, b, len) == 0], whichever way it is
    compiled: the bytes it reads past a short string never matter. *)
Theorem equals_sloppy_memcmp a b len : 0 <= len ->
  equals_sloppy a b len = bool_decide (mem_bytes a len = mem_bytes b len).
Proof.
  intros Hlen. unfold equals_sloppy. destruct unaligned; simpl; [|done].
  destruct (Z.leb_spec len size); [|done]. destruct (Z.leb_spec len 0).
  { assert (len = 0) as -> by lia. by rewrite bool_decide_eq_true_2. }
  apply eq_true_iff_eq. rewrite Z.eqb_eq, bool_decide_eq_true.
  replace (8 * (size - len)) with (8 * size - 8 * len) by lia.
  rewrite wrap_shiftl_zero, lxor_mod_zero by lia.
  replace (2 ^ (8 * len)) with (256 ^ len) by (change 256 with (2 ^ 8); by rewrite <- Z.pow_mul_r by lia).
  rewrite !load_mod by lia. split; [|by intros ->].
  apply le_value_inj; rewrite ?length_mem_bytes; done || apply mem_bytes_ok.
Qed.

Lemma comparable_orders s1 l1 s2 l2 :
  let a := make_comparable s1 l1 in
  let b := make_comparable s2 l2 in
  (a < b -> lex_compare (mem_bytes s1 l1) (mem_bytes s2 l2) = -1) /\
  (b < a -> lex_compare (mem_bytes s1 l1) (mem_bytes s2 l2) = 1) /\
  (a = b <-> slice_bytes s1 l1 = slice_bytes s2 l2).
Proof.
  intros a b. assert (E : compare a b = lex_compare (slice_bytes s1 l1) (slice_bytes s2 l2)).
  { unfold a, b. rewrite !make_comparable_be. apply be_value_compare; try apply slice_bytes_ok.
    by rewrite !length_slice_bytes. }
  pose proof (lex_pad (Z.to_nat size) (mem_bytes s1 l1) (mem_bytes s2 l2)
    (mem_bytes_ok _ _) (mem_bytes_ok _ _)) as L. rewrite <- !slice_bytes_pad, <- E in L.
  unfold compare in *. split_and!.
  - intros H. rewrite L; destruct (Z.eqb_spec a b), (Z.ltb_spec a b); lia.
  - intros H. rewrite L; destruct (Z.eqb_spec a b), (Z.ltb_spec a b); lia.
  - split.
    + intros Hab. apply lex_compare_eq. rewrite <- E. by rewrite Hab, Z.eqb_refl.
    + intros Hs. unfold a, b. by rewrite !make_comparable_be, Hs.
Qed.

(** [make_comparable] orders as documented: a smaller (larger) slice means a
    lexicographically smaller (larger) string, an equal slice means equal padded
    prefixes; the sloppy variant computes the same integer. *)
Theorem make_comparable_orders s1 l1 s2 l2 :
  let a := make_comparable s1 l1 in
  let b := make_comparable s2 l2 in
  (a < b -> lex_compare (mem_bytes s1 l1) (mem_bytes s2 l2) = -1) /\
  (b < a -> lex_compare (mem_bytes s1 l1) (mem_bytes s2 l2) = 1) /\
  (a = b <-> slice_bytes s1 l1 = slice_bytes s2 l2) /\
  make_comparable_sloppy s1 l1 = a.
Proof.
  intros a b. pose proof (comparable_orders s1 l1 s2 l2) as (? & ? & ?).
  split_and!; try done. apply make_comparable_sloppy_eq.
Qed.

(** Unparsing a comparable slice gives back the first bytes of the string. *)
Theorem unparse_make_comparable s len buflen : 0 <= len -> 0 <= buflen ->
  unparse_comparable buflen (make_comparable s len) len =
  mem_bytes s (Z.min (Z.min len size) buflen).
Proof.
  intros Hl Hb. unfold unparse_comparable. rewrite host_bytes_comparable.
  unfold slice_bytes. rewrite Z.max_r by lia. set (n := Z.min len size).
  replace n with (Z.min n buflen + (n - Z.min n buflen)) at 2 by lia.
  rewrite mem_bytes_app, <- app_assoc, take_app_length' by (rewrite ?length_mem_bytes; lia). done.
Qed.
End StringSlice.

(** A memory that holds "abc" at 100 and "abd" at 200 among other bytes. *)
Definition example_mem (a : Z) : Z :=
  if (100 <=? a) && (a <? 103) then a - 3 else if (200 <=? a) && (a <? 203) then
  get [97; 98; 100] (a - 200) else a mod 7.
Lemma example_mem_ok a : byte_ok (example_mem a).
Proof.
  unfold example_mem, byte_ok.
  destruct ((100 <=? a) && (a <? 103)) eqn:E1; [boolify; lia|].
  destruct ((200 <=? a) && (a <? 203)) eqn:E2; [boolify|clear; Z.div_mod_to_equations; lia].
  assert (a = 200 \/ a = 201 \/ a = 202) as [->|[->| ->]] by lia; vm_compute; split; congruence.
Qed.
Lemma equals_sloppy_memcmp_witness :
  equals_sloppy true 8 example_mem 100 200 2 = true /\ equals_sloppy true 8 example_mem 100 200 3 = false.
Proof.
  split.
  - refine (eq_trans (equals_sloppy_memcmp true 8 example_mem example_mem_ok 100 200 2 ltac:(lia)) _). done.
  - refine (eq_trans (equals_sloppy_memcmp true 8 example_mem example_mem_ok 100 200 3 ltac:(lia)) _). done.
Defined.
Lemma make_comparable_orders_witness :
  lex_compare (mem_bytes example_mem 100 3) (mem_bytes example_mem 200 3) = -1.
Proof. apply (make_comparable_orders true 8 example_mem ltac:(lia) example_mem_ok 100 3 200 3). reflexivity. Defined.
Lemma unparse_make_comparable_witness :
  unparse_comparable 8 20 (make_comparable true 8 example_mem 100 3) 3 = [97; 98; 99].
Proof. apply (unparse_make_comparable true 8 example_mem ltac:(lia) example_mem_ok 100 3 20); lia. Defined.
