(* ===== verification/MassKey.v ===== *)
(** masstree_key.hh: strings as Masstree keys.

    A key is a slice integer (the ikey), a length and two pointers into memory:
    the current position and the start of the string.  [len_] is an [int]; the
    model keeps it as a [Z], the theorems only use lengths below 2^31. *)
From S2P Require Import Prelude StringSlice.

Record key := { ikey0_ : Z; len_ : Z; s_ : Z; first_ : Z }.

#[export] Instance key_eq_dec : EqDecision key.
Proof. solve_decision. Defined.

Section Ops.
Context (unaligned : bool) (ikey_size : Z) (mem : Z -> Z).

Definition key_str (s len : Z) : key :=
  {| ikey0_ := make_comparable unaligned ikey_size mem s len; len_ := len; s_ := s; first_ := s |}.
(** [ctz]: the number of trailing zero bits. *)
Definition ctz (x : Z) : Z := Z.log2 (x .& - x).
Definition key_ikey (ikey : Z) : key :=
  {| ikey0_ := ikey; len_ := if ikey =? 0 then 0 else ikey_size - ctz ikey / 8; s_ := 0; first_ := 0 |}.
Definition key_ikey_len (ikey len : Z) : key :=
  {| ikey0_ := ikey; len_ := Z.min len ikey_size; s_ := 0; first_ := 0 |}.
Definition key_ikey_suf (ikey suf_s suf_len : Z) : key :=
  {| ikey0_ := ikey; len_ := ikey_size + suf_len; s_ := suf_s - ikey_size; first_ := suf_s - ikey_size |}.

Definition empty (k : key) : bool := (ikey0_ k =? 0) && (len_ k =? 0).
Definition ikey (k : key) : Z := ikey0_ k.
Definition length (k : key) : Z := len_ k.
Definition has_suffix (k : key) : bool := ikey_size <? len_ k.
(** A [Str] is a pointer and a length. *)
Definition suffix (k : key) : Z * Z := (s_ k + ikey_size, len_ k - ikey_size).
Definition suffix_length (k : key) : Z := len_ k - ikey_size.

Definition shift_by (delta : Z) (k : key) : key :=
  let s := s_ k + delta in
  let len := len_ k - delta in
  {| ikey0_ := make_comparable_sloppy unaligned ikey_size mem s len; len_ := len; s_ := s;
     first_ := first_ k |}.
Definition shift (k : key) : key := shift_by ikey_size k.
Definition is_shifted (k : key) : bool := negb (first_ k =? s_ k).
Definition unshift_all (k : key) : key :=
  if negb (s_ k =? first_ k) then
    let len := len_ k + (s_ k - first_ k) in
    {| ikey0_ := make_comparable unaligned ikey_size mem (first_ k) len; len_ := len;
       s_ := first_ k; first_ := first_ k |}
  else k.

(** [compare(ikey, keylenx)]: against a slot of a node. *)
Definition key_compare (k : key) (ikey keylenx : Z) : Z :=
  let cmp := compare (ikey0_ k) ikey in
  if cmp =? 0 then
    if ikey_size <? len_ k then b2z (keylenx <=? ikey_size) else len_ k - keylenx
  else cmp.
Definition compare_keys (k x : key) : Z := key_compare k (ikey x) (length x).

(** [unparse(data, datalen)]: the bytes written; their number is the result. *)
Definition unparse (k : key) (datalen : Z) : list Z :=
  let cplen := Z.min (len_ k) datalen in
  unparse_comparable ikey_size cplen (ikey0_ k) ikey_size ++
  if ikey_size <? cplen then mem_bytes mem (s_ k + ikey_size) (cplen - ikey_size) else [].

Definition prefix_string (k : key) : Z * Z := (first_ k, s_ k - first_ k).
Definition prefix_length (k : key) : Z := s_ k - first_ k.
Definition full_string (k : key) : Z * Z := (first_ k, s_ k + len_ k - first_ k).

(** [increment] returns whether the ikey wrapped. *)
Definition increment (k : key) : key * bool :=
  if has_suffix k then
    let i := wrap (8 * ikey_size) (ikey0_ k + 1) in
    ({| ikey0_ := i; len_ := 1; s_ := s_ k; first_ := first_ k |}, i =? 0)
  else ({| ikey0_ := ikey0_ k; len_ := len_ k + 1; s_ := s_ k; first_ := first_ k |}, false).

(** Writing bytes into the key's buffer. *)
Definition write_bytes (p : Z) (l : list Z) : Z -> Z :=
  fun a => if (p <=? a) && (a <? p + Z.of_nat (List.length l)) then get l (a - p) else mem a.
Definition assign_store_ikey (k : key) (i : Z) : key * (Z -> Z) :=
  ({| ikey0_ := i; len_ := len_ k; s_ := s_ k; first_ := first_ k |},
   write_bytes (s_ k) (le_bytes (Z.to_nat ikey_size) (host_to_net_order ikey_size i))).
Definition assign_store_suffix (k : key) (s len : Z) : Z * (Z -> Z) :=
  (ikey_size + len, write_bytes (s_ k + ikey_size) (mem_bytes mem s len)).
Definition assign_store_length (k : key) (len : Z) : key :=
  {| ikey0_ := ikey0_ k; len_ := len; s_ := s_ k; first_ := first_ k |}.
Definition unshift (k : key) : key :=
  let s := s_ k - ikey_size in
  {| ikey0_ := make_comparable_sloppy unaligned ikey_size mem s ikey_size;
     len_ := ikey_size + 1; s_ := s; first_ := first_ k |}.
Definition shift_clear (k : key) : key :=
  {| ikey0_ := 0; len_ := 0; s_ := s_ k + ikey_size; first_ := first_ k |}.
Definition shift_clear_reverse (k : key) : key :=
  {| ikey0_ := wrap (8 * ikey_size) (-1); len_ := ikey_size + 1; s_ := s_ k + ikey_size;
     first_ := first_ k |}.
End Ops.

Section Properties.
Context (unaligned : bool) (ikey_size : Z) (mem : Z -> Z).
Context (Hsize : 0 < ikey_size) (Hmem : forall a, byte_ok (mem a)).
Abbreviation K := (key_str unaligned ikey_size mem).
Abbreviation str := (mem_bytes mem).

Lemma lex_antisym a b : lex_compare b a = - lex_compare a b.
Proof.
  revert b. induction a as [|x a IH]; intros [|y b]; simpl; try done.
  destruct (Z.eqb_spec x y), (Z.eqb_spec y x), (Z.ltb_spec x y), (Z.ltb_spec y x); try lia; apply IH.
Qed.

Lemma pad_long s l : ikey_size <= l -> pad (Z.to_nat ikey_size) (str s l) = str s ikey_size.
Proof.
  intros. rewrite <- slice_bytes_pad by done. unfold slice_bytes.
  rewrite Z.min_r, Z.max_r, Z.sub_diag by lia. simpl. apply app_nil_r.
Qed.

Lemma sgn_compare a b : Z.sgn (a - b) = compare a b.
Proof. unfold compare. zcases; lia. Qed.

(** The comparison of two keys whose slices are equal. *)
Lemma compare_same_slice s1 l1 s2 l2 : 0 <= l1 -> 0 <= l2 ->
  pad (Z.to_nat ikey_size) (str s1 l1) = pad (Z.to_nat ikey_size) (str s2 l2) ->
  ~ (ikey_size < l1 /\ ikey_size < l2) ->
  Z.sgn (if ikey_size <? l1 then b2z (l2 <=? ikey_size) else l1 - l2) =
  lex_compare (str s1 l1) (str s2 l2).
Proof.
  intros H1 H2 E Hn.
  pose proof (mem_bytes_ok mem Hmem s1 l1) as O1. pose proof (mem_bytes_ok mem Hmem s2 l2) as O2.
  destruct (Z.ltb_spec ikey_size l1).
  - rewrite lex_antisym, (lex_pad_eq (Z.to_nat ikey_size)) by (rewrite ?length_mem_bytes; done || lia).
    rewrite !length_mem_bytes, !Z2Nat.id by lia. unfold compare, b2z. zcases; done.
  - rewrite (lex_pad_eq (Z.to_nat ikey_size)) by (rewrite ?length_mem_bytes; done || lia).
    rewrite !length_mem_bytes, !Z2Nat.id by lia. apply sgn_compare.
Qed.

Lemma tie_same_slice s1 l1 s2 l2 :
  pad (Z.to_nat ikey_size) (str s1 l1) <> pad (Z.to_nat ikey_size) (str s2 l2) ->
  (ikey_size <? l1) && (ikey_size <? l2) && bool_decide (str s1 ikey_size = str s2 ikey_size) = false.
Proof.
  intros Hne. destruct (Z.ltb_spec ikey_size l1), (Z.ltb_spec ikey_size l2); try done.
  apply bool_decide_eq_false. by rewrite !pad_long in Hne by lia.
Qed.

(** Comparing two keys orders their strings: the sign of [compare] is the
    lexicographic order of the byte strings, unless both have a suffix and the same
    slice, when [compare] is 0 and the layer below decides. *)
Theorem compare_lexicographic s1 l1 s2 l2 : 0 <= l1 -> 0 <= l2 ->
  if (ikey_size <? l1) && (ikey_size <? l2) &&
     bool_decide (str s1 ikey_size = str s2 ikey_size)
  then compare_keys ikey_size (K s1 l1) (K s2 l2) = 0
  else Z.sgn (compare_keys ikey_size (K s1 l1) (K s2 l2)) = lex_compare (str s1 l1) (str s2 l2).
Proof.
  intros H1 H2. unfold compare_keys, key_compare, ikey, length. cbn [ikey0_ len_ key_str].
  set (a := make_comparable unaligned ikey_size mem s1 l1).
  set (b := make_comparable unaligned ikey_size mem s2 l2).
  destruct (comparable_orders unaligned ikey_size mem Hsize Hmem s1 l1 s2 l2) as (Hlt & Hgt & Heq).
  fold a b in Hlt, Hgt, Heq. rewrite !slice_bytes_pad in Heq by done.
  destruct (Z.lt_trichotomy a b) as [Hab|[Hab|Hab]]; unfold compare at 1 2 3 4.
  - rewrite (tie_same_slice s1 l1 s2 l2) by (rewrite <- Heq; lia).
    rewrite (proj2 (Z.eqb_neq a b)), (proj2 (Z.ltb_lt a b)) by lia. simpl. by rewrite Hlt.
  - rewrite (proj2 (Z.eqb_eq a b)) by done. cbn [Z.eqb].
    apply Heq in Hab. destruct (decide (ikey_size < l1 /\ ikey_size < l2)) as [[]|Hn].
    + rewrite !pad_long in Hab by lia.
      rewrite bool_decide_eq_true_2 by done. unfold b2z. zcases; done.
    + replace ((ikey_size <? l1) && (ikey_size <? l2)) with false by (zcases; done).
      by apply compare_same_slice.
  - rewrite (tie_same_slice s1 l1 s2 l2) by (rewrite <- Heq; lia).
    rewrite (proj2 (Z.eqb_neq a b)), (proj2 (Z.ltb_ge a b)) by lia. simpl. by rewrite Hgt.
Qed.

(** * Shifting *)

Lemma shift_by_str k d : shift_by unaligned ikey_size mem d k =
  {| ikey0_ := ikey0_ (K (s_ k + d) (len_ k - d)); len_ := len_ k - d; s_ := s_ k + d; first_ := first_ k |}.
Proof. unfold shift_by. simpl. by rewrite make_comparable_sloppy_eq. Qed.

Lemma shifts_str n s l : let k := Nat.iter n (shift unaligned ikey_size mem) (K s l) in
  s_ k = s + ikey_size * Z.of_nat n /\ len_ k = l - ikey_size * Z.of_nat n /\ first_ k = s /\
  ikey0_ k = make_comparable unaligned ikey_size mem (s_ k) (len_ k).
Proof.
  induction n as [|n IH]; cbn zeta in *.
  - simpl. split_and!; lia || done.
  - change (Nat.iter (S n) ?f ?x) with (f (Nat.iter n f x)).
    revert IH. generalize (Nat.iter n (shift unaligned ikey_size mem) (K s l)). intros k (Es & El & Ef & _).
    unfold shift. rewrite !shift_by_str. simpl. rewrite Es, El, Ef, Nat2Z.inj_succ. split_and!; done || lia.
Qed.

(** After [n] shifts a key is the key of the string without its first [n]
    slices (still pointing at the whole string), and [unshift_all] restores it. *)
Theorem shift_unshift_all n s l :
  let k := Nat.iter n (shift unaligned ikey_size mem) (K s l) in
  let t := s + ikey_size * Z.of_nat n in
  k = {| ikey0_ := ikey0_ (K t (l - ikey_size * Z.of_nat n)); len_ := l - ikey_size * Z.of_nat n;
         s_ := t; first_ := s |} /\
  full_string k = (s, l) /\ is_shifted k = negb (Nat.eqb n 0) /\
  unshift_all unaligned ikey_size mem k = K s l.
Proof.
  intros k t. destruct (shifts_str n s l) as (Es & El & Ef & Ei). fold k in Es, El, Ef, Ei. fold t in Es.
  assert (Ek : k = {| ikey0_ := ikey0_ (K t (l - ikey_size * Z.of_nat n)); len_ := l - ikey_size * Z.of_nat n;
         s_ := t; first_ := s |}).
  { destruct k; simpl in *. by subst. }
  split; [done|]. rewrite Ek. unfold full_string, is_shifted, unshift_all. simpl.
  split; [f_equal; lia|]. destruct n as [|n].
  - unfold t. rewrite Z.mul_0_r, Z.add_0_r, Z.sub_0_r, Z.eqb_refl. done.
  - destruct (Z.eqb_spec s t), (Z.eqb_spec t s); try (unfold t in *; nia). split; [done|]. simpl.
    unfold key_str. replace (l - ikey_size * Z.of_nat (S n) + (t - s)) with l by lia. done.
Qed.

(** Unparsing a key writes the first [datalen] bytes of its string. *)
Theorem unparse_key s l datalen : 0 <= l -> 0 <= datalen ->
  unparse ikey_size mem (K s l) datalen = str s (Z.min l datalen).
Proof.
  intros Hl Hd. unfold unparse. cbn [ikey0_ len_ s_ key_str]. set (c := Z.min l datalen).
  unfold unparse_comparable. rewrite host_bytes_comparable by done. rewrite Z.min_id.
  rewrite slice_bytes_pad by done.
  destruct (Z.ltb_spec ikey_size c).
  - rewrite pad_long, Z.min_l by lia. rewrite take_ge by (rewrite length_mem_bytes; lia).
    replace c with (ikey_size + (c - ikey_size)) at 2 by lia. by rewrite mem_bytes_app by lia.
  - rewrite app_nil_r, Z.min_r, pad_spec by lia. rewrite take_app_le.
    + rewrite take_take, Nat.min_l by lia. replace l with (c + (l - c)) by lia.
      rewrite mem_bytes_app, take_app_length' by (rewrite ?length_mem_bytes; lia). done.
    + rewrite length_take, length_mem_bytes. lia.
Qed.

(** * Order of slots and [increment] *)

(** [increment] moves to the next slot position: unless the ikey wraps, a slot
    [(i, n)] is at or after the incremented key exactly when it is after the key. (A
    slot with a non-zero ikey has at least one byte.) *)
Theorem increment_next k i n : 0 <= ikey0_ k < 2 ^ (8 * ikey_size) -> 0 <= i < 2 ^ (8 * ikey_size) ->
  0 <= n -> (i <> 0 -> 1 <= n) -> 0 <= len_ k ->
  let '(k', wrapped) := increment ikey_size k in
  wrapped = false ->
  (key_compare ikey_size k' i n <= 0 <-> key_compare ikey_size k i n < 0).
Proof.
  intros Hk Hi Hn Hin Hl. unfold increment, has_suffix.
  destruct (Z.ltb_spec ikey_size (len_ k)) as [Hs|Hs].
  - intros Hw. unfold wrap in *. apply Z.eqb_neq in Hw.
    assert (ikey0_ k + 1 < 2 ^ (8 * ikey_size)) as Hlt.
    { destruct (Z.eq_dec (ikey0_ k + 1) (2 ^ (8 * ikey_size))) as [E|]; [|lia].
      rewrite E, Z_mod_same_full in Hw. done. }
    unfold key_compare, compare, b2z. cbn [ikey0_ len_]. rewrite (Z.mod_small (ikey0_ k + 1)) by lia.
    destruct (Z.ltb_spec ikey_size (len_ k)); [|lia].
    destruct (Z.eqb_spec (ikey0_ k + 1) i), (Z.eqb_spec (ikey0_ k) i), (Z.ltb_spec (ikey0_ k + 1) i),
      (Z.ltb_spec (ikey0_ k) i), (Z.ltb_spec ikey_size 1), (Z.leb_spec n ikey_size); simpl; lia.
  - intros _. unfold key_compare, compare, b2z. cbn [ikey0_ len_].
    destruct (Z.eqb_spec (ikey0_ k) i), (Z.ltb_spec (ikey0_ k) i), (Z.ltb_spec ikey_size (len_ k)),
      (Z.ltb_spec ikey_size (len_ k + 1)), (Z.leb_spec n ikey_size); simpl; lia.
Qed.
End Properties.

Lemma compare_lexicographic_witness :
  Z.sgn (compare_keys 8 (key_str true 8 example_mem 100 3) (key_str true 8 example_mem 200 3)) = -1.
Proof. exact (compare_lexicographic true 8 example_mem ltac:(lia) example_mem_ok 100 3 200 3 ltac:(lia) ltac:(lia)). Defined.
Lemma shift_unshift_all_witness :
  unshift_all true 8 example_mem (shift true 8 example_mem (key_str true 8 example_mem 50 20)) =
  key_str true 8 example_mem 50 20.
Proof. apply (shift_unshift_all true 8 example_mem ltac:(lia) example_mem_ok 1 50 20). Defined.
Lemma unparse_key_witness :
  unparse 8 example_mem (key_str true 8 example_mem 100 3) 20 = [97; 98; 99].
Proof. exact (unparse_key true 8 example_mem ltac:(lia) example_mem_ok 100 3 20 ltac:(lia) ltac:(lia)). Defined.
Lemma increment_next_witness :
  let k := {| ikey0_ := 7; len_ := 20; s_ := 0; first_ := 0 |} in
  key_compare 8 (increment 8 k).1 8 1 <= 0 <-> key_compare 8 k 8 1 < 0.
Proof.
  exact (increment_next 8 ltac:(lia) {| ikey0_ := 7; len_ := 20; s_ := 0; first_ := 0 |} 8 1
    ltac:(vm_compute; split; congruence) ltac:(vm_compute; split; congruence) ltac:(lia)
    ltac:(lia) ltac:(vm_compute; congruence) eq_refl).
Defined.
