(* ===== verification/StringBag.v ===== *)
(** stringbag.hh: a compact collection of the suffixes of a leaf's keys.

    A bag lives in [capacity] bytes: a header (size, capacity), one (pos, len)
    pair per string, then the bytes of the strings.  The header fields are fields
    of the record; [bytes] is the whole allocation, addressed from its start.
    Offsets have [tw] bytes and stores to them wrap. *)
From S2P Require Import Prelude.

Record info_type := { i_pos : Z; i_len : Z }.
Record stringbag := { size_ : Z; capacity_ : Z; info_ : list info_type; bytes : list Z }.

(** [sizeof(uintptr_t)], the slice [equals_sloppy] loads. *)
Definition slice_size : Z := 8.

Section Ops.
Context (tw : Z).
Definition off (x : Z) : Z := wrap (8 * tw) x.
Definition max_size : Z := off (-1) + 1.
Definition overhead (width : Z) : Z := 2 * tw + width * (2 * tw).
Definition safe_size (width len : Z) : Z := overhead width + len + slice_size - 1.

Definition mk_info (p l : Z) : info_type := {| i_pos := off p; i_len := off l |}.
(** The constructor; its [assert] is the guard. *)
Definition make_bag (width capacity : Z) (mem : list Z) : option stringbag :=
  if (overhead width <=? capacity) && (capacity <=? max_size) then
    Some {| size_ := off (overhead width); capacity_ := off (capacity - 1);
            info_ := replicate (Z.to_nat width) (mk_info 0 0); bytes := mem |}
  else None.

Definition capacity (b : stringbag) : Z := capacity_ b + 1.
Definition used_capacity (b : stringbag) : Z := size_ b.
Definition info_at (b : stringbag) (p : Z) : info_type :=
  default (mk_info 0 0) (info_ b !! Z.to_nat p).
Definition get_at (b : stringbag) (p : Z) : list Z :=
  let i := info_at b p in take (Z.to_nat (i_len i)) (drop (Z.to_nat (i_pos i)) (bytes b)).

Definition assign (b : stringbag) (p : Z) (s : list Z) : bool * stringbag :=
  let len := Z.of_nat (length s) in
  let mylen := i_len (info_at b p) in
  let store pos sz :=
    (true, {| size_ := sz; capacity_ := capacity_ b; info_ := upd (info_ b) p (mk_info pos len);
              bytes := list_inserts (Z.to_nat pos) s (bytes b) |}) in
  if len <=? mylen then store (i_pos (info_at b p)) (size_ b)
  else if size_ b + Z.max len slice_size <=? capacity b then store (size_ b) (off (size_ b + len))
  else (false, b).

(** The strings occupy disjoint ranges behind the header, inside the used part;
    a non-empty string can be read eight bytes at a time. *)
Definition range_ok (width : Z) (b : stringbag) (i : info_type) : Prop :=
  0 <= i_len i /\ 0 <= i_pos i <= size_ b /\ (0 < i_len i -> overhead width <= i_pos i /\ i_pos i + i_len i <= size_ b /\
    i_pos i + slice_size <= capacity b).
Definition disjoint_ranges (i j : info_type) : Prop :=
  i_len i = 0 \/ i_len j = 0 \/ i_pos i + i_len i <= i_pos j \/ i_pos j + i_len j <= i_pos i.
Record bag_wf (width : Z) (b : stringbag) : Prop := {
  bw_width : Z.of_nat (length (info_ b)) = width;
  bw_size : overhead width <= size_ b <= capacity b;
  bw_cap : capacity b < max_size;
  bw_bytes : Z.of_nat (length (bytes b)) = capacity b;
  bw_range : forall p, 0 <= p < width -> range_ok width b (info_at b p);
  bw_disj : forall p q, 0 <= p < width -> 0 <= q < width -> p <> q ->
    disjoint_ranges (info_at b p) (info_at b q) }.

Context (Htw : 0 < tw).

Lemma max_size_eq : max_size = 2 ^ (8 * tw).
Proof.
  unfold max_size, off, wrap. assert (0 < 2 ^ (8 * tw)) by (apply Z.pow_pos_nonneg; lia).
  destruct (Z.eq_dec (2 ^ (8 * tw)) 1) as [E|].
  { assert (2 ^ 1 <= 2 ^ (8 * tw)) by (apply Z.pow_le_mono_r; lia). lia. }
  replace (-1) with ((2 ^ (8 * tw) - 1) + (-1) * 2 ^ (8 * tw)) by lia.
  rewrite Z_mod_plus_full, Z.mod_small; lia.
Qed.
Lemma off_small x : 0 <= x < max_size -> off x = x.
Proof. rewrite max_size_eq. apply wrap_small. Qed.
Lemma overhead_nonneg width : 0 <= width -> 0 <= overhead width.
Proof. unfold overhead. nia. Qed.

(** [used] bytes below [a] keep their contents when bytes from [b] are replaced. *)
Lemma read_other (l s : list Z) (pos len at_ : Z) : 0 <= pos -> 0 <= at_ -> 0 <= len ->
  pos + len <= at_ \/ at_ + Z.of_nat (length s) <= pos ->
  take (Z.to_nat len) (drop (Z.to_nat pos) (list_inserts (Z.to_nat at_) s l)) =
  take (Z.to_nat len) (drop (Z.to_nat pos) l).
Proof.
  intros Hp Ha Hl Hd. apply list_eq. intros k. rewrite !lookup_take. case_decide; [|done].
  rewrite !lookup_drop. destruct Hd.
  - apply list_lookup_inserts_lt. lia.
  - apply list_lookup_inserts_ge. lia.
Qed.
Lemma read_written (l s : list Z) (at_ : Z) : 0 <= at_ ->
  at_ + Z.of_nat (length s) <= Z.of_nat (length l) ->
  take (length s) (drop (Z.to_nat at_) (list_inserts (Z.to_nat at_) s l)) = s.
Proof.
  intros Ha Hl. apply list_eq. intros k. rewrite lookup_take. case_decide.
  - rewrite lookup_drop, list_lookup_inserts by lia. f_equal. lia.
  - symmetry. apply lookup_ge_None. lia.
Qed.

Lemma info_at_upd b p q i sz cp bs : 0 <= p < Z.of_nat (length (info_ b)) -> 0 <= q ->
  info_at {| size_ := sz; capacity_ := cp; info_ := upd (info_ b) p i; bytes := bs |} q =
  if q =? p then i else info_at b q.
Proof.
  intros Hp Hq. unfold info_at, upd. simpl. destruct (Z.ltb_spec p 0); [lia|].
  destruct (Z.eqb_spec q p) as [->|].
  - rewrite list_lookup_insert_eq by lia. done.
  - rewrite list_lookup_insert_ne by lia. done.
Qed.

(** A store of [s] at [pos] keeps the bag well formed and the other strings. *)
Lemma store_ok width b p s pos sz : bag_wf width b -> 0 <= p < width ->
  let len := Z.of_nat (length s) in
  let b' := {| size_ := sz; capacity_ := capacity_ b; info_ := upd (info_ b) p (mk_info pos len);
               bytes := list_inserts (Z.to_nat pos) s (bytes b) |} in
  size_ b <= sz <= capacity b -> 0 <= pos <= sz -> pos + len <= capacity b ->
  (0 < len -> overhead width <= pos /\ pos + len <= sz /\ pos + slice_size <= capacity b) ->
  (forall q, 0 <= q < width -> q <> p -> 0 < len ->
     disjoint_ranges {| i_pos := pos; i_len := len |} (info_at b q)) ->
  bag_wf width b' /\ get_at b' p = s /\ forall q, 0 <= q < width -> q <> p -> get_at b' q = get_at b q.
Proof.
  intros Hb Hp len b' Hsz Hpos Hfit Hnew Hdis. destruct Hb as [B1 B2 B3 B4 B5 B6].
  assert (Hinfo : forall q, 0 <= q -> info_at b' q =
    if q =? p then {| i_pos := pos; i_len := len |} else info_at b q).
  { intros q Hq. unfold b'. rewrite info_at_upd by lia. unfold mk_info. by rewrite !off_small by lia. }
  split_and!.
  - split; simpl.
    + by rewrite length_upd.
    + unfold capacity in *; simpl. lia.
    + done.
    + rewrite length_inserts. done.
    + intros q Hq. rewrite Hinfo by lia. destruct (Z.eqb_spec q p).
      * split_and!; simpl; [lia..|]. unfold capacity in *. done.
      * destruct (B5 q Hq) as (? & ? & H). split_and!; simpl; [lia..|]. intros Hl.
        specialize (H Hl). unfold capacity in *; simpl. lia.
    + intros q r Hq Hr Hne. rewrite !Hinfo by lia.
      assert (Hd : forall q, 0 <= q < width -> q <> p ->
        disjoint_ranges {| i_pos := pos; i_len := len |} (info_at b q)).
      { intros x Hx Hxp. destruct (Z.eq_dec len 0) as [E|]; [by left|]. apply Hdis; lia. }
      destruct (Z.eqb_spec q p), (Z.eqb_spec r p); [lia|by apply Hd| |by apply B6].
      specialize (Hd q Hq ltac:(done)). unfold disjoint_ranges in *. simpl in *. tauto.
  - unfold get_at. rewrite Hinfo, Z.eqb_refl by lia. simpl. unfold len. rewrite Nat2Z.id.
    apply read_written; lia.
  - intros q Hq Hne. unfold get_at. rewrite Hinfo by lia. destruct (Z.eqb_spec q p); [lia|].
    destruct (B5 q Hq) as (? & ? & _). unfold b'; simpl.
    destruct (Z.eq_dec (i_len (info_at b q)) 0) as [->|]; [done|].
    destruct (Z.eq_dec len 0) as [E|].
    + destruct s; [done|simpl in *; lia].
    + apply read_other; try lia.
      destruct (Hdis q Hq Hne ltac:(lia)) as [E|[E|[E|E]]]; simpl in *; lia.
Qed.

(** [C28]. [assign] replaces the string at [p] and no other, when the old one is at
    least as long or the bag has room; otherwise it returns false and changes nothing.
    The bag stays well formed: in particular offsets do not wrap and every string can
    be read with whole-slice loads.  This needs a capacity below [max_size()]. *)
Theorem assign_correct width b p s : bag_wf width b -> 0 <= p < width ->
  let len := Z.of_nat (length s) in
  let fits := (len <=? i_len (info_at b p)) || (size_ b + Z.max len slice_size <=? capacity b) in
  let '(ok, b') := assign b p s in
  ok = fits /\ bag_wf width b' /\
  (if ok then get_at b' p = s else b' = b) /\
  forall q, 0 <= q < width -> q <> p -> get_at b' q = get_at b q.
Proof.
  intros Hb Hp len fits. unfold assign. fold len. unfold fits.
  pose proof (bw_range width b Hb p Hp) as (R1 & R2 & R3). pose proof (bw_size width b Hb) as B2.
  pose proof (bw_cap width b Hb) as B3. pose proof (overhead_nonneg width ltac:(lia)) as O.
  destruct (Z.leb_spec len (i_len (info_at b p))); simpl.
  - destruct (store_ok width b p s (i_pos (info_at b p)) (size_ b) Hb Hp) as (W & G & Q); try done; try lia.
    intros q Hq Hne Hl. destruct (bw_disj width b Hb p q Hp Hq ltac:(done)) as [E|[E|E]];
      unfold disjoint_ranges; simpl; lia.
  - destruct (Z.leb_spec (size_ b + Z.max len slice_size) (capacity b)); simpl; [|by split_and!].
    rewrite off_small by (unfold slice_size in *; lia).
    destruct (store_ok width b p s (size_ b) (size_ b + len) Hb Hp) as (W & G & Q); try done; try lia.
    intros q Hq Hne Hl. destruct (bw_range width b Hb q Hq) as (Q1 & Q2 & Q3).
    unfold disjoint_ranges; simpl. destruct (Z.eq_dec (i_len (info_at b q)) 0); [auto|]. lia.
Qed.

Lemma make_bag_wf width cap mem : 0 <= width -> overhead width <= cap < max_size ->
  Z.of_nat (length mem) = cap ->
  exists b, make_bag width cap mem = Some b /\ bag_wf width b /\
    capacity b = cap /\ used_capacity b = overhead width /\
    forall p, 0 <= p < width -> get_at b p = [].
Proof.
  intros Hw Hc Hm. pose proof (overhead_nonneg width Hw) as O. unfold make_bag.
  destruct (Z.leb_spec (overhead width) cap), (Z.leb_spec cap max_size); try lia. simpl.
  assert (1 < overhead width) by (unfold overhead; nia).
  rewrite !off_small by lia. eexists; split; [done|].
  assert (E0 : forall p, 0 <= p < width -> info_at
    {| size_ := overhead width; capacity_ := cap - 1; info_ := replicate (Z.to_nat width) (mk_info 0 0); bytes := mem |} p
    = {| i_pos := 0; i_len := 0 |}).
  { intros p Hp. unfold info_at; simpl. rewrite lookup_replicate_2 by lia. simpl.
    unfold mk_info. by rewrite !off_small by lia. }
  split_and!; [|unfold capacity; simpl; lia|done|].
  - split; unfold capacity; simpl; rewrite ?length_replicate; try lia.
    + intros p Hp. rewrite E0 by done. split_and!; simpl; lia.
    + intros p q Hp Hq _. rewrite E0 by done. by left.
  - intros p Hp. unfold get_at. by rewrite E0.
Qed.

(** A fresh bag is well formed, reports its capacity and overhead, and holds
    only empty strings. *)
Theorem make_bag_correct width cap mem : 0 <= width -> overhead width <= cap < max_size ->
  Z.of_nat (length mem) = cap ->
  exists b, make_bag width cap mem = Some b /\ bag_wf width b /\
    capacity b = cap /\ used_capacity b = overhead width /\
    forall p, 0 <= p < width -> get_at b p = [].
Proof. apply make_bag_wf. Qed.
End Ops.

Lemma make_bag_correct_witness :
  exists b, make_bag 1 2 64 (replicate 64 7) = Some b /\ get_at 1 b 1 = [].
Proof.
  destruct (make_bag_correct 1 ltac:(lia) 2 64 (replicate 64 7) ltac:(lia)
    ltac:(vm_compute; split; congruence) eq_refl) as (b & E & _ & _ & _ & H).
  exists b. split; [done|]. apply H. lia.
Defined.

Lemma assign_correct_witness :
  exists b, make_bag 1 2 64 (replicate 64 7) = Some b /\
    let b' := (assign 1 b 1 [1; 2; 3]).2 in get_at 1 b' 1 = [1; 2; 3] /\ get_at 1 b' 0 = [].
Proof.
  destruct (make_bag_wf 1 ltac:(lia) 2 64 (replicate 64 7) ltac:(lia)
    ltac:(vm_compute; split; congruence) eq_refl) as (b & E & W & _ & _ & H).
  exists b. split; [done|].
  pose proof (assign_correct 1 ltac:(lia) 2 b 1 [1; 2; 3] W ltac:(lia)) as A.
  vm_compute in E. injection E as <-. destruct A as (_ & _ & G & Q). split.
  - exact G.
  - refine (eq_trans (Q 0 ltac:(lia) ltac:(lia)) _). done.
Defined.

(** The constructor also accepts the capacity [max_size()].  Filling such a bag makes
    [size_] wrap to 0, and the next string is stored over the header. *)
Theorem full_capacity_wraps :
  exists b b', make_bag 1 1 256 (replicate 256 0) = Some b /\
    assign 1 b 0 (replicate 252 65) = (true, b') /\ used_capacity b' = 0 /\
    (assign 1 b' 0 (replicate 253 66)).1 = true /\
    i_pos (info_at 1 (assign 1 b' 0 (replicate 253 66)).2 0) = 0.
Proof. eexists _, _. split; [by vm_compute|]. by vm_compute. Qed.
