(* ===== verification/IncllWord.v ===== *)
(** masstree_struct.hh, class [incll_lv_]: one in-cache-line log of a leaf value.

    The word packs a not-logged bit (63), seven bits of the epoch (62-56), the
    logged value (55-3) and the index of the slot it was logged for (2-0; 7 is
    invalid).  [globalepoch] is an argument. *)
From S2P Require Import Prelude.

Definition idx_mask : Z := 7.
Definition not_logged_bit : Z := 0x8000000000000000.
Definition lv_mask : Z := 0x00FFFFFFFFFFFFF8.
Definition lv_idx_mask : Z := 0x00FFFFFFFFFFFFFF.
Definition le_mask : Z := 0x7F00000000000000.
Definition ge_mask : Z := 0x7F.
Definition lv_idx_ge_mask : Z := 0x7FFFFFFFFFFFFFFF.
Definition epoch_shift : Z := 56.
Definition invalid_idx : Z := 7.
Definition non_mask (m : Z) : Z := u64 (Z.lnot m).
Definition KEY_LW : Z := 14.
Definition KEY_MID : Z := KEY_LW / 2.

Definition get_cl_idx (d : Z) : Z := d .& idx_mask.
Definition set_cl_idx (d p : Z) : Z := (d .& non_mask idx_mask) .| p.
Definition invalidate_cl (d : Z) : Z := d .| invalid_idx.
Definition get_loggedepoch (d : Z) : Z := (d .& le_mask) .>> epoch_shift.
Definition set_loggedepoch (e d : Z) : Z := (d .& non_mask le_mask) .| ((e .& ge_mask) .<< epoch_shift).
Definition is_not_logged (d : Z) : bool := tst d not_logged_bit.
Definition set_not_logged (d : Z) : Z := d .| not_logged_bit.
Definition reset_not_logged (d : Z) : Z := d .& non_mask not_logged_bit.
Definition set_lv (d lv : Z) : Z := (d .& non_mask lv_mask) .| lv.
Definition get_lv (d : Z) : Z := d .& lv_mask.
Definition set_lv_idx (d lv p : Z) : Z := (d .& non_mask lv_idx_mask) .| lv .| p.
Definition set_lv_idx_ge (ge d lv p : Z) : Z :=
  (d .& non_mask lv_idx_ge_mask) .| lv .| p .| ((ge .& ge_mask) .<< epoch_shift).
(** The slot and the value that [recover_lv] and [recover_lv2] store. *)
Definition recover_lv (d : Z) : Z * Z := (d .& idx_mask, d .& lv_mask).
Definition recover_lv2 (d : Z) : Z * Z := ((d .& idx_mask) + KEY_MID, d .& lv_mask).
Definition is_le_diff (ge d : Z) : bool := negb ((d .& le_mask) .>> epoch_shift =? ge .& ge_mask).
Definition is_cl_valid (d : Z) : bool := negb (d .& invalid_idx =? invalid_idx).
(** The constructor. *)
Definition incll_lv (ge : Z) : Z := invalidate_cl (set_loggedepoch ge 0).

(** * Bits *)

Definition region (a n : Z) : Z := Z.ones n .<< a.
Lemma region_testbit a n i : 0 <= a -> 0 <= n -> 0 <= i ->
  Z.testbit (region a n) i = (a <=? i) && (i <? a + n).
Proof.
  intros. unfold region. destruct (Z.leb_spec a i).
  - rewrite Z.shiftl_spec, Z.testbit_ones_nonneg by lia. simpl. zcases; done.
  - by rewrite Z.shiftl_spec_low by lia.
Qed.
Lemma non_mask_testbit m i : 0 <= i < 64 -> Z.testbit (non_mask m) i = negb (Z.testbit m i).
Proof. intros. unfold non_mask. rewrite wrap_testbit, Z.lnot_spec by lia. zcases. done. Qed.

Lemma mask_regions : idx_mask = region 0 3 /\ lv_mask = region 3 53 /\ lv_idx_mask = region 0 56 /\
  le_mask = region 56 7 /\ ge_mask = region 0 7 /\ lv_idx_ge_mask = region 0 63 /\
  not_logged_bit = region 63 1 /\ invalid_idx = region 0 3.
Proof. done. Qed.

(** A logged value is an aligned 56-bit pointer, as the code asserts. *)
Definition lv_ok (v : Z) : Prop := 0 <= v < 2 ^ 56 /\ v mod 8 = 0.

Lemma lv_ok_testbit v i : lv_ok v -> 0 <= i -> Z.testbit v i = (3 <=? i) && (i <? 56) && Z.testbit v i.
Proof.
  intros [Hr Hm] Hi. destruct (Z.leb_spec 3 i); simpl.
  - destruct (Z.ltb_spec i 56); [done|]. by apply (testbit_high 56).
  - rewrite <- (Z.mod_pow2_bits_low v 3 i) by lia. change (2 ^ 3) with 8. by rewrite Hm, Z.testbit_0_l.
Qed.
Lemma small_testbit w p i : 0 <= p < 2 ^ w -> 0 <= i -> Z.testbit p i = (i <? w) && Z.testbit p i.
Proof. intros. destruct (Z.ltb_spec i w); [done|]. by apply (testbit_high w). Qed.

Lemma epoch_field_testbit e i : 0 <= i ->
  Z.testbit ((e .& ge_mask) .<< epoch_shift) i = (56 <=? i) && (i <? 63) && Z.testbit e (i - 56).
Proof.
  intros. unfold epoch_shift. destruct (Z.leb_spec 56 i).
  - rewrite Z.shiftl_spec, Z.land_spec by lia. change ge_mask with (region 0 7).
    rewrite region_testbit by lia. simpl. zcases; by rewrite ?andb_true_r, ?andb_false_r.
  - by rewrite Z.shiftl_spec_low by lia.
Qed.

Section Words.
Context (e d v p : Z) (Hv : lv_ok v) (Hp : 0 <= p < 8).
Abbreviation logged := (set_lv_idx_ge e d v p).

(** The bits of a logged word below 63. *)
Lemma logged_testbit i : 0 <= i < 63 -> Z.testbit logged i =
  if i <? 3 then Z.testbit p i else if i <? 56 then Z.testbit v i else Z.testbit e (i - 56).
Proof.
  intros. unfold set_lv_idx_ge.
  rewrite !Z.lor_spec, Z.land_spec, non_mask_testbit, epoch_field_testbit by lia.
  change lv_idx_ge_mask with (region 0 63). rewrite region_testbit by lia.
  rewrite (lv_ok_testbit v i), (small_testbit 3 p i) by (done || lia).
  destruct (Z.leb_spec 0 i), (Z.ltb_spec i (0 + 63)), (Z.leb_spec 3 i), (Z.ltb_spec i 56),
    (Z.ltb_spec i 3), (Z.leb_spec 56 i), (Z.ltb_spec i 63); try lia; simpl;
    by rewrite ?andb_false_r, ?orb_false_r.
Qed.

Lemma logged_idx : logged .& idx_mask = p.
Proof.
  apply Z.bits_inj'; intros i Hi. rewrite Z.land_spec. change idx_mask with (region 0 3).
  rewrite region_testbit, (small_testbit 3 p i) by lia.
  destruct (Z.leb_spec 0 i), (Z.ltb_spec i (0 + 3)), (Z.ltb_spec i 3); try lia; simpl;
    rewrite ?andb_false_r; try done.
  rewrite logged_testbit by lia. rewrite (proj2 (Z.ltb_lt i 3)) by lia. apply andb_true_r.
Qed.
Lemma logged_lv : logged .& lv_mask = v.
Proof.
  apply Z.bits_inj'; intros i Hi. rewrite Z.land_spec. change lv_mask with (region 3 53).
  rewrite region_testbit, (lv_ok_testbit v i) by (done || lia).
  destruct (Z.leb_spec 3 i), (Z.ltb_spec i (3 + 53)), (Z.ltb_spec i 56); try lia; simpl;
    rewrite ?andb_false_r; try done.
  rewrite logged_testbit by lia. rewrite (proj2 (Z.ltb_ge i 3)), (proj2 (Z.ltb_lt i 56)) by lia.
  apply andb_true_r.
Qed.
End Words.

Lemma epoch_region_get d e : 
  (forall i, 56 <= i < 63 -> Z.testbit d i = Z.testbit e (i - 56)) -> get_loggedepoch d = e mod 128.
Proof.
  intros H. unfold get_loggedepoch, epoch_shift. apply Z.bits_inj'; intros i Hi.
  rewrite Z.shiftr_spec, Z.land_spec by lia. change le_mask with (region 56 7).
  rewrite region_testbit by lia. change 128 with (2 ^ 7).
  destruct (Z.ltb_spec i 7).
  - rewrite Z.mod_pow2_bits_low, H by lia. replace (i + 56 - 56) with i by lia.
    destruct (Z.leb_spec 56 (i + 56)), (Z.ltb_spec (i + 56) (56 + 7)); try lia. apply andb_true_r.
  - rewrite Z.mod_pow2_bits_high by lia. destruct (Z.ltb_spec (i + 56) (56 + 7)); [lia|].
    by rewrite andb_false_r, andb_false_r.
Qed.
Lemma logged_epoch e d v p : lv_ok v -> 0 <= p < 8 -> get_loggedepoch (set_lv_idx_ge e d v p) = e mod 128.
Proof.
  intros Hv Hp. apply epoch_region_get. intros i Hi. rewrite logged_testbit by (done || lia).
  by rewrite (proj2 (Z.ltb_ge i 3)), (proj2 (Z.ltb_ge i 56)) by lia.
Qed.

Lemma set_loggedepoch_testbit e d i : 0 <= i < 64 -> Z.testbit (set_loggedepoch e d) i =
  if (56 <=? i) && (i <? 63) then Z.testbit e (i - 56) else Z.testbit d i.
Proof.
  intros. unfold set_loggedepoch. rewrite Z.lor_spec, Z.land_spec, non_mask_testbit, epoch_field_testbit by lia.
  change le_mask with (region 56 7). rewrite region_testbit by lia.
  destruct (Z.leb_spec 56 i), (Z.ltb_spec i (56 + 7)), (Z.ltb_spec i 63); try lia; simpl;
    by rewrite ?andb_false_r, ?andb_true_r, ?orb_false_r.
Qed.
Lemma set_loggedepoch_get e d : get_loggedepoch (set_loggedepoch e d) = e mod 128.
Proof.
  apply epoch_region_get. intros i Hi. rewrite set_loggedepoch_testbit by lia.
  destruct (Z.leb_spec 56 i), (Z.ltb_spec i 63); lia || done.
Qed.
(** Changing the epoch leaves index and value alone. *)
Lemma set_loggedepoch_idx e d : set_loggedepoch e d .& idx_mask = d .& idx_mask.
Proof.
  apply Z.bits_inj'; intros i Hi. rewrite !Z.land_spec. change idx_mask with (region 0 3).
  rewrite region_testbit by lia.
  destruct (Z.leb_spec 0 i), (Z.ltb_spec i (0 + 3)); simpl; rewrite ?andb_false_r; try done; try lia.
  rewrite set_loggedepoch_testbit by lia. by rewrite (proj2 (Z.leb_gt 56 i)) by lia.
Qed.
Lemma set_loggedepoch_lv e d : set_loggedepoch e d .& lv_mask = d .& lv_mask.
Proof.
  apply Z.bits_inj'; intros i Hi. rewrite !Z.land_spec. change lv_mask with (region 3 53).
  rewrite region_testbit by lia.
  destruct (Z.leb_spec 3 i), (Z.ltb_spec i (3 + 53)); simpl; rewrite ?andb_false_r; try done; try lia.
  rewrite set_loggedepoch_testbit by lia. by rewrite (proj2 (Z.leb_gt 56 i)) by lia.
Qed.
Lemma invalidate_idx d : invalidate_cl d .& idx_mask = 7.
Proof.
  unfold invalidate_cl. change invalid_idx with 7. change idx_mask with 7.
  rewrite Z.land_lor_distr_l. apply Z.bits_inj'; intros i Hi.
  rewrite Z.lor_spec, Z.land_spec. change (7 .& 7) with 7. by destruct (Z.testbit d i), (Z.testbit 7 i).
Qed.
Lemma is_cl_valid_idx d : is_cl_valid d = negb (d .& idx_mask =? 7).
Proof. done. Qed.

(** Logging a leaf value round-trips: what [set_lv_idx_ge] packs,
    [get_cl_idx], [get_lv] and [get_loggedepoch] read back (the epoch modulo 128),
    refreshing the epoch later changes only the epoch, and a log whose slot index is
    below 7 is valid until it is invalidated. *)
Theorem incll_word_roundtrip e e' d v p : lv_ok v -> 0 <= p < 7 ->
  let w := set_loggedepoch e' (set_lv_idx_ge e d v p) in
  get_cl_idx w = p /\ get_lv w = v /\ get_loggedepoch w = e' mod 128 /\
  get_loggedepoch (set_lv_idx_ge e d v p) = e mod 128 /\
  is_cl_valid w = true /\ is_cl_valid (invalidate_cl w) = false /\
  recover_lv w = (p, v) /\ recover_lv2 w = (p + 7, v) /\
  is_le_diff e (set_lv_idx_ge e d v p) = false.
Proof.
  intros Hv Hp w.
  assert (Hi : w .& idx_mask = p) by (unfold w; rewrite set_loggedepoch_idx, logged_idx; done || lia).
  assert (Hl : w .& lv_mask = v) by (unfold w; rewrite set_loggedepoch_lv, logged_lv; done || lia).
  split_and!.
  - exact Hi.
  - exact Hl.
  - apply set_loggedepoch_get.
  - apply logged_epoch; done || lia.
  - rewrite is_cl_valid_idx, Hi. destruct (Z.eqb_spec p 7); [lia|done].
  - by rewrite is_cl_valid_idx, invalidate_idx.
  - unfold recover_lv. by rewrite Hi, Hl.
  - unfold recover_lv2. by rewrite Hi, Hl.
  - unfold is_le_diff. fold (get_loggedepoch (set_lv_idx_ge e d v p)). rewrite logged_epoch by (done || lia).
    change ge_mask with (Z.ones 7). rewrite Z.land_ones by lia. change (2 ^ 7) with 128. by rewrite Z.eqb_refl.
Qed.
Lemma incll_word_roundtrip_witness :
  get_lv (set_loggedepoch 9 (set_lv_idx_ge 8 0 0x7f0012345678 3)) = 0x7f0012345678.
Proof.
  apply (incll_word_roundtrip 8 9 0 0x7f0012345678 3).
  - split; [lia|reflexivity].
  - lia.
Defined.
