(* ===== verification/Incll.v ===== *)
(** masstree_struct.hh, masstree_insert.hh: in-cache-line logging of a leaf.

    A leaf is a map from its fields to words.  The program's routines are actions
    that emit stores one by one, so that a crash can cut them: the cache lines of
    the node reach memory independently, each with a prefix of the stores made to
    it (stores to one line are never reordered).  [Rec] is the external logger
    being handed the node; what it saves is durable from then on.

    Left out: key suffixes ([ksuf_]), the leaf links and the version word, none of
    which the undo restores. *)
From S2P Require Import Prelude Permuter IncllWord.

(** * The leaf *)

Inductive field :=
  | not_logged | cl0_idx | loggedepoch | modstate_ | keylenx_ (p : Z) | permutation_ | perm_cl0
  | ikey0_ (p : Z) | lv_cl1 | lv_ (p : Z) | lv_cl2.
#[export] Instance field_eq_dec : EqDecision field.
Proof. solve_decision. Defined.
Abbreviation leaf := (field -> Z).

(** Byte offset of each field in the node (the layout comments of the class). *)
Definition offset (f : field) : Z :=
  match f with
  | not_logged => 4 | cl0_idx => 5 | loggedepoch => 8 | modstate_ => 17
  | keylenx_ p => 18 + p | permutation_ => 32 | perm_cl0 => 40
  | ikey0_ p => 56 + 8 * p | lv_cl1 => 192 | lv_ p => 200 + 8 * p | lv_cl2 => 312
  end.
Definition CACHE_LINE_SIZE : Z := 64.
(** The cache line of a field of a node whose address is [r] modulo 64. *)
Definition line (r : Z) (f : field) : Z := (r + offset f) / CACHE_LINE_SIZE.

(** * Actions *)

Inductive event := St (f : field) (v : Z) | Rec (image : leaf).
Definition step_event (l : leaf) (e : event) : leaf :=
  match e with St f v => <[f := v]> l | Rec _ => l end.
Definition exec (l : leaf) (es : list event) : leaf := foldl step_event l es.

Definition act := leaf -> list event.
Definition skip : act := fun _ => [].
Definition seq (a b : act) : act := fun l => a l ++ b (exec l (a l)).
Definition assign (f : field) (g : leaf -> Z) : act := fun l => [St f (g l)].
Definition if_then_else (c : leaf -> bool) (a b : act) : act := fun l => if c l then a l else b l.
Definition record : act := fun l => [Rec l].
Infix ">>>" := seq (at level 90, right associativity).
Notation "f '::=' g" := (assign f g) (at level 80).
Notation "'IF' c 'THEN' a 'ELSE' b" := (if_then_else c a b) (at level 88, right associativity).

Section Leaf.
Context (globalepoch : Z).

Definition holds (f : field) (v : Z) : leaf -> bool := fun l => l f =? v.

Definition invalidate_cls : act :=
  cl0_idx ::= (fun _ => invalid_idx) >>>
  lv_cl1 ::= (fun l => invalidate_cl (l lv_cl1)) >>>
  lv_cl2 ::= (fun l => invalidate_cl (l lv_cl2)).
Definition update_epochs (e : Z) : act :=
  loggedepoch ::= (fun _ => e) >>>
  lv_cl1 ::= (fun l => set_loggedepoch e (l lv_cl1)) >>>
  lv_cl2 ::= (fun l => set_loggedepoch e (l lv_cl2)).

Definition record_node : act :=
  IF (fun l => negb (holds loggedepoch globalepoch l) || negb (holds not_logged 0 l)) THEN
    (not_logged ::= (fun _ => 0) >>> record >>> loggedepoch ::= (fun _ => globalepoch) >>> invalidate_cls)
  ELSE skip.
Definition log_persistent : act := record_node.

(** The second logging operation of an epoch falls back to the external log. *)
Definition log_again : act :=
  IF (fun l => negb (holds not_logged 0 l)) THEN
    (not_logged ::= (fun _ => 0) >>> record >>> invalidate_cls)
  ELSE skip.

Definition save_cl0_insert : act :=
  IF (fun l => negb (holds loggedepoch globalepoch l)) THEN
    (perm_cl0 ::= (fun l => l permutation_) >>> cl0_idx ::= (fun _ => 0) >>>
     update_epochs globalepoch >>> not_logged ::= (fun _ => 1))
  ELSE log_again.

Definition save_cl1_2_update (p : Z) : act :=
  IF (fun l => negb (holds loggedepoch globalepoch l)) THEN
    ((if p <? KEY_MID
      then lv_cl1 ::= (fun l => set_lv_idx_ge globalepoch (l lv_cl1) (l (lv_ p)) p)
      else lv_cl2 ::= (fun l => set_lv_idx_ge globalepoch (l lv_cl2) (l (lv_ p)) (p - KEY_MID))) >>>
     update_epochs globalepoch >>> not_logged ::= (fun _ => 1))
  ELSE log_again.

(** * Recovery *)

Definition recover_final : act := invalidate_cls >>> update_epochs (globalepoch - 1).
Definition recover_cl0 : act := permutation_ ::= (fun l => l perm_cl0).
Definition recover_cl (log : field) (rec : Z -> Z * Z) : act :=
  fun l => [St (lv_ (rec (l log)).1) (rec (l log)).2].
Definition recover_cl1 : act := recover_cl lv_cl1 recover_lv.
Definition recover_cl2 : act := recover_cl lv_cl2 recover_lv2.

Definition undo_incll (fe : Z) : act :=
  IF (fun l => holds loggedepoch fe l && negb (holds cl0_idx invalid_idx l)) THEN (recover_cl0 >>> recover_final)
  ELSE IF (fun l => (get_loggedepoch (l lv_cl1) =? fe) && is_cl_valid (l lv_cl1)) THEN (recover_cl1 >>> recover_final)
  ELSE IF (fun l => (get_loggedepoch (l lv_cl2) =? fe) && is_cl_valid (l lv_cl2)) THEN (recover_cl2 >>> recover_final)
  ELSE skip.
Definition lazy_recovery (fe : Z) : act :=
  IF (fun l => l loggedepoch <=? fe) THEN undo_incll fe ELSE skip.

(** * Operations on the locked leaf *)

(** [find_insert] with room in the leaf, [assign], the caller's store of the value
    and [finish_insert] at position [i]: the new key takes the permuter's last slot. *)
Definition insert (i ikey keylen v : Z) : act := fun l0 =>
  let p := back KEY_LW (l0 permutation_) in
  (save_cl0_insert >>>
   lv_ p ::= (fun _ => 0) >>> ikey0_ p ::= (fun _ => ikey) >>> keylenx_ p ::= (fun _ => keylen) >>>
   lv_ p ::= (fun _ => v) >>>
   permutation_ ::= (fun l => (insert_from_back KEY_LW (l permutation_) i).1)) l0.
(** [find_insert] of a present key, then the caller's store of the new value. *)
Definition update (p v : Z) : act := save_cl1_2_update p >>> lv_ p ::= (fun _ => v).
(** Removal, new layers and splits log the node first, then change anything. *)
Definition logged_change (ws : list (field * Z)) : act :=
  log_persistent >>> (fun _ => (fun w => St w.1 w.2) <$> ws).

Inductive op := Insert (i ikey keylen v : Z) | Update (p v : Z) | Change (ws : list (field * Z)).
Definition run_op (o : op) : act :=
  match o with
  | Insert i ikey keylen v => insert i ikey keylen v
  | Update p v => update p v
  | Change ws => logged_change ws
  end.
Fixpoint run_ops (os : list op) : act :=
  match os with [] => skip | o :: os => run_op o >>> run_ops os end.
End Leaf.

(** The constructor's logging fields and make_empty permutation. *)
Definition make_leaf (globalepoch : Z) : leaf := fun f =>
  match f with
  | cl0_idx => invalid_idx | loggedepoch => globalepoch
  | lv_cl1 | lv_cl2 => incll_lv globalepoch
  | permutation_ => kpermuter KEY_LW (make_empty KEY_LW)
  | _ => 0
  end.

(** * Crashes *)

(** Each line holds its contents after some number of the stores: [cut] says how many. *)
Definition crash_image (r : Z) (cut : Z -> nat) (l0 : leaf) (es : list event) : leaf :=
  fun f => exec l0 (take (cut (line r f)) es) f.
Fixpoint find_record (es : list event) : option leaf :=
  match es with
  | [] => None
  | Rec l :: _ => Some l
  | St _ _ :: es => find_record es
  end.
(** After [n] events: the node in memory, or its external record, which the logger's
    undo copies back before the tree is used. *)
Definition after_crash (r : Z) (n : nat) (cut : Z -> nat) (l0 : leaf) (es : list event) : leaf :=
  match find_record (take n es) with
  | Some image => image
  | None => crash_image r cut l0 (take n es)
  end.
Definition recover (fe : Z) (l : leaf) : leaf := exec l (lazy_recovery (fe + 1) fe l).

(** What a reader sees in the leaf: the keys and values in order. *)
Definition content (l : leaf) : list (Z * Z * Z) :=
  (fun i => let p := elem (l permutation_) i in (l (ikey0_ p), l (keylenx_ p), l (lv_ p)))
  <$> seqZ 0 (size (l permutation_)).

(** No log of the leaf claims an epoch that has not begun. *)
Definition clean (e : Z) (l : leaf) : Prop :=
  l loggedepoch < e /\ l cl0_idx = invalid_idx /\
  is_cl_valid (l lv_cl1) = false /\ is_cl_valid (l lv_cl2) = false.
Definition wf (l : leaf) : Prop :=
  perm_wf KEY_LW (l permutation_) /\
  forall i, 0 <= i < size (l permutation_) -> lv_ok (l (lv_ (elem (l permutation_) i))).
Definition op_ok (l : leaf) (o : op) : Prop :=
  match o with
  | Insert i _ _ _ => size (l permutation_) < KEY_LW /\ 0 <= i <= size (l permutation_)
  | Update p _ => exists i, 0 <= i < size (l permutation_) /\ p = elem (l permutation_) i
  | Change _ => True
  end.

(** * Execution lemmas *)

Lemma exec_app l a b : exec l (a ++ b) = exec (exec l a) b.
Proof. apply foldl_app. Qed.

(** A field that no store names keeps its value, at every cut. *)
Definition stores_to (f : field) (e : event) : Prop := match e with St g _ => g = f | Rec _ => False end.
Lemma exec_untouched f es l : Forall (fun e => ~ stores_to f e) es -> exec l es f = l f.
Proof.
  revert l. induction es as [|e es IH]; intros l H; [done|]. inversion H as [|? ? He Hes]; subst.
  cbn [exec foldl]. fold (exec (step_event l e) es). rewrite IH by done.
  destruct e as [g v|]; [|done]. cbn [step_event stores_to] in *. by rewrite fn_lookup_insert_ne by done.
Qed.
Lemma exec_take_untouched f es l k : Forall (fun e => ~ stores_to f e) es -> exec l (take k es) f = l f.
Proof. intros H. apply exec_untouched. by apply Forall_take. Qed.

(** Recovery of a leaf whose logs do not name the failed epoch leaves it alone. *)
Lemma recover_none fe l : (l loggedepoch = fe -> l cl0_idx = 7) -> is_cl_valid (l lv_cl1) = false ->
  is_cl_valid (l lv_cl2) = false -> recover fe l = l.
Proof.
  intros H0 H1 H2. unfold recover, lazy_recovery, undo_incll, if_then_else, holds.
  destruct (l loggedepoch <=? fe); [|done]. rewrite H1, H2, !andb_false_r.
  destruct (Z.eqb_spec (l loggedepoch) fe); [|done]. by rewrite H0.
Qed.
Lemma recover_cl0_content fe l : l loggedepoch = fe -> l cl0_idx <> 7 ->
  content (recover fe l) = content (<[permutation_ := l perm_cl0]> l).
Proof.
  intros He H0. unfold recover, lazy_recovery, undo_incll, if_then_else, holds.
  rewrite He, Z.leb_refl, Z.eqb_refl. unfold invalid_idx.
  destruct (Z.eqb_spec (l cl0_idx) 7); [done|]. reflexivity.
Qed.
Lemma recover_cl_content fe l log rec p v :
  (log = lv_cl1 /\ rec = recover_lv) \/ (log = lv_cl2 /\ rec = recover_lv2 /\ is_cl_valid (l lv_cl1) = false) ->
  l loggedepoch <= fe -> l cl0_idx = 7 -> get_loggedepoch (l log) = fe -> is_cl_valid (l log) = true ->
  rec (l log) = (p, v) -> content (recover fe l) = content (<[lv_ p := v]> l).
Proof.
  intros Hlog Hle H0 He Hv Hr. unfold recover, lazy_recovery, undo_incll, if_then_else, holds.
  rewrite (proj2 (Z.leb_le _ _) Hle), H0. cbn [Z.eqb Pos.eqb invalid_idx negb].
  rewrite andb_false_r.
  destruct Hlog as [[-> ->]|(-> & -> & H1)]; [|rewrite H1, andb_false_r]; rewrite He, Hv, Z.eqb_refl; cbn [andb];
    unfold seq, recover_cl1, recover_cl2, recover_cl; rewrite Hr; reflexivity.
Qed.

Lemma content_ext l l' : l permutation_ = l' permutation_ ->
  (forall i, 0 <= i < size (l' permutation_) -> let p := elem (l' permutation_) i in
     l (ikey0_ p) = l' (ikey0_ p) /\ l (keylenx_ p) = l' (keylenx_ p) /\ l (lv_ p) = l' (lv_ p)) ->
  content l = content l'.
Proof.
  intros Hp H. unfold content. rewrite Hp. apply list_fmap_ext. intros k i Hi.
  apply lookup_seqZ in Hi. destruct (H i ltac:(lia)) as (-> & -> & ->). done.
Qed.

Lemma KEY_LW_ok : 1 <= KEY_LW <= 15.
Proof. unfold KEY_LW. lia. Qed.
Lemma back_inactive x i : perm_wf KEY_LW x -> size x < KEY_LW -> 0 <= i < size x -> elem x i <> back KEY_LW x.
Proof.
  intros (_ & _ & HP) Hs Hi E. unfold back in E.
  assert (N : NoDup (elems KEY_LW x)) by (rewrite HP; apply NoDup_seqZ).
  assert (L : forall k, 0 <= k < KEY_LW -> elems KEY_LW x !! Z.to_nat k = Some (elem x k)).
  { intros k Hk. unfold elems. rewrite list_lookup_fmap, lookup_seqZ_lt by lia. simpl. do 2 f_equal. lia. }
  assert (Z.to_nat i = Z.to_nat (KEY_LW - 1)).
  { eapply NoDup_lookup; [exact N|apply L; lia|]. rewrite E. apply L. unfold KEY_LW; lia. }
  unfold KEY_LW in *. lia.
Qed.
Lemma active_slot l i : wf l -> 0 <= i < size (l permutation_) -> 0 <= elem (l permutation_) i < KEY_LW.
Proof.
  intros [Hp _] Hi. apply elem_wf; [done|]. destruct Hp as (_ & Hs & _). lia.
Qed.

(** The events up to the record of the first operation of an epoch. *)
Definition insert_trace (e : Z) (l : leaf) (i ikey keylen v : Z) : list event :=
  let p := back KEY_LW (l permutation_) in
  [St perm_cl0 (l permutation_); St cl0_idx 0; St loggedepoch e;
   St lv_cl1 (set_loggedepoch e (l lv_cl1)); St lv_cl2 (set_loggedepoch e (l lv_cl2)); St not_logged 1;
   St (lv_ p) 0; St (ikey0_ p) ikey; St (keylenx_ p) keylen; St (lv_ p) v;
   St permutation_ (insert_from_back KEY_LW (l permutation_) i).1].
Lemma insert_first e l i ikey keylen v : l loggedepoch <> e ->
  insert e i ikey keylen v l = insert_trace e l i ikey keylen v.
Proof.
  intros H. unfold insert, save_cl0_insert, seq, if_then_else, holds.
  destruct (Z.eqb_spec (l loggedepoch) e); [done|]. reflexivity.
Qed.
Definition update_trace (e : Z) (l : leaf) (p v : Z) : list event :=
  if p <? KEY_MID then
    let w := set_lv_idx_ge e (l lv_cl1) (l (lv_ p)) p in
    [St lv_cl1 w; St loggedepoch e; St lv_cl1 (set_loggedepoch e w);
     St lv_cl2 (set_loggedepoch e (l lv_cl2)); St not_logged 1; St (lv_ p) v]
  else
    let w := set_lv_idx_ge e (l lv_cl2) (l (lv_ p)) (p - KEY_MID) in
    [St lv_cl2 w; St loggedepoch e; St lv_cl1 (set_loggedepoch e (l lv_cl1));
     St lv_cl2 (set_loggedepoch e w); St not_logged 1; St (lv_ p) v].
Lemma update_first e l p v : l loggedepoch <> e -> update e p v l = update_trace e l p v.
Proof.
  intros H. unfold update, save_cl1_2_update, update_trace, seq, if_then_else, holds.
  destruct (Z.eqb_spec (l loggedepoch) e); [done|]. cbn [negb]. destruct (p <? KEY_MID); reflexivity.
Qed.

(** Once a leaf has logged in the epoch, the next operation goes to the external log
    before it changes anything but [not_logged]. *)
Lemma second_op_records e o l : l loggedepoch = e -> l not_logged = 1 ->
  exists rest, run_op e o l = St not_logged 0 :: Rec (<[not_logged := 0]> l) :: rest.
Proof.
  intros He Hn. destruct o; simpl run_op.
  - unfold insert, save_cl0_insert, log_again, seq, if_then_else, holds.
    rewrite He, Hn, Z.eqb_refl. eexists. reflexivity.
  - unfold update, save_cl1_2_update, log_again, seq, if_then_else, holds.
    rewrite He, Hn, Z.eqb_refl. eexists. reflexivity.
  - unfold logged_change, log_persistent, record_node, seq, if_then_else, holds.
    rewrite He, Hn, Z.eqb_refl. eexists. reflexivity.
Qed.
Lemma first_change_records e ws l : l loggedepoch <> e ->
  exists rest, run_op e (Change ws) l = St not_logged 0 :: Rec (<[not_logged := 0]> l) :: rest.
Proof.
  intros He. simpl. unfold logged_change, log_persistent, record_node, seq, if_then_else, holds.
  destruct (Z.eqb_spec (l loggedepoch) e); [done|]. eexists. reflexivity.
Qed.

(** [img] is a possible crash image. *)
Definition is_image (r : Z) (cut : Z -> nat) (l0 : leaf) (es : list event) (img : leaf) : Prop :=
  forall f, img f = exec l0 (take (cut (line r f)) es) f.
Definition final (P : list event) : list event := P ++ [St not_logged 0].
Definition undone (e r : Z) (l0 : leaf) (P : list event) : Prop :=
  forall cut img, is_image r cut l0 (final P) img -> content (recover e img) = content l0.

Lemma final_field f k l P : f <> not_logged -> exec l (take k (final P)) f = exec l (take k P) f.
Proof.
  intros Hf. unfold final. rewrite take_app, exec_app. apply exec_untouched, Forall_take.
  constructor; [|constructor]. simpl. congruence.
Qed.
Lemma image_untouched r cut l0 P img f : is_image r cut l0 (final P) img -> f <> not_logged ->
  Forall (fun e => ~ stores_to f e) P -> img f = l0 f.
Proof. intros Hi Hf HP. rewrite Hi, final_field by done. by apply exec_take_untouched. Qed.

(** Invalid logs stay invalid when only their epoch changes. *)
Lemma set_loggedepoch_valid e d : is_cl_valid (set_loggedepoch e d) = is_cl_valid d.
Proof. by rewrite !is_cl_valid_idx, set_loggedepoch_idx. Qed.

#[local] Arguments set_loggedepoch : simpl never.
#[local] Arguments set_lv_idx_ge : simpl never.
#[local] Arguments is_cl_valid : simpl never.
#[local] Arguments get_loggedepoch : simpl never.
Ltac lookups := repeat first [rewrite fn_lookup_insert | rewrite fn_lookup_insert_ne by (done || congruence)].
Ltac cut_cases k :=
  do 12 (destruct k as [|k]; [cbn; lookups; split; intros; split_and?; done || congruence|]);
  cbn; rewrite ?take_nil; cbn; lookups; split; intros; split_and?; done || congruence.

Section FirstInsert.
Context (e : Z) (l0 : leaf) (i ikey keylen v : Z) (Hc : clean e l0) (Hw : wf l0)
  (Hsize : size (l0 permutation_) < KEY_LW).
Abbreviation P := (insert_trace e l0 i ikey keylen v).

Lemma insert_line0 k : let s := exec l0 (take k P) in
  (s loggedepoch = e -> s cl0_idx = 0 /\ s perm_cl0 = l0 permutation_) /\
  (s loggedepoch <> e -> s permutation_ = l0 permutation_).
Proof. destruct Hc as (He & _). assert (l0 loggedepoch <> e) by lia. unfold insert_trace. cut_cases k. Qed.
Lemma insert_logs k : let s := exec l0 (take k P) in
  is_cl_valid (s lv_cl1) = false /\ is_cl_valid (s lv_cl2) = false.
Proof.
  destruct Hc as (_ & _ & H1 & H2). pose proof (set_loggedepoch_valid e (l0 lv_cl1)).
  pose proof (set_loggedepoch_valid e (l0 lv_cl2)). unfold insert_trace. cut_cases k.
Qed.
Lemma insert_others j : 0 <= j < size (l0 permutation_) -> let q := elem (l0 permutation_) j in
  Forall (fun ev => ~ stores_to (ikey0_ q) ev) P /\ Forall (fun ev => ~ stores_to (keylenx_ q) ev) P /\
  Forall (fun ev => ~ stores_to (lv_ q) ev) P.
Proof.
  intros Hj q. pose proof (back_inactive _ j (proj1 Hw) Hsize Hj) as Hne. fold q in Hne.
  unfold insert_trace. split_and!; repeat constructor; simpl; congruence.
Qed.

Lemma insert_undone : undone e 0 l0 P.
Proof.
  intros cut img Hi.
  assert (Hl0 : forall f, line 0 f = 0 -> f <> not_logged -> img f = exec l0 (take (cut 0) P) f).
  { intros f Hf Hn. by rewrite Hi, final_field, Hf. }
  destruct (insert_line0 (cut 0)) as [Hlog Hold]. 
  rewrite <- (Hl0 loggedepoch), <- (Hl0 cl0_idx), <- (Hl0 perm_cl0) in Hlog by done.
  rewrite <- (Hl0 loggedepoch), <- (Hl0 permutation_) in Hold by done.
  assert (Hsame : forall j, 0 <= j < size (l0 permutation_) -> let q := elem (l0 permutation_) j in
     img (ikey0_ q) = l0 (ikey0_ q) /\ img (keylenx_ q) = l0 (keylenx_ q) /\ img (lv_ q) = l0 (lv_ q)).
  { intros j Hj q. destruct (insert_others j Hj) as (U1 & U2 & U3).
    split_and!; by eapply image_untouched. }
  destruct (Z.eq_dec (img loggedepoch) e) as [He|He].
  - destruct (Hlog He) as [H0 Hp]. rewrite recover_cl0_content by (done || lia).
    apply content_ext; [cbn; exact Hp|]. exact Hsame.
  - rewrite recover_none.
    + apply content_ext; [by apply Hold|exact Hsame].
    + done.
    + rewrite Hi, final_field by done. apply insert_logs.
    + rewrite Hi, final_field by done. apply insert_logs.
Qed.
End FirstInsert.

Section FirstUpdate.
Context (e : Z) (l0 : leaf) (p v j : Z) (Hc : clean e l0) (Hw : wf l0) (He : 0 <= e < 128)
  (Hj : 0 <= j < size (l0 permutation_)) (Hp : p = elem (l0 permutation_) j).
Abbreviation P := (update_trace e l0 p v).
Definition log_of : field := if p <? KEY_MID then lv_cl1 else lv_cl2.
Definition rec_of : Z -> Z * Z := if p <? KEY_MID then recover_lv else recover_lv2.

Lemma slot_range : 0 <= p < KEY_LW.
Proof. subst p. by apply active_slot. Qed.
Lemma slot_lv_ok : lv_ok (l0 (lv_ p)).
Proof. subst p. by apply Hw. Qed.

(** A word that logs slot [p], whatever its epoch was refreshed to. *)
Lemma log_word e' d : let w := set_lv_idx_ge e d (l0 (lv_ p)) (if p <? KEY_MID then p else p - KEY_MID) in
  forall w', w' = w \/ w' = set_loggedepoch e' w ->
  is_cl_valid w' = true /\ rec_of w' = (p, l0 (lv_ p)) /\ (e' = e -> get_loggedepoch w' = e).
Proof.
  pose proof slot_range as R. pose proof slot_lv_ok as O. unfold KEY_LW in R.
  set (q := if p <? KEY_MID then p else p - KEY_MID).
  assert (Hq : 0 <= q < 7 /\ p = if p <? KEY_MID then q else q + KEY_MID).
  { unfold q, KEY_MID, KEY_LW in *. change (14 / 2) with 7. destruct (Z.ltb_spec p 7); lia. }
  destruct Hq as [Hq Hpq]. intros w w' Hw'.
  assert (Hi : w' .& idx_mask = q).
  { destruct Hw' as [->| ->]; rewrite ?set_loggedepoch_idx; apply logged_idx; done || lia. }
  assert (Hl : w' .& lv_mask = l0 (lv_ p)).
  { destruct Hw' as [->| ->]; rewrite ?set_loggedepoch_lv; apply logged_lv; done || lia. }
  split_and!.
  - rewrite is_cl_valid_idx, Hi. destruct (Z.eqb_spec q 7); [lia|done].
  - unfold rec_of, recover_lv, recover_lv2. rewrite Hpq at 2. destruct (p <? KEY_MID); by rewrite Hi, Hl.
  - intros ->. destruct Hw' as [->| ->].
    + unfold w. rewrite logged_epoch by (done || lia). apply Z.mod_small. lia.
    + rewrite set_loggedepoch_get. apply Z.mod_small. lia.
Qed.

(** The line of slot [p]: either nothing was stored, or the log holds the old value. *)
Lemma update_line k : let s := exec l0 (take k P) in
  (is_cl_valid (s log_of) = false /\ s (lv_ p) = l0 (lv_ p)) \/
  (is_cl_valid (s log_of) = true /\ rec_of (s log_of) = (p, l0 (lv_ p)) /\ get_loggedepoch (s log_of) = e).
Proof.
  destruct Hc as (_ & _ & H1 & H2). pose proof (log_word e (l0 log_of)) as W. cbn zeta in W.
  unfold update_trace, log_of in *.
  destruct (p <? KEY_MID);
    (destruct k as [|k]; [left; cbn; done|]); right;
    do 6 (destruct k as [|k]; [cbn; lookups; destruct (W _ (or_introl eq_refl)) as (? & ? & ?);
      destruct (W _ (or_intror eq_refl)) as (? & ? & ?); eauto|]);
    cbn; rewrite ?take_nil; cbn; lookups; destruct (W _ (or_intror eq_refl)) as (? & ? & ?); eauto.
Qed.
Lemma update_rest k : let s := exec l0 (take k P) in
  s cl0_idx = 7 /\ s loggedepoch <= e /\ s permutation_ = l0 permutation_ /\
  (is_cl_valid (s lv_cl1) = false \/ log_of = lv_cl1) /\ (is_cl_valid (s lv_cl2) = false \/ log_of = lv_cl2).
Proof.
  destruct Hc as (Hl & H0 & H1 & H2).
  pose proof (set_loggedepoch_valid e (l0 lv_cl1)) as V1. pose proof (set_loggedepoch_valid e (l0 lv_cl2)) as V2.
  rewrite H1 in V1. rewrite H2 in V2.
  unfold update_trace, log_of in *.
  destruct (p <? KEY_MID);
    do 7 (destruct k as [|k]; [cbn; lookups; split_and!; lia || auto|]);
    cbn; rewrite ?take_nil; cbn; lookups; split_and!; lia || auto.
Qed.
Lemma update_others q f : q <> p -> f = ikey0_ q \/ f = keylenx_ q \/ f = lv_ q ->
  Forall (fun ev => ~ stores_to f ev) P.
Proof.
  intros Hq Hf. unfold update_trace. destruct (p <? KEY_MID); destruct Hf as [->|[->| ->]];
    repeat constructor; simpl; congruence.
Qed.
Lemma update_keys q f : f = ikey0_ q \/ f = keylenx_ q -> Forall (fun ev => ~ stores_to f ev) P.
Proof.
  intros Hf. unfold update_trace. destruct (p <? KEY_MID); destruct Hf as [->| ->];
    repeat constructor; simpl; congruence.
Qed.

Lemma log_same_line : line 0 log_of = line 0 (lv_ p).
Proof.
  pose proof slot_range as R. unfold KEY_LW in R. unfold line, log_of, KEY_MID, KEY_LW, CACHE_LINE_SIZE.
  change (14 / 2) with 7. destruct (Z.ltb_spec p 7); cbn [offset].
  - Z.div_mod_to_equations. lia.
  - Z.div_mod_to_equations. lia.
Qed.

Lemma update_undone : undone e 0 l0 P.
Proof.
  intros cut img Hi.
  assert (Himg : forall f, f <> not_logged -> img f = exec l0 (take (cut (line 0 f)) P) f).
  { intros f Hn. by rewrite Hi, final_field. }
  assert (Hkeys : forall q, img (ikey0_ q) = l0 (ikey0_ q) /\ img (keylenx_ q) = l0 (keylenx_ q)).
  { intros q. split; eapply image_untouched; try done; eapply update_keys; eauto. }
  assert (Hvals : forall q, q <> p -> img (lv_ q) = l0 (lv_ q)).
  { intros q Hq. eapply image_untouched; try done. eapply update_others; eauto. }
  assert (Hperm : img permutation_ = l0 permutation_) by (rewrite Himg by done; apply update_rest).
  assert (H0 : img cl0_idx = 7) by (rewrite Himg by done; apply update_rest).
  assert (Hle : img loggedepoch <= e) by (rewrite Himg by done; apply update_rest).
  assert (Hcl1 : is_cl_valid (img lv_cl1) = false \/ log_of = lv_cl1) by (rewrite Himg by done; apply update_rest).
  assert (Hcl2 : is_cl_valid (img lv_cl2) = false \/ log_of = lv_cl2) by (rewrite Himg by done; apply update_rest).
  assert (Hn : log_of <> not_logged) by (unfold log_of; by destruct (p <? KEY_MID)).
  destruct (update_line (cut (line 0 (lv_ p)))) as [[V Ev]|(V & R & G)].
  - rewrite <- Himg in Ev by done. rewrite <- log_same_line, <- Himg in V by done.
    rewrite recover_none.
    + apply content_ext; [done|]. intros k Hk q. destruct (Hkeys q) as [-> ->].
      destruct (Z.eq_dec q p) as [->|]; [by rewrite Ev|by rewrite Hvals].
    + done.
    + destruct Hcl1 as [|E]; [done|by rewrite E in V].
    + destruct Hcl2 as [|E]; [done|by rewrite E in V].
  - rewrite <- log_same_line, <- Himg in V, R, G by done.
    rewrite (recover_cl_content e img log_of rec_of p (l0 (lv_ p))); try done.
    + apply content_ext; [done|]. intros k Hk q. destruct (Hkeys q) as [<- <-]. split_and!; [done..|].
      destruct (decide (lv_ q = lv_ p)) as [Eq|Hne].
      * rewrite Eq, fn_lookup_insert. by injection Eq as ->.
      * rewrite fn_lookup_insert_ne by congruence. apply Hvals. congruence.
    + unfold log_of, rec_of in *. destruct (p <? KEY_MID); [by left|right].
      split_and!; try done. by destruct Hcl1.
Qed.
End FirstUpdate.

(** * The epoch as a whole *)

(** The log of an epoch: one in-cache-line logged operation [P], then, if there is a
    second operation, its record. *)
Definition epoch_shape (l0 : leaf) (P es : list event) : Prop :=
  Forall (fun ev => match ev with St _ _ => True | Rec _ => False end) P /\
  (es = P \/ exists rest, es = final P ++ Rec (exec l0 (final P)) :: rest).

Lemma find_record_pure P es : Forall (fun ev => match ev with St _ _ => True | Rec _ => False end) P ->
  find_record (P ++ es) = find_record es.
Proof. induction 1 as [|[] P H HP IH]; [done|exact IH|done]. Qed.
Lemma find_record_take_pure P n : Forall (fun ev => match ev with St _ _ => True | Rec _ => False end) P ->
  find_record (take n P) = None.
Proof. intros H. rewrite <- (app_nil_r (take n P)), find_record_pure; [done|]. by apply Forall_take. Qed.

Lemma final_pure P : Forall (fun ev => match ev with St _ _ => True | Rec _ => False end) P ->
  Forall (fun ev => match ev with St _ _ => True | Rec _ => False end) (final P).
Proof. intros. apply Forall_app_2; [done|]. by repeat constructor. Qed.

Lemma image_of_prefix r n cut l0 P : (n <= length (final P))%nat ->
  is_image r (fun L => Nat.min (cut L) n) l0 (final P) (crash_image r cut l0 (take n (final P))).
Proof. intros Hn f. unfold crash_image. by rewrite take_take. Qed.

Lemma epoch_recovers e r l0 P es n cut : epoch_shape l0 P es -> undone e r l0 P ->
  content (recover e (after_crash r n cut l0 es)) = content l0.
Proof.
  intros [HP Hes] Hu. unfold after_crash.
  assert (Hpre : forall m, (m <= length (final P))%nat ->
    content (recover e (crash_image r cut l0 (take m (final P)))) = content l0).
  { intros m Hm. eapply Hu. by apply image_of_prefix. }
  assert (HpreP : take n P = take (Nat.min n (length P)) (final P)).
  { unfold final. rewrite take_app_le by lia. destruct (Nat.le_gt_cases n (length P)).
    - by rewrite Nat.min_l.
    - rewrite Nat.min_r, !take_ge by lia. done. }
  assert (Hlen : length (final P) = S (length P)) by (unfold final; rewrite length_app; simpl; lia).
  destruct Hes as [->|[rest ->]].
  - rewrite find_record_take_pure by done. rewrite HpreP. apply Hpre. lia.
  - destruct (Nat.le_gt_cases n (length (final P))) as [Hle|Hgt].
    + rewrite take_app_le by done. rewrite find_record_take_pure by by apply final_pure. by apply Hpre.
    + rewrite take_app_ge by lia. rewrite find_record_pure by by apply final_pure.
      destruct (n - length (final P))%nat eqn:E; [lia|]. cbn [take find_record].
      apply (Hu (fun _ => length (final P))). intros f. by rewrite take_ge.
Qed.

Lemma records_shape l0 P os e : Forall (fun ev => match ev with St _ _ => True | Rec _ => False end) P ->
  exec l0 P loggedepoch = e -> exec l0 P not_logged = 1 ->
  epoch_shape l0 P (P ++ run_ops e os (exec l0 P)).
Proof.
  intros HP He Hn. split; [done|]. destruct os as [|o os]; cbn [run_ops].
  - left. apply app_nil_r.
  - right. destruct (second_op_records e o _ He Hn) as [rest Hr].
    unfold seq. rewrite Hr. exists (rest ++ run_ops e os
      (exec (exec l0 P) (St not_logged 0 :: Rec (<[not_logged:=0]> (exec l0 P)) :: rest))).
    unfold final. rewrite <- app_assoc. cbn [app]. by rewrite exec_app.
Qed.

Lemma insert_shape e l0 i ik kl v os : l0 loggedepoch <> e ->
  epoch_shape l0 (insert_trace e l0 i ik kl v) (run_ops e (Insert i ik kl v :: os) l0).
Proof.
  intros He. cbn [run_ops run_op]. unfold seq. rewrite insert_first by done.
  apply records_shape; [by repeat constructor|reflexivity..].
Qed.
Lemma update_shape e l0 p v os : l0 loggedepoch <> e ->
  epoch_shape l0 (update_trace e l0 p v) (run_ops e (Update p v :: os) l0).
Proof.
  intros He. cbn [run_ops run_op]. unfold seq. rewrite update_first by done. unfold update_trace.
  destruct (p <? KEY_MID); (apply records_shape; [by repeat constructor|reflexivity..]).
Qed.
Lemma change_shape e l0 ws os : l0 loggedepoch <> e ->
  epoch_shape l0 [] (run_ops e (Change ws :: os) l0).
Proof.
  intros He. split; [constructor|]. right. destruct (first_change_records e ws l0 He) as [rest Hr].
  cbn [run_ops]. unfold seq. rewrite Hr. eexists (rest ++ _). reflexivity.
Qed.
Lemma change_undone e r l0 : clean e l0 -> undone e r l0 [].
Proof.
  intros (Hl & H0 & H1 & H2) cut img Hi.
  assert (forall f, f <> not_logged -> img f = l0 f) as E.
  { intros f Hf. by eapply (image_untouched r cut l0 []). }
  rewrite recover_none; rewrite ?E by done; try done; try lia.
  apply content_ext; [by apply E|]. intros i Hi' q. by rewrite !E.
Qed.


(** A leaf with three keys, created in epoch 2. *)
Definition example_leaf : leaf := fun f =>
  match f with
  | permutation_ => kpermuter KEY_LW (make_sorted KEY_LW 3)
  | ikey0_ p => 100 + p | keylenx_ _ => 8 | lv_ p => 0x1000 + 8 * p
  | f => make_leaf 2 f
  end.
Lemma example_wf : wf example_leaf.
Proof.
  split; [apply make_sorted_facts; unfold KEY_LW; lia|]. intros i Hi.
  change (size (example_leaf permutation_)) with 3 in Hi.
  assert (i = 0 \/ i = 1 \/ i = 2) as [->|[->| ->]] by lia; vm_compute; repeat split; congruence.
Qed.
Lemma example_clean e : 2 < e -> clean e example_leaf.
Proof. intros. split_and!; [exact H|reflexivity..]. Qed.
Definition example_cut (L : Z) : nat := if L =? 3 then 6%nat else 1%nat.

(** * Keeping leaves clean *)

Lemma invalidated d : is_cl_valid (invalidate_cl d) = false.
Proof. by rewrite is_cl_valid_idx, invalidate_idx. Qed.

(** Logs become clean again: a new leaf is clean for every later epoch, a leaf
    that was handed to the external logger is clean for the epochs after it, and
    recovery either finds nothing to undo or leaves a leaf that is clean for the epoch
    that follows the failed one. *)
Theorem logs_become_clean : (forall g e, g < e -> clean e (make_leaf g)) /\
  (forall g e l, g < e -> l loggedepoch <> g \/ l not_logged <> 0 -> clean e (exec l (record_node g l))) /\
  (forall fe l, recover fe l = l \/ clean (fe + 1) (recover fe l)).
Proof.
  split_and!.
  - intros g e H. split_and!; [exact H|reflexivity|apply invalidated..].
  - intros g e l H Hl. unfold record_node, if_then_else, holds.
    assert (negb (l loggedepoch =? g) || negb (l not_logged =? 0) = true) as ->.
    { destruct (Z.eqb_spec (l loggedepoch) g), (Z.eqb_spec (l not_logged) 0); try done. lia. }
    unfold seq. cbn. unfold clean. lookups. split_and!; [exact H|reflexivity|apply invalidated..].
  - intros fe l. unfold recover, lazy_recovery, undo_incll, if_then_else.
    assert (F : forall a : act, clean (fe + 1) (exec l ((a >>> recover_final (fe + 1)) l))).
    { intros a. unfold seq. rewrite exec_app. generalize (exec l (a l)). intros s.
      unfold recover_final, seq. cbn. unfold clean. lookups.
      split_and!; [lia|reflexivity|rewrite set_loggedepoch_valid; apply invalidated..]. }
    repeat (case_match; try (by left); try (right; apply F)).
Qed.
Lemma logs_become_clean_witness : clean 5 (make_leaf 4) /\
  clean 6 (exec example_leaf (record_node 5 example_leaf)).
Proof.
  split.
  - apply logs_become_clean. lia.
  - apply logs_become_clean; [lia|left; discriminate].
Defined.

(** * Where the hypotheses of the recovery theorem fail *)

(** An insert of epoch 3 leaves [cl0_idx] set. *)
Definition leaf_after_insert : leaf :=
  exec example_leaf (run_ops 3 [Insert 3 103 8 0x3000] example_leaf).
Definition six_keys : leaf := <[permutation_ := kpermuter KEY_LW (make_sorted KEY_LW 6)]> example_leaf.
Definition whole (_ : Z) : nat := 100%nat.

(** [C31]. The hypotheses of crash consistency are needed; the code does not ensure
    them.  Epochs: a value log keeps seven bits of the epoch and recovery compares them
    with the whole failed epoch, so from epoch 128 on an update is not undone.  Clean
    logs: the update of epoch 4 refreshes [loggedepoch] but leaves the permutation log of
    an insert of epoch 3 valid; recovery takes the checkpointed insert back and keeps the
    update.  Alignment: in a node that starts 16 bytes into a cache line, as the pool
    allocator returns it, slot 5 is not on the line of its log, and a crash that
    keeps only the slot's line keeps the new value. *)
Theorem recovery_hypotheses_needed :
  (forall e, 128 <= e -> content (recover e (after_crash 0 100 whole example_leaf
     (run_ops e [Update 1 0x2000] example_leaf))) = [(100, 8, 0x1000); (101, 8, 0x2000); (102, 8, 0x1010)]) /\
  (content leaf_after_insert = [(100, 8, 0x1000); (101, 8, 0x1008); (102, 8, 0x1010); (103, 8, 0x3000)] /\
   content (recover 4 (after_crash 0 100 whole leaf_after_insert
     (run_ops 4 [Update 1 0x2000] leaf_after_insert))) =
   [(100, 8, 0x1000); (101, 8, 0x2000); (102, 8, 0x1010)]) /\
  (line 16 lv_cl1 <> line 16 (lv_ 5) /\
   content (recover 3 (after_crash 16 100 (fun L => if L =? 4 then 100%nat else 0%nat) six_keys
     (run_ops 3 [Update 5 0x2000] six_keys))) <> content six_keys).
Proof.
  split_and!.
  - intros e He. cbn [run_ops run_op]. unfold seq. rewrite update_first by (cbn; lia).
    change (update_trace e example_leaf 1 0x2000 ++ _) with (update_trace e example_leaf 1 0x2000).
    set (img := after_crash _ _ _ _ _).
    assert (E : recover e img = img).
    { unfold recover, lazy_recovery, undo_incll, if_then_else, holds.
      change (img loggedepoch) with e. change (img cl0_idx) with 7.
      rewrite Z.leb_refl, Z.eqb_refl. cbn [invalid_idx Z.eqb Pos.eqb negb andb].
      change (img lv_cl1) with (set_loggedepoch e (set_lv_idx_ge e (example_leaf lv_cl1) 0x1008 1)).
      change (img lv_cl2) with (set_loggedepoch e (example_leaf lv_cl2)).
      rewrite !set_loggedepoch_get. destruct (Z.eqb_spec (e mod 128) e) as [E|]; [|done].
      pose proof (Z.mod_pos_bound e 128). lia. }
    rewrite E. reflexivity.
  - vm_compute. reflexivity.
  - vm_compute. reflexivity.
  - vm_compute. congruence.
  - vm_compute. congruence.
Qed.
