(* ===== verification/ExtLog.v ===== *)
(** incll_extlog.hh, incll_pextlog.hh: the external undo log of nodes.

    Memory is a map from byte addresses to the 64-bit words that start there; every
    size and address the logger handles is a multiple of 8.  The log buffer is a
    memory of its own, addressed by offset.  A node is the words it occupies; its
    version is the low half of its first word, [modstate_] the second byte of its
    third word. *)
From S2P Require Import Prelude NodeVersion.

Abbreviation memory := (Z -> Z).

(** [memcpy] of words. *)
Definition write_words (m : memory) (a : Z) (ws : list Z) : memory :=
  fun x => if (a <=? x) && (x <? a + 8 * Z.of_nat (length ws)) && ((x - a) mod 8 =? 0)
           then get ws ((x - a) / 8) else m x.
Definition read_words (m : memory) (a n : Z) : list Z := (fun i => m (a + 8 * i)) <$> seqZ 0 n.

(** * Restoring a node's state bits after its image was copied back *)

Definition set_version (w v : Z) : Z := (w .& 0xFFFFFFFF00000000) .| v.
(** [node_base::fix_lock]. *)
Definition fix_lock (v : Z) : Z := if locked params32 v then clear_unlock params32 v else v.
(** [leaf::reset_state], called by [fix_all]: version counters and lock cleared,
    [modstate_insert] stored. *)
Definition reset_state (v : Z) : Z := clear_unlock params32 (clear_version_counter_bits params32 v).
Definition reset_modstate (w : Z) : Z := w .& 0xFFFFFFFFFFFF00FF.
Definition fix_node (m : memory) (a : Z) : memory :=
  let v := wrap 32 (m a) in
  if isleaf params32 v then
    <[a + 16 := reset_modstate (m (a + 16))]> (<[a := set_version (m a) (reset_state v)]> m)
  else <[a := set_version (m a) (fix_lock v)]> m.

(** * The persistent logger *)

Record plog := { curr : Z; last_flush : Z; buf_size : Z; root : Z; buf : memory }.
Definition entry_meta_size : Z := 24.
Definition entry_valid_magic : Z := 18.
Definition full_flush_range : Z := 32.

Definition init (pbuf_size : Z) (l : plog) : plog :=
  {| curr := 0; last_flush := 0; buf_size := pbuf_size - full_flush_range; root := root l; buf := buf l |}.
Definition checkpoint (global_masstree_root : Z) (l : plog) : plog :=
  {| curr := curr l; last_flush := curr l; buf_size := buf_size l; root := global_masstree_root; buf := buf l |}.
Definition get_entry_size (size : Z) : Z := entry_meta_size + size.
Definition get_tree_root (l : plog) : Z := root l.
(** [root = root_] assigns the member to itself. *)
Definition set_log_root (root_ : Z) (l : plog) : plog :=
  {| curr := curr l; last_flush := last_flush l; buf_size := buf_size l; root := root_; buf := buf l |}.
Definition check_validity (b : memory) (entry : Z) : bool := b (entry + 16) =? entry_valid_magic.

Definition write_entry (b : memory) (at_ entry_size node : Z) (image : list Z) : memory :=
  write_words b at_ (entry_size :: node :: entry_valid_magic :: image).

(** [record(node)]: the words of the node are read from the tree's memory. *)
Definition record (l : plog) (m : memory) (node node_size : Z) : plog :=
  let image := read_words m node (node_size / 8) in
  let entry_size := get_entry_size node_size in
  let '(at_, entry_size) :=
    if buf_size l <? curr l + entry_size then (0, buf l 0) else (curr l, entry_size) in
  {| curr := at_ + entry_size; last_flush := last_flush l; buf_size := buf_size l; root := root l;
     buf := write_entry (buf l) at_ entry_size node image |}.

(** One turn of [undo]: copy an entry back and fix the node. *)
Definition undo_entry (b : memory) (entry : Z) (m : memory) : memory :=
  let copy_size := b entry - entry_meta_size in
  let node := b (entry + 8) in
  fix_node (write_words m node (read_words b (entry + 24) (copy_size / 8))) node.
Fixpoint undo (fuel : nat) (l : plog) (m : memory) : option (plog * memory) :=
  if last_flush l =? curr l then Some (l, m)
  else match fuel with
  | O => None
  | S fuel =>
      let entry :=
        if negb (check_validity (buf l) (last_flush l)) || (buf_size l <? last_flush l + buf l (last_flush l))
        then 0 else last_flush l in
      undo fuel {| curr := curr l; last_flush := entry + buf l entry; buf_size := buf_size l;
                   root := root l; buf := buf l |} (undo_entry (buf l) entry m)
  end.

(** The loggers' flushes: the cache lines [sync_range(start, end)] flushes. *)
Fixpoint sync_lines (fuel : nat) (pp end_ : Z) : list Z :=
  match fuel with
  | O => []
  | S fuel => if pp <? end_ then pp / 64 :: sync_lines fuel (pp + 64) end_ else []
  end.
Definition sync_range (start end_ : Z) : list Z :=
  start / 64 :: sync_lines (Z.to_nat (end_ - start)) ((start .| 63) + 1) end_.
(** What [record] flushes of the entry it wrote at address [entry]. *)
Definition record_flush (entry node_size : Z) : list Z :=
  sync_range (entry + entry_meta_size) (entry + entry_meta_size + node_size).

(** * The volatile logger: the same without bounds or wrap-around *)
Module Volatile.
Record log := { curr : Z; last_flush : Z; active_records : Z; buf : memory }.
Definition destroy (l : log) : log := {| curr := 0; last_flush := 0; active_records := 0; buf := buf l |}.
Definition init (fresh : memory) (l : log) : log :=
  {| curr := curr (destroy l); last_flush := last_flush (destroy l);
     active_records := active_records (destroy l); buf := fresh |}.
Definition checkpoint (l : log) : log :=
  {| curr := curr l; last_flush := curr l; active_records := 0; buf := buf l |}.
Definition record (l : log) (m : memory) (node node_size : Z) : log :=
  let entry_size := get_entry_size node_size in
  {| curr := curr l + entry_size; last_flush := last_flush l; active_records := active_records l + 1;
     buf := write_entry (buf l) (curr l) entry_size node (read_words m node (node_size / 8)) |}.
Fixpoint undo_loop (fuel : nat) (l : log) (m : memory) : option (log * memory) :=
  if last_flush l =? curr l then Some (l, m)
  else match fuel with
  | O => None
  | S fuel =>
      undo_loop fuel {| curr := curr l; last_flush := last_flush l + buf l (last_flush l);
                        active_records := active_records l; buf := buf l |}
        (undo_entry (buf l) (last_flush l) m)
  end.
Definition undo (fuel : nat) (l : log) (m : memory) : option (log * memory) :=
  '(l, m) ← undo_loop fuel l m;
  Some ({| curr := curr l; last_flush := last_flush l; active_records := 0; buf := buf l |}, m).
End Volatile.

(** * Lemmas on memories *)

Lemma write_words_in m a ws k : 0 <= k < Z.of_nat (length ws) ->
  write_words m a ws (a + 8 * k) = get ws k.
Proof.
  intros H. unfold write_words. replace (a + 8 * k - a) with (k * 8) by lia.
  rewrite Z_mod_mult, Z.div_mul by lia.
  destruct (Z.leb_spec a (a + 8 * k)), (Z.ltb_spec (a + 8 * k) (a + 8 * Z.of_nat (length ws))); lia || done.
Qed.
Lemma write_words_out m a ws x : x < a \/ a + 8 * Z.of_nat (length ws) <= x ->
  write_words m a ws x = m x.
Proof.
  intros H. unfold write_words.
  destruct (Z.leb_spec a x), (Z.ltb_spec x (a + 8 * Z.of_nat (length ws))); try lia; done.
Qed.
Lemma length_read_words m a n : length (read_words m a n) = Z.to_nat n.
Proof. unfold read_words. by rewrite length_fmap, length_seqZ. Qed.
Lemma read_words_ext m m' a n : (forall k, 0 <= k < n -> m (a + 8 * k) = m' (a + 8 * k)) ->
  read_words m a n = read_words m' a n.
Proof.
  intros H. unfold read_words. apply list_fmap_ext. intros i k Hk. apply lookup_seqZ in Hk. apply H. lia.
Qed.
Lemma get_read_words m a n k : 0 <= k < n -> get (read_words m a n) k = m (a + 8 * k).
Proof.
  intros Hk. unfold get. destruct (Z.ltb_spec k 0); [lia|]. rewrite nth_lookup. unfold read_words.
  rewrite list_lookup_fmap, lookup_seqZ_lt by lia. simpl. do 2 f_equal. lia.
Qed.
Lemma read_written_words m a ws : read_words (write_words m a ws) a (Z.of_nat (length ws)) = ws.
Proof.
  apply (list_eq_same_length _ _ (length ws)); [done|rewrite length_read_words; lia|].
  intros i x y Hi Hx Hy.
  assert (E : get (read_words (write_words m a ws) a (Z.of_nat (length ws))) (Z.of_nat i) = get ws (Z.of_nat i)).
  { rewrite get_read_words by lia. apply write_words_in. lia. }
  unfold get in E. destruct (Z.ltb_spec (Z.of_nat i) 0); [lia|].
  rewrite !nth_lookup, Nat2Z.id, Hx, Hy in E. done.
Qed.

(** [fix_node] only touches the first and third word. *)
Lemma fix_node_other m a x : x <> a -> x <> a + 16 -> fix_node m a x = m x.
Proof. intros. unfold fix_node. case_match; by rewrite !fn_lookup_insert_ne by done. Qed.

(** * The log as a list of entries *)

(** A recorded node: its address and the words it had. *)
Definition entry : Type := Z * list Z.
Definition entry_bytes (e : entry) : Z := entry_meta_size + 8 * Z.of_nat (length e.2).
Fixpoint log_holds (b : memory) (pos : Z) (es : list entry) (endp : Z) : Prop :=
  match es with
  | [] => pos = endp
  | (node, image) :: es =>
      b pos = entry_bytes (node, image) /\ b (pos + 8) = node /\ b (pos + 16) = entry_valid_magic /\
      read_words b (pos + 24) (Z.of_nat (length image)) = image /\
      log_holds b (pos + entry_bytes (node, image)) es endp
  end.

Lemma entry_bytes_pos e : 24 <= entry_bytes e.
Proof. unfold entry_bytes, entry_meta_size. lia. Qed.
Lemma log_holds_le b es : forall pos endp, log_holds b pos es endp -> pos <= endp.
Proof.
  induction es as [|[n im] es IH]; intros pos endp H; [by rewrite H|].
  destruct H as (_ & _ & _ & _ & H). apply IH in H. pose proof (entry_bytes_pos (n, im)). lia.
Qed.
Lemma log_holds_ext b b' es : forall pos endp, (forall x, pos <= x < endp -> b x = b' x) ->
  log_holds b pos es endp -> log_holds b' pos es endp.
Proof.
  induction es as [|[n im] es IH]; intros pos endp Hx H; [done|]. cbn [log_holds] in *.
  destruct H as (H1 & H2 & H3 & H4 & H). pose proof (log_holds_le _ _ _ _ H) as Hle.
  pose proof (entry_bytes_pos (n, im)) as Hp. unfold entry_bytes, entry_meta_size in *. simpl in *.
  rewrite <- !Hx by lia. split_and!; try done.
  - rewrite <- H4 at 2. apply read_words_ext. intros k Hk. symmetry. apply Hx. lia.
  - apply IH; [|done]. intros x ?. apply Hx. lia.
Qed.
Lemma log_holds_app b es : forall pos mid endp es', log_holds b pos es mid -> log_holds b mid es' endp ->
  log_holds b pos (es ++ es') endp.
Proof.
  induction es as [|[n im] es IH]; intros pos mid endp es' H H'; [by rewrite H|].
  cbn [log_holds app] in *. destruct H as (H1 & H2 & H3 & H4 & H). split_and!; eauto.
Qed.

Lemma write_entry_holds b at_ node image :
  log_holds (write_entry b at_ (entry_bytes (node, image)) node image) at_ [(node, image)]
    (at_ + entry_bytes (node, image)).
Proof.
  unfold write_entry. set (ws := _ :: _ :: _ :: image).
  assert (L : Z.of_nat (length ws) = 3 + Z.of_nat (length image)) by (unfold ws; simpl length; lia).
  cbn [log_holds]. split_and!; [..|done].
  - replace at_ with (at_ + 8 * 0) at 2 by lia. by rewrite write_words_in by lia.
  - replace (at_ + 8) with (at_ + 8 * 1) by lia. by rewrite write_words_in by lia.
  - replace (at_ + 16) with (at_ + 8 * 2) by lia. by rewrite write_words_in by lia.
  - rewrite <- (read_written_words b (at_ + 24) image) at 2. apply read_words_ext. intros k Hk.
    replace (at_ + 24 + 8 * k) with (at_ + 8 * (k + 3)) at 1 by lia.
    rewrite !write_words_in by lia. unfold get.
    destruct (Z.ltb_spec (k + 3) 0), (Z.ltb_spec k 0); try lia.
    by replace (Z.to_nat (k + 3)) with (S (S (S (Z.to_nat k)))) by lia.
Qed.

(** A record that fits appends its entry. *)
Lemma record_appends l m node nw es : 0 <= nw ->
  log_holds (buf l) (last_flush l) es (curr l) ->
  curr l + entry_meta_size + 8 * nw <= buf_size l ->
  let l' := record l m node (8 * nw) in
  log_holds (buf l') (last_flush l') (es ++ [(node, read_words m node nw)]) (curr l') /\
  last_flush l' = last_flush l /\ buf_size l' = buf_size l /\ root l' = root l /\
  curr l' = curr l + entry_meta_size + 8 * nw.
Proof.
  intros Hn H Hfit l'. unfold l', record, get_entry_size.
  rewrite (Z.mul_comm 8 nw), Z.div_mul by lia.
  destruct (Z.ltb_spec (buf_size l) (curr l + (entry_meta_size + nw * 8))); [lia|]. simpl.
  set (image := read_words m node nw).
  assert (E : entry_meta_size + nw * 8 = entry_bytes (node, image)).
  { unfold entry_bytes, image. simpl. rewrite length_read_words. lia. }
  rewrite E. split_and!; try done; [|lia].
  eapply log_holds_app; [|apply write_entry_holds].
  eapply log_holds_ext; [|exact H]. intros x Hx. unfold write_entry. symmetry. apply write_words_out. lia.
Qed.

(** * Undo *)

Definition undo_one (m : memory) (e : entry) : memory := fix_node (write_words m e.1 e.2) e.1.

Lemma undo_entry_eq b pos node image m : b pos = entry_bytes (node, image) -> b (pos + 8) = node ->
  read_words b (pos + 24) (Z.of_nat (length image)) = image -> undo_entry b pos m = undo_one m (node, image).
Proof.
  intros H1 H2 H3. unfold undo_entry, undo_one. rewrite H1, H2. unfold entry_bytes. cbn [fst snd].
  replace (entry_meta_size + 8 * Z.of_nat (length image) - entry_meta_size)
    with (Z.of_nat (length image) * 8) by lia.
  by rewrite Z.div_mul, H3 by lia.
Qed.

Lemma undo_runs fuel : forall l m es, (length es <= fuel)%nat ->
  log_holds (buf l) (last_flush l) es (curr l) -> curr l <= buf_size l ->
  undo fuel l m = Some ({| curr := curr l; last_flush := curr l; buf_size := buf_size l; root := root l;
                           buf := buf l |}, foldl undo_one m es).
Proof.
  induction fuel as [|fuel IH]; intros l m es Hf H Hc.
  - destruct es; [|simpl in Hf; lia]. simpl in *. rewrite <- H, Z.eqb_refl, H. by destruct l; simpl in *; subst.
  - destruct es as [|[node image] es].
    + simpl in *. rewrite <- H, Z.eqb_refl, H. by destruct l; simpl in *; subst.
    + cbn [log_holds] in H. destruct H as (H1 & H2 & H3 & H4 & H).
      pose proof (log_holds_le _ _ _ _ H) as Hle. pose proof (entry_bytes_pos (node, image)).
      cbn [undo]. destruct (Z.eqb_spec (last_flush l) (curr l)); [lia|].
      unfold check_validity. rewrite H3, Z.eqb_refl, H1. cbn [negb orb].
      destruct (Z.ltb_spec (buf_size l) (last_flush l + entry_bytes (node, image))); [lia|].
      rewrite H1, (undo_entry_eq _ _ node image) by done.
      rewrite (IH _ _ es); [done|simpl in Hf; lia|done|done].
Qed.

(** The words of a restored node. *)
Definition fixed (image : list Z) (k : Z) : Z :=
  let w := get image 0 in
  let v := wrap 32 w in
  if isleaf params32 v then
    if k =? 0 then set_version w (reset_state v)
    else if k =? 2 then reset_modstate (get image 2) else get image k
  else if k =? 0 then set_version w (fix_lock v) else get image k.

Lemma undo_one_in m node image k : 3 <= Z.of_nat (length image) -> 0 <= k < Z.of_nat (length image) ->
  undo_one m (node, image) (node + 8 * k) = fixed image k.
Proof.
  intros Hl Hk. unfold undo_one, fix_node, fixed. cbn [fst snd].
  assert (E : forall j, 0 <= j < Z.of_nat (length image) -> write_words m node image (node + 8 * j) = get image j)
    by (intros; by apply write_words_in).
  pose proof (E 0 ltac:(lia)) as E0. replace (node + 8 * 0) with node in E0 by lia. rewrite E0.
  pose proof (E 2 ltac:(lia)) as E2. replace (node + 8 * 2) with (node + 16) in E2 by lia. rewrite E2.
  destruct (isleaf params32 (wrap 32 (get image 0))).
  - destruct (Z.eqb_spec k 2) as [->|].
    + replace (node + 8 * 2) with (node + 16) by lia. by rewrite fn_lookup_insert.
    + rewrite fn_lookup_insert_ne by lia. destruct (Z.eqb_spec k 0) as [->|].
      * replace (node + 8 * 0) with node by lia. by rewrite fn_lookup_insert.
      * rewrite fn_lookup_insert_ne by lia. by apply E.
  - destruct (Z.eqb_spec k 0) as [->|].
    + replace (node + 8 * 0) with node by lia. by rewrite fn_lookup_insert.
    + rewrite fn_lookup_insert_ne by lia. by apply E.
Qed.
Definition outside (x : Z) (e : entry) : Prop := x < e.1 \/ e.1 + 8 * Z.of_nat (length e.2) <= x.
Lemma undo_one_out m e x : 3 <= Z.of_nat (length e.2) -> outside x e -> undo_one m e x = m x.
Proof.
  intros Hl Hx. unfold undo_one. rewrite fix_node_other by (unfold outside in Hx; lia).
  by apply write_words_out.
Qed.
Definition disjoint_entries (e e' : entry) : Prop :=
  e.1 + 8 * Z.of_nat (length e.2) <= e'.1 \/ e'.1 + 8 * Z.of_nat (length e'.2) <= e.1.

Lemma foldl_undo_out es : forall m x, Forall (fun e => 3 <= Z.of_nat (length e.2)) es ->
  Forall (outside x) es -> foldl undo_one m es x = m x.
Proof.
  induction es as [|e es IH]; intros m x Hl Hx; [done|]. inversion Hl; inversion Hx; subst.
  simpl. rewrite IH by done. by apply undo_one_out.
Qed.
Lemma foldl_undo_in es : forall m, Forall (fun e => 3 <= Z.of_nat (length e.2)) es ->
  ForallOrdPairs disjoint_entries es -> forall node image k, In (node, image) es ->
  0 <= k < Z.of_nat (length image) -> foldl undo_one m es (node + 8 * k) = fixed image k.
Proof.
  induction es as [|e es IH]; intros m Hl Hd node image k Hin Hk; [done|].
  inversion Hl; inversion Hd as [|? ? Hde Hd']; subst. simpl. destruct Hin as [->|Hin].
  - rewrite foldl_undo_out; [by apply undo_one_in|done|].
    eapply Forall_impl; [|exact Hde]. intros [a i] Hdis. unfold disjoint_entries, outside in *. simpl in *. lia.
  - by apply IH.
Qed.

(** * Recording a sequence of nodes *)

(** Each record names a node, its words, and the memory it was taken from. *)
Definition record_all (l : plog) (rs : list (memory * Z * Z)) : plog :=
  foldl (fun l '(m, node, nw) => record l m node (8 * nw)) l rs.
Definition entries_of (rs : list (memory * Z * Z)) : list entry :=
  (fun '(m, node, nw) => (node, read_words m node nw)) <$> rs.
Definition total_bytes (rs : list (memory * Z * Z)) : Z :=
  foldr (fun '(_, _, nw) s => entry_meta_size + 8 * nw + s) 0 rs.

Lemma total_bytes_nonneg rs : Forall (fun r => 0 <= r.2) rs -> 0 <= total_bytes rs.
Proof. induction 1 as [|[[m n] w] rs H Hr IH]; simpl in *; unfold entry_meta_size in *; lia. Qed.
Lemma record_all_holds rs : forall l es, Forall (fun r => 0 <= r.2) rs ->
  log_holds (buf l) (last_flush l) es (curr l) -> curr l + total_bytes rs <= buf_size l ->
  let l' := record_all l rs in
  log_holds (buf l') (last_flush l') (es ++ entries_of rs) (curr l') /\ curr l' <= buf_size l' /\
  root l' = root l.
Proof.
  induction rs as [|[[m n] w] rs IH]; intros l es Hw H Hfit; simpl in *.
  - rewrite app_nil_r. split_and!; [done|lia|done].
  - inversion Hw; subst; simpl in *. pose proof (total_bytes_nonneg rs ltac:(done)).
    destruct (record_appends l m n w es) as (R1 & R2 & R3 & R4 & R5); try done; [lia|].
    destruct (IH (record l m n (8 * w)) (es ++ [(n, read_words m n w)])) as (I1 & I2 & I3); try done.
    { rewrite R3, R5. lia. }
    rewrite <- app_assoc in I1. split_and!; [exact I1|exact I2|by rewrite I3].
Qed.

(** [C27]. The external log restores what it recorded.  After a checkpoint, record any
    nodes that fit behind it, none twice; then, whatever happened to the tree's memory
    since, [undo] ends within one turn per record, empties the log, gives every recorded
    node its recorded words back (with the version counters and the lock of a leaf, the
    lock of an internode and the modification state reset) and touches nothing else. *)
Theorem undo_restores l rs m : let l0 := checkpoint (root l) l in
  Forall (fun r => 3 <= r.2) rs -> ForallOrdPairs disjoint_entries (entries_of rs) ->
  curr l + total_bytes rs <= buf_size l ->
  exists l' m', undo (length rs) (record_all l0 rs) m = Some (l', m') /\
    last_flush l' = curr l' /\
    (forall m0 node nw k, In (m0, node, nw) rs -> 0 <= k < nw ->
       m' (node + 8 * k) = fixed (read_words m0 node nw) k) /\
    (forall x, Forall (outside x) (entries_of rs) -> m' x = m x).
Proof.
  intros l0 H3 Hd Hfit.
  assert (H0 : Forall (fun r : memory * Z * Z => 0 <= r.2) rs).
  { eapply Forall_impl; [|exact H3]. simpl. lia. }
  destruct (record_all_holds rs l0 [] H0) as (R1 & R2 & _); [done|done|].
  assert (Hl : length (entries_of rs) = length rs) by apply length_fmap.
  eexists _, _. split; [apply undo_runs; [|exact R1|exact R2]; simpl; lia|]. split; [done|].
  assert (H3' : Forall (fun e : entry => 3 <= Z.of_nat (length e.2)) (entries_of rs)).
  { apply Forall_fmap. eapply Forall_impl; [|exact H3]. intros [[m0 n] w]. simpl.
    rewrite length_read_words. lia. }
  split.
  - intros m0 node nw k Hin Hk. apply foldl_undo_in; try done.
    + apply list_elem_of_In, list_elem_of_fmap. exists (m0, node, nw). split; [done|]. by apply list_elem_of_In.
    + rewrite length_read_words. lia.
  - intros x Hx. by apply foldl_undo_out.
Qed.

(** A leaf and an internode, recorded one after the other. *)
Definition example_tree : memory := fun x =>
  if x =? 1000 then 0x80000001 else if x =? 1016 then 0x0100 else if x =? 2000 then 0x1 else x.
Definition example_log : plog := {| curr := 0; last_flush := 0; buf_size := 400; root := 7; buf := fun _ => 0 |}.
Lemma undo_restores_witness :
  exists l' m', undo 2 (record_all example_log [(example_tree, 1000, 4); (example_tree, 2000, 3)]) (fun _ => 9)
    = Some (l', m') /\ m' 1024 = 1024 /\ m' 2000 = 0 /\ m' 3000 = 9.
Proof.
  destruct (undo_restores example_log [(example_tree, 1000, 4); (example_tree, 2000, 3)] (fun _ => 9))
    as (l' & m' & Hu & _ & Hin & Hout).
  - repeat constructor; simpl; lia.
  - repeat constructor; unfold disjoint_entries; simpl; lia.
  - simpl. unfold entry_meta_size. lia.
  - exists l', m'. split; [exact Hu|]. split_and!.
    + apply (Hin example_tree 1000 4 3); [by left|lia].
    + apply (Hin example_tree 2000 3 0); [by right; left|lia].
    + apply Hout. repeat constructor; unfold outside; simpl; lia.
Defined.

(** The volatile logger undoes the same way while its entries are the same. *)
Lemma volatile_undo_entries fuel : forall (l : Volatile.log) m es, (length es <= fuel)%nat ->
  log_holds (Volatile.buf l) (Volatile.last_flush l) es (Volatile.curr l) ->
  exists l', Volatile.undo fuel l m = Some (l', foldl undo_one m es) /\
    Volatile.last_flush l' = Volatile.curr l' /\ Volatile.active_records l' = 0.
Proof.
  unfold Volatile.undo. induction fuel as [|fuel IH]; intros l m es Hf H; destruct es as [|[node image] es];
    try (simpl in Hf; lia); cbn [Volatile.undo_loop log_holds foldl] in *.
  - rewrite <- H, Z.eqb_refl. eexists; simpl; eauto.
  - rewrite <- H, Z.eqb_refl. eexists; simpl; eauto.
  - destruct H as (H1 & H2 & H3 & H4 & H). pose proof (log_holds_le _ _ _ _ H).
    pose proof (entry_bytes_pos (node, image)).
    destruct (Z.eqb_spec (Volatile.last_flush l) (Volatile.curr l)); [lia|].
    rewrite (undo_entry_eq _ _ node image) by done. rewrite H1. apply IH; [simpl in Hf; lia|done].
Qed.

(** * Wrap-around and flushing *)

(** When a record does not fit behind the last one, the logger starts over at
    the beginning but takes the size of the old record there for the new one: here the
    new record ends where the log was checkpointed, so [undo] finds nothing to undo. *)
Theorem wrapped_record_lost :
  let l0 := {| curr := 0; last_flush := 0; buf_size := 120; root := 0; buf := fun _ => 0 |} in
  let l := checkpoint 0 (record l0 example_tree 2000 24) in
  let l' := record l example_tree 3000 64 in
  curr l' = last_flush l' /\ buf l' 0 = 48 /\ undo 10 l' (fun _ => 9) = Some (l', fun _ => 9).
Proof. vm_compute. done. Qed.

Lemma sync_lines_in fuel : forall pp end_ x, pp mod 64 = 0 -> end_ - pp <= Z.of_nat fuel ->
  pp <= x < end_ -> In (x / 64) (sync_lines fuel pp end_).
Proof.
  induction fuel as [|fuel IH]; intros pp end_ x Hp Hf Hx; [lia|]. cbn [sync_lines].
  destruct (Z.ltb_spec pp end_); [|lia]. destruct (Z.ltb_spec x (pp + 64)).
  - left. Z.div_mod_to_equations. lia.
  - right. apply IH; [|lia..]. Z.div_mod_to_equations. lia.
Qed.
Lemma next_line x : (x .| 63) + 1 = 64 * (x / 64) + 64.
Proof.
  assert (E : x .| 63 = (x .& Z.lnot 63) .| 63).
  { apply Z.bits_inj'; intros i Hi. rewrite !Z.lor_spec, Z.land_spec, Z.lnot_spec by lia.
    by destruct (Z.testbit x i), (Z.testbit 63 i). }
  rewrite E, lor_clear_add.
  - assert (x .& Z.lnot 63 = 64 * (x / 64)) as ->; [|lia].
    change 63 with (Z.ones 6). rewrite <- Z.ldiff_land, Z.ldiff_ones_r by lia.
    rewrite Z.shiftl_mul_pow2, Z.shiftr_div_pow2 by lia. change (2 ^ 6) with 64. lia.
  - rewrite <- Z.land_assoc. change (Z.lnot 63 .& 63) with 0. apply Z.land_0_r.
Qed.

(** [sync_range] flushes the cache line of every byte of its range; [record]
    flushes the words of the node this way but not the header of the entry, which can lie on
    a line of its own. *)
Theorem record_flush_lines : (forall start end_ x, start <= x < end_ -> In (x / 64) (sync_range start end_)) /\
  (forall entry node_size x, entry + entry_meta_size <= x < entry + entry_meta_size + node_size ->
     In (x / 64) (record_flush entry node_size)) /\
  ~ In (440 / 64) (record_flush 440 384).
Proof.
  assert (H : forall start end_ x, start <= x < end_ -> In (x / 64) (sync_range start end_)).
  { intros s e x Hx. unfold sync_range. rewrite next_line.
    destruct (Z.ltb_spec x (64 * (s / 64) + 64)).
    - left. Z.div_mod_to_equations. lia.
    - right. apply sync_lines_in; [|Z.div_mod_to_equations; lia..].
      replace (64 * (s / 64) + 64) with ((s / 64 + 1) * 64) by lia. apply Z_mod_mult. }
  split_and!; [exact H|intros; by apply H|]. vm_compute. intuition congruence.
Qed.
