(* ===== verification/Ppp.v ===== *)
(** kvthread_persistent.hh, kvthread_pallocator.hh, kvthread.hh, kvthread.cc: the
    persistent pool allocator.

    [Ppp] is the persistent pool pointer: two words with a pointer, its epoch and a
    log of the previous pointer.  [Arena] is the bump allocator over the mapped file.
    [Pool] keeps one free list of blocks per size class, linked through pointers stored
    in the blocks. *)
From S2P Require Import Prelude.

(** * PPP *)
Record ppp := { next : Z; nextLog : Z }.
Definition ptr_mask : Z := 0x0000FFFFFFFFFFF0.
Definition low48_mask : Z := 0x0000FFFFFFFFFFFF.
Definition high16_mask : Z := 0xFFFF000000000000.
Definition keep_mask : Z := 0xFFFF00000000000F.

Section Ppp.
(** The first epoch of this execution, and the epoch that failed before it. *)
Context (currexec failedepoch : Z).
Definition epoch_is_valid (e : Z) : bool := negb (e =? failedepoch).
Definition ppp_epoch (p : ppp) : Z := (next p .>> 48) .| ((nextLog p .>> 32) .& 0xFF00).
Definition rolled_back (p : ppp) : bool :=
  (ppp_epoch p <? currexec) && negb (epoch_is_valid (ppp_epoch p)).

Definition read (p : ppp) : Z :=
  if next p .& 1 =? nextLog p .& 1 then
    if rolled_back p then nextLog p .& ptr_mask else next p .& ptr_mask
  else nextLog p .& ptr_mask.

(** [write] as the states after each of its stores, in program order. *)
Definition write (globalepoch val : Z) (p : ppp) : list ppp :=
  let n := next p in
  let nl := nextLog p in
  let ehigh := u64 (globalepoch .<< 32) .& high16_mask in
  let elow := u64 (globalepoch .<< 48) in
  let put_log nl' n' := [{| next := n; nextLog := nl' |}; {| next := n'; nextLog := nl' |}] in
  if negb (n .& 1 =? nl .& 1) then
    let valid := nl .& 1 in
    put_log (ehigh .| (nl .& low48_mask)) (elow .| (val .& ptr_mask) .| valid)
  else if rolled_back p then
    let valid := (nl .& 1) .^ 1 in
    put_log (ehigh .| (nl .& ptr_mask) .| valid) (elow .| (val .& ptr_mask) .| valid)
  else if ppp_epoch p =? globalepoch then
    [{| next := (n .& keep_mask) .| (val .& ptr_mask); nextLog := nl |}]
  else
    let valid := (nl .& 1) .^ 1 in
    put_log (ehigh .| (n .& ptr_mask) .| valid) (elow .| (val .& ptr_mask) .| valid).

(** Writes in one epoch: all the intermediate states, last one first. *)
Fixpoint writes (globalepoch : Z) (vals : list Z) (p : ppp) : list ppp :=
  match vals with
  | [] => []
  | v :: vals => let ss := write globalepoch v p in ss ++ writes globalepoch vals (List.last ss p)
  end.
End Ppp.

(** * Encoding *)

(** A pointer the words can hold without spilling into the epoch bits that [ppp_epoch]
    reads: aligned to 16 and below 2^40. *)
Definition ptr_ok (a : Z) : Prop := 0 <= a < 2 ^ 40 /\ a mod 16 = 0.
Definition enc (e a v l w : Z) : ppp := {| next := e * 2 ^ 48 + a + v; nextLog := l + w |}.

Section Encoding.
Context (e a v l w : Z) (He : 0 <= e < 2 ^ 16) (Ha : ptr_ok a) (Hv : 0 <= v <= 1)
  (Hl : ptr_ok l) (Hw : 0 <= w <= 1).

Lemma land1 x : x .& 1 = x mod 2.
Proof. change 1 with (Z.ones 1). by rewrite Z.land_ones by lia. Qed.
Lemma ptr_land x : x .& ptr_mask = x mod 2 ^ 48 - x mod 16.
Proof. change ptr_mask with (2 ^ 48 - 2 ^ 4). by rewrite land_region by lia. Qed.
Lemma low48_land x : x .& low48_mask = x mod 2 ^ 48.
Proof. change low48_mask with (Z.ones 48). by rewrite Z.land_ones by lia. Qed.

Lemma enc_valid : next (enc e a v l w) .& 1 = v /\ nextLog (enc e a v l w) .& 1 = w.
Proof. destruct Ha, Hl. rewrite !land1. simpl. split; Z.div_mod_to_equations; lia. Qed.
Lemma enc_ptrs : next (enc e a v l w) .& ptr_mask = a /\ nextLog (enc e a v l w) .& ptr_mask = l.
Proof. destruct Ha, Hl. rewrite !ptr_land. simpl. split; Z.div_mod_to_equations; lia. Qed.
Lemma enc_epoch : ppp_epoch (enc e a v l w) = e.
Proof.
  destruct Ha, Hl. unfold ppp_epoch. simpl.
  assert ((l + w) .>> 32 .& 0xFF00 = 0) as ->.
  { change 0xFF00 with (2 ^ 16 - 2 ^ 8). rewrite land_region, Z.shiftr_div_pow2 by lia.
    rewrite !Z.mod_small; Z.div_mod_to_equations; lia. }
  rewrite Z.lor_0_r, Z.shiftr_div_pow2 by lia. Z.div_mod_to_equations. lia.
Qed.
Lemma enc_rolled_back c f : rolled_back c f (enc e a v l w) = (e <? c) && (e =? f).
Proof. unfold rolled_back, epoch_is_valid. rewrite enc_epoch. by rewrite negb_involutive. Qed.
End Encoding.

Lemma ehigh_zero g : 0 <= g < 2 ^ 16 -> u64 (g .<< 32) .& high16_mask = 0.
Proof.
  intros. rewrite Z.shiftl_mul_pow2 by lia. rewrite wrap_small by lia.
  change high16_mask with (2 ^ 64 - 2 ^ 48). rewrite land_region by lia.
  rewrite !Z.mod_small; lia.
Qed.
Lemma elow_small g : 0 <= g < 2 ^ 16 -> u64 (g .<< 48) = g * 2 ^ 48.
Proof. intros. rewrite Z.shiftl_mul_pow2 by lia. apply wrap_small. lia. Qed.
Lemma ptr_keep a : ptr_ok a -> a .& ptr_mask = a.
Proof. intros [? ?]. rewrite ptr_land. Z.div_mod_to_equations. lia. Qed.
(** Disjoint fields combine by addition. *)
Lemma land_low k x y : 0 <= k -> 0 <= y < 2 ^ k -> x mod 2 ^ k = 0 -> x .& y = 0.
Proof.
  intros Hk Hy Hx. apply Z.bits_inj'; intros i Hi. rewrite Z.land_spec, Z.testbit_0_l.
  destruct (Z.ltb_spec i k).
  - by rewrite <- (Z.mod_pow2_bits_low x k) by lia; rewrite Hx, Z.testbit_0_l.
  - by rewrite (testbit_high k y) by lia; rewrite andb_false_r.
Qed.
Lemma lor_low k x y : 0 <= k -> 0 <= y < 2 ^ k -> x mod 2 ^ k = 0 -> x .| y = x + y.
Proof. intros. apply lor_clear_add. by apply (land_low k). Qed.
Lemma lor_between e v a : 0 <= v <= 1 -> ptr_ok a -> (e * 2 ^ 48 + v) .| a = e * 2 ^ 48 + a + v.
Proof.
  intros Hv [Ha Ha']. rewrite lor_clear_add; [lia|].
  rewrite <- (lor_low 48 (e * 2 ^ 48) v) by (lia || apply Z_mod_mult).
  rewrite Z.land_lor_distr_l, (land_low 48), Z.lor_0_l by (lia || apply Z_mod_mult).
  rewrite Z.land_comm. by apply (land_low 4); [lia..|].
Qed.
Lemma enc_next g a v : 0 <= g < 2 ^ 16 -> ptr_ok a -> 0 <= v <= 1 ->
  u64 (g .<< 48) .| (a .& ptr_mask) .| v = g * 2 ^ 48 + a + v.
Proof.
  intros Hg Ha Hv. rewrite elow_small, ptr_keep by done. destruct Ha.
  rewrite (lor_low 48 (g * 2 ^ 48) a) by (lia || (Z.div_mod_to_equations; lia)).
  rewrite (lor_low 4) by (lia || (Z.div_mod_to_equations; lia)). lia.
Qed.
Lemma enc_log g a v : 0 <= g < 2 ^ 16 -> ptr_ok a -> 0 <= v <= 1 ->
  (u64 (g .<< 32) .& high16_mask) .| a .| v = a + v.
Proof.
  intros Hg Ha Hv. rewrite ehigh_zero, Z.lor_0_l by done. destruct Ha.
  apply (lor_low 4); [lia..|]. change (2 ^ 4) with 16. done.
Qed.

Section Write.
Context (c f g val : Z) (Hg : 0 <= g < 2 ^ 16) (Hval : ptr_ok val).

(** [write] on encoded words, branch by branch. *)
Lemma write_enc e a v l w : 0 <= e < 2 ^ 16 -> ptr_ok a -> 0 <= v <= 1 -> ptr_ok l -> 0 <= w <= 1 ->
  write c f g val (enc e a v l w) =
  if negb (v =? w) then [enc e a v l w; enc g val w l w]
  else if (e <? c) && (e =? f) then [enc e a v l (1 - w); enc g val (1 - w) l (1 - w)]
  else if e =? g then [enc g val v l w]
  else [enc e a v a (1 - w); enc g val (1 - w) a (1 - w)].
Proof.
  intros He Ha Hv Hl Hw. unfold write.
  destruct (enc_valid e a v l w) as [-> ->]; try done.
  rewrite enc_rolled_back, enc_epoch by done.
  destruct (enc_ptrs e a v l w) as [-> ->]; try done.
  assert (Hx : w .^ 1 = 1 - w) by (assert (w = 0 \/ w = 1) as [->| ->] by lia; done).
  rewrite !Hx. rewrite !enc_next by (done || lia). rewrite !enc_log by (done || lia).
  assert (Hlow : nextLog (enc e a v l w) .& low48_mask = l + w).
  { rewrite low48_land. simpl. destruct Hl. apply Z.mod_small. lia. }
  rewrite Hlow, ehigh_zero, Z.lor_0_l by done.
  assert (Hkeep : (next (enc e a v l w) .& keep_mask) .| (val .& ptr_mask) = e * 2 ^ 48 + val + v).
  { rewrite ptr_keep by done. change keep_mask with ((2 ^ 64 - 2 ^ 48) + (2 ^ 4 - 2 ^ 0)).
    rewrite land_disjoint_add by done. rewrite !land_region by lia. cbn [next enc].
    destruct Ha, Hval.
    assert ((e * 2 ^ 48 + a + v) mod 2 ^ 64 - (e * 2 ^ 48 + a + v) mod 2 ^ 48 +
       ((e * 2 ^ 48 + a + v) mod 2 ^ 4 - (e * 2 ^ 48 + a + v) mod 2 ^ 0) = e * 2 ^ 48 + v) as ->.
    { Z.div_mod_to_equations. lia. }
    by apply lor_between. }
  rewrite Hkeep. unfold enc.
  destruct (Z.eqb_spec v w) as [->|]; cbn [negb]; [|done].
  destruct ((e <? c) && (e =? f)); [done|]. destruct (Z.eqb_spec e g) as [->|]; done.
Qed.
End Write.

Lemma read_enc c f e a v l w : 0 <= e < 2 ^ 16 -> ptr_ok a -> 0 <= v <= 1 -> ptr_ok l -> 0 <= w <= 1 ->
  read c f (enc e a v l w) =
  if v =? w then if (e <? c) && (e =? f) then l else a else l.
Proof.
  intros He Ha Hv Hl Hw. unfold read. destruct (enc_valid e a v l w) as [-> ->]; try done.
  rewrite enc_rolled_back by done. destruct (enc_ptrs e a v l w) as [-> ->]; done.
Qed.

(** * Rollback *)

Definition ppp_wf (p : ppp) (e : Z) : Prop := exists a v l w,
  p = enc e a v l w /\ 0 <= e < 2 ^ 16 /\ ptr_ok a /\ 0 <= v <= 1 /\ ptr_ok l /\ 0 <= w <= 1.

Lemma last_default {A} (x : A) l d d' : List.last (x :: l) d = List.last (x :: l) d'.
Proof. revert x. induction l as [|y l IH]; intros x; [done|]. apply IH. Qed.

Section Rollback.
Context (c f g : Z) (Hg : 0 <= g < 2 ^ 16) (Hc : c <= g).

(** Once written in epoch [g], the log holds [v0] and stays. *)
Definition logged_at (v0 a : Z) (p : ppp) : Prop :=
  exists w, p = enc g a w v0 w /\ 0 <= w <= 1 /\ ptr_ok a /\ ptr_ok v0.
Lemma logged_read v0 a p : logged_at v0 a p -> read (g + 1) g p = v0 /\ read c f p = a.
Proof.
  intros (w & -> & Hw & Ha & H0). rewrite !read_enc by done. rewrite Z.eqb_refl.
  destruct (Z.ltb_spec g (g + 1)), (Z.ltb_spec g c), (Z.eqb_spec g g); try lia. done.
Qed.
Lemma logged_write v0 a p val : logged_at v0 a p -> ptr_ok val ->
  exists p', write c f g val p = [p'] /\ logged_at v0 val p'.
Proof.
  intros (w & -> & Hw & Ha & H0) Hval. rewrite write_enc by done. rewrite Z.eqb_refl. cbn [negb].
  destruct (Z.ltb_spec g c); [lia|]. cbn [andb]. rewrite Z.eqb_refl. eexists; split; [done|].
  exists w. split_and!; done || lia.
Qed.
Lemma first_write v0 p e val : ppp_wf p e -> e <> g -> read c f p = v0 -> ptr_ok val ->
  exists s p', write c f g val p = [s; p'] /\ read (g + 1) g s = v0 /\ logged_at v0 val p'.
Proof.
  intros (a & v & l & w & -> & He & Ha & Hv & Hl & Hw) Hne Hr Hval.
  rewrite read_enc in Hr by done. rewrite write_enc by done.
  destruct (Z.eqb_spec v w) as [->|Hvw]; cbn [negb].
  - destruct ((e <? c) && (e =? f)).
    + eexists _, _. split; [done|]. subst l. rewrite read_enc by (done || lia).
      destruct (Z.eqb_spec w (1 - w)); [lia|]. split; [done|]. exists (1 - w). split_and!; done || lia.
    + destruct (Z.eqb_spec e g); [done|]. eexists _, _. split; [done|]. subst a.
      rewrite read_enc by (done || lia). destruct (Z.eqb_spec w (1 - w)); [lia|].
      split; [done|]. exists (1 - w). split_and!; done || lia.
  - eexists _, _. split; [done|]. subst l. rewrite read_enc by done.
    destruct (Z.eqb_spec v w); [done|]. split; [done|]. exists w. split_and!; done || lia.
Qed.

Lemma later_writes v0 vals : forall a p, Forall ptr_ok vals -> logged_at v0 a p ->
  Forall (fun s => read (g + 1) g s = v0) (writes c f g vals p) /\
  read c f (List.last (writes c f g vals p) p) = List.last vals a.
Proof.
  induction vals as [|val vals IH]; intros a p Hv Hp.
  - split; [constructor|]. simpl. by eapply logged_read.
  - inversion Hv; subst. destruct (logged_write v0 a p val Hp) as (p' & E & Hp'); [done|].
    cbn [writes]. rewrite E. cbn [List.last app]. destruct (IH val p') as [IHa IHl]; try done. split.
    + constructor; [|done]. by eapply logged_read.
    + destruct vals as [|val' vals]; [cbn [writes List.last]; by eapply logged_read|].
      destruct (writes c f g (val' :: vals) p') eqn:Ew.
      { cbn [writes] in Ew. destruct (logged_write v0 val p' val' Hp') as (p'' & E' & _);
          [by inversion Hv as [|? ? ? H']; inversion H'|]. by rewrite E' in Ew. }
      rewrite (last_default p0 l p p'), (last_default val' vals a val). exact IHl.
Qed.
End Rollback.


(** * The arena and the free lists *)

(** [PDataAllocator]: the mapped region, its free address (in the first word), and the
    failed epoch kept behind the data. *)
Record arena := { nvm_free_addr : Z; mmappedData : Z; failed_epoch_cell : Z }.
Definition DATA_REGION_ADDR : Z := 2 ^ 45.
Definition DATA_BUF_SIZE : Z := 2 ^ 34.
Definition cl_size : Z := 64.
Definition mapping_length : Z := DATA_BUF_SIZE + cl_size.
Definition skip_to_ti : Z := cl_size.
Definition ti_size : Z := 8192.
Definition skip_to_data : Z := 2 .<< 20.
Definition arena_init : arena :=
  {| nvm_free_addr := DATA_REGION_ADDR + skip_to_data; mmappedData := DATA_REGION_ADDR; failed_epoch_cell := 0 |}.
(** [init_exist] of an existing file: failed epoch, and the first epoch of this execution. *)
Definition init_exist (a : arena) : Z * Z := (failed_epoch_cell a, failed_epoch_cell a + 1).
Definition allocate_ti (a : arena) (pindex : Z) : Z := mmappedData a + skip_to_ti + pindex * ti_size.
Definition malloc_nvm (a : arena) (sz : Z) : option (Z * arena) :=
  let tmp := nvm_free_addr a in
  let a' := {| nvm_free_addr := nvm_free_addr a + sz; mmappedData := mmappedData a;
               failed_epoch_cell := failed_epoch_cell a |} in
  if negb (tmp =? 0) && (nvm_free_addr a' <? mmappedData a + mapping_length) then Some (tmp, a') else None.
Definition write_failed_epoch (a : arena) (e : Z) : arena :=
  {| nvm_free_addr := nvm_free_addr a; mmappedData := mmappedData a; failed_epoch_cell := e |}.
Definition read_failed_epoch (a : arena) : Z := failed_epoch_cell a.
Definition get_mem_usage (a : arena) : Z := nvm_free_addr a - (mmappedData a + skip_to_data).

(** [initialize_pool]: the links of a fresh chunk, from each block to the next. *)
Fixpoint initialize_pool (fuel : nat) (pool sz unit off : Z) : list (Z * Z) :=
  match fuel with
  | O => []
  | S fuel =>
      if off + unit <=? sz then (pool + off - unit, pool + off) :: initialize_pool fuel pool sz unit (off + unit)
      else [(pool + off - unit, 0)]
  end.

Definition PPP_HEADER_SIZE : Z := 16.
Definition CACHE_LINE_SIZE : Z := 64.
Definition pool_max_nlines : Z := 70.
Definition nlines (sz memdebug_size : Z) : Z :=
  (PPP_HEADER_SIZE + sz + memdebug_size + CACHE_LINE_SIZE - 1) / CACHE_LINE_SIZE.

(** The pool of a thread: head of each size class, and the link word of each block. *)
Record pool := { heads : Z -> Z; links : Z -> Z }.
Definition store_links (l : list (Z * Z)) (m : Z -> Z) : Z -> Z := foldl (fun m '(a, b) => <[a := b]> m) m l.
Definition refill_pool (superpage_size nl : Z) (p : pool) (a : arena) : option (pool * arena) :=
  '(chunk, a') ← malloc_nvm a superpage_size;
  let unit := nl * CACHE_LINE_SIZE in
  Some ({| heads := <[nl - 1 := chunk]> (heads p);
           links := store_links (initialize_pool (Z.to_nat (superpage_size / unit) + 1) chunk superpage_size unit unit)
                      (links p) |}, a').
Definition pool_allocate (superpage_size sz : Z) (p : pool) (a : arena) : option (Z * pool * arena) :=
  let nl := nlines sz 0 in
  if pool_max_nlines <? nl then None
  else
    '(p, a) ← (if heads p (nl - 1) =? 0 then refill_pool superpage_size nl p a else Some (p, a));
    let b := heads p (nl - 1) in
    if b =? 0 then Some (PPP_HEADER_SIZE, p, a)
    else Some (b + PPP_HEADER_SIZE, {| heads := <[nl - 1 := links p b]> (heads p); links := links p |}, a).
Definition pool_deallocate (ptr sz : Z) (p : pool) : option pool :=
  let nl := nlines sz 0 in
  if (ptr =? 0) || (pool_max_nlines <? nl) then None
  else
    let b := ptr - PPP_HEADER_SIZE in
    Some {| heads := <[nl - 1 := b]> (heads p); links := <[b := heads p (nl - 1)]> (links p) |}.

(** The free list of a size class, read along the links. *)
Fixpoint free_list (links : Z -> Z) (b : Z) (l : list Z) : Prop :=
  match l with [] => b = 0 | x :: l => b = x /\ b <> 0 /\ free_list links (links b) l end.

Lemma free_list_ext m m' l : forall b, (forall x, In x l -> m x = m' x) -> free_list m b l -> free_list m' b l.
Proof.
  induction l as [|x l IH]; intros b Hm H; [done|]. cbn [free_list] in *. destruct H as (-> & Hn & H).
  split_and!; try done. rewrite <- Hm by by left. apply IH; [|done]. intros y Hy. apply Hm. by right.
Qed.

(** The blocks of a chunk from offset [off - unit] on. *)
Fixpoint blocks (pool unit : Z) (k : nat) (off : Z) : list Z :=
  match k with O => [] | S k => (pool + off - unit) :: blocks pool unit k (off + unit) end.

Lemma store_links_other l : forall m x, Forall (fun p => p.1 <> x) l -> store_links l m x = m x.
Proof.
  induction l as [|[a b] l IH]; intros m x H; [done|]. inversion H; subst. simpl in *.
  unfold store_links in *. simpl. rewrite IH by done. by rewrite fn_lookup_insert_ne by done.
Qed.
Lemma initialize_pool_from fuel : forall pool sz unit off x, 0 < unit -> x < pool + off - unit ->
  Forall (fun p => p.1 <> x) (initialize_pool fuel pool sz unit off).
Proof.
  induction fuel as [|fuel IH]; intros pool sz unit off x Hu Hx; [constructor|]. cbn [initialize_pool].
  destruct (off + unit <=? sz); repeat constructor; simpl; try lia. apply IH; lia.
Qed.
Lemma store_links_cons a b l m : store_links ((a, b) :: l) m = store_links l (<[a := b]> m).
Proof. done. Qed.

(** A fresh chunk becomes the list of its blocks, in address order. *)
Lemma initialize_pool_list k : forall fuel pool sz unit off m, 0 < unit -> 0 < pool + off - unit ->
  (k < fuel)%nat -> off + Z.of_nat k * unit <= sz < off + (Z.of_nat k + 1) * unit ->
  free_list (store_links (initialize_pool fuel pool sz unit off) m) (pool + off - unit)
    (blocks pool unit (S k) off).
Proof.
  induction k as [|k IH]; intros fuel pool sz unit off m Hu Hp Hf Hsz; destruct fuel as [|fuel]; try lia.
  - cbn. destruct (Z.leb_spec (off + unit) sz); [lia|]. cbn. rewrite fn_lookup_insert. split_and!; done || lia.
  - cbn [initialize_pool]. destruct (Z.leb_spec (off + unit) sz); [|lia].
    change (blocks pool unit (S (S k)) off) with ((pool + off - unit) :: blocks pool unit (S k) (off + unit)).
    cbn [free_list]. split_and!; [lia..|]. rewrite store_links_cons.
    rewrite store_links_other by (apply initialize_pool_from; lia). rewrite fn_lookup_insert.
    specialize (IH fuel pool sz unit (off + unit) (<[pool + off - unit := pool + off]> m)
      Hu ltac:(lia) ltac:(lia) ltac:(lia)).
    replace (pool + (off + unit) - unit) with (pool + off) in IH by lia. exact IH.
Qed.

(** The free list of a size class. *)
Definition class_list (p : pool) (nl : Z) (l : list Z) : Prop := free_list (links p) (heads p (nl - 1)) l.

Lemma refill_list superpage_size nl p a : 1 <= nl -> nl * CACHE_LINE_SIZE <= superpage_size ->
  0 < nvm_free_addr a -> nvm_free_addr a + superpage_size < mmappedData a + mapping_length ->
  exists p' a', refill_pool superpage_size nl p a = Some (p', a') /\
    nvm_free_addr a' = nvm_free_addr a + superpage_size /\ mmappedData a' = mmappedData a /\
    class_list p' nl (blocks (nvm_free_addr a) (nl * CACHE_LINE_SIZE)
      (Z.to_nat (superpage_size / (nl * CACHE_LINE_SIZE))) (nl * CACHE_LINE_SIZE)).
Proof.
  intros Hn Hs Hp Hfit. unfold refill_pool, malloc_nvm. cbn [nvm_free_addr].
  destruct (Z.eqb_spec (nvm_free_addr a) 0); [lia|]. cbn [negb andb].
  destruct (Z.ltb_spec (nvm_free_addr a + superpage_size) (mmappedData a + mapping_length)); [|lia].
  eexists _, _. split; [reflexivity|]. split_and!; [done..|].
  unfold class_list. cbn [heads links]. rewrite fn_lookup_insert.
  set (unit := nl * CACHE_LINE_SIZE) in *. assert (0 < unit) by (unfold unit, CACHE_LINE_SIZE; lia).
  assert (1 <= superpage_size / unit) by (apply Z.div_le_lower_bound; lia).
  replace (Z.to_nat (superpage_size / unit)) with (S (Z.to_nat (superpage_size / unit - 1))) by lia.
  replace (nvm_free_addr a) with (nvm_free_addr a + unit - unit) at 2 by lia.
  apply initialize_pool_list; [lia..|]. rewrite Z2Nat.id by lia.
  pose proof (Z.mul_div_le superpage_size unit). pose proof (Z.mul_succ_div_gt superpage_size unit). nia.
Qed.

(** The pool hands out distinct blocks and takes them back: a block freed from a
    size class is the next one allocated from it, with the rest of the free list kept; an
    empty class is refilled with all the blocks of a fresh chunk, and every block is
    returned 16 bytes behind its start. *)
Theorem pool_correct superpage_size sz p a : 0 <= sz -> nlines sz 0 <= pool_max_nlines ->
  nlines sz 0 * CACHE_LINE_SIZE <= superpage_size -> 0 < nvm_free_addr a ->
  nvm_free_addr a + superpage_size < mmappedData a + mapping_length ->
  let nl := nlines sz 0 in
  (forall b l, class_list p nl (b :: l) -> exists p', pool_allocate superpage_size sz p a = Some (b + 16, p', a) /\
     class_list p' nl l) /\
  (class_list p nl [] -> exists p' a', pool_allocate superpage_size sz p a = Some (nvm_free_addr a + 16, p', a') /\
     class_list p' nl (List.tl (blocks (nvm_free_addr a) (nl * CACHE_LINE_SIZE)
       (Z.to_nat (superpage_size / (nl * CACHE_LINE_SIZE))) (nl * CACHE_LINE_SIZE)))) /\
  (forall b l, class_list p nl l -> b <> 0 -> ~ In b l -> b + 16 <> 0 ->
     exists p', pool_deallocate (b + 16) sz p = Some p' /\ class_list p' nl (b :: l)).
Proof.
  intros Hsz Hnl Hsp Ha Hfit nl.
  assert (H1 : 1 <= nl) by (unfold nl, nlines, PPP_HEADER_SIZE, CACHE_LINE_SIZE; Z.div_mod_to_equations; lia).
  split_and!.
  - intros b l (E & Hb & Hl). unfold pool_allocate. fold nl.
    destruct (Z.ltb_spec pool_max_nlines nl); [lia|]. destruct (Z.eqb_spec (heads p (nl - 1)) 0); [congruence|].
    cbn. destruct (Z.eqb_spec (heads p (nl - 1)) 0); [congruence|]. rewrite E in *.
    eexists; split; [reflexivity|]. unfold class_list. cbn [heads links]. by rewrite fn_lookup_insert.
  - intros E. unfold class_list in E. cbn [free_list] in E. unfold pool_allocate. fold nl.
    destruct (Z.ltb_spec pool_max_nlines nl); [lia|]. rewrite E, Z.eqb_refl.
    destruct (refill_list superpage_size nl p a H1 Hsp Ha Hfit) as (p' & a' & -> & _ & _ & Hl). cbn.
    assert (1 <= superpage_size / (nl * CACHE_LINE_SIZE)).
    { apply Z.div_le_lower_bound; [unfold CACHE_LINE_SIZE; lia|fold nl in Hsp; lia]. }
    destruct (Z.to_nat (superpage_size / (nl * CACHE_LINE_SIZE))) as [|k] eqn:Ek; [lia|].
    cbn [blocks List.tl] in *. destruct Hl as (Eh & Hb & Hl). rewrite Eh in *.
    replace (nvm_free_addr a + nl * CACHE_LINE_SIZE - nl * CACHE_LINE_SIZE) with (nvm_free_addr a) in * by lia.
    destruct (Z.eqb_spec (nvm_free_addr a) 0); [lia|]. eexists _, _. split; [reflexivity|].
    unfold class_list. cbn [heads links]. by rewrite fn_lookup_insert.
  - intros b l Hl Hb Hin Hb'. unfold pool_deallocate. fold nl.
    destruct (Z.eqb_spec (b + 16) 0); [done|]. destruct (Z.ltb_spec pool_max_nlines nl); [lia|]. cbn [orb].
    unfold PPP_HEADER_SIZE. replace (b + 16 - 16) with b by lia. eexists; split; [reflexivity|].
    unfold class_list. cbn [heads links free_list]. rewrite !fn_lookup_insert. split_and!; [done..|].
    eapply free_list_ext; [|exact Hl]. intros x Hx. rewrite fn_lookup_insert_ne; [done|]. by intros ->.
Qed.
Lemma pool_correct_witness :
  exists p' a', pool_allocate 4096 320 {| heads := fun _ => 0; links := fun _ => 0 |} arena_init
    = Some (DATA_REGION_ADDR + skip_to_data + 16, p', a').
Proof.
  destruct (pool_correct 4096 320 {| heads := fun _ => 0; links := fun _ => 0 |} arena_init ltac:(lia)
    ltac:(vm_compute; congruence) ltac:(vm_compute; congruence) eq_refl eq_refl) as (_ & H & _).
  destruct (H eq_refl) as (p' & a' & E & _). exists p', a'. exact E.
Defined.

(** * Where the hypotheses fail *)

(** The hypotheses of rollback are needed.  The data region starts at 2^45, and
    [ppp_epoch] takes bits 40 to 47 of the logged pointer for high epoch bits: after two
    writes to such pointers a crash is not recognised and the failed epoch's value is read.
    And a value rolled back after one crash comes back after the next one, since only the
    last failed epoch is remembered. *)
Theorem ppp_limits :
  (let a := DATA_REGION_ADDR + 0x1000 in let b := DATA_REGION_ADDR + 0x2000 in
   let p := List.last (writes 3 2 3 [a] (enc 0 0 0 0 0)) (enc 0 0 0 0 0) in
   read 3 2 p = a /\
   let q := List.last (writes 3 2 4 [b; a; b] p) p in read 5 4 q = b) /\
  (let p := List.last (writes 3 2 4 [0x2000] (enc 3 0x1000 0 0 0)) (enc 3 0x1000 0 0 0) in
   read 5 4 p = 0x1000 /\ read 7 6 p = 0x2000).
Proof. vm_compute. done. Qed.
