(* ===== verification/Rcu.v ===== *)
(** kvthread.hh, kvthread.cc: read-copy-update reclamation.

    A thread queues the memory it retires in limbo groups: arrays in which a null
    pointer marks a change of epoch and every other element is a pointer to free once its
    epoch has passed.  The queue of a thread is the list of groups from [limbo_head_] to
    [limbo_tail_]; [spare] are the empty groups linked behind the tail.  Freeing is the
    list of (pointer, tag) pairs handed to [free_rcu]; what a callback pointer does when
    it is called is not part of the model. *)
From S2P Require Import Prelude Ppp.

(** An element: the pointer (0 for a marker) and the union's tag or epoch. *)
Definition limbo_element : Type := Z * Z.
Record limbo_group := { head_ : Z; tail_ : Z; epoch_ : Z; e_ : Z -> limbo_element }.
Definition capacity : Z := (4076 - 8 - 8) / 24.

Definition limbo_group_new (uninit : Z -> limbo_element) : limbo_group :=
  {| head_ := 0; tail_ := 0; epoch_ := 0; e_ := uninit |}.
Definition first_epoch (g : limbo_group) : Z := (e_ g (head_ g)).2.
Definition push_back (g : limbo_group) (ptr tag epoch : Z) : option limbo_group :=
  if capacity <? tail_ g + 2 then None
  else
    let '(e, ep, t) :=
      if (head_ g =? tail_ g) || negb (epoch_ g =? epoch)
      then (<[tail_ g := (0, epoch)]> (e_ g), epoch, tail_ g + 1)
      else (e_ g, epoch_ g, tail_ g) in
    Some {| head_ := head_ g; tail_ := t + 1; epoch_ := ep; e_ := <[t := (ptr, tag)]> e |}.

(** [mrcu_signed_epoch_type(a - b) < 0]. *)
Definition epoch_before (a b : Z) : bool := to_signed 64 (a - b) <? 0.

(** The loop of [clean_until]: head, elements, remaining count, epoch, freed so far. *)
Fixpoint clean_loop (fuel : nat) (epoch_bound tail h : Z) (e : Z -> limbo_element) (count epoch : Z)
    : Z * (Z -> limbo_element) * Z * list (Z * Z) :=
  match fuel with
  | O => (h, e, count, [])
  | S fuel =>
      if h =? tail then (h, e, count, [])
      else if negb ((e h).1 =? 0) then
        let count := count - 1 in
        if count =? 0 then (h, <[h := (0, epoch)]> e, 0, [e h])
        else let '(h', e', c', fr) := clean_loop fuel epoch_bound tail (h + 1) e count epoch in
             (h', e', c', e h :: fr)
      else
        let epoch := (e h).2 in
        if epoch_before epoch_bound epoch then (h, e, count, [])
        else clean_loop fuel epoch_bound tail (h + 1) e count epoch
  end.
Definition clean_until (g : limbo_group) (epoch_bound count : Z) : limbo_group * Z * list (Z * Z) :=
  let '(h, e, c, fr) :=
    clean_loop (S (Z.to_nat (tail_ g - head_ g))) epoch_bound (tail_ g) (head_ g) (e_ g) count 0 in
  let '(h, t) := if h =? tail_ g then (0, 0) else (h, tail_ g) in
  ({| head_ := h; tail_ := t; epoch_ := epoch_ g; e_ := e |}, c, fr).

Record limbo := { groups : list limbo_group; spare : list limbo_group; perform_gc_epoch_ : Z }.
Definition rcu_free_count : Z := 128.

(** [refill_rcu] and [record_rcu]. *)
Definition refill_rcu (uninit : Z -> limbo_element) (q : limbo) : limbo :=
  match spare q with
  | [] => {| groups := groups q ++ [limbo_group_new uninit]; spare := []; perform_gc_epoch_ := perform_gc_epoch_ q |}
  | g :: gs => {| groups := groups q ++ [g]; spare := gs; perform_gc_epoch_ := perform_gc_epoch_ q |}
  end.
Definition limbo_tail (q : limbo) : option limbo_group := groups q !! (List.length (groups q) - 1)%nat.
Definition set_tail (q : limbo) (g : limbo_group) : limbo :=
  {| groups := removelast (groups q) ++ [g]; spare := spare q; perform_gc_epoch_ := perform_gc_epoch_ q |}.
Definition record_rcu (uninit : Z -> limbo_element) (globalepoch ptr tag : Z) (q : limbo) : option limbo :=
  t ← limbo_tail q;
  let q := if capacity <? tail_ t + 2 then refill_rcu uninit q else q in
  t ← limbo_tail q;
  g ← push_back t ptr tag globalepoch;
  Some (set_tail q g).

(** The callers: a block goes to the limbo list with its number of lines in the low byte
    of the tag, a callback with the tag -1; [free_rcu] reads the class back from the tag
    and pushes the block on the pool, [None] standing for the call of the callback. *)
Definition memtag_pool_mask : Z := 0xFF.
Definition deallocate_rcu (uninit : Z -> limbo_element) (globalepoch ptr sz tag : Z) (q : limbo) : option limbo :=
  let nl := nlines sz 0 in
  if (ptr =? 0) || (pool_max_nlines <? nl) then None
  else record_rcu uninit globalepoch (ptr - PPP_HEADER_SIZE) (tag + nl) q.
Definition pool_deallocate_rcu := deallocate_rcu.
Definition rcu_register (uninit : Z -> limbo_element) (globalepoch cb : Z) (q : limbo) : option limbo :=
  record_rcu uninit globalepoch cb (-1) q.
Definition free_rcu (ptr tag : Z) (p : pool) : option pool :=
  if tag =? -1 then None
  else
    let nl := tag .& memtag_pool_mask in
    Some {| heads := <[nl - 1 := ptr]> (heads p); links := <[ptr := heads p (nl - 1)]> (links p) |}.

(** The cleaning loop of [hard_rcu_quiesce]: groups left, groups emptied in order,
    count left, freed. *)
Fixpoint quiesce_loop (gs : list limbo_group) (epoch_bound count : Z)
    : list limbo_group * list limbo_group * Z * list (Z * Z) :=
  match gs with
  | [] => ([], [], count, [])
  | g :: rest =>
      if count =? 0 then (gs, [], count, [])
      else
        let '(g, count, fr) := clean_until g epoch_bound count in
        if negb (head_ g =? tail_ g) then (g :: rest, [], count, fr)
        else
          let '(gs', es, count, fr') := quiesce_loop rest epoch_bound count in
          (gs', g :: es, count, fr ++ fr')
  end.
Definition hard_rcu_quiesce (active_epoch : Z) (q : limbo) : limbo * list (Z * Z) :=
  let epoch_bound := u64 (active_epoch - 1) in
  match groups q with
  | [] => (q, [])
  | g :: _ =>
      if (head_ g =? tail_ g) || epoch_before epoch_bound (first_epoch g) then
        ({| groups := groups q; spare := spare q; perform_gc_epoch_ := u64 (epoch_bound + 1) |}, [])
      else
        let '(gs, empties, count, fr) := quiesce_loop (groups q) epoch_bound rcu_free_count in
        let '(gs, sp) :=
          match gs with
          | [] => match empties with [] => ([], spare q) | x :: xs => ([x], xs ++ spare q) end
          | _ => (gs, empties ++ spare q)
          end in
        ({| groups := gs; spare := sp;
            perform_gc_epoch_ := if count =? 0 then epoch_bound else u64 (epoch_bound + 1) |}, fr)
  end.

(** A thread's [gc_epoch_] and the three entry points. *)
Record thread := { gc_epoch_ : Z; queue : limbo }.
Definition rcu_start (globalepoch : Z) (t : thread) : thread :=
  if gc_epoch_ t =? globalepoch then t else {| gc_epoch_ := globalepoch; queue := queue t |}.
Definition quiesce_if_due (active_epoch : Z) (t : thread) : thread * list (Z * Z) :=
  if perform_gc_epoch_ (queue t) =? active_epoch then (t, [])
  else let '(q, fr) := hard_rcu_quiesce active_epoch (queue t) in
       ({| gc_epoch_ := gc_epoch_ t; queue := q |}, fr).
Definition rcu_stop (active_epoch : Z) (t : thread) : thread * list (Z * Z) :=
  let '(t, fr) := quiesce_if_due active_epoch t in ({| gc_epoch_ := 0; queue := queue t |}, fr).
Definition rcu_quiesce (globalepoch active_epoch : Z) (t : thread) : thread * list (Z * Z) :=
  quiesce_if_due active_epoch (rcu_start globalepoch t).

(** [min_active_epoch] over the threads' [gc_epoch_]. *)
Definition min_active_epoch (globalepoch : Z) (gc_epochs : list Z) : Z :=
  foldl (fun ae te => if negb (te =? 0) && epoch_before te ae then te else ae) globalepoch gc_epochs.

(** * What is pending *)

Fixpoint contents (n : nat) (e : Z -> limbo_element) (i epoch : Z) : list (Z * Z * Z) :=
  match n with
  | O => []
  | S n => if (e i).1 =? 0 then contents n e (i + 1) (e i).2
           else (e i, epoch) :: contents n e (i + 1) epoch
  end.
Fixpoint walk_epoch (n : nat) (e : Z -> limbo_element) (i epoch : Z) : Z :=
  match n with
  | O => epoch
  | S n => walk_epoch n e (i + 1) (if (e i).1 =? 0 then (e i).2 else epoch)
  end.
Definition span (g : limbo_group) : nat := Z.to_nat (tail_ g - head_ g).
Definition pending (g : limbo_group) : list (Z * Z * Z) := contents (span g) (e_ g) (head_ g) 0.
Definition pending_queue (q : limbo) : list (Z * Z * Z) := List.concat (pending <$> groups q).

Record group_wf (g : limbo_group) : Prop := {
  gw_range : 0 <= head_ g <= tail_ g /\ tail_ g <= capacity;
  gw_marker : head_ g < tail_ g -> (e_ g (head_ g)).1 = 0;
  gw_epoch : head_ g < tail_ g -> walk_epoch (span g) (e_ g) (head_ g) 0 = epoch_ g;
  gw_empty : head_ g = tail_ g -> head_ g = 0 }.

Lemma contents_ext n e e' : forall i ep, (forall j, i <= j < i + Z.of_nat n -> e j = e' j) ->
  contents n e i ep = contents n e' i ep.
Proof.
  induction n as [|n IH]; intros i ep H; [done|]. cbn [contents]. rewrite (H i) by lia.
  rewrite !(IH (i + 1)) by (intros; apply H; lia). done.
Qed.
Lemma walk_epoch_ext n e e' : forall i ep, (forall j, i <= j < i + Z.of_nat n -> e j = e' j) ->
  walk_epoch n e i ep = walk_epoch n e' i ep.
Proof.
  induction n as [|n IH]; intros i ep H; [done|]. cbn [walk_epoch]. rewrite (H i) by lia.
  apply IH. intros; apply H; lia.
Qed.
Lemma contents_app n m e : forall i ep,
  contents (n + m) e i ep = contents n e i ep ++ contents m e (i + Z.of_nat n) (walk_epoch n e i ep).
Proof.
  induction n as [|n IH]; intros i ep; [by rewrite Z.add_0_r|]. cbn [contents walk_epoch Nat.add].
  replace (i + Z.of_nat (S n)) with (i + 1 + Z.of_nat n) by lia.
  destruct ((e i).1 =? 0); rewrite IH; done.
Qed.
Lemma walk_epoch_app n m e : forall i ep,
  walk_epoch (n + m) e i ep = walk_epoch m e (i + Z.of_nat n) (walk_epoch n e i ep).
Proof.
  induction n as [|n IH]; intros i ep; [by rewrite Z.add_0_r|]. cbn [walk_epoch Nat.add].
  replace (i + Z.of_nat (S n)) with (i + 1 + Z.of_nat n) by lia. apply IH.
Qed.

(** Retiring appends. *)
Lemma push_back_pending g ptr tag epoch : group_wf g -> ptr <> 0 -> tail_ g + 2 <= capacity ->
  exists g', push_back g ptr tag epoch = Some g' /\ group_wf g' /\
    pending g' = pending g ++ [(ptr, tag, epoch)].
Proof.
  intros [R M W E0] Hp Hc. unfold push_back. destruct (Z.ltb_spec capacity (tail_ g + 2)); [lia|].
  destruct ((head_ g =? tail_ g) || negb (epoch_ g =? epoch)) eqn:Ec.
  - eexists; split; [reflexivity|].
    set (e1 := <[tail_ g := (0, epoch)]> (e_ g)). set (e2 := <[tail_ g + 1 := (ptr, tag)]> e1).
    assert (Hlow : forall j, head_ g <= j < head_ g + Z.of_nat (span g) -> e2 j = e_ g j).
    { intros j Hj. unfold span in Hj. unfold e2, e1. by rewrite !fn_lookup_insert_ne by lia. }
    assert (He1 : e2 (tail_ g) = (0, epoch)).
    { unfold e2, e1. by rewrite fn_lookup_insert_ne, fn_lookup_insert by lia. }
    assert (He2 : e2 (tail_ g + 1) = (ptr, tag)) by (unfold e2; by rewrite fn_lookup_insert).
    assert (Hspan : Z.to_nat (tail_ g + 1 + 1 - head_ g) = (span g + 2)%nat) by (unfold span; lia).
    assert (Htail : head_ g + Z.of_nat (span g) = tail_ g) by (unfold span; lia).
    split.
    + split; cbn [head_ tail_ epoch_ e_]; [lia| |..]; try lia.
      * intros _. destruct (Z.eq_dec (head_ g) (tail_ g)) as [E|E]; [by rewrite E, He1|].
        rewrite Hlow by (unfold span; lia). apply M. lia.
      * intros _. unfold span at 1. cbn [head_ tail_]. rewrite Hspan, walk_epoch_app, Htail.
        cbn [walk_epoch]. rewrite He1, He2. cbn. destruct (Z.eqb_spec ptr 0); done.
    + unfold pending, span at 1. cbn [head_ tail_ e_]. rewrite Hspan, contents_app, Htail.
      rewrite (contents_ext (span g) e2 (e_ g)) by done. f_equal.
      cbn [contents]. rewrite He1, He2. cbn. by destruct (Z.eqb_spec ptr 0).
  - apply orb_false_iff in Ec as [E1 E2]. apply Z.eqb_neq in E1. apply negb_false_iff, Z.eqb_eq in E2.
    eexists; split; [reflexivity|]. set (e2 := <[tail_ g := (ptr, tag)]> (e_ g)).
    assert (Hlow : forall j, head_ g <= j < head_ g + Z.of_nat (span g) -> e2 j = e_ g j).
    { intros j Hj. unfold span in Hj. unfold e2. by rewrite !fn_lookup_insert_ne by lia. }
    assert (He2 : e2 (tail_ g) = (ptr, tag)) by (unfold e2; by rewrite fn_lookup_insert).
    assert (Hspan : Z.to_nat (tail_ g + 1 - head_ g) = (span g + 1)%nat) by (unfold span; lia).
    assert (Htail : head_ g + Z.of_nat (span g) = tail_ g) by (unfold span; lia).
    assert (Hwe : walk_epoch (span g) e2 (head_ g) 0 = epoch_ g).
    { rewrite (walk_epoch_ext _ e2 (e_ g)) by done. apply W. lia. }
    split.
    + split; cbn [head_ tail_ epoch_ e_]; [lia| |..]; try lia.
      * intros _. rewrite Hlow by (unfold span; lia). apply M. lia.
      * intros _. unfold span at 1. cbn [head_ tail_]. rewrite Hspan, walk_epoch_app, Htail, Hwe.
        cbn [walk_epoch]. rewrite He2. cbn. by destruct (Z.eqb_spec ptr 0).
    + unfold pending, span at 1. cbn [head_ tail_ e_]. rewrite Hspan, contents_app, Htail, Hwe.
      rewrite (contents_ext (span g) e2 (e_ g)) by done. f_equal.
      cbn [contents]. rewrite He2. cbn. destruct (Z.eqb_spec ptr 0); [done|]. by rewrite E2.
Qed.

(** ** The cleaning loop frees a prefix *)
Abbreviation freeable b := (fun x : Z * Z * Z => epoch_before b x.2 = false).

Definition clean_ok (b tail h : Z) (e : Z -> limbo_element) (count epoch : Z)
    (r : Z * (Z -> limbo_element) * Z * list (Z * Z)) : Prop :=
  let '(h', e', c', fr) := r in
  exists fr', fr = fr'.*1 /\ Forall (freeable b) fr' /\ 0 <= c' /\
    Z.of_nat (List.length fr) + c' = count /\ h <= h' <= tail /\
    contents (Z.to_nat (tail - h)) e h epoch
      = fr' ++ contents (Z.to_nat (tail - h')) e' h' 0 /\
    (h' < tail -> (e' h').1 = 0 /\
       walk_epoch (Z.to_nat (tail - h')) e' h' 0 = walk_epoch (Z.to_nat (tail - h)) e h epoch) /\
    (c' <> 0 -> h' < tail -> epoch_before b (e' h').2 = true) /\
    (c' = 0 -> h' < tail).

Lemma contents_marker n e i ep ep' : (e i).1 = 0 -> contents n e i ep = contents n e i ep' \/ n = O.
Proof. intros H. destruct n; [by right|]. left. cbn. by rewrite H. Qed.
Lemma walk_marker n e i ep ep' : (e i).1 = 0 -> n <> O -> walk_epoch n e i ep = walk_epoch n e i ep'.
Proof. intros H Hn. destruct n; [done|]. cbn. by rewrite H. Qed.

Lemma clean_loop_ok fuel b tail e : forall h count epoch,
  h <= tail -> 0 < count -> (Z.to_nat (tail - h) < fuel)%nat ->
  (h < tail -> (e h).1 = 0) \/ epoch_before b epoch = false ->
  clean_ok b tail h e count epoch (clean_loop fuel b tail h e count epoch).
Proof.
  induction fuel as [|fuel IH]; intros h count epoch Hh Hc Hf Hep; [lia|]. cbn [clean_loop].
  destruct (Z.eqb_spec h tail) as [->|Hne].
  { exists []. rewrite Z.sub_diag. cbn. split_and!; done || lia. }
  assert (Hn : Z.to_nat (tail - h) = S (Z.to_nat (tail - (h + 1)))) by lia.
  destruct (Z.eqb_spec (e h).1 0) as [Em|Em]; cbn [negb].
  - destruct (epoch_before b (e h).2) eqn:Eb.
    + exists []. rewrite Hn. cbn. rewrite Em. cbn. split_and!; done || lia.
    + specialize (IH (h + 1) count (e h).2 ltac:(lia) Hc ltac:(lia) (or_intror Eb)).
      destruct (clean_loop fuel b tail (h + 1) e count (e h).2) as [[[h' e'] c'] fr].
      destruct IH as (fr' & ? & ? & ? & ? & ? & HC & HW & ? & ?). exists fr'. rewrite Hn.
      cbn [contents walk_epoch]. rewrite Em. cbn [Z.eqb]. split_and!; done || lia.
  - destruct Hep as [Hep|Hep]; [lia|].
    destruct (Z.eqb_spec (count - 1) 0) as [Ec|Ec].
    + exists [(e h, epoch)]. rewrite Hn. cbn [contents walk_epoch].
      destruct (Z.eqb_spec (e h).1 0); [done|]. rewrite fn_lookup_insert. cbn.
      assert (He : forall j, h + 1 <= j < h + 1 + Z.of_nat (Z.to_nat (tail - (h + 1))) ->
                     e j = <[h:=(0, epoch)]> e j).
      { intros j Hj. by rewrite fn_lookup_insert_ne by lia. }
      split_and!; try done; try lia.
      * by repeat constructor.
      * f_equal. by apply contents_ext.
      * intros _. split; [done|]. symmetry. by apply walk_epoch_ext.
    + specialize (IH (h + 1) (count - 1) epoch ltac:(lia) ltac:(lia) ltac:(lia) (or_intror Hep)).
      destruct (clean_loop fuel b tail (h + 1) e (count - 1) epoch) as [[[h' e'] c'] fr].
      destruct IH as (fr' & -> & ? & ? & ? & ? & HC & HW & ? & ?).
      exists ((e h, epoch) :: fr'). rewrite Hn. cbn [contents walk_epoch].
      destruct (Z.eqb_spec (e h).1 0); [done|]. rewrite HC. cbn [List.length] in *.
      split_and!; done || lia || by constructor.
Qed.

Lemma clean_until_ok g b count g' c' fr :
  group_wf g -> 0 < count -> clean_until g b count = (g', c', fr) ->
  exists fr', fr = fr'.*1 /\ Forall (freeable b) fr' /\ 0 <= c' /\
    Z.of_nat (List.length fr) + c' = count /\ pending g = fr' ++ pending g' /\ group_wf g' /\
    (c' <> 0 -> head_ g' <> tail_ g' -> epoch_before b (first_epoch g') = true) /\
    (c' = 0 -> head_ g' <> tail_ g').
Proof.
  intros [R M W E0] Hc. unfold clean_until.
  pose proof (clean_loop_ok (S (Z.to_nat (tail_ g - head_ g))) b (tail_ g) (e_ g) (head_ g) count 0
    ltac:(lia) Hc ltac:(lia) (or_introl M)) as H.
  destruct (clean_loop _ _ _ _ _ _ _) as [[[h' e'] c2] fr2].
  destruct H as (fr' & -> & ? & ? & ? & ? & HC & HW & HB & H0).
  destruct (Z.eqb_spec h' (tail_ g)) as [->|Hne]; intros [= <- <- <-]; exists fr'.
  - unfold pending, span, first_epoch. cbn [head_ tail_ e_ epoch_]. rewrite HC, Z.sub_diag. cbn.
    split_and!; try done; try lia.
  - specialize (HW ltac:(lia)) as [HW1 HW2].
    unfold pending, first_epoch, span. cbn [head_ tail_ e_ epoch_]. rewrite HC.
    split_and!; try done; try lia.
    + split; cbn [head_ tail_ e_ epoch_]; [lia|done| |lia]. intros _. unfold span; cbn [head_ tail_]. rewrite HW2. apply W. lia.
    + intros. apply HB; lia.
Qed.

(** ** The queue *)
Definition group_empty (g : limbo_group) : Prop := head_ g = 0 /\ tail_ g = 0.
Record limbo_wf (q : limbo) : Prop := {
  lw_groups : Forall group_wf (groups q);
  lw_some : groups q <> [];
  lw_spare : Forall group_empty (spare q) }.

Lemma group_empty_wf g : group_empty g -> group_wf g.
Proof.
  assert (0 <= capacity) by (vm_compute; discriminate).
  intros [H1 H2]. split; intros; lia.
Qed.
Lemma group_empty_pending g : group_empty g -> pending g = [].
Proof. intros [H T]. unfold pending, span. by rewrite H, T. Qed.
Lemma empty_of_wf g : group_wf g -> head_ g = tail_ g -> group_empty g.
Proof. intros W E. pose proof (gw_empty _ W E). split; lia. Qed.

Definition pending_groups (gs : list limbo_group) : list (Z * Z * Z) := List.concat (pending <$> gs).
Lemma pending_groups_app a c : pending_groups (a ++ c) = pending_groups a ++ pending_groups c.
Proof. unfold pending_groups. by rewrite fmap_app, concat_app. Qed.

Lemma quiesce_loop_ok b : forall gs count gs' es c' fr, Forall group_wf gs -> 0 < count ->
  quiesce_loop gs b count = (gs', es, c', fr) ->
  exists fr', fr = fr'.*1 /\ Forall (freeable b) fr' /\ 0 <= c' /\
    Z.of_nat (List.length fr) + c' = count /\
    pending_groups gs = fr' ++ pending_groups gs' /\ Forall group_wf gs' /\ Forall group_empty es /\
    (List.length gs = List.length gs' + List.length es)%nat /\
    (c' <> 0 -> match gs' with [] => True
                | g :: _ => head_ g <> tail_ g /\ epoch_before b (first_epoch g) = true end) /\
    (c' = 0 -> gs' <> []).
Proof.
  induction gs as [|g gs IH]; intros count gs' es c' fr HF Hc; cbn [quiesce_loop].
  { intros [= <- <- <- <-]. exists []. cbn. split_and!; done || lia. }
  apply Forall_cons_1 in HF as [Wg HF]. destruct (Z.eqb_spec count 0); [lia|].
  destruct (clean_until g b count) as [[g1 c1] fr1] eqn:Eg.
  destruct (clean_until_ok _ _ _ _ _ _ Wg Hc Eg) as (f1 & -> & F1 & ? & Hlen & P1 & W1 & B1 & Z1).
  destruct (Z.eqb_spec (head_ g1) (tail_ g1)) as [E|E]; cbn [negb].
  - assert (0 < c1) by (destruct (Z.eq_dec c1 0) as [Z|]; [by specialize (Z1 Z)|lia]).
    destruct (quiesce_loop gs b c1) as [[[gs2 es2] c2] fr2] eqn:El. intros [= <- <- <- <-].
    destruct (IH _ _ _ _ _ HF H0 El) as (f2 & -> & F2 & ? & Hlen2 & P2 & W2 & E2 & L2 & B2 & Z2).
    exists (f1 ++ f2). rewrite fmap_app. change (g :: gs) with ([g] ++ gs).
    rewrite pending_groups_app, P2.
    pose proof (group_empty_pending _ (empty_of_wf _ W1 E)) as Hp.
    split_and!; try done; try lia.
    + by apply Forall_app.
    + rewrite length_app. lia.
    + unfold pending_groups at 1. cbn. rewrite app_nil_r, P1, Hp, app_nil_r. by rewrite <- app_assoc.
    + constructor; [by apply empty_of_wf|done].
    + rewrite length_app. cbn. lia.
  - intros [= <- <- <- <-]. exists f1. split_and!; try done; try lia.
    + unfold pending_groups. cbn. by rewrite P1, <- app_assoc.
    + by constructor.
    + intros. split; [done|]. by apply B1.
Qed.

(** [hard_rcu_quiesce] and the queue: it frees a prefix of what is pending, in order, and
    keeps the groups. *)
Definition quiesced (b : Z) (q q' : limbo) (fr : list (Z * Z)) : Prop :=
  limbo_wf q' /\
  (List.length (groups q') + List.length (spare q') = List.length (groups q) + List.length (spare q))%nat /\
  exists fr', fr = fr'.*1 /\ Forall (freeable b) fr' /\ (List.length fr <= 128)%nat /\
    pending_queue q = fr' ++ pending_queue q' /\
    ((List.length fr < 128)%nat ->
       perform_gc_epoch_ q' = u64 (b + 1) /\
       match groups q' with
       | [] => False
       | g :: _ => head_ g = tail_ g \/ epoch_before b (first_epoch g) = true
       end) /\
    (List.length fr = 128%nat -> perform_gc_epoch_ q' = b).

Lemma hard_rcu_quiesce_ok active q q' fr : limbo_wf q -> hard_rcu_quiesce active q = (q', fr) ->
  quiesced (u64 (active - 1)) q q' fr.
Proof.
  intros [HG HN HS]. unfold hard_rcu_quiesce. set (b := u64 (active - 1)).
  destruct (groups q) as [|g gs] eqn:EG; [done|]. rewrite <- EG in *.
  destruct ((head_ g =? tail_ g) || epoch_before b (first_epoch g)) eqn:EB.
  { intros [= <- <-]. split_and!; [by split|done|]. exists []. cbn.
    apply orb_true_iff in EB. rewrite Z.eqb_eq in EB. split_and!; try done; try lia.
    intros _. by rewrite EG. }
  destruct (quiesce_loop (groups q) b rcu_free_count) as [[[gs' es] c'] fr0] eqn:EL.
  destruct (quiesce_loop_ok b (groups q) rcu_free_count _ _ _ _ HG eq_refl EL)
    as (fr' & -> & F & Hc & Hlen & HP & HW & HE & HL & HB & HZ).
  unfold rcu_free_count in *.
  destruct gs' as [|g' gs'].
  - assert (Hc0 : c' <> 0) by (intros Z; by specialize (HZ Z)).
    destruct es as [|x xs]; [rewrite EG in HL; done|]. apply Forall_cons_1 in HE as [Hx HE].
    intros [= <- <-]. split_and!.
    + split; cbn; [|done|by apply Forall_app]. constructor; [by apply group_empty_wf|done].
    + cbn [groups spare List.length]. rewrite length_app. cbn in HL. lia.
    + exists fr'. cbn [groups perform_gc_epoch_ pending_queue]. split_and!; try done; try lia.
      * unfold pending_queue. cbn. rewrite (group_empty_pending _ Hx). exact HP.
      * intros _. destruct (Z.eqb_spec c' 0); [done|]. split; [done|]. left. destruct Hx; lia.
  - intros [= <- <-]. split_and!.
    + split; cbn; [done..|by apply Forall_app].
    + cbn [groups spare]. rewrite length_app. lia.
    + exists fr'. cbn [groups perform_gc_epoch_]. split_and!; try done; try lia.
      * intros. destruct (Z.eqb_spec c' 0); [lia|]. split; [done|]. right. by apply HB.
      * intros. destruct (Z.eqb_spec c' 0); [done|lia].
Qed.

(** Retiring: the pointer becomes the last pending one. *)
Lemma limbo_split q : groups q <> [] -> exists gs t, groups q = gs ++ [t] /\ limbo_tail q = Some t.
Proof.
  intros H. destruct (exists_last H) as (gs & t & E). exists gs, t. split; [done|].
  unfold limbo_tail. rewrite E, length_app. cbn. rewrite lookup_app_r by lia.
  by replace (_ - _)%nat with 0%nat by lia.
Qed.

Lemma record_rcu_ok uninit ge ptr tag q : limbo_wf q -> ptr <> 0 ->
  exists q', record_rcu uninit ge ptr tag q = Some q' /\ limbo_wf q' /\
    pending_queue q' = pending_queue q ++ [(ptr, tag, ge)].
Proof.
  intros [HG HN HS] Hp. destruct (limbo_split q HN) as (gs & t & E & ET).
  assert (Hstep : forall q1 gs1 t1, groups q1 = gs1 ++ [t1] -> limbo_tail q1 = Some t1 ->
    limbo_wf q1 -> tail_ t1 + 2 <= capacity -> pending_queue q1 = pending_queue q ->
    exists q', (t ← limbo_tail q1; g ← push_back t ptr tag ge; Some (set_tail q1 g)) = Some q' /\
      limbo_wf q' /\ pending_queue q' = pending_queue q ++ [(ptr, tag, ge)]).
  { intros q1 gs1 t1 E1 ET1 [G1 N1 S1] Hc HP1. rewrite ET1. cbn.
    rewrite E1 in G1. apply Forall_app in G1 as [G1 G1t]. apply Forall_cons_1 in G1t as [W1 _].
    destruct (push_back_pending t1 ptr tag ge W1 Hp Hc) as (g' & -> & W' & P'). cbn.
    eexists; split; [done|]. rewrite <- HP1. unfold set_tail, pending_queue. rewrite E1, removelast_last.
    fold (pending_groups (gs1 ++ [t1])). cbn [groups]. fold (pending_groups (gs1 ++ [g'])).
    rewrite !pending_groups_app. unfold pending_groups at 2 4. cbn. rewrite P', !app_nil_r, <- app_assoc.
    split; [|done]. split; cbn; [|by destruct gs1|done]. apply Forall_app; split; [done|by constructor]. }
  unfold record_rcu. rewrite ET. cbn. destruct (Z.ltb_spec capacity (tail_ t + 2)) as [Hlt|Hge].
  - unfold refill_rcu. destruct (spare q) as [|s sp] eqn:ES.
    + eapply (Hstep _ (groups q) (limbo_group_new uninit)); [done| | |vm_compute; discriminate|].
      * unfold limbo_tail. cbn. rewrite length_app, lookup_app_r by (cbn; lia). cbn.
        by replace (_ - _)%nat with 0%nat by lia.
      * split; cbn; [|by destruct (groups q)|done]. apply Forall_app; split; [done|].
        constructor; [by apply group_empty_wf|done].
      * unfold pending_queue. cbn. fold (pending_groups (groups q ++ [limbo_group_new uninit])).
        rewrite pending_groups_app. unfold pending_groups. cbn. by rewrite !app_nil_r.
    + apply Forall_cons_1 in HS as [Hs HS].
      eapply (Hstep _ (groups q) s); [done| | |destruct Hs as [_ ->]; vm_compute; discriminate|].
      * unfold limbo_tail. cbn. rewrite length_app, lookup_app_r by (cbn; lia). cbn.
        by replace (_ - _)%nat with 0%nat by lia.
      * split; cbn; [|by destruct (groups q)|done]. apply Forall_app; split; [done|].
        constructor; [by apply group_empty_wf|done].
      * unfold pending_queue. cbn. fold (pending_groups (groups q ++ [s])).
        rewrite pending_groups_app. unfold pending_groups at 2. cbn.
        by rewrite (group_empty_pending _ Hs), !app_nil_r.
  - by eapply (Hstep q gs t).
Qed.

(** [min_active_epoch] is a lower bound of the epochs of the running threads. *)
Definition epoch_ok (x : Z) : Prop := 0 <= x < 2 ^ 63.
Lemma epoch_before_lt a b : epoch_ok a -> epoch_ok b -> epoch_before a b = (a <? b).
Proof.
  unfold epoch_ok, epoch_before, to_signed, wrap. intros Ha Hb.
  change (2 ^ (64 - 1)) with (2 ^ 63).
  destruct (Z.ltb_spec a b).
  - rewrite <- (Z.mod_unique (a - b) (2 ^ 64) (-1) (a - b + 2 ^ 64)) by lia.
    destruct (Z.ltb_spec (a - b + 2 ^ 64) (2 ^ 63)); zcases.
  - rewrite Z.mod_small by lia. destruct (Z.ltb_spec (a - b) (2 ^ 63)); zcases.
Qed.

Lemma min_active_epoch_le gs : forall ae te, epoch_ok ae -> Forall epoch_ok gs ->
  (te = ae \/ (te ∈ gs /\ te <> 0)) ->
  epoch_ok (min_active_epoch ae gs) /\ min_active_epoch ae gs <= te.
Proof.
  unfold min_active_epoch.
  induction gs as [|g gs IH]; intros ae te Ha HF Hte; cbn [foldl].
  { destruct Hte as [->|[H _]]; [split; [done|lia]|by apply elem_of_nil in H]. }
  apply Forall_cons_1 in HF as [Hg HF].
  destruct (Z.eqb_spec g 0) as [E|E]; cbn [negb andb].
  - apply IH; [done..|]. destruct Hte as [?|[Ht ?]]; [by left|right].
    split; [|done]. apply elem_of_cons in Ht as [?|?]; [lia|done].
  - rewrite epoch_before_lt by done. destruct (Z.ltb_spec g ae).
    + destruct (IH g g Hg HF (or_introl eq_refl)) as [H1 H2].
      destruct Hte as [->|[Ht Hn]]; [split; [done|lia]|].
      apply elem_of_cons in Ht as [->|Ht]; [done|]. apply IH; [done..|by right].
    + destruct (IH ae ae Ha HF (or_introl eq_refl)) as [H1 H2].
      destruct Hte as [->|[Ht Hn]]; [done|].
      apply elem_of_cons in Ht as [->|Ht]; [split; [done|lia]|]. apply IH; [done..|by right].
Qed.

Lemma min_active_epoch_pos gs : forall ae, 0 < ae -> Forall epoch_ok gs -> 0 < min_active_epoch ae gs.
Proof.
  unfold min_active_epoch. induction gs as [|g gs IH]; intros ae Ha HF; [done|]. cbn [foldl].
  apply Forall_cons_1 in HF as [Hg HF].
  destruct (negb (g =? 0) && epoch_before g ae) eqn:E; [|by apply IH]. boolify.
  apply IH; [|done]. unfold epoch_ok in Hg. lia.
Qed.

(** A history of one thread: retirements ([deallocate_rcu], [rcu_register]) in the epoch
    read at the time, and calls of [hard_rcu_quiesce] with the [active_epoch] they read. *)
Inductive rcu_op := Retire (ptr tag ge : Z) | Quiesce (active : Z).
Definition rcu_step (uninit : Z -> limbo_element) (o : rcu_op) (q : limbo) : option (limbo * list (Z * Z)) :=
  match o with
  | Retire ptr tag ge => q' ← record_rcu uninit ge ptr tag q; Some (q', [])
  | Quiesce active => Some (hard_rcu_quiesce active q)
  end.
Fixpoint rcu_run (uninit : Z -> limbo_element) (os : list rcu_op) (q : limbo) : option (limbo * list (Z * Z)) :=
  match os with
  | [] => Some (q, [])
  | o :: os =>
      '(q, fr) ← rcu_step uninit o q;
      '(q, fr') ← rcu_run uninit os q;
      Some (q, fr ++ fr')
  end.
Definition retired_by (o : rcu_op) : list (Z * Z * Z) :=
  match o with Retire p t ge => [(p, t, ge)] | Quiesce _ => [] end.
Definition nonnull (o : rcu_op) : Prop := match o with Retire p _ _ => p <> 0 | Quiesce _ => True end.
Definition limbo_init (uninit : Z -> limbo_element) : limbo :=
  {| groups := [limbo_group_new uninit]; spare := []; perform_gc_epoch_ := 0 |}.

Lemma rcu_step_ok uninit o q : limbo_wf q -> nonnull o ->
  exists q' fr', rcu_step uninit o q = Some (q', fr'.*1) /\ limbo_wf q' /\
    pending_queue q ++ retired_by o = fr' ++ pending_queue q'.
Proof.
  intros W N. destruct o as [p t ge|a]; cbn [rcu_step retired_by].
  - destruct (record_rcu_ok uninit ge p t q W N) as (q' & -> & W' & E).
    exists q', []. cbn. by rewrite E.
  - destruct (hard_rcu_quiesce a q) as [q' fr] eqn:E.
    destruct (hard_rcu_quiesce_ok _ _ _ _ W E) as (W' & _ & fr' & -> & _ & _ & HQ & _).
    exists q', fr'. by rewrite app_nil_r.
Qed.

(** A block retired by [deallocate_rcu] with a tag whose low byte is clear and then freed
    is put back where [pool_deallocate] would put it. *)
Lemma free_rcu_deallocate ptr sz tag p : 0 <= tag -> tag mod 256 = 0 -> 0 <= sz -> ptr <> 0 ->
  nlines sz 0 <= pool_max_nlines ->
  free_rcu (ptr - PPP_HEADER_SIZE) (tag + nlines sz 0) p = pool_deallocate ptr sz p.
Proof.
  intros Ht Hm Hs Hp Hn. assert (0 <= nlines sz 0 <= 70).
  { split; [|exact Hn]. unfold nlines, PPP_HEADER_SIZE, CACHE_LINE_SIZE. Z.div_mod_to_equations. lia. }
  unfold free_rcu, pool_deallocate, memtag_pool_mask. change 255 with (Z.ones 8).
  rewrite Z.land_ones by lia. change (2 ^ 8) with 256.
  replace ((tag + nlines sz 0) mod 256) with (nlines sz 0) by (Z.div_mod_to_equations; lia).
  destruct (Z.eqb_spec ptr 0); [done|]. destruct (Z.ltb_spec pool_max_nlines (nlines sz 0)); [lia|].
  destruct (Z.eqb_spec (tag + nlines sz 0) (-1)); [lia|]. done.
Qed.

(** ** Properties *)

(** [C13]. The grace period.  With [active_epoch] the minimum over the threads'
    [gc_epoch_] ([min_active_epoch], which mtd stores into [active_epoch]), a call of
    [hard_rcu_quiesce] frees, in the order of retirement, a prefix of the thread's pending
    pointers of at most 128 elements; every one of them was retired in an epoch that
    precedes the epoch in which any running thread ([gc_epoch_] not 0) started, so no
    thread that may still hold it is running; nothing is freed twice or forgotten (freed
    followed by still pending is what was pending); and when fewer than 128 were freed,
    either nothing is left in the first group or its first epoch is not before
    [active_epoch], and the next call is put off until [active_epoch] changes. *)
Theorem rcu_grace ge gcs q q' fr : 0 < ge -> epoch_ok ge -> Forall epoch_ok gcs -> limbo_wf q ->
  Forall (fun x => epoch_ok x.2) (pending_queue q) ->
  hard_rcu_quiesce (min_active_epoch ge gcs) q = (q', fr) ->
  limbo_wf q' /\
  exists fr', fr = fr'.*1 /\ pending_queue q = fr' ++ pending_queue q' /\
    (List.length fr <= 128)%nat /\
    Forall (fun x => x.2 < ge /\ forall te, te ∈ gcs -> te <> 0 -> x.2 < te) fr' /\
    ((List.length fr < 128)%nat -> perform_gc_epoch_ q' = min_active_epoch ge gcs).
Proof.
  intros Hge Ge HF HW HP E. pose proof (min_active_epoch_pos gcs ge Hge HF) as Hpos.
  destruct (min_active_epoch_le gcs ge ge Ge HF (or_introl eq_refl)) as [Gm Hm].
  apply hard_rcu_quiesce_ok in E; [|done]. destruct E as (W' & _ & fr' & -> & Hf & ? & HQ & HL & _).
  assert (Hb : u64 (min_active_epoch ge gcs - 1) = min_active_epoch ge gcs - 1).
  { unfold epoch_ok in Gm. apply wrap_small. lia. }
  rewrite Hb in *. split; [done|]. exists fr'. split_and!; try done.
  - rewrite HQ in HP. apply Forall_app in HP as [HP _].
    rewrite Forall_forall in Hf, HP. apply Forall_forall. intros x Hx.
    specialize (Hf x Hx). specialize (HP x Hx). cbn in Hf.
    rewrite epoch_before_lt in Hf; [|unfold epoch_ok in *; lia|done].
    apply Z.ltb_ge in Hf. split; [lia|]. intros te Ht Hn.
    destruct (min_active_epoch_le gcs ge te Ge HF (or_intror (conj Ht Hn))). lia.
  - intros Hlt. destruct (HL Hlt) as [-> _]. unfold epoch_ok in Gm. rewrite wrap_small; lia.
Qed.

Definition wit_limbo : limbo :=
  {| groups := [{| head_ := 0; tail_ := 5; epoch_ := 4;
                   e_ := fun i => if i =? 0 then (0, 2) else if i =? 1 then (1001, 16)
                                  else if i =? 2 then (1002, 16) else if i =? 3 then (0, 4) else (1003, 16) |}];
     spare := []; perform_gc_epoch_ := 0 |}.
Lemma rcu_grace_witness :
  (hard_rcu_quiesce (min_active_epoch 6 [0; 4; 6]) wit_limbo).2 = [(1001, 16); (1002, 16)] /\
  limbo_wf (hard_rcu_quiesce (min_active_epoch 6 [0; 4; 6]) wit_limbo).1.
Proof.
  split; [reflexivity|].
  eapply (rcu_grace 6 [0; 4; 6] wit_limbo _ _); [lia|unfold epoch_ok; lia| | | |apply surjective_pairing].
  - repeat (apply Forall_cons_2; [unfold epoch_ok; lia|]). by constructor.
  - split; [|done|by constructor]. constructor; [|by constructor].
    split; cbn; [unfold capacity; Z.div_mod_to_equations; lia|done|done|lia].
  - change (pending_queue wit_limbo) with [((1001, 16), 2); ((1002, 16), 2); ((1003, 16), 4)].
    repeat (apply Forall_cons_2; [unfold epoch_ok; cbn; lia|]). by constructor.
Defined.

(** The limbo queue is a queue.  Starting from an empty limbo list, whatever a
    thread retires (no null pointer) and however its retirements and collections
    interleave, across group boundaries, reused groups, epoch changes and collections cut
    short by the limit of 128: no [push_back] runs out of room, and the pointers freed so far, in order, followed
    by the pointers still pending are exactly the pointers retired, in order: each is
    freed at most once and none is lost. *)
Theorem rcu_fifo uninit os : Forall nonnull os ->
  exists q' fr', rcu_run uninit os (limbo_init uninit) = Some (q', fr'.*1) /\ limbo_wf q' /\
    List.concat (retired_by <$> os) = fr' ++ pending_queue q'.
Proof.
  intros HN. set (q0 := limbo_init uninit).
  assert (W : limbo_wf q0).
  { split; [|done|by constructor]. constructor; [by apply group_empty_wf|by constructor]. }
  change (List.concat (retired_by <$> os)) with (pending_queue q0 ++ List.concat (retired_by <$> os)).
  clearbody q0. revert q0 W. induction HN as [|o os Ho HN IH]; intros q W; cbn [rcu_run fmap list_fmap].
  { exists q, []. by rewrite app_nil_r. }
  destruct (rcu_step_ok uninit o q W Ho) as (q1 & f1 & -> & W1 & P1). cbn [mbind option_bind].
  destruct (IH q1 W1) as (q2 & f2 & E2 & W2 & P2). exists q2, (f1 ++ f2). cbn. rewrite E2. cbn.
  rewrite fmap_app. split_and!; [done..|].
  rewrite (app_assoc (pending_queue q)), P1, <- !app_assoc. by rewrite P2.
Qed.
Lemma rcu_fifo_witness :
  exists q' fr', rcu_run (fun _ => (0, 0)) [Retire 5 1 3; Quiesce 9; Retire 6 1 9] (limbo_init (fun _ => (0, 0)))
    = Some (q', fr'.*1) /\ limbo_wf q' /\ [(5, 1, 3); (6, 1, 9)] = fr' ++ pending_queue q'.
Proof.
  apply (rcu_fifo (fun _ => (0, 0)) [Retire 5 1 3; Quiesce 9; Retire 6 1 9]). repeat constructor; discriminate.
Defined.
