(* ===== verification/GlobalFlush.v ===== *)
(** incll_gf.hh, incll_globals.cc, mttest.cc, incll_barrier.hh: advancing the epoch.

    A global flush writes all cache lines back, so that the memory of that moment becomes the
    state that a crash returns to; then every thread drops its undo log ([checkpoint]).  There
    are two protocols.  [advance_epoch] runs between the phases of a test, between two
    barriers; [set_global_epoch] runs inside a phase, and the other threads meet it in
    [ack_flush].  Each is a step function of one thread at the grain of single accesses to
    shared variables; a run interleaves the threads in any order.  Memory is sequentially
    consistent; POSIX semaphores and barriers behave as documented.

    [Store] has what the protocols protect: nodes with the epoch they were last logged in, the
    logs, and the memory of the last flush.  A node is an integer and so is its content. *)
From S2P Require Import Prelude.
#[local] Open Scope nat_scope.

Module Store.

(** [dirty] are the nodes that changed since the last flush, [image] the memory it made
    persistent; a record is the thread that owns the log, the node and its old content. *)
Record nvstore := {
  globalepoch : Z; loggedepoch : gmap Z Z; records : list (nat * Z * option Z);
  mem : gmap Z Z; dirty : gset Z; image : gmap Z Z }.

Definition fresh : nvstore :=
  {| globalepoch := 1; loggedepoch := ∅; records := []; mem := ∅; dirty := ∅; image := ∅ |}.

Definition record_node (i : nat) (x : Z) (s : nvstore) : nvstore :=
  if decide (loggedepoch s !! x = Some (globalepoch s)) then s
  else {| globalepoch := globalepoch s; loggedepoch := <[x := globalepoch s]> (loggedepoch s);
          records := records s ++ [(i, x, mem s !! x)];
          mem := mem s; dirty := dirty s; image := image s |}.
(** A writer locks the node with [lock_persistent] and stores. *)
Definition change (i : nat) (x v : Z) (s : nvstore) : nvstore :=
  let s := record_node i x s in
  {| globalepoch := globalepoch s; loggedepoch := loggedepoch s; records := records s;
     mem := <[x := v]> (mem s); dirty := {[x]} ∪ dirty s; image := image s |}.
Definition flush_ (s : nvstore) : nvstore :=
  {| globalepoch := globalepoch s; loggedepoch := loggedepoch s; records := records s;
     mem := mem s; dirty := ∅; image := mem s |}.
Definition checkpoint (i : nat) (s : nvstore) : nvstore :=
  {| globalepoch := globalepoch s; loggedepoch := loggedepoch s;
     records := filter (fun r => r.1.1 <> i) (records s);
     mem := mem s; dirty := dirty s; image := image s |}.
Definition set_epoch (e : Z) (s : nvstore) : nvstore :=
  {| globalepoch := e; loggedepoch := loggedepoch s; records := records s;
     mem := mem s; dirty := dirty s; image := image s |}.

(** [undo]: every active record is copied back. *)
Definition undo (rs : list (nat * Z * option Z)) (m : gmap Z Z) : gmap Z Z :=
  foldl (fun m r => partial_alter (fun _ => r.2) r.1.2 m) m rs.
(** A crash leaves the nodes that did not change as the last flush wrote them, and the others
    in any state. *)
Definition crash (s : nvstore) (m : gmap Z Z) : Prop := forall x, x ∉ dirty s -> m !! x = image s !! x.
Definition recoverable (s : nvstore) : Prop := forall m, crash s m -> undo (records s) m = image s.

(** Every node that changed since the flush has its content of that time in a log. *)
Record logged (s : nvstore) : Prop := {
  lg_dirty : forall x, x ∈ dirty s -> loggedepoch s !! x = Some (globalepoch s);
  lg_record : forall x, loggedepoch s !! x = Some (globalepoch s) ->
    exists i, (i, x, image s !! x) ∈ records s;
  lg_image : forall i x v, (i, x, v) ∈ records s -> v = image s !! x;
  lg_clean : forall x, x ∉ dirty s -> mem s !! x = image s !! x;
  lg_past : forall x e, loggedepoch s !! x = Some e -> (e <= globalepoch s)%Z }.

Lemma undo_lookup rs m x :
  (exists r, r ∈ rs /\ r.1.2 = x /\ undo rs m !! x = r.2) \/
  ((forall r, r ∈ rs -> r.1.2 <> x) /\ undo rs m !! x = m !! x).
Proof.
  revert m. induction rs as [|r rs IH]; intros m; simpl; [right; split; [by intros ? ?%not_elem_of_nil | done]|].
  destruct (IH (partial_alter (fun _ => r.2) r.1.2 m)) as [(r' & Hr & Hx & E)|[Hno E]].
  - left. exists r'. by split_and!; [right | |].
  - destruct (decide (r.1.2 = x)) as [<-|N].
    + left. exists r. split_and!; [left | done | by rewrite E, lookup_partial_alter_eq].
    + right. split; [intros r' [->|Hr]%elem_of_cons; auto | by rewrite E, lookup_partial_alter_ne].
Qed.

Lemma logged_recoverable s : logged s -> recoverable s.
Proof.
  intros L m C. apply map_eq. intros x.
  destruct (undo_lookup (records s) m x) as [([[i y] v] & Hr & Hx & ->)|[Hno ->]]; simpl in *.
  - subst. by eapply lg_image.
  - apply C. intros D. destruct (lg_record _ L x) as [i Hi]; [by apply (lg_dirty _ L)|].
    by apply (Hno _ Hi).
Qed.

Lemma logged_fresh : logged fresh.
Proof. split; simpl; intros; set_solver. Qed.

Lemma logged_record_node i x s : logged s -> logged (record_node i x s).
Proof.
  intros L. unfold record_node. destruct (decide _) as [|N]; [done|].
  assert (D : x ∉ dirty s) by (intros D; by apply N, (lg_dirty _ L)).
  split; simpl.
  - intros y Hy. destruct (decide (x = y)) as [<-|]; [by rewrite lookup_insert_eq|].
    rewrite lookup_insert_ne by done. by apply (lg_dirty _ L).
  - intros y. destruct (decide (x = y)) as [<-|].
    + intros _. exists i. rewrite (lg_clean _ L x D). set_solver.
    + rewrite lookup_insert_ne by done. intros [j Hj]%(lg_record _ L). exists j. set_solver.
  - intros j y v. rewrite elem_of_app, list_elem_of_singleton. intros [H|[= -> -> ->]].
    + by apply (lg_image _ L j).
    + by apply (lg_clean _ L).
  - apply (lg_clean _ L).
  - intros y e. destruct (decide (x = y)) as [<-|].
    + rewrite lookup_insert_eq. intros [= ->]. lia.
    + rewrite lookup_insert_ne by done. apply (lg_past _ L).
Qed.

Lemma record_node_logs i x s : loggedepoch (record_node i x s) !! x = Some (globalepoch (record_node i x s)).
Proof. unfold record_node. destruct (decide _) as [|N]; [done|]. simpl. by rewrite lookup_insert_eq. Qed.

Lemma logged_change i x v s : logged s -> logged (change i x v s).
Proof.
  intros L%(logged_record_node i x). split; simpl; try apply L.
  - intros y [->%elem_of_singleton|D]%elem_of_union; [apply record_node_logs | by apply (lg_dirty _ L)].
  - intros y Hy. rewrite lookup_insert_ne by set_solver. apply (lg_clean _ L). set_solver.
Qed.

(** The state between the flush and the last checkpoint of a protocol that first flushes,
    then advances the epoch, then lets each thread drop its log. *)
Record advanced (s : nvstore) : Prop := {
  ad_dirty : dirty s = ∅;
  ad_image : image s = mem s;
  ad_past : forall x e, loggedepoch s !! x = Some e -> (e < globalepoch s)%Z }.

Lemma advanced_flush s : logged s -> advanced (set_epoch (globalepoch s + 1)%Z (flush_ s)).
Proof. intros L. split; simpl; [done..|]. intros x e H%(lg_past _ L). lia. Qed.
Lemma advanced_checkpoint i s : advanced s -> advanced (checkpoint i s).
Proof. by intros []. Qed.
Lemma advanced_logged s : advanced s -> records s = [] -> logged s.
Proof.
  intros A R. split; rewrite ?(ad_dirty _ A), ?R, ?(ad_image _ A).
  - set_solver.
  - intros x H%(ad_past _ A). lia.
  - intros ? ? ? []%not_elem_of_nil.
  - done.
  - intros x e H%(ad_past _ A). lia.
Qed.
(** A node that changed and is in no log is lost with a crash. *)
Lemma lost_record x s : x ∈ dirty s -> Forall (fun r => r.1.2 <> x) (records s) -> ~ recoverable s.
Proof.
  intros D F R. rewrite Forall_forall in F.
  set (v := match image s !! x with Some v => (v + 1)%Z | None => 0%Z end).
  assert (C : crash s (<[x := v]> (image s))) by (intros y Hy; apply lookup_insert_ne; set_solver).
  pose proof (f_equal (lookup x) (R _ C)) as E. simpl in E.
  destruct (undo_lookup (records s) (<[x := v]> (image s)) x) as [(r & Hr & Hx & _)|[_ E']].
  - by apply (F r); [apply list_elem_of_In|].
  - rewrite E' in E. rewrite lookup_insert_eq in E. subst v. destruct (image s !! x) as [w|]; [|done].
    injection E. lia.
Qed.
End Store.

(** * Sums over the threads *)

Definition total {A} (f : A -> nat) (l : list A) : nat := sum_list_with f l.

Lemma total_insert {A} (f : A -> nat) l i c c' :
  l !! i = Some c -> total f (<[i := c']> l) + f c = total f l + f c'.
Proof.
  unfold total. revert i. induction l as [|d l IH]; intros [|i]; simpl; try done.
  - intros [= ->]. lia.
  - intros H. specialize (IH i H). lia.
Qed.
Lemma total_lookup {A} (f : A -> nat) l i c : l !! i = Some c -> f c <= total f l.
Proof.
  unfold total. revert i. induction l as [|d l IH]; intros [|i]; simpl; try done.
  - intros [= ->]. lia.
  - intros H. specialize (IH i H). lia.
Qed.
Lemma total_zero {A} (f : A -> nat) l : (forall i c, l !! i = Some c -> f c = 0) -> total f l = 0.
Proof.
  unfold total. induction l as [|d l IH]; intros H; [done|]. simpl.
  rewrite (H 0 d eq_refl), IH; [done|]. intros i c. apply (H (S i) c).
Qed.
Lemma total_pos {A} (f : A -> nat) l : total f l <> 0 -> exists i c, l !! i = Some c /\ f c <> 0.
Proof.
  unfold total. induction l as [|d l IH]; simpl; [done|]. intros H. destruct (decide (f d = 0)) as [Z|N].
  - destruct IH as (i & c & L & Hc); [lia|]. by exists (S i), c.
  - by exists 0, d.
Qed.
Lemma total_le {A} (f : A -> nat) l : (forall c, f c <= 1) -> total f l <= List.length l.
Proof. intros H. unfold total. induction l as [|d l IH]; simpl; [lia|]. specialize (H d). lia. Qed.

(** With at most 1 per thread and nothing from thread [i], all others or one less. *)
Lemma total_others {A} (f : A -> nat) l i c :
  (forall c, f c <= 1) -> l !! i = Some c -> f c = 0 -> total f l + 1 <= List.length l.
Proof.
  intros F. unfold total. revert i. induction l as [|d l IH]; intros [|i] L Z; simpl in *; try done.
  - injection L as ->. pose proof (total_le f l F). unfold total in *. lia.
  - specialize (IH i L Z). specialize (F d). lia.
Qed.
Lemma total_all_others {A} (f : A -> nat) l i c j d :
  (forall c, f c <= 1) -> l !! i = Some c -> f c = 0 -> List.length l <= total f l + 1 ->
  l !! j = Some d -> j <> i -> f d = 1.
Proof.
  intros F. unfold total. revert i j. induction l as [|d0 l IH]; intros [|i] [|j] L Z T M N; simpl in *; try done.
  - injection L as ->. pose proof (total_others f l j d F M) as O. unfold total in *. specialize (F d). lia.
  - injection M as ->. pose proof (total_others f l i c F L Z) as O. unfold total in *. specialize (F d). lia.
  - eapply (IH i j); eauto. specialize (F d0). lia.
Qed.

(** The sum when only thread [i] counts, and a bound when all others do. *)
Lemma total_only {A} (f : A -> nat) l i c :
  l !! i = Some c -> (forall j d, l !! j = Some d -> j <> i -> f d = 0) -> total f l = f c.
Proof.
  unfold total. intros L H. revert i L H. induction l as [|d0 l IH]; intros [|i] L H; simpl in *; try done.
  - injection L as ->. enough (sum_list_with f l = 0) by lia. apply (total_zero f).
    intros j d M. by apply (H (S j) d).
  - rewrite (H 0 d0 eq_refl ltac:(lia)), (IH i L); [done|]. intros j d M N. apply (H (S j) d M). lia.
Qed.
Lemma total_ge_others {A} (f : A -> nat) l i :
  (forall j d, l !! j = Some d -> j <> i -> f d = 1) -> List.length l <= total f l + 1.
Proof.
  unfold total. revert i. induction l as [|d0 l IH]; intros i H; simpl; [lia|]. destruct i as [|i].
  - enough (List.length l <= sum_list_with f l) by lia.
    assert (H' : forall j d, l !! j = Some d -> f d = 1) by (intros j d M; by apply (H (S j) d)).
    clear -H'. induction l as [|d l IH]; simpl; [lia|].
    rewrite (H' 0 d eq_refl). enough (List.length l <= sum_list_with f l) by lia.
    apply IH. intros j d' M. by apply (H' (S j)).
  - rewrite (H 0 d0 eq_refl) by lia. enough (List.length l <= sum_list_with f l + 1) by lia.
    apply (IH i). intros j d M N. apply (H (S j) d M). lia.
Qed.

Lemma lookup_insert_cases {A} (l : list A) i j c c' :
  <[i := c]> l !! j = Some c' -> (i = j /\ c' = c) \/ (i <> j /\ l !! j = Some c').
Proof. intros [(-> & -> & _)|[N H]]%list_lookup_insert_Some; auto. Qed.

(** * The epoch between two phases *)

Module Manual.
Import Store.

(** Where a thread is: outside; about to enter or inside one of the two barriers ([false] is
    the first), with the round it waits for; in [ack_flush_manual]; in [flush_manual] with
    the acknowledgements collected or the releases left; before its checkpoint. *)
Inductive pc := Work | Arriving (second : bool) | Barrier (second : bool) (r : nat)
  | AckPost | AckWait | Collect (k : nat) | Flush | Epoch | Release (k : nat) | Checkpoint.

(** [round] and [arrived] are the state of the barrier. *)
Record state := { store : nvstore; ack_sem : nat; flush_ack_sem : nat; round : nat; arrived : nat; pcs : list pc }.
Inductive action := Change (x v : Z) | Go.

Definition init (n : nat) : state :=
  {| store := fresh; ack_sem := 0; flush_ack_sem := 0; round := 0; arrived := 0; pcs := replicate n Work |}.

Definition enter (i : nat) (second : bool) : pc :=
  if second then Work else if decide (i = 0) then Collect 0 else AckPost.

Definition step (i : nat) (a : action) (s : state) : option state :=
  let other_threads := List.length (pcs s) - 1 in
  let set st ack rel ro ar c := Some {| store := st; ack_sem := ack; flush_ack_sem := rel; round := ro;
                                       arrived := ar; pcs := <[i := c]> (pcs s) |} in
  let goto := set (store s) (ack_sem s) (flush_ack_sem s) (round s) (arrived s) in
  c ← pcs s !! i;
  match c, a with
  | Work, Change x v => set (change i x v (store s)) (ack_sem s) (flush_ack_sem s) (round s) (arrived s) Work
  | _, Change _ _ => None
  | Work, Go => goto (Arriving false)
  | Arriving b, Go =>
      if decide (arrived s + 1 = List.length (pcs s))
      then set (store s) (ack_sem s) (flush_ack_sem s) (round s + 1) 0 (enter i b)
      else set (store s) (ack_sem s) (flush_ack_sem s) (round s) (arrived s + 1) (Barrier b (round s))
  | Barrier b r, Go => if decide (round s = r) then None else goto (enter i b)
  | AckPost, Go => set (store s) (ack_sem s + 1) (flush_ack_sem s) (round s) (arrived s) AckWait
  | AckWait, Go =>
      match flush_ack_sem s with
      | O => None
      | S rel => set (store s) (ack_sem s) rel (round s) (arrived s) Checkpoint
      end
  | Collect k, Go =>
      if decide (k = other_threads) then goto Flush
      else match ack_sem s with
           | O => None
           | S ack => set (store s) ack (flush_ack_sem s) (round s) (arrived s) (Collect (k + 1))
           end
  | Flush, Go => set (flush_ (store s)) (ack_sem s) (flush_ack_sem s) (round s) (arrived s) Epoch
  | Epoch, Go =>
      set (set_epoch (globalepoch (store s) + 1)%Z (store s)) (ack_sem s) (flush_ack_sem s) (round s) (arrived s)
          (Release other_threads)
  | Release (S k), Go => set (store s) (ack_sem s) (flush_ack_sem s + 1) (round s) (arrived s) (Release k)
  | Release O, Go => goto Checkpoint
  | Checkpoint, Go =>
      set (checkpoint i (store s)) (ack_sem s) (flush_ack_sem s) (round s) (arrived s) (Arriving true)
  end.

Inductive reachable (n : nat) : state -> Prop :=
| reach_init : reachable n (init n)
| reach_step i a s s' : reachable n s -> step i a s = Some s' -> reachable n s'.

Fixpoint run (l : list (nat * action)) (s : state) : option state :=
  match l with [] => Some s | (i, a) :: l => s' ← step i a s; run l s' end.

(** ** The invariant *)

Definition waits (c : pc) : nat := match c with AckWait => 1 | _ => 0 end.
Definition held (n : nat) (c : pc) : nat :=
  match c with Collect k | Release k => k | Flush | Epoch => n - 1 | _ => 0 end.
Definition at_round (r : nat) (c : pc) : nat :=
  match c with Barrier _ r' => if decide (r' = r) then 1 else 0 | _ => 0 end.

(** At rest; before the flush; between the flush and the new epoch; after it. *)
Inductive stage := Rest | Before | Between | After.
Definition fits (t : stage) (n r i : nat) (c : pc) : Prop :=
  match t with
  | Rest => match c with Work | Arriving false => True | Barrier false r' => r' = r | Barrier true r' => r' + 1 = r | _ => False end
  | Before => match c with
      | Barrier false r' => r' + 1 = r
      | Collect k => i = 0 /\ k <= n - 1 | Flush => i = 0 | AckPost | AckWait => i <> 0
      | _ => False end
  | Between => match c with Epoch => i = 0 | AckWait => i <> 0 | _ => False end
  | After => match c with
      | Release k => i = 0 /\ k <= n - 1 | Checkpoint | Arriving true => True | Barrier true r' => r' = r
      | AckWait => i <> 0 | _ => False end
  end.
Definition has_log (c : pc) : Prop := match c with Arriving true | Barrier true _ => False | _ => True end.
Definition stored (t : stage) (s : nvstore) : Prop :=
  match t with Rest | Before => logged s | Between => exists s0, logged s0 /\ s = flush_ s0 | After => advanced s end.

Record inv (t : stage) (s : state) : Prop := {
  i_fits : forall i c, pcs s !! i = Some c -> fits t (List.length (pcs s)) (round s) i c;
  i_tokens : total waits (pcs s) = ack_sem s + total (held (List.length (pcs s))) (pcs s) + flush_ack_sem s;
  i_rel : t <> After -> flush_ack_sem s = 0;
  i_ack : t = After -> ack_sem s = 0;
  i_round : arrived s = total (at_round (round s)) (pcs s);
  i_arrived : arrived s < List.length (pcs s);
  i_store : stored t (store s);
  i_owner : forall r, r ∈ records (store s) -> exists c, pcs s !! r.1.1 = Some c /\ (t = After -> has_log c) }.

Lemma manual_waits_le c : waits c <= 1.
Proof. destruct c; simpl; lia. Qed.
Lemma at_round_le r c : at_round r c <= 1.
Proof. destruct c; simpl; try lia. destruct (decide _); lia. Qed.

Lemma manual_inv_init n : 0 < n -> inv Rest (init n).
Proof.
  intros N.
  assert (W : forall i c, replicate n Work !! i = Some c -> c = Work) by (intros i c H; by apply lookup_replicate in H as [-> _]).
  assert (Z : forall f : pc -> nat, f Work = 0 -> total f (replicate n Work) = 0)
    by (intros f Hf; apply total_zero; intros i c ->%W; done).
  split; unfold init; cbn [pcs store ack_sem flush_ack_sem round arrived].
  - intros i c ->%W. done.
  - by rewrite !Z.
  - done.
  - done.
  - by rewrite Z.
  - by rewrite length_replicate.
  - apply logged_fresh.
  - intros r []%not_elem_of_nil.
Qed.

(** One thread moves from [c] to [c']. *)
Lemma manual_inv_move t t' s i c st ack rel ro ar c' :
  inv t s -> pcs s !! i = Some c ->
  let n := List.length (pcs s) in
  fits t' n ro i c' ->
  (forall j d, j <> i -> pcs s !! j = Some d -> fits t' n ro j d /\ (t' = After -> t = After \/ has_log d)) ->
  waits c' + ack_sem s + held n c + flush_ack_sem s = waits c + ack + held n c' + rel ->
  (t' <> After -> rel = 0) -> (t' = After -> ack = 0) ->
  ar = total (at_round ro) (<[i := c']> (pcs s)) -> ar < n ->
  stored t' st ->
  (forall r, r ∈ records st -> (r ∈ records (store s) \/ r.1.1 = i) /\ (r.1.1 = i -> t' = After -> has_log c')) ->
  inv t' {| store := st; ack_sem := ack; flush_ack_sem := rel; round := ro; arrived := ar; pcs := <[i := c']> (pcs s) |}.
Proof.
  intros I L n F O T Rel Ack Ar Ar2 St Own. subst n.
  split; simpl; rewrite ?length_insert; auto.
  - intros j d [[<- ->]|[N M]]%lookup_insert_cases; [done | by apply O].
  - pose proof (total_insert waits _ _ _ c' L). pose proof (total_insert (held (List.length (pcs s))) _ _ _ c' L).
    pose proof (i_tokens _ _ I). lia.
  - intros r Hr. destruct (Own r Hr) as [H1 H2]. destruct (decide (r.1.1 = i)) as [E|N].
    + exists c'. rewrite E, list_lookup_insert_eq by (by eapply lookup_lt_Some). auto.
    + rewrite list_lookup_insert_ne by done. destruct H1 as [H1|?]; [|done].
      destruct (i_owner _ _ I r H1) as (d & Hd & Hl). exists d. split; [done|].
      intros E. destruct (proj2 (O _ _ N Hd) E); auto.
Qed.

(** A move inside a stage and a round. *)
Lemma inv_local t s i c st ack rel ar c' :
  inv t s -> pcs s !! i = Some c ->
  let n := List.length (pcs s) in
  fits t n (round s) i c' ->
  waits c' + ack_sem s + held n c + flush_ack_sem s = waits c + ack + held n c' + rel ->
  (t <> After -> rel = 0) -> (t = After -> ack = 0) ->
  ar + at_round (round s) c = arrived s + at_round (round s) c' -> ar < n ->
  stored t st ->
  (forall r, r ∈ records st -> (r ∈ records (store s) \/ r.1.1 = i) /\ (r.1.1 = i -> t = After -> has_log c')) ->
  inv t {| store := st; ack_sem := ack; flush_ack_sem := rel; round := round s; arrived := ar; pcs := <[i := c']> (pcs s) |}.
Proof.
  intros I L n F T Rel Ack Ar Ar2 St Own. eapply manual_inv_move; eauto.
  - intros j d _ M. split; [by apply (i_fits _ _ I) | by left].
  - pose proof (total_insert (at_round (round s)) _ _ _ c' L). pose proof (i_round _ _ I). lia.
Qed.

(** When the flusher has its acknowledgements, all other threads wait. *)
Lemma manual_all_wait t s i c j d :
  inv t s -> pcs s !! i = Some c -> held (List.length (pcs s)) c = List.length (pcs s) - 1 -> waits c = 0 ->
  pcs s !! j = Some d -> j <> i -> d = AckWait /\ ack_sem s = 0 /\ flush_ack_sem s = 0.
Proof.
  intros I L Hh Hw M N. pose proof (i_tokens _ _ I) as T.
  pose proof (total_lookup (held (List.length (pcs s))) _ _ _ L) as G.
  pose proof (total_others waits _ _ _ manual_waits_le L Hw) as W.
  assert (waits d = 1) by (eapply (total_all_others waits _ i c j d); eauto using manual_waits_le; lia).
  destruct d; try done. split_and!; [done | lia | lia].
Qed.
Lemma manual_all_wait_sems t s i c :
  inv t s -> pcs s !! i = Some c -> held (List.length (pcs s)) c = List.length (pcs s) - 1 -> waits c = 0 ->
  ack_sem s = 0 /\ flush_ack_sem s = 0.
Proof.
  intros I L Hh Hw. pose proof (i_tokens _ _ I) as T.
  pose proof (total_lookup (held (List.length (pcs s))) _ _ _ L) as G.
  pose proof (total_others waits _ _ _ manual_waits_le L Hw) as W. lia.
Qed.

(** When one thread is about to complete the round of the barrier, the others are in it. *)
Lemma all_arrived t s i b j d :
  inv t s -> pcs s !! i = Some (Arriving b) -> arrived s + 1 = List.length (pcs s) ->
  pcs s !! j = Some d -> j <> i -> exists b', d = Barrier b' (round s).
Proof.
  intros I L A M N. pose proof (i_round _ _ I) as R.
  assert (H : at_round (round s) d = 1)
    by (eapply (total_all_others (at_round (round s)) (pcs s) i _ j d); eauto using at_round_le; lia).
  destruct d; try done. simpl in H. destruct (decide _); [subst; eauto | done].
Qed.

Lemma step_arriving t s i b :
  inv t s -> pcs s !! i = Some (Arriving b) -> arrived s + 1 = List.length (pcs s) ->
  exists t', inv t' {| store := store s; ack_sem := ack_sem s; flush_ack_sem := flush_ack_sem s;
                       round := round s + 1; arrived := 0; pcs := <[i := enter i b]> (pcs s) |}.
Proof.
  intros I L A. pose proof (i_fits _ _ I _ _ L) as F.
  assert (Ar : 0 = total (at_round (round s + 1)) (<[i := enter i b]> (pcs s))).
  { symmetry. apply total_zero. intros j d [[<- ->]|[N M]]%lookup_insert_cases.
    - unfold enter. destruct b; [done|]. by destruct (decide _).
    - destruct (all_arrived _ _ _ _ _ _ I L A M (not_eq_sym N)) as [b' ->]. simpl. by rewrite decide_False by lia. }
  destruct t, b; try done.
  - exists Before. refine (manual_inv_move _ _ _ _ _ _ _ _ _ _ _ I L _ _ _ _ _ Ar _ _ _); cbn [fits enter].
    + unfold enter. destruct (decide _); [split; [done | lia] | done].
    + intros j d N M. split; [|done]. destruct (all_arrived _ _ _ _ _ _ I L A M N) as [[] ->].
      * pose proof (i_fits _ _ I _ _ M) as G. simpl in G. lia.
      * simpl. done.
    + unfold enter. destruct (decide _); simpl; lia.
    + intros _. by apply (i_rel _ _ I).
    + done.
    + lia.
    + apply (i_store _ _ I).
    + intros r Hr. split; [by left | done].
  - assert (E : records (store s) = []).
    { destruct (records (store s)) as [|r rs] eqn:Er; [done|].
      destruct (i_owner _ _ I r) as (d & M & Hl); [rewrite Er; left|]. specialize (Hl eq_refl).
      destruct (decide (r.1.1 = i)) as [Ei|N].
      - rewrite Ei, L in M. by injection M as <-.
      - destruct (all_arrived _ _ _ _ _ _ I L A M N) as [[] ->]; [done|].
        by pose proof (i_fits _ _ I _ _ M). }
    assert (Z : total waits (pcs s) = 0).
    { apply total_zero. intros j d M. destruct (decide (j = i)) as [->|N].
      - rewrite L in M. by injection M as <-.
      - by destruct (all_arrived _ _ _ _ _ _ I L A M N) as [b' ->]. }
    pose proof (i_tokens _ _ I) as T.
    exists Rest. refine (manual_inv_move _ _ _ _ _ _ _ _ _ _ _ I L _ _ _ _ _ Ar _ _ _); cbn [fits enter].
    + done.
    + intros j d N M. split; [|done]. destruct (all_arrived _ _ _ _ _ _ I L A M N) as [[] ->]; [done|].
      by pose proof (i_fits _ _ I _ _ M).
    + simpl. lia.
    + intros _. lia.
    + done.
    + lia.
    + apply advanced_logged; [apply (i_store _ _ I) | done].
    + rewrite E. intros r []%not_elem_of_nil.
Qed.

Lemma record_node_owner i x s r : r ∈ records (record_node i x s) -> r ∈ records s \/ r.1.1 = i.
Proof.
  unfold record_node. destruct (decide _); [by left|]. simpl.
  rewrite elem_of_app, list_elem_of_singleton. intros [H| ->]; [by left | by right].
Qed.

Lemma owner_log t s i c r :
  inv t s -> pcs s !! i = Some c -> r ∈ records (store s) -> r.1.1 = i -> t = After -> has_log c.
Proof. intros I L Hr <- E. destruct (i_owner _ _ I r Hr) as (d & M & H). rewrite L in M. injection M as <-. auto. Qed.

Ltac stay I L :=
  eexists; refine (inv_local _ _ _ _ _ _ _ _ _ I L _ _ _ _ _ _ _ _);
  cbn [fits waits held at_round has_log]; try done; try lia; try apply (i_store _ _ I); try apply (i_arrived _ _ I);
  try (by intros ? Hr; split; [by left | done || exact (owner_log _ _ _ _ _ I L Hr)]).

Lemma step_collect t s i k : inv t s -> pcs s !! i = Some (Collect k) ->
  forall s', step i Go s = Some s' -> exists t', inv t' s'.
Proof.
  intros I L s'. pose proof (i_fits _ _ I _ _ L) as F. destruct t; try done. destruct F as [-> Hk].
  assert (Rel : flush_ack_sem s = 0) by by apply (i_rel _ _ I).
  unfold step. rewrite L. simpl. destruct (decide _) as [E|N].
  - intros [= <-]. stay I L.
  - destruct (ack_sem s) as [|ack] eqn:A; [done|]. intros [= <-]. stay I L.
Qed.

Lemma step_flush t s i : inv t s -> pcs s !! i = Some Flush ->
  forall s', step i Go s = Some s' -> exists t', inv t' s'.
Proof.
  intros I L s'. pose proof (i_fits _ _ I _ _ L) as F. destruct t; try done. simpl in F. subst i.
  destruct (manual_all_wait_sems _ _ _ _ I L) as [Ea Er]; [done..|].
  unfold step. rewrite L. simpl. intros [= <-]. exists Between.
  refine (manual_inv_move _ _ _ _ _ _ _ _ _ _ _ I L _ _ _ _ _ _ _ _ _); cbn [fits waits held has_log stored]; try done; try lia.
  - intros j d N M. destruct (manual_all_wait _ _ _ _ _ _ I L eq_refl eq_refl M N) as (-> & _ & _). by split.
  - pose proof (total_insert (at_round (round s)) _ _ _ Epoch L) as R. pose proof (i_round _ _ I). simpl in *. lia.
  - apply (i_arrived _ _ I).
  - exists (store s). split; [apply (i_store _ _ I) | done].
  - intros r Hr. split; [by left | done].
Qed.

Lemma step_epoch t s i : inv t s -> pcs s !! i = Some Epoch ->
  forall s', step i Go s = Some s' -> exists t', inv t' s'.
Proof.
  intros I L s'. pose proof (i_fits _ _ I _ _ L) as F. destruct t; try done. simpl in F. subst i.
  destruct (manual_all_wait_sems _ _ _ _ I L) as [Ea Er]; [done..|].
  unfold step. rewrite L. simpl. intros [= <-]. exists After.
  refine (manual_inv_move _ _ _ _ _ _ _ _ _ _ _ I L _ _ _ _ _ _ _ _ _); cbn [fits waits held has_log stored]; try done; try lia.
  - intros j d N M. destruct (manual_all_wait _ _ _ _ _ _ I L eq_refl eq_refl M N) as (-> & _ & _).
    split; [done | by right].
  - pose proof (total_insert (at_round (round s)) _ _ _ (Release (List.length (pcs s) - 1)) L) as R.
    pose proof (i_round _ _ I). simpl in *. lia.
  - apply (i_arrived _ _ I).
  - destruct (i_store _ _ I) as (s0 & L0 & ->). exact (advanced_flush s0 L0).
  - intros r Hr. split; [by left | done].
Qed.

Lemma step_checkpoint t s i : inv t s -> pcs s !! i = Some Checkpoint ->
  forall s', step i Go s = Some s' -> exists t', inv t' s'.
Proof.
  intros I L s'. pose proof (i_fits _ _ I _ _ L) as F. destruct t; try done.
  assert (Ack : ack_sem s = 0) by by apply (i_ack _ _ I).
  unfold step. rewrite L. simpl. intros [= <-]. stay I L.
  - apply advanced_checkpoint, (i_store _ _ I).
  - intros r [N Hr]%list_elem_of_filter. split; [by left | done].
Qed.

Lemma manual_step_inv t i a s s' : inv t s -> step i a s = Some s' -> exists t', inv t' s'.
Proof.
  intros I S. destruct (pcs s !! i) as [c|] eqn:L; [|by unfold step in S; rewrite L in S].
  destruct a as [x v|].
  { unfold step in S. rewrite L in S. simpl in S. destruct c as [| | | | | | | |[]|]; try done. injection S as <-.
    pose proof (i_fits _ _ I _ _ L) as F. destruct t; try done.
    assert (Rel : flush_ack_sem s = 0) by by apply (i_rel _ _ I). stay I L.
    - apply logged_change, (i_store _ _ I).
    - intros r Hr. split; [by apply (record_node_owner i x) | done]. }
  pose proof (i_rel _ _ I) as Rel. pose proof (i_ack _ _ I) as Ack. pose proof (i_arrived _ _ I) as Arr.
  destruct c; try (eauto using step_collect, step_flush, step_epoch, step_checkpoint; fail);
    unfold step in S; rewrite L in S; simpl in S; pose proof (i_fits _ _ I _ _ L) as F.
  - injection S as <-. destruct t; try done. stay I L.
  - destruct (decide _) as [E|N]; injection S as <-; [by apply (step_arriving t)|].
    destruct t, second; try done; stay I L; rewrite decide_True by done; lia.
  - destruct (decide _) as [E|N]; [done|]. injection S as <-.
    destruct t, second; try done; unfold enter; try destruct (decide (i = 0)); stay I L; try (by split; [|lia]); rewrite decide_False by congruence; lia.
  - injection S as <-. destruct t; try done. stay I L.
  - destruct (flush_ack_sem s) as [|rel] eqn:Er; [done|]. injection S as <-.
    destruct t; try (by specialize (Rel ltac:(done))). stay I L.
  - destruct k; injection S as <-; destruct t; try done; stay I L; simpl in F; lia.
Qed.

Lemma manual_reachable_inv n s : 0 < n -> reachable n s -> exists t, inv t s.
Proof.
  intros N. induction 1 as [|i a s s' _ [t I] S]; [exists Rest; by apply manual_inv_init | by eapply manual_step_inv].
Qed.

(** ** What the protocol guarantees *)

(** Thread 0 is not between its flush and the end of the second barrier. *)
Definition settled (s : state) : bool :=
  match pcs s !! 0 with
  | Some (Epoch | Release _ | Checkpoint | Arriving true) => false
  | Some (Barrier true r) => negb (Nat.eqb r (round s))
  | _ => true
  end.

Lemma settled_logged t s : inv t s -> settled s = true -> logged (store s).
Proof.
  intros I S. pose proof (i_arrived _ _ I) as A. pose proof (i_store _ _ I) as St.
  destruct (pcs s !! 0) as [c|] eqn:L; [|apply lookup_ge_None in L; lia].
  pose proof (i_fits _ _ I _ _ L) as F. unfold settled in S. rewrite L in S.
  destruct t; try apply St; destruct c as [|[]|[] r| | | | | | |]; try done; simpl in F.
  subst. by rewrite Nat.eqb_refl in S.
Qed.

(** In a deadlock every thread waits for a semaphore or for the barrier. *)
Definition blocked (s : state) (c : pc) : Prop :=
  match c with
  | AckWait => flush_ack_sem s = 0
  | Collect k => ack_sem s = 0 /\ k <> List.length (pcs s) - 1
  | Barrier _ r => r = round s
  | _ => False
  end.

Lemma step_blocked s i c : pcs s !! i = Some c -> step i Go s = None -> blocked s c.
Proof.
  intros L S. unfold step in S. rewrite L in S. simpl in S.
  destruct c as [|b|b r| | |k| | |[]|]; simpl; try done; repeat case_decide; try done.
  - by destruct (flush_ack_sem s).
  - by destruct (ack_sem s).
Qed.

Section blocked.
Context (t : stage) (s : state) (I : inv t s) (B : forall i c, pcs s !! i = Some c -> blocked s c).

(** The flusher would have all its acknowledgements. *)
Lemma not_blocked_collect i k : pcs s !! i = Some (Collect k) -> False.
Proof.
  intros L. destruct (B _ _ L) as [Ea Ek]. pose proof (i_fits _ _ I _ _ L) as F.
  destruct t; try done. destruct F as [-> Hk].
  assert (O : forall j d, pcs s !! j = Some d -> j <> 0 -> d = AckWait).
  { intros j d M N. pose proof (B _ _ M). pose proof (i_fits _ _ I _ _ M) as G.
    destruct d as [| |[] r| | | | | | |]; simpl in *; try done; try lia. }
  pose proof (i_tokens _ _ I) as T. pose proof (i_rel _ _ I ltac:(done)) as Er.
  rewrite (total_only (held _) _ _ _ L) in T by (intros j d M N; by rewrite (O j d M N)).
  pose proof (total_ge_others waits (pcs s) 0) as W. simpl in T.
  enough (List.length (pcs s) <= total waits (pcs s) + 1) by lia.
  apply W. intros j d M N. by rewrite (O j d M N).
Qed.

(** A thread that waits would have its release. *)
Lemma not_blocked_wait i : pcs s !! i = Some AckWait -> False.
Proof.
  intros L. pose proof (B _ _ L) as Er. simpl in Er. pose proof (i_tokens _ _ I) as T.
  pose proof (total_lookup waits _ _ _ L) as W. simpl in W. pose proof (i_arrived _ _ I) as A.
  pose proof (i_fits _ _ I _ _ L) as F.
  assert (H0 : total (held (List.length (pcs s))) (pcs s) = 0).
  { apply total_zero. intros j d M. pose proof (B _ _ M) as Bd.
    destruct d; try done. by destruct (not_blocked_collect _ _ M). }
  assert (t <> After) by (intros E; pose proof (i_ack _ _ I E); lia).
  destruct (pcs s !! 0) as [d|] eqn:M; [|apply lookup_ge_None in M; lia].
  pose proof (B _ _ M) as Bd. pose proof (i_fits _ _ I _ _ M) as G.
  destruct t, d as [| |[] r| | | | | | |]; try done; simpl in *; try lia.
Qed.

Lemma not_blocked : False.
Proof.
  pose proof (i_arrived _ _ I) as A. rewrite (i_round _ _ I) in A.
  enough (List.length (pcs s) <= total (at_round (round s)) (pcs s)) by lia.
  assert (H : forall i c, pcs s !! i = Some c -> at_round (round s) c = 1).
  { intros i c L. pose proof (B _ _ L) as Bc. destruct c; try done.
    - simpl in *. by rewrite decide_True.
    - by destruct (not_blocked_wait _ L).
    - by destruct (not_blocked_collect _ _ L). }
  clear -H. unfold total. induction (pcs s) as [|c l IH]; simpl; [lia|].
  rewrite (H 0 c eq_refl). enough (List.length l <= sum_list_with (at_round (round s)) l) by lia.
  apply IH. intros j d M. by apply (H (S j)).
Qed.
End blocked.

(** Some thread of those there are can always go on. *)
Lemma inv_progress t s : inv t s -> exists i s', step i Go s = Some s'.
Proof.
  intros I. destruct (decide (Exists (fun i => is_Some (step i Go s)) (seq 0 (List.length (pcs s))))) as [E|N].
  - apply Exists_exists in E as (i & _ & s' & H). eauto.
  - exfalso. apply (not_blocked t s I). intros i c L. apply (step_blocked s i c L), eq_None_not_Some.
    intros H. apply N, Exists_exists. exists i. split; [|done].
    apply in_seq. apply lookup_lt_Some in L. lia.
Qed.
Lemma manual_reachable_run n l s s' : reachable n s -> run l s = Some s' -> reachable n s'.
Proof.
  revert s. induction l as [|[i a] l IH]; intros s R; simpl; [by intros [= <-]|].
  destruct (step i a s) as [s1|] eqn:S; [|done]. simpl. intros H. eapply IH; [|done]. by eapply reach_step.
Qed.

(** [C14]. [advance_epoch] by any number of threads, in any interleaving.  Outside the window
    from the flush to the end of the second barrier, any crash is undone to the memory of the
    last flush: every node that changed since has its old content in a log.  When thread 0
    flushes, all other threads wait for it.  No state is a deadlock. *)
Theorem advance_epoch_correct n s : 0 < n -> reachable n s ->
  (settled s = true -> recoverable (store s)) /\
  (forall j d, pcs s !! 0 = Some Flush -> pcs s !! j = Some d -> j <> 0 -> d = AckWait) /\
  exists i s', step i Go s = Some s'.
Proof.
  intros N R. destruct (manual_reachable_inv n s N R) as [t I]. split_and!.
  - intros S. by eapply logged_recoverable, settled_logged.
  - intros j d L M Nj. by destruct (manual_all_wait _ _ _ _ _ _ I L eq_refl eq_refl M Nj) as [-> _].
  - by eapply inv_progress.
Qed.

(** Two threads change a node each and advance the epoch; thread 1 changes its node again. *)
Definition example_calls : list (nat * action) :=
  [(1, Change 7 1); (0, Change 8 1); (0, Go); (0, Go); (1, Go); (1, Go); (0, Go); (1, Go); (0, Go); (0, Go);
   (0, Go); (0, Go); (0, Go); (0, Go); (0, Go)].
Definition example_rest : list (nat * action) := [(1, Go); (1, Go); (0, Go); (1, Go); (0, Go); (1, Change 7 2)].
Lemma advance_epoch_witness :
  exists s, run (example_calls ++ example_rest) (init 2) = Some s /\ records (store s) = [(1, 7%Z, Some 1%Z)] /\
    settled s = true /\ recoverable (store s).
Proof.
  eexists. split; [vm_compute; reflexivity|]. split; [reflexivity|]. split; [reflexivity|].
  eapply (advance_epoch_correct 2); [lia | | reflexivity].
  eapply (manual_reachable_run 2 (example_calls ++ example_rest)); [apply reach_init | vm_compute; reflexivity].
Defined.

(** Inside the window the logs of the threads are dropped one by one: a crash after thread 0
    dropped its log takes the node of thread 1 back and not that of thread 0. *)
Lemma advance_epoch_window : exists s, run example_calls (init 2) = Some s /\ crash (store s) (mem (store s)) /\
  undo (records (store s)) (mem (store s)) = {[8%Z := 1%Z]} /\ image (store s) = {[7%Z := 1%Z; 8%Z := 1%Z]}.
Proof. eexists. split; [vm_compute; reflexivity|]. split_and!; [by intros ? _ | by vm_compute | by vm_compute]. Qed.
End Manual.

(** * The epoch inside a phase *)

Module Automatic.
Import Store.

(** A thread works, is at one of the accesses of [ack_flush] (the flag says that it calls it
    from the loop that ends a test), of [thread_done] or of [flush], or has left the loop. *)
Inductive pc := Work | AckWarning (fin : bool) | AckDone (fin : bool) | AckWaiting (fin : bool)
  | AckPost (fin : bool) | AckWait (fin : bool) | AckCheckpoint (fin : bool)
  | DoneWarning | DoneAdd
  | FlushWarning | FlushDone | FlushEnter | FlushCollect (k : nat) | Flush | FlushLeave
  | FlushRelease (k : nat) | FlushCheckpoint | FlushEnd | Exit.

#[global] Instance pc_eq_decision : EqDecision pc.
Proof. solve_decision. Defined.

Record shared := {
  store : nvstore; influshWarning : bool; waitingFlush : bool; doneThreads : nat; ack_sem : nat; flush_ack_sem : nat }.
Record state := { sh : shared; pcs : list pc }.
Inductive action := Change (x v : Z) | SetEpoch (e : Z) | AckFlush | ThreadDone | Go.

Definition init (n : nat) : state :=
  {| sh := {| store := fresh; influshWarning := false; waitingFlush := false; doneThreads := 0;
              ack_sem := 0; flush_ack_sem := 0 |}; pcs := replicate n Work |}.

Definition with_store st s := {| store := st; influshWarning := influshWarning s; waitingFlush := waitingFlush s;
  doneThreads := doneThreads s; ack_sem := ack_sem s; flush_ack_sem := flush_ack_sem s |}.
Definition with_warning b s := {| store := store s; influshWarning := b; waitingFlush := waitingFlush s;
  doneThreads := doneThreads s; ack_sem := ack_sem s; flush_ack_sem := flush_ack_sem s |}.
Definition with_waiting b s := {| store := store s; influshWarning := influshWarning s; waitingFlush := b;
  doneThreads := doneThreads s; ack_sem := ack_sem s; flush_ack_sem := flush_ack_sem s |}.
Definition with_done d s := {| store := store s; influshWarning := influshWarning s; waitingFlush := waitingFlush s;
  doneThreads := d; ack_sem := ack_sem s; flush_ack_sem := flush_ack_sem s |}.
Definition with_sems a r s := {| store := store s; influshWarning := influshWarning s; waitingFlush := waitingFlush s;
  doneThreads := doneThreads s; ack_sem := a; flush_ack_sem := r |}.

Definition is_in_flush (s : shared) : bool := influshWarning s.
(** The loop of the callers: a test works on whatever [ack_flush] returns; at its end the
    call is repeated until it returns true. *)
Definition returns (fin result : bool) : pc := if fin then if result then Exit else AckWarning true else Work.

(** The locked part of [set_global_epoch] is one step. *)
Definition set_global_epoch (e : Z) (s : shared) : shared * pc :=
  if (to_signed 64 (e - globalepoch (store s)) >? 0)%Z
  then (with_store (set_epoch e (store s)) s, if is_in_flush s then Work else FlushWarning)
  else (s, Work).

Definition ack_flush (i n : nat) (c : pc) (s : shared) : option (shared * pc) :=
  match c with
  | AckWarning fin => Some (s, if influshWarning s then AckDone fin else returns fin false)
  | AckDone fin => Some (s, if decide (doneThreads s = n) then returns fin true else AckWaiting fin)
  | AckWaiting fin => Some (s, if waitingFlush s then AckPost fin else returns fin false)
  | AckPost fin => Some (with_sems (ack_sem s + 1) (flush_ack_sem s) s, AckWait fin)
  | AckWait fin =>
      match flush_ack_sem s with O => None | S r => Some (with_sems (ack_sem s) r s, AckCheckpoint fin) end
  | AckCheckpoint fin => Some (with_store (checkpoint i (store s)) s, returns fin false)
  | _ => None
  end.

Definition thread_done (c : pc) (s : shared) : option (shared * pc) :=
  match c with
  | DoneWarning => Some (with_warning true s, DoneAdd)
  | DoneAdd => Some (with_done (doneThreads s + 1) s, AckWarning true)
  | _ => None
  end.

Definition flush (i n : nat) (c : pc) (s : shared) : option (shared * pc) :=
  let other_threads := n - 1 in
  match c with
  | FlushWarning => Some (with_warning true s, FlushDone)
  | FlushDone => Some (s, if decide (doneThreads s = n) then Work else FlushEnter)
  | FlushEnter => Some (with_waiting true s, FlushCollect 0)
  | FlushCollect k =>
      if decide (k = other_threads) then Some (s, Flush)
      else match ack_sem s with O => None | S a => Some (with_sems a (flush_ack_sem s) s, FlushCollect (k + 1)) end
  | Flush => Some (with_store (flush_ (store s)) s, FlushLeave)
  | FlushLeave => Some (with_waiting false s, FlushRelease other_threads)
  | FlushRelease (S k) => Some (with_sems (ack_sem s) (flush_ack_sem s + 1) s, FlushRelease k)
  | FlushRelease O => Some (s, FlushCheckpoint)
  | FlushCheckpoint => Some (with_store (checkpoint i (store s)) s, FlushEnd)
  | FlushEnd => Some (with_warning false s, Work)
  | _ => None
  end.

Definition thread_step (i n : nat) (a : action) (c : pc) (s : shared) : option (shared * pc) :=
  match c, a with
  | Work, Change x v => Some (with_store (change i x v (store s)) s, Work)
  | Work, SetEpoch e => Some (set_global_epoch e s)
  | Work, AckFlush => Some (s, AckWarning false)
  | Work, ThreadDone => Some (s, DoneWarning)
  | (AckWarning _ | AckDone _ | AckWaiting _ | AckPost _ | AckWait _ | AckCheckpoint _), Go => ack_flush i n c s
  | (DoneWarning | DoneAdd), Go => thread_done c s
  | (FlushWarning | FlushDone | FlushEnter | FlushCollect _ | Flush | FlushLeave | FlushRelease _
     | FlushCheckpoint | FlushEnd), Go => flush i n c s
  | _, _ => None
  end.

Definition step (i : nat) (a : action) (s : state) : option state :=
  c ← pcs s !! i;
  '(sh', c') ← thread_step i (List.length (pcs s)) a c (sh s);
  Some {| sh := sh'; pcs := <[i := c']> (pcs s) |}.

Inductive reachable (n : nat) : state -> Prop :=
| reach_init : reachable n (init n)
| reach_step i a s s' : reachable n s -> step i a s = Some s' -> reachable n s'.

Fixpoint run (l : list (nat * action)) (s : state) : option state :=
  match l with [] => Some s | (i, a) :: l => s' ← step i a s; run l s' end.

(** ** The invariant *)

Definition waits (c : pc) : nat := match c with AckWait _ => 1 | _ => 0 end.
Definition held (n : nat) (c : pc) : nat :=
  match c with FlushCollect k | FlushRelease k => k | Flush | FlushLeave => n - 1 | _ => 0 end.
(** The threads that [doneThreads] counts. *)
Definition past (c : pc) : nat :=
  match c with
  | AckWarning true | AckDone true | AckWaiting true | AckPost true | AckWait true | AckCheckpoint true | Exit => 1
  | _ => 0
  end.
Definition collects (s : state) : Prop := exists i k, pcs s !! i = Some (FlushCollect k).
Definition in_window (c : pc) : Prop := match c with FlushCollect _ | Flush | FlushLeave => True | _ => False end.

Record inv (s : state) : Prop := {
  i_tokens : total waits (pcs s) = ack_sem (sh s) + total (held (List.length (pcs s))) (pcs s) + flush_ack_sem (sh s);
  i_done : doneThreads (sh s) = total past (pcs s);
  i_exit : forall i, pcs s !! i = Some Exit -> doneThreads (sh s) = List.length (pcs s);
  i_waiting : waitingFlush (sh s) = true -> exists i c, pcs s !! i = Some c /\ in_window c;
  i_acks : 0 < ack_sem (sh s) -> collects s;
  i_posts : forall i fin, pcs s !! i = Some (AckPost fin) -> collects s }.

Lemma auto_waits_le c : waits c <= 1.
Proof. destruct c; simpl; lia. Qed.
Lemma past_le c : past c <= 1.
Proof. destruct c as [| []| []| []| []| []| []| | | | | | | | | | | |]; simpl; lia. Qed.

Lemma auto_inv_init n : inv (init n).
Proof.
  assert (W : forall i c, replicate n Work !! i = Some c -> c = Work) by (intros i c H; by apply lookup_replicate in H as [-> _]).
  assert (Z : forall f : pc -> nat, f Work = 0 -> total f (replicate n Work) = 0)
    by (intros f Hf; apply total_zero; intros i c ->%W; done).
  split; unfold init; cbn [pcs sh doneThreads waitingFlush ack_sem flush_ack_sem]; rewrite ?Z; try done.
  - by intros i ?%W.
  - lia.
  - by intros i f ?%W.
Qed.

(** A flusher with all its acknowledgements: the other threads wait, the semaphores are 0. *)
Lemma auto_all_wait s i c : inv s -> pcs s !! i = Some c ->
  held (List.length (pcs s)) c = List.length (pcs s) - 1 -> waits c = 0 ->
  ack_sem (sh s) = 0 /\ flush_ack_sem (sh s) = 0 /\
  forall j d, pcs s !! j = Some d -> j <> i -> exists fin, d = AckWait fin.
Proof.
  intros I L Hh Hw. pose proof (i_tokens _ I) as T.
  pose proof (total_lookup (held (List.length (pcs s))) _ _ _ L) as G.
  pose proof (total_others waits _ _ _ auto_waits_le L Hw) as W. split_and!; [lia..|].
  intros j d M N. assert (waits d = 1) by (eapply (total_all_others waits _ i c j d); eauto using auto_waits_le; lia).
  destruct d; try done. eauto.
Qed.

(** What a step needs to show about the thread that moves. *)
Lemma auto_inv_move s i c sh' c' :
  inv s -> pcs s !! i = Some c ->
  let n := List.length (pcs s) in
  waits c' + ack_sem (sh s) + held n c + flush_ack_sem (sh s) = waits c + ack_sem sh' + held n c' + flush_ack_sem sh' ->
  doneThreads sh' + past c = doneThreads (sh s) + past c' -> doneThreads (sh s) <= doneThreads sh' ->
  (c' = Exit -> doneThreads (sh s) = n) ->
  (waitingFlush sh' = true -> in_window c' \/ waitingFlush (sh s) = true /\ ~ in_window c) ->
  (match c' with FlushCollect _ => True | _ => False end \/
   match c with FlushCollect _ => False | _ => True end /\ (ack_sem sh' <= ack_sem (sh s) \/ exists fin, c = AckPost fin)
     /\ (forall fin, c' = AckPost fin -> collects s) \/
   ack_sem sh' = 0 /\ (forall fin, c' <> AckPost fin) /\ forall j fin, j <> i -> pcs s !! j <> Some (AckPost fin)) ->
  inv {| sh := sh'; pcs := <[i := c']> (pcs s) |}.
Proof.
  intros I L n T D Dle Ex Wt Co. subst n. pose proof (lookup_lt_Some _ _ _ L) as Li.
  set (s' := {| sh := sh'; pcs := <[i := c']> (pcs s) |}).
  assert (Hi : pcs s' !! i = Some c') by (simpl; by rewrite list_lookup_insert_eq).
  assert (Keep : collects s -> match c' with FlushCollect _ => True | _ => False end \/ match c with FlushCollect _ => False | _ => True end -> collects s').
  { intros (j & k & M) H. destruct (decide (j = i)) as [->|N].
    - rewrite M in L. injection L as <-. destruct H; [|done]. destruct c'; try done. unfold collects. eauto.
    - exists j, k. simpl. by rewrite list_lookup_insert_ne. }
  assert (New : match c' with FlushCollect _ => True | _ => False end -> collects s')
    by (destruct c'; try done; unfold collects; eauto).
  pose proof (total_insert past _ _ _ c' L) as P.
  split; simpl; rewrite ?length_insert.
  - pose proof (total_insert waits _ _ _ c' L). pose proof (total_insert (held (List.length (pcs s))) _ _ _ c' L).
    pose proof (i_tokens _ I). lia.
  - pose proof (i_done _ I). lia.
  - assert (Le : total past (<[i := c']> (pcs s)) <= List.length (pcs s)).
    { pose proof (total_le past (<[i := c']> (pcs s)) past_le) as Q. by rewrite length_insert in Q. }
    pose proof (i_done _ I) as Hd.
    assert (Mono : doneThreads (sh s) = List.length (pcs s) -> doneThreads sh' = List.length (pcs s)) by lia.
    intros j [[-> Hc]|[N M]]%lookup_insert_cases; apply Mono; [by apply Ex | by eapply (i_exit _ I)].
  - intros W. destruct (Wt W) as [H|[H Hn]]; [exists i, c'; by rewrite list_lookup_insert_eq|].
    destruct (i_waiting _ I H) as (j & d & M & Hd). destruct (decide (j = i)) as [->|N].
    + rewrite M in L. by injection L as <-.
    + exists j, d. by rewrite list_lookup_insert_ne.
  - intros A. destruct Co as [H|[(Hc & [Ha|[fin ->]] & _)|(Ha & _)]]; [auto | | | lia].
    + apply Keep; [apply (i_acks _ I); lia | by right].
    + apply Keep; [by eapply (i_posts _ I) | by right].
  - intros j fin Hj. destruct Co as [H|[(Hc & _ & Hp)|(_ & Hp & Hq)]]; [by apply New | |].
    + apply Keep; [|by right]. apply lookup_insert_cases in Hj as [[-> E]|[N M]]; [by apply (Hp fin) | by eapply (i_posts _ I)].
    + apply lookup_insert_cases in Hj as [[-> E]|[N M]]; [by destruct (Hp fin) | by destruct (Hq j fin (not_eq_sym N))].
Qed.

Ltac turn I L :=
  refine (auto_inv_move _ _ _ _ _ I L _ _ _ _ _ _);
  cbn [waits held past in_window with_store with_warning with_waiting with_done with_sems
       store influshWarning waitingFlush doneThreads ack_sem flush_ack_sem]; try done; try lia;
  try (by intros; left); try (by intros; right; split; [|by intros ?]); try (by left);
  try (by right; left; split_and!; [|left; lia|]).

Lemma step_go s i c sh' c' : inv s -> pcs s !! i = Some c ->
  thread_step i (List.length (pcs s)) Go c (sh s) = Some (sh', c') -> inv {| sh := sh'; pcs := <[i := c']> (pcs s) |}.
Proof.
  intros I L. destruct c as [|f|f|f|f|f|f| | | | | |k| | |k| | |]; try done; cbn [thread_step ack_flush thread_done flush]; unfold returns.
  - intros [= <- <-]. destruct (influshWarning (sh s)), f; turn I L.
  - intros [= <- <-]. destruct (decide _) as [E|N], f; turn I L.
  - intros [= <- <-]. destruct (waitingFlush (sh s)) eqn:W, f; turn I L.
    all: right; left; split_and!; [done | left; lia |].
    all: intros _ _; destruct (i_waiting _ I W) as (j & d & M & Hd).
    all: assert (N : i <> j) by (intros <-; rewrite L in M; injection M as <-; done).
    all: destruct d; try done; [by exists j, k | |].
    all: by destruct (auto_all_wait _ _ _ I M eq_refl eq_refl) as (_ & _ & O); destruct (O _ _ L N).
  - intros [= <- <-]. destruct f; turn I L; right; left; split_and!; eauto; done.
  - destruct (flush_ack_sem (sh s)) as [|r] eqn:R; [done|]. intros [= <- <-]. destruct f; turn I L.
  - intros [= <- <-]. destruct f; turn I L.
  - intros [= <- <-]. turn I L.
  - intros [= <- <-]. turn I L.
  - intros [= <- <-]. turn I L.
  - intros [= <- <-]. destruct (decide _); turn I L.
  - intros [= <- <-]. turn I L.
  - destruct (decide _) as [E|N].
    + intros [= <- <-]. turn I L. right; right. destruct (auto_all_wait _ _ _ I L E eq_refl) as (A & _ & O).
      split_and!; [done | done |]. intros j fin N M. by destruct (O _ _ M N).
    + destruct (ack_sem (sh s)) as [|a] eqn:A; [done|]. intros [= <- <-]. turn I L.
  - intros [= <- <-]. turn I L.
  - intros [= <- <-]. turn I L.
  - destruct k; intros [= <- <-]; turn I L.
  - intros [= <- <-]. turn I L.
  - intros [= <- <-]. turn I L.
Qed.

Lemma auto_step_inv s i a s' : inv s -> step i a s = Some s' -> inv s'.
Proof.
  intros I S. unfold step in S. destruct (pcs s !! i) as [c|] eqn:L; [|done]. simpl in S.
  destruct (thread_step _ _ _ _ _) as [[sh' c']|] eqn:T; [|done]. injection S as <-.
  destruct a; [| | | |by eapply step_go]; destruct c; try done; simpl in T.
  - injection T as <- <-. turn I L.
  - unfold set_global_epoch in T. destruct (_ >? _)%Z; [|injection T as <- <-; turn I L].
    destruct (is_in_flush _); injection T as <- <-; turn I L.
  - injection T as <- <-. turn I L.
  - injection T as <- <-. turn I L.
Qed.

Lemma auto_reachable_inv n s : reachable n s -> inv s /\ List.length (pcs s) = n.
Proof.
  induction 1 as [|i a s s' _ [I E] S]; [split; [apply auto_inv_init | apply length_replicate]|].
  split; [by eapply auto_step_inv|]. unfold step in S. destruct (pcs s !! i) as [c|]; [|done]. simpl in S.
  destruct (thread_step _ _ _ _ _) as [[sh' c']|]; [|done]. injection S as <-. simpl. by rewrite length_insert.
Qed.

(** ** Deadlocks *)

Definition blocked (s : state) (c : pc) : Prop :=
  match c with
  | AckWait _ => flush_ack_sem (sh s) = 0
  | FlushCollect k => ack_sem (sh s) = 0 /\ k <> List.length (pcs s) - 1
  | Exit => True
  | _ => False
  end.
Definition collecting (c : pc) : nat := match c with FlushCollect _ => 1 | _ => 0 end.
Definition stuck (s : state) : Prop := forall i a, step i a s = None.

Lemma stuck_blocked s i c : stuck s -> pcs s !! i = Some c -> blocked s c.
Proof.
  intros S L.
  assert (T : forall a, thread_step i (List.length (pcs s)) a c (sh s) = None).
  { intros a. specialize (S i a). unfold step in S. rewrite L in S. simpl in S.
    by destruct (thread_step _ _ _ _ _) as [[]|]. }
  pose proof (T Go) as G. pose proof (T AckFlush) as W.
  destruct c as [| | | | | | | | | | | |k| | |[]| | |]; simpl in *; try done.
  - by destruct (flush_ack_sem (sh s)).
  - case_decide; [done|]. by destruct (ack_sem (sh s)).
Qed.

(** A deadlock has two flushers. *)
Lemma stuck_two s : inv s -> stuck s -> (exists i c, pcs s !! i = Some c /\ c <> Exit) ->
  2 <= total collecting (pcs s).
Proof.
  intros I S (i0 & c0 & L0 & N0). pose proof (i_tokens _ I) as T.
  assert (Hc : collects s).
  { pose proof (stuck_blocked _ _ _ S L0) as B0. destruct c0; try done; [|by eexists _, _].
    pose proof (total_lookup waits _ _ _ L0) as W. simpl in W, B0.
    destruct (decide (total (held (List.length (pcs s))) (pcs s) = 0)) as [Z|(j & d & M & Hd)%total_pos].
    - apply (i_acks _ I). lia.
    - pose proof (stuck_blocked _ _ _ S M) as B. destruct d; try done. by exists j, k. }
  destruct Hc as (i & k & L). destruct (stuck_blocked _ _ _ S L) as [Ea Ek].
  destruct (decide (2 <= total collecting (pcs s))) as [|Hno]; [done|]. exfalso.
  assert (O : forall j d, pcs s !! j = Some d -> j <> i -> exists f, d = AckWait f).
  { intros j d M N. pose proof (stuck_blocked _ _ _ S M) as B. destruct d; try done; [by eauto | |].
    - pose proof (total_insert collecting _ _ _ Work L) as Q. simpl in Q.
      rewrite <-(list_lookup_insert_ne _ i j Work) in M by done. pose proof (total_lookup collecting _ _ _ M) as R.
      simpl in R. lia.
    - pose proof (i_exit _ I _ M) as X. rewrite (i_done _ I) in X.
      pose proof (total_others past _ _ _ past_le L eq_refl). lia. }
  rewrite (total_only (held _) _ _ _ L) in T by (intros j d M N; by destruct (O j d M N) as [? ->]).
  pose proof (total_ge_others waits (pcs s) i) as W. simpl in T.
  assert (F : List.length (pcs s) <= total waits (pcs s) + 1).
  { apply W. intros j d M N. by destruct (O j d M N) as [? ->]. }
  pose proof (total_others waits _ _ _ auto_waits_le L eq_refl) as G. pose proof (lookup_lt_Some _ _ _ L) as Li.
  assert (R : List.length (pcs s) = 1 \/ flush_ack_sem (sh s) = 0); [|lia].
  destruct (decide (List.length (pcs s) = 1)) as [|N1]; [by left | right].
  destruct (lookup_lt_is_Some_2 (pcs s) (if decide (i = 0) then 1 else 0)) as [d M]; [case_decide; lia|].
  destruct (O _ _ M) as [f ->]; [case_decide; lia|]. exact (stuck_blocked _ _ _ S M).
Qed.

Lemma auto_reachable_run n l s s' : reachable n s -> run l s = Some s' -> reachable n s'.
Proof.
  revert s. induction l as [|[i a] l IH]; intros s R; simpl; [by intros [= <-]|].
  destruct (step i a s) as [s1|] eqn:S; [|done]. simpl. intros H. eapply IH; [|done]. by eapply reach_step.
Qed.

(** [C15]. [flush] and [ack_flush] by any number of threads, in any interleaving, epochs
    advanced and tests ended at any time.  When a thread writes the lines back all others
    wait in [ack_flush], so that no store races with the flush.  The threads deadlock only if
    two of them flush at the same time; otherwise all have left their test. *)
Theorem flush_meets n s : reachable n s ->
  (forall i j d, pcs s !! i = Some Flush -> pcs s !! j = Some d -> j <> i -> exists fin, d = AckWait fin) /\
  (stuck s -> (forall i c, pcs s !! i = Some c -> c = Exit) \/ 2 <= total collecting (pcs s)).
Proof.
  intros [I _]%auto_reachable_inv. split.
  - intros i j d L M N. destruct (auto_all_wait _ _ _ I L eq_refl eq_refl) as (_ & _ & O). eauto.
  - intros S. destruct (decide (2 <= total collecting (pcs s))) as [|C]; [by right | left].
    intros i c L. destruct (decide (c = Exit)); [done|]. destruct C. apply stuck_two; eauto.
Qed.

Definition acks : list (nat * action) := [(1, AckFlush); (1, Go); (1, Go); (1, Go); (1, Go)].
Definition gos (i k : nat) : list (nat * action) := replicate k (i, Go).

(** Two threads at a point of a run. *)
Lemma flush_meets_witness : exists s, run ([(0, SetEpoch 2)] ++ gos 0 3 ++ acks ++ gos 0 2) (init 2) = Some s /\
  pcs s = [Flush; AckWait false] /\
  forall d, pcs s !! 1 = Some d -> exists fin, d = AckWait fin.
Proof.
  eexists. split; [vm_compute; reflexivity|]. split; [reflexivity|]. intros d M.
  refine (proj1 (flush_meets 2 _ _) 0 1 d _ M _).
  - eapply (auto_reachable_run 2 ([(0, SetEpoch 2)] ++ gos 0 3 ++ acks ++ gos 0 2)); [apply reach_init | vm_compute; reflexivity].
  - reflexivity.
  - discriminate.
Defined.

(** [C32]. Three runs from the start in which the protocol fails.  (1) Two threads advance the
    epoch before either has set the warning: both collect acknowledgements, for ever.  (2) A
    thread changes a node after the epoch advanced and before it acknowledges: its checkpoint
    drops the record, the node counts as logged, and its next change is in no log; all threads
    work and a crash loses data.  (3) With three threads one takes the release that another
    has not yet taken from the flush before: it drops its log and works while the flush it
    acknowledged still collects. *)
Theorem flush_failures :
  (exists l s, run l (init 2) = Some s /\ pcs s = [FlushCollect 0; FlushCollect 0] /\ stuck s) /\
  (exists l s, run l (init 2) = Some s /\ pcs s = [Work; Work] /\ ~ recoverable (store (sh s))) /\
  (exists l s, run l (init 3) = Some s /\ pcs s = [FlushCollect 0; Work; AckWait false] /\ ~ recoverable (store (sh s))).
Proof.
  split_and!.
  - exists ([(0, SetEpoch 2%Z); (1, SetEpoch 3%Z)] ++ gos 0 3 ++ gos 1 3). eexists. split; [vm_compute; reflexivity|].
    split; [reflexivity|]. intros [|[|i]] []; reflexivity.
  - exists ([(0, SetEpoch 2%Z); (1, Change 7 10)] ++ gos 0 3 ++ acks ++ gos 0 8 ++ gos 1 2 ++ [(1, Change 7 11)]).
    eexists. split; [vm_compute; reflexivity|]. split; [reflexivity|].
    apply (lost_record 7); [by vm_compute | by constructor].
  - exists ([(0, SetEpoch 2%Z)] ++ gos 0 3 ++ acks ++ [(2, AckFlush)] ++ gos 2 4 ++ gos 0 10 ++ gos 1 2 ++
            [(0, SetEpoch 3%Z)] ++ gos 0 3 ++ [(1, Change 8 5)] ++ acks ++ gos 1 2).
    eexists. split; [vm_compute; reflexivity|]. split; [reflexivity|].
    apply (lost_record 8); [by vm_compute | by constructor].
Qed.
End Automatic.
