(* ===== verification/ValueLog.v ===== *)
(** log.cc, log.hh, mtd.cc: the log of requests and its analysis at recovery.

    Each thread's updates go to a log of records: the update, or a mark of an epoch, of
    quiescence or of waking up.  Modelled are the bytes of the records, what [record] and the
    logger thread put in a log, the two passes that recovery makes over a log, the range of
    epochs it computes from all logs, and the loop that replays one log; what a replayed
    record does to the tree is in LogApply.  The machine is little-endian.  A structure ends
    with padding: its size is a multiple of 8 and its last field [buf_] starts 4 bytes before
    that, so every record ends with four bytes that nothing wrote. *)
From S2P Require Import Prelude StringSlice CircularInt.

(** * Records *)

Definition logcmd_none : Z := 0.
Definition logcmd_put : Z := 0x5455506B.
Definition logcmd_replace : Z := 0x3155506B.
Definition logcmd_modify : Z := 0x444F4D6B.
Definition logcmd_remove : Z := 0x4D45526B.
Definition logcmd_epoch : Z := 0x4F50456B.
Definition logcmd_quiesce : Z := 0x4955516B.
Definition logcmd_wake : Z := 0x4B41576B.

Definition sizeof_logrec_base : Z := 8.
Definition sizeof_logrec_epoch : Z := 16.
Definition sizeof_logrec_kv : Z := 24.
Definition sizeof_logrec_kvdelta : Z := 32.
Definition len (s : list Z) : Z := Z.of_nat (List.length s).

Definition logrec_base_store (command : Z) : list Z := le_bytes 4 command ++ le_bytes 4 sizeof_logrec_base.
Definition logrec_epoch_store (command epoch : Z) : list Z :=
  le_bytes 4 command ++ le_bytes 4 sizeof_logrec_epoch ++ le_bytes 8 epoch.
Definition logrec_kv_size (keylen vallen : Z) : Z := sizeof_logrec_kv + keylen + vallen.
Definition logrec_kv_store (command : Z) (key val : list Z) (ts : Z) (uninit : list Z) : list Z :=
  le_bytes 4 command ++ le_bytes 4 (logrec_kv_size (len key) (len val)) ++ le_bytes 8 ts ++
  le_bytes 4 (len key) ++ key ++ val ++ uninit.
Definition logrec_kvdelta_size (keylen vallen : Z) : Z := sizeof_logrec_kvdelta + keylen + vallen.
Definition logrec_kvdelta_store (command : Z) (key val : list Z) (prev_ts ts : Z) (uninit : list Z) : list Z :=
  le_bytes 4 command ++ le_bytes 4 (logrec_kvdelta_size (len key) (len val)) ++ le_bytes 8 ts ++
  le_bytes 8 prev_ts ++ le_bytes 4 (len key) ++ key ++ val ++ uninit.

(** A field of [n] bytes at offset [o], and the bytes from offset [o] on. *)
Definition field (n : nat) (o : nat) (buf : list Z) : Z := le_value (take n (drop o buf)).
Definition bytes_at (o n : Z) (buf : list Z) : list Z := take (Z.to_nat n) (drop (Z.to_nat o) buf).

Record logrecord := { command : Z; key : list Z; val : list Z; ts : Z; prev_ts : Z; epoch : Z }.
Definition logrecord_new : logrecord := {| command := 0; key := []; val := []; ts := 0; prev_ts := 0; epoch := 0 |}.

Section Format.
Context (maxkeylen : Z).

(** [logrecord::extract]: the record, and how far the position moves; a failure moves it to
    the end.  For a short [kvdelta] the key length is read beyond the record, and whatever it
    is the test after it fails. *)
Definition extract (lr : logrecord) (buf : list Z) : logrecord * Z :=
  let with_command c := {| command := c; key := key lr; val := val lr; ts := ts lr; prev_ts := prev_ts lr; epoch := epoch lr |} in
  let fail := (with_command logcmd_none, len buf) in
  let size_ := field 4 4 buf in
  let command_ := field 4 0 buf in
  if (len buf <? sizeof_logrec_base) || (size_ <? sizeof_logrec_base) || (len buf <? size_) || (command_ =? logcmd_none)
  then fail
  else if (command_ =? logcmd_put) || (command_ =? logcmd_replace) || (command_ =? logcmd_remove) then
    let keylen_ := field 4 16 buf in
    if (size_ <? sizeof_logrec_kv) || (maxkeylen <? keylen_) || (size_ <? sizeof_logrec_kv + keylen_) then fail
    else ({| command := command_; key := bytes_at 20 keylen_ buf;
             val := bytes_at (20 + keylen_) (size_ - sizeof_logrec_kv - keylen_) buf;
             ts := field 8 8 buf; prev_ts := prev_ts lr; epoch := epoch lr |}, size_)
  else if command_ =? logcmd_modify then
    let keylen_ := field 4 24 buf in
    if (maxkeylen <? keylen_) || (size_ <? sizeof_logrec_kvdelta + keylen_) then fail
    else ({| command := command_; key := bytes_at 28 keylen_ buf;
             val := bytes_at (28 + keylen_) (size_ - sizeof_logrec_kvdelta - keylen_) buf;
             ts := field 8 8 buf; prev_ts := field 8 16 buf; epoch := epoch lr |}, size_)
  else if command_ =? logcmd_epoch then
    if size_ <? sizeof_logrec_epoch then fail
    else ({| command := command_; key := key lr; val := val lr; ts := ts lr; prev_ts := prev_ts lr;
             epoch := field 8 8 buf |}, size_)
  else (with_command command_, size_).

(** * The passes over a log *)

Record info_type := {
  first_epoch : Z; last_epoch : Z; wake_epoch : Z; min_post_quiescent_wake_epoch : Z; quiescent : bool }.
Definition info_new : info_type :=
  {| first_epoch := 0; last_epoch := 0; wake_epoch := 0; min_post_quiescent_wake_epoch := 0; quiescent := true |}.

(** One turn of the loop of [logreplay::info]; [None] leaves the loop with the values of the
    second component, which a record of a wrong kind may have changed. *)
Definition info_epoch (e : Z) (x : info_type) : info_type :=
  {| first_epoch := if first_epoch x =? 0 then e else first_epoch x; last_epoch := e;
     wake_epoch := if negb (wake_epoch x =? 0) && op_gt 64 (wake_epoch x) e then 0 else wake_epoch x;
     min_post_quiescent_wake_epoch := min_post_quiescent_wake_epoch x; quiescent := quiescent x |}.
Definition info_wake (x : info_type) : info_type :=
  {| first_epoch := first_epoch x; last_epoch := last_epoch x; wake_epoch := last_epoch x;
     min_post_quiescent_wake_epoch := min_post_quiescent_wake_epoch x; quiescent := quiescent x |}.
Definition info_quiescent (q : bool) (x : info_type) : info_type :=
  {| first_epoch := first_epoch x; last_epoch := last_epoch x; wake_epoch := wake_epoch x;
     min_post_quiescent_wake_epoch := min_post_quiescent_wake_epoch x; quiescent := q |}.
Definition is_update (c : Z) : bool :=
  (c =? logcmd_put) || (c =? logcmd_replace) || (c =? logcmd_modify) || (c =? logcmd_remove).
Fixpoint info_loop (fuel : nat) (buf : list Z) (x : info_type) : info_type :=
  match fuel with
  | O => x
  | S fuel =>
      let c := field 4 0 buf in
      let size_ := field 4 4 buf in
      if len buf <? sizeof_logrec_base then x
      else if size_ <? sizeof_logrec_base then x
      else if len buf <? size_ then x
      else
        let x := info_quiescent (c =? logcmd_quiesce) x in
        let next := info_loop fuel (drop (Z.to_nat size_) buf) in
        if c =? logcmd_epoch then
          if size_ <? sizeof_logrec_epoch then x else next (info_epoch (field 8 8 buf) x)
        else if c =? logcmd_wake then next (info_wake x)
        else if is_update c || (c =? logcmd_quiesce) then next x
        else x
  end.
Definition info (buf : list Z) : info_type := info_loop (S (List.length buf)) buf info_new.

Fixpoint wake_loop (fuel : nat) (quiescent_epoch : Z) (buf : list Z) (e : Z) : Z :=
  match fuel with
  | O => 0
  | S fuel =>
      let c := field 4 0 buf in
      let size_ := field 4 4 buf in
      if (len buf <? sizeof_logrec_base) || (size_ <? sizeof_logrec_base) || (len buf <? size_) then 0
      else
        let next := wake_loop fuel quiescent_epoch (drop (Z.to_nat size_) buf) in
        if c =? logcmd_epoch then if size_ <? sizeof_logrec_epoch then 0 else next (field 8 8 buf)
        else if (c =? logcmd_wake) && negb (e =? 0) && op_ge 64 e quiescent_epoch then e
        else next e
  end.
Definition min_post_quiescent_wake (quiescent_epoch : Z) (buf : list Z) : Z :=
  wake_loop (S (List.length buf)) quiescent_epoch buf 0.

(** The loop of [replayandclean1]: the records it runs, the count it returns, and the part of
    the log it keeps.  [None] is a failed assertion. *)
Record replay_state := {
  pos : Z; repbegin : option Z; repend : option Z; lr_ : logrecord; applied : list logrecord; nr : Z }.
Definition truthy (e : Z) : bool := negb (e =? 0).

Fixpoint replay_loop (fuel : nat) (min_epoch max_epoch : Z) (buf : list Z) (s : replay_state) : option replay_state :=
  match fuel with
  | O => None
  | S fuel =>
      if len buf <=? pos s then Some s
      else
        let '(lr, size_) := extract (lr_ s) (drop (Z.to_nat (pos s)) buf) in
        let nextpos := pos s + size_ in
        let stop := {| pos := pos s; repbegin := repbegin s; repend := repend s; lr_ := lr; applied := applied s; nr := nr s |} in
        if command lr =? logcmd_none then Some stop
        else
          let is_epoch := command lr =? logcmd_epoch in
          let before := truthy min_epoch && op_lt 64 (epoch lr) min_epoch in
          let rb := if is_epoch && (before || negb (truthy min_epoch) && negb (bool_decide (is_Some (repbegin s))))
                    then Some (pos s) else repbegin s in
          if is_epoch && op_ge 64 (epoch lr) max_epoch then
            match rb with
            | None => None
            | Some _ => Some {| pos := pos s; repbegin := rb; repend := Some nextpos; lr_ := lr; applied := applied s; nr := nr s |}
            end
          else if negb (truthy (epoch lr)) || before then
            replay_loop fuel min_epoch max_epoch buf
              {| pos := nextpos; repbegin := rb; repend := match rb with Some _ => Some nextpos | None => repend s end;
                 lr_ := lr; applied := applied s; nr := nr s |}
          else
            match rb with
            | None => None
            | Some _ =>
                let entry := 0 <? len (key lr) in
                replay_loop fuel min_epoch max_epoch buf
                  {| pos := nextpos; repbegin := rb; repend := Some nextpos; lr_ := lr;
                     applied := if entry && is_update (command lr) then applied s ++ [lr] else applied s;
                     nr := if entry then nr s + 1 else nr s |}
            end
  end.
Definition replay_start : replay_state :=
  {| pos := 0; repbegin := None; repend := None; lr_ := logrecord_new; applied := []; nr := 0 |}.
(** The records, the count and the new content of the log file. *)
Definition replayandclean1 (min_epoch max_epoch : Z) (buf : list Z) : option (list logrecord * Z * list Z) :=
  s ← replay_loop (S (List.length buf)) min_epoch max_epoch buf replay_start;
  let '(b, e) := match repbegin s, repend s with
                 | None, _ => (0, 0)
                 | Some b, None => (b, pos s)
                 | Some b, Some e => (b, e)
                 end in
  Some (applied s, nr s, bytes_at b (e - b) buf).
End Format.

(** * The range of epochs to replay: recover of mtd.cc *)

Section Recover.
(** [uninit] is the [quiescent] of an [info_type] that [new] left uninitialized, for a log that is
    absent or empty. *)
Context (uninit : bool).

Definition log_info (buf : list Z) : info_type :=
  match buf with [] => info_quiescent uninit info_new | _ => info buf end.
(** The maximum and the minimum over the logs, where 0 is no value yet. *)
Definition max_over (f : info_type -> Z) (m : Z) (its : list info_type) : Z :=
  foldl (fun m it => if truthy (f it) && (negb (truthy m) || op_lt 64 m (f it)) then f it else m) m its.
Definition min_quiescent (its : list info_type) : Z :=
  foldl (fun m it => if quiescent it && (negb (truthy m) || op_gt 64 m (last_epoch it)) then last_epoch it else m) 0 its.
(** [rec_replay_min_quiescent_last_epoch]. *)
Definition missed_wake (its : list info_type) : Z :=
  let max_wake_epoch := max_over wake_epoch 0 its in
  let min_quiescent_last_epoch := min_quiescent its in
  if truthy max_wake_epoch && op_le 64 min_quiescent_last_epoch max_wake_epoch then min_quiescent_last_epoch else 0.
(** The second pass of [logreplay::replay]. *)
Definition analyze_wake (missed : Z) (buf : list Z) (it : info_type) : info_type :=
  match buf with
  | [] => it
  | _ => if truthy missed && op_le 64 missed (wake_epoch it)
         then {| first_epoch := first_epoch it; last_epoch := last_epoch it; wake_epoch := wake_epoch it;
                 min_post_quiescent_wake_epoch := min_post_quiescent_wake missed buf; quiescent := quiescent it |}
         else it
  end.
Definition replay_max (m : Z) (its : list info_type) : Z :=
  foldl (fun m it =>
    let m := if negb (quiescent it) && truthy (last_epoch it) && op_lt 64 (last_epoch it) m then last_epoch it else m in
    if truthy (min_post_quiescent_wake_epoch it) && op_lt 64 (min_post_quiescent_wake_epoch it) m
    then min_post_quiescent_wake_epoch it else m) m its.

(** The bounds [rec_replay_min_epoch] and [rec_replay_max_epoch]; [None] is a failed check. *)
Definition replay_range (ckp_min ckp_max : Z) (logs : list (list Z)) : option (Z * Z) :=
  let its := map log_info logs in
  let max_epoch := max_over last_epoch (if truthy ckp_max then next_nonzero 64 ckp_max else ckp_max) its in
  let max_first_epoch := max_over first_epoch 0 its in
  let its := zip_with (analyze_wake (missed_wake its)) logs its in
  let rmax := replay_max max_epoch its in
  if negb (truthy ckp_min)
     || op_gt 64 ckp_min max_first_epoch && op_lt 64 ckp_min rmax && op_lt 64 ckp_max rmax
  then Some (ckp_min, rmax) else None.
(** The replay of all logs. *)
Definition recover_logs (maxkeylen ckp_min ckp_max : Z) (logs : list (list Z)) : option (list (list logrecord * Z * list Z)) :=
  '(mn, mx) ← replay_range ckp_min ckp_max logs;
  mapM (fun buf => match buf with [] => Some ([], 0, []) | _ => replayandclean1 maxkeylen mn mx buf end) logs.
End Recover.

(** * Writing a log *)

(** The state of a [loginfo] and its file.  [buf_] holds the bytes up to [pos_]; [x_buf] is the
    buffer the logger took to write, with the epoch it will count as flushed; [waiting_] are
    the threads that wait for room, in order. *)
Record loginfo := {
  len_ : Z; buf_ : list Z; waiting_ : list Z; log_epoch_ : Z; quiescent_epoch_ : Z; log_wake_epoch_ : Z;
  flushed_epoch_ : Z; x_buf : option (list Z * Z); file : list Z }.
Definition loginfo_new (len : Z) (file : list Z) : loginfo :=
  {| len_ := len; buf_ := []; waiting_ := []; log_epoch_ := 0; quiescent_epoch_ := 0; log_wake_epoch_ := 0;
     flushed_epoch_ := 0; x_buf := None; file := file |}.

Record query_times := { qepoch : Z; qts : Z; qprev_ts : Z }.
(** The arguments of a call of [record], and the padding its record ends with. *)
Record request := { rcommand : Z; rtimes : query_times; rkey : list Z; rvalue : list Z; rpad : list Z }.

Fixpoint raise_wake (fuel : nat) (cell we e : Z) : option (Z * Z) :=
  match fuel with
  | O => None
  | S fuel => if op_lt 64 we e then let '(cell, we) := cmpxchg cell we e in raise_wake fuel cell we e else Some (cell, we)
  end.

Definition set_log (s : loginfo) (buf : list Z) (w : list Z) (le qe we fe : Z) : loginfo :=
  {| len_ := len_ s; buf_ := buf; waiting_ := w; log_epoch_ := le; quiescent_epoch_ := qe; log_wake_epoch_ := we;
     flushed_epoch_ := fe; x_buf := x_buf s; file := file s |}.

Definition record_size (r : request) : Z :=
  logrec_kvdelta_size (len (rkey r)) (len (rvalue r)) + sizeof_logrec_epoch + sizeof_logrec_base.
Definition update_store (r : request) : list Z :=
  let t := rtimes r in
  if (rcommand r =? logcmd_put) && truthy (qprev_ts t) && negb (Z.odd (qprev_ts t))
  then logrec_kvdelta_store logcmd_modify (rkey r) (rvalue r) (qprev_ts t) (qts t) (rpad r)
  else logrec_kv_store (rcommand r) (rkey r) (rvalue r) (qts t) (rpad r).

(** What a turn of the loop of [record] that has room does; [cell] is [global_wake_epoch]. *)
Definition record_now (r : request) (cell : Z) (s : loginfo) : option (loginfo * Z) :=
  let e := qepoch (rtimes r) in
  let we := cell in
  let '(le, buf) := if e =? log_epoch_ s then (log_epoch_ s, buf_ s) else (e, buf_ s ++ logrec_epoch_store logcmd_epoch e) in
  '(fe, qe, cell, we) ← (if truthy (quiescent_epoch_ s)
    then let fe := if flushed_epoch_ s =? quiescent_epoch_ s then e else flushed_epoch_ s in
         '(cell, we) ← raise_wake 3 cell we e; Some (fe, 0, cell, we)
    else Some (flushed_epoch_ s, quiescent_epoch_ s, cell, we));
  let we := if negb (we =? log_wake_epoch_ s) && op_lt 64 e we then e else we in
  let '(wk, buf) := if we =? log_wake_epoch_ s then (log_wake_epoch_ s, buf) else (we, buf ++ logrec_base_store logcmd_wake) in
  Some (set_log s (buf ++ update_store r) (waiting_ s) le qe wk fe, cell).

(** A turn of thread [id], [queued] when it has waited before: [true] with the record
    written, or [false] with the thread in the queue. *)
Definition record (id : Z) (queued : bool) (r : request) (cell : Z) (s : loginfo) : option (loginfo * Z * bool) :=
  let first := match waiting_ s with [] => false | w :: _ => w =? id end in
  if (record_size r <=? u32 (len_ s - len (buf_ s))) && (negb queued || first) then
    '(s, cell) ← record_now r cell s;
    let w := if first then tl (waiting_ s) else waiting_ s in
    Some (set_log s (buf_ s) w (log_epoch_ s) (quiescent_epoch_ s) (log_wake_epoch_ s) (flushed_epoch_ s), cell, true)
  else
    let w := if queued then waiting_ s else waiting_ s ++ [id] in
    Some (set_log s (buf_ s) w (log_epoch_ s) (quiescent_epoch_ s) (log_wake_epoch_ s) (flushed_epoch_ s), cell, false).

(** The locked part of a turn of [run]; [ge] is [global_log_epoch]. *)
Definition run_locked (recovering : bool) (ge we : Z) (s : loginfo) : loginfo :=
  let '(wk, qe) := if log_wake_epoch_ s =? we then (log_wake_epoch_ s, quiescent_epoch_ s) else (we, 0) in
  let '(buf, le, qe) :=
    if negb recovering && (len (buf_ s) =? 0) && negb (truthy qe) && negb (ge =? log_epoch_ s) && negb (ge =? we)
       && match waiting_ s with [] => true | _ => false end
    then (logrec_epoch_store logcmd_epoch ge ++ (if ge =? wk then logrec_base_store logcmd_wake else [])
            ++ logrec_base_store logcmd_quiesce, ge, ge)
    else (buf_ s, log_epoch_ s, qe) in
  if negb recovering && (0 <? len buf)
  then {| len_ := len_ s; buf_ := []; waiting_ := waiting_ s; log_epoch_ := le; quiescent_epoch_ := qe; log_wake_epoch_ := wk;
          flushed_epoch_ := flushed_epoch_ s; x_buf := Some (buf, le); file := file s |}
  else set_log s buf (waiting_ s) le qe wk (flushed_epoch_ s).
(** The rest of the turn: the write and the [fsync]. *)
Definition run_write (s : loginfo) : loginfo :=
  match x_buf s with
  | None => s
  | Some (b, e) =>
      {| len_ := len_ s; buf_ := buf_ s; waiting_ := waiting_ s; log_epoch_ := log_epoch_ s;
         quiescent_epoch_ := quiescent_epoch_ s; log_wake_epoch_ := log_wake_epoch_ s;
         flushed_epoch_ := e; x_buf := None; file := file s ++ b |}
  end.

(** A log and [global_wake_epoch] under the calls of threads, other logs that raise the cell, and
    the two parts of a turn of the logger, which takes no new buffer before it wrote the old. *)
Inductive log_op := Record (id : Z) (queued : bool) (r : request) | Wake (we : Z) | Locked (recovering : bool) (ge : Z) | Write.
Definition log_step (o : log_op) (s : loginfo) (cell : Z) : option (loginfo * Z * list request) :=
  match o with
  | Record id queued r =>
      '(s, cell, done) ← record id queued r cell s; Some (s, cell, if done : bool then [r] else [])
  | Wake we => Some (s, we, [])
  | Locked recovering ge =>
      match x_buf s with Some _ => None | None => Some (run_locked recovering ge cell s, cell, []) end
  | Write => Some (run_write s, cell, [])
  end.
Fixpoint log_run (os : list log_op) (s : loginfo) (cell : Z) : option (loginfo * Z * list request) :=
  match os with
  | [] => Some (s, cell, [])
  | o :: os =>
      '(s, cell, rs) ← log_step o s cell;
      '(s, cell, rs') ← log_run os s cell;
      Some (s, cell, rs ++ rs')
  end.

(** * Lemmas on the bytes *)

(** What a log is made of. *)
Inductive entry :=
| EEpoch (e : Z) | EWake | EQuiesce
| EKv (command : Z) (key val : list Z) (ts : Z) (pad : list Z)
| EDelta (key val : list Z) (prev_ts ts : Z) (pad : list Z).
Definition encode (x : entry) : list Z :=
  match x with
  | EEpoch e => logrec_epoch_store logcmd_epoch e
  | EWake => logrec_base_store logcmd_wake
  | EQuiesce => logrec_base_store logcmd_quiesce
  | EKv c k v t p => logrec_kv_store c k v t p
  | EDelta k v p t u => logrec_kvdelta_store logcmd_modify k v p t u
  end.

Lemma len_app a b : len (a ++ b) = len a + len b.
Proof. unfold len. rewrite length_app. lia. Qed.
Lemma len_nonneg a : 0 <= len a.
Proof. unfold len. lia. Qed.
Lemma len_le_bytes n x : len (le_bytes n x) = Z.of_nat n.
Proof. unfold len. by rewrite length_le_bytes. Qed.
Lemma le_value_small n x : 0 <= x < 256 ^ Z.of_nat n -> le_value (le_bytes n x) = x.
Proof. intros H. rewrite le_value_bytes. by apply Z.mod_small. Qed.

(** Reading a field behind others. *)
Lemma field_app n o a b : (List.length a <= o)%nat -> field n o (a ++ b) = field n (o - List.length a) b.
Proof. intros H. unfold field. by rewrite drop_app_ge. Qed.
Lemma field_here n x b : 0 <= x < 256 ^ Z.of_nat n -> field n 0 (le_bytes n x ++ b) = x.
Proof.
  intros H. unfold field. rewrite drop_0, take_app_length' by by rewrite length_le_bytes. by apply le_value_small.
Qed.
Lemma field_next n m o x b : (m <= o)%nat -> field n o (le_bytes m x ++ b) = field n (o - m) b.
Proof. intros H. rewrite field_app; rewrite length_le_bytes; [done | lia]. Qed.
Lemma bytes_app o n a b : len a <= o -> bytes_at o n (a ++ b) = bytes_at (o - len a) n b.
Proof. unfold len. intros H. unfold bytes_at. rewrite drop_app_ge by lia. by replace (Z.to_nat (o - Z.of_nat (List.length a))) with (Z.to_nat o - List.length a)%nat by lia. Qed.
Lemma bytes_here n a b : len a = n -> bytes_at 0 n (a ++ b) = a.
Proof. unfold len. intros <-. unfold bytes_at. rewrite drop_0. apply take_app_length'. lia. Qed.

(** The lengths fit their fields. *)
Definition small (s : list Z) : Prop := len s < 2 ^ 31 - 64.
Definition entry_ok (maxkeylen : Z) (x : entry) : Prop :=
  match x with
  | EEpoch e => 0 <= e < 2 ^ 64
  | EWake | EQuiesce => True
  | EKv c k v t p =>
      (c = logcmd_put \/ c = logcmd_replace \/ c = logcmd_remove) /\ len k <= maxkeylen /\ small k /\ small v /\
      0 <= t < 2 ^ 64 /\ List.length p = 4%nat
  | EDelta k v pt t p =>
      len k <= maxkeylen /\ small k /\ small v /\ 0 <= pt < 2 ^ 64 /\ 0 <= t < 2 ^ 64 /\ List.length p = 4%nat
  end.
Definition entry_command (x : entry) : Z :=
  match x with
  | EEpoch _ => logcmd_epoch | EWake => logcmd_wake | EQuiesce => logcmd_quiesce
  | EKv c _ _ _ _ => c | EDelta _ _ _ _ _ => logcmd_modify
  end.
(** The record that [extract] makes of an entry, after [lr]. *)
Definition entry_record (lr : logrecord) (x : entry) : logrecord :=
  match x with
  | EEpoch e => {| command := logcmd_epoch; key := key lr; val := val lr; ts := ts lr; prev_ts := prev_ts lr; epoch := e |}
  | EKv c k v t _ => {| command := c; key := k; val := v; ts := t; prev_ts := prev_ts lr; epoch := epoch lr |}
  | EDelta k v pt t _ => {| command := logcmd_modify; key := k; val := v; ts := t; prev_ts := pt; epoch := epoch lr |}
  | _ => {| command := entry_command x; key := key lr; val := val lr; ts := ts lr; prev_ts := prev_ts lr; epoch := epoch lr |}
  end.

(** Tests between constants. *)
Ltac commands :=
  repeat match goal with
  | |- context [?a =? ?b] =>
      let r := eval vm_compute in (a =? b) in
      match r with true => change (a =? b) with true | false => change (a =? b) with false end
  end; change (16 <? sizeof_logrec_epoch) with false; cbn [orb andb negb]; cbn match.
Ltac fields := repeat first
  [ rewrite field_here by (cbv [small] in *; simpl; lia)
  | rewrite field_next by lia; simpl Nat.sub ].

Section Bytes.
Context (maxkeylen : Z).
Let entry_ok := entry_ok maxkeylen.
Let extract := extract maxkeylen.

Lemma encode_command x rest : entry_ok x -> field 4 0 (encode x ++ rest) = entry_command x.
Proof.
  destruct x as [e| | |c k v t p|k v pt t p]; intros H; cbn [encode entry_command];
    unfold logrec_epoch_store, logrec_base_store, logrec_kv_store, logrec_kvdelta_store; rewrite <- !app_assoc; try (by fields).
  apply field_here. destruct H as [[->|[->| ->]] _]; by vm_compute.
Qed.
Lemma encode_len x : entry_ok x -> len (encode x) = match x with EEpoch _ => 16 | EWake | EQuiesce => 8
  | EKv _ k v _ _ => 24 + len k + len v | EDelta k v _ _ _ => 32 + len k + len v end.
Proof.
  intros H. destruct x as [e| | |c k v t p|k v pt t p]; cbn [encode];
    unfold logrec_epoch_store, logrec_base_store, logrec_kv_store, logrec_kvdelta_store; rewrite ?len_app, ?len_le_bytes; try done;
    unfold len at 3; destruct_and! H; lia.
Qed.
Lemma encode_size x rest : entry_ok x -> field 4 4 (encode x ++ rest) = len (encode x).
Proof.
  intros H. rewrite encode_len by done. destruct x as [e| | |c k v t p|k v pt t p]; cbn [encode];
    unfold logrec_epoch_store, logrec_base_store, logrec_kv_store, logrec_kvdelta_store; rewrite <- !app_assoc; try (by fields).
  - simpl in H. destruct H as (_ & _ & H1 & H2 & _). pose proof (len_nonneg k). pose proof (len_nonneg v).
    unfold logrec_kv_size, sizeof_logrec_kv. by fields.
  - simpl in H. destruct H as (_ & H1 & H2 & _). pose proof (len_nonneg k). pose proof (len_nonneg v).
    unfold logrec_kvdelta_size, sizeof_logrec_kvdelta. by fields.
Qed.
Lemma encode_min x : entry_ok x -> 8 <= len (encode x) < 2 ^ 32.
Proof.
  intros H. rewrite encode_len by done. destruct x as [e| | |c k v t p|k v pt t p]; try lia;
    pose proof (len_nonneg k); pose proof (len_nonneg v); unfold entry_ok, ValueLog.entry_ok, small in H; destruct_and! H; lia.
Qed.

(** [extract] reads back an entry, whatever follows it. *)
Lemma extract_encode lr x rest : entry_ok x ->
  extract lr (encode x ++ rest) = (entry_record lr x, len (encode x)).
Proof.
  intros H. unfold extract, ValueLog.extract. rewrite encode_size, encode_command, len_app by done.
  pose proof (encode_min x H) as M. pose proof (len_nonneg rest).
  rewrite (proj2 (Z.ltb_ge _ sizeof_logrec_base)), (proj2 (Z.ltb_ge (len (encode x)) _)), (proj2 (Z.ltb_ge (_ + _) _))
    by (unfold sizeof_logrec_base; lia).
  assert (N : entry_command x =? logcmd_none = false).
  { destruct x as [e| | |c k v t p|k v pt t p]; try done. simpl in H. by destruct H as [[->|[->| ->]] _]. }
  rewrite N. cbn [orb]. rewrite encode_len by done.
  destruct x as [e| | |c k v t p|k v pt t p]; cbn [entry_command entry_record].
  - commands.
    cbn [encode]. unfold logrec_epoch_store. rewrite <- !app_assoc. simpl in H. by fields.
  - done.
  - done.
  - assert (C : (c =? logcmd_put) || (c =? logcmd_replace) || (c =? logcmd_remove) = true)
      by (simpl in H; by destruct H as [[->|[->| ->]] _]).
    rewrite C. simpl in H. destruct H as (_ & Hm & Hk & Hv & Ht & Hp). unfold small in Hk, Hv.
    pose proof (len_nonneg k). pose proof (len_nonneg v).
    cbn [encode]. unfold logrec_kv_store. rewrite <- !app_assoc.
    rewrite !bytes_app by (rewrite ?len_le_bytes; lia). rewrite !len_le_bytes. fields.
    rewrite (proj2 (Z.ltb_ge _ _)), (proj2 (Z.ltb_ge maxkeylen _)), (proj2 (Z.ltb_ge _ _)) by (unfold sizeof_logrec_kv; lia).
    cbn match. do 2 f_equal; [by apply bytes_here|].
    rewrite !bytes_app by (rewrite ?len_le_bytes; lia). rewrite !len_le_bytes.
    match goal with |- bytes_at ?o _ _ = _ => replace o with 0 by lia end. apply bytes_here. unfold sizeof_logrec_kv. lia.
  - commands.
    simpl in H. destruct H as (Hm & Hk & Hv & Hpt & Ht & Hp). unfold small in Hk, Hv.
    pose proof (len_nonneg k). pose proof (len_nonneg v).
    cbn [encode]. unfold logrec_kvdelta_store. rewrite <- !app_assoc.
    rewrite !bytes_app by (rewrite ?len_le_bytes; lia). rewrite !len_le_bytes. fields.
    rewrite (proj2 (Z.ltb_ge maxkeylen _)), (proj2 (Z.ltb_ge _ _)) by (unfold sizeof_logrec_kvdelta; lia).
    cbn match. do 2 f_equal; [by apply bytes_here|].
    rewrite !bytes_app by (rewrite ?len_le_bytes; lia). rewrite !len_le_bytes.
    match goal with |- bytes_at ?o _ _ = _ => replace o with 0 by lia end. apply bytes_here. unfold sizeof_logrec_kvdelta. lia.
Qed.

(** A record that a crash cut: [extract] fails. *)
Definition torn (part : list Z) : Prop :=
  part = [] \/ exists x m, entry_ok x /\ part = take m (encode x) /\ (m < List.length (encode x))%nat.

Lemma field_take n o m l : (o + n <= m)%nat -> field n o (take m l) = field n o l.
Proof. intros H. unfold field. rewrite skipn_firstn_comm, take_take. by rewrite Nat.min_l by lia. Qed.

Lemma extract_torn lr part : torn part -> command (fst (extract lr part)) = logcmd_none.
Proof.
  intros T. unfold extract, ValueLog.extract. destruct (Z.ltb_spec (len part) sizeof_logrec_base) as [|L]; [done|].
  destruct T as [->|(x & m & H & -> & Hm)]; [done|].
  assert (E : len (take m (encode x)) = Z.of_nat m) by (unfold len; rewrite length_take; lia).
  rewrite E in *. unfold sizeof_logrec_base in L.
  pose proof (encode_size x [] H) as S. rewrite app_nil_r in S.
  rewrite (field_take 4 4), S by lia. unfold len. rewrite (proj2 (Z.ltb_lt (Z.of_nat m) _)) by lia.
  by rewrite !orb_true_r.
Qed.

(** A prefix of a log is whole records and a torn one. *)
Definition encodes (es : list entry) : list Z := flat_map encode es.
Lemma cut_log es n : Forall entry_ok es ->
  exists k part, take n (encodes es) = encodes (take k es) ++ part /\ torn part /\
    forall j, (List.length (encodes (take j es)) <= n)%nat -> take j es `prefix_of` take k es.
Proof.
  revert n. induction es as [|x es IH]; intros n F.
  - exists 0%nat, []. split_and!; [by destruct n | by left |]. intros j _. by rewrite !take_nil.
  - apply list.Forall_cons in F as [Hx F].
    destruct (decide (n < List.length (encode x))%nat) as [Hn|Hn].
    + exists 0%nat, (take n (encode x)). split_and!.
      * cbn [encodes flat_map take app]. by rewrite take_app_le by lia.
      * right. eauto.
      * intros [|j]; [done|]. cbn [take encodes flat_map]. rewrite length_app. lia.
    + destruct (IH (n - List.length (encode x))%nat F) as (k & part & E & T & P).
      exists (S k), part. split_and!; [|done|].
      * cbn [encodes flat_map take]. rewrite take_app_ge by lia. unfold encodes in E. rewrite E. by rewrite app_assoc.
      * intros [|j]; [intros _; apply prefix_nil|]. cbn [take encodes flat_map]. rewrite length_app. intros L.
        apply prefix_cons, P. unfold encodes. lia.
Qed.
End Bytes.
