(* ===== verification/LogReplay.v ===== *)
(** log.cc, mtd.cc: proofs about the log of requests.

    The replay of the bytes of a log is a function on its records ([walk]), whatever torn
    record a crash left at the end; a log that [record] and the logger wrote gives back the
    requests with the epochs they were made in; the log that a replay keeps replays alike. *)
From S2P Require Import Prelude StringSlice CircularInt ValueLog.

(** What a record asks for: command, key, value, timestamp, the timestamp a modification
    expects, epoch. *)
Definition update : Type := Z * list Z * list Z * Z * Z * Z.
Definition update_epoch (u : update) : Z := u.2.
Definition update_key (u : update) : list Z := u.1.1.1.1.2.
Definition view (r : logrecord) : update :=
  (command r, key r, val r, ts r, (if command r =? logcmd_modify then prev_ts r else 0), epoch r).
Definition entry_update (e : Z) (x : entry) : option update :=
  match x with
  | EKv c k v t _ => Some (c, k, v, t, 0, e)
  | EDelta k v pt t _ => Some (logcmd_modify, k, v, t, pt, e)
  | _ => None
  end.
Definition next_epoch (e : Z) (x : entry) : Z := match x with EEpoch a => a | _ => e end.
Definition is_mark (x : entry) : bool := match x with EEpoch _ => true | _ => false end.

(** The updates of a log with their epochs, [e] being the epoch before. *)
Fixpoint updates (e : Z) (es : list entry) : list update :=
  match es with
  | [] => []
  | x :: es => match entry_update e x with Some u => [u] | None => [] end ++ updates (next_epoch e x) es
  end.
Definition with_key (u : update) : bool := 0 <? len (update_key u).

(** [replayandclean1] on the records: the updates it runs and the records it keeps. *)
Fixpoint walk (mn mx e : Z) (es : list entry) (kept : option (list entry)) : option (list update * list entry) :=
  match es with
  | [] => Some ([], default [] kept)
  | x :: es =>
      let e := next_epoch e x in
      let before := truthy mn && op_lt 64 e mn in
      let kept := if is_mark x && (before || negb (truthy mn) && negb (bool_decide (is_Some kept))) then Some [] else kept in
      let kept' := option_map (fun l => l ++ [x]) kept in
      if is_mark x && op_ge 64 e mx then l ← kept'; Some ([], l)
      else if negb (truthy e) || before then walk mn mx e es kept'
      else match kept' with
           | None => None
           | Some _ =>
               '(a, l) ← walk mn mx e es kept';
               Some (match entry_update e x with Some u => if with_key u then [u] else [] | None => [] end ++ a, l)
           end
  end.

Section Bytes.
Context (maxkeylen : Z).
Let ok := Forall (entry_ok maxkeylen).

Lemma entry_record_epoch lr x : epoch (entry_record lr x) = next_epoch (epoch lr) x.
Proof. by destruct x. Qed.
Lemma entry_record_mark lr x : entry_ok maxkeylen x -> (command (entry_record lr x) =? logcmd_epoch) = is_mark x.
Proof. intros H. destruct x; try done. simpl in H. by destruct H as [[->|[->| ->]] _]. Qed.
Lemma entry_record_none lr x : entry_ok maxkeylen x -> (command (entry_record lr x) =? logcmd_none) = false.
Proof. intros H. destruct x; try done. simpl in H. by destruct H as [[->|[->| ->]] _]. Qed.

(** The records that a turn runs, for an update and for the others. *)
Lemma entry_applied lr x : entry_ok maxkeylen x ->
  map view (if (0 <? len (key (entry_record lr x))) && is_update (command (entry_record lr x)) then [entry_record lr x] else [])
  = match entry_update (next_epoch (epoch lr) x) x with Some u => if with_key u then [u] else [] | None => [] end.
Proof.
  intros H. destruct x as [e| | |c k v t p|k v pt t p]; cbn [entry_record entry_update command key]; unfold entry_command;
    try (by rewrite andb_false_r).
  - simpl in H. destruct H as [C _].
    assert (U : is_update c = true /\ (c =? logcmd_modify) = false) by (by destruct C as [->|[->| ->]]).
    destruct U as [U M]. rewrite U, andb_true_r. unfold with_key, update_key. cbn [fst snd].
    destruct (0 <? len k); [|done]. unfold view. cbn. by rewrite M.
  - change (is_update logcmd_modify) with true. rewrite andb_true_r. unfold with_key, update_key. cbn [fst snd].
    by destruct (0 <? len k).
Qed.

(** The part of the log kept so far. *)
Definition keeps (kept : option (list entry)) (done : list Z) (s : replay_state) : Prop :=
  match kept with
  | None => repbegin s = None
  | Some l => exists pre, done = pre ++ encodes l /\ repbegin s = Some (len pre) /\ repend s = Some (len done)
  end.

Lemma replay_walk es part mn mx : ok es -> torn maxkeylen part ->
  forall fuel done s kept, keeps kept done s -> pos s = len done ->
  (List.length (encodes es ++ part) < fuel)%nat ->
  match walk mn mx (epoch (lr_ s)) es kept with
  | None => replay_loop maxkeylen fuel mn mx (done ++ encodes es ++ part) s = None
  | Some (a, l) => exists s', replay_loop maxkeylen fuel mn mx (done ++ encodes es ++ part) s = Some s' /\
      map view (applied s') = map view (applied s) ++ a /\
      match repbegin s' with
      | None => l = []
      | Some b => exists e, repend s' = Some e /\ bytes_at b (e - b) (done ++ encodes es ++ part) = encodes l
      end
  end.
Proof.
  intros F T. induction es as [|x es IH]; intros fuel done s kept K P Hf; (destruct fuel as [|fuel]; [lia|]).
  - cbn [walk encodes flat_map app]. cbn [encodes flat_map app] in Hf.
    assert (R : match repbegin s with None => default [] kept = []
                | Some b => exists e, repend s = Some e /\ bytes_at b (e - b) (done ++ part) = encodes (default [] kept) end).
    { destruct kept as [l|]; simpl in K; [|by rewrite K]. destruct K as (pre & -> & -> & ->).
      eexists. split; [done|]. cbn [default]. rewrite <-!app_assoc, bytes_app, Z.sub_diag by lia.
      change (id l) with l. apply bytes_here. rewrite len_app. lia. }
    cbn [replay_loop]. rewrite P, len_app. destruct (Z.leb_spec (len done + len part) (len done)) as [|N].
    + exists s. rewrite app_nil_r. done.
    + rewrite drop_app_length' by (unfold len; lia).
      pose proof (extract_torn maxkeylen (lr_ s) part T) as X.
      destruct (extract maxkeylen (lr_ s) part) as [lr size_]. cbn [fst] in X. rewrite X.
      change (logcmd_none =? logcmd_none) with true. cbn match.
      eexists. split; [done|]. cbn [applied repbegin repend]. rewrite app_nil_r. done.
  - apply list.Forall_cons in F as [Hx F]. specialize (IH F).
    pose proof (encode_min maxkeylen x Hx) as M.
    cbn [encodes flat_map] in *. fold (encodes es) in *. rewrite <-app_assoc in *.
    cbn [replay_loop]. rewrite P, !len_app.
    rewrite (proj2 (Z.leb_gt _ _)) by (pose proof (len_nonneg (encodes es)); pose proof (len_nonneg part); lia).
    rewrite drop_app_length' by (unfold len; lia).
    rewrite extract_encode by done.
    rewrite entry_record_none, entry_record_mark, !entry_record_epoch by done.
    cbn [walk].
    assert (Kb : bool_decide (is_Some (repbegin s)) = bool_decide (is_Some kept)).
    { destruct kept as [l0|]; simpl in K; [|by rewrite K]. by destruct K as (pre & _ & -> & _). }
    rewrite Kb. clear Kb.
    set (e := next_epoch (epoch (lr_ s)) x).
    set (start := is_mark x && (truthy mn && op_lt 64 e mn || negb (truthy mn) && negb (bool_decide (is_Some kept)))).
    set (kept1 := if start then Some [] else kept). set (rb := if start then Some (len done) else repbegin s).
    assert (K1 : match kept1 with None => rb = None | Some l => exists pre, done = pre ++ encodes l /\ rb = Some (len pre) end).
    { subst kept1 rb. destruct start; [exists done; by rewrite app_nil_r|].
      destruct kept as [l0|]; simpl in K; [|done]. destruct K as (pre & H1 & H2 & _). eauto. }
    clearbody start kept1 rb. clear K.
    assert (Turn : forall s1, pos s1 = len done + len (encode x) -> repbegin s1 = rb ->
      (is_Some rb -> repend s1 = Some (len done + len (encode x))) ->
      keeps (option_map (fun l => l ++ [x]) kept1) (done ++ encode x) s1 /\ pos s1 = len (done ++ encode x)).
    { intros s1 P1 R1 E1. rewrite len_app. split; [|done]. destruct kept1 as [l1|]; simpl; [|by rewrite R1].
      destruct K1 as (pre & D & R). exists pre. rewrite R1, R, len_app, E1 by (rewrite R; eauto).
      split_and!; [|done|done]. unfold encodes. by rewrite D, flat_map_app, <-app_assoc; cbn [flat_map]; rewrite app_nil_r. }
    assert (Hf' : (List.length (encodes es ++ part) < fuel)%nat).
    { rewrite !length_app in *. unfold len in M. lia. }
    destruct (is_mark x && op_ge 64 e mx) eqn:Stop.
    { destruct kept1 as [l1|]; simpl; [|by rewrite K1]. destruct K1 as (pre & D & ->).
      eexists. split; [done|]. cbn [applied repbegin repend]. split; [by rewrite app_nil_r|].
      eexists. split; [done|]. rewrite D, len_app, <-!app_assoc, bytes_app, Z.sub_diag by lia.
      unfold encodes. rewrite flat_map_app. cbn [flat_map]. rewrite app_nil_r, (app_assoc _ (encode x)).
      apply bytes_here. rewrite len_app. unfold encodes. lia. }
    destruct (negb (truthy e) || truthy mn && op_lt 64 e mn).
    { destruct (Turn {| pos := len done + len (encode x); repbegin := rb;
        repend := match rb with Some _ => Some (len done + len (encode x)) | None => repend s end;
        lr_ := entry_record (lr_ s) x; applied := applied s; nr := nr s |}) as [K2 P2]; [done|done|by intros [? ->]|].
      specialize (IH fuel _ _ _ K2 P2 Hf'). cbn [lr_ applied] in IH. rewrite entry_record_epoch in IH. fold e in IH.
      by rewrite <-app_assoc in IH. }
    destruct kept1 as [l1|]; simpl option_map in *; [|by rewrite K1].
    destruct K1 as (pre & D & R). rewrite R in *.
    match goal with |- context [replay_loop _ _ _ _ _ ?s1] => destruct (Turn s1) as [K2 P2]; [done..|] end.
    specialize (IH fuel _ _ _ K2 P2 Hf'). cbn [lr_ applied] in IH. rewrite entry_record_epoch in IH. fold e in IH.
    rewrite <-app_assoc in IH.
    destruct (walk mn mx e es (Some (l1 ++ [x]))) as [[a l]|]; simpl; [|done].
    destruct IH as (s' & Hs & Ha & Hb). exists s'. split_and!; [done | | done]. rewrite Ha, app_assoc. f_equal.
    subst e. rewrite <-(entry_applied (lr_ s) x Hx). destruct (_ && _); [by rewrite map_app | by rewrite app_nil_r].
Qed.

(** The whole of [replayandclean1]. *)
Lemma replay_entries es part mn mx : ok es -> torn maxkeylen part ->
  match walk mn mx 0 es None with
  | None => replayandclean1 maxkeylen mn mx (encodes es ++ part) = None
  | Some (a, l) => exists rs n, replayandclean1 maxkeylen mn mx (encodes es ++ part) = Some (rs, n, encodes l) /\ map view rs = a
  end.
Proof.
  intros F T. pose proof (replay_walk es part mn mx F T (S (List.length (encodes es ++ part))) [] replay_start None) as H.
  specialize (H eq_refl eq_refl ltac:(lia)). cbn [app lr_ replay_start epoch logrecord_new] in H.
  unfold replayandclean1. destruct (walk mn mx 0 es None) as [[a l]|]; [|by rewrite H].
  destruct H as (s' & -> & Ha & Hb). simpl. exists (applied s'), (nr s'). split; [|done].
  destruct (repbegin s') as [b|]; [destruct Hb as (e & -> & <-)|subst l]; done.
Qed.
End Bytes.

(** * Epochs in order *)

Lemma lt64 a b : 0 <= a < 2 ^ 63 -> 0 <= b < 2 ^ 63 -> op_lt 64 a b = (a <? b) /\ op_gt 64 a b = (b <? a) /\
  op_ge 64 a b = (b <=? a) /\ op_le 64 a b = (a <=? b).
Proof.
  intros Ha Hb. unfold op_lt, op_gt, op_ge, op_le, less.
  rewrite !(diff_near 64) by lia. split_and!; zcases; done.
Qed.
Definition near (e : Z) : Prop := 0 <= e < 2 ^ 63.
Definition marks (es : list entry) : list Z := omap (fun x => match x with EEpoch a => Some a | _ => None end) es.
(** Epochs that are not 0, are less than half a circle apart and do not go back. *)
Fixpoint in_order (e : Z) (es : list entry) : Prop :=
  match es with
  | [] => True
  | EEpoch a :: es => 0 < a /\ near a /\ e <= a /\ in_order a es
  | _ :: es => in_order e es
  end.

Lemma in_order_next e x es : near e -> in_order e (x :: es) ->
  near (next_epoch e x) /\ e <= next_epoch e x /\ in_order (next_epoch e x) es.
Proof. intros N. destruct x; simpl; intros H; try (split_and!; [done | lia | done]). destruct H as (? & ? & ? & ?). split_and!; [done | lia | done]. Qed.

Lemma updates_later e es u : in_order e es -> near e -> u ∈ updates e es -> e <= update_epoch u.
Proof.
  revert e. induction es as [|x es IH]; intros e H N; simpl; [by intros []%not_elem_of_nil|].
  destruct (in_order_next e x es N H) as (N' & L & H'). intros [Hu|Hu]%elem_of_app.
  - destruct x as [| | |c k v t q|k v pt t q]; simpl in Hu; try (by apply not_elem_of_nil in Hu);
      apply list_elem_of_singleton in Hu as ->; unfold update_epoch; simpl; lia.
  - specialize (IH _ H' N' Hu). lia.
Qed.

(** The updates to replay. *)
Definition wanted (mn mx : Z) (u : update) : bool :=
  (0 <? update_epoch u) && (mn <=? update_epoch u) && (update_epoch u <? mx) && with_key u.
Definition selected (mn mx : Z) (us : list update) : list update := List.filter (wanted mn mx) us.

Lemma selected_none mn mx us : (forall u, u ∈ us -> wanted mn mx u = false) -> selected mn mx us = [].
Proof.
  induction us as [|u us IH]; intros H; [done|]. unfold selected in *. simpl. rewrite H by left. apply IH.
  intros v Hv. apply H. by right.
Qed.

(** The first epoch of the log is before [mn], or there is no lower bound. *)
Fixpoint starts (mn : Z) (es : list entry) : Prop :=
  match es with [] => True | EEpoch a :: _ => mn = 0 \/ a < mn | _ :: es => starts mn es end.

Lemma walk_selected mn mx es : near mn -> near mx -> forall e kept,
  near e -> in_order e es -> (e = 0 \/ e < mx) -> (is_Some kept \/ e = 0 /\ starts mn es) ->
  exists l, walk mn mx e es kept = Some (selected mn mx (updates e es), l).
Proof.
  intros Nm Nx. induction es as [|x es IH]; intros e kept Ne O Hmx St; [by eexists|].
  destruct (in_order_next e x es Ne O) as (Ne' & Le & O').
  cbn [walk updates]. set (e' := next_epoch e x) in *.
  destruct (lt64 e' mn Ne' Nm) as (-> & _). destruct (lt64 e' mx Ne' Nx) as (_ & _ & -> & _).
  set (b := is_mark x && (truthy mn && (e' <? mn) || negb (truthy mn) && negb (bool_decide (is_Some kept)))).
  assert (St' : is_Some (if b then Some [] else kept) \/ e' = 0 /\ e = 0 /\ is_mark x = false /\ starts mn es).
  { destruct b eqn:Eb; [by left|]. destruct St as [[k ->]|[-> Hs]]; [by left|].
    destruct kept as [k|]; [by left|]. right. destruct x as [a| | | |]; try done. exfalso. subst b e'. cbn in *.
    destruct O as (Ha & _). unfold truthy in Eb. revert Eb. destruct (Z.eqb_spec mn 0); simpl; [done|].
    destruct Hs; [done|]. by rewrite (proj2 (Z.ltb_lt _ _)). }
  assert (U : match entry_update e' x with Some u => if with_key u then [u] else [] | None => [] end =
    List.filter with_key (match entry_update e x with Some u => [u] | None => [] end)).
  { by destruct x; simpl; try (unfold e'; simpl; destruct (with_key _)). }
  destruct (is_mark x && (mx <=? e')) eqn:Stop.
  { (* the first epoch past the range: nothing wanted follows *)
    apply andb_true_iff in Stop as [Mx Sx]. apply Z.leb_le in Sx.
    assert (Hk : is_Some (if b then Some [] else kept)).
    { destruct St' as [|(H0 & _ & H1 & _)]; [done|]. by rewrite H1 in Mx. }
    destruct Hk as [k ->]. simpl. eexists. repeat f_equal.
    destruct x; try done. simpl. symmetry. apply selected_none. intros u Hu.
    pose proof (updates_later _ _ _ O' Ne' Hu). unfold wanted. by rewrite (proj2 (Z.ltb_ge _ mx)), andb_false_r by lia. }
  assert (Hmx' : e' = 0 \/ e' < mx).
  { destruct x as [a| | | |]; simpl in Stop; [right; by apply Z.leb_gt in Stop | exact Hmx..]. }
  set (kept' := option_map (fun l => l ++ [x]) (if b then Some [] else kept)).
  assert (Sk : is_Some kept' \/ e' = 0 /\ starts mn es).
  { destruct St' as [[k E]|(H0 & _ & _ & H2)]; [left; subst kept'; rewrite E; by eexists | by right]. }
  destruct (IH e' kept' Ne' O' Hmx' Sk) as [l W].
  assert (Eu : forall u, u ∈ match entry_update e x with Some u => [u] | None => [] end -> update_epoch u = e').
  { intros u Hu. destruct x as [| | |c k v t q|k v pt t q]; simpl in Hu; try (by apply not_elem_of_nil in Hu);
      by apply list_elem_of_singleton in Hu as ->. }
  unfold selected. rewrite List.filter_app. fold (selected mn mx (updates e' es)).
  destruct (negb (truthy e') || truthy mn && (e' <? mn)) eqn:Skip.
  - exists l. rewrite W. repeat f_equal.
    assert (E0 : forall u, u ∈ match entry_update e x with Some u => [u] | None => [] end -> wanted mn mx u = false).
    { intros u Hu. unfold wanted. rewrite (Eu u Hu). unfold truthy in Skip.
      destruct (Z.eqb_spec e' 0) as [->|]; [done|]. destruct (Z.ltb_spec e' mn); [|by rewrite andb_false_r in Skip].
      by rewrite (proj2 (Z.leb_gt mn e')), andb_false_r by done. }
    pose proof (selected_none mn mx _ E0) as E1. unfold selected in E1. by rewrite E1.
  - apply orb_false_iff in Skip as [S1 S2]. unfold truthy in S1. apply negb_false_iff, negb_true_iff, Z.eqb_neq in S1.
    destruct St' as [[k E]|(H0 & _)]; [|done].
    subst kept'. rewrite E in *. cbn [option_map] in *. rewrite W. simpl. eexists. repeat f_equal.
    rewrite U. apply List.filter_ext_in. intros u Hu%list_elem_of_In.
    unfold wanted. rewrite (Eu u Hu). rewrite (proj2 (Z.ltb_lt 0 e')), (proj2 (Z.ltb_lt e' mx)) by (unfold near in *; lia).
    rewrite (proj2 (Z.leb_le mn e')); [done|]. unfold truthy in S2. unfold near in *.
    destruct (Z.eqb_spec mn 0); [lia|]. simpl in S2. apply Z.ltb_ge in S2. lia.
Qed.

(** * What a replay keeps replays alike *)

Section Again.
Context (mn mx : Z).

(** [o] is what the records of [k] give when the log starts with them. *)
Definition gives (k : list entry) (e : Z) (o : list update) : Prop :=
  forall rest, walk mn mx 0 (k ++ rest) None =
    match walk mn mx e rest (Some k) with Some (a, l) => Some (o ++ a, l) | None => None end.

Lemma gives_mark a : (truthy mn && op_lt 64 a mn || negb (truthy mn)) = true -> op_ge 64 a mx = false -> gives [EEpoch a] a [].
Proof.
  intros B S rest. cbn [app walk next_epoch is_mark entry_update]. rewrite S. cbn [andb].
  change (bool_decide (is_Some (@None (list entry)))) with false. cbn [negb]. rewrite andb_true_r, B. cbn [option_map app].
  destruct (negb (truthy a) || truthy mn && op_lt 64 a mn); by destruct (walk mn mx a rest (Some [EEpoch a])) as [[]|].
Qed.

Lemma walk_kept es : forall e k o a l, gives k e o -> (o = [] \/ truthy mn && op_lt 64 e mn = false) -> near e -> in_order e es ->
  near mn -> walk mn mx e es (Some k) = Some (a, l) -> walk mn mx 0 l None = Some (o ++ a, l).
Proof.
  induction es as [|x es IH]; intros e k o a l G Ho Ne O Nm W.
  { injection W as <- <-. specialize (G []). rewrite app_nil_r in G. exact G. }
  destruct (in_order_next e x es Ne O) as (Ne' & Le & O').
  pose proof W as W0. cbn [walk] in W. set (e' := next_epoch e x) in *.
  change (bool_decide (is_Some (Some k))) with true in W. cbn [negb] in W. rewrite andb_false_r, orb_false_r in W.
  destruct (is_mark x && (truthy mn && op_lt 64 e' mn)) eqn:B.
  - apply andb_true_iff in B as [Mx Bf]. destruct x as [m| | | |]; try done. subst e'. cbn [next_epoch is_mark] in *.
    rewrite Bf, orb_true_r in W. cbn [andb option_map app entry_update] in W.
    assert (o = []) as ->.
    { destruct Ho as [|F]; [done|]. apply andb_true_iff in Bf as [T L]. rewrite T in F. simpl in F.
      destruct (lt64 m mn Ne' Nm) as [E1 _]. destruct (lt64 e mn Ne Nm) as [E2 _]. rewrite E1 in L. rewrite E2 in F.
      apply Z.ltb_lt in L. apply Z.ltb_ge in F. lia. }
    destruct (op_ge 64 m mx) eqn:S.
    + injection W as <- <-. cbn [walk next_epoch is_mark]. rewrite S, Bf. done.
    + eapply (IH m [EEpoch m] []); eauto. apply gives_mark; [by rewrite Bf | done].
  - cbn [option_map] in W. destruct (is_mark x && op_ge 64 e' mx) eqn:S.
    + injection W as <- <-. rewrite (G [x]). cbn [walk]. fold e'.
      change (bool_decide (is_Some (Some k))) with true. cbn [negb]. rewrite andb_false_r, orb_false_r, B, S. done.
    + assert (Gx : forall rest, walk mn mx 0 ((k ++ [x]) ++ rest) None =
        match walk mn mx e (x :: rest) (Some k) with Some (a, l) => Some (o ++ a, l) | None => None end)
        by (intros rest; rewrite <-app_assoc; exact (G (x :: rest))).
      cbn [walk] in Gx. fold e' in Gx. change (bool_decide (is_Some (Some k))) with true in Gx. cbn [negb] in Gx.
      rewrite andb_false_r, orb_false_r, B, S in Gx. cbn [option_map] in Gx.
      destruct (negb (truthy e') || truthy mn && op_lt 64 e' mn) eqn:K.
      * eapply (IH e' (k ++ [x]) o); eauto. destruct Ho as [|F]; [by left|].
        destruct (is_mark x) eqn:Mx; [right; exact B|]. right. subst e'. by destruct x.
      * destruct (walk mn mx e' es (Some (k ++ [x]))) as [[a' l']|] eqn:W'; [|done]. injection W as <- <-.
        rewrite app_assoc. eapply (IH e' (k ++ [x])); [|right; by apply orb_false_iff in K as [_ K]|done..].
        intros rest. rewrite Gx. destruct (walk mn mx e' rest (Some (k ++ [x]))) as [[]|]; simpl; [by rewrite app_assoc | done].
Qed.

Lemma walk_again es : forall a l, in_order 0 es -> near mn ->
  walk mn mx 0 es None = Some (a, l) -> walk mn mx 0 l None = Some (a, l).
Proof.
  induction es as [|x es IH]; intros a l O Nm W; [by injection W as <- <-|].
  destruct (in_order_next 0 x es ltac:(done) O) as (Ne' & _ & O').
  destruct (is_mark x) eqn:Mx.
  - destruct x as [m| | | |]; try done. cbn [walk next_epoch is_mark entry_update] in *.
    change (bool_decide (is_Some (@None (list entry)))) with false in W. cbn [negb andb] in W. rewrite andb_true_r in W.
    destruct (truthy mn && op_lt 64 m mn || negb (truthy mn)) eqn:B; cbn [option_map app] in W.
    + destruct (op_ge 64 m mx) eqn:S.
      * injection W as <- <-. cbn [walk next_epoch is_mark]. change (bool_decide (is_Some (@None (list entry)))) with false.
        cbn [negb andb]. rewrite andb_true_r, B, S. done.
      * assert (W' : exists a', walk mn mx m es (Some [EEpoch m]) = Some (a', l) /\ a = a').
        { destruct (negb (truthy m) || truthy mn && op_lt 64 m mn); [by eauto|].
          destruct (walk mn mx m es (Some [EEpoch m])) as [[a' l']|]; [|done]. injection W as <- <-. eauto. }
        destruct W' as (a' & W' & ->). eapply (walk_kept es m [EEpoch m] []); eauto. by apply gives_mark.
    + exfalso. destruct (op_ge 64 m mx); [done|]. apply orb_false_iff in B as [B _]. rewrite B, orb_false_r in W.
      simpl in O. destruct (Z.eqb_spec m 0) as [->|N]; [lia|]. unfold truthy in W. by rewrite (proj2 (Z.eqb_neq m 0) N) in W.
  - assert (E : walk mn mx 0 (x :: es) None = walk mn mx 0 es None) by (by destruct x).
    rewrite E in W. apply (IH a l); [|done|done]. by destruct x.
Qed.
End Again.

(** * What [record] and the logger write *)

Definition last_mark (e : Z) (es : list entry) : Z := foldl next_epoch e es.
Lemma updates_app e a b : updates e (a ++ b) = updates e a ++ updates (last_mark e a) b.
Proof.
  revert e. induction a as [|x a IH]; intros e; [done|]. cbn [app updates]. rewrite IH. by rewrite app_assoc.
Qed.
Lemma last_mark_app e a b : last_mark e (a ++ b) = last_mark (last_mark e a) b.
Proof. apply foldl_app. Qed.
Lemma encodes_app a b : encodes (a ++ b) = encodes a ++ encodes b.
Proof. apply flat_map_app. Qed.

Definition is_delta (r : request) : bool :=
  (rcommand r =? logcmd_put) && truthy (qprev_ts (rtimes r)) && negb (Z.odd (qprev_ts (rtimes r))).
(** What a call of [record] asks to be replayed. *)
Definition request_update (r : request) : update :=
  let t := rtimes r in
  if is_delta r then (logcmd_modify, rkey r, rvalue r, qts t, qprev_ts t, qepoch t)
  else (rcommand r, rkey r, rvalue r, qts t, 0, qepoch t).
Definition request_entry (r : request) : entry :=
  let t := rtimes r in
  if is_delta r then EDelta (rkey r) (rvalue r) (qprev_ts t) (qts t) (rpad r)
  else EKv (rcommand r) (rkey r) (rvalue r) (qts t) (rpad r).

Section Write.
Context (maxkeylen : Z).

Record request_ok (r : request) : Prop := {
  r_command : rcommand r = logcmd_put \/ rcommand r = logcmd_replace \/ rcommand r = logcmd_remove;
  r_key : len (rkey r) <= maxkeylen /\ small (rkey r);
  r_value : small (rvalue r);
  r_times : 0 <= qts (rtimes r) < 2 ^ 64 /\ 0 <= qprev_ts (rtimes r) < 2 ^ 64;
  r_epoch : 0 < qepoch (rtimes r) /\ near (qepoch (rtimes r));
  r_pad : List.length (rpad r) = 4%nat }.
Definition op_ok (o : log_op) : Prop :=
  match o with
  | Record _ _ r => request_ok r
  | Wake we => near we
  | Locked _ ge => 0 < ge /\ near ge
  | Write => True
  end.

Lemma request_entry_ok r : request_ok r -> entry_ok maxkeylen (request_entry r).
Proof. intros []. unfold request_entry. destruct (is_delta r); simpl; tauto. Qed.
Lemma request_entry_store r : encode (request_entry r) = update_store r.
Proof. unfold request_entry, update_store, is_delta. by destruct (_ && _). Qed.
Lemma request_entry_update r : entry_update (qepoch (rtimes r)) (request_entry r) = Some (request_update r).
Proof. unfold request_entry, request_update. by destruct (is_delta r). Qed.
Lemma request_entry_next e r : next_epoch e (request_entry r) = e.
Proof. unfold request_entry. by destruct (is_delta r). Qed.

Lemma raise_wake_max cell e : near cell -> near e -> raise_wake 3 cell cell e = Some (Z.max cell e, Z.max cell e).
Proof.
  intros Hc He. cbn [raise_wake]. destruct (lt64 cell e Hc He) as (E & _). destruct (lt64 e e He He) as (E2 & _).
  rewrite E. destruct (Z.ltb_spec cell e) as [L|]; [|by rewrite Z.max_l by done].
  unfold cmpxchg. rewrite Z.eqb_refl.
  rewrite E, E2, (proj2 (Z.ltb_ge e e)) by lia. rewrite Z.max_r by lia. by destruct (e =? cell).
Qed.

(** [e0] is the epoch of the log so far; [log_epoch_] is 0 when the log has just been opened. *)
Lemma record_now_entries r cell s e0 : request_ok r -> near cell -> log_epoch_ s = 0 \/ log_epoch_ s = e0 ->
  exists s' cell' xs, record_now r cell s = Some (s', cell') /\ buf_ s' = buf_ s ++ encodes xs /\
    file s' = file s /\ x_buf s' = x_buf s /\ log_epoch_ s' = qepoch (rtimes r) /\ near cell' /\
    Forall (entry_ok maxkeylen) xs /\ updates e0 xs = [request_update r] /\ last_mark e0 xs = qepoch (rtimes r).
Proof.
  intros R Hc He. destruct (r_epoch r R) as [Hp Hn]. set (e := qepoch (rtimes r)) in *.
  set (xs1 := if e =? log_epoch_ s then [] else [EEpoch e]).
  assert (X1 : Forall (entry_ok maxkeylen) xs1 /\ updates e0 xs1 = [] /\ last_mark e0 xs1 = e).
  { subst xs1. destruct (Z.eqb_spec e (log_epoch_ s)) as [E|]; [|by split_and!; [repeat constructor; simpl; unfold near in *; lia|..]].
    split_and!; [done..|]. destruct He as [H|H]; [lia | simpl; congruence]. }
  destruct X1 as (F1 & U1 & L1).
  assert (B1 : (if e =? log_epoch_ s then (log_epoch_ s, buf_ s) else (e, buf_ s ++ logrec_epoch_store logcmd_epoch e))
    = (e, buf_ s ++ encodes xs1)).
  { subst xs1. destruct (Z.eqb_spec e (log_epoch_ s)) as [->|]; cbn [encodes flat_map encode]; by rewrite !app_nil_r. }
  unfold record_now. fold e. rewrite B1.
  assert (Hq : exists fe qe cell' we', (if truthy (quiescent_epoch_ s)
    then let fe := if flushed_epoch_ s =? quiescent_epoch_ s then e else flushed_epoch_ s in
         '(cell, we) ← raise_wake 3 cell cell e; Some (fe, 0, cell, we)
    else Some (flushed_epoch_ s, quiescent_epoch_ s, cell, cell)) = Some (fe, qe, cell', we') /\ near cell').
  { destruct (truthy (quiescent_epoch_ s)); [|by eexists _, _, _, _].
    rewrite raise_wake_max by done. simpl. eexists _, _, _, _. split; [done|]. unfold near in *. lia. }
  cbv zeta in Hq |- *. destruct Hq as (fe & qe & cell' & we' & -> & Hc'). simpl.
  set (we := if negb (we' =? log_wake_epoch_ s) && op_lt 64 e we' then e else we').
  set (xs2 := if we =? log_wake_epoch_ s then [] else [EWake]).
  assert (B2 : (if we =? log_wake_epoch_ s then (log_wake_epoch_ s, buf_ s ++ encodes xs1)
     else (we, (buf_ s ++ encodes xs1) ++ logrec_base_store logcmd_wake)) = (we, buf_ s ++ encodes (xs1 ++ xs2))).
  { subst xs2. destruct (Z.eqb_spec we (log_wake_epoch_ s)) as [->|]; [by rewrite app_nil_r|].
    rewrite encodes_app, app_assoc. cbn [encodes flat_map encode]. by rewrite app_nil_r. }
  rewrite B2. eexists _, _, (xs1 ++ xs2 ++ [request_entry r]). split; [done|]. simpl.
  assert (X2 : Forall (entry_ok maxkeylen) xs2 /\ updates e xs2 = [] /\ last_mark e xs2 = e)
    by (subst xs2; destruct (we =? log_wake_epoch_ s); split; try split; first [done | repeat constructor]).
  destruct X2 as (F2 & U2 & L2). split_and!; try done.
  - rewrite !encodes_app, <-!app_assoc. do 3 f_equal. cbn [encodes flat_map]. by rewrite app_nil_r, request_entry_store.
  - apply Forall_app; split; [done|]. apply Forall_app; split; [done|]. repeat constructor. by apply request_entry_ok.
  - rewrite updates_app, U1, L1, updates_app, U2, L2. cbn [updates app]. unfold e. by rewrite request_entry_update.
  - rewrite last_mark_app, L1, last_mark_app, L2. simpl. by rewrite request_entry_next.
Qed.

(** The records in the file, in the logger's buffer and in the log's buffer. *)
Record written (s : loginfo) (cell : Z) (us : list update) (f x b : list entry) : Prop := {
  w_file : file s = encodes f;
  w_x : match x_buf s with Some (l, _) => l = encodes x | None => x = [] end;
  w_buf : buf_ s = encodes b;
  w_ok : Forall (entry_ok maxkeylen) (f ++ x ++ b);
  w_updates : updates 0 (f ++ x ++ b) = us;
  w_epoch : log_epoch_ s = 0 \/ log_epoch_ s = last_mark 0 (f ++ x ++ b);
  w_cell : near cell }.

Lemma encodes_nil es : Forall (entry_ok maxkeylen) es -> encodes es = [] -> es = [].
Proof.
  intros F. destruct es as [|x es]; [done|]. apply Forall_inv in F. pose proof (encode_min maxkeylen x F) as M.
  cbn [encodes flat_map]. intros [E _]%app_eq_nil. rewrite E in M. unfold len in M. simpl in M. lia.
Qed.

Lemma written_record s cell us f x b id queued r :
  written s cell us f x b -> request_ok r ->
  exists s' cell' dn, record id queued r cell s = Some (s', cell', dn) /\
    exists b', written s' cell' (us ++ map request_update (if dn : bool then [r] else [])) f x b'.
Proof.
  intros W R. unfold record. destruct (_ && _).
  - destruct (record_now_entries r cell s (last_mark 0 (f ++ x ++ b)) R (w_cell _ _ _ _ _ _ W) (w_epoch _ _ _ _ _ _ W))
      as (s' & cell' & xs & -> & Hb & Hf & Hx & He & Hc & F & U & L). simpl.
    eexists _, _, true. split; [done|]. exists (b ++ xs). destruct W as [W1 W2 W3 W4 W5 W6 W7].
    assert (E : f ++ x ++ b ++ xs = (f ++ x ++ b) ++ xs) by by rewrite <-!app_assoc.
    split; simpl; rewrite ?E.
    + by rewrite Hf.
    + by rewrite Hx.
    + by rewrite Hb, W3, encodes_app.
    + apply Forall_app. by split.
    + rewrite updates_app, W5. by rewrite U.
    + right. rewrite last_mark_app. by rewrite L.
    + done.
  - eexists _, _, false. split; [done|]. exists b. rewrite app_nil_r. destruct W. by split.
Qed.

Lemma written_locked s cell us f b recovering ge :
  written s cell us f [] b -> x_buf s = None -> 0 < ge -> near ge ->
  exists x' b', written (run_locked recovering ge cell s) cell us f x' b'.
Proof.
  intros [W1 W2 W3 W4 W5 W6 W7] X Hp Hg. unfold run_locked. cbn [app] in *.
  destruct (if log_wake_epoch_ s =? cell then _ else _) as [wk qe].
  destruct (negb recovering && (len (buf_ s) =? 0) && negb (truthy qe) && negb (ge =? log_epoch_ s) && negb (ge =? cell) && _) eqn:Q.
  - (* the mark of quiescence *)
    assert (b = []) as ->.
    { boolify. apply encodes_nil; [apply Forall_app in W4 as [_ W4]; done|]. rewrite <-W3. apply length_zero_iff_nil.
      unfold len in *. lia. }
    assert (Rc : recovering = false) by (boolify; by destruct recovering). subst recovering.
    set (xs := [EEpoch ge] ++ (if ge =? wk then [EWake] else []) ++ [EQuiesce]).
    assert (Ex : logrec_epoch_store logcmd_epoch ge ++ (if ge =? wk then logrec_base_store logcmd_wake else []) ++
      logrec_base_store logcmd_quiesce = encodes xs).
    { subst xs. rewrite !encodes_app. by destruct (ge =? wk); cbn [encodes flat_map encode]; rewrite !app_nil_r. }
    assert (Fx : Forall (entry_ok maxkeylen) xs /\ updates (last_mark 0 f) xs = [] /\ last_mark (last_mark 0 f) xs = ge).
    { subst xs. destruct (ge =? wk); split_and!; try done; repeat constructor; simpl; unfold near in *; lia. }
    destruct Fx as (F & U & L). clearbody xs. rewrite app_nil_r in *.
    rewrite Ex. cbn [negb andb]. destruct (0 <? len (encodes xs)).
    + exists xs, []. split; simpl; rewrite ?app_nil_r; try done.
      * apply Forall_app. by split.
      * rewrite updates_app, U, W5. apply app_nil_r.
      * right. by rewrite last_mark_app.
    + exists [], xs. split; simpl; try done.
      * apply Forall_app. by split.
      * rewrite updates_app, U, W5. apply app_nil_r.
      * right. by rewrite last_mark_app.
  - destruct (negb recovering && (0 <? len (buf_ s))).
    + exists b, []. split; simpl; rewrite ?app_nil_r; done.
    + exists [], b. split; simpl; done.
Qed.

Lemma written_step o s cell us f x b s' cell' rs :
  written s cell us f x b -> op_ok o -> log_step o s cell = Some (s', cell', rs) ->
  exists f' x' b', written s' cell' (us ++ map request_update rs) f' x' b'.
Proof.
  intros W O H. destruct o as [id queued r|we|recovering ge|]; simpl in *.
  - destruct (written_record s cell us f x b id queued r W O) as (s1 & c1 & dn & E & b' & W'). rewrite E in H.
    injection H as <- <- <-. eauto.
  - injection H as <- <- <-. rewrite app_nil_r. exists f, x, b. destruct W. by split.
  - destruct (x_buf s) eqn:X; [done|]. injection H as <- <- <-. rewrite app_nil_r.
    pose proof (w_x _ _ _ _ _ _ W) as Hx. rewrite X in Hx. subst x.
    destruct O. destruct (written_locked s cell us f b recovering ge W X) as (x' & b' & W'); eauto.
  - injection H as <- <- <-. rewrite app_nil_r. unfold run_write. destruct W as [W1 W2 W3 W4 W5 W6 W7].
    destruct (x_buf s) as [[l e]|] eqn:X; [|exists f, x, b; split; rewrite ?X; done].
    exists (f ++ x), [], b. split; simpl; rewrite <-?app_assoc; try done. by rewrite encodes_app, W1, W2.
Qed.

Lemma written_run os : forall s cell us f x b s' cell' rs,
  written s cell us f x b -> Forall op_ok os -> log_run os s cell = Some (s', cell', rs) ->
  exists f' x' b', written s' cell' (us ++ map request_update rs) f' x' b'.
Proof.
  induction os as [|o os IH]; intros s cell us f x b s' cell' rs W F H; simpl in H.
  - injection H as <- <- <-. rewrite app_nil_r. eauto.
  - apply list.Forall_cons in F as [Ho F]. destruct (log_step o s cell) as [[[s1 c1] rs1]|] eqn:S; [|done]. simpl in H.
    destruct (log_run os s1 c1) as [[[s2 c2] rs2]|] eqn:R; [|done]. injection H as <- <- <-.
    destruct (written_step _ _ _ _ _ _ _ _ _ _ W Ho S) as (f1 & x1 & b1 & W1).
    rewrite map_app, app_assoc. eauto.
Qed.
End Write.

(** * The whole of one log *)

(** The file that a crash leaves: what was written, and a part of the buffer being written. *)
Definition crashed (n : nat) (s : loginfo) : list Z :=
  take n (file s ++ match x_buf s with Some (l, _) => l | None => [] end).

Lemma walk_kept_ok maxkeylen mn mx es : forall e kept a l, Forall (entry_ok maxkeylen) es ->
  (forall k, kept = Some k -> Forall (entry_ok maxkeylen) k) -> walk mn mx e es kept = Some (a, l) -> Forall (entry_ok maxkeylen) l.
Proof.
  induction es as [|x es IH]; intros e kept a l F K W.
  - injection W as <- <-. destruct kept; [by apply K | done].
  - apply list.Forall_cons in F as [Hx F]. cbn [walk] in W.
    set (kept1 := if is_mark x && _ then Some [] else kept) in W.
    assert (K1 : forall k, option_map (fun l => l ++ [x]) kept1 = Some k -> Forall (entry_ok maxkeylen) k).
    { intros k. subst kept1. clear W. destruct (is_mark x && _); [|destruct kept as [k0|]]; simpl; intros E; try discriminate E;
        apply (inj Some) in E; subst k; [by constructor|]. apply Forall_app. split; [by apply K | by constructor]. }
    clearbody kept1. destruct (is_mark x && _).
    + destruct (option_map _ kept1) eqn:E; [|done]. injection W as <- <-. by apply K1.
    + destruct (_ || _); [by eapply IH|]. destruct (option_map _ kept1) eqn:E; [|done].
      destruct (walk mn mx _ es _) as [[a' l']|] eqn:W'; [|done]. injection W as <- <-. eapply IH; [done | | exact W']. intros k Hk. apply K1. congruence.
Qed.

(** A log of whole records and a torn one. *)
Lemma replay_whole maxkeylen es part mn mx : Forall (entry_ok maxkeylen) es -> torn maxkeylen part ->
  near mn -> near mx -> in_order 0 es -> starts mn es ->
  exists out cnt kept, replayandclean1 maxkeylen mn mx (encodes es ++ part) = Some (out, cnt, kept) /\
    map view out = selected mn mx (updates 0 es) /\
    exists out' cnt', replayandclean1 maxkeylen mn mx kept = Some (out', cnt', kept) /\ map view out' = map view out.
Proof.
  intros F T Nm Nx O S. destruct (walk_selected mn mx es Nm Nx 0 None) as [l W]; [done|done|by left|by right|].
  pose proof (replay_entries maxkeylen es part mn mx F T) as R. rewrite W in R. destruct R as (out & cnt & R & V).
  exists out, cnt, (encodes l). split_and!; [done..|].
  pose proof (walk_again mn mx es _ _ O Nm W) as W2.
  assert (Fl : Forall (entry_ok maxkeylen) l) by (eapply (walk_kept_ok maxkeylen mn mx es 0 None); [done | discriminate | exact W]).
  pose proof (replay_entries maxkeylen l [] mn mx Fl (or_introl eq_refl)) as R2. rewrite W2, app_nil_r in R2.
  destruct R2 as (out' & cnt' & R2 & V2). exists out', cnt'. split; [done | by rewrite V2].
Qed.

Lemma in_order_take e es k : in_order e es -> in_order e (take k es).
Proof.
  revert e k. induction es as [|x es IH]; intros e k O; [by rewrite take_nil|].
  destruct k; [done|]. destruct x; simpl in *; try by apply IH. destruct O as (? & ? & ? & O). eauto.
Qed.
Lemma starts_take mn es k : starts mn es -> starts mn (take k es).
Proof. revert k. induction es as [|x es IH]; intros k S; [by rewrite take_nil|]. destruct k; [done|]. destruct x; simpl in *; auto. Qed.

Lemma replay_cut maxkeylen es n mn mx j : Forall (entry_ok maxkeylen) es -> near mn -> near mx -> in_order 0 es -> starts mn es ->
  (List.length (encodes (take j es)) <= n)%nat ->
  exists k out cnt kept, take j es `prefix_of` take k es /\
    replayandclean1 maxkeylen mn mx (take n (encodes es)) = Some (out, cnt, kept) /\
    map view out = selected mn mx (updates 0 (take k es)) /\
    exists out' cnt', replayandclean1 maxkeylen mn mx kept = Some (out', cnt', kept) /\ map view out' = map view out.
Proof.
  intros F Nm Nx O S Hj. destruct (cut_log maxkeylen es n F) as (k & part & E & T & P).
  destruct (replay_whole maxkeylen (take k es) part mn mx) as (out & cnt & kept & H);
    auto using Forall_take, in_order_take, starts_take.
  exists k, out, cnt, kept. rewrite E. split; [by apply P | done].
Qed.


(** * The range of epochs, and all logs *)

Definition info_step (x : info_type) (y : entry) : info_type :=
  let x := info_quiescent (match y with EQuiesce => true | _ => false end) x in
  match y with EEpoch a => info_epoch a x | EWake => info_wake x | _ => x end.

Section Passes.
Context (maxkeylen : Z).
Let ok := Forall (entry_ok maxkeylen).

Lemma torn_size part : torn maxkeylen part -> len part < 8 \/ 8 <= field 4 4 part /\ len part < field 4 4 part.
Proof.
  intros [->|(x & m & H & -> & Hm)]; [by left|]. destruct (decide (m < 8)%nat) as [|N].
  - left. unfold len. rewrite length_take. lia.
  - right. pose proof (encode_size maxkeylen x [] H) as S. rewrite app_nil_r in S.
    rewrite (field_take 4 4), S by lia. pose proof (encode_min maxkeylen x H). unfold len in *. rewrite length_take. lia.
Qed.

(** Reading one whole record in either pass. *)
Lemma pass_turn x rest : entry_ok maxkeylen x ->
  let buf := encode x ++ rest in
  (len buf <? sizeof_logrec_base) = false /\ (len (encode x) <? sizeof_logrec_base) = false /\ (len buf <? len (encode x)) = false /\
  field 4 0 buf = entry_command x /\ field 4 4 buf = len (encode x) /\ drop (Z.to_nat (len (encode x))) buf = rest.
Proof.
  intros H. cbv zeta. rewrite len_app. pose proof (encode_min maxkeylen x H) as M. pose proof (len_nonneg rest).
  rewrite (encode_command maxkeylen), (encode_size maxkeylen) by done. unfold sizeof_logrec_base.
  rewrite !(proj2 (Z.ltb_ge _ _)) by lia. split_and!; try done. apply drop_app_length'. unfold len. lia.
Qed.
Lemma epoch_field a rest : 0 <= a < 2 ^ 64 -> field 8 8 (encode (EEpoch a) ++ rest) = a.
Proof. intros H. cbn [encode]. unfold logrec_epoch_store. rewrite <-!app_assoc. by fields. Qed.
Lemma pass_end part fuel x : torn maxkeylen part -> info_loop fuel part x = x.
Proof.
  intros [H|[H1 H2]]%torn_size; destruct fuel; try done; cbn [info_loop]; unfold sizeof_logrec_base.
  - by rewrite (proj2 (Z.ltb_lt _ _)).
  - destruct (_ <? 8); [done|]. rewrite (proj2 (Z.ltb_ge _ _)), (proj2 (Z.ltb_lt _ _)); done.
Qed.

Lemma info_entries es part : ok es -> torn maxkeylen part -> forall fuel x,
  (List.length (encodes es ++ part) < fuel)%nat -> info_loop fuel (encodes es ++ part) x = foldl info_step x es.
Proof.
  intros F T. induction es as [|y es IH]; intros fuel x Hf; [by apply pass_end|].
  apply list.Forall_cons in F as [Hy F]. specialize (IH F). destruct fuel as [|fuel]; [lia|].
  cbn [encodes flat_map] in *. fold (encodes es) in *. rewrite <-app_assoc in *.
  destruct (pass_turn y (encodes es ++ part) Hy) as (E1 & E2 & E3 & E4 & E5 & E6). cbv zeta in *.
  cbn [info_loop foldl]. rewrite E1, E5, E2, E3, E4, E6.
  assert (Hf' : (List.length (encodes es ++ part) < fuel)%nat).
  { rewrite !length_app in *. pose proof (encode_min maxkeylen y Hy) as M. unfold len in M. lia. }
  destruct y as [a| | |c k v t q|k v pt t q]; cbn [entry_command info_step] in *.
  - commands. rewrite epoch_field by done. rewrite (encode_len maxkeylen) by done. commands. by rewrite IH.
  - commands. by rewrite IH.
  - commands. by rewrite IH.
  - simpl in Hy. assert (C : (c =? logcmd_epoch) = false /\ (c =? logcmd_wake) = false /\ (c =? logcmd_quiesce) = false /\ is_update c = true)
      by (destruct Hy as [[->|[->| ->]] _]; done).
    destruct C as (-> & -> & -> & ->). cbn [orb]. by rewrite IH.
  - commands. by rewrite IH.
Qed.

Lemma wake_entries es part : ok es -> torn maxkeylen part -> forall fuel q e, near e -> in_order e es ->
  near (wake_loop fuel q (encodes es ++ part) e).
Proof.
  intros F T. induction es as [|y es IH]; intros fuel q e Ne O; (destruct fuel as [|fuel]; [done|]).
  - cbn [encodes flat_map app wake_loop]. unfold sizeof_logrec_base.
    destruct (torn_size part T) as [H|[H1 H2]].
    + by rewrite (proj2 (Z.ltb_lt _ 8)).
    + rewrite (proj2 (Z.ltb_lt _ (field 4 4 part))) by done. by rewrite orb_true_r.
  - apply list.Forall_cons in F as [Hy F]. specialize (IH F). destruct (in_order_next e y es Ne O) as (Ne' & _ & O').
    cbn [encodes flat_map] in *. fold (encodes es) in *. rewrite <-app_assoc in *.
    destruct (pass_turn y (encodes es ++ part) Hy) as (E1 & E2 & E3 & E4 & E5 & E6). cbv zeta in *.
    cbn [wake_loop]. rewrite E1, E5, E2, E3, E4, E6. cbn [orb].
    destruct y as [a| | |c k v t q0|k v pt t q0]; cbn [entry_command next_epoch] in *; try (by commands; auto).
    + commands. rewrite epoch_field by done. rewrite (encode_len maxkeylen) by done. commands. by apply IH.
    + commands. destruct (_ && _); [done | by apply IH].
    + simpl in Hy. assert (C : (c =? logcmd_epoch) = false /\ (c =? logcmd_wake) = false) by (destruct Hy as [[->|[->| ->]] _]; done).
      destruct C as (-> & ->). by apply IH.
Qed.

(** The epochs of [info]: near, and the first one is the first mark. *)
Definition near_info (x : info_type) : Prop := near (first_epoch x) /\ near (last_epoch x) /\ near (min_post_quiescent_wake_epoch x).
Lemma info_fold es : forall e x, near e -> in_order e es -> near_info x ->
  near_info (foldl info_step x es) /\ forall mn, first_epoch (foldl info_step x es) < mn -> first_epoch x = 0 -> starts mn es.
Proof.
  induction es as [|y es IH]; intros e x Ne O N; [by split|].
  destruct (in_order_next e y es Ne O) as (Ne' & _ & O').
  destruct N as (N1 & N2 & N3).
  assert (N' : near_info (info_step x y)).
  { destruct y; simpl; try done. split_and!; [|done|done]. simpl. by destruct (_ =? 0). }
  destruct (IH _ _ Ne' O' N') as [H1 H2]. split; [done|]. intros mn L Z. cbn [foldl] in L.
  destruct y as [a| | | |]; simpl; try by apply H2.
  right. assert (E : first_epoch (foldl info_step (info_step x (EEpoch a)) es) = a); [|rewrite E in L; lia].
  clear -O' Z O. assert (Fa : first_epoch (info_step x (EEpoch a)) = a) by (simpl; by rewrite Z).
  destruct O as (Pa & _). revert Fa. generalize (info_step x (EEpoch a)). clear -Pa.
  induction es as [|y es IH]; intros x Fa; [done|]. apply IH. destruct y; simpl; try done.
  rewrite Fa. by rewrite (proj2 (Z.eqb_neq a 0)) by lia.
Qed.
End Passes.

Lemma max_over_bound f its : forall m, near m -> Forall (fun it => near (f it)) its ->
  near (max_over f m its) /\ m <= max_over f m its /\ Forall (fun it => f it <= max_over f m its) its.
Proof.
  unfold max_over. induction its as [|it its IH]; intros m Nm F; [simpl; split_and!; [done | lia | done]|].
  apply list.Forall_cons in F as [Hf F]. cbn [foldl].
  set (m' := if truthy (f it) && (negb (truthy m) || op_lt 64 m (f it)) then f it else m).
  assert (H : near m' /\ m <= m' /\ f it <= m').
  { subst m'. unfold truthy. destruct (lt64 m (f it) Nm Hf) as (-> & _). unfold near in *. zcases; simpl; lia. }
  destruct H as (H1 & H2 & H3). destruct (IH m' H1 F) as (I1 & I2 & I3).
  split_and!; [done | lia | constructor; [lia | done]].
Qed.
Lemma replay_max_near its : forall m, near m -> Forall (fun it => near (last_epoch it) /\ near (min_post_quiescent_wake_epoch it)) its ->
  near (replay_max m its).
Proof.
  unfold replay_max. induction its as [|it its IH]; intros m Nm F; [done|].
  apply list.Forall_cons in F as [[H1 H2] F]. cbn [foldl]. apply IH; [|done].
  by repeat match goal with |- context [if ?b then _ else _] => destruct b end.
Qed.

(** A log and the length of its file after a crash. *)
Definition log_of (c : list entry * nat) : list Z := take c.2 (encodes c.1).
Definition log_ok (maxkeylen : Z) (c : list entry * nat) : Prop := Forall (entry_ok maxkeylen) c.1 /\ in_order 0 c.1.

Lemma log_info_near maxkeylen uninit c : log_ok maxkeylen c ->
  near_info (log_info uninit (log_of c)) /\
  forall missed, near (min_post_quiescent_wake_epoch (analyze_wake missed (log_of c) (log_info uninit (log_of c)))).
Proof.
  intros [F O]. destruct (cut_log maxkeylen c.1 c.2 F) as (k & part & E & T & _). unfold log_of. rewrite E.
  assert (Fk : Forall (entry_ok maxkeylen) (take k c.1)) by by apply Forall_take.
  pose proof (in_order_take 0 c.1 k O) as Ok.
  assert (N0 : near_info (log_info uninit (encodes (take k c.1) ++ part))).
  { unfold log_info. destruct (encodes (take k c.1) ++ part) eqn:B; [by simpl|]. rewrite <-B. unfold info.
    rewrite (info_entries maxkeylen) by (done || lia). by apply (info_fold (take k c.1) 0). }
  split; [done|]. intros missed. unfold analyze_wake. destruct (encodes (take k c.1) ++ part) eqn:B; [apply N0|].
  destruct (_ && _); [|apply N0]. rewrite <-B. by apply (wake_entries maxkeylen).
Qed.

(** What one log gives: the updates of the range in its whole records, all of them when nothing
    of it was lost. *)
Definition replays (mn mx : Z) (c : list entry * nat) (out : list logrecord * Z * list Z) : Prop :=
  exists k, map view out.1.1 = selected mn mx (updates 0 (take k c.1)) /\
    forall j, (List.length (encodes (take j c.1)) <= c.2)%nat -> take j c.1 `prefix_of` take k c.1.

Lemma replay_log maxkeylen uninit mn mx c : log_ok maxkeylen c -> near mn -> near mx ->
  mn = 0 \/ first_epoch (log_info uninit (log_of c)) < mn ->
  exists out, match log_of c with [] => Some ([], 0, []) | buf => replayandclean1 maxkeylen mn mx buf end = Some out /\ replays mn mx c out.
Proof.
  intros [F O] Nm Nx St. destruct (cut_log maxkeylen c.1 c.2 F) as (k & part & E & T & P). unfold log_of in *. rewrite E in *.
  assert (Fk : Forall (entry_ok maxkeylen) (take k c.1)) by by apply Forall_take.
  pose proof (in_order_take 0 c.1 k O) as Ok.
  destruct (encodes (take k c.1) ++ part) eqn:B.
  - eexists. split; [done|]. exists k. split; [|done]. apply app_eq_nil in B as [B _].
    by rewrite (encodes_nil maxkeylen _ Fk B).
  - rewrite <-B in *. destruct (replay_whole maxkeylen (take k c.1) part mn mx Fk T Nm Nx Ok) as (out & cnt & kept & R & V & _).
    { destruct St as [->|L]; [clear; induction (take k c.1) as [|[]]; simpl; auto|].
      unfold log_info in L. rewrite B in L. rewrite <-B in L. unfold info in L.
      rewrite (info_entries maxkeylen) in L by (done || lia). destruct (info_fold (take k c.1) 0 info_new) as [_ H]; [done..|]. by apply H. }
    rewrite R. eexists. split; [by destruct (encodes (take k c.1) ++ part)|]. exists k. by split.
Qed.

Lemma replay_logs maxkeylen uninit mn mx cs : Forall (log_ok maxkeylen) cs -> near mn -> near mx ->
  (forall c, c ∈ cs -> mn = 0 \/ first_epoch (log_info uninit (log_of c)) < mn) ->
  exists outs, mapM (fun buf => match buf with [] => Some ([], 0, []) | _ => replayandclean1 maxkeylen mn mx buf end) (map log_of cs) = Some outs /\
    Forall2 (replays mn mx) cs outs.
Proof.
  intros F Nm Nx. induction F as [|c cs H F IH]; intros St; [by eexists|].
  destruct (replay_log maxkeylen uninit mn mx c H Nm Nx) as (out & E & Ro); [apply St; left|].
  assert (St2 : forall c, c ∈ cs -> mn = 0 \/ first_epoch (log_info uninit (log_of c)) < mn) by (intros c0 Hc; apply St; by right).
  destruct (IH St2) as (outs & Es & Rs).
  exists (out :: outs). split; [|by constructor]. cbn [map]. apply mapM_Some_2. constructor; [by destruct (log_of c)|]. by apply mapM_Some_1.
Qed.


(** ** Examples *)

Definition example_request (c e t pt : Z) (k v : list Z) : request :=
  {| rcommand := c; rtimes := {| qepoch := e; qts := t; qprev_ts := pt |}; rkey := k; rvalue := v; rpad := [0; 0; 0; 0] |}.
Definition example_ops : list log_op :=
  [Record 1 false (example_request logcmd_put 1 10 0 [65] [1]); Locked false 1; Record 2 false (example_request logcmd_put 1 14 10 [65] [2]);
   Write; Locked false 1; Write; Record 1 false (example_request logcmd_remove 2 21 14 [65] []); Locked false 2].


(** The replay of that log after a crash within the last write. *)
Lemma example_replay : exists s cell rs, log_run example_ops (loginfo_new 400 []) 0 = Some (s, cell, rs) /\
  option_map (fun r => map view r.1.1) (replayandclean1 255 0 9 (crashed 100 s)) =
    Some [(logcmd_put, [65], [1], 10, 0, 1); (logcmd_modify, [65], [2], 14, 10, 1)].
Proof. eexists _, _, _. split; [vm_compute; reflexivity|]. vm_compute. reflexivity. Qed.


(** Two logs, one of them cut, and a third that is empty. *)
Definition example_logs : list (list entry * nat) :=
  [([EEpoch 5; EKv logcmd_put [65] [1] 10 [0; 0; 0; 0]; EEpoch 6; EKv logcmd_put [66] [1] 12 [0; 0; 0; 0]; EEpoch 8], 200%nat);
   ([EEpoch 4; EKv logcmd_replace [67] [2] 14 [0; 0; 0; 0]; EEpoch 7; EKv logcmd_remove [65] [] 17 [0; 0; 0; 0]], 60%nat);
   ([], 0%nat)].
