(* ===== verification/Internode.v ===== *)
(** masstree_struct.hh, masstree_split.hh: interior nodes.

    An interior node holds [nkeys_] keys and [nkeys_ + 1] children; the arrays are
    functions of the index.  The parent pointers of the nodes are a map [parents] from
    node to node, since a split redirects those of the children that move.  The list view
    of a node is its keys and its children in order; inserting a key and a child, with the
    split of a full node, refines insertion into these lists. *)
From Stdlib Require Import Sorted.
From S2P Require Import Prelude.

(** [memcpy] and [memmove] of [n] elements between arrays. *)
Definition blit (dst : Z -> Z) (p : Z) (src : Z -> Z) (xp n : Z) : Z -> Z :=
  fun i => if (p <=? i) && (i <? p + n) then src (xp + (i - p)) else dst i.

Record internode := { nkeys_ : Z; ikey0_ : Z -> Z; child_ : Z -> Z }.

Definition size (x : internode) : Z := nkeys_ x.
Definition set_nkeys (x : internode) (n : Z) : internode :=
  {| nkeys_ := n; ikey0_ := ikey0_ x; child_ := child_ x |}.
Definition set_child (x : internode) (i c : Z) : internode :=
  {| nkeys_ := nkeys_ x; ikey0_ := ikey0_ x; child_ := <[i := c]> (child_ x) |}.
Definition set_parent (c p : Z) (parents : Z -> Z) : Z -> Z := <[c := p]> parents.

(** [assign], on the node whose address is [this]. *)
Definition assign (this p ikey child : Z) (x : internode) (parents : Z -> Z) : internode * (Z -> Z) :=
  ({| nkeys_ := nkeys_ x; ikey0_ := <[p := ikey]> (ikey0_ x); child_ := <[p + 1 := child]> (child_ x) |},
   set_parent child this parents).
Definition shift_from (p : Z) (y : internode) (xp n : Z) (x : internode) : internode :=
  if n =? 0 then x
  else {| nkeys_ := nkeys_ x; ikey0_ := blit (ikey0_ x) p (ikey0_ y) xp n;
          child_ := blit (child_ x) (p + 1) (child_ y) (xp + 1) n |}.
(** The pointer loops of [shift_up] and [shift_down]. *)
Fixpoint copy_down (n : nat) (c : Z -> Z) (a b : Z) : Z -> Z :=
  match n with O => c | S n => copy_down n (<[a := c b]> c) (a - 1) (b - 1) end.
Fixpoint copy_up (n : nat) (c : Z -> Z) (a b : Z) : Z -> Z :=
  match n with O => c | S n => copy_up n (<[a := c b]> c) (a + 1) (b + 1) end.
Definition shift_up (p xp n : Z) (x : internode) : internode :=
  {| nkeys_ := nkeys_ x; ikey0_ := blit (ikey0_ x) p (ikey0_ x) xp n;
     child_ := copy_down (Z.to_nat n) (child_ x) (p + n) (xp + n) |}.
Definition shift_down (p xp n : Z) (x : internode) : internode :=
  {| nkeys_ := nkeys_ x; ikey0_ := blit (ikey0_ x) p (ikey0_ x) xp n;
     child_ := copy_up (Z.to_nat n) (child_ x) (p + 1) (xp + 1) |}.

(** [find_child_idx]: [None] is the failing assertion. *)
Fixpoint find_child_loop (n : nat) (x : internode) (c i : Z) : option Z :=
  match n with
  | O => None
  | S n => if child_ x i =? c then Some i else find_child_loop n x c (i + 1)
  end.
Definition find_child_idx (x : internode) (c : Z) : option Z :=
  find_child_loop (Z.to_nat (size x + 1)) x c 0.

Section Split.
Context (width : Z).

(** The loop over the new node's children that sets their parent. *)
Fixpoint adopt (n : nat) (nr_addr : Z) (nr : internode) (i : Z) (parents : Z -> Z) : Z -> Z :=
  match n with
  | O => parents
  | S n => adopt n nr_addr nr (i + 1) (set_parent (child_ nr i) nr_addr parents)
  end.

(** [split_into]: this node, the new node, the key that moves up, the returned position. *)
Definition split_into (nr_addr p ka value split_type : Z) (x nr : internode) (parents : Z -> Z)
    : internode * internode * Z * Z * (Z -> Z) :=
  let mid := if split_type =? 2 then width else (width + 1) / 2 in
  let nr := set_nkeys nr (width + 1 - (mid + 1)) in
  let '(nr, split_ikey, parents) :=
    if p <? mid then
      (shift_from 0 x mid (width - mid) (set_child nr 0 (child_ x mid)), ikey0_ x (mid - 1), parents)
    else if p =? mid then
      (shift_from 0 x mid (width - mid) (set_child nr 0 value), ka, parents)
    else
      let nr := shift_from 0 x (mid + 1) (p - (mid + 1)) (set_child nr 0 (child_ x (mid + 1))) in
      let '(nr, parents) := assign nr_addr (p - (mid + 1)) ka value nr parents in
      (shift_from (p + 1 - (mid + 1)) x p (width - p) nr, ikey0_ x mid, parents)
  in
  let parents := adopt (Z.to_nat (nkeys_ nr + 1)) nr_addr nr 0 parents in
  if p <? mid then (set_nkeys x (mid - 1), nr, split_ikey, p, parents)
  else (set_nkeys x mid, nr, split_ikey, -1, parents).

(** The insertion of [make_split] into the parent [x] at [addr] of the node that was
    split: position [kp], the key and the new right sibling; [nr] is the new interior node
    made when [x] is full.  Returns the nodes, the key for the next level if there was a
    split, and the parents. *)
Definition insert_here (addr kp ka value : Z) (x : internode) (parents : Z -> Z) : internode * (Z -> Z) :=
  let x := shift_up (kp + 1) kp (size x - kp) x in
  let '(x, parents) := assign addr kp ka value x parents in
  (set_nkeys x (nkeys_ x + 1), parents).
Definition insert_child (addr nr_addr kp ka value split_type : Z) (x nr : internode) (parents : Z -> Z)
    : internode * option (internode * Z) * (Z -> Z) :=
  if width <=? size x then
    let '(x, nr, split_ikey, kp, parents) := split_into nr_addr kp ka value split_type x nr parents in
    if 0 <=? kp then
      let '(x, parents) := insert_here addr kp ka value x parents in (x, Some (nr, split_ikey), parents)
    else (x, Some (nr, split_ikey), parents)
  else
    let '(x, parents) := insert_here addr kp ka value x parents in (x, None, parents).

(** The other branch of [make_split]: a new interior node above [n] and its new sibling.
    [kp < 0] is the root of a layer. *)
Definition new_parent (nn_addr n ka child kp p_addr : Z) (nn : internode) (p : internode) (parents : Z -> Z)
    : internode * internode * (Z -> Z) :=
  let nn := set_child nn 0 n in
  let '(nn, parents) := assign nn_addr 0 ka child nn parents in
  let nn := set_nkeys nn 1 in
  let '(p, parents) := if kp <? 0 then (p, set_parent nn_addr 0 parents)
                       else (set_child p kp nn_addr, set_parent nn_addr p_addr parents) in
  (nn, p, set_parent n nn_addr parents).
End Split.

(** * The list view *)

Definition keys (x : internode) : list Z := arr (ikey0_ x) 0 (nkeys_ x).
Definition kids (x : internode) : list Z := arr (child_ x) 0 (nkeys_ x + 1).

(** ** The copies *)
Lemma blit_in dst p src xp n i : p <= i < p + n -> blit dst p src xp n i = src (xp + (i - p)).
Proof. intros. unfold blit. destruct (Z.leb_spec p i), (Z.ltb_spec i (p + n)); cbn; lia || done. Qed.
Lemma blit_out dst p src xp n i : i < p \/ p + n <= i -> blit dst p src xp n i = dst i.
Proof. intros. unfold blit. destruct (Z.leb_spec p i), (Z.ltb_spec i (p + n)); cbn; lia || done. Qed.

(** The two pointer loops are [memmove] in the direction they are used in. *)
Lemma copy_down_blit n : forall c a b, b < a -> forall i,
  copy_down n c a b i = blit c (a - Z.of_nat n + 1) c (b - Z.of_nat n + 1) (Z.of_nat n) i.
Proof.
  induction n as [|n IH]; intros c a b Hab i; cbn [copy_down].
  { rewrite blit_out by lia. done. }
  rewrite IH by lia. destruct (decide (a - Z.of_nat n <= i < a)).
  - rewrite !blit_in by lia. rewrite fn_lookup_insert_ne by lia. f_equal. lia.
  - rewrite blit_out by lia. destruct (decide (i = a)) as [->|].
    + rewrite blit_in, fn_lookup_insert by lia. f_equal. lia.
    + rewrite blit_out by lia. by rewrite fn_lookup_insert_ne by lia.
Qed.
Lemma copy_up_blit n : forall c a b, a < b -> forall i, copy_up n c a b i = blit c a c b (Z.of_nat n) i.
Proof.
  induction n as [|n IH]; intros c a b Hab i; cbn [copy_up].
  { rewrite blit_out by lia. done. }
  rewrite IH by lia. destruct (decide (a + 1 <= i < a + 1 + Z.of_nat n)).
  - rewrite !blit_in by lia. rewrite fn_lookup_insert_ne by lia. f_equal. lia.
  - rewrite blit_out by lia. destruct (decide (i = a)) as [->|].
    + rewrite blit_in, fn_lookup_insert by lia. f_equal. lia.
    + rewrite blit_out by lia. by rewrite fn_lookup_insert_ne by lia.
Qed.

(** ** Inserting where there is room *)
Lemma insert_here_views addr kp ka value x parents x' parents' : 0 <= kp <= nkeys_ x ->
  insert_here addr kp ka value x parents = (x', parents') ->
  keys x' = insert_at kp ka (keys x) /\ kids x' = insert_at (kp + 1) value (kids x) /\
  nkeys_ x' = nkeys_ x + 1 /\ parents' = set_parent value addr parents.
Proof.
  intros Hkp. unfold insert_here, assign, shift_up, set_nkeys, size. cbn.
  intros [= <- <-]. unfold keys, kids. cbn [nkeys_ ikey0_ child_].
  rewrite !insert_at_arr by lia. split_and!; [| |done|done].
  - rewrite (arr_cut kp) by lia. cbn [Z.add]. f_equal.
    + apply arr_ext0. intros. rewrite fn_lookup_insert_ne, blit_out by lia. done.
    + rewrite arr_cons by lia. rewrite fn_lookup_insert. f_equal. apply arr_ext; [lia|]. intros.
      rewrite fn_lookup_insert_ne, blit_in by lia. f_equal. lia.
  - rewrite (arr_cut (kp + 1)) by lia. cbn [Z.add]. f_equal.
    + apply arr_ext0. intros. rewrite fn_lookup_insert_ne, copy_down_blit, blit_out by lia. done.
    + rewrite arr_cons by lia. rewrite fn_lookup_insert. f_equal. apply arr_ext; [lia|]. intros.
      rewrite fn_lookup_insert_ne, copy_down_blit, blit_in by lia. f_equal. lia.
Qed.

(** ** Splitting *)
Lemma adopt_spec n nr_addr nr : forall i parents c,
  adopt n nr_addr nr i parents c
  = if bool_decide (c ∈ arr (child_ nr) i (Z.of_nat n)) then nr_addr else parents c.
Proof.
  induction n as [|n IH]; intros i parents c; cbn [adopt]; [done|].
  rewrite IH. rewrite (arr_cons _ _ (Z.of_nat (S n))) by lia.
  replace (Z.of_nat (S n) - 1) with (Z.of_nat n) by lia. unfold set_parent.
  destruct (decide (c ∈ arr (child_ nr) (i + 1) (Z.of_nat n))) as [Hin|Hin].
  - rewrite !bool_decide_eq_true_2 by (done || by apply elem_of_cons; right). done.
  - rewrite bool_decide_eq_false_2 by done. destruct (decide (c = child_ nr i)) as [->|Hne].
    + rewrite fn_lookup_insert, bool_decide_eq_true_2 by (apply elem_of_cons; by left). done.
    + rewrite fn_lookup_insert_ne by done. rewrite bool_decide_eq_false_2; [done|].
      by rewrite elem_of_cons; intros [?|?].
Qed.

Lemma shift_from_nkeys p y xp n x : nkeys_ (shift_from p y xp n x) = nkeys_ x.
Proof. unfold shift_from. by destruct (n =? 0). Qed.
Lemma shift_from_ikey p y xp n x i : ikey0_ (shift_from p y xp n x) i = blit (ikey0_ x) p (ikey0_ y) xp n i.
Proof. unfold shift_from. destruct (Z.eqb_spec n 0) as [->|]; [|done]. by rewrite blit_out by lia. Qed.
Lemma shift_from_child p y xp n x i :
  child_ (shift_from p y xp n x) i = blit (child_ x) (p + 1) (child_ y) (xp + 1) n i.
Proof. unfold shift_from. destruct (Z.eqb_spec n 0) as [->|]; [|done]. by rewrite blit_out by lia. Qed.

(** The new node, when it takes everything from position [xp] on behind a first child. *)
Lemma taken_views x nr xp w c : 0 <= xp <= w ->
  let nr' := shift_from 0 x xp (w - xp) (set_child nr 0 c) in
  arr (ikey0_ nr') 0 (w - xp) = arr (ikey0_ x) xp (w - xp) /\
  arr (child_ nr') 0 (w - xp + 1) = c :: arr (child_ x) (xp + 1) (w - xp).
Proof.
  intros Hx nr'. unfold nr'. split.
  - apply arr_ext; [lia|]. intros. rewrite shift_from_ikey, blit_in by lia. f_equal. lia.
  - rewrite arr_cons by lia. rewrite shift_from_child, blit_out by lia. cbn [child_ set_child].
    rewrite fn_lookup_insert. f_equal. apply arr_ext; [lia|]. intros.
    rewrite shift_from_child, blit_in by lia. f_equal. lia.
Qed.

(** The new node, when the inserted key goes into it. *)
Lemma taken_insert_views x nr m w p ka c value addr parents : 0 <= m < p -> p <= w ->
  let nr1 := shift_from 0 x (m + 1) (p - (m + 1)) (set_child nr 0 c) in
  let nr' := shift_from (p + 1 - (m + 1)) x p (w - p) (assign addr (p - (m + 1)) ka value nr1 parents).1 in
  arr (ikey0_ nr') 0 (w - m) = arr (ikey0_ x) (m + 1) (p - m - 1) ++ ka :: arr (ikey0_ x) p (w - p) /\
  arr (child_ nr') 0 (w - m + 1)
    = c :: arr (child_ x) (m + 2) (p - m - 1) ++ value :: arr (child_ x) (p + 1) (w - p).
Proof.
  intros Hm Hp nr1 nr'. unfold nr', nr1. split.
  - rewrite (arr_cut (p - m - 1)) by lia. cbn [Z.add]. f_equal.
    + apply arr_ext; [lia|]. intros. rewrite shift_from_ikey, blit_out by lia. cbn [assign fst ikey0_].
      rewrite fn_lookup_insert_ne, shift_from_ikey, blit_in by lia. f_equal. lia.
    + rewrite arr_cons by lia. rewrite shift_from_ikey, blit_out by lia. cbn [assign fst ikey0_].
      replace (p - m - 1) with (p - (m + 1)) by lia. rewrite fn_lookup_insert. f_equal.
      apply arr_ext; [lia|]. intros. rewrite shift_from_ikey, blit_in by lia. f_equal. lia.
  - rewrite arr_cons by lia. rewrite shift_from_child, blit_out by lia. cbn [assign fst child_].
    rewrite fn_lookup_insert_ne, shift_from_child, blit_out by lia. cbn [set_child child_].
    rewrite fn_lookup_insert. f_equal. rewrite (arr_cut (p - m - 1)) by lia. f_equal.
    + apply arr_ext; [lia|]. intros. rewrite shift_from_child, blit_out by lia. cbn [assign fst child_].
      rewrite fn_lookup_insert_ne, shift_from_child, blit_in by lia. f_equal. lia.
    + rewrite arr_cons by lia. rewrite shift_from_child, blit_out by lia. cbn [assign fst child_].
      replace (0 + 1 + (p - m - 1)) with (p - (m + 1) + 1) by lia. rewrite fn_lookup_insert. f_equal.
      apply arr_ext; [lia|]. intros. rewrite shift_from_child, blit_in by lia. f_equal. lia.
Qed.

Section Split_facts.
Context (width : Z) (Hw : 1 <= width).
Abbreviation mid st := (if st =? 2 then width else (width + 1) / 2).
Lemma mid_range st : 1 <= mid st <= width.
Proof using Hw. destruct (st =? 2); Z.div_mod_to_equations; lia. Qed.

(** The halves before the insertion into the left one. *)
Lemma split_into_views nr_addr p ka value st x nr parents : nkeys_ x = width -> 0 <= p <= width ->
  let '(x', nr', sk, kp, parents') := split_into width nr_addr p ka value st x nr parents in
  ikey0_ x' = ikey0_ x /\ child_ x' = child_ x /\
  nkeys_ nr' = width - mid st /\
  nkeys_ x' = (if p <? mid st then mid st - 1 else mid st) /\
  kp = (if p <? mid st then p else -1) /\
  (if p <? mid st
   then keys x = keys x' ++ sk :: keys nr' /\ kids x = kids x' ++ kids nr'
   else insert_at p ka (keys x) = keys x' ++ sk :: keys nr' /\
        insert_at (p + 1) value (kids x) = kids x' ++ kids nr') /\
  (forall c, c ∈ kids nr' -> parents' c = nr_addr) /\
  (forall c, c ∉ kids nr' -> parents' c = parents c).
Proof using Hw.
  intros Hx Hp. pose proof (mid_range st). unfold split_into.
  set (m := if st =? 2 then width else _) in *.
  assert (Hadopt : forall nr1 (pa : Z -> Z), nkeys_ nr1 = width - m ->
    (forall c, c ∉ kids nr1 -> pa c = parents c) ->
    (forall c, c ∈ kids nr1 -> adopt (Z.to_nat (nkeys_ nr1 + 1)) nr_addr nr1 0 pa c = nr_addr) /\
    (forall c, c ∉ kids nr1 -> adopt (Z.to_nat (nkeys_ nr1 + 1)) nr_addr nr1 0 pa c = parents c)).
  { intros nr1 pa Hn Hpa. unfold kids in *.
    split; intros c Hc; rewrite adopt_spec, Z2Nat.id by lia.
    - by rewrite bool_decide_eq_true_2.
    - rewrite bool_decide_eq_false_2 by done. by apply Hpa. }
  unfold keys, kids. rewrite Hx.
  destruct (Z.ltb_spec p m) as [Hlt|Hge]; [|destruct (Z.eqb_spec p m) as [->|Hne]].
  - set (nr1 := shift_from _ _ _ _ _).
    assert (Hk : nkeys_ nr1 = width - m) by (unfold nr1; rewrite shift_from_nkeys; cbn; lia).
    destruct (Hadopt nr1 parents Hk ltac:(done)). split_and!; try done; cbn [nkeys_ ikey0_ child_ set_nkeys].
    all: rewrite Hk; destruct (taken_views x (set_nkeys nr (width + 1 - (m + 1))) m width (child_ x m))
      as [E1 E2]; [lia|].
    + unfold nr1. rewrite E1, (arr_cut (m - 1)) by lia. f_equal. rewrite arr_cons by lia.
      f_equal. apply arr_ext; [lia|]. intros. f_equal. lia.
    + unfold nr1. rewrite E2, (arr_cut m) by lia. f_equal; [f_equal; f_equal; lia|].
      rewrite arr_cons by lia. f_equal. apply arr_ext; [lia|]. done.
  - set (nr1 := shift_from _ _ _ _ _).
    assert (Hk : nkeys_ nr1 = width - m) by (unfold nr1; rewrite shift_from_nkeys; cbn; lia).
    destruct (Hadopt nr1 parents Hk ltac:(done)). split_and!; try done; cbn [nkeys_ ikey0_ child_ set_nkeys].
    all: rewrite Hk; destruct (taken_views x (set_nkeys nr (width + 1 - (m + 1))) m width value)
      as [E1 E2]; [lia|].
    + unfold nr1. rewrite E1, insert_at_arr by lia. done.
    + unfold nr1. rewrite E2, insert_at_arr by lia. f_equal. f_equal. f_equal. f_equal. lia.
  - set (nr1 := shift_from 0 _ _ _ _).
    destruct (assign nr_addr (p - (m + 1)) ka value nr1 parents) as [nr2 pa] eqn:Ea.
    assert (Hk2 : nkeys_ nr2 = width - m).
    { unfold assign in Ea. simplify_eq. cbn. unfold nr1. rewrite shift_from_nkeys. cbn. lia. }
    set (nr3 := shift_from _ _ _ _ nr2).
    assert (Hk : nkeys_ nr3 = width - m) by (unfold nr3; by rewrite shift_from_nkeys).
    destruct (taken_insert_views x (set_nkeys nr (width + 1 - (m + 1))) m width p ka (child_ x (m + 1)) value
      nr_addr parents ltac:(lia) ltac:(lia)) as [E1 E2]. fold nr1 in E1, E2. rewrite Ea in E1, E2.
    cbn [fst] in E1, E2. fold nr3 in E1, E2.
    destruct (Hadopt nr3 pa Hk) as [A1 A2].
    { intros c Hc. unfold kids in Hc. rewrite Hk, E2 in Hc. unfold assign in Ea. simplify_eq.
      unfold set_parent. rewrite fn_lookup_insert_ne; [done|]. intros <-. apply Hc.
      apply elem_of_cons. right. apply elem_of_app. right. by left. }
    split_and!; try done; cbn [nkeys_ ikey0_ child_ set_nkeys]; rewrite Hk.
    + rewrite E1, insert_at_arr, (arr_cut m _ 0 p) by lia. rewrite <- app_assoc. f_equal. cbn [Z.add].
      rewrite (arr_cons _ m) by lia. reflexivity.
    + rewrite E2, insert_at_arr, (arr_cut (m + 1) _ 0 (p + 1)) by lia. rewrite <- app_assoc. f_equal. cbn [Z.add].
      rewrite (arr_cons _ (m + 1)) by lia. cbn [app]. f_equal. f_equal; [f_equal; f_equal; lia|].
      f_equal. f_equal. f_equal. lia.
Qed.
End Split_facts.

Lemma length_keys x : 0 <= nkeys_ x -> Z.of_nat (List.length (keys x)) = nkeys_ x.
Proof. apply length_arr. Qed.
Lemma length_kids x : 0 <= nkeys_ x -> Z.of_nat (List.length (kids x)) = nkeys_ x + 1.
Proof. intros. apply length_arr. lia. Qed.

Lemma kids_prefix x y c : child_ x = child_ y -> 0 <= nkeys_ x <= nkeys_ y -> c ∈ kids x -> c ∈ kids y.
Proof.
  intros E H. unfold kids. rewrite E, (arr_cut (nkeys_ x + 1) _ _ (nkeys_ y + 1)) by lia.
  rewrite elem_of_app. tauto.
Qed.
Lemma sorted_around a (sk : Z) b : StronglySorted Z.lt (a ++ sk :: b) ->
  Forall (fun k => k < sk) a /\ Forall (fun k => sk < k) b.
Proof.
  intros H. split.
  - induction a as [|k a IH]; [constructor|]. cbn in H. apply StronglySorted_inv in H as [H1 H2].
    constructor; [|by apply IH]. apply Forall_app in H2 as [_ H2]. by inversion H2.
  - induction a as [|k a IH]; cbn in H; apply StronglySorted_inv in H as [H1 H2]; [done|by apply IH].
Qed.

(** The parent has room, or splits: [mid] keys stay, one moves up, the rest is right. *)
Definition split_mid (width st : Z) : Z := if st =? 2 then width else (width + 1) / 2.
Definition parent_ok (addr : Z) (x : internode) (parents : Z -> Z) : Prop :=
  forall c, c ∈ kids x -> c <> 0 -> parents c = addr.

(** Both cases, with what happens to the parent pointers of other nodes. *)
Lemma insert_child_spec width addr nr_addr kp ka value st x nr parents :
  1 <= width -> 0 <= kp <= nkeys_ x -> nkeys_ x <= width -> NoDup (value :: kids x) ->
  parent_ok addr x parents ->
  match insert_child width addr nr_addr kp ka value st x nr parents with
  | (x', None, parents') =>
      nkeys_ x < width /\ keys x' = insert_at kp ka (keys x) /\
      kids x' = insert_at (kp + 1) value (kids x) /\ parent_ok addr x' parents' /\
      (nkeys_ x' = nkeys_ x + 1 /\ forall c, c <> value -> parents' c = parents c)
  | (x', Some (nr', sk), parents') =>
      nkeys_ x = width /\ keys x' ++ sk :: keys nr' = insert_at kp ka (keys x) /\
      kids x' ++ kids nr' = insert_at (kp + 1) value (kids x) /\
      nkeys_ x' = split_mid width st /\ nkeys_ nr' = width - split_mid width st /\
      (StronglySorted Z.lt (insert_at kp ka (keys x)) ->
        Forall (fun k => k < sk) (keys x') /\ Forall (fun k => sk < k) (keys nr')) /\
      parent_ok addr x' parents' /\ parent_ok nr_addr nr' parents' /\
      (forall c, c <> value -> c ∉ kids nr' -> parents' c = parents c)
  end.
Proof.
  intros Hw Hkp Hn Hnd HP. unfold insert_child, size. destruct (Z.leb_spec width (nkeys_ x)) as [Hf|Hf].
  - assert (Hx : nkeys_ x = width) by lia.
    pose proof (split_into_views width Hw nr_addr kp ka value st x nr parents Hx ltac:(lia)) as HS.
    pose proof (mid_range width Hw st) as Hm.
    destruct (split_into width nr_addr kp ka value st x nr parents) as [[[[x1 nr1] sk] kp1] pa1].
    destruct HS as (_ & Hch & Hnr & Hx1 & -> & HV & HP1 & HP2).
    assert (Hp : NoDup (insert_at (kp + 1) value (kids x))) by by rewrite insert_at_Permutation.
    destruct (Z.ltb_spec kp (if st =? 2 then width else (width + 1) / 2)) as [Hlt|Hge].
    + destruct (Z.leb_spec 0 kp); [|lia]. destruct HV as [HV1 HV2].
      destruct (insert_here addr kp ka value x1 pa1) as [x2 pa2] eqn:EI.
      apply insert_here_views in EI as (E1 & E2 & E3 & ->); [|lia].
      pose proof (length_keys x1 ltac:(lia)). pose proof (length_kids x1 ltac:(lia)).
      assert (EK : keys x2 ++ sk :: keys nr1 = insert_at kp ka (keys x)).
      { rewrite HV1, insert_at_app, E1 by lia. done. }
      assert (EC : kids x2 ++ kids nr1 = insert_at (kp + 1) value (kids x)).
      { rewrite HV2, insert_at_app, E2 by lia. done. }
      rewrite <- EC in Hp. apply list.NoDup_app in Hp as (_ & Hd & _).
      unfold split_mid. split_and!; try done; try lia.
      * rewrite <- EK. apply sorted_around.
      * intros c Hc Hc0. unfold set_parent. destruct (decide (c = value)) as [->|]; [by rewrite fn_lookup_insert|].
        rewrite fn_lookup_insert_ne by done. rewrite HP2 by by apply Hd. apply HP; [|done]. rewrite HV2.
        rewrite E2, elem_of_insert_at in Hc. apply elem_of_app. tauto.
      * intros c Hc _. unfold set_parent. rewrite fn_lookup_insert_ne; [by apply HP1|].
        intros <-. apply (Hd value); [|done]. rewrite E2. apply elem_of_insert_at. by left.
      * intros c Hv Hc. unfold set_parent. rewrite fn_lookup_insert_ne by done. by apply HP2.
    + cbn [Z.leb Z.compare]. destruct HV as [HV1 HV2]. rewrite HV2 in Hp.
      apply list.NoDup_app in Hp as (_ & Hd & _).
      unfold split_mid. split_and!; try done; try lia.
      * rewrite HV1. apply sorted_around.
      * intros c Hc Hc0. rewrite HP2 by by apply Hd. apply HP; [|done]. revert Hc. apply kids_prefix; [done|lia].
      * intros c Hc _. by apply HP1.
      * intros c _ Hc. by apply HP2.
  - destruct (insert_here addr kp ka value x parents) as [x2 pa2] eqn:EI.
    apply insert_here_views in EI as (E1 & E2 & E3 & ->); [|lia]. split_and!; try done.
    2: { intros c Hc. unfold set_parent. by rewrite fn_lookup_insert_ne. }
    intros c Hc Hc0. unfold set_parent. destruct (decide (c = value)) as [->|]; [by rewrite fn_lookup_insert|].
    rewrite fn_lookup_insert_ne by done. apply HP; [|done]. rewrite E2, elem_of_insert_at in Hc. tauto.
Qed.

(** [C17]. Inserting a key and the new sibling into a parent, as [make_split] does.  A
    parent with room gets the key at position [kp] and the child behind it.  A full one is
    split: the keys of the two halves around the key that moves up are the old keys with
    the new one at [kp], the children of the two halves are the old children with the new
    one at [kp + 1], whichever half the new key falls in and for both split points (the
    middle, and the last position for sequential insertion); [mid] keys stay on the left
    and [width - mid] go right; when the keys were in order, the key that moves up separates
    the halves; and in every case the parent pointer of each child that is not null names the node it is in. *)
Theorem insert_child_correct width addr nr_addr kp ka value st x nr parents :
  1 <= width -> 0 <= kp <= nkeys_ x -> nkeys_ x <= width -> NoDup (value :: kids x) ->
  parent_ok addr x parents ->
  match insert_child width addr nr_addr kp ka value st x nr parents with
  | (x', None, parents') =>
      nkeys_ x < width /\ keys x' = insert_at kp ka (keys x) /\
      kids x' = insert_at (kp + 1) value (kids x) /\ parent_ok addr x' parents'
  | (x', Some (nr', sk), parents') =>
      nkeys_ x = width /\ keys x' ++ sk :: keys nr' = insert_at kp ka (keys x) /\
      kids x' ++ kids nr' = insert_at (kp + 1) value (kids x) /\
      nkeys_ x' = split_mid width st /\ nkeys_ nr' = width - split_mid width st /\
      (StronglySorted Z.lt (insert_at kp ka (keys x)) ->
        Forall (fun k => k < sk) (keys x') /\ Forall (fun k => sk < k) (keys nr')) /\
      parent_ok addr x' parents' /\ parent_ok nr_addr nr' parents'
  end.
Proof.
  intros Hw Hkp Hn Hnd HP. pose proof (insert_child_spec width addr nr_addr kp ka value st x nr parents Hw Hkp Hn Hnd HP) as H.
  destruct (insert_child _ _ _ _ _ _ _ _ _) as [[x' [[nr' sk]|]] parents']; tauto.
Qed.

Definition wit_internode : internode :=
  {| nkeys_ := 3; ikey0_ := fun i => 10 * (i + 1); child_ := fun i => 100 + i |}.
Lemma insert_child_correct_witness :
  let '(x', r, pa) := insert_child 3 1 2 1 15 200 0 wit_internode wit_internode (fun _ => 1) in
  match r with
  | None => False
  | Some (nr', sk) =>
      sk = 20 /\ keys x' ++ 20 :: keys nr' = [10; 15; 20; 30] /\
      kids x' ++ kids nr' = [100; 101; 200; 102; 103] /\ parent_ok 1 x' pa /\ parent_ok 2 nr' pa
  end.
Proof.
  pose proof (insert_child_correct 3 1 2 1 15 200 0 wit_internode wit_internode (fun _ => 1)
    ltac:(lia) ltac:(cbn; lia) ltac:(cbn; lia)
    ltac:(apply (bool_decide_unpack (NoDup (200 :: kids wit_internode))); vm_compute; reflexivity) ltac:(done)) as H.
  assert (Hsk : match (insert_child 3 1 2 1 15 200 0 wit_internode wit_internode (fun _ => 1)).1.2 with
                | Some (_, sk) => sk = 20 | None => False end) by (vm_compute; reflexivity).
  destruct (insert_child _ _ _ _ _ _ _ _ _ _) as [[x' r] pa]. cbn in Hsk. destruct r as [[nr' sk]|]; [|done].
  subst sk. destruct H as (_ & Hk & Hc & _ & _ & _ & Hp & Hp'). split; [done|]. split; [exact Hk|]. split; [exact Hc|done].
Defined.

(** A new interior node above a split node: its two children are the halves. *)
Lemma new_parent_views nn_addr n ka child kp p_addr nn p parents :
  n <> child -> n <> nn_addr -> child <> nn_addr ->
  let '(nn', p', parents') := new_parent nn_addr n ka child kp p_addr nn p parents in
  keys nn' = [ka] /\ kids nn' = [n; child] /\ parent_ok nn_addr nn' parents' /\
  parents' nn_addr = (if kp <? 0 then 0 else p_addr) /\
  p' = (if kp <? 0 then p else set_child p kp nn_addr) /\ nkeys_ nn' = 1 /\
  (forall c, c <> n -> c <> child -> c <> nn_addr -> parents' c = parents c).
Proof.
  intros H1 H2 H3. unfold new_parent, assign, set_parent.
  assert (HK : forall i : Z -> Z, arr i 0 (1 + 1) = [i 0; i 1]) by done.
  destruct (kp <? 0); unfold parent_ok, keys, kids; cbn [nkeys_ set_nkeys child_ ikey0_ set_child];
    rewrite HK, arr_one, !fn_lookup_insert; rewrite !(fn_lookup_insert_ne _ _ 0) by lia;
    rewrite !fn_lookup_insert; (split_and!; try done);
    try (intros c [->|[->|[]%elem_of_nil]%elem_of_cons]%elem_of_cons _;
         [by rewrite fn_lookup_insert|rewrite !fn_lookup_insert_ne by done; by rewrite fn_lookup_insert]);
    try (intros c C1 C2 C3; by rewrite !fn_lookup_insert_ne by done);
    rewrite fn_lookup_insert_ne by done; by rewrite fn_lookup_insert.
Qed.
