(* ===== verification/LeafSplit.v ===== *)
(** masstree_split.hh, masstree_insert.hh: the split of a full leaf and the end of an insertion.

    A leaf is its permutation, its slots and its two links.  A slot is an entry: the key
    slice, the extended key length, the value word and, for a key with a suffix, the
    suffix; where suffixes are stored is the concern of the suffix bag.  The entries of a
    leaf are its slots in the order of the permutation.  The locks and version words that
    the code handles on the way are the subject of the component for node versions. *)
From Stdlib Require Import Sorted.
From S2P Require Import Prelude StringSlice MassKey Permuter.

Record entry := { ikey0 : Z; keylenx : Z; lv : Z; ksuf : list Z }.
Record leaf := { permutation_ : Z; slot : Z -> entry; next_ : Z; prev_ : Z }.

Definition ksuf_keylenx : Z := 64.
Definition layer_keylenx : Z := 128.

(** [assign] and [assign_initialize] of a key: the entry stored. *)
Definition assign_key (mem : Z -> Z) (ka : key) : entry :=
  {| ikey0 := ikey ka; keylenx := if has_suffix 8 ka then ksuf_keylenx else MassKey.length ka; lv := 0;
     ksuf := if has_suffix 8 ka then mem_bytes mem (suffix 8 ka).1 (suffix 8 ka).2 else [] |}.

Section Leaf.
Context (width : Z).

Definition lsize (n : leaf) : Z := size (permutation_ n).
Definition set_perm (n : leaf) (p : Z) : leaf :=
  {| permutation_ := p; slot := slot n; next_ := next_ n; prev_ := prev_ n |}.
Definition set_slot (n : leaf) (p : Z) (e : entry) : leaf :=
  {| permutation_ := permutation_ n; slot := <[p := e]> (slot n); next_ := next_ n; prev_ := prev_ n |}.
Definition set_links (n : leaf) (nx pv : Z) : leaf :=
  {| permutation_ := permutation_ n; slot := slot n; next_ := nx; prev_ := pv |}.

Definition ikey_after_insert (n : leaf) (perm i : Z) (ka : entry) (ka_i : Z) : Z :=
  if i <? ka_i then ikey0 (slot n (elem perm i))
  else if i =? ka_i then ikey0 ka
  else ikey0 (slot n (elem perm (i - 1))).

(** The search for a split point between two different key slices; [None] is the loop
    that runs out of the arrays. *)
Fixpoint separate_loop (fuel : nat) (w mid_ikey : Z) (iai : Z -> Z) (midl midr : Z) : option Z :=
  match fuel with
  | O => None
  | S fuel =>
      if (midr <=? w) && negb (mid_ikey =? iai midr) then Some midr
      else if (0 <=? midl) && negb (mid_ikey =? iai midl) then Some (midl + 1)
      else separate_loop fuel w mid_ikey iai (midl - 1) (midr + 1)
  end.
Definition split_point (n : leaf) (ka : entry) (p : Z) : option Z :=
  let w := lsize n in
  let mid := width / 2 + 1 in
  let mid := if (p =? 0) && (prev_ n =? 0) then 1
             else if (p =? w) && (next_ n =? 0) then w else mid in
  let iai i := ikey_after_insert n (permutation_ n) i ka p in
  if iai mid =? iai (mid - 1)
  then separate_loop (Z.to_nat w + 2) w (iai mid) iai (mid - 2) (mid + 1)
  else Some mid.

(** The copying loop, with the word [pv] that is shifted. *)
Fixpoint move_loop (k : nat) (x p mid : Z) (ka : entry) (src : Z -> entry) (pv : Z) (dst : Z -> entry)
    : Z -> entry :=
  match k with
  | O => dst
  | S k =>
      if x =? p then move_loop k (x + 1) p mid ka src pv (<[x - mid := ka]> dst)
      else move_loop k (x + 1) p mid ka src (pv .>> 4) (<[x - mid := src (pv .& 15)]> dst)
  end.

(** [split_into]: the two leaves (linked, [this] and [nr_addr] being their addresses), the
    first key slice of the new one and the split type. *)
Definition split_into (this nr_addr : Z) (n nr : leaf) (p : Z) (ka : entry) : option (leaf * leaf * Z * Z) :=
  let w := lsize n in
  mid ← split_point n ka p;
  let pv := value_from (permutation_ n) (mid - b2z (p <? mid)) in
  let s := move_loop (Z.to_nat (w + 1 - mid)) mid p mid ka (slot n) pv (slot nr) in
  let permr := kpermuter width (make_sorted width (w + 1 - mid)) in
  let permr := if mid <=? p then remove_to_back width permr (p - mid) else permr in
  Some (set_links n nr_addr (prev_ n),
        {| permutation_ := permr; slot := s; next_ := next_ n; prev_ := this |},
        ikey0 (s 0),
        if mid <=? p then 1 + b2z (mid =? w) else 0).

(** The start of [make_split]: the free slot to use instead of splitting, if any. *)
Definition make_split_reuse (n : leaf) : option (leaf * Z) :=
  if lsize n <? width then
    let perm := exchange width (permutation_ n) (lsize n) (width - 1) in
    let kx_p := back width perm in
    if negb (kx_p =? 0) then Some (set_perm n perm, kx_p) else None
  else None.

(** The part of [make_split] that finishes the two leaves: they, whether the cursor moved
    to the new one, and its position [kx_.i], [kx_.p]. *)
Definition finish_split (n nr : leaf) (split_type kx_i : Z) (ka : entry) : leaf * leaf * bool * Z * Z :=
  let w := lsize n in
  let perml := set_size width (permutation_ n) (w - lsize nr) in
  let perml := if negb (w =? width) then exchange width perml (size perml) (width - 1) else perml in
  let n := set_perm n perml in
  if split_type =? 0 then
    let kx_p := back width perml in (set_slot n kx_p ka, nr, false, kx_i, kx_p)
  else (n, nr, true, kx_i - size perml, kx_i - size perml).

(** [finish_insert]: [None] when the invariant on the free slot fails. *)
Definition finish_insert (n : leaf) (kx_i kx_p : Z) : option leaf :=
  if back width (permutation_ n) =? kx_p
  then Some (set_perm n (insert_from_back width (permutation_ n) kx_i).1) else None.

(** Splitting a leaf and inserting, as [make_split] and [finish] do. *)
Definition split_insert (this nr_addr : Z) (n nr : leaf) (kx_i : Z) (ka : entry) : option (leaf * leaf * Z * Z) :=
  '(n, nr, split_ikey, split_type) ← split_into this nr_addr n nr kx_i ka;
  let '(n, nr, moved, i, p) := finish_split n nr split_type kx_i ka in
  if moved then nr ← finish_insert nr i p; Some (n, nr, split_ikey, split_type)
  else n ← finish_insert n i p; Some (n, nr, split_ikey, split_type).
End Leaf.

(** The entries of a leaf in key order. *)
Definition nth_entry (n : leaf) (i : Z) : entry := slot n (elem (permutation_ n) i).
Definition entries (n : leaf) : list entry := arr (nth_entry n) 0 (lsize n).

(** * The position after insertion *)
Definition after_insert (n : leaf) (ka : entry) (p i : Z) : entry :=
  if i <? p then nth_entry n i else if i =? p then ka else nth_entry n (i - 1).

Lemma iai_after_insert n ka p i :
  ikey_after_insert n (permutation_ n) i ka p = ikey0 (after_insert n ka p i).
Proof. unfold ikey_after_insert, after_insert. by zcases. Qed.

Lemma after_insert_entries n ka p : 0 <= p <= lsize n ->
  arr (after_insert n ka p) 0 (lsize n + 1) = insert_at p ka (entries n).
Proof.
  intros Hp. unfold entries. rewrite insert_at_arr, (arr_cut p _ 0 (lsize n + 1)) by lia. f_equal.
  - apply arr_ext0. intros. unfold after_insert. destruct (Z.ltb_spec i p); [done|lia].
  - rewrite arr_cons by lia. f_equal.
    + unfold after_insert. destruct (Z.ltb_spec (0 + p) p); [lia|]. by destruct (Z.eqb_spec (0 + p) p); [|lia].
    + apply arr_ext; [lia|]. intros. unfold after_insert. destruct (Z.ltb_spec (0 + p + 1 + i) p); [lia|].
      destruct (Z.eqb_spec (0 + p + 1 + i) p); [lia|]. f_equal. lia.
Qed.

(** * The split point *)
Lemma separate_loop_ext fuel w mk f g : (forall i, f i = g i) -> forall a b,
  separate_loop fuel w mk f a b = separate_loop fuel w mk g a b.
Proof. intros H. induction fuel as [|fuel IH]; intros a b; cbn; [done|]. by rewrite !H, IH. Qed.

Section Point.
Context (w : Z) (f : Z -> Z).

Lemma separate_loop_ok i0 mk fuel : forall midl midr, midl + 1 < midr -> midl < w -> 0 < midr ->
  (forall i, midl < i < midr -> 0 <= i <= w -> f i = mk) ->
  0 <= i0 <= w -> f i0 <> mk ->
  (i0 <= midl -> midl - i0 < Z.of_nat fuel) -> (midr <= i0 -> i0 - midr < Z.of_nat fuel) ->
  exists mid, separate_loop fuel w mk f midl midr = Some mid /\ 0 < mid <= w /\ f (mid - 1) <> f mid.
Proof.
  induction fuel as [|fuel IH]; intros midl midr Hlr Hl Hr Heq Hi0 Hf HL HR; cbn [separate_loop].
  { destruct (decide (midl < i0 < midr)); [by rewrite Heq in Hf|lia]. }
  destruct (Z.leb_spec midr w) as [Hw|Hw]; [destruct (Z.eqb_spec mk (f midr)) as [E|E]|]; cbn [negb andb].
  2: { exists midr. split_and!; [done|lia..|]. rewrite (Heq (midr - 1)) by lia. done. }
  all: destruct (Z.leb_spec 0 midl) as [Hm|Hm]; [destruct (Z.eqb_spec mk (f midl)) as [E'|E']|]; cbn [negb andb].
  all: try (exists (midl + 1); split_and!; [done|lia..|]; rewrite (Heq (midl + 1)) by lia;
            by replace (midl + 1 - 1) with midl by lia).
  all: apply IH; try lia; try done; intros i Hi1 Hi2; destruct (decide (midl < i < midr)); [by apply Heq|];
    destruct (decide (i = midl)) as [Ei|]; destruct (decide (i = midr)) as [Ej|]; try subst i; done || lia.
Qed.
End Point.

Section Split_facts.
Context (width : Z) (Hw : 3 <= width <= 15).

(** Enough keys on both sides: some slice differs, as ten keys at most share one. *)
Lemma split_point_ok n ka p : width - 1 <= lsize n -> 0 <= p <= lsize n ->
  (exists i j, 0 <= i <= lsize n /\ 0 <= j <= lsize n /\
     ikey0 (after_insert n ka p i) <> ikey0 (after_insert n ka p j)) ->
  exists mid, split_point width n ka p = Some mid /\ 0 < mid <= lsize n /\
    ikey0 (after_insert n ka p (mid - 1)) <> ikey0 (after_insert n ka p mid).
Proof.
  intros Hs Hp (i & j & Hi & Hj & Hij). unfold split_point. set (w := lsize n) in *.
  set (m := if (p =? 0) && _ then 1 else _).
  assert (Hm : 0 < m <= w).
  { unfold m. destruct (_ && _); [unfold w; lia|]. destruct (_ && _); [unfold w; lia|].
    unfold w. Z.div_mod_to_equations. lia. }
  clearbody m. cbn zeta. rewrite !iai_after_insert.
  destruct (Z.eqb_spec (ikey0 (after_insert n ka p m)) (ikey0 (after_insert n ka p (m - 1)))) as [E|E].
  2: { exists m. split_and!; [done|lia..|congruence]. }
  set (f := fun i => ikey0 (after_insert n ka p i)).
  assert (exists i0, 0 <= i0 <= w /\ f i0 <> f m) as (i0 & Hi0 & Hne).
  { destruct (decide (f i = f m)); [exists j|exists i]; split; try done. unfold f in *. congruence. }
  erewrite (separate_loop_ext _ _ _ _ f) by (intros; apply iai_after_insert).
  eapply (separate_loop_ok w f i0); try lia; try done.
  intros k Hk _. assert (k = m \/ k = m - 1) as [->| ->] by lia; done.
Qed.

Lemma value_from_elem x i : 0 <= i -> value_from x i .& 15 = elem x i.
Proof. intros. unfold value_from, elem. do 2 f_equal. rewrite !Z.shiftl_mul_pow2 by lia. lia. Qed.
Lemma value_from_next x i : 0 <= i -> value_from x i .>> 4 = value_from x (i + 1).
Proof.
  intros. unfold value_from. rewrite Z.shiftr_shiftr by lia. f_equal.
  rewrite !Z.shiftl_mul_pow2 by lia. lia.
Qed.

Lemma move_loop_ok n ka p mid k : forall x dst, 0 < mid <= x -> 0 <= p -> forall j,
  move_loop k x p mid ka (slot n) (value_from (permutation_ n) (x - b2z (p <? x))) dst j
  = if (x - mid <=? j) && (j <? x - mid + Z.of_nat k) then after_insert n ka p (j + mid) else dst j.
Proof.
  induction k as [|k IH]; intros x dst Hm Hp j; cbn [move_loop].
  { destruct (Z.leb_spec (x - mid) j), (Z.ltb_spec j (x - mid + Z.of_nat 0)); cbn; done || lia. }
  assert (HJ : forall e, e = after_insert n ka p x ->
    (if (x + 1 - mid <=? j) && (j <? x + 1 - mid + Z.of_nat k) then after_insert n ka p (j + mid)
     else <[x - mid := e]> dst j)
    = if (x - mid <=? j) && (j <? x - mid + Z.of_nat (S k)) then after_insert n ka p (j + mid) else dst j).
  { intros e ->. destruct (decide (j = x - mid)) as [->|].
    - rewrite fn_lookup_insert. destruct (Z.leb_spec (x + 1 - mid) (x - mid)); [lia|]. cbn [andb].
      destruct (Z.leb_spec (x - mid) (x - mid)), (Z.ltb_spec (x - mid) (x - mid + Z.of_nat (S k))); cbn; try lia.
      f_equal. lia.
    - rewrite fn_lookup_insert_ne by done.
      destruct (Z.leb_spec (x + 1 - mid) j), (Z.ltb_spec j (x + 1 - mid + Z.of_nat k)),
        (Z.leb_spec (x - mid) j), (Z.ltb_spec j (x - mid + Z.of_nat (S k))); cbn; done || lia. }
  destruct (Z.eqb_spec x p) as [->|Hx].
  - rewrite <- (HJ ka). 2: { unfold after_insert. zcases. done. }
    rewrite Z.ltb_irrefl. rewrite <- (IH (p + 1)) by lia. do 2 f_equal. cbn.
    destruct (Z.ltb_spec p (p + 1)); cbn; lia.
  - destruct (Z.ltb_spec p x) as [Hlt|Hge]; cbn [b2z].
    + rewrite value_from_next, value_from_elem by lia.
      rewrite <- (HJ (slot n (elem (permutation_ n) (x - 1)))).
      2: { unfold after_insert, nth_entry. zcases. done. }
      rewrite <- (IH (x + 1)) by lia. do 2 f_equal. destruct (Z.ltb_spec p (x + 1)); cbn; lia.
    + rewrite value_from_next, value_from_elem by lia. rewrite Z.sub_0_r.
      rewrite <- (HJ (slot n (elem (permutation_ n) x))).
      2: { unfold after_insert, nth_entry. zcases. done. }
      rewrite <- (IH (x + 1)) by lia. do 2 f_equal. destruct (Z.ltb_spec p (x + 1)); cbn; lia.
Qed.

(** ** The two leaves after the insertion

    [left_perm] is the permutation that [finish_split] gives the old leaf. *)
Definition left_perm (x m : Z) : Z :=
  let x' := set_size width x m in
  if negb (size x =? width) then exchange width x' (size x') (width - 1) else x'.

Lemma left_perm_ok x m : perm_wf width x -> 0 <= m <= width ->
  size x <= width -> (size x = width \/ m < width) ->
  perm_wf width (left_perm x m) /\ size (left_perm x m) = m /\
  (forall k, 0 <= k < m -> elem (left_perm x m) k = elem x k) /\
  back width (left_perm x m) = elem x (if size x =? width then width - 1 else m).
Proof using Hw.
  intros Hx Hm Hs Hsz. unfold left_perm. set (x1 := set_size width x m).
  destruct (perm_op_step width ltac:(lia) (OpSetSize m) x Hx ltac:(cbn; lia)) as [V1 W1].
  change (op_run width (OpSetSize m) x) with x1 in V1, W1.
  assert (S1 : size x1 = m) by (exact (f_equal fst V1)).
  assert (E1 : forall k, 0 <= k < width -> elem x1 k = elem x k).
  { intros. apply set_size_elem; lia. }
  destruct (Z.eqb_spec (size x) width) as [E|E]; cbn [negb].
  - split_and!; [done|done|intros; apply E1; lia|]. unfold back. apply E1. lia.
  - rewrite S1.
    destruct (perm_op_step width ltac:(lia) (OpExchange m (width - 1)) x1 W1 ltac:(cbn; lia)) as [V2 W2].
    cbn [op_run] in V2, W2. assert (S2 : size (exchange width x1 m (width - 1)) = m).
    { etrans; [exact (f_equal fst V2)|done]. }
    split_and!; try done.
    + intros k Hk. rewrite exchange_elem by lia. zcases. apply E1. lia.
    + unfold back. rewrite exchange_elem by lia. zcases; rewrite E1 by lia; f_equal; lia.
Qed.

Lemma insert_back_wf x i : perm_wf width x -> 0 <= i < width -> size x < width ->
  perm_wf width (insert_from_back width x i).1 /\ size (insert_from_back width x i).1 = size x + 1.
Proof using Hw.
  intros Hx Hi Hs. destruct (perm_op_step width ltac:(lia) (OpInsertFromBack i) x Hx ltac:(cbn; lia)) as [V W].
  split; [done|]. exact (f_equal fst V).
Qed.

Definition half_ok (n : leaf) (a m : Z) (J : Z -> entry) : Prop :=
  perm_wf width (permutation_ n) /\ lsize n = m /\ forall k, 0 <= k < m -> nth_entry n k = J (a + k).

(** The old leaf, when the new key goes into it. *)
Lemma left_insert_ok n ka p m : perm_wf width (permutation_ n) -> lsize n <= width ->
  0 <= p < m -> m <= lsize n -> let x := left_perm (permutation_ n) (m - 1) in
  half_ok (set_perm (set_slot (set_perm n x) (back width x) ka) (insert_from_back width x p).1) 0 m
    (after_insert n ka p).
Proof using Hw.
  intros Hx Hs Hp Hm x. unfold lsize in *.
  destruct (left_perm_ok (permutation_ n) (m - 1) Hx ltac:(lia) Hs ltac:(lia)) as (W & S & EL & EB).
  fold x in W, S, EL, EB.
  destruct (insert_back_wf x p W ltac:(lia) ltac:(lia)) as [W' S'].
  split_and!; [done|unfold lsize; cbn [permutation_ set_perm]; lia|]. intros k Hk. cbn [Z.add].
  unfold nth_entry, after_insert. cbn [slot permutation_ set_perm set_slot].
  change (0 + k) with k.
  rewrite insert_from_back_elem by lia.
  assert (Hb : forall j, 0 <= j < m - 1 -> elem x j <> back width x /\ elem x j = elem (permutation_ n) j).
  { intros j Hj. rewrite EL, EB by lia. split; [|done]. intros E.
    apply (elem_inj width) in E; [|lia|done|lia|zcases]. revert E. zcases. }
  zcases.
  - by rewrite fn_lookup_insert.
  - destruct (Hb k) as [Hb1 Hb2]; [lia|]. rewrite fn_lookup_insert_ne by done. unfold nth_entry. by rewrite Hb2.
  - destruct (Hb (k - 1)) as [Hb1 Hb2]; [lia|]. rewrite fn_lookup_insert_ne by done. unfold nth_entry. by rewrite Hb2.
Qed.

(** The old leaf, when the new key goes right. *)
Lemma left_keep_ok n ka p m : perm_wf width (permutation_ n) -> lsize n <= width ->
  0 <= m <= p -> p <= lsize n -> (lsize n = width \/ m < width) ->
  half_ok (set_perm n (left_perm (permutation_ n) m)) 0 m (after_insert n ka p).
Proof using Hw.
  intros Hx Hs Hp Hp' Hm. unfold lsize in *.
  destruct (left_perm_ok (permutation_ n) m Hx ltac:(lia) Hs Hm) as (W & S & EL & EB).
  split_and!; [done|done|]. intros k Hk. unfold nth_entry, after_insert. cbn [slot permutation_ set_perm].
  change (0 + k) with k.
  rewrite EL by lia. destruct (Z.ltb_spec k p); [done|lia].
Qed.

(** The new leaf. *)
Lemma right_ok n nr' ka p m : 0 < m <= lsize n -> lsize n <= width -> 0 <= p <= lsize n ->
  (forall j, 0 <= j < lsize n + 1 - m -> slot nr' j = after_insert n ka p (j + m)) ->
  let permr := kpermuter width (make_sorted width (lsize n + 1 - m)) in
  (p < m -> permutation_ nr' = permr -> half_ok nr' m (lsize n + 1 - m) (after_insert n ka p)) /\
  (m <= p -> permutation_ nr' = remove_to_back width permr (p - m) ->
     lsize nr' = lsize n - m /\ back width (permutation_ nr') = p - m /\
     half_ok (set_perm nr' (insert_from_back width (permutation_ nr') (p - m)).1) m (lsize n + 1 - m)
       (after_insert n ka p)).
Proof using Hw.
  intros Hm Hs Hp HJ permr. set (w := lsize n) in *. set (c := w + 1 - m) in *.
  destruct (make_sorted_facts width c ltac:(lia) ltac:(lia)) as (Wr & Vr & _). fold permr in Wr, Vr.
  assert (Sr : size permr = c) by (exact (f_equal fst Vr)).
  assert (Er : forall k, 0 <= k < c -> elem permr k = k) by (intros; apply make_sorted_elem; lia).
  split.
  - intros Hpm E. split_and!; [by rewrite E|unfold lsize; by rewrite E|]. intros k Hk.
    unfold nth_entry. rewrite E, Er, HJ by lia. f_equal. lia.
  - intros Hmp E. rewrite E.
    destruct (perm_op_step width ltac:(lia) (OpRemoveToBack (p - m)) permr Wr ltac:(cbn; lia)) as [V2 W2].
    change (op_run _ _ permr) with (remove_to_back width permr (p - m)) in V2, W2.
    assert (S2 : size (remove_to_back width permr (p - m)) = c - 1).
    { rewrite <- Sr. exact (f_equal fst V2). }
    assert (B2 : back width (remove_to_back width permr (p - m)) = p - m).
    { unfold back. rewrite remove_to_back_elem by lia. zcases; apply Er; lia. }
    destruct (insert_back_wf _ (p - m) W2 ltac:(lia) ltac:(lia)) as [W3 S3].
    split_and!; [unfold lsize; rewrite E; lia|done|]. split_and!; [done|unfold lsize; cbn [permutation_ set_perm]; lia|].
    intros k Hk. unfold nth_entry. cbn [slot permutation_ set_perm].
    rewrite insert_from_back_elem, B2 by lia. replace (m + k) with (k + m) by lia.
    rewrite <- HJ by lia. f_equal. zcases; try lia; rewrite remove_to_back_elem by lia.
    + zcases; apply Er; lia.
    + zcases; rewrite Er by lia; lia.
Qed.

Lemma half_entries n a m J : half_ok n a m J -> 0 <= m -> entries n = arr J a m.
Proof using.
  intros (_ & Hs & HJ) Hm. unfold entries. rewrite Hs. apply arr_ext; [done|]. intros. by apply HJ.
Qed.

(** Splitting and inserting, pointwise. *)
Lemma split_insert_ok this nr_addr n nr p ka : perm_wf width (permutation_ n) ->
  width - 1 <= lsize n <= width -> 0 <= p <= lsize n ->
  (exists i j, 0 <= i <= lsize n /\ 0 <= j <= lsize n /\
     ikey0 (after_insert n ka p i) <> ikey0 (after_insert n ka p j)) ->
  exists m n' nr' st, split_insert width this nr_addr n nr p ka
      = Some (n', nr', ikey0 (after_insert n ka p m), st) /\
    0 < m <= lsize n /\
    ikey0 (after_insert n ka p (m - 1)) <> ikey0 (after_insert n ka p m) /\
    half_ok n' 0 m (after_insert n ka p) /\ half_ok nr' m (lsize n + 1 - m) (after_insert n ka p) /\
    (st = 0 <-> p < m) /\
    next_ n' = nr_addr /\ prev_ n' = prev_ n /\ next_ nr' = next_ n /\ prev_ nr' = this.
Proof using Hw.
  intros Hx Hs Hp Hd. destruct (split_point_ok n ka p ltac:(lia) Hp Hd) as (m & Em & Hm & Hne).
  unfold split_insert, split_into. rewrite Em. cbn [mbind option_bind].
  set (s := move_loop _ _ _ _ _ _ _ _).
  assert (HJ : forall j, 0 <= j < lsize n + 1 - m -> s j = after_insert n ka p (j + m)).
  { intros j Hj. unfold s. rewrite move_loop_ok by lia.
    destruct (Z.leb_spec (m - m) j), (Z.ltb_spec j (m - m + Z.of_nat (Z.to_nat (lsize n + 1 - m)))); cbn; done || lia. }
  clearbody s. set (permr := kpermuter width (make_sorted width (lsize n + 1 - m))).
  set (nr1 := {| permutation_ := _; slot := s; next_ := next_ n; prev_ := this |}).
  set (n1 := set_links n nr_addr (prev_ n)).
  destruct (right_ok n nr1 ka p m Hm ltac:(lia) Hp HJ) as [HR1 HR2].
  assert (Hsk : ikey0 (s 0) = ikey0 (after_insert n ka p m)) by (by rewrite HJ by lia).
  unfold finish_split. change (lsize n1) with (lsize n). change (permutation_ n1) with (permutation_ n).
  fold (left_perm (permutation_ n) (lsize n - lsize nr1)).
  destruct (Z.leb_spec m p) as [Hmp|Hmp].
  - destruct (HR2 Hmp eq_refl) as (SR & BR & HH). rewrite SR.
    replace (lsize n - (lsize n - m)) with m by lia.
    destruct (left_perm_ok (permutation_ n) m Hx ltac:(lia) ltac:(unfold lsize in *; lia)
      ltac:(unfold lsize in *; lia)) as (_ & SL & _ & _).
    destruct (Z.eqb_spec (1 + b2z (m =? lsize n)) 0) as [E|E]; [destruct (m =? lsize n); cbn in E; lia|].
    unfold left_perm, lsize in SL |- *. rewrite SL. unfold finish_insert. rewrite BR, Z.eqb_refl. cbn [mbind option_bind].
    eexists m, _, _, _. split; [by rewrite Hsk|]. unfold lsize in *. split_and!; try done; try lia.
    apply (left_keep_ok n ka p m); unfold lsize in *; (done || lia).
  - specialize (HR1 Hmp eq_refl). cbn [Z.eqb]. rewrite (proj1 (proj2 HR1)).
    replace (lsize n - (lsize n + 1 - m)) with (m - 1) by lia.
    unfold finish_insert. unfold left_perm, lsize. cbn [permutation_ set_slot set_perm]. rewrite Z.eqb_refl. cbn [mbind option_bind].
    eexists m, _, _, _. split; [by rewrite Hsk|]. unfold lsize in *. split_and!; try done; try lia.
    apply (left_insert_ok n ka p m); unfold lsize in *; (done || lia).
Qed.

(** The split before the new key becomes visible: where its slot is, and that the two
    leaves hold the old entries. *)
Lemma split_parts_ok this nr_addr n nr p ka : perm_wf width (permutation_ n) ->
  width - 1 <= lsize n <= width -> 0 <= p <= lsize n ->
  (exists i j, 0 <= i <= lsize n /\ 0 <= j <= lsize n /\
     ikey0 (after_insert n ka p i) <> ikey0 (after_insert n ka p j)) ->
  exists m n1 r1 st n2 r2 i', split_into width this nr_addr n nr p ka = Some (n1, r1, ikey0 (after_insert n ka p m), st) /\
    0 < m <= lsize n /\ ikey0 (after_insert n ka p (m - 1)) <> ikey0 (after_insert n ka p m) /\
    lsize n1 = lsize n /\ next_ n1 = nr_addr /\ prev_ n1 = prev_ n /\ next_ r1 = next_ n /\ prev_ r1 = this /\
    next_ n2 = nr_addr /\ prev_ n2 = prev_ n /\ next_ r2 = next_ n /\ prev_ r2 = this /\
    perm_wf width (permutation_ n2) /\ perm_wf width (permutation_ r2) /\
    entries n = entries n2 ++ entries r2 /\ entries n1 = entries n /\
    ikey0 (slot r2 0) = ikey0 (after_insert n ka p m) /\
    if m <=? p
    then finish_split width n1 r1 st p ka = (n2, r2, true, i', back width (permutation_ r2)) /\
         lsize n2 = m /\ i' = p - m /\ i' <= lsize r2 < width /\ slot r2 (back width (permutation_ r2)) = ka /\
         slot n2 = slot n
    else finish_split width n1 r1 st p ka = (n2, r2, false, i', back width (permutation_ n2)) /\
         lsize n2 = m - 1 /\ i' = p /\ i' <= lsize n2 < width /\ slot n2 (back width (permutation_ n2)) = ka /\
         slot n2 = <[elem (permutation_ n) (if lsize n =? width then width - 1 else m - 1) := ka]> (slot n).
Proof using Hw.
  intros Hx Hs Hp Hd. destruct (split_point_ok n ka p ltac:(lia) Hp Hd) as (m & Em & Hm & Hne).
  unfold split_into. rewrite Em. cbn [mbind option_bind].
  set (s := move_loop _ _ _ _ _ _ _ _).
  assert (HJ : forall j, 0 <= j < lsize n + 1 - m -> s j = after_insert n ka p (j + m)).
  { intros j Hj. unfold s. rewrite move_loop_ok by lia.
    destruct (Z.leb_spec (m - m) j), (Z.ltb_spec j (m - m + Z.of_nat (Z.to_nat (lsize n + 1 - m)))); cbn; done || lia. }
  clearbody s. set (permr := kpermuter width (make_sorted width (lsize n + 1 - m))).
  set (nr1 := {| permutation_ := _; slot := s; next_ := next_ n; prev_ := this |}).
  set (n1 := set_links n nr_addr (prev_ n)).
  assert (Hsk : ikey0 (s 0) = ikey0 (after_insert n ka p m)) by (by rewrite HJ by lia).
  destruct (make_sorted_facts width (lsize n + 1 - m) ltac:(lia) ltac:(lia)) as (Wr & Vr & _). fold permr in Wr, Vr.
  assert (Sr : size permr = lsize n + 1 - m) by (exact (f_equal fst Vr)).
  assert (Er : forall k, 0 <= k < lsize n + 1 - m -> elem permr k = k) by (intros; apply make_sorted_elem; lia).
  assert (HE : forall x y, lsize x + lsize y = lsize n -> 0 <= lsize x -> 0 <= lsize y ->
    (forall k, 0 <= k < lsize x -> nth_entry x k = nth_entry n k) ->
    (forall k, 0 <= k < lsize y -> nth_entry y k = nth_entry n (lsize x + k)) -> entries n = entries x ++ entries y).
  { intros x y Hxy H0x H0y Ex Ey. unfold entries. rewrite (arr_cut (lsize x) _ 0 (lsize n)) by lia. f_equal.
    - apply arr_ext0. intros. symmetry. apply Ex. lia.
    - apply arr_ext; [lia|]. intros. symmetry. apply Ey. lia. }
  exists m. destruct (Z.leb_spec m p) as [Hmp|Hmp].
  - destruct (perm_op_step width ltac:(lia) (OpRemoveToBack (p - m)) permr Wr ltac:(cbn; lia)) as [V2 W2].
    change (op_run _ _ permr) with (remove_to_back width permr (p - m)) in V2, W2.
    assert (S2 : size (remove_to_back width permr (p - m)) = lsize n - m).
    { transitivity (size permr - 1); [exact (f_equal fst V2)|lia]. }
    assert (B2 : back width (remove_to_back width permr (p - m)) = p - m).
    { unfold back. rewrite remove_to_back_elem by lia. zcases; apply Er; lia. }
    destruct (left_perm_ok (permutation_ n) m Hx ltac:(lia) ltac:(unfold lsize in *; lia) ltac:(unfold lsize in *; lia))
      as (WL & SL & EL & _).
    exists n1, nr1, (1 + b2z (m =? lsize n)), (set_perm n1 (left_perm (permutation_ n) m)), nr1, (p - m).
    change (permutation_ nr1) with (remove_to_back width permr (p - m)).
    assert (SR : lsize nr1 = lsize n - m) by exact S2.
    split; [by rewrite Hsk|]. split_and!; try done; try lia.
    + apply HE.
      * unfold lsize at 1. cbn [permutation_ set_perm]. lia.
      * unfold lsize. cbn [permutation_ set_perm]. lia.
      * lia.
      * intros k Hk. unfold lsize in Hk. cbn [permutation_ set_perm] in Hk. unfold nth_entry. cbn [slot permutation_ set_perm n1 set_links].
        by rewrite EL by lia.
      * intros k Hk. unfold lsize at 1. cbn [permutation_ set_perm]. rewrite SL. unfold nth_entry at 1. cbn [slot permutation_ nr1].
        rewrite remove_to_back_elem by lia. unfold after_insert in HJ. zcases; rewrite Er by lia; rewrite HJ by lia; zcases; try lia.
        -- f_equal. lia. -- f_equal. lia.
    + unfold finish_split. change (lsize n1) with (lsize n). change (permutation_ n1) with (permutation_ n). rewrite SR.
      replace (lsize n - (lsize n - m)) with m by lia. fold (left_perm (permutation_ n) m).
      destruct (Z.eqb_spec (1 + b2z (m =? lsize n)) 0) as [E|E]; [destruct (m =? lsize n); cbn in E; lia|].
      unfold lsize. fold (left_perm (permutation_ n) m). rewrite SL, B2. done.
    + rewrite B2. change (slot nr1 (p - m)) with (s (p - m)). rewrite HJ by lia. unfold after_insert. zcases; done || lia.
  - destruct (left_perm_ok (permutation_ n) (m - 1) Hx ltac:(lia) ltac:(unfold lsize in *; lia) ltac:(unfold lsize in *; lia))
      as (WL & SL & EL & EB).
    set (x := left_perm (permutation_ n) (m - 1)) in *.
    exists n1, nr1, 0, (set_slot (set_perm n1 x) (back width x) ka), nr1, p.
    change (permutation_ nr1) with permr. assert (SR : lsize nr1 = lsize n + 1 - m) by exact Sr.
    assert (SN : lsize (set_slot (set_perm n1 x) (back width x) ka) = m - 1) by exact SL.
    split; [by rewrite Hsk|]. split_and!; try done; try lia.
    + apply HE; [lia|lia|lia| |].
      * intros k Hk. rewrite SN in Hk. unfold nth_entry. cbn [slot permutation_ set_perm set_slot n1 set_links].
        rewrite fn_lookup_insert_ne; [by rewrite EL by lia|]. rewrite EB, EL by lia. intros E.
        apply (elem_inj width) in E; [|lia|done|zcases; unfold lsize in *; lia|lia]. revert E. unfold lsize in *. zcases; lia.
      * intros k Hk. rewrite SN. unfold nth_entry at 1. cbn [slot permutation_ nr1]. rewrite Er by lia. rewrite HJ by lia.
        unfold after_insert. zcases; try lia. f_equal. lia.
    + unfold finish_split. change (lsize n1) with (lsize n). change (permutation_ n1) with (permutation_ n). rewrite SR.
      replace (lsize n - (lsize n + 1 - m)) with (m - 1) by lia. fold (left_perm (permutation_ n) (m - 1)). fold x. done.
    + cbn [slot set_slot permutation_ set_perm]. by rewrite fn_lookup_insert.
    + cbn [slot set_slot set_perm n1 set_links]. by rewrite EB.
Qed.
End Split_facts.

(** Sorted by slice: with equality allowed, as keys that share a slice differ further on. *)
Definition slices_sorted (l : list entry) : Prop := StronglySorted (fun a b => ikey0 a <= ikey0 b) l.

Lemma sorted_split J a m c : 0 < m -> 0 < c -> ikey0 (J (a + m - 1)) <> ikey0 (J (a + m)) ->
  slices_sorted (arr J a (m + c)) ->
  Forall (fun e => ikey0 e < ikey0 (J (a + m))) (arr J a m) /\
  Forall (fun e => ikey0 (J (a + m)) <= ikey0 e) (arr J (a + m) c).
Proof.
  intros Hm Hc Hne HS.
  assert (Hle : forall i j, a <= i <= j -> j < a + m + c -> ikey0 (J i) <= ikey0 (J j)).
  { intros i j Hij Hj. destruct (decide (i = j)) as [->|]; [lia|].
    replace (m + c) with ((i - a) + (m + c - (i - a))) in HS by lia. rewrite arr_split in HS by lia.
    assert (HS2 : slices_sorted (arr J (a + (i - a)) (m + c - (i - a)))).
    { clear -HS. unfold slices_sorted in *. induction (arr J a (i - a)) as [|e l IH]; [done|].
      cbn in HS. apply StronglySorted_inv in HS as [HS _]. by apply IH. }
    rewrite arr_cons in HS2 by lia. apply StronglySorted_inv in HS2 as [_ HF].
    replace (a + (i - a)) with i in HF by lia. rewrite Forall_forall in HF. apply HF.
    apply list_elem_of_In, list_elem_of_fmap. exists j. split; [done|]. apply elem_of_seqZ. lia. }
  split; apply Forall_forall; intros e He%list_elem_of_In; apply list_elem_of_fmap in He as (i & -> & Hi);
    apply elem_of_seqZ in Hi.
  - pose proof (Hle i (a + m - 1) ltac:(lia) ltac:(lia)). pose proof (Hle (a + m - 1) (a + m) ltac:(lia) ltac:(lia)). lia.
  - apply Hle; lia.
Qed.

(** [C11]. Splitting a leaf and inserting a key.  A leaf that is full, or lacks one key,
    is split at any position of the new key, provided its keys and the new one do not all
    share one slice (at most ten keys can, and a leaf that is split holds fourteen or
    more): the search for a split point ends, the free-slot invariant of [finish_insert]
    holds, and the entries of the two leaves one after the other are the old entries with
    the new one at its position, none lost, duplicated or reordered; neither leaf is empty;
    the permutations stay well formed; the split type says where the new key went; the new
    leaf is linked behind the old one; and keys that share a slice are not separated: when
    the slices were in order, every slice on the left is less than the separator, which is
    the first slice on the right. *)
Theorem leaf_split_correct width this nr_addr n nr p ka : 3 <= width <= 15 ->
  perm_wf width (permutation_ n) -> width - 1 <= lsize n <= width -> 0 <= p <= lsize n ->
  (exists e1 e2, e1 ∈ insert_at p ka (entries n) /\ e2 ∈ insert_at p ka (entries n) /\ ikey0 e1 <> ikey0 e2) ->
  exists n' nr' e r st, split_insert width this nr_addr n nr p ka = Some (n', nr', ikey0 e, st) /\
    entries n' ++ entries nr' = insert_at p ka (entries n) /\
    entries n' <> [] /\ entries nr' = e :: r /\
    perm_wf width (permutation_ n') /\ perm_wf width (permutation_ nr') /\
    (st = 0 <-> p < lsize n') /\
    (next_ n' = nr_addr /\ prev_ n' = prev_ n /\ next_ nr' = next_ n /\ prev_ nr' = this) /\
    (slices_sorted (insert_at p ka (entries n)) ->
      Forall (fun x => ikey0 x < ikey0 e) (entries n') /\ Forall (fun x => ikey0 e <= ikey0 x) (entries nr')).
Proof.
  intros Hw Hx Hs Hp Hd. rewrite <- after_insert_entries in * by done.
  destruct (split_insert_ok width Hw this nr_addr n nr p ka Hx Hs Hp)
    as (m & n' & nr' & st & E & Hm & Hne & HL & HR & Hst & H1 & H2 & H3 & H4).
  { destruct Hd as (e1 & e2 & He1 & He2 & Hne).
    apply list_elem_of_fmap in He1 as (i & -> & Hi). apply list_elem_of_fmap in He2 as (j & -> & Hj).
    apply elem_of_seqZ in Hi, Hj. exists i, j. split_and!; done || lia. }
  pose proof (half_entries width n' _ _ _ HL ltac:(lia)) as EL.
  pose proof (half_entries width nr' _ _ _ HR ltac:(lia)) as ER.
  destruct HL as (WL & SL & _), HR as (WR & SR & _).
  exists n', nr', (after_insert n ka p m), (arr (after_insert n ka p) (m + 1) (lsize n + 1 - m - 1)), st.
  rewrite EL, ER, SL. split_and!; try done.
  - symmetry. apply (arr_cut m). lia.
  - rewrite arr_cons by lia. done.
  - rewrite arr_cons by lia. done.
  - intros HS. apply (sorted_split (after_insert n ka p) 0 m (lsize n + 1 - m)); [lia..|done|]. by replace (m + (lsize n + 1 - m)) with (lsize n + 1) by lia.
Qed.

Definition wit_leaf : leaf :=
  {| permutation_ := kpermuter 15 (make_sorted 15 15);
     slot := fun i => {| ikey0 := 10 * (i + 1); keylenx := 8; lv := 1000 + i; ksuf := [] |};
     next_ := 0; prev_ := 7 |}.
Definition wit_entry : entry := {| ikey0 := 35; keylenx := 8; lv := 0; ksuf := [] |}.
Lemma leaf_split_correct_witness : exists n' nr' e r st,
  split_insert 15 1 2 wit_leaf wit_leaf 3 wit_entry = Some (n', nr', ikey0 e, st) /\
  entries n' ++ entries nr' = insert_at 3 wit_entry (entries wit_leaf) /\ entries nr' = e :: r.
Proof.
  destruct (leaf_split_correct 15 1 2 wit_leaf wit_leaf 3 wit_entry) as (n' & nr' & e & r & st & H1 & H2 & _ & H3 & _).
  - lia.
  - apply make_sorted_facts; lia.
  - vm_compute. split; discriminate.
  - vm_compute. split; discriminate.
  - exists wit_entry, {| ikey0 := 10; keylenx := 8; lv := 1000; ksuf := [] |}.
    split_and!; [apply elem_of_insert_at; by left| |done].
    apply elem_of_insert_at; right. apply list_elem_of_fmap. exists 0. split; [vm_compute; reflexivity|].
    apply elem_of_seqZ. vm_compute. split; [discriminate|reflexivity].
  - exists n', nr', e, r, st. split_and!; [exact H1|exact H2|exact H3].
Defined.

(** The cases that do not split: a leaf that lacks two keys or more has another free slot
    when the next free slot is slot 0. *)
Lemma reuse_or_full width n : 2 <= width <= 15 -> perm_wf width (permutation_ n) ->
  lsize n = width \/ back width (permutation_ n) = 0 -> make_split_reuse width n = None ->
  width - 1 <= lsize n <= width.
Proof.
  intros Hw Hx Hb. pose proof Hx as (_ & Hs & _). fold (lsize n) in Hs.
  unfold make_split_reuse. destruct (Z.ltb_spec (lsize n) width) as [Hlt|]; [|lia].
  destruct (Z.eqb_spec (back width (exchange width (permutation_ n) (lsize n) (width - 1))) 0) as [E|]; [|done].
  intros _. split; [|done]. destruct Hb as [|Hb]; [lia|].
  unfold back in *. rewrite exchange_elem in E by (unfold lsize in *; pose proof (nib_range (permutation_ n) 0) as H;
    rewrite <- size_nib in H; lia). revert E. zcases.
  intros E. assert (width - 1 = lsize n); [|lia]. symmetry.
  apply (elem_inj width ltac:(lia) (permutation_ n)); [done| |lia|congruence].
  unfold lsize. pose proof (nib_range (permutation_ n) 0) as H. rewrite <- size_nib in H. unfold lsize in *. lia.
Qed.
