(* ===== verification/LeafLink.v ===== *)
(** btree_leaflink.hh: the doubly linked list of leaves under concurrent splits and unlinks.

    A node is its (even) address; [mark] sets the low bit of a [next] pointer, which locks
    the link.  Each memory access of [link_split] and [unlink] is one step of a thread, the
    spinning loops retry, and the threads of the system interleave at every step.  The
    node locks of the callers are the ownership of the nodes: a thread owns the node it
    splits and the new one, or the node it unlinks. *)
From S2P Require Import Prelude.

Record mem := { next : Z -> Z; prev : Z -> Z }.
Definition set_next (m : mem) (n v : Z) : mem := {| next := <[n := v]> (next m); prev := prev m |}.
Definition set_prev (m : mem) (n v : Z) : mem := {| next := next m; prev := <[n := v]> (prev m) |}.

Definition mark (n : Z) : Z := n + 1.
Definition is_marked (n : Z) : bool := tst n 1.

(** Where a thread is: before the access named.  [LinkLock], [UnLock] read the [next]
    pointer in [lock_next]; [LinkCas], [UnLockCas] try to mark it. *)
Inductive pc :=
  | Idle
  | LinkPrev (n nr : Z) | LinkLock (n nr : Z) | LinkCas (n nr nx : Z)
  | LinkNext (n nr nx : Z) | LinkBack (n nr nx : Z) | LinkDone (n nr nx : Z)
  | UnLock (n : Z) | UnLockCas (n nx : Z) | UnPrev (n nx : Z) | UnCas (n nx p : Z)
  | UnBack (n nx p : Z) | UnDone (n nx p : Z).

Definition cas (m : mem) (a expected desired : Z) : bool * mem :=
  if next m a =? expected then (true, set_next m a desired) else (false, m).

(** One access of a thread. *)
Definition step (m : mem) (c : pc) : mem * pc :=
  match c with
  | Idle => (m, Idle)
  | LinkPrev n nr => (set_prev m nr n, LinkLock n nr)
  | LinkLock n nr =>
      let nx := next m n in
      (m, if nx =? 0 then LinkNext n nr nx else if is_marked nx then LinkLock n nr else LinkCas n nr nx)
  | LinkCas n nr nx =>
      let '(ok, m) := cas m n nx (mark nx) in (m, if ok then LinkNext n nr nx else LinkLock n nr)
  | LinkNext n nr nx => (set_next m nr nx, LinkBack n nr nx)
  | LinkBack n nr nx => (if nx =? 0 then m else set_prev m nx nr, LinkDone n nr nx)
  | LinkDone n nr nx => (set_next m n nr, Idle)
  | UnLock n =>
      let nx := next m n in
      (m, if nx =? 0 then UnPrev n nx else if is_marked nx then UnLock n else UnLockCas n nx)
  | UnLockCas n nx =>
      let '(ok, m) := cas m n nx (mark nx) in (m, if ok then UnPrev n nx else UnLock n)
  | UnPrev n nx => (m, UnCas n nx (prev m n))
  | UnCas n nx p =>
      let '(ok, m) := cas m p n (mark n) in (m, if ok then UnBack n nx p else UnPrev n nx)
  | UnBack n nx p => (if nx =? 0 then m else set_prev m nx p, UnDone n nx p)
  | UnDone n nx p => (set_next m p nx, Idle)
  end.

(** The single-threaded versions. *)
Definition link_split_seq (n nr : Z) (m : mem) : mem :=
  let m := set_prev m nr n in
  let m := set_next m nr (next m n) in
  let m := set_next m n nr in
  if next m nr =? 0 then m else set_prev m (next m nr) nr.
Definition unlink_seq (n : Z) (m : mem) : mem :=
  let m := if next m n =? 0 then m else set_prev m (next m n) (prev m n) in
  set_next m (prev m n) (next m n).

(** * The list that the links stand for *)
Fixpoint succ (l : list Z) (a : Z) : Z :=
  match l with [] => 0 | x :: l => if x =? a then hd 0 l else succ l a end.
Fixpoint insert_after (n nr : Z) (l : list Z) : list Z :=
  match l with [] => [] | x :: l => if x =? n then x :: nr :: l else x :: insert_after n nr l end.
Fixpoint remove (n : Z) (l : list Z) : list Z :=
  match l with [] => [] | x :: l => if x =? n then l else x :: remove n l end.

(** The list and the retired nodes after a step: a split takes effect when the old
    successor's back pointer is set, and an unlink when its successor's is. *)
Definition effect (c : pc) (L D : list Z) : list Z * list Z :=
  match c with
  | LinkBack n nr _ => (insert_after n nr L, D)
  | UnBack n _ _ => (remove n L, n :: D)
  | _ => (L, D)
  end.

Record sys := { m_ : mem; pcs : Z -> pc; live : list Z; dead : list Z }.
Definition owns (c : pc) : list Z :=
  match c with
  | Idle => []
  | LinkPrev n nr | LinkLock n nr | LinkCas n nr _ | LinkNext n nr _ | LinkBack n nr _ | LinkDone n nr _ => [n; nr]
  | UnLock n | UnLockCas n _ | UnPrev n _ | UnCas n _ _ | UnBack n _ _ | UnDone n _ _ => [n]
  end.

Inductive sys_step : sys -> sys -> Prop :=
  | S_access s t : sys_step s
      {| m_ := (step (m_ s) (pcs s t)).1; pcs := <[t := (step (m_ s) (pcs s t)).2]> (pcs s);
         live := (effect (pcs s t) (live s) (dead s)).1; dead := (effect (pcs s t) (live s) (dead s)).2 |}
  | S_link s t n nr : pcs s t = Idle -> n ∈ live s -> nr ∉ live s -> nr ∉ dead s -> 0 < nr -> Z.even nr = true ->
      (forall t', n ∉ owns (pcs s t')) -> (forall t', nr ∉ owns (pcs s t')) ->
      sys_step s {| m_ := m_ s; pcs := <[t := LinkPrev n nr]> (pcs s); live := live s; dead := dead s |}
  | S_unlink s t n : pcs s t = Idle -> n ∈ live s -> n <> hd 0 (live s) ->
      (forall t', n ∉ owns (pcs s t')) ->
      sys_step s {| m_ := m_ s; pcs := <[t := UnLock n]> (pcs s); live := live s; dead := dead s |}.

(** * Lists *)
Section Lists.
Implicit Types l : list Z.
Lemma succ_notin l a : a ∉ l -> succ l a = 0.
Proof.
  induction l as [|x l IH]; [done|]. cbn. rewrite not_elem_of_cons. intros [H1 H2].
  destruct (Z.eqb_spec x a); [done|by apply IH].
Qed.
Lemma succ_in l a : succ l a = 0 \/ succ l a ∈ tail l.
Proof.
  induction l as [|x l IH]; [by left|]. cbn. destruct (x =? a).
  - destruct l; [by left|right; by left].
  - destruct IH as [?|H]; [by left|right]. destruct l; [by apply elem_of_nil in H|by right].
Qed.
Lemma insert_after_elem n nr l a : n ∈ l -> a ∈ insert_after n nr l <-> a = nr \/ a ∈ l.
Proof.
  induction l as [|x l IH]; [by intros ?%elem_of_nil|]. cbn. rewrite elem_of_cons.
  destruct (Z.eqb_spec x n) as [->|Hx]; rewrite !elem_of_cons; [tauto|].
  intros [?|Hn]; [done|]. rewrite IH by done. tauto.
Qed.
Lemma insert_after_NoDup n nr l : nr ∉ l -> NoDup l -> NoDup (insert_after n nr l).
Proof.
  induction l as [|x l IH]; [done|]. cbn. rewrite not_elem_of_cons, list.NoDup_cons. intros [H1 H2] [H3 H4].
  destruct (Z.eqb_spec x n) as [->|Hx].
  - rewrite !list.NoDup_cons, not_elem_of_cons. split_and!; done || congruence.
  - rewrite list.NoDup_cons. split; [|by apply IH]. intros Hin.
    destruct (decide (n ∈ l)) as [Hn|Hn].
    + apply insert_after_elem in Hin; [|done]. destruct Hin; congruence.
    + assert (E : insert_after n nr l = l); [|by rewrite E in Hin].
      clear -Hn. induction l as [|y l IH]; [done|]. cbn. apply not_elem_of_cons in Hn as [? ?].
      destruct (Z.eqb_spec y n); [congruence|]. by rewrite IH.
Qed.
Lemma insert_after_succ n nr l a : n ∈ l -> nr ∉ l -> NoDup l ->
  succ (insert_after n nr l) a = if a =? n then nr else if a =? nr then succ l n else succ l a.
Proof.
  induction l as [|x l IH]; [by intros ?%elem_of_nil|]. rewrite not_elem_of_cons, list.NoDup_cons.
  intros Hn [H1 H2] [H3 H4]. cbn. destruct (Z.eqb_spec x n) as [->|Hx]; cbn.
  - rewrite (Z.eqb_sym n a), (Z.eqb_sym nr a).
    destruct (a =? n); [done|]. by destruct (a =? nr).
  - apply elem_of_cons in Hn as [?|Hn]; [done|]. rewrite IH by done.
    destruct (Z.eqb_spec x a) as [->|].
    + destruct (Z.eqb_spec a n); [done|]. destruct (Z.eqb_spec a nr); [done|].
      destruct l as [|y l]; [by apply elem_of_nil in Hn|]. cbn. by destruct (Z.eqb_spec y n).
    + done.
Qed.
Lemma insert_after_hd n nr l : hd 0 (insert_after n nr l) = hd 0 l.
Proof. destruct l; [done|]. cbn. by destruct (_ =? _). Qed.
Lemma remove_elem n l a : NoDup l -> a ∈ remove n l <-> a <> n /\ a ∈ l.
Proof.
  induction l as [|x l IH]; [cbn; intros; by rewrite elem_of_nil; tauto|]. rewrite list.NoDup_cons. intros [H1 H2]. cbn.
  destruct (Z.eqb_spec x n) as [->|Hx]; rewrite !elem_of_cons.
  - split; [intros H; split; [congruence|tauto]|intros [? [?|?]]; done].
  - rewrite IH by done. split; [intros [->|]; tauto|tauto].
Qed.
Lemma remove_NoDup n l : NoDup l -> NoDup (remove n l).
Proof.
  induction l as [|x l IH]; [done|]. intros HN. pose proof HN as HN'. rewrite list.NoDup_cons in HN'.
  destruct HN' as [H1 H2]. cbn. destruct (x =? n); [done|].
  rewrite list.NoDup_cons, remove_elem by done. split; [tauto|by apply IH].
Qed.
(** Only one element has a given successor. *)
Lemma succ_nin_hd l a x : NoDup (x :: l) -> x <> 0 -> succ (x :: l) a <> x.
Proof.
  intros HN H0 E. cbn in E. apply list.NoDup_cons in HN as [Hx _]. destruct (x =? a).
  - destruct l; cbn in E; [done|]. apply Hx. rewrite E. by left.
  - destruct (succ_in l a) as [?|H]; [congruence|]. rewrite E in H. apply Hx. by destruct l; [|right].
Qed.
Lemma succ_self l a : NoDup l -> a <> 0 -> succ l a <> a.
Proof.
  induction l as [|x l IH]; [cbn; congruence|]. intros HN H0 E. pose proof HN as [H1 H2]%list.NoDup_cons.
  cbn in E. destruct (Z.eqb_spec x a) as [->|]; [|by apply IH].
  destruct l; cbn in E; [done|]. subst. apply H1. by left.
Qed.
Lemma remove_succ n p l a : NoDup l -> n ∈ l -> n <> 0 -> succ l p = n -> a <> n ->
  succ (remove n l) a = if a =? p then succ l n else succ l a.
Proof.
  induction l as [|x l IH]; [by intros _ ?%elem_of_nil|]. intros HN Hn H0 Hp Ha.
  pose proof HN as [H1 H2]%list.NoDup_cons. cbn [remove].
  destruct (Z.eqb_spec x n) as [->|Hx]; [by destruct (succ_nin_hd l p n)|].
  apply elem_of_cons in Hn as [?|Hn]; [congruence|]. cbn in *.
  destruct (Z.eqb_spec x n); [done|]. rewrite (Z.eqb_sym x a), (Z.eqb_sym x p) in *.
  destruct (Z.eqb_spec a x) as [Eax|Eax], (Z.eqb_spec p x) as [Epx|Epx].
  - destruct (Z.eqb_spec a p); [|congruence]. destruct l as [|y l]; [done|]. cbn in *. subst y.
    by rewrite Z.eqb_refl.
  - destruct (Z.eqb_spec a p); [congruence|]. destruct l as [|y l]; [done|]. cbn [remove hd].
    destruct (Z.eqb_spec y n) as [->|]; [by destruct (succ_nin_hd l p n)|done].
  - destruct (Z.eqb_spec a p); [congruence|]. destruct l as [|y l]; [done|]. cbn in Hp |- *. subst y.
    rewrite Z.eqb_refl. by destruct (Z.eqb_spec n a); [congruence|].
  - by apply IH.
Qed.
End Lists.

(** * The invariant *)

(** The links a thread holds: it alone may write them. *)
Definition holds (c : pc) : list Z :=
  match c with
  | LinkNext n _ _ | LinkBack n _ _ | LinkDone n _ _ | UnPrev n _ | UnCas n _ _ => [n]
  | UnBack n _ p => [n; p]
  | UnDone _ _ p => [p]
  | _ => []
  end.
Definition busy (v : Z) : Prop := v = 0 \/ is_marked v = true.
Definition node (n : Z) : Prop := 0 < n /\ Z.even n = true.
Definition fresh (L D : list Z) (nr : Z) : Prop := (nr ∉ L) /\ (nr ∉ D) /\ node nr.
Definition tinv (m : mem) (L D : list Z) (c : pc) : Prop :=
  match c with
  | Idle => True
  | LinkPrev n nr => n ∈ L /\ fresh L D nr
  | LinkLock n nr => n ∈ L /\ fresh L D nr /\ prev m nr = n
  | LinkCas n nr nx => n ∈ L /\ fresh L D nr /\ prev m nr = n /\ nx <> 0 /\ is_marked nx = false
  | LinkNext n nr nx => n ∈ L /\ fresh L D nr /\ prev m nr = n /\ busy (next m n) /\ succ L n = nx
  | LinkBack n nr nx =>
      n ∈ L /\ fresh L D nr /\ prev m nr = n /\ busy (next m n) /\ succ L n = nx /\ next m nr = nx
  | LinkDone n nr nx => n ∈ L /\ nr ∈ L /\ busy (next m n) /\ succ L n = nr
  | UnLock n => n ∈ L /\ n <> hd 0 L
  | UnLockCas n nx => n ∈ L /\ n <> hd 0 L /\ nx <> 0 /\ is_marked nx = false
  | UnPrev n nx => n ∈ L /\ n <> hd 0 L /\ busy (next m n) /\ succ L n = nx
  | UnCas n nx p => n ∈ L /\ n <> hd 0 L /\ busy (next m n) /\ succ L n = nx /\ (p ∈ L \/ p ∈ D)
  | UnBack n nx p =>
      n ∈ L /\ n <> hd 0 L /\ busy (next m n) /\ succ L n = nx /\ p ∈ L /\ succ L p = n /\
      is_marked (next m p) = true
  | UnDone n nx p => n ∈ D /\ p ∈ L /\ succ L p = nx /\ is_marked (next m p) = true
  end.

Record Inv (s : sys) : Prop := {
  i_nodup : NoDup (live s);
  i_node : forall a, a ∈ live s \/ a ∈ dead s -> node a;
  i_disj : forall a, a ∈ live s -> a ∈ dead s -> False;
  i_thread : forall t, tinv (m_ s) (live s) (dead s) (pcs s t);
  i_owns : forall t t' x, x ∈ owns (pcs s t) -> x ∈ owns (pcs s t') -> t = t';
  i_holds : forall t t' x, x ∈ holds (pcs s t) -> x ∈ holds (pcs s t') -> t = t';
  i_link : forall a, a ∈ live s -> (forall t, a ∉ holds (pcs s t)) -> next (m_ s) a = succ (live s) a;
  i_prev : forall a, a ∈ live s -> succ (live s) a <> 0 -> prev (m_ s) (succ (live s) a) = a;
  i_dead : forall d, d ∈ dead s -> busy (next (m_ s) d) }.

Lemma is_marked_even v : is_marked v = negb (Z.even v).
Proof.
  unfold is_marked, tst. change 1 with (Z.ones 1). rewrite Z.land_ones by lia. f_equal.
  replace (Z.even v) with (Z.even (v mod 2 + 2 * (v / 2))) by (f_equal; symmetry; rewrite Z.add_comm; apply Z.div_mod; lia).
  rewrite Z.even_add_mul_2. change (2 ^ 1) with 2.
  assert (v mod 2 = 0 \/ v mod 2 = 1) as [-> | ->] by (pose proof (Z.mod_pos_bound v 2); lia); done.
Qed.
Lemma node_unmarked n : node n -> is_marked n = false.
Proof. intros [_ H]. by rewrite is_marked_even, H. Qed.
Lemma mark_marked n : is_marked n = false -> is_marked (mark n) = true.
Proof. rewrite !is_marked_even. unfold mark. rewrite Z.even_add. by destruct (Z.even n). Qed.
Lemma not_busy n : n <> 0 -> is_marked n = false -> ~ busy n.
Proof. intros H1 H2 [?|?]; congruence. Qed.

Lemma held_busy m L D c x : tinv m L D c -> x ∈ holds c -> busy (next m x) /\ x ∈ L.
Proof.
  unfold busy. destruct c; cbn; intros H Hx; rewrite ?elem_of_cons, ?elem_of_nil in Hx;
    repeat match goal with H : _ /\ _ |- _ => destruct H end; unfold busy in *;
    repeat match goal with H : _ \/ False |- _ => destruct H as [->|[]] | H : _ = _ \/ _ |- _ => destruct H as [->|H] end;
    try done; tauto.
Qed.
Lemma held_null m L D c x : tinv m L D c -> x ∈ holds c -> x ∉ owns c -> next m x <> 0.
Proof.
  assert (HM : forall v, is_marked v = true -> v <> 0) by (intros v H ->; done).
  destruct c; cbn; rewrite ?elem_of_cons, ?elem_of_nil; intros H Hx Ho;
    repeat match goal with H : _ /\ _ |- _ => destruct H end; try tauto.
  - destruct Hx as [?|[->|[]]]; [tauto|by apply HM].
  - destruct Hx as [->|[]]. by apply HM.
Qed.

Lemma owned_node s (I : Inv s) t x : x ∈ owns (pcs s t) -> node x.
Proof.
  pose proof (i_thread _ I t) as H. pose proof (fun a h => i_node _ I a (or_introl h)) as HL.
  pose proof (fun a h => i_node _ I a (or_intror h)) as HD. revert H. destruct (pcs s t); cbn; unfold fresh;
    intros H; repeat match goal with H : _ /\ _ |- _ => destruct H end;
    rewrite ?elem_of_cons, ?elem_of_nil; intros Hx;
    repeat match goal with H : _ \/ False |- _ => destruct H as [->|[]] | H : _ = _ \/ _ |- _ => destruct H as [->|H] end;
    auto; done.
Qed.

(** What another thread's step must leave alone. *)
Definition Frame (m : mem) (L D : list Z) (m' : mem) (L' D' : list Z) (c : pc) : Prop :=
  (forall x, x ∈ owns c -> (x ∈ L <-> x ∈ L') /\ (x ∈ D <-> x ∈ D') /\
     (x ∉ L -> prev m' x = prev m x /\ next m' x = next m x)) /\
  (forall a, a ∈ holds c -> a ∈ L' /\ next m' a = next m a /\ succ L' a = succ L a) /\
  (forall x, x ∈ L \/ x ∈ D -> x ∈ L' \/ x ∈ D') /\ hd 0 L' = hd 0 L.
Lemma tinv_frame m L D m' L' D' c : Frame m L D m' L' D' c -> tinv m L D c -> tinv m' L' D' c.
Proof.
  intros (HO & HH & HX & Hhd). unfold tinv, fresh. rewrite Hhd.
  destruct c as [|n nr|n nr|n nr nx|n nr nx|n nr nx|n nr nx|n|n nx|n nx|n nx p|n nx p|n nx p]; cbn in *;
    try (pose proof (HO n ltac:(left)) as (HO1 & HO2 & HO3));
    try (pose proof (HO nr ltac:(right; left)) as (HN1 & HN2 & HN3));
    try (pose proof (HH n ltac:(left)) as (HH1 & HH2 & HH3); rewrite HH2, HH3);
    try (pose proof (HH p ltac:(left)) as (HP1 & HP2 & HP3); rewrite HP2, HP3);
    try (pose proof (HH p ltac:(right; left)) as (HP1 & HP2 & HP3); rewrite HP2, HP3);
    intros H; repeat match goal with H : _ /\ _ |- _ => destruct H end;
    try (destruct HN3 as [HN3 HN4]; [done|]; rewrite ?HN3, ?HN4);
    (try split_and!); try tauto; try done; by apply HX.
Qed.
Lemma frame_refl m L D c : tinv m L D c -> Frame m L D m L D c.
Proof. intros H. split_and!; try done. intros a Ha. by destruct (held_busy _ _ _ _ _ H Ha). Qed.
Lemma frame_next m L D w v c : tinv m L D c -> w ∉ holds c -> (w ∈ L \/ w ∉ owns c) ->
  Frame m L D (set_next m w v) L D c.
Proof.
  intros H Hw Ho. split_and!; try done.
  - intros x Hx. split_and!; try done. intros HL. split; [done|]. cbn. rewrite fn_lookup_insert_ne; [done|].
    intros ->. tauto.
  - intros a Ha. split_and!; [by destruct (held_busy _ _ _ _ _ H Ha)| |done]. cbn.
    rewrite fn_lookup_insert_ne; [done|]. by intros ->.
Qed.
Lemma frame_prev m L D w v c : tinv m L D c -> (w ∈ L \/ w ∉ owns c) -> Frame m L D (set_prev m w v) L D c.
Proof.
  intros H Ho. split_and!; try done.
  - intros x Hx. split_and!; try done. intros HL. split; [|done]. cbn. rewrite fn_lookup_insert_ne; [done|].
    intros ->. tauto.
  - intros a Ha. by destruct (held_busy _ _ _ _ _ H Ha).
Qed.

Definition others_free (s : sys) (t a : Z) : Prop := forall t', t' <> t -> a ∉ holds (pcs s t').

Lemma inv_gen s t m' c' L' D' : Inv s -> tinv m' L' D' c' ->
  (forall x, x ∈ owns c' -> x ∈ owns (pcs s t) \/ forall t', x ∉ owns (pcs s t')) ->
  (forall x, x ∈ holds c' -> x ∈ holds (pcs s t) \/ others_free s t x) ->
  (forall t', t' <> t -> Frame (m_ s) (live s) (dead s) m' L' D' (pcs s t')) ->
  NoDup L' -> (forall a, a ∈ L' \/ a ∈ D' -> node a) -> (forall a, a ∈ L' -> a ∈ D' -> False) ->
  (forall a, a ∈ L' -> others_free s t a -> a ∉ holds c' -> next m' a = succ L' a) ->
  (forall a, a ∈ L' -> succ L' a <> 0 -> prev m' (succ L' a) = a) ->
  (forall d, d ∈ D' -> busy (next m' d)) ->
  Inv {| m_ := m'; pcs := <[t := c']> (pcs s); live := L'; dead := D' |}.
Proof.
  intros I HT HO HH HF H1 H2 H3 H4 H5 H6. split; cbn [m_ pcs live dead]; try done.
  - intros t'. destruct (decide (t' = t)) as [->|Hne]; [by rewrite fn_lookup_insert|].
    rewrite fn_lookup_insert_ne by done. eapply tinv_frame; [by apply HF|]. apply (i_thread _ I).
  - assert (HA : forall t1 x, t1 <> t -> x ∈ owns (pcs s t1) -> x ∉ owns c').
    { intros t1 x Hne Hx Hc. destruct (HO x Hc) as [Hc'|Hc']; [|by apply (Hc' t1)].
      by apply Hne, (i_owns _ I _ _ x). }
    intros t1 t2 x. destruct (decide (t1 = t)) as [->|Hn1], (decide (t2 = t)) as [->|Hn2];
      rewrite ?fn_lookup_insert, ?fn_lookup_insert_ne by done; try done.
    + intros Hx Hy. by destruct (HA t2 x).
    + intros Hx Hy. by destruct (HA t1 x).
    + apply (i_owns _ I).
  - assert (HA : forall t1 x, t1 <> t -> x ∈ holds (pcs s t1) -> x ∉ holds c').
    { intros t1 x Hne Hx Hc. destruct (HH x Hc) as [Hc'|Hc']; [|by apply (Hc' t1)].
      by apply Hne, (i_holds _ I _ _ x). }
    intros t1 t2 x. destruct (decide (t1 = t)) as [->|Hn1], (decide (t2 = t)) as [->|Hn2];
      rewrite ?fn_lookup_insert, ?fn_lookup_insert_ne by done; try done.
    + intros Hx Hy. by destruct (HA t2 x).
    + intros Hx Hy. by destruct (HA t1 x).
    + apply (i_holds _ I).
  - intros a Ha Hfree. apply H4; [done| |].
    + intros t' Ht'. specialize (Hfree t'). by rewrite fn_lookup_insert_ne in Hfree.
    + specialize (Hfree t). by rewrite fn_lookup_insert in Hfree.
Qed.

(** ** Kinds of steps *)
Section Steps.
Context (s : sys) (t : Z) (I : Inv s).
Abbreviation c0 := (pcs s t).
Abbreviation L := (live s).
Abbreviation D := (dead s).
Abbreviation update m' c' := {| m_ := m'; pcs := <[t := c']> (pcs s); live := L; dead := D |}.

Lemma unheld a : a ∈ L -> others_free s t a -> a ∉ holds c0 -> next (m_ s) a = succ L a.
Proof using I.
  intros Ha Ho Hc. apply (i_link _ I); [done|]. intros t'.
  destruct (decide (t' = t)) as [->|]; [done|by apply Ho].
Qed.
Lemma other_not_held a : a ∈ holds c0 -> others_free s t a.
Proof using I. intros Ha t' Hne Ha'. by apply Hne, (i_holds _ I _ _ a). Qed.
Lemma other_not_owned x t' : x ∈ owns c0 -> t' <> t -> x ∉ owns (pcs s t').
Proof using I. intros Hx Hne Hx'. by apply Hne, (i_owns _ I _ _ x). Qed.
(** A link whose pointer is not busy is free. *)
Lemma idle_free a : ~ busy (next (m_ s) a) -> others_free s t a /\ a ∉ holds c0.
Proof using I.
  intros Hb. assert (H : forall t', a ∉ holds (pcs s t')).
  { intros t' Ha. by apply Hb, (held_busy _ _ _ _ _ (i_thread _ I t')). }
  split; [by intros t' _|done].
Qed.
(** An owned link with a null pointer is free. *)
Lemma null_free a : a ∈ owns c0 -> next (m_ s) a = 0 -> others_free s t a.
Proof using I.
  intros Ho H0 t' Hne Ha. by apply (held_null _ _ _ _ _ (i_thread _ I t') Ha); [apply other_not_owned|].
Qed.
Lemma idle_live a : a ∈ L \/ a ∈ D -> ~ busy (next (m_ s) a) -> a ∈ L.
Proof using I. intros [?|Hd] Hb; [done|]. by destruct Hb; apply (i_dead _ I). Qed.
Lemma succ_live a : succ L a <> 0 -> succ L a ∈ L.
Proof using. intros H. destruct (succ_in L a) as [?|Ht]; [done|]. by destruct L; [|right]. Qed.
Lemma succ_uniq a b : a ∈ L -> b ∈ L -> succ L a = succ L b -> succ L a <> 0 -> a = b.
Proof using I. intros Ha Hb E H0. rewrite <- (i_prev _ I a), <- (i_prev _ I b) by congruence. by rewrite E. Qed.
Lemma has_pred x : x ∈ L -> x <> hd 0 L -> prev (m_ s) x ∈ L /\ succ L (prev (m_ s) x) = x.
Proof using I.
  intros Hx Hh. assert (exists a, a ∈ L /\ succ L a = x) as (a & Ha & Ea).
  { clear -Hx Hh I. pose proof (i_nodup _ I) as HN.
    induction L as [|y l IH]; [by apply elem_of_nil in Hx|]. cbn in Hh.
    apply elem_of_cons in Hx as [?|Hx]; [congruence|]. apply list.NoDup_cons in HN as [Hy HN].
    destruct (decide (x = hd 0 l)) as [Eh|Eh].
    - exists y. split; [left|]. cbn. by rewrite Z.eqb_refl.
    - destruct (IH Hx Eh HN) as (a & Ha & Ea). exists a. split; [by right|]. cbn.
      destruct (Z.eqb_spec y a); [congruence|done]. }
  assert (x <> 0) by (destruct (i_node _ I x (or_introl Hx)); lia).
  assert (prev (m_ s) x = a) as -> by (rewrite <- Ea; apply (i_prev _ I); congruence). done.
Qed.

Lemma inv_pc c' : tinv (m_ s) L D c' -> (forall x, x ∈ owns c' -> x ∈ owns c0) ->
  (forall x, x ∈ holds c0 -> x ∈ holds c') ->
  (forall x, x ∈ holds c' -> x ∈ holds c0 \/ others_free s t x) -> Inv (update (m_ s) c').
Proof using I.
  intros HT HO HH HH'. apply inv_gen; try done; try apply I; auto.
  - intros. apply frame_refl, I.
  - intros a Ha Ho Hc. apply unheld; auto.
Qed.
Lemma inv_next w v c' : w ∈ L \/ w ∈ owns c0 /\ w ∉ D -> others_free s t w ->
  tinv (set_next (m_ s) w v) L D c' -> (forall x, x ∈ owns c' -> x ∈ owns c0) ->
  (forall x, x ∈ holds c' -> x ∈ holds c0 \/ x = w) ->
  (forall x, x ∈ holds c0 -> x ∈ holds c' \/ x = w) ->
  (w ∈ L -> w ∈ holds c' \/ v = succ L w) -> Inv (update (set_next (m_ s) w v) c').
Proof using I.
  intros Hw Hf HT HO HH HH' HL. apply inv_gen; try done; try apply I; auto.
  - intros x Hx. destruct (HH x Hx) as [?| ->]; auto.
  - intros t' Hne. apply frame_next; [apply I|by apply Hf|].
    destruct Hw as [?|[? _]]; [by left|right; by apply other_not_owned].
  - intros a Ha Ho Hc. cbn. destruct (decide (a = w)) as [->|Hne].
    + rewrite fn_lookup_insert. destruct (HL Ha); done.
    + rewrite fn_lookup_insert_ne by done. apply unheld; [done..|].
      intros Hc'. destruct (HH' a Hc'); done.
  - intros d Hd. cbn. rewrite fn_lookup_insert_ne; [by apply I|].
    intros ->. destruct Hw as [Hw|[_ Hw]]; [by apply (i_disj _ I d)|done].
Qed.
Lemma inv_prev w v c' : w ∉ L -> w ∈ owns c0 -> tinv (set_prev (m_ s) w v) L D c' ->
  (forall x, x ∈ owns c' -> x ∈ owns c0) -> holds c' = holds c0 -> Inv (update (set_prev (m_ s) w v) c').
Proof using I.
  intros Hw Ho HT HO HH. apply inv_gen; try done; try apply I; auto.
  - rewrite HH. auto.
  - intros t' Hne. apply frame_prev; [apply I|right; by apply other_not_owned].
  - rewrite HH. intros a Ha Ho' Hc. by apply unheld.
  - intros a Ha Hs. cbn. rewrite fn_lookup_insert_ne; [by apply I|].
    intros E. apply Hw. rewrite E. by apply succ_live.
Qed.
End Steps.

(** ** The two steps that change the list *)
Section Effects.
Context (s : sys) (t : Z) (I : Inv s).
Abbreviation L := (live s).
Abbreviation D := (dead s).

Lemma inv_link_back n nr nx : pcs s t = LinkBack n nr nx ->
  Inv {| m_ := if nx =? 0 then m_ s else set_prev (m_ s) nx nr; pcs := <[t := LinkDone n nr nx]> (pcs s);
         live := insert_after n nr L; dead := D |}.
Proof using I.
  intros Ec. pose proof (i_thread _ I t) as HT. rewrite Ec in HT.
  destruct HT as (Hn & (HnL & HnD & Hnode) & Hpr & Hb & Hs & Hnx).
  pose proof (i_nodup _ I) as HN. set (m' := if nx =? 0 then _ else _).
  assert (Hsucc : forall a, succ (insert_after n nr L) a = if a =? n then nr else if a =? nr then succ L n else succ L a)
    by (intros; by apply insert_after_succ).
  assert (Hel : forall a, a ∈ insert_after n nr L <-> a = nr \/ a ∈ L) by (intros; by apply insert_after_elem).
  assert (Hnn : n <> nr) by (intros ->; done).
  assert (Hnext : next m' = next (m_ s)) by (unfold m'; by destruct (nx =? 0)).
  assert (Hprev : forall x, x <> nx -> prev m' x = prev (m_ s) x).
  { intros x Hx. unfold m'. destruct (nx =? 0); [done|]. cbn. by rewrite fn_lookup_insert_ne. }
  assert (Hprevn : nx <> 0 -> prev m' nx = nr).
  { intros H. unfold m'. destruct (Z.eqb_spec nx 0); [done|]. cbn. by rewrite fn_lookup_insert. }
  assert (HnxL : nx <> 0 -> nx ∈ L) by (rewrite <- Hs; apply succ_live).
  apply inv_gen; try done; cbn [tinv].
  - rewrite !Hel, Hsucc, Z.eqb_refl, Hnext. auto.
  - rewrite Ec. auto.
  - rewrite Ec. auto.
  - intros t' Hne. pose proof (other_not_owned s t I n t') as On. pose proof (other_not_owned s t I nr t') as Onr.
    pose proof (other_not_held s t I n) as Hh. rewrite Ec in On, Onr, Hh. cbn in On, Onr, Hh.
    split_and!.
    + intros x Hx. split_and!.
      * rewrite Hel. split; [auto|]. intros [->|?]; [|done]. by destruct Onr; [right; left|..].
      * done.
      * intros HxL. rewrite Hnext, Hprev; [done|]. intros ->. apply HxL, HnxL.
        by destruct (owned_node s I t' nx Hx); lia.
    + intros a Ha. destruct (held_busy _ _ _ _ _ (i_thread _ I t') Ha) as [_ HaL].
      rewrite Hel, Hnext, Hsucc. split_and!; [auto|done|].
      destruct (Z.eqb_spec a n) as [->|]; [by destruct (Hh ltac:(left) t' Hne)|].
      destruct (Z.eqb_spec a nr) as [->|]; done.
    + intros x. rewrite Hel. tauto.
    + apply insert_after_hd.
  - by apply insert_after_NoDup.
  - intros a. rewrite Hel. intros [[->|?]|?]; [done|apply (i_node _ I); auto..].
  - intros a. rewrite Hel. intros [->|?]; [done|]. by apply (i_disj _ I).
  - intros a. rewrite Hel, Hnext, Hsucc. cbn. intros Ha Ho Hc. apply not_elem_of_cons in Hc as [Hc _].
    destruct (Z.eqb_spec a n); [done|]. destruct (Z.eqb_spec a nr) as [->|]; [congruence|].
    destruct Ha as [?|Ha]; [done|]. apply (unheld s t I); [done..|]. rewrite Ec. cbn.
    rewrite elem_of_cons, elem_of_nil. tauto.
  - intros a. rewrite Hel, Hsucc. intros Ha.
    destruct (Z.eqb_spec a n) as [->|Han].
    + intros _. rewrite Hprev; [done|]. intros E. apply HnL. rewrite E. apply HnxL. rewrite <- E.
      destruct Hnode; lia.
    + destruct (Z.eqb_spec a nr) as [->|Hanr]; [by rewrite Hs|].
      destruct Ha as [?|Ha]; [done|]. intros H0. rewrite Hprev; [by apply (i_prev _ I)|].
      intros E. apply Han. apply (succ_uniq s I); congruence.
  - rewrite Hnext. apply I.
Qed.

Lemma remove_hd x (l : list Z) : x <> hd 0 l -> hd 0 (remove x l) = hd 0 l.
Proof. destruct l as [|y l]; [done|]. cbn. intros. by destruct (Z.eqb_spec y x); [congruence|]. Qed.

Lemma inv_un_back n nx p : pcs s t = UnBack n nx p ->
  Inv {| m_ := if nx =? 0 then m_ s else set_prev (m_ s) nx p; pcs := <[t := UnDone n nx p]> (pcs s);
         live := remove n L; dead := n :: D |}.
Proof using I.
  intros Ec. pose proof (i_thread _ I t) as HT. rewrite Ec in HT.
  destruct HT as (Hn & Hhd & Hb & Hs & Hp & Hps & Hpm).
  pose proof (i_nodup _ I) as HN. set (m' := if nx =? 0 then _ else _).
  assert (Hn0 : n <> 0) by (destruct (i_node _ I n (or_introl Hn)); lia).
  assert (Hsucc : forall a, a <> n -> succ (remove n L) a = if a =? p then succ L n else succ L a)
    by (intros; by apply remove_succ).
  assert (Hel : forall a, a ∈ remove n L <-> a <> n /\ a ∈ L) by (intros; by apply remove_elem).
  assert (Hpn : p <> n).
  { intros ->. by apply (succ_self L n HN). }
  assert (Hnext : next m' = next (m_ s)) by (unfold m'; by destruct (nx =? 0)).
  assert (Hprev : forall x, x <> nx -> prev m' x = prev (m_ s) x).
  { intros x Hx. unfold m'. destruct (nx =? 0); [done|]. cbn. by rewrite fn_lookup_insert_ne. }
  assert (Hprevn : nx <> 0 -> prev m' nx = p).
  { intros H. unfold m'. destruct (Z.eqb_spec nx 0); [done|]. cbn. by rewrite fn_lookup_insert. }
  assert (HnxL : nx <> 0 -> nx ∈ L) by (rewrite <- Hs; apply succ_live).
  apply inv_gen; try done; cbn [tinv].
  - rewrite Hel, Hsucc, Z.eqb_refl, Hnext by done. split_and!; try done. left.
  - rewrite Ec. auto.
  - rewrite Ec. cbn. intros x. rewrite !elem_of_cons. tauto.
  - intros t' Hne. pose proof (other_not_owned s t I n t') as On.
    pose proof (other_not_held s t I n) as Hh. pose proof (other_not_held s t I p) as Hhp.
    rewrite Ec in On, Hh, Hhp. cbn in On, Hh, Hhp.
    assert (Hxn : forall x, x ∈ owns (pcs s t') -> x <> n) by (intros x Hx ->; by apply On; [left|..]).
    split_and!.
    + intros x Hx. specialize (Hxn x Hx). split_and!.
      * rewrite Hel. tauto.
      * rewrite elem_of_cons. tauto.
      * intros HxL. rewrite Hnext, Hprev; [done|]. intros ->. apply HxL, HnxL.
        by destruct (owned_node s I t' nx Hx); lia.
    + intros a Ha. destruct (held_busy _ _ _ _ _ (i_thread _ I t') Ha) as [_ HaL].
      assert (a <> n) by (intros ->; by destruct (Hh ltac:(left) t' Hne)).
      assert (a <> p) by (intros ->; by destruct (Hhp ltac:(right; left) t' Hne)).
      rewrite Hel, Hnext, Hsucc by done. by destruct (Z.eqb_spec a p).
    + intros x. rewrite Hel, elem_of_cons. destruct (decide (x = n)); tauto.
    + by apply remove_hd.
  - by apply remove_NoDup.
  - intros a. rewrite Hel, elem_of_cons. intros [[_ ?]|[->|?]]; apply (i_node _ I); auto.
  - intros a. rewrite Hel, elem_of_cons. intros [? ?] [?|?]; [done|]. by apply (i_disj _ I a).
  - intros a. rewrite Hel, Hnext. cbn. intros [Han Ha] Ho Hc. apply not_elem_of_cons in Hc as [Hc _].
    rewrite Hsucc by done. destruct (Z.eqb_spec a p); [done|]. apply (unheld s t I); [done..|]. rewrite Ec. cbn.
    rewrite !elem_of_cons, elem_of_nil. tauto.
  - intros a. rewrite Hel. intros [Han Ha]. rewrite Hsucc by done.
    destruct (Z.eqb_spec a p) as [->|Hap]; [rewrite Hs; done|].
    intros H0. rewrite Hprev; [by apply (i_prev _ I)|]. intros E. apply Han. apply (succ_uniq s I); congruence.
  - intros d. rewrite Hnext, elem_of_cons. intros [->|?]; [done|by apply (i_dead _ I)].
Qed.
End Effects.

(** ** Every step keeps the invariant *)
Lemma inv_start s t c' : Inv s -> pcs s t = Idle -> tinv (m_ s) (live s) (dead s) c' ->
  (forall x t', x ∈ owns c' -> x ∉ owns (pcs s t')) -> holds c' = [] ->
  Inv {| m_ := m_ s; pcs := <[t := c']> (pcs s); live := live s; dead := dead s |}.
Proof.
  intros I Ec HT HO HH. apply inv_gen; try done; try apply I; auto.
  - intros x. rewrite HH. by intros ?%elem_of_nil.
  - intros. apply frame_refl, I.
  - intros a Ha Ho _. apply (unheld s t I); [done..|]. rewrite Ec. apply not_elem_of_nil.
Qed.

Section Access.
Context (s : sys) (t : Z) (I : Inv s).
Abbreviation after m' c' := (Inv {| m_ := m'; pcs := <[t := c']> (pcs s); live := live s; dead := dead s |}).
Ltac unpack Ec HT := pose proof (i_thread _ I t) as HT; rewrite Ec in HT; cbn [tinv] in HT;
  repeat match goal with H : _ /\ _ |- _ => destruct H end.
Ltac member := cbn; intros ?; rewrite ?elem_of_cons, ?elem_of_nil; tauto.

(** [lock_next] on the node of a split or of an unlink: the null case and the marked case. *)
Lemma inv_link_prev n nr : pcs s t = LinkPrev n nr -> after (set_prev (m_ s) nr n) (LinkLock n nr).
Proof using I.
  intros Ec. unpack Ec HT. apply inv_prev; rewrite ?Ec; try done.
  - by match goal with H : fresh _ _ _ |- _ => destruct H end.
  - right; left.
  - cbn. by rewrite fn_lookup_insert.
Qed.
Lemma lock_null n : pcs s t = UnLock n \/ (exists nr, pcs s t = LinkLock n nr) -> n ∈ live s -> next (m_ s) n = 0 ->
  others_free s t n /\ succ (live s) n = 0.
Proof using I.
  intros Ec Hn H0. assert (n ∈ owns (pcs s t) /\ holds (pcs s t) = []) as [Ho Hh].
  { destruct Ec as [->|[nr ->]]; (split; [left|done]). }
  assert (Hf : others_free s t n) by by apply (null_free s t I).
  split; [done|]. rewrite <- H0. symmetry. apply (unheld s t I); [done..|]. rewrite Hh. apply not_elem_of_nil.
Qed.
Lemma inv_link_lock n nr : pcs s t = LinkLock n nr ->
  after (m_ s) (step (m_ s) (LinkLock n nr)).2.
Proof using I.
  intros Ec. unpack Ec HT. cbn [step snd]. destruct (Z.eqb_spec (next (m_ s) n) 0) as [E0|E0].
  - destruct (lock_null n ltac:(eauto) ltac:(done) E0) as [Hf Hs]. apply inv_pc; rewrite ?Ec; [done| |member..|].
    + cbn. split_and!; try done; [by left|congruence].
    + cbn. intros x [->|[]%elem_of_nil]%elem_of_cons. by right.
  - destruct (is_marked (next (m_ s) n)) eqn:Em; (apply inv_pc; rewrite ?Ec; [done| |member..|]);
      cbn; try done; by intros x ?%elem_of_nil.
Qed.
Lemma inv_un_lock n : pcs s t = UnLock n -> after (m_ s) (step (m_ s) (UnLock n)).2.
Proof using I.
  intros Ec. unpack Ec HT. cbn [step snd]. destruct (Z.eqb_spec (next (m_ s) n) 0) as [E0|E0].
  - destruct (lock_null n ltac:(eauto) ltac:(done) E0) as [Hf Hs]. apply inv_pc; rewrite ?Ec; [done| |member..|].
    + cbn. split_and!; try done; [by left|congruence].
    + cbn. intros x [->|[]%elem_of_nil]%elem_of_cons. by right.
  - destruct (is_marked (next (m_ s) n)) eqn:Em; (apply inv_pc; rewrite ?Ec; [done| |member..|]);
      cbn; try done; by intros x ?%elem_of_nil.
Qed.

(** A successful compare-and-swap on an idle link of the list takes it. *)
Lemma take_link a v : a ∈ live s \/ a ∈ dead s -> next (m_ s) a = v -> v <> 0 -> is_marked v = false ->
  a ∈ live s /\ others_free s t a /\ (a ∉ holds (pcs s t)) /\ succ (live s) a = v.
Proof using I.
  intros Ha Hv H0 Hm. assert (Hb : ~ busy (next (m_ s) a)) by (rewrite Hv; by apply not_busy).
  pose proof (idle_live s I a Ha Hb) as Hl. destruct (idle_free s t I a Hb) as [Hf Hh].
  split_and!; try done. rewrite <- Hv. symmetry. by apply (unheld s t I).
Qed.
Lemma inv_link_cas n nr nx : pcs s t = LinkCas n nr nx ->
  after (step (m_ s) (LinkCas n nr nx)).1 (step (m_ s) (LinkCas n nr nx)).2.
Proof using I.
  intros Ec. unpack Ec HT. cbn [step cas]. unfold cas. destruct (Z.eqb_spec (next (m_ s) n) nx) as [E|E]; cbn [fst snd].
  - destruct (take_link n nx) as (Hl & Hf & _ & Hs); [by left|done..|].
    apply inv_next; rewrite ?Ec; try done; [by left| |member..|].
    + cbn. rewrite fn_lookup_insert. split_and!; try done. right. by apply mark_marked.
    + intros _. left. cbn. left.
  - apply inv_pc; rewrite ?Ec; [done|done|member..|]. cbn. by intros x ?%elem_of_nil.
Qed.
Lemma inv_un_lock_cas n nx : pcs s t = UnLockCas n nx ->
  after (step (m_ s) (UnLockCas n nx)).1 (step (m_ s) (UnLockCas n nx)).2.
Proof using I.
  intros Ec. unpack Ec HT. cbn [step]. unfold cas. destruct (Z.eqb_spec (next (m_ s) n) nx) as [E|E]; cbn [fst snd].
  - destruct (take_link n nx) as (Hl & Hf & _ & Hs); [by left|done..|].
    apply inv_next; rewrite ?Ec; try done; [by left| |member..|].
    + cbn. rewrite fn_lookup_insert. split_and!; try done. right. by apply mark_marked.
    + intros _. left. cbn. left.
  - apply inv_pc; rewrite ?Ec; [done|done|member..|]. cbn. by intros x ?%elem_of_nil.
Qed.
Lemma inv_link_next n nr nx : pcs s t = LinkNext n nr nx -> after (set_next (m_ s) nr nx) (LinkBack n nr nx).
Proof using I.
  intros Ec. unpack Ec HT. match goal with H : fresh _ _ _ |- _ => pose proof H as (HL & HD & _) end.
  apply inv_next; rewrite ?Ec; try done; [| | |member..].
  - right. split; [right; left|done].
  - intros t' Hne Hx. by destruct (held_busy _ _ _ _ _ (i_thread _ I t') Hx).
  - cbn. rewrite fn_lookup_insert, fn_lookup_insert_ne by (by intros ->). by split_and!.
Qed.
Lemma inv_link_done n nr nx : pcs s t = LinkDone n nr nx -> after (set_next (m_ s) n nr) Idle.
Proof using I.
  intros Ec. unpack Ec HT. apply inv_next; rewrite ?Ec; try done; [by left| |member..|].
  - apply (other_not_held s t I). rewrite Ec. left.
  - intros _. by right.
Qed.
Lemma inv_un_prev n nx : pcs s t = UnPrev n nx -> after (m_ s) (UnCas n nx (prev (m_ s) n)).
Proof using I.
  intros Ec. unpack Ec HT. apply inv_pc; rewrite ?Ec; [done| |member..|].
  - cbn. split_and!; try done. left. by apply (has_pred s I).
  - cbn. intros x ?. by left.
Qed.
Lemma inv_un_cas n nx p : pcs s t = UnCas n nx p ->
  after (step (m_ s) (UnCas n nx p)).1 (step (m_ s) (UnCas n nx p)).2.
Proof using I.
  intros Ec. unpack Ec HT. cbn [step]. unfold cas. destruct (Z.eqb_spec (next (m_ s) p) n) as [E|E]; cbn [fst snd].
  - destruct (i_node _ I n ltac:(by left)) as [Hn0 Hne].
    destruct (take_link p n) as (Hl & Hf & Hh & Hs); [done..|lia|by apply node_unmarked|].
    rewrite Ec in Hh. cbn in Hh. apply not_elem_of_cons in Hh as [Hpn _].
    apply inv_next; rewrite ?Ec; try done; [by left| |member..|].
    + cbn. rewrite fn_lookup_insert, fn_lookup_insert_ne by done. split_and!; try done.
      by apply mark_marked, node_unmarked.
    + intros _. left. cbn. right; left.
  - apply inv_pc; rewrite ?Ec; [done|done|member..|]. cbn. intros x ?. by left.
Qed.
Lemma inv_un_done n nx p : pcs s t = UnDone n nx p -> after (set_next (m_ s) p nx) Idle.
Proof using I.
  intros Ec. unpack Ec HT. apply inv_next; rewrite ?Ec; try done; [by left| |member..|].
  - apply (other_not_held s t I). rewrite Ec. left.
  - intros _. by right.
Qed.
End Access.

Lemma inv_step s s' : Inv s -> sys_step s s' -> Inv s'.
Proof.
  intros I H. destruct H as [s t|s t n nr Ec Hn HL HD H0 He Ho Hr|s t n Ec Hn Hh Ho].
  - destruct (pcs s t) eqn:Ec; cbn [effect fst snd].
    + apply inv_pc; rewrite ?Ec; try done. cbn. by intros x ?%elem_of_nil.
    + by apply inv_link_prev.
    + by apply inv_link_lock.
    + by apply inv_link_cas.
    + by apply inv_link_next.
    + by apply inv_link_back.
    + eapply inv_link_done; eauto.
    + by apply inv_un_lock.
    + by apply inv_un_lock_cas.
    + by apply inv_un_prev.
    + by apply inv_un_cas.
    + by apply inv_un_back.
    + eapply inv_un_done; eauto.
  - apply inv_start; try done. cbn. intros x t'. rewrite !elem_of_cons, elem_of_nil.
    intros [->|[->|[]]]; [apply Ho|apply Hr].
  - apply inv_start; try done. cbn. intros x t'. rewrite elem_of_cons, elem_of_nil. intros [->|[]]. apply Ho.
Qed.

(** * Properties *)

(** The memory holds exactly the list. *)
Definition well_linked (m : mem) (L : list Z) : Prop :=
  NoDup L /\ (forall a, a ∈ L -> node a) /\ (forall a, a ∈ L -> next m a = succ L a) /\
  (forall a, a ∈ L -> succ L a <> 0 -> prev m (succ L a) = a).
Definition quiet (s : sys) : Prop := forall t, pcs s t = Idle.

Lemma inv_init s : well_linked (m_ s) (live s) -> dead s = [] -> quiet s -> Inv s.
Proof.
  intros (HN & Hnode & Hl & Hp) HD HQ. split; try done; rewrite ?HD.
  - intros a [?|?%elem_of_nil]; [by apply Hnode|done].
  - by intros a _ ?%elem_of_nil.
  - intros t. by rewrite HQ.
  - intros t t' x. rewrite HQ. by intros ?%elem_of_nil.
  - intros t t' x. rewrite HQ. by intros ?%elem_of_nil.
  - intros a Ha _. by apply Hl.
  - by intros d ?%elem_of_nil.
Qed.
Lemma head_step s s' : Inv s -> sys_step s s' -> hd 0 (live s') = hd 0 (live s).
Proof.
  intros I H. destruct H as [s t| |]; [|done..]. cbn [live].
  pose proof (i_thread _ I t) as HT. destruct (pcs s t); try done; cbn.
  - apply insert_after_hd.
  - apply remove_hd. by destruct HT as (_ & ? & _).
Qed.
Lemma inv_reach s0 s : Inv s0 -> rtc sys_step s0 s -> Inv s /\ hd 0 (live s) = hd 0 (live s0).
Proof.
  intros I H. induction H as [s|s s1 s' H1 _ IH]; [done|].
  destruct (IH (inv_step _ _ I H1)) as [I' E]. split; [done|]. rewrite E. by apply head_step.
Qed.

(** [C10]. Concurrent splits and unlinks keep the leaf list.  From a well-linked list and
    no thread inside an operation, let any number of threads split and unlink leaves they
    own, interleaved at every memory access and spinning as long as they like.  At every
    moment there is a list, the old one with the splits and unlinks that took effect applied
    one after the other, whose back pointers are exact in memory and whose forward
    pointers are exact wherever no thread holds the link; a held link is null or marked, so
    that no other thread can take it; no two threads hold the same link; the first leaf
    stays first; and when the threads are done the memory holds exactly the list. *)
Theorem leaflink_concurrent s0 s :
  well_linked (m_ s0) (live s0) -> dead s0 = [] -> quiet s0 -> rtc sys_step s0 s ->
  (NoDup (live s) /\ hd 0 (live s) = hd 0 (live s0)) /\
  (forall a, a ∈ live s -> succ (live s) a <> 0 -> prev (m_ s) (succ (live s) a) = a) /\
  (forall a, a ∈ live s -> (forall t, a ∉ holds (pcs s t)) -> next (m_ s) a = succ (live s) a) /\
  (forall a t, a ∈ holds (pcs s t) -> a ∈ live s /\ (next (m_ s) a = 0 \/ is_marked (next (m_ s) a) = true)) /\
  (forall a t t', a ∈ holds (pcs s t) -> a ∈ holds (pcs s t') -> t = t') /\
  (quiet s -> well_linked (m_ s) (live s)).
Proof.
  intros HW HD HQ HR. destruct (inv_reach s0 s (inv_init _ HW HD HQ) HR) as [I E].
  split_and!; try apply I; try done.
  - intros a t Ha. by destruct (held_busy _ _ _ _ _ (i_thread _ I t) Ha).
  - intros a t t'. apply (i_holds _ I).
  - intros HQ'. split_and!; try apply I.
    + intros a Ha. apply (i_node _ I). by left.
    + intros a Ha. apply (i_link _ I); [done|]. intros t. rewrite HQ'. apply not_elem_of_nil.
Qed.

Definition wit_sys : sys :=
  {| m_ := {| next := fun a => if a =? 2 then 4 else 0; prev := fun a => if a =? 4 then 2 else 0 |};
     pcs := fun _ => Idle; live := [2; 4]; dead := [] |}.
(** Two threads: one splits leaf 2 while the other, having taken the link of leaf 4,
    unlinks it. *)
Definition access (t : Z) (s : sys) : sys :=
  {| m_ := (step (m_ s) (pcs s t)).1; pcs := <[t := (step (m_ s) (pcs s t)).2]> (pcs s);
     live := (effect (pcs s t) (live s) (dead s)).1; dead := (effect (pcs s t) (live s) (dead s)).2 |}.
Definition begin (t : Z) (c : pc) (s : sys) : sys :=
  {| m_ := m_ s; pcs := <[t := c]> (pcs s); live := live s; dead := dead s |}.
Lemma access_rtc t s0 s : rtc sys_step s0 s -> rtc sys_step s0 (access t s).
Proof. intros H. eapply rtc_r; [exact H|]. apply S_access. Qed.
Definition wit_run : sys :=
  foldl (fun s t => access t s) (begin 2 (UnLock 4) (begin 1 (LinkPrev 2 6) wit_sys))
    [2; 1; 1; 1; 1; 2; 1; 2; 2; 1; 2; 2; 2].
Lemma leaflink_concurrent_witness :
  live wit_run = [2; 6] /\ dead wit_run = [4] /\ next (m_ wit_run) 2 = 6 /\ next (m_ wit_run) 6 = 0 /\
  prev (m_ wit_run) 6 = 2 /\ NoDup (live wit_run).
Proof.
  split_and!; try (vm_compute; reflexivity).
  refine (proj1 (proj1 (leaflink_concurrent wit_sys wit_run _ eq_refl (fun _ => eq_refl) _))).
  - split_and!.
    + apply (bool_decide_unpack _). vm_compute. done.
    + intros a [->|[->|[]%elem_of_nil]%elem_of_cons]%elem_of_cons; done.
    + intros a [->|[->|[]%elem_of_nil]%elem_of_cons]%elem_of_cons; done.
    + intros a [->|[->|[]%elem_of_nil]%elem_of_cons]%elem_of_cons; done.
  - unfold wit_run. cbn [foldl]. repeat apply access_rtc.
    eapply rtc_l; [apply (S_link wit_sys 1 2 6); try done; try left; try (by intros; apply not_elem_of_nil)|].
    + cbn. rewrite !not_elem_of_cons. split_and!; [done..|apply not_elem_of_nil].
    + apply rtc_once. apply (S_unlink (begin 1 (LinkPrev 2 6) wit_sys) 2 4); try done.
      * right; left.
      * intros t'. unfold begin. cbn [pcs]. destruct (decide (t' = 1)) as [->|];
          [rewrite fn_lookup_insert|rewrite fn_lookup_insert_ne by done; apply not_elem_of_nil].
        cbn. rewrite !not_elem_of_cons. split_and!; [done..|apply not_elem_of_nil].
Defined.

(** Alone, the two versions of the list operations agree. *)
Definition run (k : nat) (m : mem) (c : pc) : mem * pc := Nat.iter k (fun '(m, c) => step m c) (m, c).


Lemma run_S k m c : run (S k) m c = let '(m', c') := step m c in run k m' c'.
Proof.
  unfold run. rewrite Nat.iter_succ_r. by destruct (step m c).
Qed.
Ltac go := repeat (rewrite run_S; cbn [step cas]).
Ltac ins := repeat first [rewrite fn_lookup_insert | rewrite fn_lookup_insert_ne by (done || congruence)].
Lemma link_split_alone m n nr : n <> nr -> is_marked (next m n) = false -> next m n <> nr ->
  let '(m', c) := run 6 m (LinkPrev n nr) in
  c = Idle /\ forall a, next m' a = next (link_split_seq n nr m) a /\ prev m' a = prev (link_split_seq n nr m) a.
Proof.
  intros H1 H2 H3. rewrite run_S. cbn [step]. rewrite run_S. cbn [step set_prev next].
  assert (Hseq : next (link_split_seq n nr m) = <[n := nr]> (<[nr := next m n]> (next m)) /\
    prev (link_split_seq n nr m) = if next m n =? 0 then <[nr := n]> (prev m)
                                   else <[next m n := nr]> (<[nr := n]> (prev m))).
  { unfold link_split_seq. cbn [next prev set_next set_prev]. ins. by destruct (next m n =? 0). }
  destruct Hseq as [-> ->]. destruct (Z.eqb_spec (next m n) 0) as [E|E].
  - rewrite E. go. cbn. split; [done|]. by intros a.
  - rewrite H2. rewrite run_S. cbn [step]. unfold cas. cbn [next set_prev]. rewrite Z.eqb_refl.
    go. destruct (Z.eqb_spec (next m n) 0); [done|]. cbn. split; [done|].
    intros a. split; [|done]. destruct (decide (a = n)) as [->|]; [by ins|].
    destruct (decide (a = nr)) as [->|]; by ins.
Qed.
Lemma unlink_alone m n : let p := prev m n in
  p <> n -> is_marked n = false -> is_marked (next m n) = false -> next m p = n -> next m n <> n ->
  let '(m', c) := run 6 m (UnLock n) in
  c = Idle /\ forall a, a <> n -> next m' a = next (unlink_seq n m) a /\ prev m' a = prev (unlink_seq n m) a.
Proof.
  intros p Hp Hn Hm Hpn Hnn. rewrite run_S. cbn [step].
  assert (Hseq : next (unlink_seq n m) = <[p := next m n]> (next m) /\
    prev (unlink_seq n m) = if next m n =? 0 then prev m else <[next m n := p]> (prev m)).
  { unfold unlink_seq. destruct (next m n =? 0); [done|]. cbn [next prev set_next set_prev]. by ins. }
  destruct Hseq as [-> ->]. destruct (Z.eqb_spec (next m n) 0) as [E|E].
  - rewrite run_S. cbn [step]. fold p. rewrite run_S. cbn [step]. unfold cas. rewrite Hpn, Z.eqb_refl.
    go. rewrite E. cbn. split; [done|]. intros a Ha. split; [|done].
    destruct (decide (a = p)) as [->|]; by ins.
  - rewrite Hm. rewrite run_S. cbn [step]. unfold cas at 1. rewrite Z.eqb_refl.
    rewrite run_S. cbn [step set_next prev]. fold p. rewrite run_S. cbn [step]. unfold cas. cbn [next set_next].
    rewrite fn_lookup_insert_ne, Hpn, Z.eqb_refl by done.
    go. destruct (Z.eqb_spec (next m n) 0); [done|]. cbn. split; [done|].
    intros a Ha. split; [|done]. destruct (decide (a = p)) as [->|]; by ins.
Qed.

(** The concurrent and the single-threaded versions agree.  Run alone on a list
    whose links are not locked, the lock-free [link_split] finishes and leaves exactly the
    memory that the plain one leaves, and the lock-free [unlink] likewise but for the
    [next] pointer of the unlinked leaf, which it leaves marked. *)
Theorem leaflink_sequential m n nr :
  is_marked n = false -> is_marked (next m n) = false -> next m n <> n ->
  (n <> nr -> next m n <> nr ->
   let '(m', c) := run 6 m (LinkPrev n nr) in
   c = Idle /\ forall a, next m' a = next (link_split_seq n nr m) a /\ prev m' a = prev (link_split_seq n nr m) a) /\
  (prev m n <> n -> next m (prev m n) = n ->
   let '(m', c) := run 6 m (UnLock n) in
   c = Idle /\ forall a, a <> n -> next m' a = next (unlink_seq n m) a /\ prev m' a = prev (unlink_seq n m) a).
Proof.
  intros H1 H2 H3. split; intros; [by apply link_split_alone|by apply unlink_alone].
Qed.
Lemma leaflink_sequential_witness :
  let m := m_ wit_sys in let '(m', c) := run 6 m (LinkPrev 2 6) in
  c = Idle /\ forall a, next m' a = next (link_split_seq 2 6 m) a /\ prev m' a = prev (link_split_seq 2 6 m) a.
Proof. apply (leaflink_sequential (m_ wit_sys) 2 6); done. Defined.
