(* ===== verification/ValueArray.v ===== *)
(** value_array.hh, value_array.cc: rows that point to one string per column.

    A row is a time stamp and the pointers of its columns (0 for an empty column); the
    strings live in a heap, and an update shares the unchanged ones with the old row.  The
    allocator gives an address that is not in use; freeing is the list of the addresses
    handed back.  An array of changes, column and value in turn, is a list of pairs. *)
From S2P Require Import Prelude.
From Stdlib Require Import Sorted.

Abbreviation heap := (gmap Z (list Z)).
Record value_array := { ts_ : Z; cols_ : list Z }.

Definition empty_array : value_array := {| ts_ := 0; cols_ := [] |}.
Definition ncol (r : value_array) : Z := Z.of_nat (List.length (cols_ r)).
Definition col (h : heap) (r : value_array) (i : Z) : list Z :=
  if (0 <=? i) && (i <? ncol r) && negb (get (cols_ r) i =? 0) then default [] (h !! get (cols_ r) i) else [].
(** The header is 10 bytes, padded to the alignment of the pointers. *)
Definition shallow_size (n : Z) : Z := 16 + 8 * n.

Definition allocate (h : heap) : Z := fresh ({[0]} ∪ dom h).
Definition make_column (str : list Z) (h : heap) : Z * heap :=
  match str with
  | [] => (0, h)
  | _ => let p := allocate h in (p, <[p := str]> h)
  end.
Definition deallocate_column (p : Z) : list Z := if p =? 0 then [] else [p].

Definition make_sized_row (n ts : Z) : value_array := {| ts_ := ts; cols_ := replicate (Z.to_nat n) 0 |}.

Abbreviation changes := (list (Z * list Z)).
(** The loop that stores the changed columns. *)
Fixpoint set_columns (cs : changes) (cols : list Z) (h : heap) : list Z * heap :=
  match cs with
  | [] => (cols, h)
  | (i, v) :: cs => let '(p, h) := make_column v h in set_columns cs (upd cols i p) h
  end.
(** [update]; [None] is the read before an empty array of changes. *)
Definition update (cs : changes) (ts : Z) (r : value_array) (h : heap) : option (value_array * heap) :=
  '(li, _) ← list.last cs;
  let n := Z.max (ncol r) (li + 1) in
  let cols := cols_ r ++ replicate (Z.to_nat (n - ncol r)) 0 in
  let '(cols, h) := set_columns cs cols h in
  Some ({| ts_ := ts; cols_ := cols |}, h).
Definition create (cs : changes) (ts : Z) (h : heap) : option (value_array * heap) := update cs ts empty_array h.
Definition create1 (v : list Z) (ts : Z) (h : heap) : value_array * heap :=
  let '(p, h) := make_column v h in ({| ts_ := ts; cols_ := [p] |}, h).

(** The columns freed by each way to drop a row; the row itself goes with them. *)
Definition deallocate (r : value_array) : list Z := List.concat (deallocate_column <$> cols_ r).
Fixpoint deallocate_rcu_after_update (cs : changes) (r : value_array) : list Z :=
  match cs with
  | [] => []
  | (i, _) :: cs => if i <? ncol r then deallocate_column (get (cols_ r) i) ++ deallocate_rcu_after_update cs r else []
  end.
Definition deallocate_after_failed_update (cs : changes) (r : value_array) : list Z :=
  List.concat ((fun c => deallocate_column (get (cols_ r) c.1)) <$> cs).

(** A checkpoint holds the columns as strings. *)
Definition checkpoint_write (h : heap) (r : value_array) : list (list Z) := col h r <$> seqZ 0 (ncol r).
Fixpoint read_columns (vs : list (list Z)) (i : Z) (cols : list Z) (h : heap) : list Z * heap :=
  match vs with
  | [] => (cols, h)
  | [] :: vs => read_columns vs (i + 1) cols h
  | v :: vs => let '(p, h) := make_column v h in read_columns vs (i + 1) (upd cols i p) h
  end.
Definition checkpoint_read (vs : list (list Z)) (ts : Z) (h : heap) : value_array * heap :=
  let r := make_sized_row (Z.of_nat (List.length vs)) ts in
  let '(cols, h) := read_columns vs 0 (cols_ r) h in
  ({| ts_ := ts; cols_ := cols |}, h).

(** * Facts *)

(** Each column that is not empty has its own string, which is not empty. *)
Record row_wf (h : heap) (cols : list Z) : Prop := {
  rw_string : forall p, p ∈ cols -> p <> 0 -> exists v, h !! p = Some v /\ v <> [];
  rw_own : forall i j p, p <> 0 -> cols !! i = Some p -> cols !! j = Some p -> i = j }.

Lemma allocate_fresh h : allocate h <> 0 /\ h !! allocate h = None.
Proof.
  pose proof (is_fresh ({[0]} ∪ dom h)) as H. apply not_elem_of_union in H as [H1 H2].
  split; [by intros E; apply H1; rewrite elem_of_singleton|]. by apply not_elem_of_dom.
Qed.
Lemma make_column_spec v h p h' : make_column v h = (p, h') ->
  h ⊆ h' /\ (p = 0 /\ v = [] /\ h' = h \/ p <> 0 /\ v <> [] /\ h !! p = None /\ h' = <[p := v]> h).
Proof.
  destruct v as [|b v]; cbn; intros [= <- <-]; [by split; [|left]|].
  destruct (allocate_fresh h) as [H1 H2]. split; [by apply insert_subseteq|right; by split_and!].
Qed.

(** Lookups in the updated list. *)
Lemma upd_same (cols : list Z) i p : 0 <= i < Z.of_nat (List.length cols) -> upd cols i p !! Z.to_nat i = Some p.
Proof.
  intros. unfold upd. destruct (Z.ltb_spec i 0); [lia|]. apply list_lookup_insert_eq. lia.
Qed.
Lemma upd_other (cols : list Z) i p k : k <> Z.to_nat i -> upd cols i p !! k = cols !! k.
Proof. intros. unfold upd. destruct (i <? 0); [done|]. by apply list_lookup_insert_ne. Qed.

Abbreviation indices cs := ((fun c : Z * list Z => c.1) <$> cs).
(** What the loop does: the strings of the changes are new, and nothing else is touched. *)
Record set_ok (cs : changes) (cols cols' : list Z) (h h' : heap) : Prop := {
  so_len : List.length cols' = List.length cols;
  so_heap : h ⊆ h';
  so_other : forall k, Z.of_nat k ∉ indices cs -> cols' !! k = cols !! k;
  so_new : forall i v, (i, v) ∈ cs -> exists p, cols' !! Z.to_nat i = Some p /\
     (p = 0 /\ v = [] \/ p <> 0 /\ v <> [] /\ h !! p = None /\ h' !! p = Some v);
  so_dom : forall p, h' !! p <> None -> h !! p <> None \/ exists i v, (i, v) ∈ cs /\ cols' !! Z.to_nat i = Some p /\ p <> 0;
  so_own : forall i j p, p <> 0 -> h !! p = None -> cols' !! i = Some p -> cols' !! j = Some p ->
     Z.of_nat i ∈ indices cs -> Z.of_nat j ∈ indices cs -> i = j }.

Lemma set_columns_ok cs : forall cols h cols' h', NoDup (indices cs) ->
  (forall i, i ∈ indices cs -> 0 <= i < Z.of_nat (List.length cols)) ->
  set_columns cs cols h = (cols', h') -> set_ok cs cols cols' h h'.
Proof.
  induction cs as [|[i v] cs IH]; intros cols h cols' h' HN HI; cbn [set_columns].
  { intros [= <- <-]. split; try done.
    - by intros i v ?%elem_of_nil.
    - by left.
    - by intros ? ? ? _ _ _ _ ?%elem_of_nil. }
  destruct (make_column v h) as [p h1] eqn:Em. intros E. cbn in HN. apply list.NoDup_cons in HN as [Hi HN].
  destruct (make_column_spec _ _ _ _ Em) as [Hs1 Hp].
  assert (Hir : 0 <= i < Z.of_nat (List.length cols)) by (apply HI; left).
  destruct (IH (upd cols i p) h1 cols' h' HN) as [I1 I2 I3 I4 I5 I6]; [|done|].
  { intros k Hk. rewrite length_upd. apply HI. by right. }
  assert (Hcp : cols' !! Z.to_nat i = Some p).
  { rewrite I3 by by rewrite Z2Nat.id by lia. by apply upd_same. }
  assert (Hh1 : forall q, h1 !! q = None -> h !! q = None) by (intros q Hq; by eapply lookup_weaken_None).
  assert (Hnew : forall q, q <> 0 -> h !! q = None -> h1 !! q <> None -> q = p).
  { intros q H0 H1 H2. destruct Hp as [(_ & _ & ->)|(_ & _ & _ & ->)]; [done|].
    destruct (decide (q = p)); [done|]. by rewrite lookup_insert_ne in H2. }
  split.
  - by rewrite I1, length_upd.
  - by trans h1.
  - cbn. intros k [Hk1 Hk2]%not_elem_of_cons. rewrite I3 by done. apply upd_other. lia.
  - intros j w [Hj|Hj]%elem_of_cons.
    + injection Hj as -> ->. exists p. split; [done|].
      destruct Hp as [(-> & -> & ->)|(H1 & H2 & H3 & ->)]; [by left|right]. split_and!; [done..|].
      eapply lookup_weaken; [apply lookup_insert_eq|exact I2].
    + destruct (I4 j w Hj) as (q & Hq & Hv). exists q. split; [done|].
      destruct Hv as [?|(? & ? & ? & ?)]; [by left|right]. split_and!; auto.
  - intros q Hq. destruct (I5 q Hq) as [H1|(j & w & Hj & Hw & H0)].
    + destruct (h !! q) eqn:Eq; [by left|]. right. exists i, v. split; [left|].
      destruct Hp as [(_ & _ & ->)|(H2 & _ & _ & ->)]; [done|].
      destruct (decide (q = p)) as [->|]; [done|]. by rewrite lookup_insert_ne in H1.
    + right. exists j, w. split; [by right|done].
  - assert (Hcs : forall a q, Z.of_nat a ∈ indices cs -> cols' !! a = Some q -> q <> 0 -> h1 !! q = None).
    { intros a q ([j w] & Ej & Hj)%list_elem_of_fmap Ha H0. cbn in Ej. destruct (I4 j w Hj) as (q' & Hq' & Hv).
      rewrite <- Ej, Nat2Z.id, Ha in Hq'. injection Hq' as <-. destruct Hv as [[? _]|(_ & _ & ? & _)]; done. }
    assert (Hp1 : p <> 0 -> h1 !! p <> None).
    { intros H0. destruct Hp as [[? _]|(_ & _ & _ & ->)]; [done|]. by rewrite lookup_insert_eq. }
    cbn. intros a b q H0 Hq Ha Hb [HA|HA]%elem_of_cons [HB|HB]%elem_of_cons; [lia| | |].
    + rewrite <- HA, Nat2Z.id, Ha in Hcp. injection Hcp as ->. by destruct (Hp1 H0); apply (Hcs b).
    + rewrite <- HB, Nat2Z.id, Hb in Hcp. injection Hcp as ->. by destruct (Hp1 H0); apply (Hcs a).
    + apply (I6 a b q); try done. by apply (Hcs a).
Qed.

(** * Properties *)

(** The value a change gives to a column. *)
Fixpoint assoc (cs : changes) (i : Z) : option (list Z) :=
  match cs with [] => None | (j, v) :: cs => if j =? i then Some v else assoc cs i end.
Definition changes_ok (cs : changes) : Prop :=
  StronglySorted Z.lt (indices cs) /\ Forall (fun i => 0 <= i < 2 ^ 15 - 1) (indices cs) /\ cs <> [].

Lemma assoc_in cs i v : NoDup (indices cs) -> (i, v) ∈ cs -> assoc cs i = Some v.
Proof.
  induction cs as [|[j w] cs IH]; [by intros _ ?%elem_of_nil|]. cbn.
  intros [Hj HN]%list.NoDup_cons [[= -> ->]|Hin]%elem_of_cons; [by rewrite Z.eqb_refl|].
  destruct (Z.eqb_spec j i) as [->|]; [|by apply IH]. destruct Hj. apply list_elem_of_fmap. by exists (i, v).
Qed.
Lemma assoc_notin cs i : i ∉ indices cs -> assoc cs i = None.
Proof.
  induction cs as [|[j w] cs IH]; [done|]. cbn. intros [H1 H2]%not_elem_of_cons.
  destruct (Z.eqb_spec j i); [congruence|by apply IH].
Qed.
Lemma sorted_NoDup (l : list Z) : StronglySorted Z.lt l -> NoDup l.
Proof.
  induction 1 as [|x l _ IH HF]; [constructor|]. apply list.NoDup_cons. split; [|done].
  intros Hx. rewrite Forall_forall in HF. specialize (HF x). rewrite <- list_elem_of_In in HF. specialize (HF Hx). lia.
Qed.
Lemma sorted_last (l : list Z) x : StronglySorted Z.lt l -> list.last l = Some x -> forall y, y ∈ l -> y <= x.
Proof.
  induction 1 as [|z l HS IH HF]; [done|]. destruct l as [|w l].
  - cbn. intros [= ->] y [->|[]%elem_of_nil]%elem_of_cons. lia.
  - rewrite last_cons_cons. intros Hl y [->|Hy]%elem_of_cons; [|by apply IH].
    inversion HF; subst. specialize (IH Hl w ltac:(left)). lia.
Qed.

Lemma update_cols cs ts r h : changes_ok cs ->
  exists r' h' n, update cs ts r h = Some (r', h') /\ ts_ r' = ts /\ n = Z.max (ncol r) (default 0 (list.last (indices cs)) + 1) /\
    ncol r' = n /\ (forall i, i ∈ indices cs -> 0 <= i < n) /\
    set_ok cs (cols_ r ++ replicate (Z.to_nat (n - ncol r)) 0) (cols_ r') h h'.
Proof.
  intros (HS & HF & Hne). unfold update.
  destruct (list.last cs) as [[li lv]|] eqn:El; [|by apply last_None in El].
  cbn [mbind option_bind]. set (n := Z.max (ncol r) (li + 1)).
  assert (Hli : list.last (indices cs) = Some li) by by rewrite fmap_last, El.
  destruct (set_columns cs _ h) as [cols' h'] eqn:E. eexists _, h', n. split; [done|]. cbn [ts_].
  assert (HI : forall i, i ∈ indices cs -> 0 <= i < n).
  { intros i Hi. rewrite Forall_forall in HF. pose proof (HF i ltac:(by apply list_elem_of_In)) as H1.
    pose proof (sorted_last _ _ HS Hli _ Hi). lia. }
  apply set_columns_ok in E.
  - split_and!; try done.
    + by rewrite Hli.
    + unfold ncol in *. cbn [cols_]. rewrite (so_len _ _ _ _ _ E), length_app, length_replicate. lia.
  - by apply sorted_NoDup.
  - intros i Hi. rewrite length_app, length_replicate. specialize (HI i Hi). unfold ncol in *. lia.
Qed.

Lemma get_lookup (l : list Z) i p : 0 <= i -> l !! Z.to_nat i = Some p -> get l i = p.
Proof.
  intros Hi H. unfold get. destruct (Z.ltb_spec i 0); [lia|]. by apply nth_lookup_Some with (d := 0) in H.
Qed.
Lemma get_lookup' (l : list Z) i : 0 <= i < Z.of_nat (List.length l) -> l !! Z.to_nat i = Some (get l i).
Proof.
  intros Hi. destruct (lookup_lt_is_Some_2 l (Z.to_nat i)) as [p Hp]; [lia|]. rewrite Hp. f_equal. symmetry.
  apply get_lookup; [lia|done].
Qed.
Lemma col_in h r i p : 0 <= i -> cols_ r !! Z.to_nat i = Some p ->
  col h r i = if p =? 0 then [] else default [] (h !! p).
Proof.
  intros Hi Hp. assert (Hl : (Z.to_nat i < List.length (cols_ r))%nat) by by eapply lookup_lt_Some.
  unfold col, ncol. rewrite (get_lookup _ _ _ Hi Hp).
  destruct (Z.leb_spec 0 i), (Z.ltb_spec i (Z.of_nat (List.length (cols_ r)))); try lia. cbn. by destruct (p =? 0).
Qed.
Lemma col_out h r i : ~ 0 <= i < ncol r -> col h r i = [].
Proof.
  intros. unfold col. destruct (Z.leb_spec 0 i), (Z.ltb_spec i (ncol r)); cbn; done || lia.
Qed.

Lemma elem_dealloc p q : p ∈ deallocate_column q <-> p = q /\ q <> 0.
Proof.
  unfold deallocate_column. destruct (Z.eqb_spec q 0) as [->|]; rewrite ?elem_of_cons, ?elem_of_nil; [|tauto].
  split; [done|intros [-> ?]; done].
Qed.
Lemma freed_after_update cs r p : StronglySorted Z.lt (indices cs) ->
  p ∈ deallocate_rcu_after_update cs r <-> p <> 0 /\ exists i, i ∈ indices cs /\ i < ncol r /\ get (cols_ r) i = p.
Proof.
  induction cs as [|[i v] cs IH]; cbn; intros HS.
  { split; [by intros ?%elem_of_nil|by intros (_ & i & ?%elem_of_nil & _)]. }
  apply StronglySorted_inv in HS as [HS HF]. destruct (Z.ltb_spec i (ncol r)) as [Hi|Hi].
  - rewrite elem_of_app, elem_dealloc, IH by done. split.
    + intros [[-> ?]|(? & j & ? & ? & ?)]; (split; [done|]); [exists i|exists j]; split_and!; try done; [left|by right].
    + intros (H0 & j & [->|Hj]%elem_of_cons & ? & ?); [left; by subst|right]. split; [done|]. by exists j.
  - split; [by intros ?%elem_of_nil|]. intros (_ & j & [->|Hj]%elem_of_cons & ? & _); [lia|].
    rewrite Forall_forall in HF. specialize (HF j ltac:(by apply list_elem_of_In)). lia.
Qed.
Lemma freed_NoDup cs r h : StronglySorted Z.lt (indices cs) -> Forall (fun i => 0 <= i) (indices cs) ->
  row_wf h (cols_ r) -> NoDup (deallocate_rcu_after_update cs r).
Proof.
  intros HS H0 HW. induction cs as [|[i v] cs IH]; [constructor|]. cbn in HS, H0 |- *.
  inversion H0 as [|? ? Hi H0']; subst. pose proof (StronglySorted_inv HS) as [HS' HF].
  destruct (Z.ltb_spec i (ncol r)) as [Hlt|]; [|constructor].
  apply list.NoDup_app. split_and!; [|intros p Hp Hp'|by apply IH].
  - unfold deallocate_column. destruct (_ =? 0); repeat constructor. by intros ?%elem_of_nil.
  - apply elem_dealloc in Hp as [-> Hp0]. apply freed_after_update in Hp' as (_ & j & Hj & Hjn & E); [|done].
    rewrite Forall_forall in HF, H0'. pose proof (HF j ltac:(by apply list_elem_of_In)).
    pose proof (H0' j ltac:(by apply list_elem_of_In)). unfold ncol in *.
    pose proof (rw_own _ _ HW (Z.to_nat i) (Z.to_nat j) _ Hp0 ltac:(apply get_lookup'; lia)
      ltac:(rewrite <- E; apply get_lookup'; lia)). lia.
Qed.
Lemma failed_freed cs r p : (forall i, i ∈ indices cs -> 0 <= i) ->
  p ∈ deallocate_after_failed_update cs r <-> p <> 0 /\ exists i, i ∈ indices cs /\ get (cols_ r) i = p.
Proof.
  intros _. unfold deallocate_after_failed_update. induction cs as [|[i v] cs IH]; cbn.
  { split; [by intros ?%elem_of_nil|by intros (_ & i & ?%elem_of_nil & _)]. }
  rewrite elem_of_app, elem_dealloc, IH. split.
  - intros [[-> ?]|(? & j & ? & ?)]; (split; [done|]); [exists i|exists j]; split_and!; try done; [left|by right].
  - intros (H0 & j & [->|Hj]%elem_of_cons & ?); [left; by subst|right]. split; [done|]. by exists j.
Qed.

Section Update.
Context (cs : changes) (r r' : value_array) (h h' : heap) (n : Z).
Context (HW : row_wf h (cols_ r)) (Hn : ncol r' = n) (Hrn : ncol r <= n) (HI : forall i, i ∈ indices cs -> 0 <= i < n).
Context (HN : NoDup (indices cs)).
Context (HO : set_ok cs (cols_ r ++ replicate (Z.to_nat (n - ncol r)) 0) (cols_ r') h h').

(** Where a string of the new row comes from. *)
Lemma classify k p : cols_ r' !! k = Some p -> p <> 0 ->
  (Z.of_nat k ∈ indices cs /\ h !! p = None /\ exists v, v <> [] /\ h' !! p = Some v) \/
  ((Z.of_nat k ∉ indices cs) /\ cols_ r !! k = Some p).
Proof using HO.
  intros Hk H0. destruct HO as [S1 S2 S3 S4 S5 S6].
  destruct (decide (Z.of_nat k ∈ indices cs)) as [Hin|Hin]; [left|right].
  - split; [done|]. apply list_elem_of_fmap in Hin as ([j v] & E & Hj). cbn in E.
    destruct (S4 j v Hj) as (q & Hq & Hv). rewrite <- E, Nat2Z.id, Hk in Hq. injection Hq as <-.
    destruct Hv as [[? _]|(_ & Hv & ? & ?)]; [done|]. split; [done|]. by exists v.
  - split; [done|]. rewrite S3 in Hk by done. destruct (decide (k < List.length (cols_ r))%nat).
    + by rewrite lookup_app_l in Hk.
    + rewrite lookup_app_r in Hk by lia. by apply lookup_replicate in Hk as [-> _].
Qed.
Lemma kept k p : cols_ r !! k = Some p -> Z.of_nat k ∉ indices cs -> cols_ r' !! k = Some p.
Proof using HO.
  intros Hk Hin. rewrite (so_other _ _ _ _ _ HO) by done. rewrite lookup_app_l; [done|by eapply lookup_lt_Some].
Qed.
Lemma old_string k p : cols_ r !! k = Some p -> p <> 0 -> h !! p <> None.
Proof using HW.
  intros Hk H0. destruct (rw_string _ _ HW p) as (v & Hv & _); [by eapply list_elem_of_lookup_2|done|congruence].
Qed.
Lemma update_wf : row_wf h' (cols_ r').
Proof using HW HO.
  split.
  - intros p [k Hk]%list_elem_of_lookup H0. destruct (classify k p Hk H0) as [(_ & _ & v & ? & ?)|[_ Ho]]; [by exists v|].
    destruct (rw_string _ _ HW p) as (v & Hv & ?); [by eapply list_elem_of_lookup_2|done|].
    exists v. split; [|done]. by eapply lookup_weaken, (so_heap _ _ _ _ _ HO).
  - intros i j p H0 Hi Hj.
    destruct (classify i p Hi H0) as [(Ii & Ni & _)|[Ii Oi]], (classify j p Hj H0) as [(Ij & Nj & _)|[Ij Oj]].
    + by apply (so_own _ _ _ _ _ HO i j p).
    + by destruct (old_string _ _ Oj H0).
    + by destruct (old_string _ _ Oi H0).
    + by apply (rw_own _ _ HW i j p).
Qed.
Lemma update_col i : col h' r' i = default (col h r i) (assoc cs i).
Proof using HW Hn Hrn HI HN HO.
  destruct (decide (0 <= i < n)) as [Hi|Hi].
  2: { rewrite !col_out by lia. rewrite assoc_notin; [done|]. intros Hin. by apply Hi, HI. }
  destruct HO as [S1 S2 S3 S4 S5 S6].
  destruct (decide (i ∈ indices cs)) as [Hin|Hin].
  - apply list_elem_of_fmap in Hin as ([j v] & -> & Hj). cbn in *. rewrite (assoc_in _ _ _ HN Hj). cbn.
    destruct (S4 j v Hj) as (q & Hq & Hv). rewrite (col_in _ _ _ _ (proj1 Hi) Hq).
    destruct Hv as [[-> ->]|(H0 & _ & _ & ->)]; [done|]. by destruct (Z.eqb_spec q 0).
  - rewrite assoc_notin by done. cbn.
    assert (Hk : Z.of_nat (Z.to_nat i) ∉ indices cs) by by rewrite Z2Nat.id by lia.
    pose proof (S3 _ Hk) as E. destruct (decide (i < ncol r)) as [Hlt|Hge].
    + assert (Hr : cols_ r !! Z.to_nat i = Some (get (cols_ r) i)) by (apply get_lookup'; unfold ncol in *; lia).
      rewrite lookup_app_l in E by (apply lookup_lt_Some in Hr; lia). rewrite Hr in E.
      rewrite (col_in _ _ _ _ (proj1 Hi) E), (col_in _ _ _ _ (proj1 Hi) Hr).
      destruct (Z.eqb_spec (get (cols_ r) i) 0) as [|H0]; [done|].
      destruct (rw_string _ _ HW (get (cols_ r) i)) as (v & Hv & _); [by eapply list_elem_of_lookup_2|done|].
      rewrite Hv. by rewrite (lookup_weaken _ _ _ _ Hv S2).
    + rewrite (col_out h r) by lia. unfold ncol in *. rewrite lookup_app_r in E by lia.
      rewrite lookup_replicate_2 in E by lia.
      by rewrite (col_in _ _ _ _ (proj1 Hi) E).
Qed.
Lemma update_freed p : StronglySorted Z.lt (indices cs) ->
  p ∈ deallocate_rcu_after_update cs r <-> p <> 0 /\ p ∈ cols_ r /\ p ∉ cols_ r'.
Proof using HW HI HO.
  intros HS. rewrite freed_after_update by done. split.
  - intros (H0 & i & Hi & Hlt & E). pose proof (HI i Hi).
    assert (Hr : cols_ r !! Z.to_nat i = Some p) by (rewrite <- E; apply get_lookup'; unfold ncol in *; lia).
    split_and!; [done|by eapply list_elem_of_lookup_2|]. intros [k Hk]%list_elem_of_lookup.
    destruct (classify k p Hk H0) as [(_ & Hnone & _)|[Hk' Ho]].
    + by apply (old_string _ _ Hr H0).
    + assert (k = Z.to_nat i) as -> by by apply (rw_own _ _ HW _ _ p). apply Hk'. by rewrite Z2Nat.id by lia.
  - intros (H0 & [k Hk]%list_elem_of_lookup & Hn'). split; [done|].
    destruct (decide (Z.of_nat k ∈ indices cs)) as [Hin|Hin].
    + exists (Z.of_nat k). pose proof (lookup_lt_Some _ _ _ Hk). split_and!; [done|unfold ncol; lia|].
      apply get_lookup; [lia|]. by rewrite Nat2Z.id.
    + destruct Hn'. eapply list_elem_of_lookup_2, (kept k p); done.
Qed.
Lemma update_failed p :
  p ∈ deallocate_after_failed_update cs r' <-> p <> 0 /\ p ∈ cols_ r' /\ h !! p = None.
Proof using HW Hn HI HO.
  rewrite failed_freed by (intros i Hi; apply HI in Hi; lia). split.
  - intros (H0 & i & Hi & E). pose proof (HI i Hi).
    assert (Hr : cols_ r' !! Z.to_nat i = Some p) by (rewrite <- E; apply get_lookup'; unfold ncol in *; lia).
    split_and!; [done|by eapply list_elem_of_lookup_2|].
    destruct (classify _ p Hr H0) as [(_ & ? & _)|[Hk' _]]; [done|]. destruct Hk'. by rewrite Z2Nat.id by lia.
  - intros (H0 & [k Hk]%list_elem_of_lookup & Hnone). split; [done|].
    destruct (classify k p Hk H0) as [(Hin & _)|[_ Ho]]; [|by destruct (old_string _ _ Ho H0)].
    exists (Z.of_nat k). split; [done|]. apply get_lookup; [lia|]. by rewrite Nat2Z.id.
Qed.
End Update.

(** Updating a row of pointers.  With the changed columns in increasing order,
    [update] succeeds; the new row has the changed values in the changed columns and the
    old values in the others, as many columns as the larger of the two demands, and its
    strings stay owned by one column each; every string of the old row is still in the
    heap, so that concurrent readers of the old row are safe.  What is freed afterwards is
    exact: [deallocate_rcu_after_update] on the old row frees the strings that only the old
    row uses, each once, and [deallocate_after_failed_update] on the new row frees the
    strings that the update made. *)
Theorem value_array_update cs ts r h : changes_ok cs -> row_wf h (cols_ r) ->
  exists r' h', update cs ts r h = Some (r', h') /\ ts_ r' = ts /\
    (forall i, col h' r' i = default (col h r i) (assoc cs i)) /\
    ncol r' = Z.max (ncol r) (default 0 (list.last (indices cs)) + 1) /\
    row_wf h' (cols_ r') /\ h ⊆ h' /\
    (forall p, p ∈ deallocate_rcu_after_update cs r <-> p <> 0 /\ p ∈ cols_ r /\ p ∉ cols_ r') /\
    NoDup (deallocate_rcu_after_update cs r) /\
    (forall p, p ∈ deallocate_after_failed_update cs r' <-> p <> 0 /\ p ∈ cols_ r' /\ h !! p = None).
Proof.
  intros HC HW. destruct (update_cols cs ts r h HC) as (r' & h' & n & E & Ets & En & Hn & HI & HO).
  exists r', h'. pose proof HC as (HS & HF & _). pose proof (sorted_NoDup _ HS) as HN.
  assert (Hrn : ncol r <= n) by lia.
  split_and!; try done.
  - by apply (update_col cs r r' h h' n).
  - by rewrite <- En.
  - by apply (update_wf cs r r' h h' n).
  - exact (so_heap _ _ _ _ _ HO).
  - intros p. by apply (update_freed cs r r' h h' n).
  - apply (freed_NoDup cs r h); [done| |done]. eapply Forall_impl; [|exact HF]. cbn. intros; lia.
  - intros p. by apply (update_failed cs r r' h h' n).
Qed.

Definition wit_row : value_array := {| ts_ := 5; cols_ := [1; 0; 2] |}.
Definition wit_heap : heap := <[1 := [97]]> (<[2 := [98; 99]]> ∅).
Lemma wit_row_wf : row_wf wit_heap (cols_ wit_row).
Proof.
  split.
  - intros p [->|[->|[->|[]%elem_of_nil]%elem_of_cons]%elem_of_cons]%elem_of_cons H; [by exists [97]|done|by exists [98; 99]].
  - intros [|[|[|i]]] [|[|[|j]]] p H0; cbn; congruence || (intros; simplify_eq).
Defined.
Lemma value_array_update_witness : exists r' h',
  update [(0, [120]); (4, [121])] 9 wit_row wit_heap = Some (r', h') /\ col h' r' 0 = [120] /\ col h' r' 2 = [98; 99] /\
  col h' r' 3 = [] /\ ncol r' = 5.
Proof.
  destruct (value_array_update [(0, [120]); (4, [121])] 9 wit_row wit_heap) as (r' & h' & E & _ & HC & Hn & _).
  - split_and!; [repeat constructor|repeat constructor; done|done].
  - exact wit_row_wf.
  - exists r', h'. split; [exact E|]. rewrite !HC, Hn. by vm_compute.
Defined.

(** A row survives a checkpoint: the row read back has the columns of the row written. *)
Lemma read_columns_ok vs : forall i cols h cols' h', 0 <= i -> i + Z.of_nat (List.length vs) <= Z.of_nat (List.length cols) ->
  (forall k, i <= Z.of_nat k -> Z.of_nat k < i + Z.of_nat (List.length vs) -> cols !! k = Some 0) ->
  read_columns vs i cols h = (cols', h') ->
  List.length cols' = List.length cols /\ h ⊆ h' /\
  (forall k, Z.of_nat k < i \/ i + Z.of_nat (List.length vs) <= Z.of_nat k -> cols' !! k = cols !! k) /\
  (forall k v, vs !! k = Some v -> exists p, cols' !! (Z.to_nat i + k)%nat = Some p /\
     (p = 0 /\ v = [] \/ p <> 0 /\ h' !! p = Some v)).
Proof.
  induction vs as [|v vs IH]; intros i cols h cols' h' Hi Hlen Hz; cbn [read_columns].
  { intros [= <- <-]. by split_and!. }
  cbn [List.length] in *. destruct (make_column v h) as [p h1] eqn:Em. intros E.
  assert (Hrec : exists cols1, read_columns vs (i + 1) cols1 h1 = (cols', h') /\
    List.length cols1 = List.length cols /\ cols1 !! Z.to_nat i = Some p /\ forall k, k <> Z.to_nat i -> cols1 !! k = cols !! k).
  { destruct v as [|b v].
    - cbn in Em. injection Em as <- <-. exists cols. split_and!; try done. apply Hz; lia.
    - cbn in Em. injection Em as <- <-. exists (upd cols i (allocate h)). split_and!; [done|apply length_upd|apply upd_same; lia|].
      intros k Hk. by apply upd_other. }
  destruct Hrec as (cols1 & E1 & L1 & A1 & O1).
  destruct (IH (i + 1) cols1 h1 cols' h' ltac:(lia) ltac:(lia)) as (I1 & I2 & I3 & I4); [|done|].
  { intros k Hk1 Hk2. rewrite O1 by lia. apply Hz; lia. }
  destruct (make_column_spec _ _ _ _ Em) as [Hs Hp]. split_and!.
  - lia.
  - by trans h1.
  - intros k Hk. rewrite I3 by lia. apply O1. lia.
  - intros [|k] w; cbn.
    + intros [= <-]. exists p. rewrite Nat.add_0_r, I3 by lia. split; [done|].
      destruct Hp as [(-> & -> & _)|(H0 & _ & _ & ->)]; [by left|right]. split; [done|].
      eapply lookup_weaken; [apply lookup_insert_eq|exact I2].
    + intros Hk. destruct (I4 k w Hk) as (q & Hq & Hv). exists q. split; [|done].
      by replace (Z.to_nat i + S k)%nat with (Z.to_nat (i + 1) + k)%nat by lia.
Qed.

(** Reading what [checkpoint_write] wrote gives a row with the same number of
    columns, each with the same string, under the given time stamp, and leaves the strings
    of other rows alone. *)
Theorem checkpoint_roundtrip h r ts :
  let '(r', h') := checkpoint_read (checkpoint_write h r) ts h in
  ts_ r' = ts /\ ncol r' = ncol r /\ h ⊆ h' /\ forall i, col h' r' i = col h r i.
Proof.
  unfold checkpoint_read. set (vs := checkpoint_write h r).
  assert (Hl : Z.of_nat (List.length vs) = ncol r).
  { unfold vs, checkpoint_write. rewrite length_fmap, length_seqZ. unfold ncol. lia. }
  destruct (read_columns vs 0 _ h) as [cols' h'] eqn:E.
  apply read_columns_ok in E as (E1 & E2 & _ & E4); [|lia| |].
  2: { cbn. rewrite length_replicate. lia. }
  2: { intros k Hk1 Hk2. cbn. apply lookup_replicate_2. lia. }
  cbn in E1. rewrite length_replicate in E1.
  assert (Hn : ncol {| ts_ := ts; cols_ := cols' |} = ncol r) by (unfold ncol at 1; cbn; lia).
  split_and!; [done|done|done|]. intros i.
  destruct (decide (0 <= i < ncol r)) as [Hi|Hi]; [|by rewrite !col_out by lia].
  assert (Hv : vs !! Z.to_nat i = Some (col h r i)).
  { unfold vs, checkpoint_write. rewrite list_lookup_fmap, lookup_seqZ_lt by lia. cbn. f_equal. f_equal. lia. }
  destruct (E4 _ _ Hv) as (p & Hp & Hc). cbn in Hp.
  rewrite (col_in h' {| ts_ := ts; cols_ := cols' |} i p (proj1 Hi) Hp).
  destruct Hc as [[-> ->]|[H0 ->]]; [done|]. by destruct (Z.eqb_spec p 0).
Qed.
