(* ===== verification/ValueVersioned.v ===== *)
(** value_versioned_array.hh, value_versioned_array.cc: rows that are updated in place.

    A row has a version word, like a node: a writer, who holds the lock of the leaf, sets the
    dirty bit, stores the new columns and counts the version up; a reader copies the columns
    into a row of its own, its snapshot, and again until no version has passed.  As in
    ValueArray the strings of the columns live in a heap of their own.

    The first part has the operations of one thread, the module [Shared] a writer and a
    reader that interleave at every access to the row.  Memory is sequentially consistent. *)
From S2P Require Import Prelude ValueArray.
From Stdlib Require Import Sorted.

Module Versioned.

(** * The version word *)
Definition dirty (u : Z) : bool := tst u (2 ^ 31).
Definition ctr (u : Z) : Z := u .& (2 ^ 31 - 1).
Definition setdirty (u : Z) : Z := u .| 2 ^ 31.
Definition clear (u : Z) : Z := u .& (2 ^ 31 - 1).
Definition clearandbump (u : Z) : Z := wrap 32 (u + 1) .& (2 ^ 31 - 1).
(** One read of the loop of [stable]. *)
Definition stable (u : Z) : option Z := if dirty u then None else Some u.
Definition has_changed (v x : Z) : bool := negb (ctr x =? ctr v).

(** * The row *)

(** [cols_] is the allocated array: [ncol_cap_] pointers. *)
Record versioned := { ts_ : Z; ver_ : Z; ncol_ : Z; ncol_cap_ : Z; cols_ : list Z }.
Definition empty_row : versioned := {| ts_ := 0; ver_ := 0; ncol_ := 0; ncol_cap_ := 0; cols_ := [] |}.
Definition set_ver (u : Z) (r : versioned) : versioned :=
  {| ts_ := ts_ r; ver_ := u; ncol_ := ncol_ r; ncol_cap_ := ncol_cap_ r; cols_ := cols_ r |}.
Definition set_ncol (n : Z) (r : versioned) : versioned :=
  {| ts_ := ts_ r; ver_ := ver_ r; ncol_ := n; ncol_cap_ := ncol_cap_ r; cols_ := cols_ r |}.
Definition set_cols (cols : list Z) (r : versioned) : versioned :=
  {| ts_ := ts_ r; ver_ := ver_ r; ncol_ := ncol_ r; ncol_cap_ := ncol_cap_ r; cols_ := cols |}.

Definition col (h : heap) (r : versioned) (i : Z) : list Z :=
  if (0 <=? i) && (i <? ncol_ r) && negb (get (cols_ r) i =? 0) then default [] (h !! get (cols_ r) i) else [].
Definition shallow_size (n : Z) : Z := 16 + 8 * n.
Definition make_sized_row (n ts : Z) : versioned :=
  {| ts_ := ts; ver_ := 0; ncol_ := n; ncol_cap_ := n; cols_ := replicate (Z.to_nat n) 0 |}.

(** The loop of [update]: the strings it frees are the columns it replaces.  A store outside
    of the array is [None]. *)
Definition in_array (i : Z) (cols : list Z) : bool := (0 <=? i) && (i <? Z.of_nat (List.length cols)).
Fixpoint replace_columns (cs : changes) (cols : list Z) (h : heap) : option (list Z * heap * list Z) :=
  match cs with
  | [] => Some (cols, h, [])
  | (i, v) :: cs =>
      if in_array i cols then
        let freed := deallocate_column (get cols i) in
        let '(p, h) := make_column v h in
        '(cols, h, fs) ← replace_columns cs (upd cols i p) h;
        Some (cols, h, freed ++ fs)
      else None
  end.
(** The [memset] of the columns from [ncol_] to [n]. *)
Definition zero_columns (n : Z) (r : versioned) : versioned :=
  if ncol_ r <? n then
    set_cols (take (Z.to_nat (ncol_ r)) (cols_ r) ++ replicate (Z.to_nat (n - ncol_ r)) 0 ++
              drop (Z.to_nat n) (cols_ r)) r
  else r.
Definition grow_ncol (n : Z) (r : versioned) : versioned := if ncol_ r <? n then set_ncol n r else r.

(** [update] gives the row, whether it is a copy, the heap and the strings freed.  It is
    [None] without changes and where it writes outside of the row it allocated. *)
Definition update (cs : changes) (ts : Z) (always_copy : bool) (r : versioned) (h : heap) :
    option (versioned * bool * heap * list Z) :=
  '(li, _) ← list.last cs;
  let n := li + 1 in
  if (ncol_cap_ r <? n) || always_copy then
    if n <? ncol_ r then None else
    let cols := take (Z.to_nat (ncol_ r)) (cols_ r) ++ replicate (Z.to_nat (n - ncol_ r)) 0 in
    '(cols, h, freed) ← replace_columns cs cols h;
    Some ({| ts_ := ts; ver_ := 0; ncol_ := n; ncol_cap_ := n; cols_ := cols |}, true, h, freed)
  else
    let r := grow_ncol n (set_ver (setdirty (ver_ r)) (zero_columns n r)) in
    '(cols, h, freed) ← replace_columns cs (cols_ r) h;
    Some (set_ver (clearandbump (ver_ r)) (set_cols cols r), false, h, freed).
Definition create (cs : changes) (ts : Z) (h : heap) : option (versioned * bool * heap * list Z) :=
  update cs ts true empty_row h.
Definition create1 (v : list Z) (ts : Z) (h : heap) : versioned * heap :=
  let '(p, h) := make_column v h in
  ({| ts_ := ts; ver_ := 0; ncol_ := 1; ncol_cap_ := 1; cols_ := [p] |}, h).

(** What dropping a row frees: strings, and the size given for the memory of the row.
    [deallocate_rcu] defers the same.  After an update by copy only the row goes. *)
Definition deallocate (r : versioned) : list Z * Z :=
  (List.concat (deallocate_column <$> take (Z.to_nat (ncol_ r)) (cols_ r)), shallow_size (ncol_ r)).
Definition deallocate_rcu_after_update (r : versioned) : list Z * Z := ([], shallow_size (ncol_ r)).

Definition checkpoint_write (h : heap) (r : versioned) : list (list Z) := col h r <$> seqZ 0 (ncol_ r).
Fixpoint read_columns (vs : list (list Z)) (i : Z) (cols : list Z) (h : heap) : list Z * heap :=
  match vs with
  | [] => (cols, h)
  | v :: vs => let '(p, h) := make_column v h in read_columns vs (i + 1) (upd cols i p) h
  end.
Definition checkpoint_read (vs : list (list Z)) (ts : Z) (h : heap) : versioned * heap :=
  let r := make_sized_row (Z.of_nat (List.length vs)) ts in
  let '(cols, h) := read_columns vs 0 (cols_ r) h in (set_cols cols r, h).

(** * Snapshots *)

(** The storage of the query is used again if it is large enough. *)
Definition prepare (storage : option versioned) (r : versioned) : versioned * (list Z * Z) :=
  let '(s, freed) :=
    match storage with
    | Some s => if ncol_cap_ s <? ncol_ r then (make_sized_row (ncol_ r) (ts_ r), deallocate s) else (s, ([], 0))
    | None => (make_sized_row (ncol_ r) (ts_ r), ([], 0))
    end in
  (set_ncol (ncol_ r) s, freed).
(** The columns that a round copies. *)
Definition wanted (f : list Z) (n : Z) : list Z := match f with [i] => [i] | _ => seqZ 0 n end.
Definition copy_column (r : versioned) (i : Z) (s : versioned) : option versioned :=
  if in_array i (cols_ r) && in_array i (cols_ s) then Some (set_cols (upd (cols_ s) i (get (cols_ r) i)) s) else None.
(** One round: the assignment or the [memcpy]. *)
Definition copies (r : versioned) (l : list Z) (s : versioned) : option versioned :=
  foldl (fun s i => s ≫= copy_column r i) (Some s) l.
(** [snapshot] of a row that nobody writes: the second version is the first. *)
Definition snapshot (storage : option versioned) (f : list Z) (r : versioned) : option (versioned * (list Z * Z)) :=
  let '(s, freed) := prepare storage r in
  v1 ← stable (ver_ r);
  s ← copies r (wanted f (ncol_ s)) s;
  v2 ← stable (ver_ r);
  if has_changed v1 v2 then None else Some (s, freed).

(** * Facts of the version word *)

Lemma low_bits u : u .& (2 ^ 31 - 1) = wrap 31 u.
Proof. unfold wrap. rewrite <- Z.land_ones by lia. by rewrite Z.ones_equiv. Qed.
Lemma wrap_low u : wrap 31 (wrap 32 u) = wrap 31 u.
Proof. zwrap. Qed.
Lemma ctr_wrap k : ctr (wrap 31 k) = wrap 31 k.
Proof. unfold ctr. rewrite low_bits. apply wrap_wrap. Qed.
Lemma no_dirty k : wrap 31 k .& 2 ^ 31 = 0.
Proof.
  apply Z.bits_inj'. intros i Hi. rewrite Z.land_spec, Z.bits_0, Z.pow2_bits_eqb by lia.
  destruct (Z.eqb_spec 31 i) as [<-|]; [|by rewrite andb_false_r].
  rewrite (testbit_high 31 _ 31); [done|by apply wrap_range|lia].
Qed.
Lemma clean_wrap k : dirty (wrap 31 k) = false.
Proof. unfold dirty, tst. by rewrite no_dirty. Qed.
Lemma dirty_set u : dirty (setdirty u) = true.
Proof.
  unfold dirty, tst, setdirty. by replace ((u .| 2 ^ 31) .& 2 ^ 31) with (2 ^ 31) by
    (apply Z.bits_inj'; intros i Hi; rewrite Z.land_spec, Z.lor_spec; by destruct (Z.testbit u i), (Z.testbit _ i)).
Qed.
Lemma bump_set k : clearandbump (setdirty (wrap 31 k)) = wrap 31 (k + 1).
Proof.
  unfold clearandbump, setdirty. rewrite low_bits, wrap_low, lor_clear_add by apply no_dirty. zwrap.
Qed.
Lemma changed_wrap a b : a <= b < a + 2 ^ 31 -> has_changed (wrap 31 a) (wrap 31 b) = false -> a = b.
Proof.
  unfold has_changed. rewrite !ctr_wrap. intros H E%negb_false_iff%Z.eqb_eq. zwrap.
Qed.

Lemma in_array_spec i cols : in_array i cols = true <-> 0 <= i < Z.of_nat (List.length cols).
Proof. unfold in_array. rewrite andb_true_iff, Z.leb_le, Z.ltb_lt. done. Qed.

(** * Concurrent readers *)
Module Shared.

(** Where the writer is: before [setdirty], before the store of [ncol_], in the loop. *)
Inductive writer := Idle | Dirty (cs : changes) | Size (cs : changes) | Store (cs : changes).
(** Where the reader is: before the first version, in a round with the columns left to copy. *)
Inductive reader := Ready | First (f : list Z) (s : versioned)
  | Copy (v1 : Z) (f rest : list Z) (s : versioned) | Done (f : list Z) (s : versioned).

(** The contents of the row after each update, the number of updates done when the snapshot
    began, when its last round began and when it ended are kept for the statements only.  A
    reader writes nothing shared, so that one stands for any number. *)
Record state := {
  row : versioned; strings : heap; writing : writer; reading : reader;
  commits : list (list (list Z)); since : Z; round : Z; until : Z }.
Definition init (r : versioned) (h : heap) : state :=
  {| row := r; strings := h; writing := Idle; reading := Ready; commits := [checkpoint_write h r];
     since := 0; round := 0; until := 0 |}.
Definition updates (st : state) : Z := Z.of_nat (List.length (commits st)) - 1.

Definition put_row (r : versioned) (h : heap) (w : writer) (st : state) : state :=
  {| row := r; strings := h; writing := w; reading := reading st; commits := commits st;
     since := since st; round := round st; until := until st |}.
Definition commit (st : state) : state :=
  {| row := row st; strings := strings st; writing := writing st; reading := reading st;
     commits := commits st ++ [checkpoint_write (strings st) (row st)];
     since := since st; round := round st; until := until st |}.
Definition put_reader (c : reader) (a b e : Z) (st : state) : state :=
  {| row := row st; strings := strings st; writing := writing st; reading := c; commits := commits st;
     since := a; round := b; until := e |}.

(** An update that fits in the row begins, or a snapshot; the writer or the reader goes on.
    The strings freed stay until no reader is left, see Rcu. *)
Inductive action := Update (cs : changes) | Snapshot (storage : option versioned) (f : list Z) | Write | Read.

Definition write (st : state) : option state :=
  let r := row st in
  match writing st with
  | Idle => None
  | Dirty cs => Some (put_row (set_ver (setdirty (ver_ r)) r) (strings st) (Size cs) st)
  | Size cs =>
      '(li, _) ← list.last cs;
      Some (put_row (grow_ncol (li + 1) r) (strings st) (Store cs) st)
  | Store ((i, v) :: cs) =>
      if in_array i (cols_ r) then
        let '(p, h) := make_column v (strings st) in
        Some (put_row (set_cols (upd (cols_ r) i p) r) h (Store cs) st)
      else None
  | Store [] => Some (commit (put_row (set_ver (clearandbump (ver_ r)) r) (strings st) Idle st))
  end.

Definition read (st : state) : option state :=
  let r := row st in
  let begin f s v := put_reader (Copy v f (wanted f (ncol_ s)) s) (since st) (updates st) (until st) st in
  match reading st with
  | First f s => Some (match stable (ver_ r) with None => st | Some v1 => begin f s v1 end)
  | Copy v1 f (i :: rest) s =>
      s ← copy_column r i s;
      Some (put_reader (Copy v1 f rest s) (since st) (round st) (until st) st)
  | Copy v1 f [] s =>
      Some match stable (ver_ r) with
           | None => st
           | Some v2 =>
               if has_changed v1 v2 then begin f s v2
               else put_reader (Done f s) (since st) (round st) (updates st) st
           end
  | _ => None
  end.

Definition step (a : action) (st : state) : option state :=
  match a with
  | Update cs =>
      '(li, _) ← list.last cs;
      match writing st with
      | Idle =>
          if ncol_cap_ (row st) <? li + 1 then None
          else Some (put_row (zero_columns (li + 1) (row st)) (strings st) (Dirty cs) st)
      | _ => None
      end
  | Snapshot storage f =>
      match reading st with
      | Ready | Done _ _ =>
          let '(s, _) := prepare storage (row st) in
          Some (put_reader (First f s) (updates st) (updates st) (updates st) st)
      | _ => None
      end
  | Write => write st
  | Read => read st
  end.
Fixpoint run (l : list action) (st : state) : option state :=
  match l with [] => Some st | a :: l => step a st ≫= run l end.

(** ** The invariant *)

Definition busy (w : writer) : bool := match w with Size _ | Store _ => true | _ => false end.
(** The string that a pointer stands for. *)
Definition points (h : heap) (p : Z) (v : list Z) : Prop := p = 0 /\ v = [] \/ p <> 0 /\ h !! p = Some v.
Definition has_column (h : heap) (s : versioned) (c : list (list Z)) (i : Z) : Prop :=
  0 <= i /\ exists v, c !! Z.to_nat i = Some v /\ points h (get (cols_ s) i) v.
(** The state of the reader, for [n] columns. *)
Definition reader_ok (n : Z) (st : state) : Prop :=
  match reading st with
  | Ready => True
  | First _ s => ncol_ s = n /\ since st <= updates st
  | Copy v1 f rest s => ncol_ s = n /\ v1 = wrap 31 (round st) /\ since st <= round st <= updates st /\
      exists had c, wanted f n = had ++ rest /\ commits st !! Z.to_nat (round st) = Some c /\
        (busy (writing st) = false -> round st = updates st -> Forall (has_column (strings st) s c) had)
  | Done f s => ncol_ s = n /\ since st <= round st <= until st /\ until st <= updates st /\
      (until st < round st + 2 ^ 31 -> exists c, commits st !! Z.to_nat (round st) = Some c /\
         Forall (has_column (strings st) s c) (wanted f n))
  end.
Definition fits (n : Z) (w : writer) : Prop :=
  match w with Dirty cs | Size cs => exists li lv, list.last cs = Some (li, lv) /\ li < n | _ => True end.
Record inv (n : Z) (st : state) : Prop := {
  iv_ncol : ncol_ (row st) = n;
  iv_cap : ncol_cap_ (row st) = n;
  iv_len : Z.of_nat (List.length (cols_ (row st))) = n;
  iv_ver : ver_ (row st) = if busy (writing st) then setdirty (wrap 31 (updates st)) else wrap 31 (updates st);
  iv_strings : Forall (fun p => exists v, points (strings st) p v) (cols_ (row st));
  iv_commits : 0 <= updates st;
  iv_clean : busy (writing st) = false -> list.last (commits st) = Some (checkpoint_write (strings st) (row st));
  iv_fits : fits n (writing st);
  iv_reader : reader_ok n st }.

Lemma make_column_points v h p h' : make_column v h = (p, h') ->
  points h' p v /\ forall q w, points h q w -> points h' q w.
Proof.
  intros [S H]%make_column_spec. split.
  - destruct H as [(-> & -> & _)|(H & _ & _ & ->)]; [by left|right]. split; [done|]. apply lookup_insert_eq.
  - intros q w [?|[? ?]]; [by left|right]. split; [done|]. by eapply lookup_weaken.
Qed.
Lemma has_column_mono h h' s c i : (forall q w, points h q w -> points h' q w) -> has_column h s c i -> has_column h' s c i.
Proof. intros M (H & v & Hv & P). split; [done|]. exists v. auto. Qed.

(** The contents of a row, column by column. *)
Lemma col_points h r i v : 0 <= i < ncol_ r -> points h (get (cols_ r) i) v -> col h r i = v.
Proof.
  intros H P. unfold col. destruct (Z.leb_spec 0 i), (Z.ltb_spec i (ncol_ r)); try lia. cbn.
  destruct P as [[-> ->]|[N ->]]; [done|]. by destruct (Z.eqb_spec (get (cols_ r) i) 0).
Qed.
Lemma contents_lookup h r i : 0 <= i < ncol_ r -> checkpoint_write h r !! Z.to_nat i = Some (col h r i).
Proof.
  intros H. unfold checkpoint_write. rewrite list_lookup_fmap, lookup_seqZ_lt by lia. cbn. do 2 f_equal. lia.
Qed.

(** A column that is copied while no update is on the way. *)
Lemma copied n st s i s' : inv n st -> busy (writing st) = false -> copy_column (row st) i s = Some s' ->
  exists c, commits st !! Z.to_nat (updates st) = Some c /\ has_column (strings st) s' c i.
Proof.
  intros I B. unfold copy_column. destruct (in_array i (cols_ (row st))) eqn:E1, (in_array i (cols_ s)) eqn:E2; try done.
  rewrite in_array_spec in E1, E2. intros [= <-].
  pose proof (iv_clean _ _ I B) as C. rewrite last_lookup in C. exists (checkpoint_write (strings st) (row st)). split.
  { rewrite <- C. unfold updates. f_equal. lia. }
  pose proof (iv_len _ _ I). pose proof (iv_ncol _ _ I). split; [lia|].
  pose proof (iv_strings _ _ I) as F. rewrite Forall_lookup in F.
  destruct (F (Z.to_nat i) (get (cols_ (row st)) i)) as [v P]; [apply get_lookup'; lia|].
  exists v. cbn. rewrite get_upd_eq by lia. split; [|done].
  rewrite contents_lookup by lia. f_equal. apply col_points; [lia|done].
Qed.
Lemma copied_others h i r s s' c j : copy_column r i s = Some s' -> j <> i -> has_column h s c j -> has_column h s' c j.
Proof.
  unfold copy_column. destruct (_ && _); [|done]. intros [= <-] N (H & v & Hv & P). split; [done|]. exists v.
  cbn. by rewrite get_upd_ne by done.
Qed.
Lemma copy_keeps r i s s' : copy_column r i s = Some s' -> ncol_ s' = ncol_ s.
Proof. unfold copy_column. destruct (_ && _); [|done]. by intros [= <-]. Qed.

(** The writer changes neither what the reader has nor the contents of the past. *)
Lemma reader_frame n st st' :
  reading st' = reading st -> since st' = since st -> round st' = round st -> until st' = until st ->
  (forall q w, points (strings st) q w -> points (strings st') q w) ->
  (exists l, commits st' = commits st ++ l) ->
  (busy (writing st') = false -> updates st' = updates st -> busy (writing st) = false) ->
  reader_ok n st -> reader_ok n st'.
Proof.
  intros E1 E2 E3 E4 M [l L] B. unfold reader_ok. rewrite E1, E2, E3, E4.
  assert (U : updates st <= updates st') by (unfold updates; rewrite L, length_app; lia).
  destruct (reading st) as [|f s|v1 f rest s|f s]; [done|naive_solver lia| |].
  - intros (? & ? & ? & had & c & W & C & H). split_and!; try done; [lia..|]. exists had, c. split_and!; [done| |].
    + rewrite L. by apply lookup_app_l_Some.
    + intros B' R. eapply Forall_impl; [|apply H; [apply B; [done|lia]|lia]]. intros j. by apply (has_column_mono (strings st)).
  - intros (? & ? & ? & H). split_and!; try done; [lia..|]. intros T. destruct (H T) as (c & C & F).
    exists c. split; [rewrite L; by apply lookup_app_l_Some|]. eapply Forall_impl; [|exact F].
    intros j. by apply (has_column_mono (strings st)).
Qed.

Lemma prepare_ncol storage r s freed : prepare storage r = (s, freed) -> ncol_ s = ncol_ r.
Proof. unfold prepare. destruct storage as [s0|]; [destruct (_ <? _)|]; by intros [= <- _]. Qed.

(** The writer's state [w] in [inv]: only the row, the heap and the commits change. *)
Lemma inv_writer n st st' : inv n st ->
  ncol_ (row st') = n -> ncol_cap_ (row st') = n -> List.length (cols_ (row st')) = List.length (cols_ (row st)) ->
  ver_ (row st') = (if busy (writing st') then setdirty (wrap 31 (updates st')) else wrap 31 (updates st')) ->
  Forall (fun p => exists v, points (strings st') p v) (cols_ (row st')) ->
  (busy (writing st') = false -> list.last (commits st') = Some (checkpoint_write (strings st') (row st'))) ->
  reading st' = reading st -> since st' = since st -> round st' = round st -> until st' = until st ->
  (forall q w, points (strings st) q w -> points (strings st') q w) ->
  (exists l, commits st' = commits st ++ l) ->
  (busy (writing st') = false -> updates st' = updates st -> busy (writing st) = false) ->
  fits n (writing st') -> inv n st'.
Proof.
  intros I N C L V S K E1 E2 E3 E4 M A B F. split; try done.
  - rewrite L. apply (iv_len _ _ I).
  - destruct A as [l A]. pose proof (iv_commits _ _ I). unfold updates in *. rewrite A, length_app. lia.
  - by eapply reader_frame, (iv_reader _ _ I).
Qed.

Lemma inv_write n st st' : inv n st -> write st = Some st' -> inv n st'.
Proof.
  intros I. pose proof (iv_ver _ _ I) as V. pose proof (iv_clean _ _ I) as K. pose proof (iv_fits _ _ I) as B.
  unfold write. destruct (writing st) as [|cs|cs|[|[i v] cs]] eqn:W; [done| | | |]; cbn [busy fits] in *.
  - intros [= <-]. apply (inv_writer n st); cbn; rewrite ?W; try done; try apply I.
    + by rewrite V.
    + exists []. by rewrite app_nil_r.
  - destruct B as (li & lv & -> & B). cbn. intros [= <-]. pose proof (iv_ncol _ _ I) as N.
    assert (G : grow_ncol (li + 1) (row st) = row st).
    { unfold grow_ncol. destruct (Z.ltb_spec (ncol_ (row st)) (li + 1)); [lia|done]. }
    apply (inv_writer n st); cbn; rewrite ?G, ?W; try done; try apply I.
    exists []. by rewrite app_nil_r.
  - intros [= <-].
    assert (U : forall x, Z.of_nat (List.length (commits st ++ [x])) - 1 = updates st + 1).
    { intros x. unfold updates. rewrite length_app. cbn. lia. }
    apply (inv_writer n st); cbn; rewrite ?W; try done; try apply I.
    + rewrite V, bump_set. unfold updates at 2. cbn. by rewrite U.
    + intros _. by rewrite last_snoc.
    + by eexists.
    + intros _. unfold updates at 1. cbn. rewrite U. lia.
  - destruct (in_array i _) eqn:A; [|done]. destruct (make_column v _) as [p h] eqn:Em. intros [= <-].
    destruct (make_column_points _ _ _ _ Em) as [P M]. apply in_array_spec in A.
    apply (inv_writer n st); cbn; rewrite ?W; try done; try apply I.
    + apply length_upd.
    + unfold upd. destruct (Z.ltb_spec i 0); [lia|]. apply Forall_insert; [|by exists v].
      eapply Forall_impl; [|apply (iv_strings _ _ I)]. cbn. intros q [w Q]. exists w. auto.
    + exists []. by rewrite app_nil_r.
Qed.

(** The reader's steps change only what [reader_ok] is about. *)
Lemma inv_reading n st c a b e : inv n st -> reader_ok n (put_reader c a b e st) -> inv n (put_reader c a b e st).
Proof. intros [] R. by split. Qed.
Lemma inv_round n st f s : inv n st -> ncol_ s = n -> since st <= updates st -> busy (writing st) = false ->
  inv n (put_reader (Copy (ver_ (row st)) f (wanted f (ncol_ s)) s) (since st) (updates st) (until st) st).
Proof.
  intros I N S B. apply inv_reading; [done|]. unfold reader_ok. cbn. pose proof (iv_ver _ _ I) as V. rewrite B in V.
  pose proof (iv_clean _ _ I B) as C. rewrite last_lookup in C. change (updates (put_reader _ _ _ _ _)) with (updates st).
  split_and!; [done..|lia|]. exists []. eexists. split_and!; [by rewrite N| |by constructor].
  rewrite <- C. unfold updates. f_equal. lia.
Qed.
Lemma stable_clean n st u : inv n st -> stable (ver_ (row st)) = Some u ->
  u = ver_ (row st) /\ busy (writing st) = false /\ u = wrap 31 (updates st).
Proof.
  intros I. rewrite (iv_ver _ _ I). unfold stable. destruct (busy (writing st)); [by rewrite dirty_set|].
  rewrite clean_wrap. by intros [= <-].
Qed.

Lemma inv_read n st st' : inv n st -> read st = Some st' -> inv n st'.
Proof.
  intros I. pose proof (iv_reader _ _ I) as R. unfold read, reader_ok in *.
  destruct (reading st) as [|f s|v1 f [|i rest] s|f s]; [done| | | |done].
  - destruct R as [N S]. intros [= <-]. destruct (stable _) as [u|] eqn:E; [|done].
    destruct (stable_clean _ _ _ I E) as (-> & B & _). by apply inv_round.
  - destruct R as (N & V & S & had & c & W & C & H). intros [= <-]. destruct (stable _) as [u|] eqn:E; [|done].
    destruct (stable_clean _ _ _ I E) as (Eu & B & Ev). destruct (has_changed v1 u) eqn:X.
    + rewrite Eu. apply inv_round; try done. lia.
    + apply inv_reading; [done|]. unfold reader_ok. cbn. change (updates (put_reader _ _ _ _ _)) with (updates st).
      split_and!; [done|lia..|]. intros T. rewrite app_nil_r in W. subst had. exists c. split; [done|].
      apply H; [done|]. apply changed_wrap; [lia|]. by rewrite <- V, <- Ev.
  - destruct R as (N & V & S & had & c & W & C & H). destruct (copy_column _ i s) as [s'|] eqn:E; [|done]. cbn.
    intros [= <-]. apply inv_reading; [done|]. unfold reader_ok. cbn. change (updates (put_reader _ _ _ _ _)) with (updates st).
    split_and!; try lia; [by erewrite copy_keeps|]. exists (had ++ [i]), c. split_and!; [by rewrite <- app_assoc|done|].
    intros B T. destruct (copied _ _ _ _ _ I B E) as (c' & C' & K). rewrite <- T, C in C'. injection C' as <-.
    apply Forall_app. split; [|by constructor]. eapply Forall_impl; [|by apply H]. cbn. intros j J.
    destruct (decide (j = i)) as [->|D]; [done|]. by eapply copied_others.
Qed.

Lemma inv_action n a st st' : inv n st -> step a st = Some st' -> inv n st'.
Proof.
  intros I. destruct a as [cs|storage f| |]; cbn; [| |by apply inv_write|by apply inv_read].
  - destruct (list.last cs) as [[li lv]|] eqn:El; [|done]. cbn. destruct (writing st) eqn:W; try done.
    destruct (Z.ltb_spec (ncol_cap_ (row st)) (li + 1)) as [|L]; [done|]. intros [= <-].
    rewrite (iv_cap _ _ I) in L. pose proof (iv_ncol _ _ I). pose proof (iv_ver _ _ I) as V.
    pose proof (iv_clean _ _ I) as K. rewrite W in V, K.
    assert (G : zero_columns (li + 1) (row st) = row st).
    { unfold zero_columns. destruct (Z.ltb_spec (ncol_ (row st)) (li + 1)); [lia|done]. }
    rewrite G. apply (inv_writer n st); cbn; rewrite ?W; try done; try apply I; [by exists []; rewrite app_nil_r|].
    exists li, lv. split; [done|lia].
  - destruct (prepare storage (row st)) as [s freed] eqn:E. apply prepare_ncol in E. pose proof (iv_ncol _ _ I).
    pose proof (iv_commits _ _ I).
    destruct (reading st); try done; intros [= <-]; (apply inv_reading; [done|]); unfold reader_ok; cbn;
      change (updates (put_reader _ _ _ _ _)) with (updates st); (split; [congruence|lia]).
Qed.

(** A row as it is when it enters the tree. *)
Record new_row (h : heap) (r : versioned) : Prop := {
  nr_ver : ver_ r = 0;
  nr_cap : ncol_cap_ r = ncol_ r;
  nr_len : Z.of_nat (List.length (cols_ r)) = ncol_ r;
  nr_strings : Forall (fun p => p = 0 \/ h !! p <> None) (cols_ r) }.
Lemma inv_new h r : new_row h r -> inv (ncol_ r) (init r h).
Proof.
  intros []. split; cbn; try done. eapply Forall_impl; [|done]. cbn. intros p [->|N]; [by exists []; left|].
  destruct (decide (p = 0)) as [->|D]; [by exists []; left|]. destruct (h !! p) as [v|] eqn:E; [|done]. exists v. by right.
Qed.
Lemma inv_run n l : forall st st', inv n st -> run l st = Some st' -> inv n st'.
Proof.
  induction l as [|a l IH]; cbn; intros st st' I; [by intros [= <-]|].
  destruct (step a st) as [st1|] eqn:E; [|done]. cbn. apply IH. by eapply inv_action.
Qed.

(** [C20]. Readers of a row that is updated in place.  For any interleaving of updates and
    snapshots of a row: when a snapshot is done, and fewer than 2^31 updates passed during its
    last round, each column it copied has the string that the column had in one version of
    the row, and that version was current at a moment between the begin and the end of the
    snapshot.  No copy mixes two versions. *)
Theorem snapshot_consistent l r h st f s : new_row h r -> run l (init r h) = Some st -> reading st = Done f s ->
  until st < round st + 2 ^ 31 ->
  since st <= round st <= until st /\ ncol_ s = ncol_ r /\
  exists c, commits st !! Z.to_nat (round st) = Some c /\
    forall i, i ∈ wanted f (ncol_ r) -> i < ncol_ r -> c !! Z.to_nat i = Some (col (strings st) s i).
Proof.
  intros N R D T. pose proof (iv_reader _ _ (inv_run _ _ _ _ (inv_new _ _ N) R)) as O. unfold reader_ok in O.
  rewrite D in O. destruct O as (E & S & _ & H). split_and!; [lia..|done|]. destruct (H T) as (c & C & F).
  exists c. split; [done|]. intros i Hi L. rewrite Forall_forall in F.
  destruct (F i ltac:(by apply list_elem_of_In)) as (P & v & Hv & W). rewrite Hv. f_equal. symmetry.
  apply col_points; [lia|done].
Qed.

Definition wit_row : versioned := {| ts_ := 5; ver_ := 0; ncol_ := 2; ncol_cap_ := 2; cols_ := [1; 2] |}.
Definition wit_heap : heap := <[1 := [97]]> (<[2 := [98]]> ∅).
Lemma wit_new_row : new_row wit_heap wit_row.
Proof. split; try done. apply Forall_cons; [|apply Forall_cons; [|apply Forall_nil]]; try done; right; by vm_compute. Qed.
Definition wit_change : changes := [(0, [120]); (1, [121])].
(** The snapshot begins, copies a column, the row changes, and a second round follows. *)
Definition wit_run : list action :=
  [Snapshot None []; Read; Read; Update wit_change; Write; Write; Write; Read; Write; Write; Read; Read; Read; Read].
Lemma snapshot_consistent_witness : exists st s c, run wit_run (init wit_row wit_heap) = Some st /\
  reading st = Done [] s /\ round st = 1 /\ commits st !! 1%nat = Some c /\ c = [[120]; [121]] /\
  c !! 0%nat = Some (col (strings st) s 0) /\ c !! 1%nat = Some (col (strings st) s 1).
Proof.
  eexists _, _, _. split; [vm_compute; reflexivity|]. split; [reflexivity|]. do 3 (split; [reflexivity|]).
  destruct (snapshot_consistent wit_run wit_row wit_heap _ _ _ wit_new_row ltac:(vm_compute; reflexivity)
    ltac:(reflexivity) ltac:(reflexivity)) as (_ & _ & c & C & H).
  injection C as <-. split; [apply (H 0)|apply (H 1)]; (done || (vm_compute; by repeat constructor)).
Defined.

(** ** The bound of the version word *)

(** An update that empties a column that is empty leaves the row as it is, but for the
    version. *)
Definition null_update : list action := [Update [(0, [])]; Write; Write; Write; Write].
Definition idle_state (u : Z) (q : Z) (h : heap) (c : reader) (C : list (list (list Z))) (a b e : Z) : state :=
  {| row := {| ts_ := 5; ver_ := wrap 31 u; ncol_ := 2; ncol_cap_ := 2; cols_ := [0; q] |}; strings := h;
     writing := Idle; reading := c; commits := C; since := a; round := b; until := e |}.
Lemma run_null u q h c C a b e :
  run null_update (idle_state u q h c C a b e) =
  Some (idle_state (u + 1) q h c (C ++ [checkpoint_write h {| ts_ := 5; ver_ := 0; ncol_ := 2; ncol_cap_ := 2; cols_ := [0; q] |}]) a b e).
Proof. unfold idle_state. rewrite <- bump_set. reflexivity. Qed.
Lemma run_append l1 l2 st : run (l1 ++ l2) st = run l1 st ≫= run l2.
Proof. revert st. induction l1 as [|a l IH]; intros st; cbn; [done|]. destruct (step a st); cbn; [apply IH|done]. Qed.
Lemma run_nulls k : forall u q h c C a b e, exists l,
  run l (idle_state u q h c C a b e) = Some (idle_state (u + Z.of_nat k) q h c
    (C ++ replicate k (checkpoint_write h {| ts_ := 5; ver_ := 0; ncol_ := 2; ncol_cap_ := 2; cols_ := [0; q] |})) a b e).
Proof.
  induction k as [|k IH]; intros u q h c C a b e.
  - exists []. by rewrite Z.add_0_r, app_nil_r.
  - edestruct (IH (u + 1)) as [l E]. exists (null_update ++ l). rewrite run_append, run_null. cbn [mbind option_bind].
    rewrite E. f_equal. f_equal; [lia|]. by rewrite <- app_assoc.
Qed.

Lemma two_columns h p q v w ts u cap : points h p v -> points h q w ->
  checkpoint_write h {| ts_ := ts; ver_ := u; ncol_ := 2; ncol_cap_ := cap; cols_ := [p; q] |} = [v; w].
Proof.
  intros P Q. unfold checkpoint_write. change (seqZ 0 _) with [0; 1]. rewrite !fmap_cons.
  erewrite !col_points; [done|done|exact Q|done|exact P].
Qed.

(** [C36]. The bound of [snapshot_consistent] is sharp.  There is a run in which exactly 2^31
    updates pass while a snapshot copies: it is taken for consistent, since the count of the
    version has come back, and its columns are those of no version that the row ever had. *)
Theorem snapshot_wraps : exists l st s, new_row wit_heap wit_row /\ run l (init wit_row wit_heap) = Some st /\
  reading st = Done [] s /\ until st = round st + 2 ^ 31 /\
  Forall (fun c => c <> checkpoint_write (strings st) s) (commits st).
Proof.
  set (l0 := [Snapshot None []; Read; Read; Update wit_change; Write; Write; Write; Write; Write] ++ null_update).
  set (s0 := set_cols [1; 0] (make_sized_row 2 5)).
  assert (P : exists q h, run l0 (init wit_row wit_heap) =
      Some (idle_state 2 q h (Copy 0 [] [1] s0) [[[97]; [98]]; [[120]; [121]]; [[]; [121]]] 0 0 0) /\
    q <> 0 /\ h !! q = Some [121] /\ h !! 1 = Some [97]).
  { eexists _, _. split; [vm_compute; reflexivity|]. split_and!; by vm_compute. }
  destruct P as (q & h & P & Q & H1 & H2).
  assert (K : exists k, Z.of_nat k = 2 ^ 31 - 2) by (exists (Z.to_nat (2 ^ 31 - 2)); lia). destruct K as [k K].
  destruct (run_nulls k 2 q h (Copy 0 [] [1] s0) [[[97]; [98]]; [[120]; [121]]; [[]; [121]]] 0 0 0) as [l E].
  replace (2 + Z.of_nat k) with (2 ^ 31) in E by lia.
  assert (W : checkpoint_write h (set_cols [1; q] s0) = [[97]; [121]]).
  { apply two_columns; right; split; [lia|exact H2|exact Q|exact H1]. }
  assert (W' : checkpoint_write h {| ts_ := 5; ver_ := 0; ncol_ := 2; ncol_cap_ := 2; cols_ := [0; q] |} = [[]; [121]]).
  { apply two_columns; [left; split; reflexivity|right; split; [exact Q|exact H1]]. }
  rewrite W' in E. eexists (l0 ++ l ++ [Read; Read]), _, (set_cols [1; q] s0).
  split; [exact wit_new_row|]. split; [rewrite run_append, P; cbn [mbind option_bind]; rewrite run_append, E; reflexivity|].
  split; [reflexivity|]. split.
  - transitivity (Z.of_nat (List.length ([[[97]; [98]]; [[120]; [121]]; [[]; [121]]] ++ replicate k [[]; [121]])) - 1);
      [reflexivity|]. rewrite length_app, length_replicate. cbn [List.length]. transitivity (2 ^ 31); [lia|reflexivity].
  - change (strings _) with h. rewrite W.
    change (commits _) with ([[[97]; [98]]; [[120]; [121]]; [[]; [121]]] ++ replicate k [[]; [121]]).
    apply Forall_app. split; [by repeat constructor|]. by apply Forall_replicate.
Qed.
End Shared.

(** * Updates *)

(** The row of value_array.hh with the same columns. *)
Definition plain (r : versioned) : value_array := {| ValueArray.ts_ := ts_ r; ValueArray.cols_ := cols_ r |}.
(** A row in the tree: its array is full, and no writer is at it. *)
Record row_ok (h : heap) (r : versioned) : Prop := {
  ro_cap : ncol_cap_ r = ncol_ r;
  ro_len : Z.of_nat (List.length (cols_ r)) = ncol_ r;
  ro_wf : row_wf h (cols_ r);
  ro_ver : ver_ r = wrap 31 (ver_ r) }.
Lemma plain_ncol r h : row_ok h r -> ValueArray.ncol (plain r) = ncol_ r.
Proof. intros O. apply (ro_len _ _ O). Qed.
Lemma plain_col h r i : Z.of_nat (List.length (cols_ r)) = ncol_ r -> ValueArray.col h (plain r) i = col h r i.
Proof. unfold ValueArray.col, ValueArray.ncol, plain, col. cbn. by intros ->. Qed.

(** The loop is that of value_array.hh, and it frees the columns it replaces. *)
Lemma replace_set cs : forall cols h, NoDup (indices cs) ->
  (forall i, i ∈ indices cs -> 0 <= i < Z.of_nat (List.length cols)) ->
  replace_columns cs cols h =
  Some (set_columns cs cols h, deallocate_after_failed_update cs {| ValueArray.ts_ := 0; ValueArray.cols_ := cols |}).
Proof.
  induction cs as [|[i v] cs IH]; intros cols h N B; cbn [replace_columns set_columns]; [done|].
  cbn in N. apply list.NoDup_cons in N as [Ni N].
  assert (A : in_array i cols = true) by (apply in_array_spec, B; left). rewrite A.
  destruct (make_column v h) as [p h1]. rewrite IH; [|done|].
  2: { intros j Hj. rewrite length_upd. apply B. by right. }
  cbn [mbind option_bind]. destruct (set_columns cs _ h1) as [cols' h'].
  do 2 f_equal. unfold deallocate_after_failed_update. cbn. f_equal. f_equal.
  apply list_fmap_ext. intros k [j w] Hk. cbn. rewrite get_upd_ne; [done|]. intros ->. apply Ni.
  apply list_elem_of_fmap. exists (j, w). split; [done|]. by eapply list_elem_of_lookup_2.
Qed.

Lemma failed_cons i v cs r :
  deallocate_after_failed_update ((i, v) :: cs) r =
  deallocate_column (get (ValueArray.cols_ r) i) ++ deallocate_after_failed_update cs r.
Proof. done. Qed.
Lemma nth_replicate_0 k i : nth i (replicate k 0) 0 = 0.
Proof. revert i. induction k as [|k IH]; intros [|i]; cbn; done || apply IH. Qed.
(** New columns are empty, so that the strings freed are those of the old row. *)
Lemma freed_old cs r k : StronglySorted Z.lt (indices cs) -> (forall i, i ∈ indices cs -> 0 <= i) ->
  deallocate_after_failed_update cs {| ValueArray.ts_ := 0; ValueArray.cols_ := ValueArray.cols_ r ++ replicate k 0 |} =
  ValueArray.deallocate_rcu_after_update cs r.
Proof.
  intros S P. induction cs as [|[i v] cs IH]; [done|]. cbn in S. apply StronglySorted_inv in S as [S F].
  rewrite failed_cons, IH; [|done|intros j Hj; apply P; by right]. cbn.
  assert (0 <= i) by (apply P; left). unfold ncol, get. destruct (Z.ltb_spec i 0); [lia|].
  destruct (Z.ltb_spec i (Z.of_nat (List.length (ValueArray.cols_ r)))) as [L|L].
  - by rewrite app_nth1 by lia.
  - rewrite app_nth2 by lia. rewrite (nth_replicate_0 k). cbn. destruct cs as [|[j w] cs]; [done|]. cbn.
    apply Forall_inv in F. cbn in F. unfold ncol. destruct (Z.ltb_spec j (Z.of_nat (List.length (ValueArray.cols_ r)))); [lia|done].
Qed.

Lemma row_ok_new h r : row_ok h r -> ver_ r = 0 -> Shared.new_row h r.
Proof.
  intros [C L W _] V. split; try done. apply Forall_forall. intros p Hp%list_elem_of_In.
  destruct (decide (p = 0)) as [|N]; [by left|right]. destruct (rw_string _ _ W p Hp N) as (v & -> & _). done.
Qed.

(** The common part of the two branches of [update]. *)
Lemma replace_ok cs r h k cols h' : changes_ok cs -> row_wf h (cols_ r) ->
  (forall i, i ∈ indices cs -> 0 <= i < Z.of_nat (List.length (cols_ r) + k)) ->
  set_columns cs (cols_ r ++ replicate k 0) h = (cols, h') ->
  let r' := {| ValueArray.ts_ := 0; ValueArray.cols_ := cols |} in
  List.length cols = (List.length (cols_ r) + k)%nat /\ row_wf h' cols /\ h ⊆ h' /\
  (forall i, ValueArray.col h' r' i = default (ValueArray.col h (plain r) i) (assoc cs i)) /\
  exists freed, replace_columns cs (cols_ r ++ replicate k 0) h = Some (cols, h', freed) /\ NoDup freed /\
    forall p, p ∈ freed <-> p <> 0 /\ p ∈ cols_ r /\ p ∉ cols.
Proof.
  intros (S & F & _) W B E r'. pose proof (sorted_NoDup _ S) as N.
  assert (B' : forall i, i ∈ indices cs -> 0 <= i < Z.of_nat (List.length (cols_ r ++ replicate k 0))).
  { intros i Hi. rewrite length_app, length_replicate. by apply B. }
  pose proof (set_columns_ok _ _ _ _ _ N B' E) as O.
  assert (L : List.length cols = (List.length (cols_ r) + k)%nat) by by rewrite (so_len _ _ _ _ _ O), length_app, length_replicate.
  set (n := Z.of_nat (List.length (cols_ r) + k)).
  assert (K : Z.to_nat (n - ncol (plain r)) = k) by (unfold n, ncol; cbn; lia).
  assert (O' : set_ok cs (ValueArray.cols_ (plain r) ++ replicate (Z.to_nat (n - ncol (plain r))) 0) (ValueArray.cols_ r') h h') by by rewrite K.
  split; [done|]. split; [by apply (update_wf cs (plain r) r' h h' n)|]. split; [apply (so_heap _ _ _ _ _ O)|].
  split.
  { intros i. apply (update_col cs (plain r) r' h h' n); try done; unfold n, ncol; cbn; lia. }
  eexists. split; [by rewrite replace_set, E|]. split.
  - rewrite (freed_old cs (plain r)); [|done|intros i Hi; by apply B]. apply (freed_NoDup cs (plain r) h); [done| |done].
    eapply Forall_impl; [|exact F]. cbn. intros; lia.
  - intros p. rewrite (freed_old cs (plain r)); [|done|intros i Hi; by apply B].
    by apply (update_freed cs (plain r) r' h h' n).
Qed.

Lemma in_range cs r k : changes_ok cs ->
  (forall li lv, list.last cs = Some (li, lv) -> li < Z.of_nat (List.length (cols_ r) + k)) ->
  forall i, i ∈ indices cs -> 0 <= i < Z.of_nat (List.length (cols_ r) + k).
Proof.
  intros (S & F & N) B i Hi. destruct (list.last cs) as [[li lv]|] eqn:E; [|by apply last_None in E].
  specialize (B li lv eq_refl). rewrite Forall_forall in F. pose proof (F i ltac:(by apply list_elem_of_In)).
  pose proof (sorted_last _ li S ltac:(by rewrite fmap_last, E) i Hi). lia.
Qed.

(** [update] in the two cases. *)
Lemma update_inplace cs ts r h : changes_ok cs -> row_ok h r -> default 0 (list.last (indices cs)) < ncol_ r ->
  exists cols h' freed, replace_columns cs (cols_ r) h = Some (cols, h', freed) /\
    update cs ts false r h = Some (set_ver (clearandbump (setdirty (ver_ r))) (set_cols cols r), false, h', freed) /\
    set_columns cs (cols_ r ++ replicate 0 0) h = (cols, h').
Proof.
  intros C O L. destruct (set_columns cs (cols_ r ++ replicate 0 0) h) as [cols h'] eqn:E.
  unfold update. destruct (list.last cs) as [[li lv]|] eqn:El; [|by destruct C as (_ & _ & ?); apply last_None in El].
  rewrite fmap_last, El in L. cbn in L. pose proof (ro_len _ _ O).
  destruct (replace_ok cs r h 0 cols h' C (ro_wf _ _ O)) as (_ & _ & _ & _ & freed & R & _); [|done|].
  { apply in_range; [done|]. rewrite El. intros ? ? [= <- <-]. lia. }
  cbn [replicate] in R. rewrite app_nil_r in R. exists cols, h', freed. split; [done|]. split; [|done].
  cbn [mbind option_bind]. rewrite (ro_cap _ _ O). unfold zero_columns, grow_ncol. destruct (Z.ltb_spec (ncol_ r) (li + 1)); [lia|].
  cbn [orb ncol_ set_ver cols_]. destruct (Z.ltb_spec (ncol_ r) (li + 1)); [lia|]. cbn [cols_ set_ver]. by rewrite R.
Qed.
Lemma update_copy cs ts r h : changes_ok cs -> row_ok h r ->
  let n := default 0 (list.last (indices cs)) + 1 in ncol_ r < n ->
  exists cols h' freed, replace_columns cs (cols_ r ++ replicate (Z.to_nat (n - ncol_ r)) 0) h = Some (cols, h', freed) /\
    update cs ts false r h = Some ({| ts_ := ts; ver_ := 0; ncol_ := n; ncol_cap_ := n; cols_ := cols |}, true, h', freed) /\
    set_columns cs (cols_ r ++ replicate (Z.to_nat (n - ncol_ r)) 0) h = (cols, h').
Proof.
  intros C O n L. destruct (set_columns cs (cols_ r ++ replicate (Z.to_nat (n - ncol_ r)) 0) h) as [cols h'] eqn:E.
  unfold update. destruct (list.last cs) as [[li lv]|] eqn:El; [|by destruct C as (_ & _ & ?); apply last_None in El].
  subst n. rewrite fmap_last, El in *. cbn [default fmap option_fmap option_map fst from_option id] in *. pose proof (ro_len _ _ O).
  destruct (replace_ok cs r h (Z.to_nat (li + 1 - ncol_ r)) cols h' C (ro_wf _ _ O)) as (_ & _ & _ & _ & freed & R & _); [|done|].
  { apply in_range; [done|]. rewrite El. intros ? ? [= <- <-]. lia. }
  exists cols, h', freed. split; [done|]. split; [|done].
  cbn [mbind option_bind]. rewrite (ro_cap _ _ O). destruct (Z.ltb_spec (ncol_ r) (li + 1)); [|lia].
  cbn [orb]. destruct (Z.ltb_spec (li + 1) (ncol_ r)); [lia|]. rewrite take_ge by lia. by rewrite R.
Qed.

(** [C24]. Updating a row in place or by copy.  With the changed columns in increasing order
    [update] succeeds; the changed columns have the new values, the others the old ones.  A
    row with room for all changes is updated in place: its version goes up by one, modulo
    2^31, and its time stamp stays.  Otherwise the result is a copy with the new time stamp
    and just enough columns, of version 0.  Either way its array is full, so that no later
    update in place makes it longer; its strings have one owner each; and the strings that
    [update] hands to the collector are exactly those that the old row had and the new one has
    not, each once. *)
Theorem versioned_update cs ts r h : changes_ok cs -> row_ok h r ->
  let n := default 0 (list.last (indices cs)) + 1 in
  exists r' copied h' freed, update cs ts false r h = Some (r', copied, h', freed) /\
    row_ok h' r' /\ (forall i, col h' r' i = default (col h r i) (assoc cs i)) /\
    ncol_ r' = Z.max (ncol_ r) n /\ copied = bool_decide (ncol_ r < n) /\
    ts_ r' = (if copied then ts else ts_ r) /\ ver_ r' = (if copied then 0 else wrap 31 (ver_ r + 1)) /\
    h ⊆ h' /\ NoDup freed /\ forall p, p ∈ freed <-> p <> 0 /\ p ∈ cols_ r /\ p ∉ cols_ r'.
Proof.
  intros C O n. pose proof (ro_len _ _ O) as L. destruct (decide (ncol_ r < n)) as [D|D].
  - destruct (update_copy cs ts r h C O D) as (cols & h' & freed & R & U & E). fold n in R, U, E.
    destruct (replace_ok cs r h (Z.to_nat (n - ncol_ r)) cols h' C (ro_wf _ _ O)) as (L' & W & M & G & freed' & R' & N & X); [|done|].
    { apply in_range; [done|]. intros li lv El. subst n. rewrite fmap_last, El in *. cbn in *. lia. }
    rewrite R in R'. injection R' as <-. eexists _, true, h', freed. split; [exact U|].
    split; [split; cbn; try done; unfold n in *; lia|]. split; [|split_and!; cbn; try done; [lia|by rewrite bool_decide_true]].
    intros i. rewrite <- !plain_col by (cbn; unfold n in *; lia). apply (G i).
  - destruct (update_inplace cs ts r h C O ltac:(lia)) as (cols & h' & freed & R & U & E).
    destruct (replace_ok cs r h 0 cols h' C (ro_wf _ _ O)) as (L' & W & M & G & freed' & R' & N & X); [|done|].
    { apply in_range; [done|]. intros li lv El. subst n. rewrite fmap_last, El in *. cbn in *. lia. }
    cbn [replicate] in R'. rewrite app_nil_r, R in R'. injection R' as <-. eexists _, false, h', freed. split; [exact U|].
    pose proof (ro_ver _ _ O) as V. assert (B : clearandbump (setdirty (ver_ r)) = wrap 31 (ver_ r + 1)).
    { rewrite V at 1. rewrite bump_set. done. }
    split; [split; cbn; try done; [apply O|lia|by rewrite B, wrap_wrap]|].
    split; [|split_and!; cbn; try done; [lia|by rewrite bool_decide_false]].
    intros i. rewrite <- !plain_col by (cbn; lia). apply (G i).
Qed.
Lemma wit_row_ok : row_ok Shared.wit_heap Shared.wit_row.
Proof.
  split; try done. split.
  - intros p Hp H. apply elem_of_cons in Hp as [->|Hp]; [by exists [97]|]. apply list_elem_of_singleton in Hp as ->. by exists [98].
  - intros [|[|i]] [|[|j]] p H; cbn; congruence || (intros; simplify_eq).
Defined.
Lemma versioned_update_witness : exists r' h' freed,
  update [(0, [120])] 9 false Shared.wit_row Shared.wit_heap = Some (r', false, h', freed) /\
  col h' r' 0 = [120] /\ col h' r' 1 = [98] /\ ncol_ r' = 2 /\ ts_ r' = 5 /\ ver_ r' = 1.
Proof.
  destruct (versioned_update [(0, [120])] 9 Shared.wit_row Shared.wit_heap) as (r' & c & h' & freed & E & _ & G & N & Ec & T & V & _).
  - split_and!; [repeat constructor|repeat constructor; done|done].
  - exact wit_row_ok.
  - cbn in Ec. rewrite bool_decide_false in Ec by lia. subst c. exists r', h', freed.
    rewrite !G, N, T, V. split; [exact E|]. repeat split.
Defined.

(** A checkpoint is that of value_array.hh: the row read back has the columns of the row
    written. *)
Lemma read_columns_plain vs : forall i cols h, 0 <= i -> (forall k, i <= k -> get cols k = 0) ->
  read_columns vs i cols h = ValueArray.read_columns vs i cols h.
Proof.
  induction vs as [|v vs IH]; intros i cols h P H; [done|]. cbn [read_columns ValueArray.read_columns].
  destruct v as [|b v].
  - cbn [make_column]. replace (upd cols i 0) with cols by (by rewrite <- (H i), upd_get_id).
    apply IH; [lia|]. intros k Hk. apply H. lia.
  - cbn [make_column]. apply IH; [lia|]. intros k Hk. rewrite get_upd_ne by lia. apply H. lia.
Qed.
Lemma get_replicate_0 n k : get (replicate n 0) k = 0.
Proof. unfold get. destruct (k <? 0); [done|]. apply nth_replicate_0. Qed.
Theorem versioned_checkpoint h r ts : Z.of_nat (List.length (cols_ r)) = ncol_ r ->
  let '(r', h') := checkpoint_read (checkpoint_write h r) ts h in
  ts_ r' = ts /\ ncol_ r' = ncol_ r /\ h ⊆ h' /\ forall i, col h' r' i = col h r i.
Proof.
  intros L. pose proof (checkpoint_roundtrip h (plain r) ts) as R.
  assert (W : ValueArray.checkpoint_write h (plain r) = checkpoint_write h r).
  { unfold ValueArray.checkpoint_write, checkpoint_write, ncol. cbn. rewrite L.
    apply list_fmap_ext. intros _ i _. by apply plain_col. }
  unfold ValueArray.checkpoint_read, checkpoint_read in *. rewrite W in R.
  assert (N : Z.of_nat (List.length (checkpoint_write h r)) = ncol_ r).
  { unfold checkpoint_write. rewrite length_fmap, length_seqZ. lia. }
  cbn [cols_ make_sized_row ValueArray.cols_ ValueArray.make_sized_row] in *.
  rewrite read_columns_plain by (try lia; intros; apply get_replicate_0).
  destruct (ValueArray.read_columns _ 0 _ h) as [cols h'] eqn:E. destruct R as (_ & Rn & M & G). unfold ncol in Rn. cbn in Rn.
  split_and!; [done|by cbn|done|]. intros i. rewrite <- (plain_col h r) by done. rewrite <- (G i).
  symmetry. apply (plain_col h' (set_cols cols (make_sized_row (Z.of_nat (List.length (checkpoint_write h r))) ts))). cbn. lia.
Qed.

(** * One thread alone *)

Import Shared.

Lemma run_writes cs : forall cols h cols' h' freed st, replace_columns cs cols h = Some (cols', h', freed) ->
  cols_ (row st) = cols -> strings st = h -> writing st = Store cs ->
  run (replicate (List.length cs) Write) st = Some (put_row (set_cols cols' (row st)) h' (Store []) st).
Proof.
  induction cs as [|[i v] cs IH]; intros cols h cols' h' freed st; cbn [replace_columns].
  { intros [= <- <- _] E1 E2 E3. cbn. f_equal. destruct st as [[] ? ? ? ? ? ? ?]. cbn in *. by subst. }
  destruct (in_array i cols) eqn:A; [|done]. destruct (make_column v h) as [p h1] eqn:Em.
  destruct (replace_columns cs _ h1) as [[[cols1 h2] fs]|] eqn:R; [|done]. cbn. intros [= -> -> _] E1 E2 E3.
  unfold write. rewrite E3, E1, A, E2, Em. cbn.
  by rewrite (IH _ _ _ _ _ (put_row (set_cols (upd cols i p) (row st)) h1 (Store cs) st) R).
Qed.

(** The steps of a writer that nobody interrupts are [update]: an update that fits in
    the row, run alone from any state, ends after its three stores and one for each change,
    with the row and the strings that [update] gives, and commits its contents. *)
Theorem update_alone cs ts st : changes_ok cs -> row_ok (strings st) (row st) -> writing st = Idle ->
  default 0 (list.last (indices cs)) < ncol_ (row st) ->
  exists r' h' freed, update cs ts false (row st) (strings st) = Some (r', false, h', freed) /\
    run (Update cs :: replicate (3 + List.length cs) Write) st = Some (commit (put_row r' h' Idle st)).
Proof.
  intros C O W L. destruct (update_inplace cs ts _ _ C O L) as (cols & h' & freed & R & U & _).
  eexists _, h', freed. split; [exact U|].
  destruct (list.last cs) as [[li lv]|] eqn:El; [|by destruct C as (_ & _ & ?); apply last_None in El].
  rewrite fmap_last, El in L. cbn in L. pose proof (ro_cap _ _ O) as K.
  replace (3 + List.length cs)%nat with (2 + (List.length cs + 1))%nat by lia. cbn [Nat.add replicate run step].
  rewrite El. cbn [mbind option_bind]. rewrite W. unfold zero_columns.
  destruct (Z.ltb_spec (ncol_cap_ (row st)) (li + 1)); [lia|]. destruct (Z.ltb_spec (ncol_ (row st)) (li + 1)); [lia|].
  cbn [mbind option_bind run step write writing put_row]. rewrite El. cbn [mbind option_bind]. unfold grow_ncol.
  cbn [ncol_ set_ver row put_row strings]. destruct (Z.ltb_spec (ncol_ (row st)) (li + 1)); [lia|].
  rewrite replicate_add, run_append. erewrite run_writes; [|exact R|done|done|done]. by cbn.
Qed.
Lemma update_alone_witness : exists r' h' freed,
  update [(0, [120])] 9 false wit_row wit_heap = Some (r', false, h', freed) /\
  run (Update [(0, [120])] :: replicate 4 Write) (init wit_row wit_heap) = Some (commit (put_row r' h' Idle (init wit_row wit_heap))).
Proof.
  apply (update_alone [(0, [120])] 9 (init wit_row wit_heap)).
  - split_and!; [repeat constructor|repeat constructor; done|done].
  - exact wit_row_ok.
  - reflexivity.
  - reflexivity.
Defined.

(** Copying columns. *)
Lemma copies_cons r i l s s1 : copy_column r i s = Some s1 -> copies r (i :: l) s = copies r l s1.
Proof. unfold copies. cbn. by intros ->. Qed.
Lemma copies_ok r l : forall s, (forall i, i ∈ l -> in_array i (cols_ r) = true /\ in_array i (cols_ s) = true) ->
  exists s', copies r l s = Some s' /\ ncol_ s' = ncol_ s /\ ncol_cap_ s' = ncol_cap_ s /\ ts_ s' = ts_ s /\
    List.length (cols_ s') = List.length (cols_ s) /\
    (forall i, i ∈ l -> get (cols_ s') i = get (cols_ r) i) /\ forall i, i ∉ l -> get (cols_ s') i = get (cols_ s) i.
Proof.
  induction l as [|i l IH]; intros s H; [exists s; split_and!; try done; by intros ? ?%not_elem_of_nil|].
  destruct (H i) as [H1 H2]; [left|].
  assert (E : copy_column r i s = Some (set_cols (upd (cols_ s) i (get (cols_ r) i)) s)) by by unfold copy_column; rewrite H1, H2.
  destruct (IH (set_cols (upd (cols_ s) i (get (cols_ r) i)) s)) as (s' & C & N & K & T & L & X & Y).
  { intros j Hj. destruct (H j ltac:(by right)) as [? ?%in_array_spec]. split; [done|]. apply in_array_spec. cbn. by rewrite length_upd. }
  exists s'. rewrite (copies_cons _ _ _ _ _ E). cbn in *. rewrite length_upd in L. apply in_array_spec in H2.
  split_and!; try done.
  - intros j [->|Hj]%elem_of_cons; [|by apply X]. destruct (decide (i ∈ l)); [by apply X|].
    rewrite Y by done. by apply get_upd_eq.
  - intros j [Hj Hl]%not_elem_of_cons. rewrite Y by done. by apply get_upd_ne.
Qed.
Lemma run_reads r l : forall s s' st v1 f, copies r l s = Some s' -> row st = r -> reading st = Copy v1 f l s ->
  run (replicate (List.length l) Read) st = Some (put_reader (Copy v1 f [] s') (since st) (round st) (until st) st).
Proof.
  induction l as [|i l IH]; intros s s' st v1 f C E1 E2.
  { injection C as <-. cbn. f_equal. destruct st. cbn in *. by subst. }
  destruct (copy_column r i s) as [s1|] eqn:E; [|unfold copies in C; cbn in C; rewrite E in C].
  - rewrite (copies_cons _ _ _ _ _ E) in C. cbn. unfold read. rewrite E2, E1, E. cbn.
    by rewrite (IH _ _ (put_reader (Copy v1 f l s1) (since st) (round st) (until st) st) v1 f C).
  - exfalso. clear -C. by induction l.
Qed.

(** Storage that a query may pass: none, or a row that [make_sized_row] allocated. *)
Definition storage_ok (storage : option versioned) : Prop :=
  match storage with None => True | Some s => Z.of_nat (List.length (cols_ s)) = ncol_cap_ s end.
Lemma prepare_room storage r s freed : storage_ok storage -> 0 <= ncol_ r -> prepare storage r = (s, freed) ->
  ncol_ r <= Z.of_nat (List.length (cols_ s)) /\ Z.of_nat (List.length (cols_ s)) = ncol_cap_ s.
Proof.
  unfold prepare. intros O P. destruct storage as [s0|]; [destruct (Z.ltb_spec (ncol_cap_ s0) (ncol_ r))|]; intros [= <- _];
    cbn in *; rewrite ?length_replicate; lia.
Qed.

Record snapshot_of (storage : option versioned) (f : list Z) (r s : versioned) (freed : list Z * Z) : Prop := {
  so_eq : snapshot storage f r = Some (s, freed);
  so_copies : copies r (wanted f (ncol_ r)) (prepare storage r).1 = Some s;
  so_freed : (prepare storage r).2 = freed;
  so_ncol : ncol_ s = ncol_ r;
  so_cap : ncol_cap_ s = ncol_cap_ (prepare storage r).1;
  so_room : storage_ok (Some s);
  so_cols : forall i, i ∈ wanted f (ncol_ r) -> get (cols_ s) i = get (cols_ r) i }.
Lemma snapshot_ok storage f r : storage_ok storage -> dirty (ver_ r) = false ->
  Z.of_nat (List.length (cols_ r)) = ncol_ r -> (forall i, f = [i] -> 0 <= i < ncol_ r) ->
  exists s freed, snapshot_of storage f r s freed.
Proof.
  intros O D L F. destruct (prepare storage r) as [s0 freed] eqn:E. pose proof (prepare_ncol _ _ _ _ E) as N.
  assert (P : 0 <= ncol_ r) by lia. destruct (prepare_room _ _ _ _ O P E) as [M K].
  destruct (copies_ok r (wanted f (ncol_ r)) s0) as (s & C & N' & K' & T & L' & X & _).
  { intros i Hi. assert (0 <= i < ncol_ r); [|split; apply in_array_spec; lia].
    destruct f as [|j [|]]; [by apply elem_of_seqZ in Hi| |by apply elem_of_seqZ in Hi].
    apply list_elem_of_singleton in Hi as ->. by apply F. }
  exists s, freed. split; rewrite ?E; cbn; try done; try congruence.
  unfold snapshot, stable. rewrite E, D. cbn [mbind option_bind]. rewrite N, C. cbn [mbind option_bind].
  unfold has_changed. by rewrite Z.eqb_refl.
Qed.

(** A snapshot that meets no update ends.  Of a row whose version is clean, after two
    reads of the version and one of each column wanted, alone or of all, the reader is done;
    the snapshot has the columns wanted as the row has them, as many columns as the row, and
    room for them; it can be the storage of the next. *)
Theorem snapshot_alone storage f st : storage_ok storage -> reading st = Ready -> dirty (ver_ (row st)) = false ->
  Z.of_nat (List.length (cols_ (row st))) = ncol_ (row st) -> (forall i, f = [i] -> 0 <= i < ncol_ (row st)) ->
  exists s freed, snapshot storage f (row st) = Some (s, freed) /\
    run (Snapshot storage f :: replicate (2 + List.length (wanted f (ncol_ (row st)))) Read) st =
      Some (put_reader (Done f s) (updates st) (updates st) (updates st) st) /\
    ncol_ s = ncol_ (row st) /\ storage_ok (Some s) /\
    forall i, i ∈ wanted f (ncol_ (row st)) -> get (cols_ s) i = get (cols_ (row st)) i.
Proof.
  intros O R D L F. destruct (snapshot_ok storage f (row st) O D L F) as (s & freed & [Q C _ N K S X]).
  exists s, freed. split; [done|]. split; [|done].
  destruct (prepare storage (row st)) as [s0 fr] eqn:E. pose proof (prepare_ncol _ _ _ _ E) as N0. cbn in C.
  replace (2 + _)%nat with (1 + (List.length (wanted f (ncol_ (row st))) + 1))%nat by lia.
  cbn [Nat.add replicate run step]. rewrite R, E. cbn [mbind option_bind run step read reading put_reader row].
  unfold stable. rewrite D. cbn [mbind option_bind]. rewrite N0, replicate_add, run_append.
  erewrite run_reads; [|exact C|done|done]. cbn [mbind option_bind run step read reading put_reader row replicate].
  unfold stable, has_changed. by rewrite D, Z.eqb_refl.
Qed.
Lemma snapshot_alone_witness : exists s freed, snapshot None [1] wit_row = Some (s, freed) /\
  run (Snapshot None [1] :: replicate 3 Read) (init wit_row wit_heap) = Some (put_reader (Done [1] s) 0 0 0 (init wit_row wit_heap)).
Proof.
  destruct (snapshot_alone None [1] (init wit_row wit_heap)) as (s & freed & E & R & _); try reflexivity.
  - intros i [= <-]. cbn. lia.
  - exists s, freed. split; [exact E|exact R].
Defined.

Lemma deallocate_strings s p k : (k < Z.to_nat (ncol_ s))%nat -> cols_ s !! k = Some p -> p <> 0 -> p ∈ (deallocate s).1.
Proof.
  intros L H N. cbn. apply list_elem_of_In, in_concat. setoid_rewrite <- list_elem_of_In. exists (deallocate_column p). split; [|by apply elem_dealloc].
  apply list_elem_of_fmap. exists p. split; [done|]. apply (list_elem_of_lookup_2 _ k). by rewrite lookup_take_lt.
Qed.
(** [C37]. What goes wrong with snapshots.  (1) A query that has a snapshot of a row and meets
    a larger row frees, at once, the strings of the first row, which is still in the tree.
    (2) Storage that was used for a smaller row is freed with the size of that row.  (3)
    Storage that is used again keeps the time stamp of the row before.  (4) A query for one
    column that the row does not have reads and writes outside of the arrays. *)
Theorem snapshot_failures :
  (forall h r1 r2, row_ok h r1 -> row_ok h r2 -> ncol_ r1 < ncol_ r2 ->
     exists s1 s2 freed size, snapshot None [] r1 = Some (s1, ([], 0)) /\ snapshot (Some s1) [] r2 = Some (s2, (freed, size)) /\
     forall p, p ∈ cols_ r1 -> p <> 0 -> p ∈ freed) /\
  (let r n := make_sized_row n 7 in exists s1 s2 s3 freed size,
     snapshot None [] (r 3) = Some (s1, ([], 0)) /\ snapshot (Some s1) [] (r 1) = Some (s2, ([], 0)) /\
     snapshot (Some s2) [] (r 4) = Some (s3, (freed, size)) /\ size = shallow_size 1 /\ ncol_cap_ s2 = 3) /\
  (exists s1 s2, snapshot None [] (make_sized_row 2 7) = Some (s1, ([], 0)) /\
     snapshot (Some s1) [] (make_sized_row 2 8) = Some (s2, ([], 0)) /\ ts_ s2 = 7) /\
  (forall r i, Z.of_nat (List.length (cols_ r)) = ncol_ r -> ncol_ r <= i -> snapshot None [i] r = None).
Proof.
  split_and!.
  - intros h r1 r2 O1 O2 L. assert (D : forall r, row_ok h r -> dirty (ver_ r) = false).
    { intros r O. rewrite (ro_ver _ _ O). apply clean_wrap. }
    destruct (snapshot_ok None [] r1 I (D _ O1) (ro_len _ _ O1)) as (s1 & f1 & S1); [done|].
    destruct (snapshot_ok (Some s1) [] r2 (so_room _ _ _ _ _ S1) (D _ O2) (ro_len _ _ O2)) as (s2 & [freed size] & S2); [done|].
    exists s1, s2, freed, size. pose proof (so_freed _ _ _ _ _ S1) as F1. cbn in F1.
    split; [by rewrite (so_eq _ _ _ _ _ S1), <- F1|]. split; [apply S2|]. intros p [k Hk]%list_elem_of_lookup N.
    pose proof (so_freed _ _ _ _ _ S2) as F2. pose proof (so_cap _ _ _ _ _ S1) as K. cbn in K. unfold prepare in F2.
    destruct (Z.ltb_spec (ncol_cap_ s1) (ncol_ r2)); [|lia]. change freed with (freed, size).1. rewrite <- F2.
    pose proof (lookup_lt_Some _ _ _ Hk). pose proof (ro_len _ _ O1). pose proof (so_ncol _ _ _ _ _ S1).
    pose proof (so_room _ _ _ _ _ S1) as R. cbn in R.
    apply (deallocate_strings _ _ k); [lia| |done]. rewrite <- (Nat2Z.id k), get_lookup' by lia. f_equal.
    rewrite (so_cols _ _ _ _ _ S1); [by apply get_lookup; [lia|rewrite Nat2Z.id]|]. apply elem_of_seqZ. lia.
  - eexists _, _, _, _, _. repeat split; vm_compute; reflexivity.
  - eexists _, _. repeat split; vm_compute; reflexivity.
  - intros r i L H. unfold snapshot. cbn [prepare]. destruct (stable (ver_ r)); [|done]. cbn [mbind option_bind].
    unfold copies. cbn. unfold copy_column. destruct (in_array i (cols_ r)) eqn:E; [apply in_array_spec in E; lia|done].
Qed.
End Versioned.
