(* ===== verification/ValueString.v ===== *)
(** value_string.hh: rows that are one string, with columns that are substrings.

    A column index packs an offset (low 16 bits) and a length (high 16 bits); index 0 is
    the whole string.  The bytes of a row are a function of the position; [uninit] is what
    a fresh allocation holds. *)
From S2P Require Import Prelude.

Record value_string := { ts_ : Z; vallen_ : Z; s_ : Z -> Z }.
Abbreviation changes := (list (Z * list Z)).

Definition make_index (offset length : Z) : Z := u32 (offset + (length .<< 16)).
Definition index_offset (idx : Z) : Z := idx .& 0xFFFF.
Definition index_length (idx : Z) : Z := idx .>> 16.
Definition index_last_offset (idx : Z) : Z := u32 (index_offset idx + index_length idx).

Definition new_string : value_string := {| ts_ := 0; vallen_ := 0; s_ := fun _ => 0 |}.
Definition shallow_size (vallen : Z) : Z := 16 + vallen.
Definition size (r : value_string) : Z := shallow_size (vallen_ r).
Definition ncol (r : value_string) : Z := 1.

(** A column as offset and length, and its bytes. *)
Definition col (r : value_string) (idx : Z) : Z * Z :=
  if idx =? 0 then (0, vallen_ r)
  else let off := Z.min (vallen_ r) (index_offset idx) in
       (off, Z.min (vallen_ r - off) (index_length idx)).
Definition bytes (r : value_string) (c : Z * Z) : list Z := s_ r <$> seqZ c.1 c.2.
Definition col_bytes (r : value_string) (idx : Z) : list Z := bytes r (col r idx).

Abbreviation len v := (Z.of_nat (List.length v)).

(** The first loop of [update]: the new length and what is kept of the old string. *)
Definition measure (cs : changes) (vallen cut : Z) : Z * Z :=
  foldl (fun '(vallen, cut) '(idx, v) =>
           (Z.max vallen (index_offset idx + len v), if idx =? 0 then len v else cut)) (vallen, cut) cs.
Definition memcpy (dst : Z -> Z) (off : Z) (v : list Z) : Z -> Z :=
  fun k => if (off <=? k) && (k <? off + len v) then nth (Z.to_nat (k - off)) v 0 else dst k.
Definition write_changes (cs : changes) (s : Z -> Z) : Z -> Z :=
  foldl (fun s '(idx, v) => memcpy s (index_offset idx) v) s cs.
(** [update]: the new row, and the number of bytes read from the old one. *)
Definition update (uninit : Z -> Z) (cs : changes) (ts : Z) (r : value_string) : value_string * Z :=
  let '(vallen, cut) := measure cs 0 (vallen_ r) in
  let vallen := Z.max vallen cut in
  ({| ts_ := ts; vallen_ := vallen;
      s_ := write_changes cs (fun k => if (0 <=? k) && (k <? cut) then s_ r k else uninit k) |}, cut).
Definition create (uninit : Z -> Z) (cs : changes) (ts : Z) : value_string * Z := update uninit cs ts new_string.
Definition create1 (uninit : Z -> Z) (v : list Z) (ts : Z) : value_string :=
  {| ts_ := ts; vallen_ := len v; s_ := memcpy uninit 0 v |}.

Definition checkpoint_write (r : value_string) : list Z := col_bytes r 0.
Definition checkpoint_read (uninit : Z -> Z) (str : list Z) (ts : Z) : value_string := create1 uninit str ts.

(** * Facts *)
Lemma index_parts off length : 0 <= off < 2 ^ 16 -> 0 <= length < 2 ^ 16 ->
  index_offset (make_index off length) = off /\ index_length (make_index off length) = length.
Proof.
  intros Ho Hl. unfold index_offset, index_length, make_index.
  rewrite Z.shiftl_mul_pow2 by lia. rewrite wrap_small by lia.
  change 0xFFFF with (Z.ones 16). rewrite Z.land_ones, Z.shiftr_div_pow2 by lia.
  split; Z.div_mod_to_equations; lia.
Qed.

Lemma memcpy_bytes s off v : memcpy s off v <$> seqZ off (len v) = v.
Proof.
  apply list_eq. intros i. rewrite list_lookup_fmap. destruct (decide (i < List.length v)%nat).
  - rewrite lookup_seqZ_lt by lia. cbn. unfold memcpy.
    destruct (Z.leb_spec off (off + Z.of_nat i)), (Z.ltb_spec (off + Z.of_nat i) (off + len v)); try lia. cbn.
    replace (Z.to_nat (off + Z.of_nat i - off)) with i by lia.
    destruct (lookup_lt_is_Some_2 v i) as [b Hb]; [done|]. rewrite Hb. f_equal. by apply nth_lookup_Some.
  - rewrite lookup_seqZ_ge by lia. symmetry. apply lookup_ge_None. lia.
Qed.
Lemma memcpy_other s off v k : k < off \/ off + len v <= k -> memcpy s off v k = s k.
Proof. intros. unfold memcpy. destruct (Z.leb_spec off k), (Z.ltb_spec k (off + len v)); cbn; lia || done. Qed.
Lemma memcpy_in s off v k : off <= k < off + len v -> memcpy s off v k = nth (Z.to_nat (k - off)) v 0.
Proof. intros. unfold memcpy. destruct (Z.leb_spec off k), (Z.ltb_spec k (off + len v)); cbn; lia || done. Qed.

Lemma measure_app cs cs' a b : measure (cs ++ cs') a b = let '(a, b) := measure cs a b in measure cs' a b.
Proof. unfold measure. rewrite foldl_app. by destruct (foldl _ (a, b) cs). Qed.
(** The new length covers every change and the part that is kept. *)
Lemma measure_bounds cs : forall a b, let '(v, c) := measure cs a b in
  a <= v /\ Forall (fun ch => index_offset ch.1 + len ch.2 <= v) cs /\ (c = b \/ exists v0, (0, v0) ∈ cs /\ c = len v0).
Proof.
  induction cs as [|[i w] cs IH] using rev_ind; intros a b; [by split_and!; [| |left]|].
  rewrite measure_app. specialize (IH a b). destruct (measure cs a b) as [v c]. cbn.
  destruct IH as (H1 & H2 & H3). split_and!; [lia| |].
  - apply Forall_app. split; [|constructor; [cbn; lia|constructor]].
    eapply Forall_impl; [|exact H2]. cbn. lia.
  - destruct (Z.eqb_spec i 0) as [->|].
    + right. exists w. split; [|done]. apply elem_of_app. right. left.
    + destruct H3 as [?|(v0 & ? & ?)]; [by left|right]. exists v0. split; [|done]. apply elem_of_app. by left.
Qed.

(** A byte of the new string: the last change that covers it, else the old string. *)
Fixpoint covering (cs : changes) (k : Z) : option Z :=
  match cs with
  | [] => None
  | (idx, v) :: cs =>
      match covering cs k with
      | Some b => Some b
      | None => let off := index_offset idx in
                if (off <=? k) && (k <? off + len v) then Some (nth (Z.to_nat (k - off)) v 0) else None
      end
  end.
Lemma write_changes_byte cs : forall s k, write_changes cs s k = default (s k) (covering cs k).
Proof.
  induction cs as [|[i v] cs IH]; intros s k; [done|]. cbn. fold (write_changes cs).
  change (foldl _ _ cs) with (write_changes cs (memcpy s (index_offset i) v)). rewrite IH.
  destruct (covering cs k); [done|]. cbn. unfold memcpy. by destruct (_ && _).
Qed.

Lemma col_make_index r off l : 0 <= off < 2 ^ 16 -> 0 <= l < 2 ^ 16 -> 0 < off + l -> off + l <= vallen_ r ->
  col r (make_index off l) = (off, l).
Proof.
  intros Ho Hl H0 Hv. destruct (index_parts off l Ho Hl) as [E1 E2]. unfold col. rewrite E1, E2.
  destruct (Z.eqb_spec (make_index off l) 0) as [E|E].
  - exfalso. rewrite E in E1, E2. change (0 = off) in E1. change (0 = l) in E2. lia.
  - f_equal; lia.
Qed.

(** * Properties *)

(** Updating a string row.  The new row is long enough for every change and, unless
    a change replaces the whole string, for the old value; each of its bytes is that of the
    last change that covers it and otherwise the old one.  So one change at an offset
    reads back as written through the index of that substring, a change of the whole
    string reads back as the whole string, and every substring of the old row that the
    change does not meet is unchanged. *)
Theorem value_string_update uninit cs ts r : 0 <= vallen_ r ->
  let '(r', cut) := update uninit cs ts r in
  ts_ r' = ts /\ Forall (fun ch => index_offset ch.1 + len ch.2 <= vallen_ r') cs /\
  (Forall (fun ch => ch.1 <> 0) cs -> cut = vallen_ r /\ vallen_ r <= vallen_ r') /\
  (forall k, 0 <= k -> s_ r' k = default (if k <? cut then s_ r k else uninit k) (covering cs k)) /\
  (forall idx v, cs = [(idx, v)] -> 0 < index_offset idx + len v -> len v < 2 ^ 16 ->
     col_bytes r' (make_index (index_offset idx) (len v)) = v /\ (idx = 0 -> col_bytes r' 0 = v) /\
     (idx <> 0 -> forall off l, 0 <= off < 2 ^ 16 -> 0 <= l < 2 ^ 16 -> 0 < off + l -> off + l <= vallen_ r ->
        off + l <= index_offset idx \/ index_offset idx + len v <= off ->
        col_bytes r' (make_index off l) = col_bytes r (make_index off l))).
Proof.
  intros Hr. unfold update. pose proof (measure_bounds cs 0 (vallen_ r)) as HM.
  destruct (measure cs 0 (vallen_ r)) as [v0 c] eqn:Em. destruct HM as (H1 & H2 & H3). cbn [ts_ vallen_ s_].
  split_and!; [done| | | |].
  - eapply Forall_impl; [|exact H2]. cbn. lia.
  - intros HF. destruct H3 as [->|(w & Hw & _)]; [lia|]. rewrite Forall_forall in HF.
    by destruct (HF (0, w) ltac:(by apply list_elem_of_In)).
  - intros k Hk. rewrite write_changes_byte. f_equal. by destruct (Z.leb_spec 0 k); [|lia].
  - intros idx v -> H0 Hl. cbn in Em. injection Em as Ev Ec. set (o := index_offset idx) in *.
    assert (Ho : 0 <= o < 2 ^ 16).
    { unfold o, index_offset. change 0xFFFF with (Z.ones 16). rewrite Z.land_ones by lia. apply Z.mod_pos_bound. lia. }
    cbn [write_changes foldl]. split_and!.
    + unfold col_bytes. rewrite col_make_index by (cbn; lia). apply memcpy_bytes.
    + intros ->. unfold col_bytes, bytes, col. cbn. assert (E : o = 0) by done. rewrite E in *.
      replace (Z.max v0 c) with (len v); [apply memcpy_bytes|]. cbn in Ec. lia.
    + intros Hi off l Hoff Hl' Hp Hv Hd. destruct (Z.eqb_spec idx 0); [done|]. unfold col_bytes.
      rewrite !col_make_index by (cbn; lia). unfold bytes. cbn. apply arr_ext0. intros k Hk.
      rewrite memcpy_other by lia. destruct (Z.leb_spec 0 k), (Z.ltb_spec k c); done || lia.
Qed.
Definition wit_string : value_string := {| ts_ := 1; vallen_ := 4; s_ := fun k => 97 + k |}.
Lemma value_string_update_witness :
  let r' := (update (fun _ => 0) [(make_index 2 1, [120])] 2 wit_string).1 in
  col_bytes r' (make_index 2 1) = [120] /\ col_bytes r' (make_index 0 2) = [97; 98].
Proof.
  pose proof (value_string_update (fun _ => 0) [(make_index 2 1, [120])] 2 wit_string ltac:(cbn; lia)) as H.
  destruct (update _ _ _ _) as [r' cut]. destruct H as (_ & _ & _ & _ & H).
  destruct (H (make_index 2 1) [120] eq_refl ltac:(vm_compute; reflexivity) ltac:(vm_compute; reflexivity)) as (H1 & _ & H3).
  split; [exact H1|]. rewrite H3; [reflexivity|..]; try (cbn; lia); try done.
  left. vm_compute. discriminate.
Defined.

(** Two limits of the update of a string row.  A whole-string change that is
    longer than the old string makes [update] read past the end of the old string, and a
    change behind the end of what is kept leaves the bytes in between as the allocator
    gave them. *)
Theorem value_string_limits :
  (forall uninit v ts r, vallen_ r < len v -> vallen_ r < (update uninit [(0, v)] ts r).2) /\
  (forall uninit, bytes (update uninit [(make_index 3 1, [120])] 2 (create1 uninit [97] 1)).1 (0, 4)
     = [97; uninit 1; uninit 2; 120]).
Proof.
  split; [|done]. intros uninit v ts r H. unfold update, measure. cbn. lia.
Qed.
