(* ===== verification/ValueBag.v ===== *)
(** value_bag.hh: rows that hold their columns in one block.

    A row starts with the number of columns and their offsets, of [ow] bits each, behind
    which the columns lie one after the other; offsets count from the start of the block.
    [pos_] and [s_] are the two views of the block, and the columns start behind the
    offsets, so that the views do not meet.  An array of changes is a list of pairs. *)
From S2P Require Import Prelude ValueArray ValueString.
From Stdlib Require Import Sorted.

Record bag := { ts_ : Z; ncol_ : Z; pos_ : Z -> Z; s_ : Z -> Z }.

Section Bag.
Context (ow : Z).
Definition off (x : Z) : Z := wrap ow x.
Definition osize : Z := ow / 8.
Definition sizeof_bagdata : Z := 2 * osize.

Definition new_bag : bag := {| ts_ := 0; ncol_ := 0; pos_ := fun _ => sizeof_bagdata; s_ := fun _ => 0 |}.
Definition size (r : bag) : Z := 8 + pos_ r (ncol_ r).
Definition column_length (r : bag) (i : Z) : Z := off (pos_ r (i + 1) - pos_ r i).
Definition col (r : bag) (i : Z) : Z * Z :=
  if (0 <=? i) && (i <? ncol_ r) then (pos_ r i, column_length r i) else (0, 0).
Definition col_bytes (r : bag) (i : Z) : list Z := arr (s_ r) (col r i).1 (col r i).2.
Definition row_string (r : bag) : Z * Z := (0, pos_ r (ncol_ r)).

Abbreviation len v := (Z.of_nat (List.length v)).

(** The first loop of [update]: size of the allocation and number of columns. *)
Definition measure (r : bag) (cs : list (Z * list Z)) (sz ncol : Z) : Z * Z :=
  foldl (fun '(sz, ncol) '(idx, v) =>
           if idx <? ncol_ r then (sz + len v - column_length r idx, ncol) else (sz + len v, idx + 1))
        (sz, ncol) cs.
Definition new_size (r : bag) (cs : list (Z * list Z)) : Z * Z :=
  let '(sz, ncol) := measure r cs (size r) (ncol_ r) in
  (if ncol_ r <? ncol then sz + (ncol - ncol_ r) * osize else sz, ncol).

(** Up to column [this_col]: what is left of the old row, then empty columns. *)
Fixpoint mark_empty (n : nat) (col sz : Z) (pos : Z -> Z) : Z -> Z :=
  match n with O => pos | S n => mark_empty n (col + 1) sz (<[col := off sz]> pos) end.
Fixpoint move_offsets (n : nat) (i delta : Z) (old pos : Z -> Z) : Z -> Z :=
  match n with O => pos | S n => move_offsets n (i + 1) delta old (<[i := off (old i + delta)]> pos) end.
Definition copy_bytes (dst : Z -> Z) (p : Z) (src : Z -> Z) (xp n : Z) : Z -> Z :=
  fun i => if (p <=? i) && (i <? p + n) then src (xp + (i - p)) else dst i.
Definition advance (r : bag) (this_col col sz : Z) (pos s : Z -> Z) : option ((Z -> Z) * (Z -> Z) * Z) :=
  if this_col <? col then None
  else
    let '(pos, s, sz, col) :=
      if negb (col =? this_col) && (col <? ncol_ r) then
        let end_col := Z.min this_col (ncol_ r) in
        let delta := sz - pos_ r col in
        let pos :=
          if delta =? 0 then copy_bytes pos col (pos_ r) col (end_col - col)
          else move_offsets (Z.to_nat (end_col - col)) col delta (pos_ r) pos in
        let amt := pos_ r end_col - pos_ r col in
        (pos, copy_bytes s sz (s_ r) (pos_ r col) amt, sz + amt, end_col)
      else (pos, s, sz, col) in
    Some (mark_empty (Z.to_nat (this_col - col)) col sz pos, s, sz).
(** The second loop; [None] stands for a column that does not increase. *)
Fixpoint fill (r : bag) (cs : list (Z * list Z)) (ncol col sz : Z) (pos s : Z -> Z) : option ((Z -> Z) * (Z -> Z) * Z) :=
  match cs with
  | [] => advance r ncol col sz pos s
  | (i, v) :: cs =>
      '(pos, s, sz) ← advance r i col sz pos s;
      if i =? ncol then Some (pos, s, sz)
      else fill r cs ncol (i + 1) (sz + len v) (<[i := off sz]> pos) (memcpy s sz v)
  end.
(** [update]: the row and the size allocated for it. *)
Definition update (uninit : Z -> Z) (cs : list (Z * list Z)) (ts : Z) (r : bag) : option (bag * Z) :=
  let '(sz, ncol) := new_size r cs in
  match cs with
  | [(i, v)] =>
      if (ncol =? ncol_ r) && (sz =? size r) && (len v <=? 16) then
        Some ({| ts_ := ts; ncol_ := ncol_ r; pos_ := pos_ r; s_ := memcpy (s_ r) (pos_ r i) v |}, sz)
      else
        '(pos, s, sz') ← fill r cs ncol 0 (sizeof_bagdata + ncol * osize) uninit uninit;
        Some ({| ts_ := ts; ncol_ := off ncol; pos_ := <[ncol := off sz']> pos; s_ := s |}, sz)
  | _ =>
      '(pos, s, sz') ← fill r cs ncol 0 (sizeof_bagdata + ncol * osize) uninit uninit;
      Some ({| ts_ := ts; ncol_ := off ncol; pos_ := <[ncol := off sz']> pos; s_ := s |}, sz)
  end.
Definition update1 (uninit : Z -> Z) (i : Z) (v : list Z) (ts : Z) (r : bag) : option (bag * Z) :=
  update uninit [(i, v)] ts r.
Definition create (uninit : Z -> Z) (cs : list (Z * list Z)) (ts : Z) : option (bag * Z) := update uninit cs ts new_bag.
Definition create1 (uninit : Z -> Z) (v : list Z) (ts : Z) : bag * Z :=
  let p := sizeof_bagdata + osize in
  ({| ts_ := ts; ncol_ := 1; pos_ := <[0 := off p]> (<[1 := off (p + len v)]> uninit); s_ := memcpy uninit p v |},
   8 + sizeof_bagdata + osize + len v).
End Bag.

(** * Where the columns go *)
Section Layout.
Context (base : Z) (J : Z -> list Z).
Abbreviation len v := (Z.of_nat (List.length v)).

(** The offset of column [i]. *)
Definition place (i : Z) : Z := base + len (List.concat (arr J 0 i)).
Lemma place_0 : place 0 = base.
Proof. unfold place. change (arr J 0 0) with (@nil (list Z)). cbn. lia. Qed.
Lemma place_next i : 0 <= i -> place (i + 1) = place i + len (J i).
Proof.
  intros. unfold place. rewrite arr_split, concat_app, length_app by lia. rewrite arr_one. cbn. rewrite app_nil_r. change (0 + i) with i. lia.
Qed.
Lemma place_le i j : 0 <= i <= j -> place i <= place j.
Proof.
  intros. unfold place. replace j with (i + (j - i)) by lia. rewrite arr_split, concat_app, length_app by lia. lia.
Qed.

(** Columns below [c] are in place. *)
Definition placed (c : Z) (pos s : Z -> Z) : Prop :=
  forall i, 0 <= i < c -> pos i = place i /\ arr s (place i) (len (J i)) = J i.

Lemma placed_le c c' pos s : c' <= c -> placed c pos s -> placed c' pos s.
Proof. intros Hc H i Hi. apply H. lia. Qed.
Lemma placed_more c pos s pos' s' : placed c pos s -> 0 <= c ->
  (forall i, i < c -> pos' i = pos i) -> (forall k, k < place c -> s' k = s k) -> placed c pos' s'.
Proof.
  intros H Hc Hp Hs i Hi. destruct (H i Hi) as [H1 H2]. rewrite Hp by lia. split; [done|]. etrans; [|exact H2].
  apply arr_ext0. intros k Hk. apply Hs. pose proof (place_next i ltac:(lia)). pose proof (place_le (i + 1) c ltac:(lia)). lia.
Qed.
Lemma placed_next c pos s : placed c pos s -> pos c = place c -> arr s (place c) (len (J c)) = J c -> placed (c + 1) pos s.
Proof. intros H H1 H2 i Hi. destruct (decide (i = c)) as [->|]; [done|]. apply H. lia. Qed.
End Layout.

Section Update.
Context (ow : Z) (Hw : 8 <= ow).
Context (r : bag).
Abbreviation len v := (Z.of_nat (List.length v)).
Abbreviation n0 := (ncol_ r).

Record bag_wf : Prop := {
  bw_ncol : 0 <= n0 < 2 ^ ow;
  bw_first : pos_ r 0 = osize ow * (2 + n0);
  bw_mono : forall i, 0 <= i < n0 -> pos_ r i <= pos_ r (i + 1);
  bw_last : pos_ r n0 < 2 ^ ow }.
Context (W : bag_wf).

Lemma osize_pos : 1 <= osize ow.
Proof. unfold osize. Z.div_mod_to_equations. lia. Qed.
Lemma pos_le i j : 0 <= i <= j -> j <= n0 -> pos_ r i <= pos_ r j.
Proof.
  intros Hij Hj. replace j with (i + Z.of_nat (Z.to_nat (j - i))) in * by lia.
  induction (Z.to_nat (j - i)) as [|k IH]; [rewrite Z.add_0_r; lia|].
  etrans; [apply IH; lia|]. replace (i + Z.of_nat (S k)) with (i + Z.of_nat k + 1) by lia. apply (bw_mono W). lia.
Qed.
Lemma pos_range i : 0 <= i <= n0 -> 0 <= pos_ r i < 2 ^ ow.
Proof.
  intros Hi. pose proof osize_pos. pose proof (bw_ncol W). pose proof (pos_le 0 i ltac:(lia) ltac:(lia)) as H1.
  pose proof (pos_le i n0 ltac:(lia) ltac:(lia)). pose proof (bw_last W). rewrite (bw_first W) in H1. nia.
Qed.
Lemma column_length_eq i : 0 <= i < n0 -> column_length ow r i = pos_ r (i + 1) - pos_ r i.
Proof.
  intros Hi. unfold column_length, off. apply wrap_small. pose proof (bw_mono W i Hi).
  pose proof (pos_range i ltac:(lia)). pose proof (pos_range (i + 1) ltac:(lia)). lia.
Qed.
Lemma old_bytes i : 0 <= i < n0 -> col_bytes ow r i = arr (s_ r) (pos_ r i) (pos_ r (i + 1) - pos_ r i).
Proof.
  intros Hi. unfold col_bytes, col. destruct (Z.leb_spec 0 i), (Z.ltb_spec i n0); try lia. cbn [andb fst snd].
  by rewrite column_length_eq.
Qed.
Lemma old_bytes_len i : 0 <= i < n0 -> len (col_bytes ow r i) = pos_ r (i + 1) - pos_ r i.
Proof. intros Hi. rewrite old_bytes, length_arr by (done || (pose proof (bw_mono W i Hi); lia)). done. Qed.
Lemma old_bytes_out i : ~ 0 <= i < n0 -> col_bytes ow r i = [].
Proof. intros. unfold col_bytes, col. destruct (Z.leb_spec 0 i), (Z.ltb_spec i n0); cbn; done || lia. Qed.

(** ** The loops *)
Lemma move_offsets_eq n : forall i delta old pos k,
  move_offsets ow n i delta old pos k = if (i <=? k) && (k <? i + Z.of_nat n) then off ow (old k + delta) else pos k.
Proof.
  induction n as [|n IH]; intros i delta old pos k; cbn [move_offsets].
  { destruct (Z.leb_spec i k), (Z.ltb_spec k (i + Z.of_nat 0)); cbn; done || lia. }
  rewrite IH. destruct (Z.leb_spec (i + 1) k), (Z.ltb_spec k (i + 1 + Z.of_nat n)), (Z.leb_spec i k),
    (Z.ltb_spec k (i + Z.of_nat (S n))); cbn; try lia; try done.
  - by rewrite fn_lookup_insert_ne by lia.
  - assert (k = i) as -> by lia. by rewrite fn_lookup_insert.
  - by rewrite fn_lookup_insert_ne by lia.
Qed.
Lemma mark_empty_eq n : forall c sz pos k,
  mark_empty ow n c sz pos k = if (c <=? k) && (k <? c + Z.of_nat n) then off ow sz else pos k.
Proof.
  induction n as [|n IH]; intros c sz pos k; cbn [mark_empty].
  { destruct (Z.leb_spec c k), (Z.ltb_spec k (c + Z.of_nat 0)); cbn; done || lia. }
  rewrite IH. destruct (Z.leb_spec (c + 1) k), (Z.ltb_spec k (c + 1 + Z.of_nat n)), (Z.leb_spec c k),
    (Z.ltb_spec k (c + Z.of_nat (S n))); cbn; try lia; try done.
  - by rewrite fn_lookup_insert_ne by lia.
  - assert (k = c) as -> by lia. by rewrite fn_lookup_insert.
  - by rewrite fn_lookup_insert_ne by lia.
Qed.

Section Target.
Context (base : Z) (J : Z -> list Z) (ncol : Z).
Context (Hb : 0 <= base) (Hn : n0 <= ncol) (Hfit : place base J ncol < 2 ^ ow).
Abbreviation P := (place base J).

Lemma P_off i : 0 <= i <= ncol -> off ow (P i) = P i /\ 0 <= P i.
Proof.
  intros Hi. pose proof (place_le base J 0 i ltac:(lia)) as H. rewrite place_0 in H.
  pose proof (place_le base J i ncol ltac:(lia)). split; [|lia]. apply wrap_small. lia.
Qed.
(** Old columns copied together keep their distances. *)
Lemma P_shift c e : 0 <= c -> (forall i, c <= i < e -> J i = col_bytes ow r i) -> e <= n0 ->
  forall i, c <= i <= e -> P i = pos_ r i + (P c - pos_ r c).
Proof.
  intros Hc HJ He i Hi. replace i with (c + Z.of_nat (Z.to_nat (i - c))) in * by lia.
  induction (Z.to_nat (i - c)) as [|k IH]; [rewrite Z.add_0_r; lia|].
  replace (c + Z.of_nat (S k)) with (c + Z.of_nat k + 1) in * by lia.
  rewrite place_next, IH, HJ, old_bytes_len by lia. lia.
Qed.

Lemma advance_ok tc c pos s : 0 <= c <= tc -> tc <= ncol -> placed base J c pos s ->
  (forall i, c <= i < tc -> J i = col_bytes ow r i) ->
  exists pos' s', advance ow r tc c (P c) pos s = Some (pos', s', P tc) /\ placed base J tc pos' s'.
Proof.
  intros Hc Htc HP HJ. unfold advance. destruct (Z.ltb_spec tc c); [lia|].
  assert (Hempty : forall c pos s, 0 <= c <= tc -> n0 <= c \/ c = tc -> placed base J c pos s ->
    (forall i, c <= i < tc -> J i = col_bytes ow r i) ->
    P c = P tc /\ placed base J tc (mark_empty ow (Z.to_nat (tc - c)) c (P c) pos) s).
  { clear c pos s Hc HP HJ H. intros c pos s Hc Hn0 HP HJ.
    assert (HE : forall i, c <= i <= tc -> P i = P c).
    { intros i Hi. replace i with (c + Z.of_nat (Z.to_nat (i - c))) in * by lia.
      induction (Z.to_nat (i - c)) as [|k IH]; [f_equal; lia|].
      replace (c + Z.of_nat (S k)) with (c + Z.of_nat k + 1) in * by lia.
      rewrite place_next, IH, HJ, old_bytes_out by lia. cbn. lia. }
    split; [symmetry; apply HE; lia|]. intros i Hi. rewrite mark_empty_eq.
    destruct (decide (i < c)) as [Hlt|Hge].
    - destruct (Z.leb_spec c i); [lia|]. cbn. apply HP. lia.
    - destruct (Z.leb_spec c i), (Z.ltb_spec i (c + Z.of_nat (Z.to_nat (tc - c)))); try lia. cbn.
      rewrite HJ, old_bytes_out by lia. rewrite (proj1 (P_off c ltac:(lia))), (HE i) by lia. done. }
  destruct (negb (c =? tc) && (c <? n0)) eqn:Ec.
  - boolify. set (e := Z.min tc n0). set (delta := P c - pos_ r c).
    assert (Hs : forall i, c <= i <= e -> P i = pos_ r i + delta) by (intros; apply (P_shift c e); intros; try apply HJ; lia).
    set (pos1 := if delta =? 0 then _ else _).
    assert (Hpos1 : forall i, pos1 i = if (c <=? i) && (i <? e) then P i else pos i).
    { intros i. unfold pos1. destruct (Z.eqb_spec delta 0) as [Ed|Ed].
      - unfold copy_bytes. replace (c + (e - c)) with e by lia.
        destruct (Z.leb_spec c i), (Z.ltb_spec i e); cbn; try done. rewrite Hs by lia. rewrite Ed, Z.add_0_r. f_equal. lia.
      - rewrite move_offsets_eq. replace (c + Z.of_nat (Z.to_nat (e - c))) with e by lia.
        destruct (Z.leb_spec c i), (Z.ltb_spec i e); cbn; try done. rewrite <- Hs by lia. by apply P_off; lia. }
    set (s1 := copy_bytes _ _ _ _ _).
    assert (HPe : P c + (pos_ r e - pos_ r c) = P e) by (rewrite (Hs e) by lia; lia).
    rewrite HPe. assert (HP1 : placed base J e pos1 s1).
    { intros i Hi. destruct (decide (i < c)) as [Hlt|Hge].
      - apply (placed_more base J c pos s); [done|lia| | |lia].
        + intros k Hk. rewrite Hpos1. by destruct (Z.leb_spec c k); [lia|].
        + intros k Hk. unfold s1, copy_bytes. by destruct (Z.leb_spec (P c) k); [lia|].
      - rewrite Hpos1. destruct (Z.leb_spec c i), (Z.ltb_spec i e); try lia. cbn. split; [done|].
        rewrite HJ by lia. rewrite old_bytes_len by lia. rewrite old_bytes by lia. apply arr_ext; [done|]. intros k Hk.
        pose proof (Hs i ltac:(lia)). pose proof (Hs (i + 1) ltac:(lia)).
        pose proof (place_le base J c i ltac:(lia)). pose proof (place_le base J (i + 1) e ltac:(lia)).
        unfold s1, copy_bytes.
        destruct (Z.leb_spec (P c) (P i + k)), (Z.ltb_spec (P i + k) (P c + (pos_ r e - pos_ r c))); try lia.
        cbn. f_equal. lia. }
    destruct (Hempty e pos1 s1 ltac:(lia) ltac:(lia) HP1) as [E1 E2]; [intros; apply HJ; lia|].
    eexists _, s1. rewrite <- E1. split; [reflexivity|done].
  - assert (c = tc \/ n0 <= c) as Hor.
    { apply andb_false_iff in Ec as [Ec|Ec]; boolify; lia. }
    destruct (Hempty c pos s Hc ltac:(lia) HP HJ) as [E1 E2]. eexists _, s. rewrite <- E1. split; [reflexivity|done].
Qed.

Lemma fill_ok cs : forall c pos s, 0 <= c <= ncol -> placed base J c pos s ->
  StronglySorted Z.lt (indices cs) -> (forall i v, (i, v) ∈ cs -> c <= i < ncol /\ J i = v) ->
  (forall i, c <= i < ncol -> i ∉ indices cs -> J i = col_bytes ow r i) ->
  exists pos' s', fill ow r cs ncol c (P c) pos s = Some (pos', s', P ncol) /\ placed base J ncol pos' s'.
Proof.
  induction cs as [|[i v] cs IH]; intros c pos s Hc HP HS HI HO; cbn [fill].
  { apply advance_ok; try done; try lia. intros; apply HO; [lia|apply not_elem_of_nil]. }
  cbn in HS. apply StronglySorted_inv in HS as [HS HF]. rewrite Forall_forall in HF.
  destruct (HI i v ltac:(left)) as [Hi EJ].
  destruct (advance_ok i c pos s ltac:(lia) ltac:(lia) HP) as (pos1 & s1 & E1 & P1).
  { intros j Hj. apply HO; [lia|]. cbn. intros [->|Hj']%elem_of_cons; [lia|].
    specialize (HF j ltac:(by apply list_elem_of_In)). lia. }
  rewrite E1. cbn [mbind option_bind]. destruct (Z.eqb_spec i ncol); [lia|].
  replace (P i + len v) with (P (i + 1)) by (rewrite place_next, EJ by lia; done).
  apply IH; [lia| |done| |].
  - apply placed_next.
    + apply (placed_more base J i pos1 s1); [done|lia| |].
      * intros k Hk. by rewrite fn_lookup_insert_ne by lia.
      * intros k Hk. apply memcpy_other. by left.
    + rewrite fn_lookup_insert. by apply P_off; lia.
    + rewrite EJ. apply memcpy_bytes.
  - intros j w Hj. destruct (HI j w ltac:(by right)) as [? ?]. split; [|done].
    specialize (HF j). rewrite <- list_elem_of_In in HF.
    specialize (HF ltac:(apply list_elem_of_fmap; by exists (j, w))). lia.
  - intros j Hj Hj'. apply HO; [lia|]. cbn. intros [->|?]%elem_of_cons; [lia|done].
Qed.
End Target.

(** ** The size that is computed beforehand *)
Definition target (cs : list (Z * list Z)) (i : Z) : list Z := default (col_bytes ow r i) (assoc cs i).
Fixpoint growth (cs : list (Z * list Z)) : Z :=
  match cs with [] => 0 | (i, v) :: cs => len v - len (col_bytes ow r i) + growth cs end.

Lemma concat_update (f : Z -> list Z) i v n : 0 <= i < n ->
  len (List.concat (arr (<[i := v]> f) 0 n)) = len (List.concat (arr f 0 n)) + len v - len (f i).
Proof.
  intros Hi. rewrite !(arr_cut i _ 0 n), !concat_app, !length_app by lia. change (0 + i) with i.
  rewrite !(arr_cons _ i) by lia. cbn [List.concat]. rewrite !length_app, fn_lookup_insert.
  rewrite (arr_ext0 (<[i:=v]> f) f 0 i), (arr_ext0 (<[i:=v]> f) f (i + 1)); [lia|..];
    intros k Hk; by rewrite fn_lookup_insert_ne by lia.
Qed.
Lemma target_total cs n : NoDup (indices cs) -> (forall i, i ∈ indices cs -> 0 <= i < n) ->
  len (List.concat (arr (target cs) 0 n)) = len (List.concat (arr (col_bytes ow r) 0 n)) + growth cs.
Proof.
  induction cs as [|[i v] cs IH]; cbn [growth]; intros HN HI.
  { rewrite Z.add_0_r. done. }
  cbn in HN. apply list.NoDup_cons in HN as [Hi HN].
  rewrite (arr_ext0 (target ((i, v) :: cs)) (<[i := v]> (target cs))).
  - rewrite concat_update by (apply HI; left). rewrite IH by (done || (intros; apply HI; by right)).
    replace (target cs i) with (col_bytes ow r i); [lia|]. unfold target. by rewrite assoc_notin.
  - intros k _. unfold target. cbn. destruct (Z.eqb_spec i k) as [->|]; [by rewrite fn_lookup_insert|].
    by rewrite fn_lookup_insert_ne by done.
Qed.
Lemma old_total n : n0 <= n -> len (List.concat (arr (col_bytes ow r) 0 n)) = pos_ r n0 - pos_ r 0.
Proof.
  intros Hn. pose proof (bw_ncol W). rewrite (arr_cut n0), concat_app, length_app by lia. change (0 + n0) with n0.
  pose proof (P_shift (pos_ r 0) (col_bytes ow r) 0 n0 ltac:(lia) ltac:(done) ltac:(lia) n0 ltac:(lia)) as E.
  rewrite place_0 in E. unfold place in E.
  assert (E2 : List.concat (arr (col_bytes ow r) n0 (n - n0)) = []).
  { rewrite (arr_ext0 _ (fun _ => [])) by (intros; apply old_bytes_out; lia).
    induction (seqZ n0 (n - n0)); done. }
  rewrite E2. cbn. lia.
Qed.
Lemma measure_size cs : (forall i, i ∈ indices cs -> 0 <= i) -> forall sz nc, (measure ow r cs sz nc).1 = sz + growth cs.
Proof.
  induction cs as [|[i v] cs IH]; intros HI sz nc; [cbn; lia|]. cbn [measure foldl growth].
  fold (measure ow r). pose proof (HI i ltac:(left)).
  destruct (Z.ltb_spec i n0) as [Hlt|Hge].
  - etrans; [apply (IH (fun j Hj => HI j ltac:(by right)))|].
    rewrite column_length_eq, old_bytes_len by lia. lia.
  - etrans; [apply (IH (fun j Hj => HI j ltac:(by right)))|]. rewrite (old_bytes_out i) by lia. cbn. lia.
Qed.
Lemma measure_ncol cs : StronglySorted Z.lt (indices cs) -> forall sz,
  (measure ow r cs sz n0).2 = match list.last (indices cs) with Some l => Z.max n0 (l + 1) | None => n0 end.
Proof.
  induction cs as [|[i v] cs IH] using rev_ind; intros HS sz; [done|].
  rewrite fmap_app in *. cbn in *. rewrite last_snoc. cbn.
  assert (HS' : StronglySorted Z.lt (indices cs) /\ forall j, j ∈ indices cs -> j < i).
  { clear -HS. induction cs as [|[j w] cs IH]; cbn in *; [by split; [constructor|intros ? ?%elem_of_nil]|].
    apply StronglySorted_inv in HS as [HS HF]. destruct (IH HS) as [H1 H2]. apply Forall_app in HF as [HF Hi].
    inversion Hi; subst. split; [by constructor|]. intros k [->|Hk]%elem_of_cons; [done|by apply H2]. }
  destruct HS' as [HS' Hlt]. unfold measure in *. rewrite foldl_app. cbn. specialize (IH HS' sz).
  destruct (foldl _ (sz, n0) cs) as [sz' nc'] eqn:E. cbn in IH.
  destruct (Z.ltb_spec i n0) as [Hi|Hi]; cbn; [|lia].
  rewrite IH. destruct (list.last (indices cs)) as [l|] eqn:El; cbn; [|lia].
  specialize (Hlt l). rewrite last_lookup in El. apply list_elem_of_lookup_2 in El. specialize (Hlt El). lia.
Qed.
End Update.

(** * Properties *)
Section Correct.
Context (ow : Z) (Hw : 8 <= ow) (uninit : Z -> Z).
Abbreviation len v := (Z.of_nat (List.length v)).

(** A row whose columns are placed has the columns of the target. *)
Lemma placed_row ts ncol J pos s : let base := osize ow * (2 + ncol) in
  0 <= ncol -> place base J ncol < 2 ^ ow -> placed base J ncol pos s ->
  let r' := {| ts_ := ts; ncol_ := off ow ncol; pos_ := <[ncol := off ow (place base J ncol)]> pos; s_ := s |} in
  bag_wf ow r' /\ ncol_ r' = ncol /\ size r' = 8 + place base J ncol /\
  (forall i, 0 <= i < ncol -> col_bytes ow r' i = J i).
Proof.
  intros base Hn Hfit HP r'. pose proof (osize_pos ow Hw) as Ho. assert (Hb : 0 <= base) by (unfold base; nia).
  assert (Hplace : forall i, 0 <= i <= ncol -> 0 <= place base J i < 2 ^ ow).
  { intros i Hi. pose proof (place_le base J 0 i ltac:(lia)) as H. rewrite place_0 in H.
    pose proof (place_le base J i ncol ltac:(lia)). lia. }
  assert (En : off ow ncol = ncol).
  { apply wrap_small. pose proof (Hplace 0 ltac:(lia)) as H0. rewrite place_0 in H0. unfold base in *. nia. }
  assert (Hpos : forall i, 0 <= i <= ncol -> pos_ r' i = place base J i).
  { intros i Hi. cbn. destruct (decide (i = ncol)) as [->|].
    - rewrite fn_lookup_insert. apply wrap_small, Hplace. lia.
    - rewrite fn_lookup_insert_ne by done. apply HP. lia. }
  assert (Hr : ncol_ r' = ncol) by done. split_and!; try done.
  - split; rewrite ?Hr.
    + split; [lia|]. rewrite <- En. apply wrap_range. lia.
    + rewrite Hpos by lia. apply place_0.
    + intros i Hi. rewrite !Hpos by lia. apply place_le. lia.
    + rewrite Hpos by lia. apply Hplace. lia.
  - unfold size. rewrite Hr, Hpos by lia. done.
  - intros i Hi. unfold col_bytes, col. rewrite Hr. destruct (Z.leb_spec 0 i), (Z.ltb_spec i ncol); try lia. cbn [andb fst snd].
    unfold column_length. rewrite !Hpos, place_next by lia.
    replace (place base J i + len (J i) - place base J i) with (len (J i)) by lia.
    assert (E : off ow (len (J i)) = len (J i)).
    { apply wrap_small. pose proof (Hplace (i + 1) ltac:(lia)) as HH. rewrite place_next in HH by lia.
      pose proof (Hplace i ltac:(lia)). lia. }
    rewrite E. apply HP. lia.
Qed.

(** ** One update *)
Section One.
Context (cs : list (Z * list Z)) (ts : Z) (r : bag) (W : bag_wf ow r) (HC : changes_ok cs).
Definition new_ncol : Z := Z.max (ncol_ r) (default 0 (list.last (indices cs)) + 1).
Abbreviation J := (target ow r cs).
Abbreviation base := (osize ow * (2 + new_ncol)).
Abbreviation total := (place base J new_ncol).

Lemma new_ncol_range : ncol_ r <= new_ncol /\ 0 <= new_ncol /\ forall i, i ∈ indices cs -> 0 <= i < new_ncol.
Proof.
  destruct HC as (HS & HF & Hne). pose proof (bw_ncol _ _ W). unfold new_ncol.
  destruct (list.last (indices cs)) as [li|] eqn:El; [|by apply last_None in El; destruct cs].
  cbn. split_and!; [lia..|]. intros i Hi.
  rewrite Forall_forall in HF. pose proof (HF i ltac:(by apply list_elem_of_In)).
  pose proof (sorted_last _ _ HS El i Hi). lia.
Qed.
Lemma indices_NoDup : NoDup (indices cs).
Proof. apply sorted_NoDup, HC. Qed.

(** The size and the number of columns that the first loop computes. *)
Lemma new_size_eq : new_size ow r cs = (8 + total, new_ncol).
Proof.
  destruct new_ncol_range as (Hn1 & Hn2 & HI). unfold new_size.
  pose proof (measure_size ow Hw r W cs ltac:(intros; apply HI; done) (size r) (ncol_ r)) as E1.
  pose proof (measure_ncol ow r cs (proj1 HC) (size r)) as E2.
  destruct (measure ow r cs (size r) (ncol_ r)) as [sz nc]. cbn in E1, E2. subst sz.
  assert (nc = new_ncol) as ->.
  { rewrite E2. unfold new_ncol. destruct (list.last (indices cs)) eqn:El; [done|].
    apply last_None in El. destruct HC as (_ & _ & Hne). by destruct cs. }
  assert (Ht : total = base + (pos_ r (ncol_ r) - pos_ r 0) + growth ow r cs).
  { unfold place. rewrite target_total, (old_total ow Hw r W) by (done || apply indices_NoDup || lia). lia. }
  rewrite Ht, (bw_first _ _ W). unfold size.
  destruct (Z.ltb_spec (ncol_ r) new_ncol); [f_equal; lia|]. replace new_ncol with (ncol_ r) by lia. f_equal. lia.
Qed.
Context (Hfit : total < 2 ^ ow).

Definition updated (r' : bag) : Prop :=
  bag_wf ow r' /\ ts_ r' = ts /\ size r' = 8 + total /\ ncol_ r' = new_ncol /\
  forall i, col_bytes ow r' i = default (col_bytes ow r i) (assoc cs i).

(** Outside the columns nothing is read and nothing is changed. *)
Lemma updated_from r' : bag_wf ow r' -> ts_ r' = ts -> size r' = 8 + total -> ncol_ r' = new_ncol ->
  (forall i, 0 <= i < new_ncol -> col_bytes ow r' i = J i) -> updated r'.
Proof.
  intros W' T' S' N' C'. split_and!; try done. intros i. destruct new_ncol_range as (Hn1 & Hn2 & HI).
  destruct (decide (0 <= i < new_ncol)) as [Hi|Hi]; [by apply C'|].
  rewrite (old_bytes_out ow r' i), (old_bytes_out ow r i), assoc_notin; [done|intros Hin; by apply Hi, HI|lia..].
Qed.
Lemma general_row : exists pos s,
  fill ow r cs new_ncol 0 (sizeof_bagdata ow + new_ncol * osize ow) uninit uninit = Some (pos, s, total) /\
  updated {| ts_ := ts; ncol_ := off ow new_ncol; pos_ := <[new_ncol := off ow total]> pos; s_ := s |}.
Proof.
  destruct new_ncol_range as (Hn1 & Hn2 & HI). pose proof (osize_pos ow Hw). pose proof (bw_ncol _ _ W).
  replace (sizeof_bagdata ow + new_ncol * osize ow) with (place base J 0) by (rewrite place_0; unfold sizeof_bagdata; lia).
  destruct (fill_ok ow Hw r W base J new_ncol ltac:(nia) Hn1 Hfit cs 0 uninit uninit) as (pos & s & -> & HP).
  - lia.
  - intros i Hi. lia.
  - apply HC.
  - intros i v Hi. split; [apply HI, list_elem_of_fmap; by exists (i, v)|]. unfold target.
    by rewrite (assoc_in _ i v) by (done || apply indices_NoDup).
  - intros i Hi Hni. unfold target. by rewrite assoc_notin.
  - exists pos, s. split; [done|].
    destruct (placed_row ts new_ncol J pos s ltac:(lia) Hfit HP) as (W' & N' & S' & C'). by apply updated_from.
Qed.
(** The shortcut for one column whose length does not change. *)
Lemma small_row i v : cs = [(i, v)] -> new_ncol = ncol_ r -> 8 + total = size r ->
  updated {| ts_ := ts; ncol_ := ncol_ r; pos_ := pos_ r; s_ := memcpy (s_ r) (pos_ r i) v |}.
Proof.
  intros Ecs En Es. set (r' := {| ts_ := ts; ncol_ := _; pos_ := _; s_ := _ |}).
  assert (W' : bag_wf ow r') by (split; apply W). apply updated_from; try done.
  destruct new_ncol_range as (Hn1 & Hn2 & HI). pose proof (HI i ltac:(rewrite Ecs; left)) as Hi.
  assert (Hv : len v = pos_ r (i + 1) - pos_ r i).
  { rewrite <- (old_bytes_len ow Hw r W i) by lia. revert Es. unfold place, size.
    rewrite target_total, (old_total ow Hw r W) by (done || apply indices_NoDup || lia).
    rewrite Ecs. cbn [growth]. rewrite En, (bw_first _ _ W). lia. }
  intros j Hj. rewrite (old_bytes ow Hw r' W') by (cbn; lia). cbn [s_ pos_ r']. unfold target. rewrite Ecs. cbn [assoc].
  destruct (Z.eqb_spec i j) as [<-|Hij]; cbn [default].
  - rewrite <- Hv. apply memcpy_bytes.
  - rewrite (old_bytes ow Hw r W) by lia. apply arr_ext0. intros k Hk. apply memcpy_other. rewrite Hv.
    destruct (decide (j < i)).
    + pose proof (pos_le ow r W (j + 1) i ltac:(lia) ltac:(lia)). lia.
    + pose proof (pos_le ow r W (i + 1) j ltac:(lia) ltac:(lia)). lia.
Qed.
End One.

(** [C25]. Updating a packed row.  With the changed columns in increasing order and a
    result whose offsets fit their type, [update] finishes; the row has the changed values
    in the changed columns, the old values in the others and empty columns where the row
    was extended past its end; it is well formed; and the size computed before the copying,
    which is what is allocated, is exactly the size of the row that is written. *)
Theorem value_bag_update cs ts r : bag_wf ow r -> changes_ok cs -> (new_size ow r cs).1 - 8 < 2 ^ ow ->
  exists r', update ow uninit cs ts r = Some (r', (new_size ow r cs).1) /\
    bag_wf ow r' /\ ts_ r' = ts /\ size r' = (new_size ow r cs).1 /\
    ncol_ r' = Z.max (ncol_ r) (default 0 (list.last (indices cs)) + 1) /\
    forall i, col_bytes ow r' i = default (col_bytes ow r i) (assoc cs i).
Proof.
  intros W HC Hfit. pose proof (new_size_eq cs r W HC) as Hsz. rewrite Hsz in *. cbn [fst] in *.
  destruct (general_row cs ts r W HC ltac:(lia)) as (pos & s & Ef & Hup).
  unfold update. rewrite Hsz, Ef. cbn [mbind option_bind].
  destruct cs as [|[i v] [|c cs]]; [by destruct HC as (_ & _ & ?)| |by eexists].
  destruct ((_ =? ncol_ r) && _ && _) eqn:Eb; [|by eexists]. boolify.
  eexists. split; [reflexivity|]. by apply (small_row _ ts r W HC i v).
Qed.
End Correct.

Definition wit_bag : bag :=
  {| ts_ := 1; ncol_ := 2; pos_ := fun i => if i =? 0 then 8 else if i =? 1 then 10 else 11; s_ := fun k => 90 + k |}.
Lemma value_bag_update_witness : exists r',
  update 16 (fun _ => 0) [(1, [65; 66]); (3, [67])] 2 wit_bag = Some (r', 25) /\
  col_bytes 16 r' 0 = [98; 99] /\ col_bytes 16 r' 1 = [65; 66] /\ col_bytes 16 r' 2 = [] /\ col_bytes 16 r' 3 = [67].
Proof.
  destruct (value_bag_update 16 ltac:(lia) (fun _ => 0) [(1, [65; 66]); (3, [67])] 2 wit_bag) as (r' & E & _ & _ & _ & _ & HC).
  - split; try (cbn; lia); [done|]. cbn. intros i Hi. assert (i = 0 \/ i = 1) as [->| ->] by lia; vm_compute; discriminate.
  - split_and!; [repeat constructor|repeat constructor; done|done].
  - reflexivity.
  - exists r'. split; [exact E|]. rewrite !HC. by vm_compute.
Defined.

(** [C39]. The offsets are not checked against their type.  A row made of one value of
    65536 bytes with 16-bit offsets has a column of length 0: the value is lost, although
    it was copied; with a value of 65530 bytes or more the end of the column wraps around
    to before its start, and the size of the row comes out smaller than its allocation. *)
Theorem value_bag_overflow uninit v ts : let '(r, sz) := create1 16 uninit v ts in
  (Z.of_nat (List.length v) = 65536 -> col_bytes 16 r 0 = []) /\
  (65530 <= Z.of_nat (List.length v) < 131066 -> size r < sz /\ pos_ r 1 < 8 + sz - 65536).
Proof.
  unfold create1, col_bytes, col, column_length, size, off, sizeof_bagdata, osize. cbn [ncol_ pos_ andb Z.leb Z.ltb Z.compare].
  change (16 / 8) with 2. change (0 + 1) with 1. rewrite fn_lookup_insert, fn_lookup_insert_ne, fn_lookup_insert by done.
  split.
  - intros E. rewrite E. reflexivity.
  - intros H. change (2 * 2 + 2) with 6. set (L := Z.of_nat (List.length v)) in *.
    assert (E : u16 (6 + L) = 6 + L - 65536).
    { unfold wrap. symmetry. apply Z.mod_unique with (q := 1); lia. }
    rewrite E. lia.
Qed.
