(* ===== verification/Msgpack.v ===== *)
(** msgpack.hh, msgpack.cc: the message format of logs, checkpoints and requests.

    Output is the list of bytes written so far, input the list of bytes from the
    parser's position to the end of its memory; [None] is a failed assertion or an
    access outside that memory.  Floating-point numbers are their 64-bit images. *)
From S2P Require Import Prelude StringSlice.

(** * Formats *)
Module format.
Definition nfixuint := 0x80.
Definition ffixmap := 0x80.
Definition nfixmap := 0x10.
Definition ffixarray := 0x90.
Definition nfixarray := 0x10.
Definition ffixstr := 0xA0.
Definition nfixstr := 0x20.
Definition fnull := 0xC0.
Definition ffalse := 0xC2.
Definition ftrue := 0xC3.
Definition fbin8 := 0xC4.
Definition fbin16 := 0xC5.
Definition fbin32 := 0xC6.
Definition ffloat32 := 0xCA.
Definition ffloat64 := 0xCB.
Definition fuint8 := 0xCC.
Definition fuint16 := 0xCD.
Definition fuint32 := 0xCE.
Definition fuint64 := 0xCF.
Definition fint8 := 0xD0.
Definition fint16 := 0xD1.
Definition fint32 := 0xD2.
Definition fint64 := 0xD3.
Definition fstr8 := 0xD9.
Definition fstr16 := 0xDA.
Definition fstr32 := 0xDB.
Definition farray16 := 0xDC.
Definition farray32 := 0xDD.
Definition fmap16 := 0xDE.
Definition fmap32 := 0xDF.
Definition nfixnegint := 0x20.
Definition nfixint := nfixuint + nfixnegint.

Definition in_range (x low n : Z) : bool := u32 (x - low) <? n.
Definition in_wrapped_range (x low n : Z) : bool := u32 (to_signed 8 x - low) <? n.
Definition is_fixint (x : Z) : bool := in_wrapped_range x (- nfixnegint) nfixint.
Definition is_null_or_bool (x : Z) : bool := in_range x fnull 4.
Definition is_bool (x : Z) : bool := in_range x ffalse 2.
Definition is_fixstr (x : Z) : bool := in_range x ffixstr nfixstr.
Definition is_fixarray (x : Z) : bool := in_range x ffixarray nfixarray.
Definition is_fixmap (x : Z) : bool := in_range x ffixmap nfixmap.

(** [*s++ = x] and the integers of compiler.hh in network order. *)
Definition put (s : list Z) (x : Z) : list Z := s ++ [u8 x].
Definition write_in_net_order (n : Z) (s : list Z) (x : Z) : list Z :=
  s ++ le_bytes (Z.to_nat n) (host_to_net_order n (wrap (8 * n) x)).
Definition read_in_net_order (n : Z) (s : list Z) : Z := net_to_host_order n (le_value (take (Z.to_nat n) s)).

Definition write_null (s : list Z) : list Z := put s fnull.
Definition write_bool (s : list Z) (x : bool) : list Z := put s (ffalse + b2z x).
Definition write_unsigned4 (s : list Z) (x : Z) : list Z :=
  if x <? nfixuint then put s x
  else if x <? 256 then put (put s fuint8) x
  else if x <? 65536 then write_in_net_order 2 (put s fuint16) x
  else write_in_net_order 4 (put s fuint32) x.
Definition write_signed4 (s : list Z) (x : Z) : list Z :=
  if u32 (u32 x + nfixnegint) <? nfixint then put s x
  else if u32 (u32 x + 128) <? 256 then put (put s fint8) x
  else if u32 (u32 x + 32768) <? 65536 then write_in_net_order 2 (put s fint16) x
  else write_in_net_order 4 (put s fint32) x.
Definition write_unsigned8 (s : list Z) (x : Z) : list Z :=
  if x <? 4294967296 then write_unsigned4 s (u32 x) else write_in_net_order 8 (put s fuint64) x.
Definition write_signed8 (s : list Z) (x : Z) : list Z :=
  if u64 (u64 x + 2147483648) <? 4294967296 then write_signed4 s (to_signed 32 x)
  else write_in_net_order 8 (put s fint64) x.
(** [write_int], by the width in bytes and the signedness of the argument's type. *)
Definition write_int (size : Z) (signed : bool) : list Z -> Z -> list Z :=
  if size =? 4 then (if signed then write_signed4 else write_unsigned4)
  else (if signed then write_signed8 else write_unsigned8).
Definition write_wide_int64 (signed : bool) (s : list Z) (x : Z) : list Z :=
  write_in_net_order 8 (put s (if signed then fint64 else fuint64)) x.
Definition write_double (s : list Z) (x : Z) : list Z := write_in_net_order 8 (put s ffloat64) x.
Definition write_float (s : list Z) (x : Z) : list Z := write_in_net_order 4 (put s ffloat32) x.
Definition write_string (s : list Z) (data : list Z) : list Z :=
  let len := Z.of_nat (length data) in
  (if len <? nfixstr then put s (0xA0 + len)
   else if len <? 256 then put (put s fstr8) len
   else if len <? 65536 then write_in_net_order 2 (put s fstr16) len
   else write_in_net_order 4 (put s fstr32) len) ++ data.
Definition write_array_header (s : list Z) (size : Z) : list Z :=
  if size <? nfixarray then put s (ffixarray + size)
  else if size <? 65536 then write_in_net_order 2 (put s farray16) size
  else write_in_net_order 4 (put s farray32) size.
Definition write_map_header (s : list Z) (size : Z) : list Z :=
  if size <? nfixmap then put s (ffixmap + size)
  else if size <? 65536 then write_in_net_order 2 (put s fmap16) size
  else write_in_net_order 4 (put s fmap32) size.
End format.
Export format.

(** * The unparser

    [reserve n], the write and [set_end]: a write past the reservation is undefined. *)
Definition reserved (n : Z) (w : list Z -> list Z) (base : list Z) : option (list Z) :=
  let s := w base in
  if Z.of_nat (length s) <=? Z.of_nat (length base) + n then Some s else None.
Definition unparse_int (size : Z) (signed : bool) (base : list Z) (x : Z) : option (list Z) :=
  reserved (size + 1) (fun s => write_int size signed s x) base.
Definition write_wide (signed : bool) (base : list Z) (x : Z) : option (list Z) :=
  reserved 9 (fun s => write_wide_int64 signed s x) base.
Definition unparse_double (base : list Z) (x : Z) : option (list Z) := reserved 9 (fun s => write_double s x) base.
Definition unparse_float (base : list Z) (x : Z) : option (list Z) := reserved 5 (fun s => write_float s x) base.
Definition unparse_str (base x : list Z) : option (list Z) :=
  reserved (5 + Z.of_nat (length x)) (fun s => write_string s x) base.
Definition unparse_array (base : list Z) (size : Z) : option (list Z) :=
  reserved 5 (fun s => write_array_header s size) base.
Definition unparse_object (base : list Z) (size : Z) : option (list Z) :=
  reserved 5 (fun s => write_map_header s size) base.
Definition unparse_null (base : list Z) : list Z := write_null base.

(** * The parser *)

(** [s_ += n], and [n] bytes of number behind the format byte. *)
Definition advance (n : Z) (s : list Z) : option (list Z) :=
  if (0 <=? n) && (n <=? Z.of_nat (length s)) then Some (drop (Z.to_nat n) s) else None.
Definition number (n : Z) (s : list Z) : option (Z * list Z) :=
  match advance (1 + n) s with
  | Some r => Some (read_in_net_order n (drop 1 s), r)
  | None => None
  end.

Definition try_read_null (s : list Z) : option (bool * list Z) :=
  match s with
  | [] => None
  | b :: r => if b =? fnull then Some (true, r) else Some (false, s)
  end.
Definition read_tiny_int (s : list Z) : option (Z * list Z) :=
  match s with
  | [] => None
  | b :: r => if is_fixint b then Some (to_signed 8 b, r) else None
  end.
(** The integer before the assignment to [x] converts it to [x]'s type. *)
Definition hard_read_int (s : list Z) : option (Z * list Z) :=
  match s with
  | [] => None
  | b :: _ =>
      if b =? fuint8 then number 1 s
      else if b =? fuint16 then number 2 s
      else if b =? fuint32 then number 4 s
      else if b =? fuint64 then number 8 s
      else if b =? fint8 then '(x, r) ← number 1 s; Some (to_signed 8 x, r)
      else if b =? fint16 then '(x, r) ← number 2 s; Some (to_signed 16 x, r)
      else if b =? fint32 then '(x, r) ← number 4 s; Some (to_signed 32 x, r)
      else if b =? fint64 then '(x, r) ← number 8 s; Some (to_signed 64 x, r)
      else None
  end.
(** [read_int] into a variable of [size] bytes. *)
Definition read_int (size : Z) (signed : bool) (s : list Z) : option (Z * list Z) :=
  let conv x := if signed then to_signed (8 * size) x else wrap (8 * size) x in
  match s with
  | [] => None
  | b :: r =>
      if is_fixint b then Some (conv (to_signed 8 b), r)
      else if u32 (b - fuint8) <? 8 then '(x, r) ← hard_read_int s; Some (conv x, r)
      else None
  end.
Definition read_bool (s : list Z) : option (bool * list Z) :=
  match s with
  | [] => None
  | b :: r => if is_bool b then Some (negb (b - ffalse =? 0), r) else None
  end.
Definition read_double (s : list Z) : option (Z * list Z) :=
  match s with
  | [] => None
  | b :: _ => if b =? ffloat64 then number 8 s else None
  end.
(** [operator>>(Str&)]: the string is a stretch of the input. *)
Definition read_str (s : list Z) : option (list Z * list Z) :=
  match s with
  | [] => None
  | b :: r =>
      '(len, r) ←
        (if u32 (b - ffixstr) <? nfixstr then Some (b - ffixstr, r)
         else if (b =? fbin8) || (b =? fstr8) then number 1 s
         else if (b =? fbin16) || (b =? fstr16) then number 2 s
         else if (b =? fbin32) || (b =? fstr32) then number 4 s
         else None);
      r' ← advance len r;
      Some (take (Z.to_nat len) r, r')
  end.
Definition read_array_header (s : list Z) : option (Z * list Z) :=
  match s with
  | [] => None
  | b :: r =>
      if is_fixarray b then Some (b - ffixarray, r)
      else if b =? farray16 then number 2 s
      else if b =? farray32 then number 4 s
      else None
  end.

(** One round of the loop of [skip_primitives]; other formats are not skipped. *)
Definition skip_one (s : list Z) : option (list Z) :=
  match s with
  | [] => None
  | b :: _ =>
      if is_fixint b || is_null_or_bool b then advance 1 s
      else if is_fixstr b then advance (1 + (b - ffixstr)) s
      else if (b =? fuint8) || (b =? fint8) then advance 2 s
      else if (b =? fuint16) || (b =? fint16) then advance 3 s
      else if (b =? fuint32) || (b =? fint32) || (b =? ffloat32) then advance 5 s
      else if (b =? fstr8) || (b =? fbin8) then '(n, _) ← number 1 s; advance (2 + n) s
      else if (b =? fstr16) || (b =? fbin16) then '(n, _) ← number 2 s; advance (3 + n) s
      else if (b =? fstr32) || (b =? fbin32) then '(n, _) ← number 4 s; advance (u32 (5 + n)) s
      else Some s
  end.
Fixpoint skip_primitives (n : nat) (s : list Z) : option (list Z) :=
  match n with
  | O => Some s
  | S n => s ← skip_one s; skip_primitives n s
  end.
Definition skip_primitive : list Z -> option (list Z) := skip_primitives 1.
Definition skip_array_size (s : list Z) : option (list Z) :=
  match s with
  | [] => None
  | b :: _ =>
      if is_fixarray b then advance 1 s
      else if b =? farray16 then advance 3 s
      else if b =? farray32 then advance 5 s
      else None
  end.

(** A value that is not an array or a map, and its unparsing. *)
Inductive primitive :=
| PNull
| PBool (b : bool)
| PInt (size : Z) (signed : bool) (x : Z)
| PWide (signed : bool) (x : Z)
| PDouble (x : Z)
| PFloat (x : Z)
| PStr (x : list Z).
Definition unparse_primitive (base : list Z) (p : primitive) : option (list Z) :=
  match p with
  | PNull => Some (unparse_null base)
  | PBool b => Some (write_bool base b)
  | PInt size signed x => unparse_int size signed base x
  | PWide signed x => write_wide signed base x
  | PDouble x => unparse_double base x
  | PFloat x => unparse_float base x
  | PStr x => unparse_str base x
  end.
Fixpoint unparse_primitives (base : list Z) (ps : list primitive) : option (list Z) :=
  match ps with
  | [] => Some base
  | p :: ps => base ← unparse_primitive base p; unparse_primitives base ps
  end.

(** * Facts *)
Definition net_bytes (n x : Z) : list Z := le_bytes (Z.to_nat n) (host_to_net_order n (wrap (8 * n) x)).
Lemma length_net_bytes n x : 0 <= n -> Z.of_nat (length (net_bytes n x)) = n.
Proof. intros. unfold net_bytes. rewrite length_le_bytes. lia. Qed.

Lemma advance_app n a b : Z.of_nat (length a) = n -> advance n (a ++ b) = Some b.
Proof.
  intros <-. unfold advance. rewrite length_app.
  destruct (Z.leb_spec 0 (Z.of_nat (length a))), (Z.leb_spec (Z.of_nat (length a)) (Z.of_nat (length a + length b))); try lia.
  cbn. rewrite Nat2Z.id. by rewrite drop_app_length.
Qed.

Lemma read_net_bytes n x rest : 0 <= n -> read_in_net_order n (net_bytes n x ++ rest) = wrap (8 * n) x.
Proof.
  intros. unfold read_in_net_order, net_bytes. rewrite take_app_length' by (rewrite length_le_bytes; lia).
  assert (E : 256 ^ n = 2 ^ (8 * n)) by (rewrite Z.pow_mul_r by lia; done).
  rewrite le_value_bytes, Z2Nat.id, E by lia.
  rewrite <- E. rewrite (Z.mod_small (host_to_net_order _ _)).
  - apply net_to_host_involutive; [lia|]. rewrite E. apply wrap_range. lia.
  - unfold host_to_net_order, net_to_host_order.
    set (l := rev _). replace (256 ^ n) with (256 ^ Z.of_nat (length l)).
    + apply le_value_range. apply Forall_rev, le_bytes_ok.
    + unfold l. rewrite length_rev, length_le_bytes. by rewrite Z2Nat.id by lia.
Qed.

Lemma number_net n b x rest : 0 <= n -> number n (b :: net_bytes n x ++ rest) = Some (wrap (8 * n) x, rest).
Proof.
  intros. unfold number. change (b :: net_bytes n x ++ rest) with ((b :: net_bytes n x) ++ rest).
  rewrite advance_app by (cbn [length]; pose proof (length_net_bytes n x); lia).
  change (drop 1 ((b :: net_bytes n x) ++ rest)) with (net_bytes n x ++ rest). by rewrite read_net_bytes.
Qed.

Lemma write_net n s x : write_in_net_order n s x = s ++ net_bytes n x.
Proof. done. Qed.
Lemma put_put s a b : put (put s a) b = s ++ [u8 a; u8 b].
Proof. unfold put. by rewrite <- app_assoc. Qed.
Lemma byte_net x : [u8 x] = net_bytes 1 x.
Proof.
  unfold net_bytes, host_to_net_order, net_to_host_order, wrap.
  change (Z.to_nat 1) with 1%nat. change (2 ^ (8 * 1)) with 256. change (2 ^ 8) with 256.
  cbn [le_bytes rev app le_value]. f_equal. rewrite Z.mul_0_r, Z.add_0_r, !Z.mod_mod by lia. done.
Qed.

Lemma to_signed_wrap w x : 0 < w -> - 2 ^ (w - 1) <= x < 2 ^ (w - 1) -> to_signed w (wrap w x) = x.
Proof.
  intros Hw Hx. unfold to_signed. rewrite wrap_wrap.
  assert (E : 2 ^ w = 2 * 2 ^ (w - 1)) by (rewrite <- Z.pow_succ_r by lia; f_equal; lia).
  assert (0 < 2 ^ (w - 1)) by (apply Z.pow_pos_nonneg; lia).
  destruct (Z.leb_spec 0 x).
  - rewrite wrap_small by lia. destruct (Z.ltb_spec x (2 ^ (w - 1))); lia.
  - assert (wrap w x = x + 2 ^ w) as ->.
    { unfold wrap. symmetry. apply Z.mod_unique_pos with (-1); lia. }
    destruct (Z.ltb_spec (x + 2 ^ w) (2 ^ (w - 1))); lia.
Qed.

Lemma fixint_spec x : - 32 <= x < 128 -> is_fixint (u8 x) = true /\ to_signed 8 (u8 x) = x.
Proof.
  intros. assert (E : to_signed 8 (u8 x) = x) by (apply to_signed_wrap; cbn; lia).
  split; [|done]. unfold is_fixint, in_wrapped_range. rewrite E. apply Z.ltb_lt.
  change nfixnegint with 32. change nfixint with 160. rewrite wrap_small; lia.
Qed.

(** The tests on format bytes are range checks. *)
Lemma in_range_spec b lo n : 0 <= b < 256 -> 0 <= lo -> 0 <= n -> lo + n <= 256 ->
  in_range b lo n = (lo <=? b) && (b <? lo + n).
Proof.
  intros. unfold in_range. destruct (Z.leb_spec lo b); cbn.
  - rewrite wrap_small by lia. zcases.
  - replace (u32 (b - lo)) with (b - lo + 2 ^ 32).
    + apply Z.ltb_ge. lia.
    + unfold wrap. apply Z.mod_unique_pos with (-1); lia.
Qed.
Lemma is_fixint_spec b : 0 <= b < 256 -> is_fixint b = (b <? 128) || (224 <=? b).
Proof.
  intros. unfold is_fixint, in_wrapped_range, to_signed. rewrite (wrap_small 8) by lia.
  change (2 ^ (8 - 1)) with 128. change (2 ^ 8) with 256. change (- nfixnegint) with (- 32). change nfixint with 160.
  destruct (Z.ltb_spec b 128); cbn [orb].
  - rewrite wrap_small by lia. apply Z.ltb_lt. lia.
  - destruct (Z.leb_spec 224 b).
    + rewrite wrap_small by lia. apply Z.ltb_lt. lia.
    + apply Z.ltb_ge. replace (u32 (b - 256 - - 32)) with (b - 224 + 2 ^ 32); [lia|].
      unfold wrap. apply Z.mod_unique_pos with (-1); lia.
Qed.
(** Decide every test on a format byte that is in a known range. *)
Ltac format_tests :=
  cbv delta [is_null_or_bool is_bool is_fixstr is_fixarray is_fixmap fnull ffixstr ffixarray ffixmap
             nfixstr nfixarray nfixmap ffalse ftrue]; cbv beta;
  repeat match goal with
  | |- context [is_fixint ?b] => rewrite (is_fixint_spec b) by lia
  | |- context [in_range ?b ?lo ?n] => rewrite (in_range_spec b lo n) by (lia || done)
  | |- context [?a <? ?b] => (rewrite (proj2 (Z.ltb_lt a b)) by lia) || (rewrite (proj2 (Z.ltb_ge a b)) by lia)
  | |- context [?a <=? ?b] => (rewrite (proj2 (Z.leb_le a b)) by lia) || (rewrite (proj2 (Z.leb_gt a b)) by lia)
  end; cbn [andb orb].

(** ** Integers *)
Definition conv (size : Z) (signed : bool) (x : Z) : Z :=
  if signed then to_signed (8 * size) x else wrap (8 * size) x.
(** The values of a type. *)
Definition int_ok (size : Z) (signed : bool) (x : Z) : Prop :=
  if signed then - 2 ^ (8 * size - 1) <= x < 2 ^ (8 * size - 1) else 0 <= x < 2 ^ (8 * size).
(** The other formats: a format byte and the number in network order. *)
Definition int_formats : list (Z * (Z * bool)) :=
  [(fuint8, (1, false)); (fuint16, (2, false)); (fuint32, (4, false)); (fuint64, (8, false));
   (fint8, (1, true)); (fint16, (2, true)); (fint32, (4, true)); (fint64, (8, true))].
(** The bytes of an integer of a signed or unsigned type. *)
Definition int_form (sg : bool) (bs : list Z) (x : Z) : Prop :=
  (bs = [u8 x] /\ - 32 <= x < 128) \/
  exists f k, (f, (k, sg)) ∈ int_formats /\ int_ok k sg x /\ bs = f :: net_bytes k x /\
    (sg = false -> k <= 2 <-> x < 65536).
(** [bs] is an encoding of the integer [x], of at most [n] bytes; [wide] is set
    for the 8-byte formats, which are not skipped. *)
Definition encodes (n : Z) (sg wide : bool) (bs : list Z) (x : Z) : Prop :=
  int_form sg bs x /\ Z.of_nat (length bs) <= n /\
  (forall rest, skip_one (bs ++ rest) = Some (if wide then bs ++ rest else rest)) /\
  forall size signed rest, read_int size signed (bs ++ rest) = Some (conv size signed x, rest).

Lemma encodes_fix n sg x : 1 <= n -> - 32 <= x < 128 -> encodes n sg false [u8 x] x.
Proof.
  intros ? Hx. destruct (fixint_spec x Hx) as [H1 H2]. split_and!; [by left|cbn; lia| |].
  - intros rest. cbn [app skip_one]. rewrite H1. by apply (advance_app 1 [_]).
  - intros size signed rest. cbn [app read_int]. by rewrite H1, H2.
Qed.
(** One goal per format. *)
Ltac each_format H :=
  unfold int_formats in H;
  repeat (apply elem_of_cons in H as [[= -> -> ->]|H]); [..|by apply elem_of_nil in H].
Lemma encodes_format f k sg n x : (f, (k, sg)) ∈ int_formats -> k + 1 <= n -> int_ok k sg x ->
  (sg = false -> k <= 2 <-> x < 65536) -> encodes n sg (k =? 8) (f :: net_bytes k x) x.
Proof.
  intros Hf Hn Hx Hb. assert (0 <= k) by (clear -Hf; each_format Hf; lia).
  assert (El : Z.of_nat (length (f :: net_bytes k x)) = k + 1)
    by (cbn [length]; pose proof (length_net_bytes k x) as E; lia).
  split_and!; [by right; exists f, k|lia| |].
  { intros rest. pose proof (advance_app (k + 1) _ rest El) as Ha. clear -Hf Ha.
    each_format Hf; exact Ha || done. }
  intros size signed rest.
  assert (E : hard_read_int (f :: net_bytes k x ++ rest) = Some (x, rest)).
  { clear Hn El H Hb. each_format Hf; unfold int_ok in Hx; unfold hard_read_int; rewrite number_net by lia;
      cbn -[wrap to_signed]; rewrite ?to_signed_wrap by (cbn in *; lia); rewrite ?wrap_small by (cbn in *; lia); done. }
  cbn [app]. unfold read_int. rewrite E.
  by replace (is_fixint f) with false; [replace (u32 (f - fuint8) <? 8) with true|]; clear -Hf; each_format Hf.
Qed.

Ltac in_formats := unfold int_formats; repeat constructor.
Ltac format_is k sg :=
  match goal with |- encodes _ _ _ (u8 ?f :: _) _ => change (u8 f) with f end;
  rewrite ?byte_net; apply (encodes_format _ k sg); [in_formats|lia|unfold int_ok; cbn in *; lia|lia || done].
(** Open a writer: one goal per branch, with the bytes it appends. *)
Ltac open_writer :=
  rewrite ?put_put, ?write_net; unfold put; rewrite <- ?app_assoc; cbn [app];
  repeat case_match; boolify; (eexists; split; [done|]).

Lemma write_unsigned4_ok s x : 0 <= x < 2 ^ 32 -> exists bs, write_unsigned4 s x = s ++ bs /\ encodes 5 false false bs x.
Proof.
  intros Hx. unfold write_unsigned4, nfixuint. open_writer.
  - apply encodes_fix; lia.
  - format_is 1 false.
  - format_is 2 false.
  - format_is 4 false.
Qed.

(** The tests of the signed writers are range checks. *)
Lemma signed_test w x lo n : 0 < w -> - 2 ^ (w - 1) <= x < 2 ^ (w - 1) -> 0 <= lo <= 2 ^ (w - 1) -> 0 < n <= 2 ^ w ->
  n - lo <= 2 ^ (w - 1) ->
  (wrap w (wrap w x + lo) <? n) = (- lo <=? x) && (x <? n - lo).
Proof.
  intros Hw Hx Hlo Hn Hs.
  assert (E : 2 ^ w = 2 * 2 ^ (w - 1)) by (rewrite <- Z.pow_succ_r by lia; f_equal; lia).
  unfold wrap. rewrite Zplus_mod_idemp_l. fold (wrap w (x + lo)).
  destruct (Z.leb_spec (- lo) x); cbn.
  - destruct (Z.ltb_spec x (n - lo)).
    + rewrite wrap_small by lia. apply Z.ltb_lt. lia.
    + destruct (Z.ltb_spec (x + lo) (2 ^ w)).
      * rewrite wrap_small by lia. apply Z.ltb_ge. lia.
      * lia.
  - replace (wrap w (x + lo)) with (x + lo + 2 ^ w).
    + apply Z.ltb_ge. lia.
    + unfold wrap. apply Z.mod_unique_pos with (-1); lia.
Qed.

Lemma write_signed4_ok s x : - 2 ^ 31 <= x < 2 ^ 31 -> exists bs, write_signed4 s x = s ++ bs /\ encodes 5 true false bs x.
Proof.
  intros Hx. unfold write_signed4, nfixint, nfixuint, nfixnegint.
  rewrite !signed_test by (cbn; lia). open_writer.
  - apply encodes_fix; lia.
  - format_is 1 true.
  - format_is 2 true.
  - format_is 4 true.
Qed.
Lemma encodes_mono n m sg w bs x : n <= m -> encodes n sg w bs x -> encodes m sg w bs x.
Proof. intros ? (? & ? & ? & ?). split_and!; [done|lia|done|done]. Qed.

(** An 8-byte integer that does not fit 4 bytes. *)
Definition wide_int (size : Z) (signed : bool) (x : Z) : bool :=
  (size =? 8) && negb (if signed then (- 2 ^ 31 <=? x) && (x <? 2 ^ 31) else x <? 2 ^ 32).
Lemma write_unsigned8_ok s x : 0 <= x < 2 ^ 64 ->
  exists bs, write_unsigned8 s x = s ++ bs /\ encodes 9 false (wide_int 8 false x) bs x.
Proof.
  intros Hx. unfold write_unsigned8, wide_int. change (2 ^ 32) with 4294967296. destruct (Z.ltb_spec x 4294967296).
  - rewrite wrap_small by lia. destruct (write_unsigned4_ok s x) as (bs & ? & ?); [lia|].
    exists bs. split; [done|]. apply (encodes_mono 5); [lia|done].
  - open_writer. format_is 8 false.
Qed.
Lemma write_signed8_ok s x : - 2 ^ 63 <= x < 2 ^ 63 ->
  exists bs, write_signed8 s x = s ++ bs /\ encodes 9 true (wide_int 8 true x) bs x.
Proof.
  intros Hx. unfold write_signed8, wide_int. rewrite signed_test by (cbn; lia).
  change (4294967296 - 2147483648) with (2 ^ 31). change 2147483648 with (2 ^ 31).
  destruct (Z.leb_spec (- 2 ^ 31) x), (Z.ltb_spec x (2 ^ 31)); cbn [andb];
    try (open_writer; format_is 8 true).
  assert (to_signed 32 x = x) as ->.
  { rewrite <- (to_signed_wrap 32 x) at 2 by (cbn; lia). unfold to_signed. by rewrite wrap_wrap. }
  destruct (write_signed4_ok s x) as (bs & ? & ?); [lia|].
  exists bs. split; [done|]. apply (encodes_mono 5); [lia|done].
Qed.

(** The widths of the C integers. *)
Definition int_size (size : Z) : Prop := size = 4 \/ size = 8.
Lemma unparse_int_ok size signed s x : int_size size -> int_ok size signed x ->
  exists bs, unparse_int size signed s x = Some (s ++ bs) /\ encodes (size + 1) signed (wide_int size signed x) bs x.
Proof.
  intros Hs Hx. unfold unparse_int, reserved, write_int, int_ok in *.
  assert (exists bs, write_int size signed s x = s ++ bs /\ encodes (size + 1) signed (wide_int size signed x) bs x) as (bs & E & Hf & Hl & Hr).
  { unfold write_int. destruct Hs as [->| ->], signed; cbn [Z.eqb Pos.eqb Z.add Z.mul] in *.
    - by apply write_signed4_ok.
    - by apply write_unsigned4_ok.
    - by apply write_signed8_ok.
    - by apply write_unsigned8_ok. }
  exists bs. unfold write_int in E. rewrite E, length_app.
  destruct (Z.leb_spec (Z.of_nat (length s + length bs)) (Z.of_nat (length s) + (size + 1))); [|lia]. done.
Qed.

(** ** Strings, arrays and the skipping of values *)
Lemma reserved_ok n w s bs : w s = s ++ bs -> Z.of_nat (length bs) <= n -> reserved n w s = Some (s ++ bs).
Proof.
  intros E H. unfold reserved. rewrite E, length_app.
  destruct (Z.leb_spec (Z.of_nat (length s + length bs)) (Z.of_nat (length s) + n)); [done|lia].
Qed.

Lemma small_header base n k : 0 <= base -> 0 <= k < n -> base + n <= 256 ->
  u8 (base + k) = base + k /\ (u32 (base + k - base) <? n) = true /\ base + k - base = k.
Proof.
  intros. rewrite wrap_small by lia. replace (base + k - base) with k by lia.
  rewrite wrap_small by lia. split_and!; [done| |done]. apply Z.ltb_lt. lia.
Qed.

(** A string read and skipped by a format byte [f] with [k] bytes of length. *)
Lemma string_ok h data rest : advance (Z.of_nat (length data)) (data ++ rest) = Some rest /\
  take (Z.to_nat (Z.of_nat (length data))) (data ++ rest) = data /\
  advance (Z.of_nat (length h) + Z.of_nat (length data)) (h ++ data ++ rest) = Some rest.
Proof.
  split_and!; [by apply advance_app|apply take_app_length'; lia|].
  rewrite app_assoc. apply advance_app. rewrite length_app. lia.
Qed.
Lemma long_string f k g data rest : 0 < k -> Z.of_nat (length data) < 2 ^ (8 * k) ->
  (forall r, read_str (f :: r) = '(len, r) ← number k (f :: r); r' ← advance len r; Some (take (Z.to_nat len) r, r')) ->
  (forall r, skip_one (f :: r) = '(n, _) ← number k (f :: r); advance (g n) (f :: r)) ->
  g (Z.of_nat (length data)) = 1 + k + Z.of_nat (length data) ->
  read_str ((f :: net_bytes k (Z.of_nat (length data))) ++ data ++ rest) = Some (data, rest) /\
  skip_one ((f :: net_bytes k (Z.of_nat (length data))) ++ data ++ rest) = Some rest.
Proof.
  set (n := Z.of_nat (length data)). intros Hk Hn Hr Hs Hg.
  destruct (string_ok (f :: net_bytes k n) data rest) as (H1 & H2 & H3). fold n in H1, H2, H3.
  cbn [app] in *. rewrite Hr, Hs, number_net by lia. cbn [mbind option_bind]. rewrite wrap_small by lia.
  cbn [mbind option_bind]. rewrite H1. cbn [mbind option_bind]. rewrite H2, Hg. split; [done|].
  rewrite <- H3. f_equal. cbn [length]. pose proof (length_net_bytes k n). lia.
Qed.

Lemma write_string_ok s data : Z.of_nat (length data) < 2 ^ 31 ->
  exists h, write_string s data = s ++ h ++ data /\ Z.of_nat (length h) <= 5 /\
    forall rest, read_str (h ++ data ++ rest) = Some (data, rest) /\ skip_one (h ++ data ++ rest) = Some rest.
Proof.
  intros Hl. unfold write_string. cbn zeta. set (n := Z.of_nat (length data)) in *.
  change 0xA0 with ffixstr. change nfixstr with 32. assert (0 <= n) by lia.
  destruct (Z.ltb_spec n 32).
  { exists [u8 (ffixstr + n)]. unfold put. rewrite <- app_assoc. split_and!; [done|cbn; lia|].
    intros rest. destruct (small_header ffixstr 32 n) as (E1 & E2 & E3); [done|lia|done|].
    destruct (string_ok [ffixstr + n] data rest) as (H1 & H2 & H3). fold n in H1, H2, H3.
    rewrite E1. cbn [app] in *. split.
    - unfold read_str, nfixstr. rewrite E2, E3. cbn. by rewrite H1, H2.
    - rewrite <- H3. unfold skip_one. rewrite E3. change (ffixstr + n) with (160 + n). by format_tests. }
  rewrite put_put, !write_net. unfold put. rewrite <- !app_assoc.
  destruct (Z.ltb_spec n 256); [|destruct (Z.ltb_spec n 65536)];
    [exists [fstr8; u8 n]; rewrite byte_net|exists (fstr16 :: net_bytes 2 n)|exists (fstr32 :: net_bytes 4 n)];
    (split; [by rewrite <- ?app_assoc|]; split; [done|]; intros rest).
  - by apply (long_string _ 1 (fun n => 2 + n)).
  - by apply (long_string _ 2 (fun n => 3 + n)).
  - apply (long_string _ 4 (fun n => u32 (5 + n))); try done; [cbn; lia|]. apply wrap_small. lia.
Qed.

Lemma unparse_str_ok s data : Z.of_nat (length data) < 2 ^ 31 ->
  exists bs, unparse_str s data = Some (s ++ bs) /\
    forall rest, read_str (bs ++ rest) = Some (data, rest) /\ skip_one (bs ++ rest) = Some rest.
Proof.
  intros Hl. destruct (write_string_ok s data Hl) as (h & E & Hh & Hr). exists (h ++ data). split.
  - apply reserved_ok; [done|]. rewrite length_app. lia.
  - intros rest. rewrite <- app_assoc. apply Hr.
Qed.

Lemma unparse_array_ok s size : 0 <= size < 2 ^ 32 ->
  exists bs, unparse_array s size = Some (s ++ bs) /\
    forall rest, read_array_header (bs ++ rest) = Some (size, rest) /\ skip_array_size (bs ++ rest) = Some rest.
Proof.
  intros Hn. unfold unparse_array.
  enough (exists bs, write_array_header s size = s ++ bs /\ Z.of_nat (length bs) <= 5 /\
    forall rest, read_array_header (bs ++ rest) = Some (size, rest) /\ skip_array_size (bs ++ rest) = Some rest)
    as (bs & E & Hl & Hr).
  { exists bs. split; [by apply reserved_ok|done]. }
  unfold write_array_header. change nfixarray with 16.
  destruct (Z.ltb_spec size 16); [|destruct (Z.ltb_spec size 65536)].
  - exists [u8 (ffixarray + size)]. split_and!; [done|done|]. intros rest.
    destruct (small_header ffixarray 16 size) as (-> & _ & E3); [done|lia|done|]. cbn [app].
    unfold read_array_header, skip_array_size. rewrite E3. change ffixarray with 144. format_tests.
    split; [done|]. by apply (advance_app 1 [_]).
  - exists (farray16 :: net_bytes 2 size). rewrite write_net. unfold put. rewrite <- app_assoc.
    split_and!; [done|done|]. intros rest. cbn [app].
    unfold read_array_header, skip_array_size. rewrite number_net by lia.
    rewrite wrap_small by (cbn; lia). split; [done|]. by apply (advance_app 3 (_ :: _)).
  - exists (farray32 :: net_bytes 4 size). rewrite write_net. unfold put. rewrite <- app_assoc.
    split_and!; [done|done|]. intros rest. cbn [app].
    unfold read_array_header, skip_array_size. rewrite number_net by lia.
    rewrite wrap_small by (cbn; lia). split; [done|]. by apply (advance_app 5 (_ :: _)).
Qed.

Lemma unparse_bool_ok s b : exists bs, write_bool s b = s ++ bs /\
  forall rest, read_bool (bs ++ rest) = Some (b, rest) /\ skip_one (bs ++ rest) = Some rest.
Proof. exists [u8 (ffalse + b2z b)]. split; [done|]. intros rest. split; destruct b; [done|done|by apply (advance_app 1 [_])..]. Qed.

(** An integer written with [operator<<] of one integer type and read with [operator>>]
    into another comes back converted to the latter, whatever follows it; in particular
    it comes back itself when the types agree.  The writer keeps to the bytes it reserved
    and only appends. *)
Theorem int_roundtrip size signed size' signed' s x rest : int_size size -> int_ok size signed x ->
  exists bs, unparse_int size signed s x = Some (s ++ bs) /\ Z.of_nat (length bs) <= size + 1 /\
    read_int size' signed' (bs ++ rest) = Some (conv size' signed' x, rest) /\
    (size' = size -> signed' = signed -> conv size' signed' x = x).
Proof.
  intros Hs Hx. destruct (unparse_int_ok size signed s x Hs Hx) as (bs & E & _ & Hl & _ & Hr).
  exists bs. split_and!; [done|done|apply Hr|]. intros -> ->. unfold conv, int_ok in *.
  destruct signed; [|by apply wrap_small].
  rewrite <- (to_signed_wrap (8 * size) x) at 2 by (destruct Hs as [->| ->]; lia || done).
  unfold to_signed. by rewrite wrap_wrap.
Qed.

Lemma int_roundtrip_witness : int_ok 8 true (-32769) /\
  exists bs, unparse_int 8 true [7] (-32769) = Some ([7] ++ bs) /\ Z.of_nat (length bs) <= 9 /\
    read_int 8 true (bs ++ [1; 2]) = Some (conv 8 true (-32769), [1; 2]) /\
    (8 = 8 -> true = true -> conv 8 true (-32769) = -32769).
Proof.
  split; [by vm_compute|]. apply (int_roundtrip 8 true 8 true [7] (-32769) [1; 2]); [by right|by vm_compute].
Defined.

(** What the code can write of each type. *)
Definition primitive_ok (p : primitive) : Prop :=
  match p with
  | PInt size signed x => int_size size /\ int_ok size signed x
  | PWide signed x => int_ok 8 signed x
  | PStr l => Z.of_nat (length l) < 2 ^ 31
  | _ => True
  end.
(** Encodings that [skip_primitives] knows. *)
Definition skippable (p : primitive) : bool :=
  match p with
  | PInt size signed x => negb (wide_int size signed x)
  | PWide _ _ | PDouble _ => false
  | _ => true
  end.

Lemma skip_primitive_ok s p : primitive_ok p -> exists bs, unparse_primitive s p = Some (s ++ bs) /\
  forall rest, skip_one (bs ++ rest) = Some (if skippable p then rest else bs ++ rest).
Proof.
  intros Hp. destruct p as [|b|size signed x|signed x|x|x|l]; cbn [unparse_primitive].
  - exists [u8 fnull]. split; [done|]. intros rest. by apply (advance_app 1 [_]).
  - destruct (unparse_bool_ok s b) as (bs & -> & Hr). exists bs. split; [done|]. apply Hr.
  - destruct Hp as [Hs Hx]. destruct (unparse_int_ok size signed s x Hs Hx) as (bs & E & _ & _ & Hr & _).
    exists bs. split; [done|]. cbn. by destruct (wide_int size signed x).
  - exists ((if signed then fint64 else fuint64) :: net_bytes 8 x). split; [|by destruct signed].
    apply reserved_ok; [|done]. unfold write_wide_int64. rewrite write_net. unfold put. rewrite <- app_assoc. by destruct signed.
  - exists (ffloat64 :: net_bytes 8 x). split; [|done]. apply reserved_ok; [|done].
    unfold write_double. rewrite write_net. unfold put. by rewrite <- app_assoc.
  - exists (ffloat32 :: net_bytes 4 x). split; [|intros; by apply (advance_app 5 (_ :: _))]. apply reserved_ok; [|done].
    unfold write_float. rewrite write_net. unfold put. by rewrite <- app_assoc.
  - destruct (unparse_str_ok s l Hp) as (bs & E & Hr). exists bs. split; [done|]. apply Hr.
Qed.

(** The suffix that starts at the first value that is not skipped. *)
Fixpoint from_wide (ps : list primitive) : list primitive :=
  match ps with
  | [] => []
  | p :: r => if skippable p then from_wide r else ps
  end.

Lemma skip_stuck n s : skip_one s = Some s -> skip_primitives n s = Some s.
Proof. intros H. induction n as [|n IH]; [done|]. cbn. by rewrite H. Qed.

Lemma skip_primitives_ok ps : forall s rest, Forall primitive_ok ps ->
  exists pre post, unparse_primitives s ps = Some (s ++ pre ++ post) /\
    unparse_primitives (s ++ pre) (from_wide ps) = Some (s ++ pre ++ post) /\
    skip_primitives (length ps) (pre ++ post ++ rest) = Some (post ++ rest).
Proof.
  induction ps as [|p ps IH]; intros s rest Hps; [by exists [], []; rewrite !app_nil_r|].
  apply Forall_cons_1 in Hps as [Hp Hps].
  destruct (skip_primitive_ok s p Hp) as (b & E & Hs). cbn. rewrite E. cbn.
  destruct (IH (s ++ b) rest Hps) as (pre & post & E1 & E2 & Hr).
  destruct (skippable p) eqn:Hsk.
  - exists (b ++ pre), post. rewrite <- !app_assoc in *. rewrite E1, E2, Hs. done.
  - exists [], (b ++ pre ++ post). cbn. rewrite app_nil_r, E. cbn. rewrite <- !app_assoc in *. rewrite E1.
    split_and!; [done|done|]. rewrite Hs. cbn.
    apply skip_stuck. by rewrite Hs.
Qed.

(** A request is an array header and its elements.  [skip_array_size] and
    [skip_primitives] step over the header and as many of the leading values as are
    skippable: the position they stop at is the start of the first 8-byte integer or
    double, if there is one, and otherwise the end. *)
Theorem skip_request s ps n rest : 0 <= n < 2 ^ 32 -> Forall primitive_ok ps ->
  exists h pre post,
    (s ← unparse_array s n; unparse_primitives s ps) = Some (s ++ h ++ pre ++ post) /\
    unparse_primitives (s ++ h ++ pre) (from_wide ps) = Some (s ++ h ++ pre ++ post) /\
    (r ← skip_array_size (h ++ pre ++ post ++ rest); skip_primitives (length ps) r) = Some (post ++ rest).
Proof.
  intros Hn Hps. destruct (unparse_array_ok s n Hn) as (h & E & Hh).
  destruct (skip_primitives_ok ps (s ++ h) rest Hps) as (pre & post & E1 & E2 & Hr).
  exists h, pre, post. rewrite E. cbn. rewrite <- !app_assoc in *. split_and!; [done|done|].
  rewrite (proj2 (Hh _)). done.
Qed.

(** A put request (sequence number, command, key, column, value), and the same one
    with a sequence number of 33 bits. *)
Definition put_request (seq : Z) : list primitive :=
  [PInt 8 true seq; PInt 4 true 6; PStr [107]; PInt 4 true 0; PStr [118; 119]].
Lemma skip_request_witness :
  from_wide (put_request 5) = [] /\ from_wide (put_request (2 ^ 32)) = put_request (2 ^ 32) /\
  exists h pre post,
    (s ← unparse_array [] 5; unparse_primitives s (put_request (2 ^ 32))) = Some (h ++ pre ++ post) /\
    unparse_primitives (h ++ pre) (from_wide (put_request (2 ^ 32))) = Some (h ++ pre ++ post) /\
    (r ← skip_array_size (h ++ pre ++ post ++ [1]); skip_primitives 5 r) = Some (post ++ [1]).
Proof.
  split_and!; [done|done|].
  apply (skip_request [] (put_request (2 ^ 32)) 5 [1]); [lia|].
  repeat (apply Forall_cons_2; [vm_compute; intuition (lia || congruence)|]). apply Forall_nil_2.
Defined.
