(* ===== verification/MsgpackStream.v ===== *)
(** msgpack.hh, msgpack.cc: Json values in the message format, and the streaming parser.

    The parser keeps a stack of pointers into the Json it builds.  A pointer is modelled by
    what it points to: the key buffer, or a child (an array index or the place of an object's
    item) of what the element below it on the stack points to, and of the result for the
    lowest one.  [None] and [Undef] are undefined behaviour.  Conversions of single-precision
    numbers are the parameter [widen]. *)
From S2P Require Import Prelude StringSlice Msgpack.

(** * Json values *)
#[warnings="-register-all"]
Inductive Json :=
| JNull
| JInt (x : Z)
| JUnsigned (x : Z)
| JDouble (x : Z)
| JBool (b : bool)
| JStr (x : list Z)
| JArr (l : list Json)
| JObj (l : list (list Z * Json)).

Definition is_i (j : Json) : bool := match j with JInt _ | JUnsigned _ => true | _ => false end.
Definition is_s (j : Json) : bool := match j with JStr _ => true | _ => false end.
Definition is_a (j : Json) : bool := match j with JArr _ => true | _ => false end.
Definition is_o (j : Json) : bool := match j with JObj _ => true | _ => false end.

(** [String(x)] in base 10, and [to_s] of integers and strings. *)
Fixpoint digits (fuel : nat) (x : Z) (acc : list Z) : list Z :=
  match fuel with
  | O => acc
  | S fuel => let acc := 48 + x mod 10 :: acc in if x <? 10 then acc else digits fuel (x / 10) acc
  end.
Definition decimal (x : Z) : list Z := if x <? 0 then 45 :: digits 20 (- x) [] else digits 20 x [].
Definition to_s (j : Json) : list Z :=
  match j with
  | JInt x | JUnsigned x => decimal x
  | JStr x => x
  | _ => []
  end.

(** [find_insert]: the place of a key in an object, appended when it is new. *)
Fixpoint find_insert (key : list Z) (l : list (list Z * Json)) : nat * list (list Z * Json) :=
  match l with
  | [] => (0%nat, [(key, JNull)])
  | kv :: l => if decide (kv.1 = key) then (0%nat, kv :: l)
               else let '(i, l) := find_insert key l in (S i, kv :: l)
  end.
Definition resize (n : Z) (l : list Json) : list Json :=
  take (Z.to_nat n) l ++ replicate (Z.to_nat n - length l) JNull.
Definition at_insert0 (l : list Json) : list Json := match l with [] => [JNull] | _ => l end.

(** [unparser << Json] *)
Fixpoint unparse (base : list Z) (j : Json) {struct j} : option (list Z) :=
  match j with
  | JNull => Some (put base fnull)
  | JBool b => Some (put base (ffalse + b2z b))
  | JUnsigned x => reserved 9 (fun s => write_unsigned8 s x) base
  | JInt x => reserved 9 (fun s => write_signed8 s x) base
  | JDouble x => unparse_double base x
  | JStr x => unparse_str base x
  | JArr l =>
      base ← unparse_array base (Z.of_nat (length l));
      (fix all base l {struct l} := match l with
                         | [] => Some base
                         | j :: l => base ← unparse base j; all base l
                         end) base l
  | JObj l =>
      base ← unparse_object base (Z.of_nat (length l));
      (fix all base (l : list (list Z * Json)) {struct l} :=
         match l with
         | [] => Some base
         | kv :: l => base ← unparse_str base kv.1; base ← unparse base kv.2; all base l
         end) base l
  end.

(** * Places in a Json *)
Fixpoint get_at (p : list nat) (j : Json) : option Json :=
  match p with
  | [] => Some j
  | i :: p => match j with
              | JArr l => j ← l !! i; get_at p j
              | JObj l => kv ← l !! i; get_at p kv.2
              | _ => None
              end
  end.
Fixpoint set_at (p : list nat) (v : Json) (j : Json) : option Json :=
  match p with
  | [] => Some v
  | i :: p => match j with
              | JArr l => j ← l !! i; j ← set_at p v j; Some (JArr (<[i := j]> l))
              | JObj l => kv ← l !! i; j ← set_at p v kv.2; Some (JObj (<[i := (kv.1, j)]> l))
              | _ => None
              end
  end.

(** * The streaming parser *)
Inductive pstate := st_final | st_error | st_normal | st_partial | st_string.
Inductive jptr := jp_null | jp_jokey | jp_child (i : nat).
Record selem := { jp : jptr; size : Z }.
(** The top of the stack is first. *)
Record streaming_parser :=
  { state_ : pstate; stack_ : list selem; str_ : list Z; json_ : Json; jokey_ : Json }.

Definition with_state (st : pstate) (s : streaming_parser) :=
  {| state_ := st; stack_ := stack_ s; str_ := str_ s; json_ := json_ s; jokey_ := jokey_ s |}.
Definition with_stack (st : list selem) (s : streaming_parser) :=
  {| state_ := state_ s; stack_ := st; str_ := str_ s; json_ := json_ s; jokey_ := jokey_ s |}.
Definition with_str (x : list Z) (s : streaming_parser) :=
  {| state_ := state_ s; stack_ := stack_ s; str_ := x; json_ := json_ s; jokey_ := jokey_ s |}.
Definition with_json (j : Json) (s : streaming_parser) :=
  {| state_ := state_ s; stack_ := stack_ s; str_ := str_ s; json_ := j; jokey_ := jokey_ s |}.
Definition with_jokey (j : Json) (s : streaming_parser) :=
  {| state_ := state_ s; stack_ := stack_ s; str_ := str_ s; json_ := json_ s; jokey_ := j |}.

Definition new_parser : streaming_parser :=
  {| state_ := st_normal; stack_ := []; str_ := []; json_ := JNull; jokey_ := JNull |}.
Definition reset (s : streaming_parser) : streaming_parser := with_state st_normal (with_stack [] s).
Definition empty (s : streaming_parser) : bool :=
  match state_ s, stack_ s with st_normal, [] => true | _, _ => false end.
Definition done (s : streaming_parser) : bool := match state_ s with st_final | st_error => true | _ => false end.
Definition success (s : streaming_parser) : bool := match state_ s with st_final => true | _ => false end.
Definition error (s : streaming_parser) : bool := match state_ s with st_error => true | _ => false end.

Definition nbytes : list Z :=
  [0; 0; 0; 0; 2; 3; 5; 0; 0; 0; 5; 9; 2; 3; 5; 9; 2; 3; 5; 9; 0; 0; 0; 0; 0; 2; 3; 5; 3; 5; 3; 5].

(** Where [jx] points. *)
Inductive target := TKey | TPath (p : list nat).
Fixpoint path (st : list selem) : option (list nat) :=
  match st with
  | [] => Some []
  | e :: st => match jp e with
               | jp_child i => p ← path st; Some (p ++ [i])
               | _ => None
               end
  end.
Definition jx_of (st : list selem) : option target :=
  match st with
  | [] => Some (TPath [])
  | e :: _ => match jp e with
              | jp_jokey => Some TKey
              | jp_child _ => p ← path st; Some (TPath p)
              | jp_null => None
              end
  end.
Definition get_jx (s : streaming_parser) (t : target) : option Json :=
  match t with TKey => Some (jokey_ s) | TPath p => get_at p (json_ s) end.
Definition set_jx (t : target) (v : Json) (s : streaming_parser) : option streaming_parser :=
  match t with
  | TKey => Some (with_jokey v s)
  | TPath p => j ← set_at p v (json_ s); Some (with_json j s)
  end.

(** How a round of the loop ends: with another round, or by returning. *)
Inductive outcome :=
| Go (s : streaming_parser) (first : list Z)
| Ret (s : streaming_parser) (first : list Z)
| Undef.
Definition of_option {A} (o : option A) (k : A -> outcome) : outcome :=
  match o with Some a => k a | None => Undef end.

Definition fail (s : streaming_parser) (first : list Z) : outcome := Ret (with_state st_error s) first.

(** From the label [next]: a value is complete or a container is opened. *)
Fixpoint pop_full (st : list selem) : list selem :=
  match st with
  | [] => []
  | e :: st' => if size e =? 0 then pop_full st' else st
  end.
Definition complete (s : streaming_parser) (first : list Z) : outcome :=
  match pop_full (stack_ s) with
  | [] => Ret (with_state st_final (with_stack [] s)) first
  | top :: below =>
      of_option (p ← path below; get_at p (json_ s)) (fun jo =>
      if size top =? - 2 ^ 31 then Undef
      else
        let ptr := if is_a jo then match jp top with jp_child i => jp_child (S i) | p => p end
                   else jp_jokey in
        Go (with_stack ({| jp := ptr; size := size top - 1 |} :: below) s) first)
  end.
Definition next (t : target) (n : Z) (s : streaming_parser) (first : list Z) : outcome :=
  match t with
  | TKey =>
      if negb (is_s (jokey_ s)) && negb (is_i (jokey_ s)) then fail s first
      else
        match stack_ s with
        | [] => Undef
        | top :: below =>
            of_option (path below) (fun p =>
            match get_at p (json_ s) with
            | Some (JObj l) =>
                let '(i, l) := find_insert (to_s (jokey_ s)) l in
                of_option (set_at p (JObj l) (json_ s)) (fun j =>
                Go (with_stack ({| jp := jp_child i; size := size top |} :: below) (with_json j s)) first)
            | _ => Undef
            end)
        end
  | TPath p =>
      match get_at p (json_ s) with
      | None => Undef
      | Some (JArr l) =>
          if n =? 0 then complete s first
          else of_option (set_at p (JArr (at_insert0 l)) (json_ s)) (fun j =>
               Go (with_stack ({| jp := jp_child 0; size := n - 1 |} :: stack_ s) (with_json j s)) first)
      | Some (JObj l) =>
          if n =? 0 then complete s first
          else if n =? - 2 ^ 31 then Undef
          else Go (with_stack ({| jp := jp_jokey; size := n - 1 |} :: stack_ s) s) first
      | Some _ => complete s first
      end
  end.

(** [*jx = v], and the code at the labels [map], [array] and [raw]; [n] only matters for
    containers. *)
Definition assign (t : target) (v : Json) (n : Z) (s : streaming_parser) (first : list Z) : outcome :=
  of_option (set_jx t v s) (fun s => next t n s first).
Definition do_map (t : target) (n : Z) (s : streaming_parser) (first : list Z) : outcome :=
  assign t (JObj []) n s first.
Definition do_array (t : target) (n : Z) (s : streaming_parser) (first : list Z) : outcome :=
  if n <? 0 then Undef
  else of_option (get_jx s t) (fun jx =>
  assign t (JArr (resize n (match jx with JArr l => l | _ => [] end))) n s first).
Definition do_raw (t : target) (n : Z) (s : streaming_parser) (first : list Z) : outcome :=
  if Z.of_nat (length first) <? n then
    Ret (with_state st_string (with_stack ({| jp := jp_null; size := n |} :: stack_ s) (with_str first s))) []
  else if n <? 0 then Undef
  else assign t (JStr (take (Z.to_nat n) first)) 0 s (drop (Z.to_nat n) first).

(** Conversion of the image of a [float] to that of the [double]. *)
Class Widen := widen : Z -> Z.
Section Stream.
Context {W : Widen}.

(** The switch on the format, with [num] the number behind it. *)
Definition dispatch (t : target) (b num : Z) (s : streaming_parser) (first : list Z) : outcome :=
  let set v := assign t v 0 s first in
  let n := to_signed 32 num in
  if b =? ffloat32 then set (JDouble (widen num))
  else if b =? ffloat64 then set (JDouble num)
  else if b =? fuint8 then set (JInt num)
  else if b =? fuint16 then set (JInt num)
  else if b =? fuint32 then set (JUnsigned num)
  else if b =? fuint64 then set (JUnsigned num)
  else if b =? fint8 then set (JInt (to_signed 8 num))
  else if b =? fint16 then set (JInt (to_signed 16 num))
  else if b =? fint32 then set (JInt (to_signed 32 num))
  else if b =? fint64 then set (JInt (to_signed 64 num))
  else if (b =? fbin8) || (b =? fstr8) || (b =? fbin16) || (b =? fstr16) || (b =? fbin32) || (b =? fstr32)
  then do_raw t n s first
  else if (b =? farray16) || (b =? farray32) then do_array t n s first
  else if (b =? fmap16) || (b =? fmap32) then do_map t n s first
  else Undef.

(** One round of the loop. *)
Definition step (s : streaming_parser) (first : list Z) : outcome :=
  match first with
  | [] => Undef
  | b :: r =>
      of_option (jx_of (stack_ s)) (fun t =>
      if is_fixint b then assign t (JInt (to_signed 8 b)) 0 s r
      else if b =? fnull then assign t JNull 0 s r
      else if is_bool b then assign t (JBool (negb (b - ffalse =? 0))) 0 s r
      else if is_fixmap b then do_map t (b - ffixmap) s r
      else if is_fixarray b then do_array t (b - ffixarray) s r
      else if is_fixstr b then do_raw t (b - ffixstr) s r
      else
        let k := get nbytes (u8 (b - fnull)) in
        if k =? 0 then fail s first
        else if Z.of_nat (length first) <? k then Ret (with_state st_partial (with_str first s)) []
        else dispatch t b (read_in_net_order (k - 1) r) s (drop (Z.to_nat k) first))
  end.

Fixpoint loop (fuel : nat) (s : streaming_parser) (first : list Z) : option (streaming_parser * list Z) :=
  match first with
  | [] => Some (with_state st_normal s, [])
  | _ =>
      match fuel with
      | O => None
      | S fuel =>
          match step s first with
          | Go s first => loop fuel s first
          | Ret s first => Some (s, first)
          | Undef => None
          end
      end
  end.
(** Every round reads at least one byte. *)
Definition run (s : streaming_parser) (first : list Z) := loop (length first) s first.
Definition resume (o : outcome) : option (streaming_parser * list Z) :=
  match o with
  | Go s first => run s first
  | Ret s first => Some (s, first)
  | Undef => None
  end.

Definition consume (s : streaming_parser) (first : list Z) : option (streaming_parser * list Z) :=
  let fill nneed k :=
    let m := nneed - Z.of_nat (length (str_ s)) in
    if Z.of_nat (length first) <? m then Some (with_str (str_ s ++ first) s, [])
    else k (with_str (str_ s ++ take (Z.to_nat m) first) s) (drop (Z.to_nat m) first) in
  match state_ s with
  | st_final | st_error => Some (s, first)
  | st_normal => run s first
  | st_partial =>
      fill (get nbytes (hd 0 (str_ s) - 0xC0)) (fun s rest =>
      '(s, _) ← run (with_state st_normal s) (str_ s);
      match state_ s with
      | st_normal => run s rest
      | _ => Some (s, rest)
      end)
  | st_string =>
      match stack_ s with
      | [] => None
      | top :: below =>
          fill (size top) (fun s rest =>
          match jx_of below with
          | Some t => resume (assign t (JStr (str_ s)) 0 (with_stack below s) rest)
          | None => None
          end)
      end
  end.

(** * Facts *)

(** Induction over the nested values. *)
Lemma Json_nested_ind (P : Json -> Prop) :
  P JNull -> (forall x, P (JInt x)) -> (forall x, P (JUnsigned x)) -> (forall x, P (JDouble x)) ->
  (forall b, P (JBool b)) -> (forall x, P (JStr x)) ->
  (forall l, Forall P l -> P (JArr l)) -> (forall l, Forall (fun kv => P kv.2) l -> P (JObj l)) ->
  forall j, P j.
Proof.
  intros Hn Hi Hu Hd Hb Hs Ha Ho. fix IH 1.
  intros [|x|x|x|b|x|l|l]; [exact Hn|apply Hi|apply Hu|apply Hd|apply Hb|apply Hs|apply Ha|apply Ho].
  - induction l as [|j l IHl]; constructor; [apply IH|exact IHl].
  - induction l as [|kv l IHl]; constructor; [apply IH|exact IHl].
Qed.

(** ** Places *)
Lemma set_at_total p v j o : get_at p j = Some o -> exists j', set_at p v j = Some j'.
Proof.
  revert j. induction p as [|i p IH]; intros j H; [by eexists|]. destruct j; try done; cbn in *;
    apply bind_Some in H as (x & E & H); rewrite E; cbn; destruct (IH _ H) as [j' ->]; by eexists.
Qed.
Lemma get_set_at p q v j j' : set_at p v j = Some j' -> get_at (p ++ q) j' = get_at q v.
Proof.
  revert j j'. induction p as [|i p IH]; intros j j' H; [by simplify_eq/=|].
  destruct j; try done; cbn in *; apply bind_Some in H as (x & E & H); apply bind_Some in H as (y & Ey & H);
    simplify_eq; rewrite list_lookup_insert_eq by (by eapply lookup_lt_Some); cbn; by eapply IH.
Qed.
Lemma set_set_at p v w j j' : set_at p v j = Some j' -> set_at p w j' = set_at p w j.
Proof.
  revert j j'. induction p as [|i p IH]; intros j j' H; [done|].
  destruct j; try done; cbn in *; apply bind_Some in H as (x & E & H); apply bind_Some in H as (y & Ey & H); simplify_eq.
  all: rewrite list_lookup_insert_eq by (by eapply lookup_lt_Some); cbn; rewrite (IH _ _ Ey), E; cbn.
  all: destruct (set_at p w _); [cbn; by rewrite list_insert_insert_eq|done].
Qed.
Lemma set_at_app p q v j o : get_at p j = Some o ->
  set_at (p ++ q) v j = o' ← set_at q v o; set_at p o' j.
Proof.
  revert j. induction p as [|i p IH]; intros j H; cbn in *.
  { simplify_eq. by destruct (set_at q v o). }
  destruct j; try done; apply bind_Some in H as (x & E & H); rewrite E; cbn; rewrite (IH _ H);
    by destruct (set_at q v o).
Qed.
Lemma get_at_app p q j : get_at (p ++ q) j = o ← get_at p j; get_at q o.
Proof.
  revert j. induction p as [|i p IH]; intros j; [done|].
  destruct j; try done; cbn; destruct (_ !! i); cbn; by rewrite ?IH.
Qed.

(** ** Rounds of the loop *)
(** Nothing but the amount of input decides how a round ends. *)
Definition framed (o : list Z -> outcome) : Prop :=
  (exists s, forall f, o f = Go s f) \/ (exists s, done s = true /\ forall f, o f = Ret s f) \/ (forall f, o f = Undef).
Ltac framed_ret := right; left; eexists; split; cycle 1; [intros; reflexivity|done].
Lemma complete_framed s : framed (complete s).
Proof.
  unfold complete. destruct (pop_full _) as [|top below]; [framed_ret|].
  destruct (p ← path below; _) as [jo|]; [|by right; right]. cbn.
  destruct (_ =? _); [by right; right|]. left. by eexists.
Qed.
Lemma next_framed t n s : framed (next t n s).
Proof.
  unfold next, fail. destruct t as [|p].
  - destruct (_ && _); [framed_ret|]. destruct (stack_ s) as [|top below]; [by right; right|].
    destruct (path below) as [p|]; [|by right; right]. cbn.
    destruct (get_at _ _) as [[]|]; try (by right; right). destruct (find_insert _ _).
    destruct (set_at _ _ _); [|by right; right]. left. by eexists.
  - destruct (get_at _ _) as [[]|]; try (apply complete_framed); [| |by right; right].
    + destruct (_ =? _); [apply complete_framed|]. destruct (set_at _ _ _); [|by right; right]. left. by eexists.
    + destruct (_ =? _); [apply complete_framed|]. destruct (_ =? _); [by right; right|]. left. by eexists.
Qed.
Lemma assign_framed t v n s : framed (assign t v n s).
Proof. unfold assign. destruct (set_jx t v s); [|by right; right]. apply next_framed. Qed.
Lemma do_array_framed t n s : framed (do_array t n s).
Proof.
  unfold do_array. destruct (n <? 0); [by right; right|]. destruct (get_jx s t); [|by right; right].
  apply assign_framed.
Qed.

Lemma framed_Go o f s' f' : framed o -> o f = Go s' f' -> f' `suffix_of` f.
Proof. intros [[s H]|[(s & _ & H)|H]] E; rewrite H in E; by simplify_eq. Qed.
Lemma do_raw_suffix t n s f s' f' : do_raw t n s f = Go s' f' -> f' `suffix_of` f.
Proof.
  unfold do_raw. intros H. destruct (_ <? n); [done|]. destruct (n <? 0); [done|].
  apply framed_Go in H; [|apply assign_framed]. etransitivity; [done|apply suffix_drop].
Qed.
Lemma dispatch_suffix t b num s f s' f' : dispatch t b num s f = Go s' f' -> f' `suffix_of` f.
Proof.
  unfold dispatch. cbn zeta. intros H.
  repeat (destruct (b =? _) in H; cbn [orb] in H;
    [first [by eapply framed_Go; [apply assign_framed|] | by eapply do_raw_suffix
           | by eapply framed_Go; [apply do_array_framed|]]|]).
  done.
Qed.

Lemma nbytes_range i : 0 <= get nbytes i <= 9.
Proof.
  unfold get. destruct (i <? 0); [lia|].
  destruct (nth_in_or_default (Z.to_nat i) nbytes 0) as [H| ->]; [|lia].
  revert H. generalize (nth (Z.to_nat i) nbytes 0). apply List.Forall_forall.
  unfold nbytes. repeat (apply List.Forall_cons; [lia|]). apply List.Forall_nil.
Qed.
Lemma of_option_Go {A} (o : option A) k s f : of_option o k = Go s f -> exists a, o = Some a /\ k a = Go s f.
Proof. destruct o as [a|]; [by exists a|done]. Qed.
Lemma step_suffix s b r s' f' : step s (b :: r) = Go s' f' -> f' `suffix_of` r.
Proof.
  unfold step, fail, do_map. intros H. apply of_option_Go in H as (t & _ & H).
  do 6 (destruct (_ : bool) in H;
    [first [by eapply framed_Go; [apply assign_framed|] | by eapply do_raw_suffix
           | by eapply framed_Go; [apply do_array_framed|]]|]).
  cbn zeta in H. destruct (_ =? 0) eqn:E0 in H; [done|]. destruct (_ <? _) in H; [done|].
  apply dispatch_suffix in H. etransitivity; [done|].
  pose proof (nbytes_range (u8 (b - fnull))). boolify.
  replace (Z.to_nat (get nbytes (u8 (b - fnull)))) with (S (Z.to_nat (get nbytes (u8 (b - fnull)) - 1))) by lia.
  rewrite skipn_cons. apply suffix_drop.
Qed.
Lemma step_shorter s f s' f' : step s f = Go s' f' -> (length f' < length f)%nat.
Proof.
  destruct f as [|b r]; [done|]. intros H. apply step_suffix, suffix_length in H. cbn. lia.
Qed.

(** The fuel of [run] is enough, so its rounds follow the step function. *)
Lemma loop_fuel n m s f : (length f <= n)%nat -> (length f <= m)%nat -> loop n s f = loop m s f.
Proof.
  revert m s f. induction n as [|n IH]; intros m s f Hn Hm.
  - destruct f; [by destruct m|cbn in *; lia].
  - destruct f as [|b r]; [by destruct m|]. destruct m as [|m]; [cbn in *; lia|].
    cbn [loop]. destruct (step s (b :: r)) as [s' f'|s' f'|] eqn:E; [|done..].
    apply step_shorter in E. cbn in *. apply IH; lia.
Qed.
Lemma run_step s f : f <> [] -> run s f = resume (step s f).
Proof.
  intros Hf. unfold run. destruct f as [|b r]; [done|]. cbn [length loop].
  destruct (step s (b :: r)) as [s' f'|s' f'|] eqn:E; [|done..].
  apply step_shorter in E. cbn in *. unfold run. apply loop_fuel; lia.
Qed.
Lemma loop_None_fuel n s : loop n s [] = Some (with_state st_normal s, []).
Proof. by destruct n. Qed.

(** A round on a value with a format byte and a number. *)
Definition plain (b : Z) : bool :=
  negb (is_fixint b || (b =? fnull) || is_bool b || is_fixmap b || is_fixarray b || is_fixstr b).
Lemma step_plain s t b r : jx_of (stack_ s) = Some t -> plain b = true ->
  step s (b :: r) =
    let k := get nbytes (u8 (b - fnull)) in
    if k =? 0 then fail s (b :: r)
    else if Z.of_nat (length (b :: r)) <? k then Ret (with_state st_partial (with_str (b :: r) s)) []
    else dispatch t b (read_in_net_order (k - 1) r) s (drop (Z.to_nat k) (b :: r)).
Proof.
  intros Ht Hb. unfold step. rewrite Ht. cbn [of_option]. unfold plain in Hb. apply negb_true_iff in Hb.
  by repeat (apply orb_false_iff in Hb as [Hb ->]); rewrite Hb.
Qed.
Lemma step_number s t f k x rest : jx_of (stack_ s) = Some t -> plain f = true -> 0 < k ->
  get nbytes (u8 (f - fnull)) = k + 1 ->
  step s (f :: net_bytes k x ++ rest) = dispatch t f (wrap (8 * k) x) s rest.
Proof.
  intros Ht Hf Hk Hn. rewrite (step_plain s t) by done. cbn zeta. rewrite Hn.
  pose proof (length_net_bytes k x ltac:(lia)) as El. cbn [length]. rewrite length_app.
  destruct (Z.eqb_spec (k + 1) 0); [lia|].
  destruct (Z.ltb_spec (Z.of_nat (S (length (net_bytes k x) + length rest))) (k + 1)); [lia|].
  replace (k + 1 - 1) with k by lia. rewrite read_net_bytes by lia. f_equal.
  change (f :: net_bytes k x ++ rest) with ((f :: net_bytes k x) ++ rest).
  apply drop_app_length'. cbn [length]. lia.
Qed.

(** What an integer becomes. *)
Definition int_json (sg : bool) (x : Z) : Json :=
  if sg then JInt x else if x <? 65536 then JInt x else JUnsigned x.
Lemma step_fix s t x rest : jx_of (stack_ s) = Some t -> - 32 <= x < 128 ->
  step s (u8 x :: rest) = assign t (JInt x) 0 s rest.
Proof. intros Ht Hx. destruct (fixint_spec x Hx) as [H1 H2]. unfold step. by rewrite Ht, H1, H2. Qed.
Ltac decide_formats :=
  repeat match goal with
  | |- context [?a =? ?b] =>
      let r := eval vm_compute in (a =? b) in
      match r with true => change (a =? b) with true | false => change (a =? b) with false end
  end; cbn [orb]; cbv iota.
Lemma step_int s t sg bs x rest : jx_of (stack_ s) = Some t -> int_form sg bs x ->
  step s (bs ++ rest) = assign t (int_json sg x) 0 s rest.
Proof.
  intros Ht [[-> Hx]|(f & k & Hf & Hx & -> & Hb)].
  - cbn [app]. rewrite (step_fix s t) by done. unfold int_json. destruct sg; [done|].
    destruct (Z.ltb_spec x 65536); [done|lia].
  - cbn [app]. unfold int_json, int_ok in *.
    each_format Hf; rewrite (step_number s t) by (done || lia); unfold dispatch; cbn zeta; decide_formats;
      rewrite ?to_signed_wrap by (cbn in *; lia); rewrite ?wrap_small by (cbn in *; lia); try done;
      (destruct (Z.ltb_spec x 65536); [done || lia|done || lia]).
Qed.

Lemma to_signed_small w x : 0 < w -> 0 <= x < 2 ^ (w - 1) -> to_signed w x = x.
Proof.
  intros Hw Hx. rewrite <- (to_signed_wrap w x) at 2 by lia. unfold to_signed. by rewrite wrap_wrap.
Qed.

(** Lengths: a small one is in the format byte, the others behind it. *)
Definition length_form (fix_ nfix : Z) (fs : list (Z * Z)) (h : list Z) (n : Z) : Prop :=
  (h = [u8 (fix_ + n)] /\ 0 <= n < nfix) \/
  exists f k, (f, k) ∈ fs /\ h = f :: net_bytes k n /\ 0 <= n < 2 ^ (8 * k).
Lemma length_form_cons fix_ nfix fs h n : length_form fix_ nfix fs h n -> h <> [].
Proof. by intros [[-> _]|(? & ? & _ & -> & _)]. Qed.

Ltac each_in H :=
  repeat (apply elem_of_cons in H as [[= -> ->]|H]); [..|by apply elem_of_nil in H].
Ltac each_in1 H :=
  repeat (apply elem_of_cons in H as [->|H]); [..|by apply elem_of_nil in H].
Ltac write_form := split_and!; [by rewrite <- ?app_assoc|done|].
Lemma length_writes s data n : Z.of_nat (length data) < 2 ^ 31 -> 0 <= n < 2 ^ 31 ->
  (exists h, write_string s data = s ++ h ++ data /\ Z.of_nat (length h) <= 5 /\
    length_form ffixstr 32 [(fstr8, 1); (fstr16, 2); (fstr32, 4)] h (Z.of_nat (length data))) /\
  (exists h, write_array_header s n = s ++ h /\ Z.of_nat (length h) <= 5 /\
    length_form ffixarray 16 [(farray16, 2); (farray32, 4)] h n) /\
  (exists h, write_map_header s n = s ++ h /\ Z.of_nat (length h) <= 5 /\
    length_form ffixmap 16 [(fmap16, 2); (fmap32, 4)] h n).
Proof.
  intros Hd Hn. unfold write_string, write_array_header, write_map_header. cbn zeta.
  set (m := Z.of_nat (length data)) in *. assert (0 <= m) by lia.
  rewrite put_put, !write_net. unfold put. change nfixstr with 32. change nfixarray with 16. change nfixmap with 16.
  assert (Hk : forall f k fix_ nfix fs x, (f, k) ∈ fs -> 0 <= x < 2 ^ (8 * k) -> length_form fix_ nfix fs (f :: net_bytes k x) x)
    by (intros f k fx nf fs x ? ?; right; by exists f, k).
  split_and!.
  - destruct (Z.ltb_spec m 32); [|destruct (Z.ltb_spec m 256); [|destruct (Z.ltb_spec m 65536)]].
    + exists [u8 (ffixstr + m)]. write_form. by left.
    + exists [fstr8; u8 m]. write_form. rewrite byte_net. apply Hk; [repeat constructor|cbn; lia].
    + exists (fstr16 :: net_bytes 2 m). write_form. apply Hk; [repeat constructor|cbn; lia].
    + exists (fstr32 :: net_bytes 4 m). write_form. apply Hk; [repeat constructor|cbn; lia].
  - destruct (Z.ltb_spec n 16); [|destruct (Z.ltb_spec n 65536)].
    + exists [u8 (ffixarray + n)]. write_form. left. split; [done|lia].
    + exists (farray16 :: net_bytes 2 n). write_form. apply Hk; [repeat constructor|cbn; lia].
    + exists (farray32 :: net_bytes 4 n). write_form. apply Hk; [repeat constructor|cbn; lia].
  - destruct (Z.ltb_spec n 16); [|destruct (Z.ltb_spec n 65536)].
    + exists [u8 (ffixmap + n)]. write_form. left. split; [done|lia].
    + exists (fmap16 :: net_bytes 2 n). write_form. apply Hk; [repeat constructor|cbn; lia].
    + exists (fmap32 :: net_bytes 4 n). write_form. apply Hk; [repeat constructor|cbn; lia].
Qed.

Lemma step_length {s t fix_ nfix fs h n} rest (k : target -> Z -> streaming_parser -> list Z -> outcome) :
  jx_of (stack_ s) = Some t -> length_form fix_ nfix fs h n -> 0 <= n < 2 ^ 31 ->
  (fix_, nfix, k) ∈ [(ffixstr, 32, do_raw); (ffixarray, 16, do_array); (ffixmap, 16, do_map)] ->
  (forall f w, (f, w) ∈ fs -> (f, w, k) ∈ [(fstr8, 1, do_raw); (fstr16, 2, do_raw); (fstr32, 4, do_raw);
     (farray16, 2, do_array); (farray32, 4, do_array); (fmap16, 2, do_map); (fmap32, 4, do_map)]) ->
  step s (h ++ rest) = k t n s rest.
Proof.
  intros Ht [[-> H]|(f & w & Hf & -> & H)] Hn Hk Hfs.
  - repeat (apply elem_of_cons in Hk as [[= -> -> ->]|Hk]); [..|by apply elem_of_nil in Hk].
    all: cbn [app]; unfold step; rewrite Ht; cbn [of_option].
    all: cbv delta [ffixstr ffixarray ffixmap]; rewrite (wrap_small 8) by lia.
    all: decide_formats.
    all: format_tests.
    all: rewrite (proj2 (Z.eqb_neq _ 192)) by lia; f_equal; lia.
  - apply Hfs in Hf. clear Hk Hfs. repeat (apply elem_of_cons in Hf as [[= -> -> ->]|Hf]); [..|by apply elem_of_nil in Hf].
    all: cbn [app]; rewrite (step_number s t) by (done || lia); unfold dispatch; cbn zeta; decide_formats.
    all: rewrite wrap_small, to_signed_small by (cbn in *; lia); done.
Qed.

(** ** Unparsing appends bytes that do not depend on what is there *)
Definition appends (w : list Z -> option (list Z)) (bs : list Z) : Prop := forall base, w base = Some (base ++ bs).
Lemma reserved_appends n w bs : (forall s, w s = s ++ bs) -> Z.of_nat (length bs) <= n -> appends (reserved n w) bs.
Proof. intros H Hl base. by apply reserved_ok. Qed.
Definition uniform (w : list Z -> list Z) : Prop := forall s, w s = s ++ w [].
Ltac uniform :=
  intros s; unfold write_unsigned8, write_signed8, write_unsigned4, write_signed4, write_string, write_array_header,
    write_map_header; cbn zeta; repeat case_match; unfold put, write_in_net_order; by rewrite <- ?app_assoc.
Lemma uniform_writes x data : uniform (fun s => write_unsigned8 s x) /\ uniform (fun s => write_signed8 s x) /\
  uniform (fun s => write_string s data) /\ uniform (fun s => write_array_header s x) /\
  uniform (fun s => write_map_header s x).
Proof. split_and!; uniform. Qed.
Lemma uniform_appends n w bs : uniform w -> w [] = bs -> Z.of_nat (length bs) <= n -> appends (reserved n w) bs.
Proof. intros Hu E Hl. apply reserved_appends; [|done]. intros s. by rewrite Hu, E. Qed.

(** The encodings of the values, and the round that reads each. *)
Lemma encode_int (sg : bool) (x : Z) : (if sg then - 2 ^ 63 <= x < 2 ^ 63 else 0 <= x < 2 ^ 64) ->
  exists bs, appends (reserved 9 (fun s => (if sg then write_signed8 else write_unsigned8) s x)) bs /\ bs <> [] /\
    forall s t rest, jx_of (stack_ s) = Some t -> step s (bs ++ rest) = assign t (int_json sg x) 0 s rest.
Proof.
  intros Hx. destruct (uniform_writes x []) as (U1 & U2 & _).
  assert (exists bs, (if sg then write_signed8 else write_unsigned8) [] x = bs /\
    int_form sg bs x /\ Z.of_nat (length bs) <= 9) as (bs & E & Hf & Hl).
  { destruct sg; [destruct (write_signed8_ok [] x Hx) as (bs & E & Hf & Hl & _)
                 |destruct (write_unsigned8_ok [] x Hx) as (bs & E & Hf & Hl & _)]; by exists bs. }
  exists bs. split_and!.
  - destruct sg; by apply uniform_appends.
  - by destruct Hf as [[-> _]|(? & ? & _ & _ & -> & _)].
  - intros. by eapply step_int.
Qed.
Lemma encode_str (data : list Z) : Z.of_nat (length data) < 2 ^ 31 ->
  exists bs, appends (fun base => unparse_str base data) bs /\ bs <> [] /\
    forall s t rest, jx_of (stack_ s) = Some t -> step s (bs ++ rest) = assign t (JStr data) 0 s rest.
Proof.
  intros Hd. destruct (length_writes [] data 0) as ((h & E & Hl & Hf) & _); [done|lia|].
  destruct (uniform_writes 0 data) as (_ & _ & U & _).
  exists (h ++ data). split_and!.
  - apply uniform_appends; [done..|]. rewrite length_app. lia.
  - intros [-> _]%app_eq_nil. by apply length_form_cons in Hf.
  - intros s t rest Ht. rewrite <- app_assoc.
    rewrite (step_length (data ++ rest) do_raw Ht Hf); [|lia|repeat constructor|].
    + unfold do_raw. rewrite length_app.
      destruct (Z.ltb_spec (Z.of_nat (length data + length rest)) (Z.of_nat (length data))); [lia|].
      destruct (Z.ltb_spec (Z.of_nat (length data)) 0); [lia|].
      by rewrite take_app_length', drop_app_length' by lia.
    + intros f w Hfw. each_in Hfw; repeat constructor.
Qed.
Lemma encode_array n : 0 <= n < 2 ^ 31 ->
  exists bs, appends (fun base => unparse_array base n) bs /\ bs <> [] /\
    forall s t rest, jx_of (stack_ s) = Some t -> step s (bs ++ rest) = do_array t n s rest.
Proof.
  intros Hn. destruct (length_writes [] [] n) as (_ & (h & E & Hl & Hf) & _); [done|lia|].
  destruct (uniform_writes n []) as (_ & _ & _ & U & _). exists h. split_and!.
  - by apply uniform_appends.
  - by apply length_form_cons in Hf.
  - intros s t rest Ht. apply (step_length rest do_array Ht Hf); [lia|repeat constructor|].
    intros f w Hfw. each_in Hfw; repeat constructor.
Qed.
Lemma encode_map n : 0 <= n < 2 ^ 31 ->
  exists bs, appends (fun base => unparse_object base n) bs /\ bs <> [] /\
    forall s t rest, jx_of (stack_ s) = Some t -> step s (bs ++ rest) = do_map t n s rest.
Proof.
  intros Hn. destruct (length_writes [] [] n) as (_ & _ & (h & E & Hl & Hf)); [done|lia|].
  destruct (uniform_writes n []) as (_ & _ & _ & _ & U). exists h. split_and!.
  - by apply uniform_appends.
  - by apply length_form_cons in Hf.
  - intros s t rest Ht. apply (step_length rest do_map Ht Hf); [lia|repeat constructor|].
    intros f w Hfw. each_in Hfw; repeat constructor.
Qed.

(** ** Round trip *)

(** The values the parser can give back: numbers in range, lengths that are [int]s, and
    different keys. *)
Fixpoint json_ok (j : Json) : bool :=
  match j with
  | JNull | JBool _ => true
  | JInt x => (- 2 ^ 63 <=? x) && (x <? 2 ^ 63)
  | JUnsigned x | JDouble x => (0 <=? x) && (x <? 2 ^ 64)
  | JStr x => Z.of_nat (length x) <? 2 ^ 31
  | JArr l => (Z.of_nat (length l) <? 2 ^ 31) && forallb json_ok l
  | JObj l => (Z.of_nat (length l) <? 2 ^ 31) && bool_decide (NoDup (l.*1)) &&
              forallb (fun kv => (Z.of_nat (length kv.1) <? 2 ^ 31) && json_ok kv.2) l
  end.
(** Unsigned numbers of at most 16 bits come back as signed ones. *)
Fixpoint reread (j : Json) : Json :=
  match j with
  | JUnsigned x => int_json false x
  | JArr l => JArr (reread <$> l)
  | JObj l => JObj ((fun kv => (kv.1, reread kv.2)) <$> l)
  | _ => j
  end.

(** Reading [bs] at the place [p] puts [v] there and completes it. *)
Definition reads (bs : list Z) (v : Json) : Prop :=
  forall s p o j rest, jx_of (stack_ s) = Some (TPath p) -> get_at p (json_ s) = Some o ->
    set_at p v (json_ s) = Some j ->
    exists k, run s (bs ++ rest) = resume (complete (with_jokey k (with_json j s)) rest).
Definition scalar (v : Json) : bool := negb (is_a v) && negb (is_o v).

Lemma with_jokey_id s : with_jokey (jokey_ s) s = s.
Proof. by destruct s. Qed.
Lemma reads_scalar bs v : bs <> [] -> scalar v = true ->
  (forall s t rest, jx_of (stack_ s) = Some t -> step s (bs ++ rest) = assign t v 0 s rest) -> reads bs v.
Proof.
  intros Hb Hv Hs s p o j rest Ht Ho Hj. exists (jokey_ s). rewrite run_step by (by intros [? ?]%app_eq_nil).
  rewrite (Hs s (TPath p) rest Ht). unfold assign, set_jx. rewrite Hj. cbn [mbind option_bind of_option].
  unfold next. cbn [json_ with_json]. pose proof (get_set_at p [] _ _ _ Hj) as E. rewrite app_nil_r in E. rewrite E. cbn [get_at].
  change (jokey_ s) with (jokey_ (with_json j s)). rewrite with_jokey_id. by destruct v.
Qed.

Lemma complete_full e st s f : size e = 0 -> complete (with_stack (e :: st) s) f = complete (with_stack st s) f.
Proof.
  intros H. unfold complete. cbn [stack_ with_stack pop_full]. rewrite H. cbn [Z.eqb].
  by destruct (pop_full st).
Qed.
Lemma complete_next p e st s jo f : path st = Some p -> get_at p (json_ s) = Some jo -> 0 < size e < 2 ^ 31 ->
  complete (with_stack (e :: st) s) f =
    Go (with_stack ({| jp := if is_a jo then match jp e with jp_child i => jp_child (S i) | q => q end else jp_jokey;
                       size := size e - 1 |} :: st) s) f.
Proof.
  intros Hp Hj He. unfold complete. cbn [stack_ with_stack pop_full].
  destruct (Z.eqb_spec (size e) 0); [lia|]. rewrite Hp. cbn [mbind option_bind json_ with_stack]. rewrite Hj.
  cbn [of_option]. by destruct (Z.eqb_spec (size e) (- 2 ^ 31)); [lia|].
Qed.

Fixpoint unparse_all (base : list Z) (l : list Json) : option (list Z) :=
  match l with [] => Some base | j :: l => base ← unparse base j; unparse_all base l end.
Fixpoint unparse_items (base : list Z) (l : list (list Z * Json)) : option (list Z) :=
  match l with
  | [] => Some base
  | kv :: l => base ← unparse_str base kv.1; base ← unparse base kv.2; unparse_items base l
  end.
Lemma unparse_JArr base l : unparse base (JArr l) = base ← unparse_array base (Z.of_nat (length l)); unparse_all base l.
Proof. done. Qed.
Lemma unparse_JObj base l : unparse base (JObj l) = base ← unparse_object base (Z.of_nat (length l)); unparse_items base l.
Proof. done. Qed.
Lemma appends_bind w w' bs bs' : appends w bs -> appends w' bs' -> appends (fun b => b ← w b; w' b) (bs ++ bs').
Proof. intros H H' base. rewrite H. cbn. rewrite H'. by rewrite app_assoc. Qed.

(** The encoding of [j] reads back. *)
Definition reads_back (j : Json) : Prop :=
  exists bs, appends (fun b => unparse b j) bs /\ bs <> [] /\ reads bs (reread j).

(** Writing the child [i] of the container at [p]. *)
Lemma set_child_arr p i v j dn o olds : get_at p j = Some (JArr (dn ++ o :: olds)) -> length dn = i ->
  get_at (p ++ [i]) j = Some o /\
  exists j1, set_at (p ++ [i]) v j = Some j1 /\ set_at p (JArr (dn ++ v :: olds)) j = Some j1.
Proof.
  intros H <-. rewrite get_at_app, H. cbn. rewrite list_lookup_middle by done. split; [done|].
  rewrite (set_at_app _ _ _ _ _ H). cbn. rewrite list_lookup_middle by done. cbn.
  rewrite insert_app_r_alt, Nat.sub_diag by lia. cbn.
  destruct (set_at_total p (JArr (dn ++ v :: olds)) j _ H) as [j1 E]. by exists j1.
Qed.

Lemma reads_elems l : Forall reads_back l -> l <> [] ->
  exists bs, appends (fun b => unparse_all b l) bs /\ bs <> [] /\
  forall s st p dn olds j rest, path st = Some p -> get_at p (json_ s) = Some (JArr (dn ++ olds)) ->
    length olds = length l -> Z.of_nat (length l) < 2 ^ 31 ->
    set_at p (JArr (dn ++ (reread <$> l))) (json_ s) = Some j ->
    exists k, run (with_stack ({| jp := jp_child (length dn); size := Z.of_nat (length l) - 1 |} :: st) s) (bs ++ rest) =
              resume (complete (with_jokey k (with_json j (with_stack st s))) rest).
Proof.
  intros Hl. induction Hl as [|v l (b & Hb & Hb0 & Hr) Hl IH]; [done|intros _].
  assert (exists bs, appends (fun b => unparse_all b l) bs /\ (l <> [] -> bs <> [] /\
    forall s st p dn olds j rest, path st = Some p -> get_at p (json_ s) = Some (JArr (dn ++ olds)) ->
    length olds = length l -> Z.of_nat (length l) < 2 ^ 31 ->
    set_at p (JArr (dn ++ (reread <$> l))) (json_ s) = Some j ->
    exists k, run (with_stack ({| jp := jp_child (length dn); size := Z.of_nat (length l) - 1 |} :: st) s) (bs ++ rest) =
              resume (complete (with_jokey k (with_json j (with_stack st s))) rest))) as (bs & Hbs & IH').
  { destruct l as [|v' l]; [exists []; split; [intros base; cbn; by rewrite app_nil_r|done]|].
    destruct IH as (bs & ? & ? & ?); [done|]. by exists bs. }
  clear IH. exists (b ++ bs). split_and!; [by apply appends_bind|by intros [? ?]%app_eq_nil|].
  intros s st p dn [|o olds] j rest Hp Hg Ho Hlt Hj; [done|].
  destruct (set_child_arr p (length dn) (reread v) (json_ s) dn o olds Hg eq_refl) as (Hgo & j1 & Hs1 & Hs2).
  rewrite <- app_assoc.
  edestruct (Hr (with_stack ({| jp := jp_child (length dn); size := Z.of_nat (length (v :: l)) - 1 |} :: st) s)
    (p ++ [length dn]) o j1 (bs ++ rest)) as [k Ek]; [cbn; by rewrite Hp|done|done|].
  rewrite Ek. clear Ek.
  change (with_jokey k (with_json j1 (with_stack ?q s))) with (with_stack q (with_jokey k (with_json j1 s))).
  destruct l as [|v' l].
  - exists k. rewrite complete_full by done. destruct olds; [|done]. cbn [fmap list_fmap] in Hj.
    assert (j1 = j) as -> by congruence. pose proof (Hbs []) as E. cbn in E. by simplify_eq.
  - destruct (IH' ltac:(done)) as [_ IH]. clear IH'.
    rewrite (complete_next p _ _ _ (JArr (dn ++ reread v :: olds))); [|done| |cbn [size length] in *; lia].
    + cbn [is_a jp size resume]. rewrite cons_middle, app_assoc in Hs2.
      replace (S (length dn)) with (length (dn ++ [reread v])) by (rewrite length_app; cbn; lia).
      replace (Z.of_nat (length (v :: v' :: l)) - 1 - 1) with (Z.of_nat (length (v' :: l)) - 1) by (cbn [length]; lia).
      edestruct (IH (with_jokey k (with_json j1 s)) st p (dn ++ [reread v]) olds j rest) as [k' Ek];
        [done| | by injection Ho|cbn [length] in *; lia| |by exists k'].
      * cbn [json_ with_jokey with_json]. pose proof (get_set_at p [] _ _ _ Hs2) as E. by rewrite app_nil_r in E.
      * cbn [json_ with_jokey with_json]. rewrite (set_set_at _ _ _ _ _ Hs2), <- app_assoc. exact Hj.
    + cbn [json_ with_jokey with_json]. pose proof (get_set_at p [] _ _ _ Hs2) as E. by rewrite app_nil_r in E.
Qed.

Lemma find_insert_new key l : key ∉ l.*1 -> find_insert key l = (length l, l ++ [(key, JNull)]).
Proof.
  induction l as [|[k v] l IH]; intros Hn; [done|]. cbn in *. apply not_elem_of_cons in Hn as [Hne Hn].
  destruct (decide (k = key)); [by subst|]. by rewrite IH.
Qed.
Lemma set_child_obj p key v j dn o : get_at p j = Some (JObj (dn ++ [(key, o)])) ->
  get_at (p ++ [length dn]) j = Some o /\
  exists j1, set_at (p ++ [length dn]) v j = Some j1 /\ set_at p (JObj (dn ++ [(key, v)])) j = Some j1.
Proof.
  intros H. rewrite get_at_app, H. cbn. rewrite list_lookup_middle by done. split; [done|].
  rewrite (set_at_app _ _ _ _ _ H). cbn. rewrite list_lookup_middle by done. cbn.
  rewrite insert_app_r_alt, Nat.sub_diag by lia. cbn.
  destruct (set_at_total p (JObj (dn ++ [(key, v)])) j _ H) as [j1 E]. by exists j1.
Qed.
Lemma get_set_here p v j j' : set_at p v j = Some j' -> get_at p j' = Some v.
Proof. intros H. pose proof (get_set_at p [] _ _ _ H) as E. by rewrite app_nil_r in E. Qed.

(** Reading a key moves the top of the stack from the key buffer to a new item. *)
Lemma reads_key key : Z.of_nat (length key) < 2 ^ 31 ->
  exists bs, appends (fun b => unparse_str b key) bs /\ bs <> [] /\
  forall s st p dn m j rest, path st = Some p -> get_at p (json_ s) = Some (JObj dn) -> key ∉ dn.*1 ->
    set_at p (JObj (dn ++ [(key, JNull)])) (json_ s) = Some j ->
    run (with_stack ({| jp := jp_jokey; size := m |} :: st) s) (bs ++ rest) =
    run (with_jokey (JStr key) (with_json j (with_stack ({| jp := jp_child (length dn); size := m |} :: st) s))) rest.
Proof.
  intros Hk. destruct (encode_str key Hk) as (bs & Hb & Hb0 & Hs). exists bs. split_and!; [done|done|].
  intros s st p dn m j rest Hp Hg Hn Hj. rewrite run_step by (by intros [? ?]%app_eq_nil).
  rewrite (Hs _ TKey) by done. unfold assign, next. cbn. rewrite Hp. cbn. rewrite Hg.
  rewrite find_insert_new by done. cbn. by rewrite Hj.
Qed.

Definition item_ok (kv : list Z * Json) : Prop := reads_back kv.2 /\ Z.of_nat (length kv.1) < 2 ^ 31.
Abbreviation reread_item := (fun kv : list Z * Json => (kv.1, reread kv.2)).
Lemma reads_items l : Forall item_ok l -> l <> [] ->
  exists bs, appends (fun b => unparse_items b l) bs /\ bs <> [] /\
  forall s st p dn j rest, path st = Some p -> get_at p (json_ s) = Some (JObj dn) ->
    NoDup (dn.*1 ++ l.*1) -> Z.of_nat (length l) < 2 ^ 31 ->
    set_at p (JObj (dn ++ (reread_item <$> l))) (json_ s) = Some j ->
    exists k, run (with_stack ({| jp := jp_jokey; size := Z.of_nat (length l) - 1 |} :: st) s) (bs ++ rest) =
              resume (complete (with_jokey k (with_json j (with_stack st s))) rest).
Proof.
  intros Hl. induction Hl as [|[key v] l [(b & Hb & Hb0 & Hr) Hk] Hl IH]; [done|intros _]. cbn [fst snd] in *.
  assert (exists bs, appends (fun b => unparse_items b l) bs /\ (l <> [] ->
    forall s st p dn j rest, path st = Some p -> get_at p (json_ s) = Some (JObj dn) ->
    NoDup (dn.*1 ++ l.*1) -> Z.of_nat (length l) < 2 ^ 31 ->
    set_at p (JObj (dn ++ (reread_item <$> l))) (json_ s) = Some j ->
    exists k, run (with_stack ({| jp := jp_jokey; size := Z.of_nat (length l) - 1 |} :: st) s) (bs ++ rest) =
              resume (complete (with_jokey k (with_json j (with_stack st s))) rest))) as (bs & Hbs & IH').
  { destruct l as [|v' l]; [exists []; split; [intros base; cbn; by rewrite app_nil_r|done]|].
    destruct IH as (bs & ? & ? & ?); [done|]. by exists bs. }
  clear IH. destruct (reads_key key Hk) as (kb & Hkb & Hkb0 & Hkr).
  exists (kb ++ b ++ bs). split_and!; [by repeat apply appends_bind|by intros [? ?]%app_eq_nil|].
  intros s st p dn j rest Hp Hg Hnd Hlt Hj. rewrite <- !app_assoc.
  assert (key ∉ dn.*1) by (cbn in Hnd; apply list.NoDup_app in Hnd as (_ & Hd & _); intros Hx; apply (Hd _ Hx); left).
  destruct (set_at_total p (JObj (dn ++ [(key, JNull)])) (json_ s) _ Hg) as [j0 Hj0].
  rewrite (Hkr s st p dn _ j0) by done.
  destruct (set_child_obj p key (reread v) j0 dn JNull (get_set_here _ _ _ _ Hj0)) as (Hgo & j1 & Hs1 & Hs2).
  edestruct (Hr (with_jokey (JStr key) (with_json j0 (with_stack
    ({| jp := jp_child (length dn); size := Z.of_nat (length ((key, v) :: l)) - 1 |} :: st) s)))
    (p ++ [length dn]) JNull j1 (bs ++ rest)) as [k Ek]; [cbn; by rewrite Hp|done|done|].
  rewrite Ek. clear Ek. rewrite (set_set_at _ _ _ _ _ Hj0) in Hs2.
  change (with_jokey k (with_json j1 (with_jokey ?k0 (with_json ?j2 (with_stack ?q s)))))
    with (with_stack q (with_jokey k (with_json j1 s))).
  destruct l as [|kv' l].
  - exists k. rewrite complete_full by done. cbn [fmap list_fmap fst snd] in Hj.
    assert (j1 = j) as -> by congruence. pose proof (Hbs []) as E. cbn in E. by simplify_eq.
  - specialize (IH' ltac:(done)).
    rewrite (complete_next p _ _ _ (JObj (dn ++ [(key, reread v)])));
      [|done|exact (get_set_here _ _ _ _ Hs2)|cbn [size length] in *; lia].
    cbn [is_a jp size resume].
    replace (Z.of_nat (length ((key, v) :: kv' :: l)) - 1 - 1) with (Z.of_nat (length (kv' :: l)) - 1) by (cbn [length]; lia).
    edestruct (IH' (with_jokey k (with_json j1 s)) st p (dn ++ [(key, reread v)]) j rest) as [k' Ek];
      [done|exact (get_set_here _ _ _ _ Hs2)| |cbn [length] in *; lia| |by exists k'].
    + rewrite fmap_app, <- app_assoc. exact Hnd.
    + cbn [json_ with_jokey with_json]. rewrite (set_set_at _ _ _ _ _ Hs2), <- app_assoc. exact Hj.
Qed.

Lemma jx_path st p : jx_of st = Some (TPath p) -> path st = Some p.
Proof.
  destruct st as [|e st]; cbn; [congruence|]. destruct (jp e); [done|done|].
  destruct (path st); cbn; congruence.
Qed.
Lemma length_resize n l : length (resize n l) = Z.to_nat n.
Proof. unfold resize. rewrite length_app, length_take, length_replicate. lia. Qed.

Lemma array_reads_back l : Forall reads_back l -> Z.of_nat (length l) < 2 ^ 31 -> reads_back (JArr l).
Proof.
  intros Hl Hlt. destruct (encode_array (Z.of_nat (length l))) as (h & Hh & Hh0 & Hs); [lia|].
  assert (exists es, appends (fun b => unparse_all b l) es /\ (forall s p o j rest, jx_of (stack_ s) = Some (TPath p) ->
    get_at p (json_ s) = Some o -> set_at p (JArr (reread <$> l)) (json_ s) = Some j ->
    exists k, resume (do_array (TPath p) (Z.of_nat (length l)) s (es ++ rest)) =
      resume (complete (with_jokey k (with_json j s)) rest))) as (es & He & Hr).
  2: { exists (h ++ es). split_and!; [by apply appends_bind|by intros [? ?]%app_eq_nil|].
       intros s p o j rest Ht Ho Hj. rewrite <- app_assoc, run_step by (by intros [? ?]%app_eq_nil).
       rewrite (Hs s (TPath p)) by done. by eapply Hr. }
  assert (Hda : forall s p o f, get_at p (json_ s) = Some o -> exists rs j0, length rs = length l /\
    set_at p (JArr rs) (json_ s) = Some j0 /\
    do_array (TPath p) (Z.of_nat (length l)) s f = next (TPath p) (Z.of_nat (length l)) (with_json j0 s) f).
  { intros s p o f Ho. set (rs := resize (Z.of_nat (length l)) (match o with JArr l => l | _ => [] end)).
    destruct (set_at_total p (JArr rs) _ _ Ho) as [j0 E]. exists rs, j0.
    split_and!; [unfold rs; rewrite length_resize; lia|done|].
    unfold do_array, assign, get_jx, set_jx. destruct (Z.ltb_spec (Z.of_nat (length l)) 0); [lia|].
    rewrite Ho. cbn [of_option]. fold rs. by rewrite E. }
  destruct (decide (l = [])) as [->|Hne].
  - exists []. split; [intros b; cbn; by rewrite app_nil_r|]. intros s p o j rest Ht Ho Hj.
    destruct (Hda s p o ([] ++ rest) Ho) as (rs & j0 & Hrs & Hj0 & ->). apply nil_length_inv in Hrs as ->.
    exists (jokey_ s). unfold next. rewrite (get_set_here _ _ _ _ Hj0 : get_at p (json_ (with_json j0 s)) = _).
    cbn in Hj. assert (j0 = j) as -> by congruence. by destruct s.
  - destruct (reads_elems l Hl Hne) as (es & He & _ & Hr). exists es. split; [done|].
    intros s p o j rest Ht Ho Hj. destruct (Hda s p o (es ++ rest) Ho) as (rs & j0 & Hrs & Hj0 & ->).
    unfold next. rewrite (get_set_here _ _ _ _ Hj0 : get_at p (json_ (with_json j0 s)) = _).
    destruct (Z.eqb_spec (Z.of_nat (length l)) 0); [destruct l; [done|cbn in *; lia]|].
    assert (at_insert0 rs = rs) as -> by (destruct rs; [destruct l; done|done]).
    cbn [json_ with_json]. rewrite (set_set_at _ _ _ _ _ Hj0), Hj0. cbn [of_option resume].
    destruct (Hr (with_json j0 s) (stack_ s) p [] rs j rest) as [k Ek]; [by apply jx_path|exact (get_set_here _ _ _ _ Hj0)|done|done| |].
    + cbn [json_ with_json]. by rewrite (set_set_at _ _ _ _ _ Hj0).
    + exists k. exact Ek.
Qed.
Lemma object_reads_back l : Forall item_ok l -> NoDup (l.*1) -> Z.of_nat (length l) < 2 ^ 31 -> reads_back (JObj l).
Proof.
  intros Hl Hnd Hlt. destruct (encode_map (Z.of_nat (length l))) as (h & Hh & Hh0 & Hs); [lia|].
  assert (Hda : forall s p o f, get_at p (json_ s) = Some o -> exists j0,
    set_at p (JObj []) (json_ s) = Some j0 /\
    do_map (TPath p) (Z.of_nat (length l)) s f = next (TPath p) (Z.of_nat (length l)) (with_json j0 s) f).
  { intros s p o f Ho. destruct (set_at_total p (JObj []) _ _ Ho) as [j0 E]. exists j0. split; [done|].
    unfold do_map, assign, set_jx. by rewrite E. }
  destruct (decide (l = [])) as [->|Hne].
  - exists h. split_and!; [intros b; rewrite unparse_JObj, Hh; done|done|].
    intros s p o j rest Ht Ho Hj. rewrite run_step by (by intros [? ?]%app_eq_nil).
    rewrite (Hs s (TPath p)) by done. destruct (Hda s p o rest Ho) as (j0 & Hj0 & ->).
    exists (jokey_ s). unfold next. rewrite (get_set_here _ _ _ _ Hj0 : get_at p (json_ (with_json j0 s)) = _).
    cbn in Hj. assert (j0 = j) as -> by congruence. by destruct s.
  - destruct (reads_items l Hl Hne) as (es & He & _ & Hr).
    exists (h ++ es). split_and!; [by apply appends_bind|by intros [? ?]%app_eq_nil|].
    intros s p o j rest Ht Ho Hj. rewrite <- app_assoc, run_step by (by intros [? ?]%app_eq_nil).
    rewrite (Hs s (TPath p)) by done. destruct (Hda s p o (es ++ rest) Ho) as (j0 & Hj0 & ->).
    unfold next. rewrite (get_set_here _ _ _ _ Hj0 : get_at p (json_ (with_json j0 s)) = _).
    destruct (Z.eqb_spec (Z.of_nat (length l)) 0); [destruct l; [done|cbn in *; lia]|].
    destruct (Z.eqb_spec (Z.of_nat (length l)) (- 2 ^ 31)); [lia|]. cbn [resume].
    destruct (Hr (with_json j0 s) (stack_ s) p [] j rest) as [k Ek]; [by apply jx_path|exact (get_set_here _ _ _ _ Hj0)|done|done| |].
    + cbn [json_ with_json]. by rewrite (set_set_at _ _ _ _ _ Hj0).
    + exists k. exact Ek.
Qed.

Lemma json_reads_back j : json_ok j = true -> reads_back j.
Proof.
  induction j as [|x|x|x|b|x|l IH|l IH] using Json_nested_ind; intros Hok; cbn [json_ok] in Hok; boolify.
  - exists [u8 fnull]. split_and!; [done|done|]. apply reads_scalar; [done|done|].
    intros s t rest Ht. unfold step. cbn [app]. by rewrite Ht.
  - destruct (encode_int true x) as (bs & ? & ? & ?); [lia|]. exists bs. split_and!; [done|done|].
    by apply reads_scalar.
  - destruct (encode_int false x) as (bs & ? & ? & ?); [lia|]. exists bs. split_and!; [done|done|].
    apply reads_scalar; [done| |done]. unfold reread, int_json. by destruct (x <? 65536).
  - exists (ffloat64 :: net_bytes 8 x). split_and!; [|done|apply reads_scalar; [done|done|]].
    + apply reserved_appends; [|done]. intros s. unfold write_double. rewrite write_net. unfold put. by rewrite <- app_assoc.
    + intros s t rest Ht. cbn [app]. rewrite (step_number s t) by done. unfold dispatch. cbn zeta. decide_formats.
      by rewrite wrap_small by (cbn; lia).
  - exists [u8 (ffalse + b2z b)]. split_and!; [done|done|]. apply reads_scalar; [done|done|].
    intros s t rest Ht. unfold step. cbn [app]. rewrite Ht. by destruct b.
  - destruct (encode_str x) as (bs & ? & ? & ?); [lia|]. exists bs. split_and!; [done|done|].
    by apply reads_scalar.
  - apply array_reads_back; [|done]. rewrite forallb_forall in *. apply List.Forall_forall.
    intros x Hx. rewrite List.Forall_forall in IH. auto.
  - match goal with H : bool_decide _ = true |- _ => apply bool_decide_eq_true in H; rename H into Hnd end.
    apply object_reads_back; [|done|done]. rewrite forallb_forall in *. apply List.Forall_forall.
    intros kv Hx. rewrite List.Forall_forall in IH.
    match goal with H : forall x, In x l -> _ |- _ => specialize (H kv Hx); cbn in H end. boolify.
    split; [auto|lia].
Qed.

(** [C22]. Unparsing a value appends bytes that do not depend on what was written before, within
    the space reserved for them; a parser between two messages, given these bytes and
    whatever follows, ends with the value as its result (unsigned integers of at most 16
    bits come back as signed ones), having consumed exactly these bytes. *)
Theorem json_roundtrip j s : json_ok j = true -> state_ s = st_normal -> stack_ s = [] ->
  exists bs, (forall base, unparse base j = Some (base ++ bs)) /\
    forall rest, exists s', consume s (bs ++ rest) = Some (s', rest) /\ success s' = true /\
      stack_ s' = [] /\ json_ s' = reread j.
Proof.
  intros Hj Hs Hst. destruct (json_reads_back j Hj) as (bs & Ha & _ & Hr). exists bs. split; [done|].
  intros rest. unfold consume. rewrite Hs.
  destruct (Hr s [] (json_ s) (reread j) rest) as [k Ek]; [by rewrite Hst|done|done|].
  rewrite Ek. unfold complete. cbn. rewrite Hst. cbn. eexists. split; [done|]. done.
Qed.

(** A format the parser does not know ends in the error state without being consumed, and
    from then on nothing is.  A string whose 32-bit length does not fit an [int] is not
    refused: what happens is undefined. *)
Theorem stream_errors s t b r : state_ s = st_normal -> jx_of (stack_ s) = Some t ->
  (plain b = true -> get nbytes (u8 (b - fnull)) = 0 ->
    exists s', consume s (b :: r) = Some (s', b :: r) /\ error s' = true /\ forall l, consume s' l = Some (s', l)) /\
  (forall n, 2 ^ 31 <= n < 2 ^ 32 -> (forall f, f ∈ [fstr32; fbin32] -> consume s (f :: net_bytes 4 n ++ r) = None)).
Proof.
  intros Hs Ht. unfold consume. rewrite Hs. split.
  - intros Hp Hn. exists (with_state st_error s). rewrite run_step by done. rewrite (step_plain s t) by done.
    cbn zeta. by rewrite Hn.
  - intros n Hn f Hf. rewrite run_step by done.
    assert (Hneg : to_signed 32 (wrap (8 * 4) n) = n - 2 ^ 32).
    { unfold to_signed. rewrite wrap_wrap. change (8 * 4) with 32. rewrite wrap_small by lia.
      destruct (Z.ltb_spec n (2 ^ (32 - 1))); [cbn in *; lia|done]. }
    each_in1 Hf; rewrite (step_number s t) by done; unfold dispatch; cbn zeta; decide_formats; rewrite Hneg;
      unfold do_raw; (destruct (Z.ltb_spec (Z.of_nat (length r)) (n - 2 ^ 32)); [lia|]);
      (destruct (Z.ltb_spec (n - 2 ^ 32) 0); [done|lia]).
Qed.
End Stream.

(** * Witnesses *)
#[local] Instance no_floats : Widen := fun x => x.
Definition sample : Json :=
  JObj [([97], JArr [JUnsigned 7; JInt (-40000); JStr [1; 2; 3]; JNull]);
        ([98; 99], JObj [([], JBool true)]); ([100], JDouble 5); ([101], JUnsigned (2 ^ 63))].
Lemma json_roundtrip_witness : json_ok sample = true /\
  exists bs, (forall base, unparse base sample = Some (base ++ bs)) /\
    forall rest, exists s', consume new_parser (bs ++ rest) = Some (s', rest) /\ success s' = true /\
      stack_ s' = [] /\ json_ s' = reread sample.
Proof. split; [reflexivity|]. apply json_roundtrip; reflexivity. Defined.


Lemma stream_errors_witness :
  (exists s', consume new_parser [0xC1; 5] = Some (s', [0xC1; 5]) /\ error s' = true /\
     forall l, consume s' l = Some (s', l)) /\
  consume new_parser (fstr32 :: net_bytes 4 (2 ^ 31) ++ [5]) = None.
Proof.
  split.
  - apply (stream_errors new_parser (TPath []) 0xC1 [5]); reflexivity.
  - apply (proj2 (stream_errors new_parser (TPath []) 0xC1 [5] eq_refl eq_refl) (2 ^ 31));
      [lia|repeat constructor].
Defined.
