(* ===== verification/MsgpackPieces.v ===== *)
(** The streaming parser of msgpack.cc when its input arrives in pieces.

    [ahead] is what a parser in any state would make of all the input still to come; a call
    of [consume] on a part of that input does not change it.  The connections' [receive]
    therefore ends with the same result however a message is cut. *)
From S2P Require Import Prelude StringSlice Msgpack MsgpackStream.

Section Pieces.
Context {W : Widen}.

(** The loop of [conn::receive] of mtd.cc and mtclient.hh: consume what is buffered and read
    more until the parser is done or the peer sends nothing; and what follows the loop.  The
    result is handed out by reference, so it survives the reset. *)
Fixpoint receive (fuel : nat) (s : streaming_parser) (buf : list Z) (reads : list (list Z)) :
    option (streaming_parser * list Z * list (list Z)) :=
  match fuel with
  | O => None
  | S fuel =>
      if done s then Some (s, buf, reads)
      else match buf with
           | _ :: _ => '(s, buf) ← consume s buf; receive fuel s buf reads
           | [] => match reads with
                   | [] | [] :: _ => Some (s, [], reads)
                   | r :: reads => receive fuel s r reads
                   end
           end
  end.

Definition received (s : streaming_parser) : streaming_parser :=
  if success s && is_a (json_ s) then reset s else with_json JNull s.

(** * Input in pieces *)

(** What the rounds depend on: everything but [state_] and [str_]. *)
Definition core (s : streaming_parser) := (stack_ s, json_ s, jokey_ s).
Definition out_eqv (o o' : outcome) : Prop :=
  match o, o' with
  | Go s f, Go s' f' => core s = core s' /\ f = f'
  | Ret s f, Ret s' f' => state_ s = state_ s' /\ core s = core s' /\ f = f'
  | Undef, Undef => True
  | _, _ => False
  end.
Definition eqv (r r' : option (streaming_parser * list Z)) : Prop :=
  match r, r' with
  | Some (s, f), Some (s', f') => state_ s = state_ s' /\ core s = core s' /\ f = f'
  | None, None => True
  | _, _ => False
  end.
#[local] Instance eqv_equiv : Equivalence eqv.
Proof.
  split.
  - by intros [[]|].
  - intros [[]|] [[]|]; cbn; try done. intros (-> & -> & ->). done.
  - intros [[]|] [[]|] [[]|]; cbn; try done. intros (-> & -> & ->). done.
Qed.

Lemma complete_core s s' f : core s = core s' -> out_eqv (complete s f) (complete s' f).
Proof.
  destruct s, s'. intros [= -> -> ->]. unfold complete. cbn. destruct (pop_full _) as [|top below]; [done|].
  destruct (p ← path below; _) as [jo|]; [|done]. cbn. by destruct (_ =? _).
Qed.
Lemma next_core t n s s' f : core s = core s' -> out_eqv (next t n s f) (next t n s' f).
Proof.
  intros H. pose proof (complete_core _ _ f H) as Hc. destruct s, s' as [? stk]. injection H as -> -> ->.
  unfold next, fail. cbn -[complete]. destruct t as [|p].
  - destruct (_ && _); [done|]. destruct stk as [|top below]; [done|]. destruct (path below) as [p|]; [|done]. cbn.
    destruct (get_at _ _) as [[]|]; try done. destruct (find_insert _ _). by destruct (set_at _ _ _).
  - destruct (get_at _ _) as [[]|]; try done.
    + destruct (_ =? _); [done|]. by destruct (set_at _ _ _).
    + destruct (_ =? _); [done|]. by destruct (_ =? _).
Qed.
Lemma assign_core t v n s s' f : core s = core s' -> out_eqv (assign t v n s f) (assign t v n s' f).
Proof.
  intros H. unfold assign, set_jx. destruct t as [|p]; cbn [of_option].
  - apply next_core. destruct s, s'. by injection H as -> -> ->.
  - assert (json_ s = json_ s') as -> by (destruct s, s'; by injection H). destruct (set_at _ _ _); [|done].
    cbn [mbind option_bind of_option]. apply next_core. destruct s, s'. by injection H as -> -> ->.
Qed.
Lemma do_array_core t n s s' f : core s = core s' -> out_eqv (do_array t n s f) (do_array t n s' f).
Proof.
  intros H. unfold do_array. destruct (n <? 0); [done|].
  assert (get_jx s t = get_jx s' t) as -> by (destruct s, s'; injection H as -> -> ->; by destruct t).
  destruct (get_jx s' t); [|done]. by apply assign_core.
Qed.
Lemma do_raw_core t n s s' f : core s = core s' -> out_eqv (do_raw t n s f) (do_raw t n s' f).
Proof.
  intros H. unfold do_raw. destruct (_ <? n).
  - destruct s, s'. by injection H as -> -> ->.
  - destruct (n <? 0); [done|]. by apply assign_core.
Qed.
Lemma dispatch_core t b num s s' f : core s = core s' -> out_eqv (dispatch t b num s f) (dispatch t b num s' f).
Proof.
  intros H. unfold dispatch. cbn zeta.
  repeat (destruct (_ =? _); cbn [orb];
    [first [by apply assign_core | by apply do_raw_core | by apply do_array_core | by apply assign_core]|]).
  done.
Qed.
Lemma step_core s s' f : core s = core s' -> out_eqv (step s f) (step s' f).
Proof.
  intros H. unfold step, do_map, fail. destruct f as [|b r]; [done|].
  assert (stack_ s = stack_ s') as -> by (destruct s, s'; by injection H).
  destruct (jx_of _) as [t|]; [|done]. cbn [of_option]. cbn zeta.
  do 6 (destruct (_ : bool); [first [by apply assign_core | by apply do_raw_core | by apply do_array_core]|]).
  destruct (_ =? 0); [destruct s, s'; by injection H as -> -> ->|].
  destruct (_ <? _); [destruct s, s'; by injection H as -> -> ->|]. by apply dispatch_core.
Qed.
Lemma run_core n : forall s s' f, (length f <= n)%nat -> core s = core s' -> eqv (run s f) (run s' f).
Proof.
  induction n as [|n IH]; intros s s' f Hn H.
  - destruct f; [|cbn in Hn; lia]. unfold run. cbn. destruct s, s'. by injection H as -> -> ->.
  - destruct (decide (f = [])) as [->|Hf]; [by apply IH; [cbn; lia|]|].
    rewrite !run_step by done. pose proof (step_core s s' f H) as Hs. pose proof (step_shorter s f) as Hl.
    destruct (step s f) as [s1 f1|s1 f1|], (step s' f) as [s2 f2|s2 f2|]; cbn [out_eqv resume] in *; try done.
    destruct Hs as [Hs ->]. apply IH; [|done]. specialize (Hl _ _ eq_refl). lia.
Qed.
Lemma resume_core o o' : out_eqv o o' -> eqv (resume o) (resume o').
Proof.
  destruct o, o'; cbn; try done. intros [H ->]. by eapply run_core.
Qed.

(** ** The result of a parser on all of its input *)
Definition ahead (s : streaming_parser) (l : list Z) : option (streaming_parser * list Z) :=
  match state_ s with
  | st_final | st_error => Some (s, l)
  | st_normal => run s l
  | st_partial => run s (str_ s ++ l)
  | st_string =>
      match stack_ s with
      | [] => None
      | top :: below => match jx_of below with
                        | Some t => resume (do_raw t (size top) (with_stack below s) (str_ s ++ l))
                        | None => None
                        end
      end
  end.
(** What a parser waits for. *)
Definition waiting (s : streaming_parser) : Prop :=
  match state_ s with
  | st_partial => exists b r, str_ s = b :: r /\ Forall byte_ok (str_ s) /\ plain b = true /\
      Z.of_nat (length (str_ s)) < get nbytes (u8 (b - fnull)) /\ jx_of (stack_ s) <> None
  | st_string => exists top below, stack_ s = top :: below /\
      Z.of_nat (length (str_ s)) < size top /\ jx_of below <> None
  | _ => True
  end.

(** A round with more input behind it. *)
Lemma framed_app o f M : framed o ->
  match o f with
  | Go s r => r = f /\ o (f ++ M) = Go s (f ++ M)
  | Ret s r => r = f /\ done s = true /\ o (f ++ M) = Ret s (f ++ M)
  | Undef => o (f ++ M) = Undef
  end.
Proof. intros [[s H]|[(s & Hd & H)|H]]; by rewrite !H. Qed.
(** [o] is the round on [f], [o'] the one on [f ++ M]. *)
Definition extends (o o' : outcome) (M : list Z) : Prop :=
  match o with
  | Go s r => o' = Go s (r ++ M)
  | Ret s r => if done s then o' = Ret s (r ++ M)
               else r = [] /\ waiting s /\ eqv (resume o') (ahead s M)
  | Undef => o' = Undef
  end.
Lemma framed_extends o f M : framed o -> extends (o f) (o (f ++ M)) M.
Proof.
  intros H. pose proof (framed_app o f M H) as Ha. unfold extends.
  destruct (o f) as [s r|s r|]; [by destruct Ha as [-> ?]| |done]. by destruct Ha as (-> & -> & ?).
Qed.
Lemma do_raw_extends t n s f M : jx_of (stack_ s) = Some t ->
  extends (do_raw t n s f) (do_raw t n s (f ++ M)) M.
Proof.
  intros Ht. destruct (Z.ltb_spec (Z.of_nat (length f)) n) as [Hlt|Hge].
  - unfold do_raw at 1. rewrite (proj2 (Z.ltb_lt _ _) Hlt). cbn [extends done state_ with_state].
    split_and!; [done|by eexists _, _; split_and!; [done|done|cbn; congruence]|].
    unfold ahead. cbn. rewrite Ht. apply resume_core, do_raw_core. by destruct s.
  - unfold do_raw. rewrite length_app.
    destruct (Z.ltb_spec (Z.of_nat (length f)) n); [lia|].
    destruct (Z.ltb_spec (Z.of_nat (length f + length M)) n); [lia|].
    destruct (n <? 0); [done|]. rewrite take_app_le, drop_app_le by lia. apply framed_extends, assign_framed.
Qed.
Lemma dispatch_extends t b num s f M : jx_of (stack_ s) = Some t ->
  extends (dispatch t b num s f) (dispatch t b num s (f ++ M)) M.
Proof.
  intros Ht. unfold dispatch. cbn zeta.
  repeat (destruct (_ =? _); cbn [orb];
    [first [by apply framed_extends, assign_framed | by apply do_raw_extends | by apply framed_extends, do_array_framed]|]).
  done.
Qed.
Lemma step_extends s f M : f <> [] -> Forall byte_ok f -> extends (step s f) (step s (f ++ M)) M.
Proof.
  intros Hf Hby. destruct f as [|b r]; [done|]. clear Hf.
  destruct (jx_of (stack_ s)) as [t|] eqn:Ht; [|by unfold step; cbn [app]; rewrite Ht].
  destruct (plain b) eqn:Hb.
  - rewrite (step_plain s t b r) by done. cbn zeta. set (k := get nbytes (u8 (b - fnull))).
    assert (Hx : step s ((b :: r) ++ M) = if k =? 0 then fail s ((b :: r) ++ M)
      else if Z.of_nat (length ((b :: r) ++ M)) <? k then Ret (with_state st_partial (with_str ((b :: r) ++ M) s)) []
      else dispatch t b (read_in_net_order (k - 1) (r ++ M)) s (drop (Z.to_nat k) ((b :: r) ++ M)))
      by (by apply step_plain).
    destruct (Z.eqb_spec k 0); [by rewrite Hx|].
    destruct (Z.ltb_spec (Z.of_nat (length (b :: r))) k) as [Hlt|Hge].
    + split_and!; [done|exists b, r; split_and!; [done|done|done|done|cbn; congruence]|].
      unfold ahead. cbn [state_ with_state str_ with_str]. rewrite run_step by done. apply resume_core, step_core. by destruct s.
    + rewrite Hx. pose proof (nbytes_range (u8 (b - fnull))). rewrite length_app.
      destruct (Z.ltb_spec (Z.of_nat (length (b :: r) + length M)) k); [lia|].
      cbn [length] in Hge. unfold read_in_net_order. rewrite take_app_le, drop_app_le by (cbn [length]; lia).
      by apply dispatch_extends.
  - revert Hb. unfold step, do_map, plain. cbn [app]. rewrite Ht. cbn [of_option].
    do 6 (match goal with |- context [if ?c then _ else _] => destruct c end; cbn [orb];
      [intros _; first [by apply framed_extends, assign_framed | by apply do_raw_extends
                       | by apply framed_extends, do_array_framed]|]).
    done.
Qed.

(** ** Runs with more input behind them *)

(** [r] is the result on a piece of the input, [r'] the one on all of it. *)
Definition continues (r r' : option (streaming_parser * list Z)) (M : list Z) : Prop :=
  match r with
  | Some (s, f) => waiting s /\ (done s = false -> f = []) /\ eqv r' (ahead s (f ++ M))
  | None => r' = None
  end.
Lemma extends_continues o o' M : extends o o' M ->
  (forall s f, o = Go s f -> continues (run s f) (run s (f ++ M)) M) -> continues (resume o) (resume o') M.
Proof.
  destruct o as [s f|s f|]; cbn [extends resume]; intros He Hg.
  - rewrite He. by apply Hg.
  - destruct (done s) eqn:Hd; unfold continues.
    + rewrite He, Hd. cbn [resume]. unfold ahead, waiting. by destruct s as [[]].
    + rewrite Hd. by destruct He as (-> & ? & ?).
  - by rewrite He.
Qed.
Lemma run_app n : forall s f M, (length f <= n)%nat -> Forall byte_ok f -> continues (run s f) (run s (f ++ M)) M.
Proof.
  induction n as [|n IH]; intros s f M Hn Hby.
  - destruct f; [|cbn in Hn; lia]. unfold run at 1. cbn [length loop app continues]. split_and!; [done|done|].
    unfold ahead. cbn [state_ with_state]. by apply (run_core (length M)).
  - destruct (decide (f = [])) as [->|Hf]; [by apply (IH s []); [cbn; lia|]|].
    rewrite !run_step by (done || by intros [? ?]%app_eq_nil).
    apply extends_continues; [by apply step_extends|]. intros s1 f1 E. destruct f as [|b r]; [done|].
    apply step_suffix in E. apply IH.
    + apply suffix_length in E. cbn in Hn. lia.
    + destruct E as [k ->]. inversion_clear Hby. by eapply Forall_app.
Qed.
Lemma framed_continues o f M : framed o -> Forall byte_ok f -> continues (resume (o f)) (resume (o (f ++ M))) M.
Proof.
  intros Ho Hf. apply extends_continues; [by apply framed_extends|]. intros s1 f1 E.
  apply (run_app (length f1)); [done|]. apply framed_Go in E; [|done]. destruct E as [k ->]. by eapply Forall_app.
Qed.

(** A header that is complete is read to its end. *)
Lemma do_raw_nil t n s s' r : do_raw t n s [] = Ret s' r -> r = [].
Proof.
  unfold do_raw. destruct (_ <? n); [congruence|]. destruct (n <? 0); [done|]. rewrite drop_nil.
  destruct (assign_framed t (JStr (take (Z.to_nat n) [])) 0 s) as [[? H]|[(? & _ & H)|H]]; rewrite H; congruence.
Qed.
Lemma dispatch_nil t b num s s' r : dispatch t b num s [] = Ret s' r -> r = [].
Proof.
  assert (Hfr : forall o, framed o -> o [] = Ret s' r -> r = []).
  { intros o [[? H]|[(? & _ & H)|H]]; rewrite H; congruence. }
  unfold dispatch. cbn zeta. intros H.
  repeat (destruct (b =? _) in H; cbn [orb] in H;
    [first [by eapply (Hfr (assign _ _ _ _)); [apply assign_framed|] | by eapply do_raw_nil
           | by eapply (Hfr (do_array _ _ _)); [apply do_array_framed|]]|]).
  done.
Qed.
Lemma run_header s b r : plain b = true -> Z.of_nat (length (b :: r)) = get nbytes (u8 (b - fnull)) ->
  match run s (b :: r) with Some (_, f) => f = [] | None => True end.
Proof.
  intros Hb Hl. rewrite run_step by done. destruct (jx_of (stack_ s)) as [t|] eqn:Ht.
  2: { unfold step. by rewrite Ht. }
  rewrite (step_plain s t b r) by done. cbn zeta. rewrite <- Hl.
  destruct (Z.eqb_spec (Z.of_nat (length (b :: r))) 0); [cbn in *; lia|]. rewrite Z.ltb_irrefl, Nat2Z.id, drop_all.
  destruct (dispatch _ _ _ _ _) as [s1 f1|s1 f1|] eqn:E; cbn [resume]; [| |done].
  - apply dispatch_suffix, suffix_nil_inv in E as ->. done.
  - by apply dispatch_nil in E.
Qed.

(** ** Consuming a piece of the input *)
Definition consumed (s : streaming_parser) (b M : list Z) (r : option (streaming_parser * list Z)) : Prop :=
  match r with
  | Some (s1, b1) => waiting s1 /\ (done s1 = true \/ (length b1 < length b)%nat /\ b1 `suffix_of` b) /\
      eqv (ahead s (b ++ M)) (ahead s1 (b1 ++ M))
  | None => ahead s (b ++ M) = None
  end.
Lemma continues_consumed s b M r r' : b <> [] -> eqv (ahead s (b ++ M)) r' -> continues r r' M -> consumed s b M r.
Proof.
  intros Hb He. unfold continues, consumed. destruct r as [[s1 b1]|].
  - intros (Hw & Hd & H). split_and!; [done| |by etransitivity].
    destruct (done s1); [by left|right]. rewrite Hd by done. split; [|apply suffix_nil].
    destruct b; [done|cbn; lia].
  - intros ->. destruct (ahead s (b ++ M)) as [[? ?]|]; done.
Qed.
(** The header or string is not complete yet. *)
Lemma consumed_short s b M : b <> [] -> waiting (with_str (str_ s ++ b) s) ->
  eqv (ahead s (b ++ M)) (ahead (with_str (str_ s ++ b) s) M) ->
  consumed s b M (Some (with_str (str_ s ++ b) s, [])).
Proof.
  intros Hb Hw He. unfold consumed. cbn [app length]. split_and!; [done| |done].
  right. split; [destruct b; [done|cbn; lia]|apply suffix_nil].
Qed.

Lemma plain_range c : byte_ok c -> plain c = true -> u8 (c - fnull) = c - 0xC0.
Proof.
  unfold byte_ok. intros Hc Hp. apply wrap_small. change fnull with 192. cut (192 <= c); [lia|].
  unfold plain in Hp. apply negb_true_iff in Hp. destruct (Z.leb_spec 192 c); [done|]. exfalso. revert Hp.
  rewrite is_fixint_spec by lia. unfold is_bool, is_fixmap, is_fixarray, is_fixstr. rewrite !in_range_spec by (lia || done).
  change ffixmap with 128. change ffixarray with 144. change ffixstr with 160. change nfixmap with 16.
  change nfixarray with 16. change nfixstr with 32. change fnull with 192. change ffalse with 194.
  zcases; done.
Qed.

Lemma drop_shorter m (b : list Z) : b <> [] -> 0 < m -> (length (drop (Z.to_nat m) b) < length b)%nat.
Proof. intros Hb Hm. rewrite length_drop. destruct b; [done|cbn [length]; lia]. Qed.

Lemma consumed_partial s b M : state_ s = st_partial -> waiting s -> b <> [] -> Forall byte_ok b ->
  consumed s b M (consume s b).
Proof.
  intros Hst Hw Hb Hby. unfold waiting in Hw. rewrite Hst in Hw. destruct Hw as (c & r & Es & Hbs & Hp & Hlt & Hjx).
  assert (Hc : byte_ok c) by (rewrite Es in Hbs; by inversion Hbs).
  set (k := get nbytes (u8 (c - fnull))) in *.
  assert (Ek : get nbytes (hd 0 (str_ s) - 0xC0) = k) by (rewrite Es; cbn [hd]; by rewrite <- plain_range).
  unfold consume. rewrite Hst. cbn zeta. rewrite Ek. set (m := k - Z.of_nat (length (str_ s))).
  destruct (Z.ltb_spec (Z.of_nat (length b)) m) as [Hs|Hs].
  - apply consumed_short; [done| |].
    + unfold waiting. cbn [state_ with_str str_]. rewrite Hst. exists c, (r ++ b). rewrite Es. split_and!; [done| |done| |done].
      * by apply Forall_app; rewrite Es in Hbs.
      * fold k. rewrite <- Es, length_app. lia.
    + unfold ahead. cbn [state_ with_str str_]. rewrite Hst, app_assoc.
      eapply run_core; [done|]. by destruct s.
  - set (h := str_ s ++ take (Z.to_nat m) b). set (s0 := with_state st_normal (with_str h s)).
    change (str_ (with_str h s)) with h. change (with_state st_normal (with_str h s)) with s0.
    assert (Hh : h = c :: (r ++ take (Z.to_nat m) b)) by (unfold h; by rewrite Es).
    assert (Hl : Z.of_nat (length h) = k) by (unfold h; rewrite length_app, length_take; lia).
    assert (Hhb : Forall byte_ok h) by (unfold h; apply Forall_app; split; [done|by apply Forall_take]).
    pose proof (run_header s0 c (r ++ take (Z.to_nat m) b) Hp) as Hr0. rewrite <- Hh in Hr0. specialize (Hr0 Hl).
    assert (Ha : eqv (ahead s (b ++ M)) (run s0 (h ++ (drop (Z.to_nat m) b ++ M)))).
    { unfold ahead, h. rewrite Hst, <- app_assoc, (app_assoc (take _ _)), take_drop. eapply run_core; [done|]. by destruct s. }
    pose proof (run_app (length h) s0 h (drop (Z.to_nat m) b ++ M) ltac:(lia) Hhb) as Hc2.
    destruct (run s0 h) as [[s2 f2]|]; cbn [mbind option_bind continues] in *.
    2: { rewrite Hc2 in Ha. unfold consumed. by destruct (ahead s (b ++ M)) as [[]|]. }
    subst f2. cbn [app] in Hc2. destruct Hc2 as (Hw2 & _ & He2).
    assert (Hrest : state_ s2 <> st_normal -> consumed s b M (Some (s2, drop (Z.to_nat m) b))).
    { intros _. unfold consumed. split_and!; [done| |by etransitivity].
      right. split; [apply drop_shorter; [done|lia]|apply suffix_drop]. }
    destruct (state_ s2) eqn:Hs2; try (by apply Hrest).
    eapply continues_consumed; [done| |by apply (run_app (length (drop (Z.to_nat m) b))); [lia|apply Forall_drop]].
    etransitivity; [done|]. etransitivity; [done|]. unfold ahead. by rewrite Hs2.
Qed.

Lemma consumed_string s b M : state_ s = st_string -> waiting s -> b <> [] -> Forall byte_ok b ->
  consumed s b M (consume s b).
Proof.
  intros Hst Hw Hb Hby. unfold waiting in Hw. rewrite Hst in Hw. destruct Hw as (top & below & Es & Hlt & Hjx).
  destruct (jx_of below) as [t|] eqn:Ht; [|done].
  unfold consume. rewrite Hst, Es, Ht. cbn zeta. set (n := size top) in *. set (m := n - Z.of_nat (length (str_ s))).
  destruct (Z.ltb_spec (Z.of_nat (length b)) m) as [Hs|Hs].
  - apply consumed_short; [done| |].
    + unfold waiting. cbn [state_ with_str str_ stack_]. rewrite Hst. exists top, below. rewrite length_app.
      split_and!; [done|fold n; lia|by rewrite Ht].
    + unfold ahead. cbn [state_ with_str str_ stack_]. rewrite Hst, Es, Ht, <- app_assoc.
      apply resume_core, do_raw_core. by destruct s.
  - set (h := str_ s ++ take (Z.to_nat m) b). set (s0 := with_stack below (with_str h s)).
    change (str_ (with_str h s)) with h. change (with_stack below (with_str h s)) with s0.
    assert (Hl : Z.of_nat (length h) = n) by (unfold h; rewrite length_app, length_take; lia).
    eapply (continues_consumed _ _ _ _ (resume (assign t (JStr h) 0 s0 (drop (Z.to_nat m) b ++ M)))); [done| |].
    + assert (Hsplit : str_ s ++ b ++ M = h ++ drop (Z.to_nat m) b ++ M).
      { unfold h. by rewrite <- app_assoc, (app_assoc (take _ _)), take_drop. }
      unfold ahead. rewrite Hst, Es, Ht, Hsplit. fold n. unfold do_raw. rewrite length_app.
      destruct (Z.ltb_spec (Z.of_nat (length h + length (drop (Z.to_nat m) b ++ M))) n); [lia|].
      destruct (Z.ltb_spec n 0); [lia|]. rewrite take_app_length', drop_app_length' by lia.
      apply resume_core, assign_core. by destruct s.
    + apply framed_continues; [apply assign_framed|by apply Forall_drop].
Qed.

Lemma consume_consumed s b M : done s = false -> waiting s -> b <> [] -> Forall byte_ok b ->
  consumed s b M (consume s b).
Proof.
  intros Hd Hw Hb Hby. destruct (state_ s) eqn:Hs; unfold done in Hd; rewrite Hs in Hd; try done.
  - unfold consume. rewrite Hs. eapply continues_consumed; [done| |by apply (run_app (length b))].
    unfold ahead. by rewrite Hs.
  - by apply consumed_partial.
  - by apply consumed_string.
Qed.

Lemma ahead_nil s : done s = false -> waiting s ->
  match ahead s [] with Some (s', _) => done s' = false | None => True end.
Proof.
  intros Hd Hw. unfold ahead, waiting, done in *. destruct (state_ s) eqn:Hs; try done.
  - destruct Hw as (c & r & Es & _ & Hp & Hlt & Hjx). rewrite app_nil_r. rewrite run_step by (by rewrite Es).
    destruct (jx_of (stack_ s)) as [t|] eqn:Ht; [|done]. rewrite Es in *. rewrite (step_plain s t) by done. cbn zeta.
    destruct (Z.eqb_spec (get nbytes (u8 (c - fnull))) 0); [cbn [length] in *; lia|].
    rewrite (proj2 (Z.ltb_lt _ _) Hlt). done.
  - destruct Hw as (top & below & Es & Hlt & Hjx). rewrite Es, app_nil_r. destruct (jx_of below); [|done].
    unfold do_raw. by rewrite (proj2 (Z.ltb_lt _ _) Hlt).
Qed.

Lemma ahead_done s l : done s = true -> ahead s l = Some (s, l).
Proof. unfold ahead, done. by destruct (state_ s). Qed.
Lemma receive_ahead fuel : forall s buf reads sF rF,
  (length (buf ++ concat reads) + length reads + 1 < fuel)%nat -> waiting s ->
  Forall (fun r => r <> [] /\ Forall byte_ok r) reads -> Forall byte_ok buf ->
  eqv (ahead s (buf ++ concat reads)) (Some (sF, rF)) -> done sF = true ->
  exists s' buf' reads', receive fuel s buf reads = Some (s', buf', reads') /\
    state_ s' = state_ sF /\ core s' = core sF /\ buf' ++ concat reads' = rF.
Proof.
  induction fuel as [|fuel IH]; intros s buf reads sF rF Hf Hw Hr Hb Ha HF; [lia|]. cbn [receive].
  destruct (done s) eqn:Hd.
  { exists s, buf, reads. split; [done|]. by rewrite (ahead_done _ _ Hd) in Ha. }
  destruct buf as [|c buf].
  - destruct reads as [|r reads].
    + exfalso. pose proof (ahead_nil s Hd Hw) as Hn. cbn [concat app] in Ha.
      destruct (ahead s []) as [[s1 f1]|]; [|done]. cbn in Ha. destruct Ha as (Hs & _). unfold done in *.
      rewrite Hs in Hn. congruence.
    + apply Forall_cons_1 in Hr as [[Hr0 Hr1] Hr]. destruct r as [|c r]; [done|].
      apply IH; [change (concat ((c :: r) :: reads)) with ((c :: r) ++ concat reads) in Hf; cbn [app length] in *; lia|done..].
  - pose proof (consume_consumed s (c :: buf) (concat reads) Hd Hw ltac:(done) Hb) as Hc. unfold consumed in Hc.
    destruct (consume s (c :: buf)) as [[s1 b1]|]; cbn [mbind option_bind]; [|by rewrite Hc in Ha].
    destruct Hc as (Hw1 & Hp & He). assert (Ha1 : eqv (ahead s1 (b1 ++ concat reads)) (Some (sF, rF))).
    { etransitivity; [symmetry; exact He|done]. }
    destruct Hp as [Hd1|[Hl [k Ek]]].
    + destruct fuel as [|fuel]; [lia|]. cbn [receive]. rewrite Hd1. exists s1, b1, reads. split; [done|].
      by rewrite (ahead_done _ _ Hd1) in Ha1.
    + apply IH; [rewrite length_app in *; cbn [length] in *; lia|done|done| |done|done].
      rewrite Ek in Hb. by eapply Forall_app.
Qed.

(** [C19]. When one call of [consume] on all the bytes reaches the end of a message (or an
    error), [receive] reaches the same end with the same result however the bytes arrive:
    as any sequence of non-empty reads.  It always ends there, and what it has not used is
    exactly what follows the message.  After an array, which is what messages are, the parser
    holds the array and is between two messages again. *)
Theorem receive_pieces s reads s' rest :
  state_ s = st_normal -> Forall (fun r => r <> [] /\ Forall byte_ok r) reads ->
  consume s (concat reads) = Some (s', rest) -> done s' = true ->
  exists s1 buf reads1, receive (length (concat reads) + length reads + 2) s [] reads = Some (s1, buf, reads1) /\
    state_ s1 = state_ s' /\ json_ s1 = json_ s' /\ stack_ s1 = stack_ s' /\ buf ++ concat reads1 = rest /\
    (success s' = true -> is_a (json_ s') = true ->
     state_ (received s1) = st_normal /\ stack_ (received s1) = [] /\ json_ (received s1) = json_ s').
Proof.
  intros Hs Hr Hc Hd. unfold consume in Hc. rewrite Hs in Hc.
  destruct (receive_ahead (length (concat reads) + length reads + 2) s [] reads s' rest) as (s1 & b & rs & E & H1 & H2 & H3);
    [cbn [app]; lia|unfold waiting; by rewrite Hs|done|done|unfold ahead; cbn [app]; by rewrite Hs, Hc|done|].
  injection H2 as H4 H5 H6. exists s1, b, rs. split_and!; try done.
  intros Hsu Ha. unfold received, success in *. rewrite H1, Hsu, H5, Ha. done.
Qed.

End Pieces.

(** * Witness *)
#[local] Instance no_floats : Widen := fun x => x.
(** The array of a one-character string and [true], behind which a 7 follows, in pieces of
    1, 2 and 2 bytes. *)
Definition pieces_end : streaming_parser :=
  {| state_ := st_final; stack_ := []; str_ := []; json_ := JArr [JStr [48]; JBool true]; jokey_ := JNull |}.
Lemma receive_pieces_witness :
  exists s1 buf reads1, receive 10 new_parser [] [[0x92]; [0xA1; 48]; [0xC3; 7]] = Some (s1, buf, reads1) /\
    state_ s1 = st_final /\ json_ s1 = JArr [JStr [48]; JBool true] /\ stack_ s1 = [] /\ buf ++ concat reads1 = [7] /\
    (success pieces_end = true -> is_a (json_ pieces_end) = true ->
     state_ (received s1) = st_normal /\ stack_ (received s1) = [] /\ json_ (received s1) = json_ pieces_end).
Proof.
  apply (receive_pieces new_parser [[0x92]; [0xA1; 48]; [0xC3; 7]] pieces_end [7]);
    [reflexivity| |reflexivity|reflexivity].
  repeat (apply Forall_cons_2; [split; [done|repeat (apply Forall_cons_2; [unfold byte_ok; lia|]); apply Forall_nil_2]|]).
  apply Forall_nil_2.
Defined.
