(* ===== verification/LogApply.v ===== *)
(** log.cc, kvrow.hh, kvthread.hh: what a replayed record does to a row.

    The logs of several threads are replayed at once, so the records of a key come in any
    order.  A record that is older than the row is dropped; a modification that comes before
    the row it modifies waits as a delta marker, a row whose content is the request and a
    link to the row before it.  [cell] is the slot of a key with its chain of markers.  The
    rows are any type with the operations of the class; memory that is given back is not
    modelled, the two counters of markers are. *)
From S2P Require Import Prelude CircularInt Msgpack ValueLog LogReplay.
From S2P Require ValueBag ValueString.

Abbreviation changes := (list (Z * list Z)).

Class RowOps (R : Type) := {
  timestamp : R -> Z;
  create : changes -> Z -> option R;
  create1 : list Z -> Z -> option R;
  update_row : R -> changes -> Z -> option R }.
(** A row carries the timestamp it was made with. *)
Class RowLaws (R : Type) `{RowOps R} := {
  create_time cs t r : create cs t = Some r -> timestamp r = t;
  create1_time v t r : create1 v t = Some r -> timestamp r = t;
  update_time r cs t r' : update_row r cs t = Some r' -> timestamp r' = t }.

(** The default row type and the string rows. *)
Section Instances.
Context (ow : Z) (uninit : Z -> Z).
Definition bag_rows : RowOps ValueBag.bag := {|
  timestamp := ValueBag.ts_;
  create cs t := option_map fst (ValueBag.create ow uninit cs t);
  create1 v t := Some (ValueBag.create1 ow uninit v t).1;
  update_row r cs t := option_map fst (ValueBag.update ow uninit cs t r) |}.
Definition string_rows : RowOps ValueString.value_string := {|
  timestamp := ValueString.ts_;
  create cs t := Some (ValueString.create uninit cs t).1;
  create1 v t := Some (ValueString.create1 uninit v t);
  update_row r cs t := Some (ValueString.update uninit cs t r).1 |}.
End Instances.

(** * Replaying a record *)

(** [parse_changeset]: pairs of an index and a string up to the end. *)
Fixpoint parse_changeset (fuel : nat) (s : list Z) : option changes :=
  match fuel with
  | O => None
  | S fuel =>
      match s with
      | [] => Some []
      | _ => '(index, s) ← read_int 4 false s; '(value, s) ← read_str s;
             cs ← parse_changeset fuel s; Some ((index, value) :: cs)
      end
  end.
Definition changeset (s : list Z) : option changes := parse_changeset (S (List.length s)) s.

Definition ucommand (u : update) : Z := u.1.1.1.1.1.
Definition ukey (u : update) : list Z := u.1.1.1.1.2.
Definition uval (u : update) : list Z := u.1.1.1.2.
Definition uts (u : update) : Z := u.1.1.2.
Definition uprev (u : update) : Z := u.1.2.

Section Apply.
Context {R : Type} `{RowOps R}.

Inductive cell := Null | Row (r : R) | Delta (t prev_ts : Z) (req : list Z) (prev : cell).
Fixpoint deltas (c : cell) : Z := match c with Delta _ _ _ c => 1 + deltas c | _ => 0 end.
Definition cell_time (c : cell) : option Z :=
  match c with Null => None | Row r => Some (timestamp r) | Delta t _ _ _ => Some t end.

(** At the place of the record in the chain: [None] inside is the early return of a record that
    is out of date; else the new chain and the markers created and removed.  A record whose
    previous timestamp is that of a marker is never written. *)
Definition place (u : update) (c : cell) : option (option (cell * Z * Z)) :=
  let modify := ucommand u =? logcmd_modify in
  if match cell_time c with Some t => uts u <=? t | None => false end then Some None
  else
    let removed := if modify then 0 else deltas c in
    let c := if modify then c else Null in
    if ucommand u =? logcmd_replace then r ← create1 (uval u) (uts u); Some (Some (Row r, 0, removed))
    else if negb modify || bool_decide (cell_time c = Some (uprev u)) then
      cs ← changeset (uval u);
      if negb modify then r ← create cs (uts u); Some (Some (Row r, 0, removed))
      else match c with
           | Row old => r ← update_row old cs (uts u); Some (Some (Row r, 0, removed))
           | _ => None
           end
    else Some (Some (Delta (uts u .| 1) (uprev u) (uval u) c, 1, removed)).
Fixpoint find_place (u : update) (c : cell) : option (option (cell * Z * Z)) :=
  match c with
  | Delta t p q prev =>
      if uts u <? t then
        m ← find_place u prev;
        Some (match m with Some (c, cr, rm) => Some (Delta t p q c, cr, rm) | None => None end)
      else place u c
  | _ => place u c
  end.

(** One turn of the clean-up: the last marker is applied to the row behind it. *)
Fixpoint merge (c : cell) : option (option cell) :=
  match c with
  | Delta t p q prev =>
      match prev with
      | Delta _ _ _ _ => m ← merge prev; Some (match m with Some c => Some (Delta t p q c) | None => None end)
      | Row r => if p =? timestamp r then cs ← changeset q; r' ← update_row r cs (t - 1); Some (Some (Row r')) else Some None
      | Null => Some None
      end
  | _ => Some None
  end.
Fixpoint clean_up (fuel : nat) (c : cell) (removed : Z) : option (cell * Z) :=
  match fuel with
  | O => None
  | S fuel => m ← merge c; match m with None => Some (c, removed) | Some c => clean_up fuel c (removed + 1) end
  end.

(** [logrecord::apply]: the slot and the counts of markers created and removed. *)
Definition apply (u : update) (c : cell) : option (cell * Z * Z) :=
  m ← find_place u c;
  match m with
  | None => Some (c, 0, 0)
  | Some (c, cr, rm) => '(c, rm) ← clean_up (S (Z.to_nat (deltas c))) c rm; Some (c, cr, rm)
  end.

(** [logrecord::run] on the slots of a table; a removal puts a marker of four bytes. *)
Definition removal (u : update) : update :=
  let '(c, k, v, t, p, e) := u in
  if c =? logcmd_remove then (c, k, [1; 0; 0; 0], t .| 1, p, e) else u.
Record table := { cells : gmap (list Z) cell; created : Z; removed : Z }.
Definition empty_table : table := {| cells := ∅; created := 0; removed := 0 |}.
Definition run (u : update) (t : table) : option table :=
  '(c, cr, rm) ← apply (removal u) (default Null (cells t !! ukey u));
  Some {| cells := <[ukey u := c]> (cells t); created := created t + cr; removed := removed t + rm |}.
Fixpoint replay (us : list update) (t : table) : option table :=
  match us with [] => Some t | u :: us => t ← run u t; replay us t end.

(** * The requests that are logged *)

Definition update_timestamp (clock x : Z) : Z := if less_equal 64 clock x then wrap 64 ((x .| 1) + 1) else clock.

(** [apply_put] and [apply_replace]: the row, its timestamp and the previous one; [clock] is the
    timestamp of the thread. *)
Definition apply_put (clock : Z) (old : option R) (cs : changes) : option (R * Z * Z) :=
  match old with
  | None => r ← create cs clock; Some (r, clock, 0)
  | Some o =>
      let ts := update_timestamp clock (timestamp o) in
      if Z.odd (timestamp o) then r ← create cs ts; Some (r, ts, 0)
      else r ← update_row o cs ts; Some (r, ts, timestamp o)
  end.
Definition apply_replace (clock : Z) (old : option R) (v : list Z) : option (R * Z * Z) :=
  let '(ts, prev) := match old with None => (clock, 0) | Some o => (update_timestamp clock (timestamp o), timestamp o) end in
  r ← create1 v ts; Some (r, ts, prev).

(** A request of a client to a key, in an epoch, by a thread with a clock; the log gets the bytes
    of the changes as the client sent them. *)
Record call := { is_put : bool; ckey : list Z; cval : list Z; clock : Z; cepoch : Z; cpad : list Z }.
Definition logged (c : call) (ts prev : Z) : request :=
  {| rcommand := if is_put c then logcmd_put else logcmd_replace;
     rtimes := {| qepoch := cepoch c; qts := ts; qprev_ts := prev |}; rkey := ckey c; rvalue := cval c; rpad := cpad c |}.
Definition serve (c : call) (rows : gmap (list Z) R) : option (gmap (list Z) R * request) :=
  let old := rows !! ckey c in
  '(r, ts, prev) ← (if is_put c then cs ← changeset (cval c); apply_put (clock c) old cs
                    else apply_replace (clock c) old (cval c));
  Some (<[ckey c := r]> rows, logged c ts prev).
Fixpoint serve_all (cs : list call) (rows : gmap (list Z) R) : option (gmap (list Z) R * list request) :=
  match cs with
  | [] => Some (rows, [])
  | c :: cs => '(rows, r) ← serve c rows; '(rows, rs) ← serve_all cs rows; Some (rows, r :: rs)
  end.
End Apply.
Arguments cell R : clear implicits.
Arguments table R : clear implicits.
