(* ===== verification/LogOrder.v ===== *)
(** log.cc: proofs about replaying records in any order.

    The records of a key have a history: each made a row, from nothing or from the row before.
    In whatever order they are replayed, the slot is a chain of markers over a row of the
    history, and when all are there it is the last row. *)
From Stdlib Require Import Sorted.
From S2P Require Import Prelude CircularInt Msgpack ValueLog LogReplay LogApply.

Section Order.
Context {R : Type} `{RowLaws R}.

Definition makes (u : update) (r : R) : Prop :=
  ucommand u = logcmd_put /\ (exists cs, changeset (uval u) = Some cs /\ create cs (uts u) = Some r) \/
  ucommand u = logcmd_replace /\ create1 (uval u) (uts u) = Some r.
Definition modifies (o : R) (u : update) (r : R) : Prop :=
  ucommand u = logcmd_modify /\ uprev u = timestamp o /\
  exists cs, changeset (uval u) = Some cs /\ update_row o cs (uts u) = Some r.
Definition stamp (r : R) : Prop := Z.even (timestamp r) = true /\ 0 < timestamp r.

(** A history from the row [o]: the records and the rows they made. *)
Inductive history : option R -> list (update * R) -> Prop :=
| history_nil o : history o []
| history_make o u r h : makes u r -> stamp r -> (forall p, o = Some p -> timestamp p < timestamp r) ->
    history (Some r) h -> history o ((u, r) :: h)
| history_modify o u r h : modifies o u r -> stamp r -> timestamp o < timestamp r ->
    history (Some r) h -> history (Some o) ((u, r) :: h).

Definition rows_of (o : option R) (h : list (update * R)) : list R := option_list o ++ (snd <$> h).
Definition etime (e : update * R) : Z := timestamp e.2.

Lemma makes_time u r : makes u r -> timestamp r = uts u.
Proof. intros [[_ (cs & _ & E)]|[_ E]]; eauto using create_time, create1_time. Qed.
Lemma modifies_time o u r : modifies o u r -> timestamp r = uts u.
Proof. intros (_ & _ & cs & _ & E). by eapply update_time. Qed.

(** The rows get later and later. *)
Lemma history_later o h p r : history o h -> o = Some p -> r ∈ snd <$> h -> timestamp p < timestamp r.
Proof.
  intros Hh. revert p. induction Hh as [|o u r' h M S L Hh IH|o u r' h M S L Hh IH]; intros p Ho Hr; cbn in Hr.
  - by apply not_elem_of_nil in Hr.
  - specialize (L p Ho). apply elem_of_cons in Hr as [->|Hr]; [done|]. specialize (IH _ eq_refl Hr). lia.
  - injection Ho as <-. apply elem_of_cons in Hr as [->|Hr]; [done|]. specialize (IH _ eq_refl Hr). lia.
Qed.
Lemma history_inj o h r r' : history o h -> r ∈ rows_of o h -> r' ∈ rows_of o h -> timestamp r = timestamp r' -> r = r'.
Proof.
  intros Hh. induction Hh as [o|o u r0 h M S L Hh IH|o u r0 h M S L Hh IH]; unfold rows_of in *.
  - destruct o; set_solver.
  - assert (Hl : forall p q, o = Some p -> q ∈ r0 :: (snd <$> h) -> timestamp p < timestamp q).
    { intros p q Ho Hq. apply elem_of_cons in Hq as [->|Hq]; [by apply L|].
      specialize (L p Ho). pose proof (history_later _ _ _ _ Hh eq_refl Hq). lia. }
    destruct o as [p|]; cbn in *; [|apply IH].
    intros [->|Hr]%elem_of_cons [->|Hr']%elem_of_cons E; auto.
    + pose proof (Hl _ _ eq_refl Hr'). lia.
    + pose proof (Hl _ _ eq_refl Hr). lia.
  - assert (Hl : forall q, q ∈ r0 :: (snd <$> h) -> timestamp o < timestamp q).
    { intros q Hq. apply elem_of_cons in Hq as [->|Hq]; [done|]. pose proof (history_later _ _ _ _ Hh eq_refl Hq). lia. }
    cbn in *. intros [->|Hr]%elem_of_cons [->|Hr']%elem_of_cons E; auto.
    + pose proof (Hl _ Hr'). lia.
    + pose proof (Hl _ Hr). lia.
Qed.

(** What made each row of the history. *)
Lemma history_event o h u r : history o h -> (u, r) ∈ h -> stamp r /\ timestamp r = uts u /\
  (makes u r \/ exists p, modifies p u r /\ p ∈ rows_of o h /\ timestamp p < timestamp r /\
     forall q, q ∈ rows_of o h -> timestamp q < timestamp r -> timestamp q <= timestamp p).
Proof.
  intros Hh. induction Hh as [o|o u0 r0 h M S L Hh IH|o u0 r0 h M S L Hh IH]; intros He.
  - by apply not_elem_of_nil in He.
  - apply elem_of_cons in He as [[= -> ->]|He]; [split_and!; [done | by apply makes_time | by left]|].
    destruct (IH He) as (S' & T & [Mk|(p & Md & Hp & Lp & Q)]); split_and!; auto. right. exists p.
    pose proof (history_later _ _ _ _ Hh eq_refl (list_elem_of_fmap_2 snd _ _ He)) as Lr. cbn in Lr.
    split_and!; [done | unfold rows_of in *; set_solver | done |].
    intros q Hq Lq. unfold rows_of in *. cbn in *. apply elem_of_app in Hq as [Hq|Hq]; [|by apply Q].
    destruct o as [o|]; cbn in Hq; [|by apply not_elem_of_nil in Hq]. apply list_elem_of_singleton in Hq as ->.
    specialize (L o eq_refl). assert (timestamp r0 <= timestamp p) by (apply Q; [left | done]). lia.
  - apply elem_of_cons in He as [[= -> ->]|He].
    + split_and!; [done | by eapply modifies_time |]. right. exists o. split_and!; [done | left | done |].
      unfold rows_of. cbn. intros q [->|[->|Hq]%elem_of_cons]%elem_of_cons Lq; [lia | lia |].
      pose proof (history_later _ _ _ _ Hh eq_refl Hq). lia.
    + destruct (IH He) as (S' & T & [Mk|(p & Md & Hp & Lp & Q)]); split_and!; auto. right. exists p.
      pose proof (history_later _ _ _ _ Hh eq_refl (list_elem_of_fmap_2 snd _ _ He)) as Lr. cbn in Lr.
      split_and!; [done | unfold rows_of in *; set_solver | done |].
      intros q Hq Lq. unfold rows_of in *. cbn in *. apply elem_of_cons in Hq as [->|Hq]; [|by apply Q].
      assert (timestamp r0 <= timestamp p) by (apply Q; [left | done]). lia.
Qed.

Lemma odd_succ t : Z.even t = true -> t .| 1 = t + 1.
Proof.
  intros E. apply Z.even_spec in E as [k ->]. apply Z.bits_inj'. intros i Hi. rewrite Z.lor_spec.
  destruct (Z.eq_dec i 0) as [->|N]; [by rewrite Z.testbit_even_0, Z.testbit_odd_0|].
  rewrite (Z.bits_above_log2 1) by (simpl; lia). rewrite orb_false_r.
  replace i with (Z.succ (i - 1)) by lia. by rewrite Z.testbit_even_succ, Z.testbit_odd_succ by lia.
Qed.

Lemma history_event_inj o h e e' : history o h -> e ∈ h -> e' ∈ h -> etime e = etime e' -> e = e'.
Proof.
  unfold etime. intros Hh. induction Hh as [o|o u r h M S L Hh IH|o u r h M S L Hh IH]; [by intros ?%not_elem_of_nil| |].
  all: intros [->|He]%elem_of_cons [->|He']%elem_of_cons E; cbn in *; auto.
  all: try (pose proof (history_later _ _ _ _ Hh eq_refl (list_elem_of_fmap_2 snd _ _ He)); lia).
  all: pose proof (history_later _ _ _ _ Hh eq_refl (list_elem_of_fmap_2 snd _ _ He')); lia.
Qed.

(** * Chains *)

Definition marker (e : update * R) (c : cell R) : cell R := Delta (uts e.1 .| 1) (uprev e.1) (uval e.1) c.
Definition base_cell (b : option R) : cell R := match b with Some r => Row r | None => Null end.
Definition chain (pend : list (update * R)) (b : option R) : cell R := foldr marker (base_cell b) pend.
Definition later (e e' : update * R) : Prop := etime e' < etime e.
Definition is_mod (e : update * R) : Prop := ucommand e.1 = logcmd_modify.

Lemma deltas_chain pend b : deltas (chain pend b) = Z.of_nat (List.length pend).
Proof. induction pend as [|e pend IH]; [by destruct b|]. cbn [chain foldr marker deltas List.length]. unfold chain in IH. rewrite IH. lia. Qed.

Lemma merge_chain pend e b : merge (chain (pend ++ [e]) (Some b)) =
  if uprev e.1 =? timestamp b
  then cs ← changeset (uval e.1); r ← update_row b cs ((uts e.1 .| 1) - 1); Some (Some (chain pend (Some r)))
  else Some None.
Proof.
  induction pend as [|a pend IH]; [done|].
  assert (N : exists t p q c, chain (pend ++ [e]) (Some b) = Delta t p q c) by (destruct pend; by eexists _, _, _, _).
  destruct N as (t & p & q & c & N). cbn [chain foldr app marker merge]. fold (chain (pend ++ [e]) (Some b)).
  rewrite N in *. rewrite IH. destruct (_ =? _); [|done]. destruct (changeset _); [|done]. simpl.
  destruct (update_row _ _ _); [|done]. done.
Qed.
Lemma merge_null pend : merge (chain pend None) = Some None.
Proof.
  induction pend as [|a pend IH]; [done|]. cbn [chain foldr marker merge]. fold (chain pend None).
  destruct pend as [|a' pend]; [done|]. cbn [chain foldr marker] in *. by rewrite IH.
Qed.

Section History.
Context (o : option R) (h : list (update * R)) (Hh : history o h) (Ho : forall p, o = Some p -> stamp p).

(** The markers are later than the base and in order. *)
Record pending (pend : list (update * R)) (b : option R) : Prop := {
  p_in : forall e, e ∈ pend -> e ∈ h /\ is_mod e;
  p_order : StronglySorted later pend;
  p_above : forall e r, e ∈ pend -> b = Some r -> timestamp r < etime e;
  p_base : forall r, b = Some r -> r ∈ rows_of o h }.
Definition settled (pend : list (update * R)) (b : option R) : Prop :=
  forall e r, list.last pend = Some e -> b = Some r -> uprev e.1 <> timestamp r.

Lemma mod_event e : e ∈ h -> is_mod e -> exists p, modifies p e.1 e.2 /\ p ∈ rows_of o h /\ timestamp p < etime e /\
  forall q, q ∈ rows_of o h -> timestamp q < etime e -> timestamp q <= timestamp p.
Proof.
  destruct e as [u r]. intros He M. destruct (history_event _ _ _ _ Hh He) as (_ & _ & [[[E _]|[E _]]|X]); [| |done];
    unfold is_mod in M; cbn in *; rewrite M in E; discriminate E.
Qed.
Lemma event_stamp e : e ∈ h -> Z.even (etime e) = true /\ 0 < etime e /\ etime e = uts e.1.
Proof. destruct e as [u r]. intros He. destruct (history_event _ _ _ _ Hh He) as ([E P] & T & _). done. Qed.

Lemma rows_stamp r : r ∈ rows_of o h -> stamp r.
Proof.
  unfold rows_of. intros [Hr|(e & -> & He)%list_elem_of_fmap]%elem_of_app.
  - destruct o as [p|]; cbn in Hr; [|by apply not_elem_of_nil in Hr]. apply list_elem_of_singleton in Hr as ->. by apply Ho.
  - destruct (event_stamp e He) as (E & P & _). by split.
Qed.

Lemma clean_chain : forall pend b rm fuel, pending pend (Some b) -> (List.length pend < fuel)%nat ->
  exists pend' done b', pend = pend' ++ done /\ clean_up fuel (chain pend (Some b)) rm = Some (chain pend' (Some b'), rm + Z.of_nat (List.length done)) /\
    pending pend' (Some b') /\ settled pend' (Some b') /\ timestamp b <= timestamp b' /\ (forall e, e ∈ done -> etime e <= timestamp b').
Proof.
  induction pend as [|e pend IH] using rev_ind; intros b rm fuel P Hf; (destruct fuel as [|fuel]; [lia|]).
  - exists [], [], b. split_and!; [done | cbn; by rewrite Z.add_0_r | done | done | lia | by intros ? ?%not_elem_of_nil].
  - cbn [clean_up]. rewrite merge_chain. destruct P as [P1 P2 P3 P4].
    assert (He : e ∈ pend ++ [e]) by set_solver. destruct (P1 e He) as [He1 He2].
    destruct (Z.eqb_spec (uprev e.1) (timestamp b)) as [E|N].
    + destruct (mod_event e He1 He2) as (p & (_ & Ep & cs & Ec & Eu) & Hp & Lp & _).
      assert (p = b) as -> by (apply (history_inj o h); auto; congruence).
      destruct (event_stamp e He1) as (Ev & _ & T). rewrite Ec. simpl.
      rewrite odd_succ by (by rewrite <-T). replace (uts e.1 + 1 - 1) with (uts e.1) by lia. rewrite Eu. simpl.
      assert (Below : forall a, a ∈ pend -> etime e < etime a).
      { intros a Ha. clear -P2 Ha. induction pend as [|d pend IH]; [by apply not_elem_of_nil in Ha|].
        apply StronglySorted_inv in P2 as [P2 F]. apply elem_of_cons in Ha as [->|Ha]; [|by apply IH].
        rewrite Forall_forall in F. apply (F e). apply in_or_app. right. by left. }
      destruct (IH e.2 (rm + 1) fuel) as (pend' & dn & b' & Epd & Ecl & Pd & Sd & Lb & Ld).
      * split.
        -- intros a Ha. apply P1. set_solver.
        -- clear -P2. induction pend as [|d pend IH]; [constructor|]. apply StronglySorted_inv in P2 as [P2 F].
           apply Forall_app in F as [F _]. constructor; auto.
        -- intros a r Ha [= <-]. by apply Below.
        -- intros r [= <-]. unfold rows_of. apply elem_of_app. right. by apply list_elem_of_fmap_2.
      * rewrite length_app in Hf. cbn in Hf. lia.
      * exists pend', (dn ++ [e]), b'. split_and!.
        -- rewrite Epd. by rewrite app_assoc.
        -- rewrite Ecl. do 2 f_equal. rewrite length_app. cbn. lia.
        -- done.
        -- done.
        -- specialize (P3 e b He eq_refl). unfold etime in *. lia.
        -- intros a Ha. apply elem_of_app in Ha as [Ha|Ha]; [by apply Ld|]. apply list_elem_of_singleton in Ha. subst a. exact Lb.
    + exists (pend ++ [e]), [], b. rewrite app_nil_r. split_and!; [done | cbn; by rewrite Z.add_0_r | by split | | lia | by intros ? ?%not_elem_of_nil].
      intros a r. rewrite last_snoc. intros [= <-] [= <-]. done.
Qed.
Lemma clean_null pend rm fuel : clean_up (S fuel) (chain pend None) rm = Some (chain pend None, rm).
Proof. cbn [clean_up]. by rewrite merge_null. Qed.

(** The place of a record among the markers. *)
Lemma find_place_chain u hi c : (forall a, a ∈ hi -> uts u < uts a.1 .| 1) ->
  find_place u c = place u c ->
  find_place u (foldr marker c hi) =
  m ← place u c; Some (match m with Some (c, cr, rm) => Some (foldr marker c hi, cr, rm) | None => None end).
Proof.
  induction hi as [|a hi IH]; intros Hi Hc.
  - cbn [foldr]. rewrite Hc. by destruct (place u c) as [[[[]]|]|].
  - cbn [foldr marker find_place]. rewrite (proj2 (Z.ltb_lt _ _)) by (apply Hi; left).
    rewrite IH; [|intros a' Ha'; apply Hi; by right|done]. by destruct (place u c) as [[[[]]|]|].
Qed.

Lemma split_pending pend b e : pending pend b -> e ∈ h -> e ∉ pend ->
  exists hi lo, pend = hi ++ lo /\ (forall a, a ∈ hi -> etime e < etime a) /\ (forall a, a ∈ lo -> etime a < etime e).
Proof.
  intros [P1 P2 _ _] He Hn. induction pend as [|a pend IH]; [exists [], []; split_and!; [done|by intros ? ?%not_elem_of_nil..]|].
  apply StronglySorted_inv in P2 as [P2 F]. rewrite Forall_forall in F.
  destruct (Z.lt_trichotomy (etime e) (etime a)) as [L|[E|L]].
  - destruct IH as (hi & lo & -> & H1 & H2); [intros a' Ha'; apply P1; by right | done | set_solver |].
    exists (a :: hi), lo. split_and!; [done | | done]. intros a' [->|Ha']%elem_of_cons; auto.
  - exfalso. apply Hn. rewrite (history_event_inj o h e a Hh He); [left | apply P1; left | done].
  - exists [], (a :: pend). split_and!; [done | by intros ? ?%not_elem_of_nil |].
    intros a' [->|Ha']%elem_of_cons; [done|]. apply list_elem_of_In in Ha'. specialize (F a' Ha'). unfold later in F. lia.
Qed.

(** The records replayed so far, and the slot. *)
Record state (S : list (update * R)) (pend : list (update * R)) (b : option R) : Prop := {
  s_pending : pending pend b;
  s_settled : settled pend b;
  s_start : forall p, o = Some p -> exists r, b = Some r /\ timestamp p <= timestamp r;
  s_done : forall e, e ∈ S -> e ∈ pend \/ exists r, b = Some r /\ etime e <= timestamp r;
  s_pend : forall e, e ∈ pend -> e ∈ S }.

Lemma even_gap a b : Z.even a = true -> Z.even b = true -> a < b -> a + 1 < b.
Proof. intros [x ->]%Z.even_spec [y ->]%Z.even_spec. lia. Qed.

(** Where a marker of [pend] stands to the record [e]. *)
Lemma marker_time a : a ∈ h -> uts a.1 .| 1 = etime a + 1.
Proof. intros Ha. destruct (event_stamp a Ha) as (E & _ & T). rewrite <-T. by apply odd_succ. Qed.

(** Cleaning up a chain whose base is new. *)
Lemma finish S e pend r rm : pending pend (Some r) -> (forall a, a ∈ S -> a ∈ pend \/ etime a <= timestamp r) ->
  (forall a, a ∈ pend -> a ∈ S) -> (forall p, o = Some p -> timestamp p <= timestamp r) -> etime e <= timestamp r ->
  exists pend' b' rm', clean_up (Datatypes.S (Z.to_nat (deltas (chain pend (Some r))))) (chain pend (Some r)) rm = Some (chain pend' b', rm') /\
    state (e :: S) pend' b' /\ rm' - rm = Z.of_nat (List.length pend) - Z.of_nat (List.length pend') /\
    exists r', b' = Some r' /\ timestamp r <= timestamp r'.
Proof.
  intros P D Pd St Le. rewrite deltas_chain.
  destruct (clean_chain pend r rm (Datatypes.S (Z.to_nat (Z.of_nat (List.length pend))))) as (pend' & dn & b' & E & C & P' & S' & Lb & Ld);
    [done | lia |].
  exists pend', (Some b'), (rm + Z.of_nat (List.length dn)). split_and!; [done | | rewrite E, length_app; lia | by exists b'].
  split; [done | done | | |].
  - intros p Hp. exists b'. split; [done|]. specialize (St p Hp). lia.
  - intros a [->|Ha]%elem_of_cons; [right; exists b'; split; [done|]; lia|].
    destruct (D a Ha) as [Hp|L]; [|right; exists b'; split; [done|]; lia].
    rewrite E in Hp. apply elem_of_app in Hp as [Hp|Hp]; [by left|]. right. exists b'. split; [done|]. by apply Ld.
  - intros a Ha. right. apply Pd. rewrite E. apply elem_of_app. by left.
Qed.

Lemma sorted_app_l (hi lo : list (update * R)) : StronglySorted later (hi ++ lo) -> StronglySorted later hi.
Proof.
  induction hi as [|a hi IH]; [constructor|]. cbn. intros [P F]%StronglySorted_inv. apply Forall_app in F as [F _].
  constructor; auto.
Qed.
Lemma sorted_insert (hi lo : list (update * R)) e : StronglySorted later (hi ++ lo) -> (forall a, a ∈ hi -> etime e < etime a) ->
  (forall a, a ∈ lo -> etime a < etime e) -> StronglySorted later (hi ++ e :: lo).
Proof.
  induction hi as [|a hi IH]; cbn; intros P H1 H2.
  - constructor; [done|]. apply Forall_forall. intros a Ha. apply H2. by apply list_elem_of_In.
  - apply StronglySorted_inv in P as [P F]. constructor; [apply IH; auto; intros; apply H1; by right|].
    apply Forall_app in F as [F1 F2]. apply Forall_app. split; [done|]. constructor; [apply H1; left | done].
Qed.

Lemma clean_settled pend b rm fuel : settled pend b -> clean_up (Datatypes.S fuel) (chain pend b) rm = Some (chain pend b, rm).
Proof.
  intros S. destruct b as [r|]; [|apply clean_null]. cbn [clean_up].
  destruct pend as [|e pend _] using rev_ind; [done|]. rewrite merge_chain.
  rewrite (proj2 (Z.eqb_neq _ _)); [done|]. apply (S e r); [apply last_snoc | done].
Qed.

Section Step.
Context (S : list (update * R)) (pend : list (update * R)) (b : option R) (e : update * R).
Context (St : state S pend b) (He : e ∈ h) (Hn : e ∉ S).
Context (hi lo : list (update * R)) (Ep : pend = hi ++ lo).
Context (H1 : forall a, a ∈ hi -> etime e < etime a) (H2 : forall a, a ∈ lo -> etime a < etime e).

Lemma in_h a : a ∈ hi \/ a ∈ lo -> a ∈ h.
Proof. intros Ha. apply (p_in _ _ (s_pending _ _ _ St)). rewrite Ep. set_solver. Qed.

Lemma step_found : find_place e.1 (chain pend b) =
  m ← place e.1 (chain lo b); Some (match m with Some (c, cr, rm) => Some (foldr marker c hi, cr, rm) | None => None end).
Proof.
  pose proof in_h as Inh. rewrite Ep. unfold chain. rewrite foldr_app. fold (chain lo b).
  destruct (event_stamp e He) as (Ee & _ & Te).
  apply find_place_chain.
  - intros a Ha. rewrite marker_time by (apply Inh; by left). specialize (H1 a Ha). lia.
  - destruct lo as [|a lo']; [by destruct b|]. destruct (event_stamp a) as (Ea & _ & _); [apply Inh; right; left|].
    assert (Lt : (uts e.1 <? uts a.1 .| 1) = false).
    { rewrite marker_time by (apply Inh; right; left).
      pose proof (even_gap (etime a) (etime e) Ea Ee (H2 a ltac:(left))). apply Z.ltb_ge. lia. }
    cbn [chain foldr marker find_place]. by rewrite Lt.
Qed.

Definition stale : bool := match cell_time (chain lo b) with Some t => uts e.1 <=? t | None => false end.

Lemma not_stale r : stale = false -> b = Some r -> timestamp r < etime e.
Proof.
  destruct (event_stamp e He) as (Ee & _ & Te). unfold stale. intros Ns ->. destruct lo as [|a lo'].
  - cbn in Ns. apply Z.leb_gt in Ns. lia.
  - pose proof (p_above _ _ (s_pending _ _ _ St) a r) as A. specialize (H2 a ltac:(left)).
    enough (timestamp r < etime a) by lia. apply A; [rewrite Ep; set_solver | done].
Qed.
Lemma is_stale : stale = true -> exists r, b = Some r /\ etime e <= timestamp r.
Proof.
  pose proof in_h as Inh.
  destruct (event_stamp e He) as (Ee & _ & Te). unfold stale. destruct lo as [|a lo'].
  - destruct b as [r|]; [|done]. cbn. intros L%Z.leb_le. exists r. split; [done|]. lia.
  - cbn [chain foldr marker cell_time]. rewrite marker_time by (apply Inh; right; left). intros L%Z.leb_le.
    destruct (event_stamp a) as (Ea & _ & _); [apply Inh; right; left|].
    pose proof (even_gap (etime a) (etime e) Ea Ee (H2 a ltac:(left))). lia.
Qed.

(** A record that becomes the base: everything earlier is gone. *)
Lemma step_base rm : stale = false -> exists pend' b' rm',
  clean_up (Datatypes.S (Z.to_nat (deltas (chain hi (Some e.2))))) (chain hi (Some e.2)) rm = Some (chain pend' b', rm') /\
  state (e :: S) pend' b' /\ rm' - rm = Z.of_nat (List.length hi) - Z.of_nat (List.length pend') /\
  exists r', b' = Some r' /\ etime e <= timestamp r'.
Proof.
  intros Ns. destruct St as [[P1 P2 P3 P4] S2 S3 S4 S5]. apply finish.
  - split.
    + intros a Ha. apply P1. rewrite Ep. set_solver.
    + rewrite Ep in P2. by apply sorted_app_l in P2.
    + intros a r Ha [= <-]. by apply H1.
    + intros r [= <-]. unfold rows_of. apply elem_of_app. right. by apply list_elem_of_fmap_2.
  - intros a Ha. destruct (S4 a Ha) as [Hp|(r & Hr & L)].
    + rewrite Ep in Hp. apply elem_of_app in Hp as [Hp|Hp]; [by left | right]. specialize (H2 a Hp). unfold etime in *. lia.
    + right. pose proof (not_stale r Ns Hr). unfold etime in *. lia.
  - intros a Ha. apply S5. rewrite Ep. set_solver.
  - intros p Hp. destruct (S3 p Hp) as (r & Hr & L). pose proof (not_stale r Ns Hr). unfold etime in *. lia.
  - unfold etime. lia.
Qed.

Lemma step_delta : stale = false -> is_mod e -> (forall r, lo = [] -> b = Some r -> uprev e.1 <> timestamp r) ->
  state (e :: S) (hi ++ e :: lo) b.
Proof.
  intros Ns M Hb. pose proof (fun r => not_stale r Ns) as Nst. destruct St as [[P1 P2 P3 P4] S2 S3 S4 S5]. rewrite Ep in *. split; [split| | | |]; auto.
  - intros a Ha. assert (a ∈ hi ++ lo \/ a = e) as [Ha'| ->] by set_solver; auto.
  - by apply sorted_insert.
  - intros a r Ha Hr. assert (a ∈ hi ++ lo \/ a = e) as [Ha'| ->] by set_solver; [by apply (P3 a) | by apply Nst].
  - intros a r. rewrite last_app_cons. destruct lo as [|c lo']; cbn; [intros [= <-]; by apply Hb|].
    intros La Hr. apply (S2 a r); [|done]. by rewrite last_app_cons.
  - intros a [->|Ha]%elem_of_cons; [left; set_solver|]. destruct (S4 a Ha) as [Hp|X]; [left; set_solver | by right].
  - intros a Ha. assert (a ∈ hi ++ lo \/ a = e) as [Ha'| ->] by set_solver; [right; auto | left].
Qed.

Lemma apply_step : exists pend' b' cr rm, apply e.1 (chain pend b) = Some (chain pend' b', cr, rm) /\ state (e :: S) pend' b' /\
  cr - rm = Z.of_nat (List.length pend') - Z.of_nat (List.length pend) /\
  forall r, b = Some r -> exists r', b' = Some r' /\ timestamp r <= timestamp r'.
Proof.
  pose proof in_h as Inh. unfold apply. rewrite step_found. unfold place. fold stale. destruct stale eqn:Ns.
  { simpl. exists pend, b, 0, 0. split_and!; [done | | lia | intros r Hr; exists r; split; [done | lia]]. destruct St as [S1 S2 S3 S4 S5]. split; auto.
    - intros a [->|Ha]%elem_of_cons; [right; by apply is_stale | auto].
    - intros a Ha. right. auto. }
  assert (Lp : List.length pend = (List.length hi + List.length lo)%nat) by (rewrite Ep; apply length_app).
  destruct (history_event o h e.1 e.2 Hh) as (_ & _ & Kind); [by destruct e|].
  assert (Base : forall rm, rm = 0 /\ lo = [] \/ rm = Z.of_nat (List.length lo) ->
    exists pend' b' cr rm', ('(c, rm') ← clean_up (Datatypes.S (Z.to_nat (deltas (chain hi (Some e.2))))) (chain hi (Some e.2)) rm;
       Some (c, 0, rm')) = Some (chain pend' b', cr, rm') /\ state (e :: S) pend' b' /\
     cr - rm' = Z.of_nat (List.length pend') - Z.of_nat (List.length pend) /\
     forall r, b = Some r -> exists r', b' = Some r' /\ timestamp r <= timestamp r').
  { intros rm Hrm. pose proof (fun r => not_stale r Ns) as Nst.
    destruct (step_base rm Ns) as (pend' & b' & rm' & -> & S' & E & r' & Hr' & Lr). simpl.
    exists pend', b', 0, rm'. split_and!; [done | done | |].
    - destruct Hrm as [[-> Elo]| ->]; [rewrite Elo in Lp|]; cbn in *; lia.
    - intros r Hr. exists r'. split; [done|]. specialize (Nst r Hr). lia. }
  destruct Kind as [[[Ec (cs & Ecs & Ecr)]|[Ec Ecr]]|(p & (Ec & Epv & cs & Ecs & Eu) & Hp & _ & _)]; rewrite Ec; commands.
  - rewrite Ecs. simpl. rewrite Ecr. simpl. rewrite deltas_chain. apply Base. by right.
  - rewrite Ecr. simpl. rewrite deltas_chain. apply Base. by right.
  - destruct (bool_decide (cell_time (chain lo b) = Some (uprev e.1))) eqn:Bd.
    + (* the row it modifies is there *)
      apply bool_decide_eq_true in Bd.
      assert (Hlo : lo = [] /\ b = Some p).
      { assert (Hpe : Z.even (timestamp p) = true) by by apply (rows_stamp p).
        destruct lo as [|a lo'].
        - split; [done|]. destruct b as [r|] eqn:Eb; [|done]. cbn in Bd. f_equal. injection Bd as Bd.
          apply (history_inj o h); auto; [by apply (p_base _ _ (s_pending _ _ _ St)) | congruence].
        - exfalso. cbn [chain foldr marker cell_time] in Bd. rewrite marker_time in Bd by (apply Inh; right; left).
          destruct (event_stamp a) as (Ea & _ & _); [apply Inh; right; left|]. injection Bd as Bd. rewrite Epv in Bd.
          rewrite <-Bd, Z.even_add, Ea in Hpe. done. }
      destruct Hlo as [Elo Eb]. rewrite Ecs. replace (chain lo b) with (Row p) by (by rewrite Elo, Eb).
      cbn [mbind option_bind negb orb]. rewrite Eu. exact (Base 0 (or_introl (conj eq_refl Elo))).
    + apply bool_decide_eq_false in Bd. cbn [mbind option_bind negb orb].
      assert (E : foldr marker (Delta (uts e.1 .| 1) (uprev e.1) (uval e.1) (chain lo b)) hi = chain (hi ++ e :: lo) b)
        by (unfold chain; by rewrite foldr_app).
      rewrite E.
      assert (S' : state (e :: S) (hi ++ e :: lo) b).
      { apply step_delta; [done | done |]. intros r -> ->. cbn in Bd. congruence. }
      rewrite clean_settled by apply S'. simpl. eexists _, _, _, _. split_and!; [done | done | |].
      * rewrite Lp, length_app. cbn. lia.
      * intros r Hr. exists r. split; [done | lia].
Qed.
End Step.

(** When every record is replayed or as early as the base, nothing waits and the base is the last row. *)
Definition last_row : option R := list.last (rows_of o h).
Lemma complete_pend S pend b : state S pend b ->
  (forall e, e ∈ h -> e ∈ S \/ exists r, b = Some r /\ etime e <= timestamp r) -> pend = [].
Proof.
  intros [[P1 P2 P3 P4] S2 S3 S4 S5] C. destruct pend as [|e0 pend _] using rev_ind; [done|]. exfalso.
  assert (He0 : e0 ∈ pend ++ [e0]) by set_solver. destruct (P1 e0 He0) as [Hin M0].
  destruct (mod_event e0 Hin M0) as (p & (_ & Epv & _) & Hp & Lp & Q).
  assert (X : exists r, b = Some r /\ timestamp p <= timestamp r).
  { unfold rows_of in Hp. apply elem_of_app in Hp as [Hp|Hp].
    - destruct o as [q|]; cbn in Hp; [|by apply not_elem_of_nil in Hp]. apply list_elem_of_singleton in Hp as ->. by apply S3.
    - apply list_elem_of_fmap in Hp as (e' & -> & He'). destruct (C e' He') as [Hs|X]; [|done].
      destruct (S4 e' Hs) as [Hp|X]; [|done]. exfalso. apply elem_of_app in Hp as [Hp|Hp].
      + assert (L : etime e0 < etime e'); [|unfold etime in *; lia].
        clear -P2 Hp. induction pend as [|d pend IH]; [by apply not_elem_of_nil in Hp|].
        apply StronglySorted_inv in P2 as [P2 F]. apply elem_of_cons in Hp as [->|Hp]; [|by apply IH].
        rewrite Forall_forall in F. apply (F e0). apply in_or_app. right. by left.
      + apply list_elem_of_singleton in Hp as ->. unfold etime in *. lia. }
  destruct X as (r & Hr & L). apply (S2 e0 r); [apply last_snoc | done|]. rewrite Epv.
  pose proof (P3 e0 r He0 Hr) as Lr. pose proof (Q r (P4 r Hr) Lr). lia.
Qed.
Lemma complete_base S b : state S [] b ->
  (forall e, e ∈ h -> e ∈ S \/ exists r, b = Some r /\ etime e <= timestamp r) ->
  (forall l, last_row = Some l -> l ∈ rows_of o h /\ forall q, q ∈ rows_of o h -> timestamp q <= timestamp l) -> b = last_row.
Proof.
  intros [[P1 P2 P3 P4] S2 S3 S4 S5] C L.
  assert (Up : forall q, q ∈ rows_of o h -> exists r, b = Some r /\ timestamp q <= timestamp r).
  { unfold rows_of. intros q [Hq|(e & -> & He)%list_elem_of_fmap]%elem_of_app.
    - destruct o as [p|]; cbn in Hq; [|by apply not_elem_of_nil in Hq]. apply list_elem_of_singleton in Hq as ->. by apply S3.
    - destruct (C e He) as [Hs|X]; [|done]. destruct (S4 e Hs) as [Hp|X]; [by apply not_elem_of_nil in Hp | done]. }
  destruct last_row as [l|] eqn:E.
  - destruct (L l eq_refl) as [Hl M]. destruct (Up l Hl) as (r & -> & Lr). f_equal.
    pose proof (P4 r eq_refl) as Hr. specialize (M r Hr). apply (history_inj o h); auto. lia.
  - destruct b as [r|]; [|done]. pose proof (P4 r eq_refl) as Hr. unfold last_row in E. apply last_None in E.
    rewrite E in Hr. by apply not_elem_of_nil in Hr.
Qed.
End History.
Lemma last_row_cons o e h : last_row o (e :: h) = last_row (Some e.2) h.
Proof. unfold last_row, rows_of. destruct o; cbn; [|done]. by rewrite !list.last_cons. Qed.
Lemma history_last o h : history o h -> forall l, last_row o h = Some l ->
  l ∈ rows_of o h /\ forall q, q ∈ rows_of o h -> timestamp q <= timestamp l.
Proof.
  intros Hh l E. split; [by apply last_Some_elem_of|]. revert l E.
  induction Hh as [o|o u r h M S L Hh IH|o u r h M S L Hh IH]; intros l E q.
  - unfold last_row, rows_of in *. destruct o; [|done]. injection E as <-. cbn. intros ->%list_elem_of_singleton. lia.
  - rewrite last_row_cons in E. cbn in E. specialize (IH l E). unfold rows_of in *. intros [Hq|Hq]%elem_of_app; [|by apply IH].
    destruct o as [p|]; cbn in Hq; [|by apply not_elem_of_nil in Hq]. apply list_elem_of_singleton in Hq as ->.
    specialize (L p eq_refl). specialize (IH r ltac:(left)). lia.
  - rewrite last_row_cons in E. cbn in E. specialize (IH l E). unfold rows_of in *. intros [Hq|Hq]%elem_of_app; [|by apply IH].
    apply list_elem_of_singleton in Hq as ->. specialize (IH r ltac:(left)). lia.
Qed.
End Order.
