(* ===== verification/LogRestore.v ===== *)
(** log.cc, kvrow.hh: the replay of the logs restores the rows.

    The requests of clients to a table make a history of every key.  A checkpoint has a row of
    the history of each key, not all of the same time; the logs have the requests, and their
    replay may come in any order.  The outcome is the table. *)
From Stdlib Require Import Sorted.
From S2P Require Import Prelude CircularInt Msgpack MsgpackStream ValueLog LogReplay LogApply LogOrder.
From S2P Require ValueBag ValueString ValueArray.
From S2P Require Import ValueVersioned.

Section Restore.
Context {R : Type} `{RowLaws R}.

(** * Histories from requests *)

Definition call_ok (c : call) : Prop := Z.even (clock c) = true /\ 0 < clock c < 2 ^ 62.
Definition in_range (r : R) : Prop := timestamp r < 2 ^ 62.

Lemma update_timestamp_ok c x : Z.even c = true -> 0 < c < 2 ^ 62 -> 0 < x < 2 ^ 62 -> Z.even x = true ->
  Z.even (update_timestamp c x) = true /\ x < update_timestamp c x /\ 0 < update_timestamp c x.
Proof.
  intros Ec Hc Hx Ex. unfold update_timestamp, less_equal. rewrite (diff_near 64) by lia.
  destruct (Z.leb_spec (c - x) 0); [|split_and!; [done | lia..]].
  rewrite odd_succ by done. rewrite wrap_small by lia. split_and!; [|lia..].
  replace (x + 1 + 1) with (x + 2) by lia. by rewrite Z.even_add, Ex.
Qed.

Lemma serve_event c rows rows' q : call_ok c -> (forall p, rows !! ckey c = Some p -> stamp p /\ in_range p) ->
  serve c rows = Some (rows', q) ->
  exists r, rows' = <[ckey c := r]> rows /\ ukey (request_update q) = ckey c /\ stamp r /\ timestamp r = qts (rtimes q) /\
    ((forall p, rows !! ckey c = Some p -> timestamp p < timestamp r) /\ makes (request_update q) r \/
     exists p, rows !! ckey c = Some p /\ timestamp p < timestamp r /\ modifies p (request_update q) r).
Proof.
  intros [Ec Hc] Hp. unfold serve. destruct (is_put c) eqn:Put.
  - destruct (changeset (cval c)) as [cs|] eqn:Cs; [|done]. simpl. unfold apply_put.
    destruct (rows !! ckey c) as [p|] eqn:Old.
    + destruct (Hp p eq_refl) as [[Ep Pp] Rp].
      assert (O : Z.odd (timestamp p) = false) by (by rewrite <-Z.negb_even, Ep). rewrite O.
      destruct (update_timestamp_ok (clock c) (timestamp p)) as (E & L & P); [done | done | done | done |].
      destruct (update_row p cs _) as [r|] eqn:U; [|done]. simpl. intros [= <- <-].
      pose proof (update_time _ _ _ _ U) as T.
      assert (D : is_delta (logged c (update_timestamp (clock c) (timestamp p)) (timestamp p)) = true).
      { unfold is_delta, logged, truthy. cbn. rewrite Put, O. rewrite (proj2 (Z.eqb_neq (timestamp p) 0)) by lia. done. }
      exists r. unfold request_update. rewrite D. cbn. split_and!; [done | done | split; [by rewrite T | by rewrite T] | done |].
      right. exists p. split_and!; [done | by rewrite T |]. unfold modifies. cbn. split_and!; [done | done | by exists cs].
    + destruct (create cs (clock c)) as [r|] eqn:U; [|done]. simpl. intros [= <- <-].
      pose proof (create_time _ _ _ U) as T.
      assert (D : is_delta (logged c (clock c) 0) = false) by (unfold is_delta, logged; cbn; by rewrite Put).
      exists r. unfold request_update. rewrite D. cbn. split_and!; [done | done | split; rewrite T; [done | lia] | done |].
      left. split; [done|]. left. cbn. rewrite Put. split; [done|]. by exists cs.
  - unfold apply_replace.
    set (tp := match rows !! ckey c with None => (clock c, 0) | Some o => (update_timestamp (clock c) (timestamp o), timestamp o) end).
    assert (T0 : Z.even tp.1 = true /\ 0 < tp.1 /\ forall p, rows !! ckey c = Some p -> timestamp p < tp.1).
    { subst tp. destruct (rows !! ckey c) as [p|] eqn:Old; [|split_and!; [done | cbn; lia | done]].
      destruct (Hp p eq_refl) as [[Ep Pp] Rp].
      destruct (update_timestamp_ok (clock c) (timestamp p)) as (E & L & P); [done | done | done | done |].
      split_and!; [done | done | by intros ? [= <-]]. }
    destruct tp as [ts prev]. cbn in T0. destruct T0 as (E & P & L).
    destruct (create1 (cval c) ts) as [r|] eqn:U; [|done]. simpl. intros [= <- <-].
    pose proof (create1_time _ _ _ U) as T.
    assert (D : is_delta (logged c ts prev) = false) by (unfold is_delta, logged; cbn; by rewrite Put).
    exists r. unfold request_update. rewrite D. cbn. split_and!; [done | done | split; by rewrite T | done |].
    left. split; [intros p Ho; rewrite T; by apply L|]. right. cbn. rewrite Put. done.
Qed.

Definition key_events (k : list Z) (evs : list (update * R)) : list (update * R) := filter (fun e => ukey e.1 = k) evs.
Lemma serve_history cs : forall rows rows' qs, Forall call_ok cs -> (forall k p, rows !! k = Some p -> stamp p /\ in_range p) ->
  Forall (fun q => qts (rtimes q) < 2 ^ 62) qs -> serve_all cs rows = Some (rows', qs) ->
  exists evs, fst <$> evs = map request_update qs /\
    (forall k, history (rows !! k) (key_events k evs) /\ rows' !! k = last_row (rows !! k) (key_events k evs)) /\
    forall n rows_n qs_n k r, serve_all (take n cs) rows = Some (rows_n, qs_n) -> rows_n !! k = Some r ->
      r ∈ rows_of (rows !! k) (key_events k evs).
Proof.
  induction cs as [|c cs IH]; intros rows rows' qs F Hp Q S; simpl in S.
  - injection S as <- <-. exists []. split_and!; [done | |].
    + intros k. split; [constructor|]. unfold last_row, rows_of. by destruct (rows !! k).
    + intros n rows_n qs_n k r. rewrite firstn_nil. intros [= <- _] ->. left.
  - apply list.Forall_cons in F as [Hc F]. destruct (serve c rows) as [[rows1 q]|] eqn:S1; [|done]. simpl in S.
    destruct (serve_all cs rows1) as [[rows2 qs2]|] eqn:S2; [|done]. injection S as <- <-.
    apply list.Forall_cons in Q as [Hq Q].
    destruct (serve_event c rows rows1 q Hc (Hp (ckey c)) S1) as (r & -> & Ek & Sr & Tr & Kind).
    destruct (IH (<[ckey c := r]> rows) rows2 qs2 F) as (evs & E & Hk & Pre); [|done|done|].
    { intros k p. destruct (decide (ckey c = k)) as [<-|N].
      - rewrite lookup_insert_eq. intros [= <-]. split; [done|]. unfold in_range. lia.
      - rewrite lookup_insert_ne by done. apply Hp. }
    assert (Kev : forall k, key_events k ((request_update q, r) :: evs) =
                    if decide (ckey c = k) then (request_update q, r) :: key_events k evs else key_events k evs).
    { intros k. unfold key_events. rewrite list.filter_cons. cbn. by rewrite Ek. }
    exists ((request_update q, r) :: evs). split_and!; [cbn; by rewrite E | |].
    + intros k. destruct (Hk k) as [Hh Hl]. rewrite Kev. destruct (decide (ckey c = k)) as [<-|N].
      * rewrite lookup_insert_eq in Hh, Hl. rewrite last_row_cons. cbn. split; [|done].
        destruct Kind as [[L M]|(p & Ho & L & M)]; [by constructor | rewrite Ho; by constructor].
      * by rewrite lookup_insert_ne in Hh, Hl by done.
    + intros [|n] rows_n qs_n k r'; cbn [firstn serve_all]; [intros [= <- _] ->; left|].
      rewrite S1. cbn [mbind option_bind]. destruct (serve_all (take n cs) _) as [[rows3 qs3]|] eqn:S3; [|done].
      cbn [mbind option_bind]. intros [= <- _] E3. pose proof (Pre n rows3 qs3 k r' S3 E3) as In.
      rewrite Kev. unfold rows_of in *. destruct (decide (ckey c = k)) as [<-|N].
      * rewrite lookup_insert_eq in In. cbn in *. set_solver.
      * by rewrite lookup_insert_ne in In by done.
Qed.

(** No record is there twice. *)
Lemma history_NoDup o h : history o h -> NoDup h.
Proof.
  induction 1 as [o|o u r h M S L Hh IH|o u r h M S L Hh IH]; constructor; try done.
  all: intros He; pose proof (history_later _ _ _ _ Hh eq_refl (list_elem_of_fmap_2 snd _ _ He)); cbn in *; lia.
Qed.
Lemma key_NoDup evs : (forall k, NoDup (key_events k evs)) -> NoDup evs.
Proof.
  induction evs as [|e evs IH]; [constructor|]. intros N. apply list.NoDup_cons. split.
  - intros He. specialize (N (ukey e.1)). unfold key_events in N. rewrite list.filter_cons in N. case_decide; [|done].
    apply list.NoDup_cons in N as [N _]. apply N. by apply list_elem_of_filter.
  - apply IH. intros k. specialize (N k). unfold key_events in *. rewrite list.filter_cons in N. case_decide; [|done].
    by apply list.NoDup_cons in N as [_ N].
Qed.

(** * The table during the replay *)

Definition total (m : gmap (list Z) (cell R)) : Z := map_fold (fun _ c n => deltas c + n) 0 m.
Lemma waiting_insert m k c : total (<[k := c]> m) = total m - deltas (default Null (m !! k)) + deltas c.
Proof.
  assert (New : forall m' c', m' !! k = None -> total (<[k := c']> m') = deltas c' + total m').
  { intros m' c' E. unfold total. rewrite map_fold_insert_L; [done | lia | done]. }
  destruct (m !! k) as [c0|] eqn:E; cbn; [|rewrite New by done; lia].
  rewrite <-(insert_delete_id m k c0 E) at 2. rewrite <-insert_delete_eq.
  rewrite !New by apply lookup_delete_eq. lia.
Qed.
Lemma waiting_none m : (forall k c, m !! k = Some c -> deltas c = 0) -> total m = 0.
Proof.
  induction m as [|k c m E IH] using map_ind; [done|]. intros Z0. rewrite waiting_insert, E, IH; cbn.
  - rewrite (Z0 k c) by apply lookup_insert_eq. lia.
  - intros k' c' E'. apply (Z0 k'). rewrite lookup_insert_ne; [done|]. intros ->. congruence.
Qed.

Section Table.
Context (evs : list (update * R)) (ckp : gmap (list Z) R).
Context (Hist : forall k, history None (key_events k evs)).
Context (Ckp : forall k r, ckp !! k = Some r -> r ∈ rows_of None (key_events k evs)).

Record replayed (S : list (update * R)) (t : table R) : Prop := {
  r_cells : forall k, exists pend b, default Null (cells t !! k) = chain pend b /\
    state None (key_events k evs) (key_events k S) pend b /\
    forall r, ckp !! k = Some r -> exists r', b = Some r' /\ timestamp r <= timestamp r';
  r_full : forall k c, cells t !! k = Some c -> c <> Null;
  r_count : created t - removed t = total (cells t) }.

(** The table the checkpoint gives. *)
Definition restored : table R := {| cells := Row <$> ckp; created := 0; removed := 0 |}.
Lemma restored_ok : replayed [] restored.
Proof.
  split.
  - intros k. exists [], (ckp !! k). split_and!.
    + cbn. rewrite lookup_fmap. by destruct (ckp !! k).
    + split; [split | done | done | by intros ? ?%not_elem_of_nil..].
      * by intros ? ?%not_elem_of_nil.
      * constructor.
      * by intros ? ? ?%not_elem_of_nil.
      * apply Ckp.
    + intros r Hr. exists r. split; [done | lia].
  - intros k c. cbn. rewrite lookup_fmap. by destruct (ckp !! k); intros [= <-].
  - cbn. symmetry. apply waiting_none. intros k c. cbn. rewrite lookup_fmap. by destruct (ckp !! k); intros [= <-].
Qed.

Lemma in_key e l : e ∈ key_events (ukey e.1) l <-> e ∈ l.
Proof. unfold key_events. rewrite list_elem_of_filter. tauto. Qed.
Lemma event_removal e : e ∈ evs -> removal e.1 = e.1.
Proof.
  intros He. apply in_key in He. destruct e as [[[[[[c k] v] t] p] ep] r].
  destruct (history_event _ _ _ _ (Hist k) He) as (_ & _ & [[[E _]|[E _]]|(q & (E & _) & _)]);
    cbn in *; subst c; reflexivity.
Qed.

Lemma run_replayed S t e : replayed S t -> e ∈ evs -> e ∉ S -> exists t', run e.1 t = Some t' /\ replayed (e :: S) t'.
Proof.
  intros [C F N] He Hn. unfold run. rewrite (event_removal e He).
  set (k := ukey e.1). destruct (C k) as (pend & b & Ec & St & Cb).
  assert (He' : e ∈ key_events k evs) by by apply in_key.
  assert (Hn' : e ∉ key_events k S) by (intros Hs; apply Hn; by apply in_key).
  destruct (split_pending None (key_events k evs) (Hist k) ltac:(done) pend b e) as (hi & lo & Ep & H1 & H2);
    [apply St | done | intros Hp; by apply Hn', (s_pend _ _ _ _ _ St) |].
  destruct (apply_step None (key_events k evs) (Hist k) ltac:(done) _ _ _ e St He' Hn' hi lo Ep H1 H2)
    as (pend' & b' & cr & rm & Ea & St' & Cnt & Up).
  rewrite Ec, Ea. cbn [mbind option_bind]. eexists. split; [done|].
  assert (Ek : key_events k (e :: S) = e :: key_events k S) by (unfold key_events; rewrite list.filter_cons; by case_decide).
  split; cbn [cells created removed].
  - intros k'. destruct (decide (k = k')) as [<-|N'].
    + rewrite lookup_insert_eq, Ek. exists pend', b'. split_and!; [done | done |].
      intros r Hr. destruct (Cb r Hr) as (r1 & E1 & L1). destruct (Up r1 E1) as (r2 & E2 & L2). exists r2. split; [done | lia].
    + rewrite lookup_insert_ne by done. unfold key_events. rewrite list.filter_cons. case_decide; [done|]. apply C.
  - intros k' c. destruct (decide (k = k')) as [<-|N']; [|rewrite lookup_insert_ne by done; apply F].
    rewrite lookup_insert_eq. intros [= <-]. destruct pend' as [|a pend']; [|done].
    destruct (s_done _ _ _ _ _ St' e) as [Hp|(r & -> & _)]; [left | by apply not_elem_of_nil in Hp | done].
  - rewrite waiting_insert, Ec, !deltas_chain. lia.
Qed.
Lemma replay_replayed es : forall S t, replayed S t -> NoDup es -> (forall e, e ∈ es -> e ∈ evs /\ e ∉ S) ->
  exists t' S', replay (fst <$> es) t = Some t' /\ replayed S' t' /\ forall e, e ∈ S' <-> e ∈ es \/ e ∈ S.
Proof.
  induction es as [|e es IH]; intros S t Rp Nd Ok.
  - exists t, S. split_and!; [done | done |]. intros e. split; [by right | by intros [?%not_elem_of_nil|]].
  - apply list.NoDup_cons in Nd as [Ni Nd]. destruct (Ok e ltac:(left)) as [He Hs].
    destruct (run_replayed S t e Rp He Hs) as (t1 & E1 & Rp1).
    destruct (IH (e :: S) t1 Rp1 Nd) as (t' & S' & E' & Rp' & M).
    { intros e' He'. destruct (Ok e' ltac:(by right)) as [? ?]. split; [done|]. intros [->|?]%elem_of_cons; done. }
    exists t', S'. split_and!; [|done|].
    + cbn [fmap list_fmap replay]. rewrite E1. exact E'.
    + intros a. rewrite M. set_solver.
Qed.

(** All the records that the checkpoint does not cover are replayed. *)
Lemma replayed_all (S : list (update * R)) (t : table R) (rows : gmap (list Z) R) : replayed S t -> (forall k, rows !! k = last_row None (key_events k evs)) ->
  (forall e, e ∈ evs -> e ∈ S \/ exists r, ckp !! ukey e.1 = Some r /\ etime e <= timestamp r) ->
  (forall k, cells t !! k = Row <$> rows !! k) /\ created t = removed t.
Proof.
  intros [C F N] Rows Cov.
  assert (Ck : forall k, default Null (cells t !! k) = base_cell (rows !! k)).
  { intros k. destruct (C k) as (pend & b & Ec & St & Cb). rewrite Ec, Rows.
    assert (Cv : forall e, e ∈ key_events k evs -> e ∈ key_events k S \/ exists r, b = Some r /\ etime e <= timestamp r).
    { intros e He. unfold key_events in *. apply list_elem_of_filter in He as [<- He]. destruct (Cov e He) as [Hs|(r & Hr & L)].
      - left. by apply list_elem_of_filter.
      - right. destruct (Cb r Hr) as (r' & E & L'). exists r'. split; [done | lia]. }
    pose proof (complete_pend None _ (Hist k) ltac:(done) _ _ _ St Cv) as ->.
    by rewrite (complete_base None _ (Hist k) ltac:(done) _ _ St Cv (history_last None _ (Hist k))). }
  split.
  - intros k. specialize (Ck k). specialize (F k). destruct (cells t !! k) as [c|], (rows !! k) as [r|]; cbn in *; subst; try done.
    by destruct (F Null eq_refl).
  - enough (total (cells t) = 0) by lia. apply waiting_none. intros k c E. specialize (Ck k). rewrite E in Ck. cbn in Ck.
    subst c. by destruct (rows !! k).
Qed.
End Table.

Lemma filter_fst (kept : update -> bool) (evs : list (update * R)) :
  filter (fun u => kept u = true) (fst <$> evs) = fst <$> filter (fun e => kept e.1 = true) evs.
Proof.
  induction evs as [|e evs IH]; [done|]. cbn [fmap list_fmap]. rewrite !list.filter_cons. cbn.
  case_decide; cbn; by rewrite IH.
Qed.

(** [C9]. The logs restore the table, in whatever order the records are replayed.  Clients make
    a table [rows] from nothing with puts and replaces [cs], by threads with their own clocks,
    and [qs] is what is logged.  A checkpoint [ckp] has rows of the keys of different times.  Any
    order [us] of the records that are kept, where the ones that are dropped are not later than
    the row of the checkpoint, replays: every key has the row the clients made last, no marker
    of a modification waits, and the counts of markers created and removed agree. *)
Theorem replay_restores (cs : list call) (rows ckp : gmap (list Z) R) (qs : list request) (kept : update -> bool) (us : list update) :
  Forall call_ok cs -> Forall (fun q => qts (rtimes q) < 2 ^ 62) qs -> serve_all cs ∅ = Some (rows, qs) ->
  (forall k r, ckp !! k = Some r -> exists n rows_n qs_n, serve_all (take n cs) ∅ = Some (rows_n, qs_n) /\ rows_n !! k = Some r) ->
  (forall q, q ∈ qs -> kept (request_update q) = true \/
     exists r, ckp !! rkey q = Some r /\ qts (rtimes q) <= timestamp r) ->
  us ≡ₚ filter (fun u => kept u = true) (map request_update qs) ->
  exists t, replay us (restored ckp) = Some t /\ (forall k, cells t !! k = Row <$> rows !! k) /\ created t = removed t.
Proof.
  intros F Q S Ck Cov Pm.
  destruct (serve_history cs ∅ rows qs F) as (evs & E & Hk & Pre); [by intros ? ? ?%lookup_empty_Some | done | done |].
  assert (Hist : forall k, history None (key_events k evs)) by (intros k; rewrite <-(lookup_empty k); apply Hk).
  assert (Nd : NoDup evs) by (apply key_NoDup; intros k; by eapply history_NoDup).
  rewrite <-E in Pm. assert (X : exists es, us = fst <$> es /\ es ≡ₚ filter (fun e => kept e.1 = true) evs).
  { rewrite filter_fst in Pm. apply Permutation_map_inv in Pm as (es & -> & Pm). by exists es. }
  destruct X as (es & -> & Pe).
  assert (In : forall k r, ckp !! k = Some r -> r ∈ rows_of None (key_events k evs)).
  { intros k r Hr. destruct (Ck k r Hr) as (n & rows_n & qs_n & Sn & Hn). rewrite <-(lookup_empty k). by eapply Pre. }
  destruct (replay_replayed evs ckp Hist In es [] (restored ckp)) as (t & S' & Er & Rp & M).
  - by apply restored_ok.
  - rewrite Pe. by apply list.NoDup_filter.
  - intros e. rewrite Pe. intros [_ He]%list_elem_of_filter. split; [done|]. by intros ?%not_elem_of_nil.
  - exists t. split; [done|]. apply (replayed_all evs ckp Hist S'); [done | |].
    + intros k. rewrite <-(lookup_empty k). apply Hk.
    + intros e He.
      assert (Hq : e.1 ∈ map request_update qs) by (rewrite <-E; by apply list_elem_of_fmap_2).
      apply list_elem_of_fmap in Hq as (q & Eq & Hq). destruct (Cov q Hq) as [Kp|(r & Hr & L)].
      * left. apply M. left. rewrite Pe. apply list_elem_of_filter. by rewrite Eq.
      * right. exists r. apply in_key in He. destruct (event_stamp None _ (Hist _) e He) as (_ & _ & ->).
        rewrite Eq. unfold request_update. by destruct (is_delta q).
Qed.
End Restore.

(** * The rows of the program *)

Section Rows.
Context (ow : Z) (uninit : Z -> Z).
#[local] Existing Instances bag_rows string_rows.
Lemma bag_laws : @RowLaws _ (bag_rows ow uninit).
Proof.
  assert (U : forall r cs t r' n, ValueBag.update ow uninit cs t r = Some (r', n) -> ValueBag.ts_ r' = t).
  { intros r cs t r' n. unfold ValueBag.update. destruct (ValueBag.new_size ow r cs) as [sz nc].
    destruct cs as [|[i v] [|? ?]]; [| case_match; [by intros [= <- _]|] |].
    all: destruct (ValueBag.fill _ _ _ _ _ _ _ _) as [[[? ?] ?]|]; [cbn; by intros [= <- _] | done]. }
  split; cbn.
  - intros cs t r E. unfold ValueBag.create in E. destruct (ValueBag.update ow uninit cs t (ValueBag.new_bag ow)) as [[r' n]|] eqn:Eu; [|done].
    injection E as <-. by eapply U.
  - by intros v t r [= <-].
  - intros r cs t r' E. destruct (ValueBag.update ow uninit cs t r) as [[r1 n]|] eqn:Eu; [|done]. injection E as <-. by eapply U.
Qed.
Lemma string_laws : @RowLaws _ (string_rows uninit).
Proof.
  split; cbn.
  - intros cs t r [= <-]. unfold ValueString.create, ValueString.update. by destruct (ValueString.measure _ _ _).
  - by intros v t r [= <-].
  - intros r cs t r' [= <-]. unfold ValueString.update. by destruct (ValueString.measure _ _ _).
Qed.
End Rows.

(** Two keys: the records in the opposite order, with a checkpoint of the first row. *)
Definition wit_call (put : bool) (key v : list Z) (clock : Z) : call :=
  {| is_put := put; ckey := key; cval := v; clock := clock; cepoch := 1; cpad := [] |}.
Definition wit_calls : list call :=
  [wit_call false [7] [97; 98; 99; 100] 2; wit_call true [8] [0; 161; 120] 4;
   wit_call true [7] [1; 161; 122] 2; wit_call true [7] [0; 162; 121; 121] 40].
Abbreviation wit_rows := (string_rows (fun _ => 0)).
Definition wit_request (put : bool) (key v : list Z) (ts prev : Z) : request :=
  logged (wit_call put key v 0) ts prev.
Definition wit_requests : list request :=
  [wit_request false [7] [97; 98; 99; 100] 2 0; wit_request true [8] [0; 161; 120] 4 0;
   wit_request true [7] [1; 161; 122] 4 2; wit_request true [7] [0; 162; 121; 121] 40 4].
Definition wit_ckp : gmap (list Z) ValueString.value_string :=
  {[ [7] := ValueString.create1 (fun _ => 0) [97; 98; 99; 100] 2 ]}.
Definition wit_kept (u : update) : bool := 2 <? uts u.
Definition wit_replayed : list update :=
  (fun q => request_update q) <$> [wit_request true [7] [0; 162; 121; 121] 40 4; wit_request true [7] [1; 161; 122] 4 2;
    wit_request true [8] [0; 161; 120] 4 0].
Lemma replay_restores_witness : exists rows t, @serve_all _ wit_rows wit_calls ∅ = Some (rows, wit_requests) /\
  @replay _ wit_rows wit_replayed (restored wit_ckp) = Some t /\
  (forall k, cells t !! k = Row <$> rows !! k) /\ created t = removed t.
Proof.
  assert (X : exists rows, @serve_all _ wit_rows wit_calls ∅ = Some (rows, wit_requests)) by (eexists; vm_compute; reflexivity).
  destruct X as [rows E]. exists rows.
  destruct (@replay_restores _ wit_rows (string_laws _) wit_calls rows wit_ckp wit_requests wit_kept wit_replayed) as (t & Er & Ec & En).
  - repeat constructor.
  - repeat constructor.
  - exact E.
  - intros k r. unfold wit_ckp. intros [<- <-]%lookup_singleton_Some. exists 1%nat.
    eexists _, _. split; [vm_compute; reflexivity | vm_compute; reflexivity].
  - intros q Hq. repeat (apply elem_of_cons in Hq as [->|Hq]); [right | left; reflexivity.. | by apply not_elem_of_nil in Hq].
    eexists. split; vm_compute; [reflexivity | discriminate].
  - vm_compute. apply Permutation_rev.
  - exists t. by split_and!.
Defined.

(** * Rows that are updated in place

    An update in place keeps the time stamp, so that these rows are an instance of the
    operations but not of their laws.  A row comes with the strings of its columns. *)
Definition versioned_rows : RowOps (Versioned.versioned * ValueArray.heap) := {|
  timestamp r := Versioned.ts_ r.1;
  create cs t := option_map (fun x => (x.1.1.1, x.1.2)) (Versioned.create cs t ∅);
  create1 v t := Some (Versioned.create1 v t ∅);
  update_row r cs t := option_map (fun x => (x.1.1.1, x.1.2)) (Versioned.update cs t false r.1 r.2) |}.
Definition contents (r : Versioned.versioned * ValueArray.heap) : list (list Z) := Versioned.checkpoint_write r.2 r.1.

(** A row is made at time 2, and its column changed at the times 4 and 40. *)
Definition inplace_calls : list call :=
  [wit_call false [7] [97] 2; wit_call true [7] [0; 161; 120] 2; wit_call true [7] [0; 161; 121] 40].

(** * What does not replay *)

(** [loginfo::record] of parsed changes: an array with its header. *)
Definition record_json (req : list Json) : option (list Z) := MsgpackStream.unparse [] (JArr req).
Lemma no_index s b r : s = b :: r -> read_int 4 false s = None -> changeset s = None.
Proof. intros -> E. unfold changeset. cbn [parse_changeset]. by rewrite E. Qed.
Lemma header_not_int n : 0 <= n < 2 ^ 31 -> exists b r, write_array_header [] n = b :: r /\
  forall s, read_int 4 false (b :: s) = None.
Proof.
  intros Hn. unfold write_array_header. destruct (Z.ltb_spec n nfixarray) as [L|L].
  - exists (u8 (ffixarray + n)), []. split; [done|]. intros s. unfold nfixarray, ffixarray in *.
    assert (C : forallb (fun n => negb (is_fixint (u8 (ffixarray + n)) || (u32 (u8 (ffixarray + n) - fuint8) <? 8))) (seqZ 0 16) = true)
      by reflexivity.
    rewrite forallb_forall in C. specialize (C n). rewrite <-list_elem_of_In, elem_of_seqZ in C.
    specialize (C ltac:(lia)). apply negb_true_iff, orb_false_iff in C as [C1 C2]. unfold ffixarray in *.
    cbn [read_int]. by rewrite C1, C2.
  - destruct (n <? 65536); (eexists _, _; split; [reflexivity|]; intros s; reflexivity).
Qed.
Lemma json_not_changes req v : Z.of_nat (List.length req) < 2 ^ 31 -> Forall (fun j => json_ok j = true) req ->
  record_json req = Some v -> changeset v = None.
Proof.
  intros L F. unfold record_json. rewrite unparse_JArr.
  destruct (header_not_int (Z.of_nat (List.length req))) as (b & r & Eh & En); [lia|].
  unfold unparse_array, reserved. rewrite Eh. case_match; [|done]. cbn [mbind option_bind].
  assert (X : forall base w, unparse_all base req = Some w -> exists e, w = base ++ e).
  { clear -F. induction req as [|j req IH]; cbn; intros base w.
    - intros [= <-]. exists []. by rewrite app_nil_r.
    - apply list.Forall_cons in F as [Fj F]. destruct (@json_reads_back (fun x => x) j Fj) as (bs & Ab & _). rewrite (Ab base). cbn.
      intros E. destruct (IH F _ _ E) as [e ->]. exists (bs ++ e). by rewrite app_assoc. }
  intros E. destruct (X _ _ E) as [e ->]. eapply no_index; [reflexivity | apply En].
Qed.

(** [C34]. What the logs hold and a replay does not take.  The record of a remove is given the
    four bytes of a removal marker as its value, these are read as a list of changes, and the
    replay fails on a key that is not there or whose row is earlier.  A put that is recorded from
    parsed changes starts with the header of an array, which is no index, and fails alike.  A
    record that is not later than the row changes nothing, and a modification whose row is not
    there waits as a marker and counts as one. *)
Theorem replay_failures {R} `{RowOps R} :
  (forall u (o : option R), ucommand u = logcmd_remove -> (forall r, o = Some r -> timestamp r < uts u .| 1) ->
     apply (removal u) (base_cell o) = None) /\
  (forall u (o : option R) req, ucommand u = logcmd_put -> Z.of_nat (List.length req) < 2 ^ 31 ->
     Forall (fun j => json_ok j = true) req -> record_json req = Some (uval u) ->
     (forall r, o = Some r -> timestamp r < uts u) -> apply u (base_cell o) = None) /\
  (forall u (r : R), uts u <= timestamp r -> apply u (Row r) = Some (Row r, 0, 0)) /\
  (forall u (o : option R), ucommand u = logcmd_modify -> (forall r, o = Some r -> timestamp r < uts u /\ timestamp r <> uprev u) ->
     apply u (base_cell o) = Some (Delta (uts u .| 1) (uprev u) (uval u) (base_cell o), 1, 0)).
Proof.
  assert (Place : forall u (o : option R), find_place u (base_cell o) = place u (base_cell o)) by (intros u []; done).
  assert (New : forall u (o : option R), (forall r, o = Some r -> timestamp r < uts u) ->
    match cell_time (base_cell o) with Some t => uts u <=? t | None => false end = false).
  { intros u [r|] L; [|done]. cbn. apply Z.leb_gt. by apply L. }
  split_and!.
  - intros [[[[[c k] v] t] p] e] o Ec L. cbn in Ec. subst c. unfold apply. rewrite Place. unfold removal, place.
    rewrite New by exact L. reflexivity.
  - intros [[[[[c k] v] t] p] e] o req Ec Lr F Er L. cbn in Ec, Er, L. subst c. unfold apply. rewrite Place. unfold place.
    rewrite New by exact L. commands. cbn [uval ucommand fst snd]. by rewrite (json_not_changes _ _ Lr F Er).
  - intros u r L. unfold apply. cbn [find_place]. unfold place. cbn [cell_time]. by rewrite (proj2 (Z.leb_le _ _)).
  - intros u o Ec L. unfold apply. rewrite Place. unfold place. rewrite New by (intros r Hr; by apply L). rewrite Ec. commands.
    rewrite bool_decide_eq_false_2.
    2: { destruct o as [r|]; [|done]. cbn. intros [= E]. by destruct (L r eq_refl). }
    cbn. destruct o as [r|]; cbn; [|done]. rewrite (proj2 (Z.eqb_neq _ _)); [done|]. intros E. by destruct (L r eq_refl).
Qed.
