(* ===== verification/Tree.v ===== *)
(** masstree_struct.hh, masstree_get.hh: the tree and its lookup, without concurrent writers.

    The nodes are two maps from addresses, to leaves and to interior nodes; parent pointers,
    root bits and the heights of interior nodes are maps beside them.  Where a reader checks versions nothing has changed,
    so the retries that other threads cause are not modelled; a stale root pointer, which a
    slot can hold after its layer has grown, is.  Address 0 is the null pointer. *)
From Stdlib Require Import Sorted.
From S2P Require Import Prelude StringSlice Permuter KSearch Internode LeafSplit MassKey.

Record tree := { leaves : gmap Z leaf; inodes : gmap Z internode; parents : Z -> Z; is_root : Z -> bool;
  heights : Z -> Z }.

Section Find.
Context (bound : key_bound_type) (unaligned : bool) (mem : Z -> Z) (t : tree).

(** [maybe_parent], and the loop of [reach_leaf] that finds a non-stale root. *)
Definition maybe_parent (n : Z) : Z := if parents t n =? 0 then n else parents t n.
Fixpoint true_root (fuel : nat) (n : Z) : option Z :=
  match fuel with
  | O => None
  | S fuel => if is_root t n then Some n else true_root fuel (maybe_parent n)
  end.

(** The comparison with a key of an interior node and with a slot of a leaf. *)
Definition compare_inode (x : internode) (ka : key) (p : Z) : Z := compare (ikey ka) (Internode.ikey0_ x p).
Definition compare_leaf (l : leaf) (ka : key) (p : Z) : Z := key_compare 8 ka (ikey0 (slot l p)) (keylenx (slot l p)).

(** The loop over interior nodes; a null child would be retried from the root. *)
Fixpoint descend (fuel : nat) (ka : key) (n : Z) : option Z :=
  match fuel with
  | O => None
  | S fuel =>
      match leaves t !! n with
      | Some _ => Some n
      | None =>
          x ← inodes t !! n;
          kp ← upper bound (Sized (nkeys_ x)) (compare_inode x ka);
          if child_ x kp =? 0 then None else descend fuel ka (child_ x kp)
      end
  end.
Definition reach_leaf (fuel : nat) (ka : key) (root : Z) : option Z :=
  n ← true_root fuel root; descend fuel ka n.

(** [ksuf_matches]: 1 for a match, 0 for none, minus the shift for a layer.  Equality of
    suffixes is [equals_sloppy], which compares their bytes. *)
Definition ksuf_matches (e : entry) (ka : key) : Z :=
  if keylenx e <? ksuf_keylenx then 1
  else if keylenx e =? layer_keylenx then -8
  else b2z ((Z.of_nat (List.length (ksuf e)) =? (suffix 8 ka).2) &&
            bool_decide (ksuf e = mem_bytes mem (suffix 8 ka).1 (suffix 8 ka).2)).

(** [lower] on a leaf. *)
Definition leaf_lower (l : leaf) (ka : key) : option key_indexed_position :=
  lower_by bound (Permuted (permutation_ l)) (compare_leaf l ka).

(** [find_unlocked]: the match and the value word. *)
Fixpoint find_unlocked (fuel : nat) (ka : key) (root : Z) : option (Z * Z) :=
  match fuel with
  | O => None
  | S fuel' =>
      n ← reach_leaf fuel ka root;
      l ← leaves t !! n;
      kx ← leaf_lower l ka;
      let '(m, v) := if 0 <=? kx_p kx then (ksuf_matches (slot l (kx_p kx)) ka, lv (slot l (kx_p kx))) else (0, 0) in
      if m <? 0 then find_unlocked fuel' (shift_by unaligned 8 mem (- m) ka) v
      else Some (m, v)
  end.
(** [get]: the value if the key is present. *)
Definition get_value (fuel : nat) (root s len : Z) : option (option Z) :=
  '(m, v) ← find_unlocked fuel (key_str unaligned 8 mem s len) root;
  Some (if m =? 0 then None else Some v).
End Find.

(** * Keys and entries as strings *)

(** The order of keys within a layer: by slice, then by length up to one more than a slice. *)
Definition rank : Type := Z * Z.
Definition rank_lt (a b : rank) : Prop := a.1 < b.1 \/ a.1 = b.1 /\ a.2 < b.2.
Definition erank (e : entry) : rank := (ikey0 e, Z.min (keylenx e) 9).
Definition krank (k : list Z) : rank := (be_value (pad 8 k), Z.min (Z.of_nat (List.length k)) 9).
Definition entry_lt (a b : entry) : Prop := rank_lt (erank a) (erank b).

(** A key structure stands for a string. *)
Definition key_view (mem : Z -> Z) (ka : key) (k : list Z) : Prop :=
  ikey0_ ka = be_value (pad 8 k) /\ len_ ka = Z.of_nat (List.length k) /\
  mem_bytes mem (s_ ka) (len_ ka) = k /\ Forall byte_ok k.

Lemma be_value_inj a b : List.length a = List.length b -> Forall byte_ok a -> Forall byte_ok b ->
  be_value a = be_value b -> a = b.
Proof.
  intros Hl Ha Hb E. apply lex_compare_eq. rewrite <- be_value_compare by done. rewrite E.
  unfold compare. by rewrite Z.eqb_refl.
Qed.

Lemma compare_sign a b : (compare a b < 0 <-> a < b) /\ (compare a b = 0 <-> a = b) /\ (0 < compare a b <-> b < a).
Proof. unfold compare. zcases; lia. Qed.

(** [key_compare] orders by rank. *)
Definition rank_of (ka : key) : rank := (ikey0_ ka, Z.min (len_ ka) 9).
Lemma key_view_rank mem ka k : key_view mem ka k -> rank_of ka = krank k /\ 0 <= len_ ka.
Proof. intros (Ei & El & _). unfold rank_of, krank. rewrite Ei, El. split; [done|lia]. Qed.
Lemma key_compare_rank ka e : 0 <= len_ ka -> 0 <= keylenx e ->
  let c := key_compare 8 ka (ikey0 e) (keylenx e) in
  (c < 0 <-> rank_lt (rank_of ka) (erank e)) /\ (c = 0 <-> rank_of ka = erank e) /\ (0 < c <-> rank_lt (erank e) (rank_of ka)).
Proof.
  intros Hn He. unfold key_compare, rank_lt, rank_of, erank. cbn [fst snd].
  pose proof (compare_sign (ikey0_ ka) (ikey0 e)) as (C1 & C2 & C3). set (n := len_ ka) in *.
  assert (Hp : forall a b c d : Z, (a, b) = (c, d) <-> a = c /\ b = d) by (intros; split; [by intros [= -> ->]|by intros [-> ->]]).
  rewrite Hp. destruct (Z.eqb_spec (compare (ikey0_ ka) (ikey0 e)) 0) as [E|E].
  - assert (Eq : ikey0_ ka = ikey0 e) by (by apply C2). rewrite Eq. unfold b2z.
    destruct (Z.ltb_spec 8 n); [destruct (Z.leb_spec (keylenx e) 8)|]; lia.
  - assert (ikey0_ ka <> ikey0 e) by tauto. lia.
Qed.

Lemma rank_lt_trans a b c : rank_lt a b -> rank_lt b c -> rank_lt a c.
Proof. unfold rank_lt. lia. Qed.
Lemma rank_lt_irrefl a : ~ rank_lt a a.
Proof. unfold rank_lt. lia. Qed.

Lemma key_str_view unaligned mem s len : (forall a, byte_ok (mem a)) -> 0 <= len ->
  key_view mem (key_str unaligned 8 mem s len) (mem_bytes mem s len).
Proof.
  intros Hm Hl. unfold key_view. cbn [ikey0_ len_ s_ key_str]. rewrite length_mem_bytes, Z2Nat.id by lia.
  split_and!; [|done..|by apply mem_bytes_ok].
  rewrite make_comparable_be by done. f_equal. by apply slice_bytes_pad.
Qed.
Lemma shift_view unaligned mem ka k : (forall a, byte_ok (mem a)) -> key_view mem ka k -> (8 <= List.length k)%nat ->
  key_view mem (shift_by unaligned 8 mem 8 ka) (drop 8 k).
Proof.
  intros Hm (Ei & El & Es & Hb) Hk. rewrite shift_by_str by done.
  assert (Ed : mem_bytes mem (s_ ka + 8) (len_ ka - 8) = drop 8 k).
  { rewrite <- Es, El. replace (Z.of_nat (List.length k)) with (8 + (Z.of_nat (List.length k) - 8)) at 2 by lia.
    rewrite mem_bytes_app by lia. by rewrite drop_app_length' by (rewrite length_mem_bytes; lia). }
  destruct (key_str_view unaligned mem (s_ ka + 8) (len_ ka - 8) Hm ltac:(lia)) as (V1 & V2 & V3 & V4).
  rewrite Ed in *. unfold key_view. cbn [ikey0_ len_ s_] in *. split_and!; done.
Qed.

(** ** Strings and their ranks *)
Lemma pad_take k : (8 <= List.length k)%nat -> pad 8 k = take 8 k.
Proof. intros H. rewrite pad_spec. replace (8 - List.length k)%nat with 0%nat by lia. apply app_nil_r. Qed.
Lemma pad_ok n k : Forall byte_ok k -> Forall byte_ok (pad n k).
Proof. intros H. rewrite pad_spec. apply Forall_app; split; [by apply Forall_take|]. apply Forall_replicate. unfold byte_ok. lia. Qed.
Lemma length_pad n k : List.length (pad n k) = n.
Proof. rewrite pad_spec, length_app, length_take, length_replicate. lia. Qed.

(** The rank of a string is that of its slice and of its length up to nine. *)
Lemma krank_eq a b : Forall byte_ok a -> Forall byte_ok b ->
  (krank a = krank b <-> pad 8 a = pad 8 b /\ Z.min (Z.of_nat (List.length a)) 9 = Z.min (Z.of_nat (List.length b)) 9).
Proof.
  intros Ha Hb. unfold krank. split; [intros [= E1 E2]|intros [-> ->]; done]. split; [|done].
  apply be_value_inj; [by rewrite !length_pad|by apply pad_ok..|done].
Qed.
Lemma krank_short a b : Forall byte_ok a -> Forall byte_ok b -> (List.length a <= 8)%nat -> krank a = krank b -> a = b.
Proof.
  intros Ha Hb Hl E. apply krank_eq in E as [E1 E2]; [|done..]. assert (List.length a = List.length b) as El by lia.
  rewrite !pad_spec, El in E1. by apply app_inv_tail in E1; rewrite !take_ge in E1 by lia.
Qed.
Lemma krank_long p a k : List.length p = 8%nat -> a <> [] -> Forall byte_ok (p ++ a) -> Forall byte_ok k ->
  krank k = krank (p ++ a) -> k = p ++ drop 8 k /\ (8 < List.length k)%nat.
Proof.
  intros Hp Ha Hb Hk E. apply krank_eq in E as [E1 E2]; [|done..]. rewrite length_app, Hp in E2.
  destruct a; [done|]. cbn in E2. assert (8 < List.length k)%nat by lia.
  rewrite !pad_take, take_app_length' in E1 by (rewrite ?length_app; lia).
  split; [|done]. by rewrite <- E1, take_drop.
Qed.

(** * Searching a leaf and an interior node *)
Lemma sorted_lookup {A} (R : A -> A -> Prop) l i j x y : StronglySorted R l -> l !! i = Some x -> l !! j = Some y ->
  (i < j)%nat -> R x y.
Proof.
  intros H. revert i j. induction H as [|z l _ IH F]; intros i j Hi Hj Hij; [done|].
  destruct i as [|i], j as [|j]; cbn in *; try lia.
  - injection Hi as ->. rewrite Forall_lookup in F. by eapply F.
  - eapply IH; [done..|lia].
Qed.
Lemma entries_lookup l j : 0 <= j < lsize l -> entries l !! Z.to_nat j = Some (nth_entry l j).
Proof.
  intros H. unfold entries. rewrite list_lookup_fmap, lookup_seqZ_lt by lia. cbn. f_equal. f_equal. lia.
Qed.
Lemma entries_elem l e : e ∈ entries l <-> exists j, 0 <= j < lsize l /\ e = nth_entry l j.
Proof.
  unfold entries. rewrite list_elem_of_fmap. setoid_rewrite elem_of_seqZ.
  split; intros (j & H1 & H2); exists j; split; done || lia.
Qed.
Lemma entries_sorted l i j : StronglySorted entry_lt (entries l) -> 0 <= i < j -> j < lsize l ->
  rank_lt (erank (nth_entry l i)) (erank (nth_entry l j)).
Proof.
  intros Hs Hi Hj. apply (sorted_lookup _ _ (Z.to_nat i) (Z.to_nat j) _ _ Hs); [apply entries_lookup; lia..|lia].
Qed.

Definition leaf_ok (width : Z) (l : leaf) : Prop :=
  perm_wf width (permutation_ l) /\ Forall (fun e => 0 <= keylenx e) (entries l).

Lemma leaf_lower_rank width bound l ka : leaf_ok width l -> StronglySorted entry_lt (entries l) -> 0 <= len_ ka ->
  exists kx, leaf_lower bound l ka = Some kx /\ 0 <= kx_i kx <= lsize l /\
    (forall j, 0 <= j < kx_i kx -> rank_lt (erank (nth_entry l j)) (rank_of ka)) /\
    if kx_p kx =? -1 then forall j, kx_i kx <= j < lsize l -> rank_lt (rank_of ka) (erank (nth_entry l j))
    else 0 <= kx_p kx /\ kx_i kx < lsize l /\ kx_p kx = elem (permutation_ l) (kx_i kx) /\
         erank (nth_entry l (kx_i kx)) = rank_of ka.
Proof.
  intros [Hp Hlen] Hs Hk.
  assert (Hcmp : forall j, 0 <= j < lsize l ->
    let c := cmp_at (Permuted (permutation_ l)) (compare_leaf l ka) j in
    (c < 0 <-> rank_lt (rank_of ka) (erank (nth_entry l j))) /\ (c = 0 <-> rank_of ka = erank (nth_entry l j)) /\
    (0 < c <-> rank_lt (erank (nth_entry l j)) (rank_of ka))).
  { intros j Hj. apply key_compare_rank; [done|]. rewrite Forall_lookup in Hlen.
    apply (Hlen _ _ (entries_lookup l j Hj)). }
  destruct (lower_ok (Permuted (permutation_ l)) (compare_leaf l ka)) with (b := bound) as (kx & Hkx & Hi & Hlt & Hge).
  - intros a b Hab Hb Hc. cbn in Hb. fold (lsize l) in Hb. apply Hcmp; [lia|].
    assert (Hlt : rank_lt (erank (nth_entry l a)) (erank (nth_entry l b))) by (by apply entries_sorted).
    pose proof (Hcmp b ltac:(lia)) as (_ & He & Hgt). cbv zeta in He, Hgt.
    destruct (Z.eq_dec (cmp_at (Permuted (permutation_ l)) (compare_leaf l ka) b) 0) as [E|E].
    + rewrite (proj1 He E). done.
    + eapply rank_lt_trans; [exact Hlt|]. apply Hgt. lia.
  - cbn. rewrite size_nib. pose proof (nib_range (permutation_ l) 0). lia.
  - intros j _. apply elem_nonneg.
  - exists kx. split; [done|]. cbn in Hi. fold (lsize l) in Hi. split; [done|].
    split; [intros j Hj; apply Hcmp; [lia|by apply Hlt]|]. destruct (kx_p kx =? -1).
    + intros j Hj. apply Hcmp; [lia|]. apply Hge. exact Hj.
    + destruct Hge as (Hk1 & Hk2 & Hk3). cbn in Hk1, Hk3. fold (lsize l) in Hk1. split_and!; try done.
      * rewrite Hk3. apply elem_nonneg.
      * symmetry. apply Hcmp; [lia|done].
Qed.

Lemma leaf_lower_ok width bound mem l ka k : leaf_ok width l -> StronglySorted entry_lt (entries l) -> key_view mem ka k ->
  exists kx, leaf_lower bound l ka = Some kx /\ 0 <= kx_i kx <= lsize l /\
    (forall j, 0 <= j < kx_i kx -> rank_lt (erank (nth_entry l j)) (krank k)) /\
    if kx_p kx =? -1 then forall j, kx_i kx <= j < lsize l -> rank_lt (krank k) (erank (nth_entry l j))
    else 0 <= kx_p kx /\ kx_i kx < lsize l /\ kx_p kx = elem (permutation_ l) (kx_i kx) /\
         erank (nth_entry l (kx_i kx)) = krank k.
Proof.
  intros Hl Hs Hk. destruct (key_view_rank mem ka k Hk) as [<- Hn]. by apply (leaf_lower_rank width).
Qed.

Lemma krank_lt a b : Forall byte_ok a -> Forall byte_ok b -> rank_lt (krank a) (krank b) -> lex_compare a b = -1.
Proof.
  intros Ha Hb [H|[H1 H2]]; cbn [fst snd krank] in *.
  - pose proof (be_value_compare (pad 8 a) (pad 8 b) ltac:(by rewrite !length_pad) (pad_ok 8 a Ha) (pad_ok 8 b Hb)) as E.
    unfold compare in E. destruct (Z.eqb_spec (be_value (pad 8 a)) (be_value (pad 8 b))); [lia|].
    destruct (Z.ltb_spec (be_value (pad 8 a)) (be_value (pad 8 b))); [|lia]. rewrite (lex_pad 8) by (done || lia). done.
  - apply be_value_inj in H1; [|by rewrite !length_pad|by apply pad_ok..].
    rewrite (lex_pad_eq 8) by (done || lia). unfold compare. zcases; done || lia.
Qed.

(** The search among the keys of an interior node. *)
Lemma lookup_keys x j : 0 <= j < nkeys_ x -> keys x !! Z.to_nat j = Some (Internode.ikey0_ x j).
Proof.
  intros H. unfold keys. rewrite list_lookup_fmap, lookup_seqZ_lt by lia. cbn. f_equal. f_equal. lia.
Qed.
Lemma upper_cut bound x i ksL ksR : keys x = ksL ++ ksR -> 0 <= nkeys_ x -> StronglySorted Z.lt (keys x) ->
  Forall (fun k => k <= i) ksL -> Forall (fun k => i < k) ksR ->
  upper bound (Sized (nkeys_ x)) (fun p => compare i (Internode.ikey0_ x p)) = Some (Z.of_nat (List.length ksL)).
Proof.
  intros E Hn Hs HL HR. pose proof (length_keys x Hn) as Hlen. rewrite E, length_app in Hlen.
  set (u := Z.of_nat (List.length ksL)).
  assert (HK : forall j, 0 <= j < nkeys_ x ->
    j < u /\ Internode.ikey0_ x j <= i \/ u <= j /\ i < Internode.ikey0_ x j).
  { intros j Hj. pose proof (lookup_keys x j Hj) as L. rewrite E in L. apply lookup_app_Some in L as [L|[L1 L2]].
    - left. rewrite Forall_lookup in HL. split; [apply lookup_lt_Some in L; lia|by eapply HL].
    - right. rewrite Forall_lookup in HR. split; [lia|by eapply HR]. }
  destruct (upper_ok (Sized (nkeys_ x)) (fun p => compare i (Internode.ikey0_ x p))) with (b := bound) as (kp & -> & Hk & Hlt & Hge).
  - intros a b Ha Hb Hc. cbn in Hb. unfold Identity.size in Hb. unfold cmp_at in *. cbn in *. unfold Identity.elem in *.
    assert (Hab : Internode.ikey0_ x a < Internode.ikey0_ x b).
    { apply (sorted_lookup _ _ (Z.to_nat a) (Z.to_nat b) _ _ Hs); [apply lookup_keys; lia..|lia]. }
    pose proof (compare_sign i (Internode.ikey0_ x a)). pose proof (compare_sign i (Internode.ikey0_ x b)). lia.
  - done.
  - f_equal. cbn in Hk. unfold Identity.size in Hk. unfold cmp_at in *. cbn in *. unfold Identity.elem, Identity.size in *.
    destruct (Z.lt_trichotomy kp u) as [Hd|[?|Hd]]; [exfalso|done|exfalso].
    + specialize (Hge kp ltac:(lia)). pose proof (compare_sign i (Internode.ikey0_ x kp)). specialize (HK kp ltac:(lia)). lia.
    + specialize (Hlt u ltac:(lia)). pose proof (compare_sign i (Internode.ikey0_ x u)). specialize (HK u ltac:(lia)). lia.
Qed.
