(* ===== verification/TreeShape.v ===== *)
(** The shape of one layer of the tree: what the memory of masstree_struct.hh holds.

    A shape is the tree of addresses of a layer, with the entries of each leaf and the keys
    of each interior node.  Its tokens are entries and keys in order; a layer is in order
    when its tokens are.  A context is a shape with a hole, as the path from the hole up. *)
From Stdlib Require Import Sorted.
From S2P Require Import Prelude StringSlice Permuter KSearch Internode LeafSplit MassKey Tree.

#[warnings="-register-all"]
Inductive shape := SLeaf (n : Z) (lo : option Z) (es : list entry) | SNode (n : Z) (h : option Z) (ks : list Z) (cs : list shape).

Fixpoint shape_ind' (P : shape -> Prop) (HL : forall n lo es, P (SLeaf n lo es))
  (HN : forall n h ks cs, Forall P cs -> P (SNode n h ks cs)) (g : shape) : P g :=
  match g with
  | SLeaf n lo es => HL n lo es
  | SNode n h ks cs => HN n h ks cs
      ((fix go cs : Forall P cs := match cs with [] => Forall_nil_2 P | c :: cs => Forall_cons_2 P c cs (shape_ind' P HL HN c) (go cs) end) cs)
  end.

Definition addr (g : shape) : Z := match g with SLeaf n _ _ => n | SNode n _ _ _ => n end.
Fixpoint addrs (g : shape) : list Z :=
  match g with SLeaf n _ _ => [n] | SNode n _ _ cs => n :: flat_map addrs cs end.
Definition below (g : shape) : list Z := match g with SLeaf _ _ _ => [] | SNode _ _ _ cs => flat_map addrs cs end.
Fixpoint leaf_addrs (g : shape) : list Z :=
  match g with SLeaf n _ _ => [n] | SNode _ _ _ cs => flat_map leaf_addrs cs end.

(** * Tokens *)

(** A key, a key behind a null child, an entry, and the start of a leaf with its lower bound;
    the first leaf of a layer has none. *)
Inductive tok := K (k : Z) | J (k : Z) | E (e : entry) | Lo (lo : option Z).
Definition tok_lt (a b : tok) : Prop :=
  match a, b with
  | _, Lo None => False
  | Lo None, _ => True
  | E a, E b => entry_lt a b
  | E a, (K k | J k | Lo (Some k)) => ikey0 a < k
  | (K k | J k | Lo (Some k)), E b => k <= ikey0 b
  | (K a | J a), (J b | Lo (Some b)) => a <= b
  | (K a | J a), K b => a < b
  | Lo (Some a), (K b | J b | Lo (Some b)) => a < b
  end.
#[export] Instance tok_lt_trans : Transitive tok_lt.
Proof. intros [a|a|a|[a|]] [b|b|b|[b|]] [c|c|c|[c|]]; unfold tok_lt, entry_lt, rank_lt, erank; cbn; lia. Qed.

(** A key behind a null child repeats a key before it: no string leads to the null child.
    The lower bound of a leaf but the first is a key of the path to it. *)
Fixpoint holes (seen l : list tok) : Prop :=
  match l with
  | [] => True
  | x :: l => match x with J k | Lo (Some k) => K k ∈ seen | _ => True end /\ holes (seen ++ [x]) l
  end.
Definition lead (h : option Z) : list tok := J <$> option_list h.
Definition hkids (h : option Z) : list Z := match h with Some _ => [0] | None => [] end.

(** Lists with keys between them. *)
Fixpoint weave (ks : list Z) (ls : list (list tok)) : list tok :=
  match ls with
  | [] => []
  | l :: ls => l ++ match ks with [] => [] | k :: ks => K k :: weave ks ls end
  end.
Fixpoint weave_left (ks : list Z) (ls : list (list tok)) : list tok :=
  match ks, ls with k :: ks, l :: ls => l ++ K k :: weave_left ks ls | _, _ => [] end.
Definition weave_right (ks : list Z) (ls : list (list tok)) : list tok :=
  match ks with [] => [] | k :: ks => K k :: weave ks ls end.
Fixpoint flat (g : shape) : list tok :=
  match g with SLeaf _ lo es => Lo lo :: (E <$> es) | SNode _ h ks cs => lead h ++ weave ks (map flat cs) end.
Definition ents (l : list tok) : list entry := omap (fun t => match t with E e => Some e | _ => None end) l.
Definition items (g : shape) : list entry := ents (flat g).

Lemma weave_split ksL ksR lsL l lsR : List.length ksL = List.length lsL ->
  weave (ksL ++ ksR) (lsL ++ l :: lsR) = weave_left ksL lsL ++ l ++ weave_right ksR lsR.
Proof.
  revert lsL. induction ksL as [|k ksL IH]; intros [|l' lsL]; try done; intros H; cbn in *; [by destruct ksR|].
  rewrite IH by lia. by rewrite <- app_assoc.
Qed.
Lemma weave_cut ksA sk ksB lsA lsB : List.length lsA = S (List.length ksA) ->
  weave (ksA ++ sk :: ksB) (lsA ++ lsB) = weave ksA lsA ++ K sk :: weave ksB lsB.
Proof.
  revert ksA. induction lsA as [|l lsA IH]; intros [|k ksA] H; cbn in *; try lia.
  - destruct lsA; [cbn; by rewrite app_nil_r|cbn in H; lia].
  - rewrite IH by lia. by rewrite <- app_assoc.
Qed.
Lemma ents_app a b : ents (a ++ b) = ents a ++ ents b.
Proof. apply omap_app. Qed.
Lemma ents_E es : ents (E <$> es) = es.
Proof. induction es as [|e es IH]; [done|]. cbn in *. by f_equal. Qed.
Lemma ents_elem l e : e ∈ ents l <-> E e ∈ l.
Proof.
  unfold ents. rewrite list_elem_of_omap. split; [|intros H; by exists (E e)].
  intros ([k|k|e'|lo] & H & [=]). by subst.
Qed.

(** * Sorted lists *)
Lemma sorted_app_iff {A} (R : A -> A -> Prop) a b : StronglySorted R (a ++ b) <->
  StronglySorted R a /\ StronglySorted R b /\ (forall x y, x ∈ a -> y ∈ b -> R x y).
Proof.
  induction a as [|x a IH]; cbn.
  - split; [intros H; split_and!; [constructor|done|intros ? ? Hx; by apply elem_of_nil in Hx]|by intros (_ & ? & _)].
  - split.
    + intros H. apply StronglySorted_inv in H as [H F]. apply IH in H as (Ha & Hb & HR). apply Forall_app in F as [F1 F2].
      split_and!; [by constructor|done|]. intros y z Hy Hz. apply elem_of_cons in Hy as [->|Hy]; [|by apply HR].
      rewrite Forall_forall in F2. by apply F2, list_elem_of_In.
    + intros (Ha & Hb & HR). apply StronglySorted_inv in Ha as [Ha F]. constructor.
      * apply IH. split_and!; [done|done|]. intros y z Hy Hz. apply HR; [by right|done].
      * apply Forall_app. split; [done|]. apply Forall_forall. intros z Hz%list_elem_of_In. apply HR; [left|done].
Qed.
Lemma sorted_sub {A} (R : A -> A -> Prop) a b c : StronglySorted R (a ++ b ++ c) -> StronglySorted R (a ++ c).
Proof.
  rewrite !sorted_app_iff. intros (Ha & (Hb & Hc & _) & HR). split_and!; try done.
  intros x y Hx Hy. apply HR; [done|]. apply elem_of_app. by right.
Qed.
Lemma ents_sorted l : StronglySorted tok_lt l -> StronglySorted entry_lt (ents l).
Proof.
  induction 1 as [|t l _ IH F]; [constructor|]. destruct t as [k|k|e|lo]; cbn; [done..| |done]. constructor; [done|].
  apply Forall_forall. intros e' He%list_elem_of_In. apply ents_elem in He. rewrite Forall_forall in F.
  by apply list_elem_of_In, F in He.
Qed.
Lemma weave_keys ks ls k : List.length ls = S (List.length ks) -> k ∈ ks -> K k ∈ weave ks ls.
Proof.
  revert ls. induction ks as [|k0 ks IH]; intros [|l ls] Hl Hk; cbn in *; try lia; [by apply elem_of_nil in Hk|].
  apply elem_of_app. right. apply elem_of_cons in Hk as [->|Hk]; [left|right]. apply IH; [lia|done].
Qed.
Lemma weave_keys_sorted ks ls : StronglySorted tok_lt (weave ks ls) -> List.length ls = S (List.length ks) ->
  StronglySorted Z.lt ks.
Proof.
  revert ls. induction ks as [|k ks IH]; intros [|l ls] H Hl; cbn in *; try lia; [constructor|].
  apply sorted_app_iff in H as (_ & H & _). apply StronglySorted_inv in H as [H F].
  constructor; [by apply (IH ls); [|lia]|]. apply Forall_forall. intros k' Hk'%list_elem_of_In.
  rewrite Forall_forall in F. by apply (weave_keys _ ls), list_elem_of_In, F in Hk'; [|lia].
Qed.
Lemma node_keys_sorted h ks ls : StronglySorted tok_lt (lead h ++ weave ks ls) -> List.length ls = S (List.length ks) ->
  StronglySorted Z.lt (option_list h ++ ks).
Proof.
  intros H Hl. destruct h as [k0|]; cbn in *; [|by eapply weave_keys_sorted]. apply StronglySorted_inv in H as [H F].
  constructor; [by eapply weave_keys_sorted|]. apply Forall_forall. intros k Hk%list_elem_of_In.
  rewrite Forall_forall in F. by apply (weave_keys _ ls), list_elem_of_In, F in Hk.
Qed.

(** * Null children *)
Lemma holes_app s a b : holes s (a ++ b) <-> holes s a /\ holes (s ++ a) b.
Proof.
  revert s. induction a as [|x a IH]; intros s; cbn; [rewrite app_nil_r; tauto|]. rewrite IH, <- app_assoc. cbn. tauto.
Qed.
Lemma holes_mono s s' l : (forall k, K k ∈ s -> K k ∈ s') -> holes s l -> holes s' l.
Proof.
  revert s s'. induction l as [|x l IH]; intros s s' H; [done|]. cbn. intros [Hx Hl]. split; [destruct x as [| | |[|]]; auto|].
  eapply IH; [|exact Hl]. intros k. rewrite !elem_of_app. intros [?|?]; [left; by apply H|by right].
Qed.
(** Tokens that are not behind a null child may change, as long as no key goes. *)
Definition plain (l : list tok) : Prop := Forall (fun x => match x with J _ | Lo (Some _) => False | _ => True end) l.
Lemma holes_plain s l : plain l -> holes s l.
Proof. intros H. revert s. induction H as [|x l Hx _ IH]; intros s; [done|]. cbn. split; [by destruct x as [| | |[|]]|apply IH]. Qed.
Lemma plain_entries es : plain (E <$> es).
Proof. apply Forall_fmap, Forall_true. done. Qed.
Lemma holes_change s a m m' b : holes (s ++ a) m' -> (forall k, K k ∈ m -> K k ∈ m') -> holes s (a ++ m ++ b) -> holes s (a ++ m' ++ b).
Proof.
  intros Hp Hk. rewrite !holes_app. intros (Ha & _ & Hb). split_and!; [done..|].
  eapply holes_mono; [|exact Hb]. intros k. rewrite !elem_of_app. specialize (Hk k). tauto.
Qed.

(** * The memory of a shape *)
Section Rep.
Context (lw iw : Z).

Definition hgt (t : tree) (g : shape) : Z := match g with SLeaf _ _ _ => 0 | SNode n _ _ _ => heights t n end.
(** [ikey_bound], which only the first leaf of a layer has no use for. *)
Definition leaf_lo (l : leaf) : option Z := if prev_ l =? 0 then None else Some (ikey0 (slot l 0)).
Definition leaf_at (t : tree) (n : Z) (lo : option Z) (es : list entry) : Prop :=
  exists l, leaves t !! n = Some l /\ leaf_ok lw l /\ leaf_lo l = lo /\ entries l = es.
Definition inode_at (t : tree) (n : Z) (ks : list Z) (cs : list Z) : Prop :=
  leaves t !! n = None /\ 0 < heights t n /\
  exists x, inodes t !! n = Some x /\ 0 <= nkeys_ x <= iw /\ keys x = ks /\ kids x = cs.
(** Only interior nodes below the root need their root bit clear; a leaf made by a split
    inherits the bit of the leaf it was split from. *)
Fixpoint rep (t : tree) (top : bool) (g : shape) : Prop :=
  match g with
  | SLeaf n lo es => leaf_at t n lo es /\ (top = true -> is_root t n = true)
  | SNode n h ks cs =>
      inode_at t n (option_list h ++ ks) (hkids h ++ (addr <$> cs)) /\ is_root t n = top /\
      (fix go cs := match cs with
                    | [] => True
                    | c :: cs => (parents t (addr c) = n /\ hgt t c < heights t n /\ rep t false c) /\ go cs
                    end) cs
  end.
Definition child_of (t : tree) (n : Z) (c : shape) : Prop :=
  parents t (addr c) = n /\ hgt t c < heights t n /\ rep t false c.
Lemma rep_SNode t top n h ks cs : rep t top (SNode n h ks cs) <->
  inode_at t n (option_list h ++ ks) (hkids h ++ (addr <$> cs)) /\ is_root t n = top /\ Forall (child_of t n) cs.
Proof.
  cbn [rep]. set (go := fix go cs := match cs with [] => True | c :: cs => _ /\ go cs end).
  enough (forall cs, go cs <-> Forall (child_of t n) cs) as -> by done.
  intros l. induction l as [|c l IH]; cbn; [by split|]. rewrite list.Forall_cons. unfold child_of at 1. tauto.
Qed.
Lemma length_hkids h : List.length (hkids h) = List.length (option_list h).
Proof. by destruct h. Qed.
Lemma inode_length t n ks cs : inode_at t n ks cs -> List.length cs = S (List.length ks).
Proof.
  intros (_ & _ & x & _ & Hn & <- & <-). pose proof (length_keys x ltac:(lia)). pose proof (length_kids x ltac:(lia)). lia.
Qed.
Lemma rep_kids t top n h ks cs : rep t top (SNode n h ks cs) -> List.length cs = S (List.length ks).
Proof.
  rewrite rep_SNode. intros (H%inode_length & _). rewrite !length_app, length_hkids, length_fmap in H. lia.
Qed.
Lemma addr_in g : addr g ∈ addrs g.
Proof. destruct g; left. Qed.
Lemma addrs_below g : addrs g = addr g :: below g.
Proof. by destruct g. Qed.

(** A shape survives changes elsewhere. *)
Definition same_node (t t' : tree) (a : Z) : Prop :=
  leaves t' !! a = leaves t !! a /\ inodes t' !! a = inodes t !! a /\ heights t' a = heights t a /\ is_root t' a = is_root t a.
Definition same_parent (t t' : tree) (a : Z) : Prop := parents t' a = parents t a.
Lemma elem_of_flat_map {A B} (f : A -> list B) l y : y ∈ flat_map f l <-> exists x, x ∈ l /\ y ∈ f x.
Proof.
  rewrite list_elem_of_In, in_flat_map. by setoid_rewrite list_elem_of_In.
Qed.
Lemma hgt_frame t t' g : same_node t t' (addr g) -> hgt t' g = hgt t g.
Proof. destruct g; [done|]. by intros (_ & _ & ? & _). Qed.
Lemma rep_frame t t' top g : (forall a, a ∈ addrs g -> same_node t t' a) -> (forall a, a ∈ below g -> same_parent t t' a) ->
  rep t top g -> rep t' top g.
Proof.
  revert top. induction g as [n lo es|n h ks cs IH] using shape_ind'; intros top HN HP.
  - intros [(l & Hl & ?) Hr]. destruct (HN n ltac:(left)) as (E1 & _ & _ & E4). split; [exists l; by rewrite E1|by rewrite E4].
  - rewrite !rep_SNode. intros ((Hl & Hh & x & Hx & ?) & Hr & F).
    destruct (HN n ltac:(left)) as (E1 & E2 & E3 & E4). split_and!; [|by rewrite E4|].
    { unfold inode_at. rewrite E1, E2, E3. split_and!; [done|lia|by exists x]. }
    apply Forall_forall. intros c Hc. rewrite Forall_forall in F. pose proof (F _ Hc) as (Fp & Fh & Fr).
    apply list_elem_of_In in Hc. rewrite Forall_forall in IH.
    assert (Hin : forall a, a ∈ addrs c -> a ∈ flat_map addrs cs) by (intros a Ha; apply elem_of_flat_map; by exists c).
    assert (Hs : same_node t t' (addr c)) by (apply HN; right; apply Hin, addr_in).
    split_and!.
    + rewrite (HP (addr c)); [done|]. apply Hin, addr_in.
    + rewrite (hgt_frame _ _ _ Hs), E3. done.
    + apply (IH c); [by apply list_elem_of_In| | |done].
      * intros a Ha. apply HN. right. by apply Hin.
      * intros a Ha. apply HP. apply Hin. rewrite addrs_below. by right.
Qed.
Lemma child_frame t t' n c : (forall a, a ∈ addrs c -> same_node t t' a) -> (forall a, a ∈ addrs c -> same_parent t t' a) ->
  heights t' n = heights t n -> child_of t n c -> child_of t' n c.
Proof.
  intros HN HP Hh (Fp & Fh & Fr). split_and!.
  - rewrite (HP (addr c)); [done|apply addr_in].
  - rewrite (hgt_frame t) by (apply HN, addr_in). lia.
  - eapply rep_frame; [exact HN| |done]. intros a Ha. apply HP. rewrite addrs_below. by right.
Qed.

(** * Contexts *)
Record frame := { fn : Z; fh : option Z; fkl : list Z; fcl : list shape; fkr : list Z; fcr : list shape }.
Definition plug (f : frame) (g : shape) : shape := SNode (fn f) (fh f) (fkl f ++ fkr f) (fcl f ++ g :: fcr f).
Definition fill (C : list frame) (g : shape) : shape := foldl (fun g f => plug f g) g C.
Definition frame_pre (f : frame) : list tok := lead (fh f) ++ weave_left (fkl f) (map flat (fcl f)).
Definition frame_post (f : frame) : list tok := weave_right (fkr f) (map flat (fcr f)).
Fixpoint pre (C : list frame) : list tok := match C with [] => [] | f :: C => pre C ++ frame_pre f end.
Fixpoint post (C : list frame) : list tok := match C with [] => [] | f :: C => frame_post f ++ post C end.
Definition frame_addrs (f : frame) : list Z := fn f :: flat_map addrs (fcl f ++ fcr f).
Definition ctx_addrs (C : list frame) : list Z := flat_map frame_addrs C.
Fixpoint lpre (C : list frame) : list Z := match C with [] => [] | f :: C => lpre C ++ flat_map leaf_addrs (fcl f) end.
Fixpoint lpost (C : list frame) : list Z := match C with [] => [] | f :: C => flat_map leaf_addrs (fcr f) ++ lpost C end.
Definition is_nil {A} (l : list A) : bool := match l with [] => true | _ => false end.

(** The memory of a context around the address [a] of a node of height [h]. *)
Definition frame_at (t : tree) (f : frame) (top : bool) (a h : Z) : Prop :=
  parents t a = fn f /\ h < heights t (fn f) /\
  inode_at t (fn f) (option_list (fh f) ++ fkl f ++ fkr f) (hkids (fh f) ++ (addr <$> fcl f) ++ a :: (addr <$> fcr f)) /\ is_root t (fn f) = top /\
  List.length (fkl f) = List.length (fcl f) /\ Forall (child_of t (fn f)) (fcl f ++ fcr f).
Fixpoint rep_ctx (t : tree) (C : list frame) (a h : Z) : Prop :=
  match C with
  | [] => parents t a = 0
  | f :: C => frame_at t f (is_nil C) a h /\ rep_ctx t C (fn f) (heights t (fn f))
  end.

Lemma fill_app C D g : fill (C ++ D) g = fill D (fill C g).
Proof. apply foldl_app. Qed.
Lemma rep_plug t top f g : List.length (fkl f) = List.length (fcl f) ->
  (rep t top (plug f g) <-> rep t false g /\ frame_at t f top (addr g) (hgt t g)).
Proof.
  intros Hl. unfold plug. rewrite rep_SNode, fmap_app, fmap_cons, !Forall_app, list.Forall_cons.
  unfold frame_at, child_of at 2. rewrite Forall_app. tauto.
Qed.
Definition ctx_wf (C : list frame) : Prop := Forall (fun f => List.length (fkl f) = List.length (fcl f)) C.
Lemma rep_ctx_wf t C a h : rep_ctx t C a h -> ctx_wf C.
Proof.
  revert a h. induction C as [|f C IH]; intros a h H; [constructor|]. destruct H as [(_ & _ & _ & _ & ? & _) H].
  constructor; [done|by eapply IH].
Qed.
Lemma rep_fill t C g : ctx_wf C ->
  (rep t true (fill C g) /\ parents t (addr (fill C g)) = 0 <-> rep t (is_nil C) g /\ rep_ctx t C (addr g) (hgt t g)).
Proof.
  revert g. induction C as [|f C IH]; intros g HC; [done|]. inversion HC as [|? ? Hf HC']; subst.
  change (fill (f :: C) g) with (fill C (plug f g)). rewrite IH by done. rewrite rep_plug by done. cbn [is_nil rep_ctx].
  change (addr (plug f g)) with (fn f). change (hgt t (plug f g)) with (heights t (fn f)). tauto.
Qed.
Lemma flat_fill C g : ctx_wf C -> flat (fill C g) = pre C ++ flat g ++ post C.
Proof.
  revert g. induction C as [|f C IH]; intros g HC; [cbn; by rewrite app_nil_r|]. inversion HC as [|? ? Hf HC']; subst.
  change (fill (f :: C) g) with (fill C (plug f g)). rewrite IH by done. unfold plug. cbn [flat pre post].
  rewrite map_app. cbn [map]. rewrite weave_split by by rewrite length_map. unfold frame_pre. by rewrite <- !app_assoc.
Qed.
Lemma addrs_plug f g : addrs (plug f g) ≡ₚ addrs g ++ frame_addrs f.
Proof. unfold plug, frame_addrs. cbn [addrs]. rewrite !flat_map_app. cbn [flat_map]. solve_Permutation. Qed.
Lemma addrs_fill C g : addrs (fill C g) ≡ₚ addrs g ++ ctx_addrs C.
Proof.
  revert g. induction C as [|f C IH]; intros g; [cbn; by rewrite app_nil_r|].
  change (fill (f :: C) g) with (fill C (plug f g)). rewrite IH, addrs_plug. cbn [ctx_addrs flat_map]. by rewrite <- app_assoc.
Qed.
Lemma leaf_addrs_fill C g : leaf_addrs (fill C g) = lpre C ++ leaf_addrs g ++ lpost C.
Proof.
  revert g. induction C as [|f C IH]; intros g; [cbn; by rewrite app_nil_r|].
  change (fill (f :: C) g) with (fill C (plug f g)). rewrite IH. unfold plug. cbn [leaf_addrs lpre lpost].
  rewrite flat_map_app. cbn [flat_map]. by rewrite <- !app_assoc.
Qed.
Lemma frame_frame t t' f top a h : (forall b, b ∈ frame_addrs f -> same_node t t' b /\ same_parent t t' b) -> same_parent t t' a ->
  frame_at t f top a h -> frame_at t' f top a h.
Proof.
  intros HN HP (F1 & F2 & (F3 & F4 & F5) & F6 & F7 & F8). destruct (HN (fn f) ltac:(left)) as [(E1 & E2 & E3 & E4) _].
  unfold frame_at, inode_at. rewrite HP, E1, E2, E3, E4. split_and!; try done.
  apply Forall_forall. intros c Hc. rewrite Forall_forall in F8. pose proof (F8 _ Hc). apply list_elem_of_In in Hc.
  assert (Hin : forall b, b ∈ addrs c -> b ∈ frame_addrs f) by (intros b Hb; right; apply elem_of_flat_map; by exists c).
  eapply child_frame; [| |done|done]; intros b Hb; by apply HN, Hin.
Qed.
Lemma rep_ctx_frame t t' C a h : (forall b, b ∈ ctx_addrs C -> same_node t t' b /\ same_parent t t' b) -> same_parent t t' a ->
  rep_ctx t C a h -> rep_ctx t' C a h.
Proof.
  revert a h. induction C as [|f C IH]; intros a h HN HP; cbn; [by rewrite HP|]. intros [Hf HC].
  assert (Hf' : forall b, b ∈ frame_addrs f -> same_node t t' b /\ same_parent t t' b)
    by (intros b Hb; apply HN, elem_of_app; by left).
  split; [by apply (frame_frame t)|]. destruct (Hf' (fn f) ltac:(left)) as [(_ & _ & E3 & _) Hp]. rewrite E3.
  apply IH; [|done|done]. intros b Hb. apply HN, elem_of_app. by right.
Qed.

(** * Descending *)
Definition tok_below (i : Z) (t : tok) : Prop :=
  match t with K k | J k | Lo (Some k) => k <= i | E e => ikey0 e < i | Lo None => True end.
Definition tok_above (i : Z) (t : tok) : Prop :=
  match t with K k | J k | Lo (Some k) => i < k | E e => i < ikey0 e | Lo None => False end.

Lemma split_keys i ks : StronglySorted Z.lt ks -> exists ksL ksR, ks = ksL ++ ksR /\
  Forall (fun k => k <= i) ksL /\ Forall (fun k => i < k) ksR.
Proof.
  induction 1 as [|k ks _ (ksL & ksR & -> & HL & HR) F]; [by exists [], []|].
  destruct (Z.le_gt_cases k i).
  - exists (k :: ksL), ksR. split_and!; [done|by constructor|done].
  - exists [], (k :: ksL ++ ksR). split_and!; [done|constructor|]. constructor; [done|].
    eapply Forall_impl; [|exact F]. cbn. lia.
Qed.
Lemma weave_left_below ks ls i rest : StronglySorted tok_lt (weave_left ks ls ++ rest) -> List.length ks = List.length ls ->
  Forall (fun k => k <= i) ks -> Forall (tok_below i) (weave_left ks ls).
Proof.
  revert ls. induction ks as [|k ks IH]; intros [|l ls] Hs Hl HK; try done; [constructor..|]. cbn in *.
  inversion HK as [|? ? Hk HK']; subst. rewrite <- app_assoc in Hs. apply sorted_app_iff in Hs as (_ & Hs & HR).
  cbn in Hs. apply StronglySorted_inv in Hs as [Hs _]. apply Forall_app. split; [|constructor; [done|by apply IH; [|lia|]]].
  apply Forall_forall. intros t Ht%list_elem_of_In. pose proof (HR t (K k) Ht ltac:(left)) as R.
  destruct t as [| | |[|]]; cbn in *; done || lia.
Qed.
Lemma weave_right_above ks ls i : StronglySorted tok_lt (weave_right ks ls) -> Forall (fun k => i < k) ks ->
  Forall (tok_above i) (weave_right ks ls).
Proof.
  intros Hs HK. destruct HK as [|k ks Hk _]; [constructor|]. cbn in *. apply StronglySorted_inv in Hs as [_ F].
  constructor; [done|]. eapply Forall_impl; [|exact F]. intros [k'|k'|e|[lo|]] R; cbn in *; done || lia.
Qed.

Lemma pre_app C D : pre (C ++ D) = pre D ++ pre C.
Proof. induction C as [|f C IH]; cbn; [by rewrite app_nil_r|]. by rewrite IH, app_assoc. Qed.
Lemma post_app C D : post (C ++ D) = post C ++ post D.
Proof. induction C as [|f C IH]; cbn; [done|]. by rewrite IH, app_assoc. Qed.

(** A descent ends in the leaf whose neighbours in the token order lie on either side. *)
Lemma descend_shape bound t g ka : forall top P, rep t top g -> StronglySorted tok_lt (flat g) -> holes P (flat g) ->
  Forall (tok_below (ikey ka)) P -> (forall a, a ∈ addrs g -> a <> 0) ->
  exists C n lo es N, g = fill C (SLeaf n lo es) /\ ctx_wf C /\
    (forall fuel, (N <= fuel)%nat -> descend bound t fuel ka (addr g) = Some n) /\
    Forall (tok_below (ikey ka)) (pre C) /\ Forall (tok_above (ikey ka)) (post C).
Proof.
  induction g as [n lo es|n h ks cs IH] using shape_ind'; intros top P Hr Hs Hho HP H0.
  - exists [], n, lo, es, 1%nat. split_and!; try done; try constructor.
    intros [|fuel] Hf; [lia|]. cbn. destruct Hr as [(l & Hl & _) _]. by rewrite Hl.
  - pose proof (rep_kids _ _ _ _ _ _ Hr) as Hlen. apply rep_SNode in Hr as ((Hl & Hh & x & Hx & Hn & Ek & Ec) & _ & F).
    cbn [flat] in Hs, Hho. pose proof (node_keys_sorted h ks (map flat cs) Hs ltac:(by rewrite length_map)) as HKs.
    assert (Hhl : Forall (fun k => k <= ikey ka) (option_list h)).
    { destruct h as [k0|]; [|constructor]. constructor; [|constructor]. destruct Hho as [Hho%list_elem_of_In _]. rewrite Forall_forall in HP.
      exact (HP _ Hho). }
    destruct (split_keys (ikey ka) ks) as (ksL & ksR & -> & HL & HR); [by apply sorted_app_iff in HKs as (_ & ? & _)|].
    rewrite length_app in Hlen.
    destruct (lookup_lt_is_Some_2 cs (List.length ksL) ltac:(lia)) as [c Hc].
    pose proof (take_drop_middle cs _ c Hc) as Ecs. set (cL := take (List.length ksL) cs) in *. set (cR := drop (S (List.length ksL)) cs) in *.
    assert (HcL : List.length ksL = List.length cL) by (unfold cL; rewrite length_take; lia).
    rewrite <- Ecs in *. clear Hc. rewrite map_app in Hs, Hho. cbn [map] in Hs, Hho.
    rewrite weave_split in Hs, Hho by by rewrite length_map.
    apply sorted_app_iff in Hs as (_ & Hs & _). pose proof Hs as HsL. pose proof Hs as Hmid. apply sorted_app_iff in Hmid as (_ & Hmid & _).
    apply sorted_app_iff in Hmid as (Hmid & HsR & _).
    apply Forall_app in F as [FL F]. apply Forall_cons_1 in F as [(Fp & Fh & Fr) FR].
    set (f := {| fn := n; fh := h; fkl := ksL; fcl := cL; fkr := ksR; fcr := cR |}).
    assert (Hpf : Forall (tok_below (ikey ka)) (frame_pre f)).
    { apply Forall_app. split; [destruct h; by inversion Hhl; constructor|]. eapply weave_left_below; [exact HsL|by rewrite length_map|done]. }
    rewrite Forall_forall in IH. destruct (IH c ltac:(apply in_or_app; right; by left) false (P ++ frame_pre f) Fr Hmid) as (C & m & lo & es & N & Hg & HC & Hd & Hpre & Hpost).
    { rewrite !holes_app in Hho. unfold frame_pre. rewrite !app_assoc in *. tauto. }
    { by apply Forall_app. }
    { intros a Ha. apply H0. right. rewrite flat_map_app. apply elem_of_app. right. cbn. apply elem_of_app. by left. }
    exists (C ++ [f]), m, lo, es, (S N). split_and!.
    + rewrite fill_app, <- Hg. done.
    + apply Forall_app. split; [done|]. by constructor.
    + intros [|fuel] Hf; [lia|]. cbn [descend addr]. rewrite Hl, Hx. cbn [mbind option_bind].
      assert (Hup : upper bound (Sized (nkeys_ x)) (compare_inode x ka) = Some (Z.of_nat (List.length (option_list h ++ ksL)))).
      { apply (upper_cut bound x (ikey ka) _ ksR); [by rewrite Ek, app_assoc|lia|by rewrite Ek|by apply Forall_app|done]. }
      rewrite Hup. cbn [mbind option_bind].
      assert (Ech : child_ x (Z.of_nat (List.length (option_list h ++ ksL))) = addr c).
      { pose proof (length_keys x ltac:(lia)) as Hlk. rewrite Ek, !length_app in Hlk.
        assert (Hk : kids x !! List.length (option_list h ++ ksL) = Some (addr c)).
        { rewrite Ec, fmap_app, length_app, <- length_hkids, lookup_app_r by lia.
          rewrite lookup_app_r by (rewrite length_fmap; lia). by replace (_ - _ - _)%nat with 0%nat by (rewrite length_fmap; lia). }
        unfold kids in Hk. rewrite list_lookup_fmap, lookup_seqZ_lt in Hk by (rewrite length_app; lia). cbn in Hk. injection Hk as <-. done. }
      rewrite Ech. destruct (Z.eqb_spec (addr c) 0) as [E0|_]; [|by apply Hd; lia].
      exfalso. apply (H0 (addr c)); [|done]. right. rewrite flat_map_app. apply elem_of_app. right. cbn. apply elem_of_app. left. apply addr_in.
    + rewrite pre_app. cbn [pre app]. by apply Forall_app.
    + rewrite post_app. cbn [post app]. rewrite app_nil_r. apply Forall_app. split; [done|].
      unfold frame_post. cbn [fkr fcr f]. by apply weave_right_above.
Qed.
End Rep.
