(* ===== verification/TreeMap.v ===== *)
(** The tree as a finite map from strings to values.

    A tree is well formed when its memory holds a family of layers, indexed by the bytes
    that lead to them: each layer is a shape in token order, an entry that is a layer points
    into the layer with eight more bytes, and the layers share no node.  The map the tree
    stands for has the keys and values of all entries that are not layers. *)
From Stdlib Require Import Sorted.
From S2P Require Import Prelude StringSlice Permuter KSearch Internode LeafSplit MassKey Tree TreeShape.

(** * The keys of entries *)

Inductive entry_key : entry -> list Z -> Prop :=
| key_short e k : keylenx e = Z.of_nat (List.length k) -> (List.length k <= 8)%nat -> Forall byte_ok k ->
    ikey0 e = be_value (pad 8 k) -> entry_key e k
| key_long e s : keylenx e = ksuf_keylenx -> List.length s = 8%nat -> Forall byte_ok (s ++ ksuf e) ->
    ksuf e <> [] -> ikey0 e = be_value s -> entry_key e (s ++ ksuf e).
Definition layer_slice (e : entry) (s : list Z) : Prop :=
  keylenx e = layer_keylenx /\ List.length s = 8%nat /\ Forall byte_ok s /\ ikey0 e = be_value s.
Definition entry_ok (e : entry) : Prop := (exists k, entry_key e k) \/ (exists s, layer_slice e s).

Lemma krank_app s r : List.length s = 8%nat -> r <> [] -> krank (s ++ r) = (be_value s, 9).
Proof.
  intros Hs Hr. unfold krank. rewrite pad_take, take_app_length' by (rewrite ?length_app; lia).
  rewrite length_app, Hs. destruct r; [done|]. cbn [List.length]. f_equal. lia.
Qed.
Lemma entry_key_rank e k : entry_key e k -> Forall byte_ok k /\ krank k = erank e /\ keylenx e < layer_keylenx /\ 0 <= keylenx e.
Proof.
  destruct 1 as [e k E L B I|e s E L B N I]; unfold erank; rewrite E, I.
  - split_and!; [done..|unfold layer_keylenx; lia|lia].
  - split_and!; [done| |done|done]. by rewrite krank_app.
Qed.
Lemma layer_slice_rank e s r : layer_slice e s -> r <> [] -> krank (s ++ r) = erank e.
Proof. intros (E & L & B & I) Hr. unfold erank. rewrite E, I, krank_app by done. done. Qed.
Lemma layer_not_key e s k : layer_slice e s -> entry_key e k -> False.
Proof. intros (E & _) Hk. apply entry_key_rank in Hk as (_ & _ & H & _). lia. Qed.
Lemma be_inj a b : List.length a = 8%nat -> List.length b = 8%nat -> Forall byte_ok a -> Forall byte_ok b ->
  be_value a = be_value b -> a = b.
Proof. intros. apply be_value_inj; congruence. Qed.
Lemma layer_slice_inj e s s' : layer_slice e s -> layer_slice e s' -> s = s'.
Proof. intros (_ & L & B & I) (_ & L' & B' & I'). apply be_inj; congruence. Qed.
Lemma entry_key_inj e k k' : entry_key e k -> entry_key e k' -> k = k'.
Proof.
  intros H H'. destruct (entry_key_rank e k H) as (B & R & _), (entry_key_rank e k' H') as (B' & R' & _).
  destruct H as [e k E L _ I|e s E L _ N I].
  - by apply krank_short; [| | |congruence].
  - destruct H' as [e k E' L' _ I'|e s' E' L' _ N' I']; [unfold ksuf_keylenx in *; lia|].
    f_equal. rewrite I in I'. apply Forall_app in B as [B _], B' as [B' _]. by apply be_inj.
Qed.
Lemma layer_slice_key e s k : layer_slice e s -> Forall byte_ok k -> krank k = erank e -> k = s ++ drop 8 k /\ (8 < List.length k)%nat.
Proof.
  intros Hs Hk Hr. pose proof Hs as (_ & L & B & _). apply (krank_long s [0] k L); [done| |done|].
  - apply Forall_app. split; [done|]. repeat constructor; lia.
  - by rewrite Hr, (layer_slice_rank e).
Qed.

(** * Well-formed trees *)

Record glayer := { gptr : Z; gshape : shape }.

(** The leaves of a layer, linked in order. *)
Fixpoint chain (t : tree) (pv : Z) (ls : list Z) : Prop :=
  match ls with
  | [] => True
  | a :: ls => (exists l, leaves t !! a = Some l /\ prev_ l = pv /\ next_ l = hd 0 ls) /\ chain t a ls
  end.

Section Inv.
Context (lw iw maxkeylen : Z).

Record layer_ok (t : tree) (p : list Z) (g : glayer) : Prop := {
  lo_rep : rep lw iw t true (gshape g);
  lo_parent : parents t (addr (gshape g)) = 0;
  lo_sorted : StronglySorted tok_lt (flat (gshape g));
  lo_holes : holes [] (flat (gshape g));
  lo_nodup : NoDup (addrs (gshape g));
  lo_nonnull : forall a, a ∈ addrs (gshape g) -> a <> 0;
  lo_chain : chain t 0 (leaf_addrs (gshape g));
  lo_ptr : gptr g ∈ addrs (gshape g);
  lo_stale : gptr g <> addr (gshape g) -> is_root t (gptr g) = false /\ parents t (gptr g) = addr (gshape g);
  lo_items : forall e, e ∈ items (gshape g) -> entry_ok e;
  lo_nonempty : p <> [] -> forall e, e ∈ items (gshape g) -> keylenx e <> 0;
  lo_bytes : Forall byte_ok p;
  lo_length : exists m, List.length p = (8 * m)%nat
}.
Record inv (t : tree) (root : Z) (G : gmap (list Z) glayer) : Prop := {
  inv_root : exists g, G !! [] = Some g /\ gptr g = root;
  inv_layer : forall p g, G !! p = Some g -> layer_ok t p g;
  inv_sub : forall p g e s, G !! p = Some g -> e ∈ items (gshape g) -> layer_slice e s ->
    exists g', G !! (p ++ s) = Some g' /\ gptr g' = lv e;
  inv_up : forall p g, G !! p = Some g -> p = [] \/ exists q s g' e,
    p = q ++ s /\ G !! q = Some g' /\ e ∈ items (gshape g') /\ layer_slice e s;
  inv_disj : forall p q g g' a, G !! p = Some g -> G !! q = Some g' -> p <> q ->
    a ∈ addrs (gshape g) -> a ∉ addrs (gshape g');
  inv_short : forall p g, G !! p = Some g -> Z.of_nat (List.length p) < maxkeylen
}.
(** The bindings, and the map a tree stands for. *)
Definition bound (G : gmap (list Z) glayer) (k : list Z) (v : Z) : Prop :=
  exists p g e k', G !! p = Some g /\ e ∈ items (gshape g) /\ entry_key e k' /\ k = p ++ k' /\ lv e = v.
Definition stands_for (t : tree) (root : Z) (m : gmap (list Z) Z) : Prop :=
  exists G, inv t root G /\ forall k v, m !! k = Some v <-> bound G k v.

Lemma sorted_rank_inj es a b : StronglySorted entry_lt es -> a ∈ es -> b ∈ es -> erank a = erank b -> a = b.
Proof.
  intros Hs Ha Hb E. apply list_elem_of_lookup in Ha as [i Hi], Hb as [j Hj].
  destruct (Nat.lt_trichotomy i j) as [L|[->|L]]; [|congruence|]; exfalso; apply (rank_lt_irrefl (erank b)).
  - rewrite <- E at 1. exact (sorted_lookup _ _ _ _ _ _ Hs Hi Hj L).
  - rewrite <- E at 2. exact (sorted_lookup _ _ _ _ _ _ Hs Hj Hi L).
Qed.
Lemma layer_rank_inj t p g a b : layer_ok t p g -> a ∈ items (gshape g) -> b ∈ items (gshape g) -> erank a = erank b -> a = b.
Proof. intros H. apply sorted_rank_inj, ents_sorted, H. Qed.

(** Every eight bytes on the way to a layer have an entry. *)
Lemma layer_way t root G q s r g : inv t root G -> G !! (q ++ s ++ r) = Some g -> List.length s = 8%nat ->
  (exists m, List.length q = (8 * m)%nat) -> exists gq e, G !! q = Some gq /\ e ∈ items (gshape gq) /\ layer_slice e s.
Proof.
  intros I. remember (List.length r) as n eqn:Hn. revert r g Hn. induction n as [n IH] using lt_wf_ind. intros r g -> Hg Hs [m Hm].
  destruct (inv_up _ _ _ I _ _ Hg) as [E|(q' & s' & g' & e & E & Hg' & He & Hs')].
  { destruct q; [|done]. destruct s; done. }
  destruct (lo_length _ _ _ (inv_layer _ _ _ I _ _ Hg)) as [m1 H1]. rewrite !length_app in H1.
  destruct (decide (r = [])) as [->|Hr].
  - rewrite app_nil_r in E. apply app_inj_2 in E as [<- <-]; [by exists g', e|]. destruct Hs' as (_ & L & _). lia.
  - pose proof Hs' as (_ & L & _). assert (8 <= List.length r)%nat by (destruct r; [done|cbn in *; lia]).
    rewrite <- (take_drop (List.length r - 8) r) in E. rewrite !app_assoc in E. apply app_inj_2 in E as [Eq _]; [|rewrite length_drop; lia].
    apply (IH (List.length (take (List.length r - 8) r)) ltac:(rewrite length_take; lia) _ g' eq_refl); [|done|by exists m].
    rewrite <- Hg'. f_equal. rewrite <- Eq. by rewrite <- app_assoc.
Qed.

(** In the layer a key has come to, its bindings are those of that layer's entries, unless
    the key goes on to another layer. *)
Lemma bound_at t root G p g k v : inv t root G -> G !! p = Some g -> Forall byte_ok k -> (p <> [] -> k <> []) ->
  (forall e s, e ∈ items (gshape g) -> layer_slice e s -> erank e <> krank k) ->
  (bound G (p ++ k) v <-> exists e, e ∈ items (gshape g) /\ entry_key e k /\ lv e = v).
Proof.
  intros I Hg Hk Hne Hnl. split; [|intros (e & ? & ? & ?); by exists p, g, e, k].
  intros (q & gq & e & k' & Hq & He & Hek & E & <-).
  pose proof (inv_layer _ _ _ I _ _ Hg) as Lg. pose proof (inv_layer _ _ _ I _ _ Hq) as Lq.
  destruct (lo_length _ _ _ Lg) as [mp Hp], (lo_length _ _ _ Lq) as [mq Hmq].
  pose proof (entry_key_rank _ _ Hek) as (Bk' & Rk' & _).
  destruct (Nat.lt_trichotomy (List.length p) (List.length q)) as [L|[L|L]].
  - (* the entry is in a deeper layer *)
    exfalso. assert (Eq : q = p ++ drop (List.length p) q).
    { rewrite <- (take_drop (List.length p) q) at 1. f_equal. apply (f_equal (take (List.length p))) in E.
      by rewrite take_app_length, take_app_le in E by lia. }
    set (d := drop (List.length p) q) in *. assert (Hd : (8 <= List.length d)%nat) by (unfold d; rewrite length_drop; lia).
    rewrite Eq, <- app_assoc in E. apply app_inv_head in E. subst k.
    rewrite Eq, <- (take_drop 8 d) in Hq. destruct (layer_way _ _ _ _ _ _ _ I Hq) as (g1 & e1 & Hg1 & He1 & Hs1).
    { rewrite length_take. lia. } { by exists mp. }
    assert (g1 = g) as -> by congruence. apply (Hnl e1 (take 8 d) He1 Hs1).
    rewrite <- (layer_slice_rank e1 (take 8 d) (drop 8 d ++ k') Hs1); [by rewrite app_assoc, take_drop|].
    assert (k' <> []); [|destruct (drop 8 d); [done|discriminate]]. intros ->.
    assert (Hqn : q <> []) by (intros ->; cbn in L; lia). apply (lo_nonempty _ _ _ Lq Hqn e He).
    inversion Hek as [? ? E0|? s ? ? ? ? ? E0]; [by rewrite E0|]. by destruct s.
  - apply app_inj_1 in E as [-> <-]; [|done]. assert (gq = g) as -> by congruence. by exists e.
  - (* the entry is in a layer above *)
    exfalso. assert (Ep : p = q ++ drop (List.length q) p).
    { rewrite <- (take_drop (List.length q) p) at 1. f_equal. apply (f_equal (take (List.length q))) in E.
      by rewrite take_app_length, take_app_le in E by lia. }
    set (d := drop (List.length q) p) in *. assert (Hd : (8 <= List.length d)%nat) by (unfold d; rewrite length_drop; lia).
    rewrite Ep, <- app_assoc in E. apply app_inv_head in E. subst k'.
    rewrite Ep, <- (take_drop 8 d) in Hg. destruct (layer_way _ _ _ _ _ _ _ I Hg) as (g1 & e1 & Hg1 & He1 & Hs1).
    { rewrite length_take. lia. } { by exists mq. }
    assert (g1 = gq) as -> by congruence. apply (layer_not_key e1 (take 8 d) (d ++ k)); [done|].
    replace e1 with e; [done|]. apply (layer_rank_inj _ _ _ _ _ Lq He He1). rewrite <- Rk'.
    rewrite <- (take_drop 8 d), <- app_assoc. apply layer_slice_rank; [done|].
    assert (k <> []); [|destruct (drop 8 d); [done|discriminate]]. apply Hne. intros ->. cbn in L. lia.
Qed.

(** * Lookup *)

(** From any node of a layer whose root bit is clear the parent pointers lead to the root. *)
Definition climb (t : tree) (a b : Z) : Prop := is_root t a = false /\ maybe_parent t a = b.
Lemma climb_to_root t top g a : rep lw iw t top g -> (forall a, a ∈ addrs g -> a <> 0) ->
  a ∈ addrs g -> (a <> addr g -> is_root t a = false) -> rtc (climb t) a (addr g).
Proof.
  revert top a. induction g as [n lo es|n h ks cs IH] using shape_ind'; intros top a Hr H0 Ha Hroot.
  - apply list_elem_of_singleton in Ha as ->. done.
  - apply rep_SNode in Hr as (_ & _ & F). cbn [addrs addr] in *. apply elem_of_cons in Ha as [->|Ha]; [done|].
    apply elem_of_flat_map in Ha as (c & Hc & Ha). rewrite Forall_forall in F, IH. apply list_elem_of_In in Hc.
    pose proof (F c Hc) as (Hp & _ & Hrc). specialize (IH c Hc).
    assert (Hin : forall b, b ∈ addrs c -> b ∈ n :: flat_map addrs cs).
    { intros b Hb. right. apply elem_of_flat_map. exists c. split; [by apply list_elem_of_In|done]. }
    assert (Hstep : is_root t (addr c) = false -> climb t (addr c) n).
    { intros Hroot'. split; [done|]. unfold maybe_parent. rewrite Hp. destruct (Z.eqb_spec n 0) as [->|]; [|done].
      exfalso. by apply (H0 0 ltac:(left)). }
    destruct (decide (a = n)) as [->|Hn]; [done|]. specialize (Hroot Hn).
    destruct (decide (a = addr c)) as [->|Hac].
    + apply rtc_once. by apply Hstep.
    + eapply rtc_r; [apply (IH false a Hrc); [intros b Hb; by apply H0, Hin|done|done]|]. apply Hstep.
      destruct c as [m lo es|m h' ks' cs']; cbn in *; [by apply list_elem_of_singleton in Ha|].
      by destruct Hrc as (_ & -> & _).
Qed.
Lemma true_root_climb t a r : rtc (climb t) a r -> is_root t r = true ->
  exists N, forall fuel, (N <= fuel)%nat -> true_root t fuel a = Some r.
Proof.
  intros H Hr. induction H as [a|a b r [Ha Hb] _ IH].
  - exists 1%nat. intros [|fuel] Hf; [lia|]. cbn. by rewrite Hr.
  - destruct (IH Hr) as [N HN]. exists (S N). intros [|fuel] Hf; [lia|]. cbn. rewrite Ha, Hb. apply HN. lia.
Qed.
Lemma rep_top t g : rep lw iw t true g -> is_root t (addr g) = true.
Proof. destruct g; [intros [_ H]; by apply H|]. by intros (_ & H & _). Qed.

(** The leaf that is responsible for a key, with its place in the layer. *)
Lemma reach_leaf_ok bound t p g ka : layer_ok t p g ->
  exists C n lo es N, gshape g = fill C (SLeaf n lo es) /\ ctx_wf C /\
    (forall fuel, (N <= fuel)%nat -> reach_leaf bound t fuel ka (gptr g) = Some n) /\
    Forall (tok_below (ikey ka)) (pre C) /\ Forall (tok_above (ikey ka)) (post C).
Proof.
  intros L. destruct (true_root_climb t (gptr g) (addr (gshape g))) as [N1 HN1].
  { eapply climb_to_root; apply L. } { apply rep_top, L. }
  destruct (descend_shape lw iw bound t (gshape g) ka true []) as (C & n & lo & es & N2 & Hg & HC & HN2 & Hpre & Hpost); [apply L..|constructor|apply L|].
  exists C, n, lo, es, (Nat.max N1 N2). split_and!; try done. intros fuel Hf. unfold reach_leaf.
  rewrite HN1 by lia. cbn [mbind option_bind]. apply HN2. lia.
Qed.
Lemma leaf_in_layer t p g C n lo es : layer_ok t p g -> gshape g = fill C (SLeaf n lo es) -> ctx_wf C ->
  leaf_at lw t n lo es /\ items (gshape g) = ents (pre C) ++ es ++ ents (post C) /\ StronglySorted entry_lt es.
Proof.
  intros L Hg HC. pose proof (lo_sorted _ _ _ L) as Hs. pose proof (lo_rep _ _ _ L) as Hr. pose proof (lo_parent _ _ _ L) as Hp.
  unfold items. rewrite Hg in *. destruct (proj1 (rep_fill lw iw t C (SLeaf n lo es) HC) (conj Hr Hp)) as [[Hl _] _].
  rewrite flat_fill in * by done. rewrite !ents_app. cbn [flat] in *. change (ents (Lo lo :: ?l)) with (ents l). rewrite ents_E. split_and!; [done..|].
  apply sorted_app_iff in Hs as (_ & Hs & _). apply sorted_app_iff in Hs as (Hs & _). apply ents_sorted in Hs. change (ents (Lo lo :: ?l)) with (ents l) in Hs.
  by rewrite ents_E in Hs.
Qed.
Lemma ents_below i l e : Forall (tok_below i) l -> e ∈ ents l -> ikey0 e < i.
Proof. intros H He%ents_elem. rewrite Forall_forall in H. by apply list_elem_of_In, H in He. Qed.
Lemma ents_above i l e : Forall (tok_above i) l -> e ∈ ents l -> i < ikey0 e.
Proof. intros H He%ents_elem. rewrite Forall_forall in H. by apply list_elem_of_In, H in He. Qed.

(** The leaf and the search: the entry of the layer with the key's rank, or that there is none. *)
Definition layer_search bound t fuel ka n : option (option entry) :=
  m ← reach_leaf bound t fuel ka n;
  l ← leaves t !! m;
  kx ← leaf_lower bound l ka;
  Some (if 0 <=? kx_p kx then Some (slot l (kx_p kx)) else None).

Lemma layer_search_ok bound t mem p g ka k : layer_ok t p g -> key_view mem ka k ->
  exists N res, (forall fuel, (N <= fuel)%nat -> layer_search bound t fuel ka (gptr g) = Some res) /\
    match res with
    | Some e => e ∈ items (gshape g) /\ erank e = krank k
    | None => forall e, e ∈ items (gshape g) -> erank e <> krank k
    end.
Proof.
  intros L Hk. destruct (reach_leaf_ok bound t p g ka L) as (C & n & lo & es & N & Hg & HC & HN & Hpre & Hpost).
  destruct (leaf_in_layer t p g C n lo es L Hg HC) as ((l & Hl & Hok & _ & <-) & -> & Hs).
  destruct (leaf_lower_ok lw bound mem l ka k Hok Hs Hk) as (kx & Hlow & Hi & Hlt & Hkx).
  exists N, (if 0 <=? kx_p kx then Some (slot l (kx_p kx)) else None). split.
  - intros fuel Hf. unfold layer_search. rewrite HN by lia. cbn [mbind option_bind]. rewrite Hl. cbn [mbind option_bind]. by rewrite Hlow.
  - destruct (Z.eqb_spec (kx_p kx) (-1)) as [Ep|Ep].
    + rewrite Ep. cbn. intros e He Ee. assert (Ei : ikey0 e = ikey ka).
      { destruct Hk as (Ei & _). unfold ikey. rewrite Ei. by injection Ee. }
      rewrite !elem_of_app in He. destruct He as [He|[He|He]].
      * apply (ents_below _ _ _ Hpre) in He. lia.
      * apply entries_elem in He as (j & Hj & ->). destruct (Z.lt_ge_cases j (kx_i kx)).
        -- specialize (Hlt j ltac:(lia)). rewrite Ee in Hlt. by apply rank_lt_irrefl in Hlt.
        -- specialize (Hkx j ltac:(lia)). rewrite Ee in Hkx. by apply rank_lt_irrefl in Hkx.
      * apply (ents_above _ _ _ Hpost) in He. lia.
    + destruct Hkx as (Hp & Hsz & Hel & Er). destruct (Z.leb_spec 0 (kx_p kx)); [|lia]. rewrite Hel.
      split; [|done]. rewrite !elem_of_app. right. left. apply entries_elem. exists (kx_i kx). split; [lia|done].
Qed.

Lemma find_unlocked_S bound unaligned mem t fuel ka n : find_unlocked bound unaligned mem t (S fuel) ka n =
  (res ← layer_search bound t (S fuel) ka n;
   let '(m, v) := match res with Some e => (ksuf_matches mem e ka, lv e) | None => (0, 0) end in
   if m <? 0 then find_unlocked bound unaligned mem t fuel (shift_by unaligned 8 mem (- m) ka) v else Some (m, v)).
Proof.
  unfold layer_search. cbn [find_unlocked]. destruct (reach_leaf bound t (S fuel) ka n) as [m|]; [|done].
  cbn [mbind option_bind]. destruct (leaves t !! m) as [l|]; [|done]. cbn [mbind option_bind].
  destruct (leaf_lower bound l ka) as [kx|]; [|done]. cbn [mbind option_bind]. by destruct (0 <=? kx_p kx).
Qed.

Lemma suffix_bytes mem ka k : (forall a, byte_ok (mem a)) -> key_view mem ka k -> (8 <= List.length k)%nat ->
  (suffix 8 ka).2 = Z.of_nat (List.length k) - 8 /\ mem_bytes mem (suffix 8 ka).1 (suffix 8 ka).2 = drop 8 k.
Proof.
  intros Hm Hk Hl. destruct (shift_view true mem ka k Hm Hk Hl) as (_ & _ & E & _).
  destruct Hk as (_ & El & _). unfold suffix. cbn [fst snd]. split; [lia|]. rewrite shift_by_str in E by done. done.
Qed.
(** What an entry with the key's rank says about the key. *)
Lemma ksuf_matches_layer mem e ka s : layer_slice e s -> ksuf_matches mem e ka = -8.
Proof. intros (E & _). unfold ksuf_matches. by rewrite E. Qed.
Lemma ksuf_matches_key mem e ka k k' : (forall a, byte_ok (mem a)) -> key_view mem ka k -> entry_key e k' ->
  erank e = krank k -> ksuf_matches mem e ka = b2z (bool_decide (k' = k)).
Proof.
  intros Hm Hk He Hr. pose proof Hk as (_ & _ & _ & Hbk). destruct (entry_key_rank _ _ He) as (Bk' & R & _).
  destruct He as [e k' E L B I|e s E L B N I].
  - rewrite bool_decide_eq_true_2; [|apply krank_short; congruence].
    unfold ksuf_matches. rewrite E. destruct (Z.ltb_spec (Z.of_nat (List.length k')) ksuf_keylenx); [done|].
    unfold ksuf_keylenx in *. lia.
  - destruct (krank_long s (ksuf e) k L N B Hbk ltac:(congruence)) as [Ek Hl].
    destruct (suffix_bytes mem ka k Hm Hk ltac:(lia)) as [S1 S2].
    assert (M : ksuf_matches mem e ka = b2z (bool_decide (ksuf e = drop 8 k))).
    { unfold ksuf_matches. rewrite E, S2, S1. cbn [Z.ltb Z.eqb Z.compare ksuf_keylenx layer_keylenx Pos.compare Pos.compare_cont Pos.eqb].
      f_equal. case_bool_decide as D; [|by rewrite andb_false_r]. rewrite D, length_drop. zcases; lia. }
    rewrite M. f_equal. apply bool_decide_ext. split; intros D.
    + rewrite Ek. by rewrite D.
    + rewrite <- D. by rewrite drop_app_length'.
Qed.

(** Either the layer decides, or the key goes on to the layer below. *)
Lemma layer_decides t root G p g k e : inv t root G -> G !! p = Some g -> Forall byte_ok k -> (p <> [] -> k <> []) ->
  e ∈ items (gshape g) -> erank e = krank k ->
  (exists k', entry_key e k' /\ forall v, bound G (p ++ k) v <-> k' = k /\ lv e = v) \/
  (exists s g', layer_slice e s /\ k = s ++ drop 8 k /\ (8 < List.length k)%nat /\ G !! (p ++ s) = Some g' /\ gptr g' = lv e).
Proof.
  intros I Hg Hk Hne He Hr. pose proof (inv_layer _ _ _ I _ _ Hg) as L.
  assert (Huniq : forall e', e' ∈ items (gshape g) -> erank e' = krank k -> e' = e)
    by (intros e' He' Hr'; apply (layer_rank_inj _ _ _ _ _ L He' He); congruence).
  destruct (lo_items _ _ _ L e He) as [[k' Hek]|[s Hs]].
  - left. exists k'. split; [done|]. intros v. rewrite (bound_at t root G p g k v I Hg Hk Hne).
    + split; [intros (e' & He' & Hek' & <-)|intros [<- <-]; by exists e].
      pose proof (entry_key_rank _ _ Hek') as (_ & R & _). rewrite (Huniq e' He' ltac:(congruence)) in *.
      split; [by eapply entry_key_inj|done].
    + intros e' s He' Hs' R. rewrite (Huniq e' He' R) in *. by eapply layer_not_key.
  - right. destruct (layer_slice_key _ _ _ Hs Hk ltac:(congruence)) as [Ek Hl].
    destruct (inv_sub _ _ _ I _ _ _ _ Hg He Hs) as (g' & Hg' & Hp'). exists s, g'. done.
Qed.
Lemma layer_absent t root G p g k v : inv t root G -> G !! p = Some g -> Forall byte_ok k -> (p <> [] -> k <> []) ->
  (forall e, e ∈ items (gshape g) -> erank e <> krank k) -> ~ bound G (p ++ k) v.
Proof.
  intros I Hg Hk Hne Hn Hb. apply (bound_at t root G p g k v I Hg Hk Hne) in Hb as (e & He & Hek & _).
  - apply (Hn e He). by destruct (entry_key_rank _ _ Hek) as (_ & <- & _).
  - intros e s He _. by apply Hn.
Qed.

Lemma find_unlocked_correct bnd unaligned mem t root G k p g ka : (forall a, byte_ok (mem a)) ->
  inv t root G -> G !! p = Some g -> key_view mem ka k -> (p <> [] -> k <> []) ->
  exists N m v, (forall fuel, (N <= fuel)%nat -> find_unlocked bnd unaligned mem t fuel ka (gptr g) = Some (m, v)) /\
    (m = 1 /\ (forall v', bound G (p ++ k) v' <-> v' = v) \/ m = 0 /\ forall v', ~ bound G (p ++ k) v').
Proof.
  intros Hm I. remember (List.length k) as len eqn:Hlen. revert k p g ka Hlen.
  induction len as [len IH] using lt_wf_ind. intros k p g ka -> Hg Hk Hne. pose proof Hk as (_ & _ & _ & Hb).
  destruct (layer_search_ok bnd t mem p g ka k (inv_layer _ _ _ I _ _ Hg) Hk) as (N & [e|] & HN & Hspec).
  - destruct Hspec as [He Hr]. destruct (layer_decides t root G p g k e I Hg Hb Hne He Hr) as [(k' & Hek & Hkb)|(s & g' & Hs & Ek & Hl & Hg' & Hp')].
    + pose proof (ksuf_matches_key mem e ka k k' Hm Hk Hek Hr) as M.
      exists (S N), (b2z (bool_decide (k' = k))), (lv e). split.
      { intros [|fuel] Hf; [lia|]. rewrite find_unlocked_S, HN by lia. cbn [mbind option_bind]. rewrite M. by case_bool_decide. }
      setoid_rewrite Hkb.
      case_bool_decide; [left|right]; (split; [done|]); intuition.
    + destruct (IH (List.length (drop 8 k)) ltac:(rewrite length_drop; lia) (drop 8 k) (p ++ s) g'
        (shift_by unaligned 8 mem 8 ka) eq_refl Hg' (shift_view unaligned mem ka k Hm Hk ltac:(lia))) as (N' & m & v & HN' & Ha).
      { intros _ Hd. apply (f_equal List.length) in Hd. rewrite length_drop in Hd. cbn in Hd. lia. }
      exists (S (Nat.max N N')), m, v. split; [|by rewrite <- app_assoc, <- Ek in Ha].
      intros [|fuel] Hf; [lia|]. rewrite find_unlocked_S, HN by lia. cbn [mbind option_bind].
      rewrite (ksuf_matches_layer mem e ka s Hs). change (-8 <? 0) with true. cbn match. change (- -8) with 8. rewrite <- Hp'. apply HN'. lia.
  - exists (S N), 0, 0. split; [|right; split; [done|]; intros v; by eapply layer_absent].
    intros [|fuel] Hf; [lia|]. rewrite find_unlocked_S, HN by lia. done.
Qed.
(** [get], on the level of the layers. *)
Lemma get_layers bnd unaligned mem t root G s len : (forall a, byte_ok (mem a)) -> 0 <= len -> inv t root G ->
  exists N r, (forall fuel, (N <= fuel)%nat -> get_value bnd unaligned mem t fuel root s len = Some r) /\
    forall v, r = Some v <-> bound G (mem_bytes mem s len) v.
Proof.
  intros Hm Hl I. destruct (inv_root _ _ _ I) as (g & Hg & <-).
  destruct (find_unlocked_correct bnd unaligned mem t (gptr g) G (mem_bytes mem s len) [] g _ Hm I Hg (key_str_view unaligned mem s len Hm Hl))
    as (N & r & v & HN & Ha); [done|]. cbn [app] in Ha. exists N, (if r =? 0 then None else Some v). split.
  - intros fuel Hf. unfold get_value. by rewrite HN.
  - intros v'. destruct Ha as [[-> Ha]|[-> Ha]]; cbn; [rewrite Ha; split; congruence|]. split; [done|]. intros Hb. by destruct (Ha v').
Qed.
Lemma lookup_bound (G : gmap (list Z) glayer) (m : gmap (list Z) Z) k r : (forall k v, m !! k = Some v <-> bound G k v) ->
  (forall v, r = Some v <-> bound G k v) -> r = m !! k.
Proof. intros H Hr. apply option_eq. intros v. by rewrite Hr, H. Qed.

(** [C29]. [get] of a key in a well-formed tree returns, for every key and however many layers
    and levels the tree has: with enough fuel the answer is the value that the map the tree
    stands for has at the key's string, or none if the map has none. *)
Theorem get_correct bnd unaligned mem t root m s len : (forall a, byte_ok (mem a)) -> 0 <= len ->
  stands_for t root m ->
  exists N, forall fuel, (N <= fuel)%nat -> get_value bnd unaligned mem t fuel root s len = Some (m !! mem_bytes mem s len).
Proof.
  intros Hm Hl (G & I & HG). destruct (get_layers bnd unaligned mem t root G s len Hm Hl I) as (N & r & HN & Hr).
  exists N. intros fuel Hf. rewrite HN by done. f_equal. by eapply lookup_bound.
Qed.
End Inv.
