(* ===== verification/TreeOps.v ===== *)
(** masstree_get.hh, masstree_insert.hh, masstree_split.hh: insertion into the tree, without
    other threads: the search that fixes stale layer roots, new layers, splits up the tree.

    Addresses of new nodes come from a list [pool]; what a new node's memory holds before it
    is written is a parameter.  Locks, version words and [modstate_] are the subject of the
    component for node versions, the logging calls that of the in-line log. *)
From S2P Require Import Prelude StringSlice Permuter KSearch Internode LeafSplit MassKey Tree.

(** * Writing the memory *)

Definition put_leaf (n : Z) (l : leaf) (t : tree) : tree :=
  {| leaves := <[n := l]> (leaves t); inodes := delete n (inodes t); parents := parents t;
     is_root := is_root t; heights := heights t |}.
Definition put_inode (n : Z) (x : internode) (t : tree) : tree :=
  {| leaves := delete n (leaves t); inodes := <[n := x]> (inodes t); parents := parents t;
     is_root := is_root t; heights := heights t |}.
Definition put_parents (pa : Z -> Z) (t : tree) : tree :=
  {| leaves := leaves t; inodes := inodes t; parents := pa; is_root := is_root t; heights := heights t |}.
Definition put_root (n : Z) (b : bool) (t : tree) : tree :=
  {| leaves := leaves t; inodes := inodes t; parents := parents t; is_root := <[n := b]> (is_root t); heights := heights t |}.
Definition put_height (n h : Z) (t : tree) : tree :=
  {| leaves := leaves t; inodes := inodes t; parents := parents t; is_root := is_root t; heights := <[n := h]> (heights t) |}.
(** A root bit, the value word of a slot, and a slot that becomes a layer. *)
Definition with_lv (e : entry) (v : Z) : entry :=
  {| ikey0 := ikey0 e; keylenx := keylenx e; lv := v; ksuf := ksuf e |}.
Definition set_lv (l : leaf) (p v : Z) : leaf := set_slot l p (with_lv (slot l p) v).
Definition as_layer (e : entry) (v : Z) : entry :=
  {| ikey0 := ikey0 e; keylenx := layer_keylenx; lv := v; ksuf := ksuf e |}.
Definition upd_leaf (n : Z) (f : leaf -> leaf) (t : tree) : option tree :=
  l ← leaves t !! n; Some (put_leaf n (f l) t).

Section Ops.
Context (bound : key_bound_type) (unaligned : bool) (lw iw : Z) (mem : Z -> Z).
(** The slots of a leaf and the arrays of an interior node before they are written. *)
Context (uninit_slot : Z -> entry) (uninit_node : internode).

(** [leaf::make], [leaf::make_root], [internode::make]. *)
Definition make_leaf (n : Z) (t : tree) : tree :=
  put_root n false (put_parents (<[n := 0]> (parents t))
    (put_leaf n {| permutation_ := make_empty lw; slot := uninit_slot; next_ := 0; prev_ := 0 |} t)).
Definition make_layer_root (n : Z) (t : tree) : tree := put_root n true (put_parents (<[n := 0]> (parents t)) t).
Definition make_root (n : Z) (l : leaf) (t : tree) : tree :=
  make_layer_root n (put_leaf n (set_links l 0 0) (make_leaf n t)).
Definition make_inode (n h : Z) (t : tree) : tree :=
  put_height n h (put_root n false (put_parents (<[n := 0]> (parents t)) (put_inode n (set_nkeys uninit_node 0) t))).

(** [basic_table::initialize]: the tree whose root is the new leaf [n]. *)
Definition no_tree : tree := {| leaves := ∅; inodes := ∅; parents := fun _ => 0; is_root := fun _ => false; heights := fun _ => 0 |}.
Definition initialize (n : Z) : tree :=
  make_root n {| permutation_ := make_empty lw; slot := uninit_slot; next_ := 0; prev_ := 0 |} no_tree.

(** [basic_table::fix_root]. *)
Definition fix_root (root : Z) (t : tree) : Z := if is_root t root then root else maybe_parent t root.

(** [find_locked]: the tree (a slot whose layer's root has moved up is redirected), the
    leaf, the position, the match, and the key shifted to the layer. *)
Fixpoint find_locked (fuel : nat) (ka : key) (root : Z) (t : tree)
    : option (tree * Z * key_indexed_position * Z * key) :=
  match fuel with
  | O => None
  | S fuel' =>
      n ← reach_leaf bound t fuel ka root;
      l ← leaves t !! n;
      kx ← leaf_lower bound l ka;
      if 0 <=? kx_p kx then
        let e := slot l (kx_p kx) in
        let state := ksuf_matches mem e ka in
        if state <? 0 then
          let ka := shift_by unaligned 8 mem (- state) ka in
          if is_root t (lv e) then find_locked fuel' ka (lv e) t
          else let root := maybe_parent t (lv e) in
               find_locked fuel' ka root (put_leaf n (set_lv l (kx_p kx) root) t)
        else Some (t, n, kx, state, ka)
      else Some (t, n, kx, 0, ka)
  end.

(** ** New layers *)

(** The memory in which a stored suffix is a string at address 0. *)
Definition suffix_mem (l : list Z) (a : Z) : Z := get l a.
Definition assign_initialize_for_layer (e : entry) (ka : key) : entry :=
  {| ikey0 := ikey ka; keylenx := layer_keylenx; lv := lv e; ksuf := ksuf e |}.

(** The twig of leaves with one layer each, until the two keys differ.  [head] and [tail]
    are [n] while there is no twig. *)
Fixpoint twig (fuel : nat) (smem : Z -> Z) (n head tail : Z) (oka ka : key) (t : tree) (pool : list Z)
    : option (Z * Z * key * key * tree * list Z) :=
  match fuel with
  | O => None
  | S fuel =>
      if compare_keys 8 oka ka =? 0 then
        match pool with
        | [] => None
        | a :: pool =>
            let l := {| permutation_ := make_empty lw; slot := <[0 := assign_initialize_for_layer (uninit_slot 0) oka]> uninit_slot;
                        next_ := 0; prev_ := 0 |} in
            let t := make_root a l t in
            t ← if negb (head =? n) then upd_leaf tail (fun l => set_lv l 0 a) t else Some t;
            let head := if negb (head =? n) then head else a in
            let t := put_leaf a (set_perm l (kpermuter lw (make_sorted lw 1))) t in
            twig fuel smem n head a (shift unaligned 8 smem oka) (shift unaligned 8 mem ka) t pool
        end
      else Some (head, tail, oka, ka, t, pool)
  end.

(** [make_new_layer]: the new leaf and the position in it. *)
Definition make_new_layer (fuel : nat) (n p : Z) (ka : key) (t : tree) (pool : list Z)
    : option (tree * list Z * Z * key_indexed_position) :=
  l ← leaves t !! n;
  let e := slot l p in
  let smem := suffix_mem (ksuf e) in
  let oka := key_str unaligned 8 smem 0 (Z.of_nat (List.length (ksuf e))) in
  let ka := shift unaligned 8 mem ka in
  '(head, tail, oka, ka, t, pool) ← twig fuel smem n n n oka ka t pool;
  match pool with
  | [] => None
  | a :: pool =>
      let kcmp := compare_keys 8 oka ka in
      let eo := assign_key smem oka in
      let ek := assign_key mem ka in
      let s := <[0 := if kcmp <? 0 then eo else ek]> uninit_slot in
      let s := <[1 := if kcmp <? 0 then ek else eo]> s in
      let q := b2z (0 <? kcmp) in
      let s := <[q := with_lv (s q) (lv e)]> s in
      let perm := if kcmp <? 0 then kpermuter lw (make_sorted lw 1)
                  else remove_to_back lw (kpermuter lw (make_sorted lw 2)) 0 in
      let t := make_root a {| permutation_ := perm; slot := s; next_ := 0; prev_ := 0 |} t in
      t ← if negb (tail =? n) then upd_leaf tail (fun l => set_lv l 0 a) t else Some t;
      let v := if negb (head =? n) then head else a in
      t ← upd_leaf n (fun l => set_slot l p (as_layer (slot l p) v)) t;
      let i := b2z (kcmp <? 0) in
      Some (t, pool, a, {| kx_i := i; kx_p := i |})
  end.

(** ** Splits *)

(** The part of a turn of the loop of [make_split] that puts [child] behind [n] into the
    parent: the tree, and the split-off half of the parent with its key if it was full. *)
Definition insert_up (t : tree) (pool : list Z) (n child xikey split_type height : Z)
    : option (tree * list Z * option (Z * Z)) :=
  let p := parents t n in
  if p =? 0 then
    match pool with
    | [] => None
    | a :: pool =>
        let t := make_inode a (height + 1) t in
        let '(nn, _, pa) := new_parent a n xikey child (-1) 0 (set_nkeys uninit_node 0) uninit_node (parents t) in
        Some (put_root a true (put_parents pa (put_inode a nn t)), pool, None)
    end
  else
    x ← inodes t !! p;
    kp ← upper bound (Sized (nkeys_ x)) (fun i => compare xikey (Internode.ikey0_ x i));
    if height + 1 <? heights t p then
      match pool with
      | [] => None
      | a :: pool =>
          let t := make_inode a (height + 1) t in
          let '(nn, x, pa) := new_parent a n xikey child kp p (set_nkeys uninit_node 0) x (parents t) in
          Some (put_parents pa (put_inode p x (put_inode a nn t)), pool, None)
      end
    else if iw <=? Internode.size x then
      match pool with
      | [] => None
      | a :: pool =>
          let t := make_inode a (height + 1) t in
          match insert_child iw p a kp xikey child split_type x (set_nkeys uninit_node 0) (parents t) with
          | (x, Some (nr, split_ikey), pa) =>
              Some (put_root p false (put_parents pa (put_inode p x (put_inode a nr t))), pool, Some (a, split_ikey))
          | _ => None
          end
      end
    else
      match insert_child iw p 0 kp xikey child split_type x uninit_node (parents t) with
      | (x, None, pa) => Some (put_parents pa (put_inode p x t), pool, None)
      | _ => None
      end.

(** The part of the first turn that finishes the two leaves. *)
Definition finish_leaves (t : tree) (n nr split_type i : Z) (ka : entry) : option (tree * Z * key_indexed_position) :=
  l ← leaves t !! n;
  r ← leaves t !! nr;
  let '(l, r, moved, i, p) := finish_split lw l r split_type i ka in
  Some (put_root n false (put_leaf nr r (put_leaf n l t)), if moved then nr else n, {| kx_i := i; kx_p := p |}).

(** The loop; [cur] is the leaf and the position of the new key. *)
Fixpoint split_loop (fuel : nat) (t : tree) (pool : list Z) (n child xikey split_type height : Z) (ka : entry)
    (cur : Z * key_indexed_position) : option (tree * list Z * (Z * key_indexed_position)) :=
  match fuel with
  | O => None
  | S fuel =>
      let p := parents t n in
      '(t, pool, next) ← insert_up t pool n child xikey split_type height;
      '(t, cur) ← match leaves t !! n with
                  | Some _ => '(t, m, kx) ← finish_leaves t n child split_type (kx_i cur.2) ka; Some (t, (m, kx))
                  | None => Some (t, cur)
                  end;
      match next with
      | Some (next_child, xikey) => split_loop fuel t pool p next_child xikey split_type (height + 1) ka cur
      | None => Some (t, pool, cur)
      end
  end.

(** [make_split] of the leaf [n] for the key [ka] at position [i]. *)
Definition make_split (fuel : nat) (n i : Z) (ka : entry) (t : tree) (pool : list Z)
    : option (tree * list Z * (Z * key_indexed_position)) :=
  l ← leaves t !! n;
  match make_split_reuse lw l with
  | Some (l, p) => Some (put_leaf n (set_slot l p ka) t, pool, (n, {| kx_i := i; kx_p := p |}))
  | None =>
      match pool with
      | [] => None
      | a :: pool =>
          let t := put_root a (is_root t n) (make_leaf a t) in
          r ← leaves t !! a;
          '(l, r, xikey, split_type) ← LeafSplit.split_into lw n a l r i ka;
          let t := put_leaf a r (put_leaf n l t) in
          t ← if next_ r =? 0 then Some t else upd_leaf (next_ r) (fun l => set_links l (next_ l) a) t;
          split_loop fuel t pool n a xikey split_type 0 ka (n, {| kx_i := i; kx_p := 0 |})
      end
  end.

(** ** [find_insert], the caller's store, [finish] *)

(** The part that finds a free slot for a key that is not in the leaf. *)
Definition place_key (fuel : nat) (n i : Z) (ka : key) (t : tree) (pool : list Z)
    : option (tree * list Z * (Z * key_indexed_position)) :=
  l ← leaves t !! n;
  let e := assign_key mem ka in
  let p := back lw (permutation_ l) in
  if (lsize l <? lw) && (negb (p =? 0) || (prev_ l =? 0) || (ikey0 (slot l 0) =? ikey ka))
  then Some (put_leaf n (set_slot l p e) t, pool, (n, {| kx_i := i; kx_p := p |}))
  else make_split fuel n i e t pool.

(** The tree, the leaf, the position and the state: 1 found, 2 inserted. *)
Definition find_insert (fuel : nat) (ka : key) (root : Z) (t : tree) (pool : list Z)
    : option (tree * list Z * Z * key_indexed_position * Z) :=
  '(t, n, kx, state, ka) ← find_locked fuel ka root t;
  if negb (state =? 0) then Some (t, pool, n, kx, state)
  else if 0 <=? kx_p kx then
    '(t, pool, n, kx) ← make_new_layer fuel n (kx_p kx) ka t pool;
    Some (t, pool, n, kx, 2)
  else
    '(t, pool, (n, kx)) ← place_key fuel n (kx_i kx) ka t pool;
    Some (t, pool, n, kx, 2).

(** [query::run_replace]: the new value is stored in the slot and the cursor finished.
    Returns the table's root pointer and whether the key was there. *)
Definition put (fuel : nat) (root s len v : Z) (t : tree) (pool : list Z)
    : option (tree * list Z * Z * bool) :=
  let root := fix_root root t in
  '(t, pool, n, kx, state) ← find_insert fuel (key_str unaligned 8 mem s len) root t pool;
  t ← upd_leaf n (fun l => set_lv l (kx_p kx) v) t;
  if state =? 2 then
    l ← leaves t !! n;
    l ← finish_insert lw l (kx_i kx) (kx_p kx);
    Some (put_leaf n l t, pool, root, false)
  else Some (t, pool, root, true).
End Ops.
