(* ===== verification/TreeRemove.v ===== *)
(** masstree_remove.hh: removal of a key, without other threads.

    A leaf that becomes empty is unlinked from its neighbours and taken out of its parents;
    an interior node that is left with one child or none goes with it, and the child takes
    its place.  A key that no longer has a child to its left moves up over the key that
    separated the removed leaf ([redirect]).  What is freed later is returned as a list of
    registrations with the read-copy-update. *)
From S2P Require Import Prelude StringSlice Permuter KSearch Internode LeafSplit MassKey Tree TreeOps.

Definition set_key (x : internode) (i k : Z) : internode :=
  {| nkeys_ := nkeys_ x; Internode.ikey0_ := <[i := k]> (Internode.ikey0_ x); child_ := child_ x |}.

(** A node or a row to free, and a layer to look at for garbage: the root and the prefix. *)
Inductive garbage := Node (a : Z) | Row (v : Z) | Layer (root : Z) (prefix : list Z).

Section Remove.
Context (bound : key_bound_type) (unaligned : bool) (lw : Z) (mem : Z -> Z).

(** [redirect]: the key that separates [n] from what is before it. *)
Fixpoint redirect (fuel : nat) (n ikey replacement : Z) (t : tree) : option tree :=
  match fuel with
  | O => None
  | S fuel =>
      let p := parents t n in
      x ← inodes t !! p;
      kp ← upper bound (Sized (nkeys_ x)) (fun i => compare ikey (Internode.ikey0_ x i));
      let t := if 0 <? kp then put_inode p (set_key x (kp - 1) replacement) t else t in
      if (kp =? 0) || (kp =? 1) && (child_ x 0 =? 0) then redirect fuel p ikey replacement t else Some t
  end.

(** One turn of the loop of [remove_leaf]: the tree, the key, and the node that goes next
    with the child that takes its place. *)
Definition remove_turn (fuel : nat) (n replacement ikey : Z) (t : tree) : option (tree * Z * option (Z * Z)) :=
  let p := parents t n in
  x ← inodes t !! p;
  kp ← upper bound (Sized (nkeys_ x)) (fun i => compare ikey (Internode.ikey0_ x i));
  let x := set_child x kp replacement in
  let t := if negb (replacement =? 0) then put_parents (set_parent replacement p (parents t)) t else t in
  let x := if negb (replacement =? 0) then x
           else if 0 <? kp then set_nkeys (shift_down (kp - 1) kp (nkeys_ x - kp) x) (nkeys_ x - 1) else x in
  let t := put_inode p x t in
  '(t, ikey) ← if (kp <=? 1) && (0 <? nkeys_ x) && (child_ x 0 =? 0)
               then t ← redirect fuel p ikey (Internode.ikey0_ x 0) t; Some (t, Internode.ikey0_ x 0)
               else Some (t, ikey);
  if (b2z (child_ x 0 =? 0) <? nkeys_ x) || is_root t p then Some (t, ikey, None)
  else Some (put_inode p (set_child x (nkeys_ x) 0) t, ikey, Some (p, child_ x (nkeys_ x))).
Fixpoint remove_loop (fuel : nat) (n replacement ikey : Z) (t : tree) : option (tree * list garbage) :=
  match fuel with
  | O => None
  | S fuel' =>
      '(t, ikey, next) ← remove_turn fuel n replacement ikey t;
      match next with
      | None => Some (t, [])
      | Some (p, c) => '(t, l) ← remove_loop fuel' p c ikey t; Some (t, Node p :: l)
      end
  end.

(** [btree_leaflink::unlink], whose accesses are the subject of the component for the links. *)
Definition unlink (n : Z) (t : tree) : option tree :=
  l ← leaves t !! n;
  t ← if next_ l =? 0 then Some t else upd_leaf (next_ l) (fun b => set_links b (next_ b) (prev_ l)) t;
  upd_leaf (prev_ l) (fun b => set_links b (next_ l) (prev_ b)) t.

(** [remove_leaf] for the empty leaf [n]. *)
Definition remove_leaf (fuel : nat) (n root : Z) (prefix : list Z) (t : tree) : option (tree * list garbage) :=
  l ← leaves t !! n;
  if prev_ l =? 0 then
    Some (t, if (next_ l =? 0) && negb (Z.of_nat (List.length prefix) =? 0) then [Layer root prefix] else [])
  else
    t ← unlink n t;
    '(t, freed) ← remove_loop fuel n 0 (ikey0 (slot l 0)) t;
    Some (t, Node n :: freed).

Definition finish_remove (fuel : nat) (n i root : Z) (prefix : list Z) (t : tree) : option (tree * list garbage) :=
  l ← leaves t !! n;
  let l := set_perm l (remove lw (permutation_ l) i) in
  let t := put_leaf n l t in
  if lsize l =? 0 then remove_leaf fuel n root prefix t else Some (t, []).

(** [query::run_remove]: the table's root pointer, whether the key was there, and what is
    to be freed. *)
Definition remove_key (fuel : nat) (root s len : Z) (t : tree) : option (tree * Z * bool * list garbage) :=
  let root := fix_root root t in
  '(t, n, kx, state, ka) ← find_locked bound unaligned mem fuel (key_str unaligned 8 mem s len) root t;
  if state =? 1 then
    l ← leaves t !! n;
    '(t, freed) ← finish_remove fuel n (kx_i kx) root (mem_bytes mem (prefix_string ka).1 (prefix_string ka).2) t;
    Some (t, root, true, Row (lv (slot l (kx_p kx))) :: freed)
  else Some (t, root, negb (state =? 0), []).

(** ** The collection of an empty layer

    The loop of [gc_layer] at slot [p] of the leaf [n]: roots that the slot does not know yet,
    then interior nodes without a key, whose only child becomes the root, then an empty leaf. *)
Definition is_layer (e : entry) : bool := 127 <? keylenx e.
Fixpoint gc_loop (fuel : nat) (n p : Z) (t : tree) : option (tree * bool * list garbage) :=
  match fuel with
  | O => None
  | S fuel =>
      l ← leaves t !! n;
      let layer := lv (slot l p) in
      if negb (is_root t layer) then gc_loop fuel n p (put_leaf n (set_lv l p (maybe_parent t layer)) t)
      else match leaves t !! layer with
           | Some lf => Some (t, lsize lf =? 0, if lsize lf =? 0 then [Node layer] else [])
           | None =>
               x ← inodes t !! layer;
               if 0 <? nkeys_ x then Some (t, false, [])
               else
                 let child := child_ x 0 in
                 let t := put_leaf n (set_lv l p child) (make_layer_root child t) in
                 let t := put_parents (<[layer := child]> (parents t)) t in
                 '(t, done, freed) ← gc_loop fuel n p t;
                 Some (t, done, Node layer :: freed)
           end
  end.

(** [gc_layer]: the tree, the leaf, the position and the key of the cursor, and whether the
    layer is gone. *)
Definition gc_layer (fuel : nat) (ka : key) (root : Z) (t : tree) : option (tree * Z * Z * key * bool * list garbage) :=
  '(t, n, kx, state, ka) ← find_locked bound unaligned mem fuel ka root t;
  if has_suffix 8 ka then Some (t, n, kx_i kx, ka, false, [])
  else
    l ← leaves t !! n;
    let i := kx_i kx + b2z (0 <=? kx_p kx) in
    let p := elem (permutation_ l) i in
    if (lsize l <=? i) || negb (ikey0 (slot l p) =? ikey ka) || negb (is_layer (slot l p)) then Some (t, n, i, ka, false, [])
    else '(t, done, freed) ← gc_loop fuel n p t; Some (t, n, i, ka, done, freed).

(** [gc_layer_rcu_callback]: the root it was registered with may have a root above it now. *)
Definition gc_callback (fuel : nat) (root s len : Z) (t : tree) : option (tree * list garbage) :=
  root ← true_root t fuel root;
  '(t, n, i, ka, gone, freed) ← gc_layer fuel (key_str unaligned 8 mem s len) root t;
  if gone : bool then
    '(t, l) ← finish_remove fuel n i root (mem_bytes mem (prefix_string ka).1 (prefix_string ka).2) t;
    Some (t, l ++ freed)
  else Some (t, freed).
End Remove.

(** * The destruction of a tree

    The queue runs through the parent pointers of the nodes that wait; here it is a list. *)
Section Destroy.
Definition enqueued (t : tree) (n : Z) : option (list Z) :=
  match leaves t !! n with
  | Some l => Some (map (fun i => lv (nth_entry l i)) (filter (fun i => is_layer (nth_entry l i) = true) (seqZ 0 (lsize l))))
  | None => x ← inodes t !! n; Some (filter (fun c => c <> 0) (kids x))
  end.
Fixpoint destroy_loop (fuel : nat) (workq : list Z) (t : tree) : option (list garbage) :=
  match workq, fuel with
  | [], _ => Some []
  | _, O => None
  | n :: workq, S fuel =>
      more ← enqueued t n;
      freed ← destroy_loop fuel (workq ++ more) t;
      Some (Node n :: freed)
  end.
(** [destroy_rcu_callback]: it climbs to the root and, after the readers of that time are gone,
    frees the tree. *)
Definition destroy (fuel : nat) (root : Z) (t : tree) : option (list garbage) :=
  root ← true_root t fuel root; destroy_loop fuel [root] t.
End Destroy.
