(* ===== verification/TreeScan.v ===== *)
(** masstree_scan.hh: scans in either direction, without other threads.

    A scan keeps the key it has come to in a buffer of its own; the buffer is memory, and a
    write outside of it gives [None].  [reverse_scan_helper] has a flag, [forward_scan_helper]
    has no state.  The states of the loop are the source's; the loops have fuel. *)
From S2P Require Import Prelude StringSlice Permuter KSearch Internode LeafSplit MassKey Tree.

(** [scanstackelt]; the stack has the roots and the leaves of the layers above. *)
Record scanstackelt := { scan_root_ : Z; n_ : Z; perm_ : Z; ki_ : Z; node_stack_ : list Z }.
Inductive scan_state := scan_emit | scan_find_next | scan_down | scan_up | scan_retry.
#[export] Instance scan_state_eq_dec : EqDecision scan_state.
Proof. solve_decision. Defined.
Definition scan_size (s : scanstackelt) : Z := Permuter.size (perm_ s).
Definition scan_kp (s : scanstackelt) : Z := if wrap 32 (ki_ s) <? wrap 32 (scan_size s) then Permuter.elem (perm_ s) (ki_ s) else -1.
Definition set_ki (s : scanstackelt) (i : Z) : scanstackelt :=
  {| scan_root_ := scan_root_ s; n_ := n_ s; perm_ := perm_ s; ki_ := i; node_stack_ := node_stack_ s |}.
Definition set_leaf (s : scanstackelt) (n p i : Z) : scanstackelt :=
  {| scan_root_ := scan_root_ s; n_ := n; perm_ := p; ki_ := i; node_stack_ := node_stack_ s |}.
(** A layer is entered: the root and the leaf are kept. *)
Definition push_layer (s : scanstackelt) (root : Z) : scanstackelt :=
  {| scan_root_ := root; n_ := n_ s; perm_ := perm_ s; ki_ := ki_ s; node_stack_ := n_ s :: scan_root_ s :: node_stack_ s |}.

Section Scan.
Context (bound : key_bound_type) (unaligned : bool) (maxkeylen keybuf : Z) (t : tree).

(** The buffer, rounded up to whole slices, and writes to it. *)
Definition keybuf_size : Z := (maxkeylen + 8 - 1) / 8 * 8.
Definition store_bytes (p : Z) (l : list Z) (buf : Z -> Z) : option (Z -> Z) :=
  if (keybuf <=? p) && (p + Z.of_nat (List.length l) <=? keybuf + keybuf_size) then Some (write_bytes buf p l) else None.
Definition store_ikey (ka : key) (i : Z) (buf : Z -> Z) : option (key * (Z -> Z)) :=
  buf ← store_bytes (s_ ka) (le_bytes 8 (host_to_net_order 8 i)) buf;
  Some ((assign_store_ikey 8 buf ka i).1, buf).
Definition store_suffix (ka : key) (s : list Z) (buf : Z -> Z) : option (Z * (Z -> Z)) :=
  buf ← store_bytes (s_ ka + 8) s buf; Some (8 + Z.of_nat (List.length s), buf).

(** [lower_by] with the permutation that the scan has read. *)
Definition lower_scan (s : scanstackelt) (ka : key) : option key_indexed_position :=
  l ← leaves t !! n_ s; lower_by bound (Permuted (perm_ s)) (compare_leaf l ka).

(** What the two directions differ in. *)
Class scan_helper (H : Type) := {
  initial_ksuf_match : H -> Z -> bool -> bool;
  is_duplicate : H -> key -> Z -> Z -> bool;
  lower : H -> key -> scanstackelt -> option Z;
  lower_with_position : H -> key -> scanstackelt -> option key_indexed_position;
  found : H -> H;
  next : H -> Z -> Z;
  advance : H -> Z -> key -> (Z -> Z) -> option (Z * key * (Z -> Z));
  stable : H -> nat -> Z -> key -> option Z;
  helper_shift_clear : H -> key -> key * H
}.

#[local] Instance forward_scan_helper : scan_helper unit := {|
  initial_ksuf_match _ ksuf_compare emit_equal := (0 <? ksuf_compare) || (ksuf_compare =? 0) && emit_equal;
  is_duplicate _ k ikey keylenx := 0 <=? key_compare 8 k ikey keylenx;
  lower _ k s := kx ← lower_scan s k; Some (kx_i kx);
  lower_with_position _ k s := lower_scan s k;
  found h := h;
  next _ ki := ki + 1;
  advance _ n k buf := l ← leaves t !! n; Some (next_ l, k, buf);
  stable _ _ n _ := Some n;
  helper_shift_clear h ka := (shift_clear 8 ka, h)
|}.

Fixpoint stable_reverse (fuel : nat) (n : Z) (k : key) : option Z :=
  match fuel with
  | O => None
  | S fuel =>
      l ← leaves t !! n;
      if next_ l =? 0 then Some n
      else
        nl ← leaves t !! next_ l;
        let cmp := compare (ikey k) (ikey0 (slot nl 0)) in
        if (cmp <? 0) || (cmp =? 0) && (length k =? 0) then Some n else stable_reverse fuel (next_ l) k
  end.
(** The state is [upper_bound_]. *)
#[local] Instance reverse_scan_helper : scan_helper bool := {|
  initial_ksuf_match _ ksuf_compare emit_equal := (ksuf_compare <? 0) || (ksuf_compare =? 0) && emit_equal;
  is_duplicate upper_bound_ k ikey keylenx := (key_compare 8 k ikey keylenx <=? 0) && negb upper_bound_;
  lower upper_bound_ k s :=
    if upper_bound_ then Some (scan_size s - 1)
    else kx ← lower_scan s k; Some (kx_i kx - b2z (kx_p kx <? 0));
  lower_with_position _ k s :=
    kx ← lower_scan s k; Some {| kx_i := kx_i kx - b2z (kx_p kx <? 0); kx_p := kx_p kx |};
  found _ := false;
  next _ ki := ki - 1;
  advance _ n k buf :=
    l ← leaves t !! n;
    '(k, buf) ← store_ikey k (ikey0 (slot l 0)) buf;
    Some (prev_ l, assign_store_length k 0, buf);
  stable _ fuel n k := stable_reverse fuel n k;
  helper_shift_clear _ ka := (shift_clear_reverse 8 ka, true)
|}.

(** What the functions of a scan change. *)
Record cursor (H : Type) := { helper_ : H; stack_ : scanstackelt; ka_ : key; buf_ : Z -> Z; entry_ : Z }.
#[global] Arguments helper_ {H}.
#[global] Arguments stack_ {H}.
#[global] Arguments ka_ {H}.
#[global] Arguments buf_ {H}.
#[global] Arguments entry_ {H}.

(** The order of strings, as [Str::compare]; what a scanner does with leaves and values. *)
Record scanner (A : Type) := { visit_leaf : scanstackelt -> key -> A -> A; visit_value : list Z -> Z -> A -> A * bool }.
#[global] Arguments visit_leaf {A}.
#[global] Arguments visit_value {A}.

Section Direction.
Context {H : Type} `{!scan_helper H}.
Definition with_stack (c : cursor H) (s : scanstackelt) : cursor H :=
  {| helper_ := helper_ c; stack_ := s; ka_ := ka_ c; buf_ := buf_ c; entry_ := entry_ c |}.
Definition with_key (c : cursor H) (k : key) (buf : Z -> Z) : cursor H :=
  {| helper_ := helper_ c; stack_ := stack_ c; ka_ := k; buf_ := buf; entry_ := entry_ c |}.
Definition with_entry (c : cursor H) (v : Z) : cursor H :=
  {| helper_ := helper_ c; stack_ := stack_ c; ka_ := ka_ c; buf_ := buf_ c; entry_ := v |}.
Definition with_helper (c : cursor H) (h : H) : cursor H :=
  {| helper_ := h; stack_ := stack_ c; ka_ := ka_ c; buf_ := buf_ c; entry_ := entry_ c |}.

Definition find_initial (fuel : nat) (emit_equal : bool) (c : cursor H) : option (scan_state * cursor H) :=
  let s := stack_ c in
  n ← reach_leaf bound t fuel (ka_ c) (scan_root_ s);
  l ← leaves t !! n;
  let s := set_leaf s n (permutation_ l) (ki_ s) in
  kx ← lower_with_position (helper_ c) (ka_ c) s;
  let s := set_ki s (kx_i kx) in
  if 0 <=? kx_p kx then
    let e := slot l (kx_p kx) in
    let c := with_entry (with_stack c s) (lv e) in
    let skip := Some (scan_find_next, with_stack c (set_ki s (next (helper_ c) (kx_i kx)))) in
    if keylenx e =? layer_keylenx then Some (scan_down, with_stack c (push_layer s (lv e)))
    else if keylenx e =? ksuf_keylenx then
      if maxkeylen <? Z.of_nat (List.length (ksuf e)) then None
      else if initial_ksuf_match (helper_ c) (lex_compare (ksuf e) (mem_bytes (buf_ c) (suffix 8 (ka_ c)).1 (suffix 8 (ka_ c)).2)) emit_equal then
        '(keylen, buf) ← store_suffix (ka_ c) (ksuf e) (buf_ c);
        Some (scan_emit, with_key c (assign_store_length (ka_ c) keylen) buf)
      else skip
    else if emit_equal then Some (scan_emit, c) else skip
  else Some (scan_find_next, with_stack c s).

Definition find_retry (fuel : nat) (c : cursor H) : option (scan_state * cursor H) :=
  n ← reach_leaf bound t fuel (ka_ c) (scan_root_ (stack_ c));
  l ← leaves t !! n;
  let s := set_leaf (stack_ c) n (permutation_ l) (ki_ (stack_ c)) in
  ki ← lower (helper_ c) (ka_ c) s;
  Some (scan_find_next, with_stack c (set_ki s ki)).

(** The step to the leaf that [stable] gives, as after [changed] and after [unshift]. *)
Definition enter_leaf (fuel : nat) (n : Z) (c : cursor H) : option (cursor H) :=
  n ← stable (helper_ c) fuel n (ka_ c);
  l ← leaves t !! n;
  let s := set_leaf (stack_ c) n (permutation_ l) (ki_ (stack_ c)) in
  ki ← lower (helper_ c) (ka_ c) s;
  Some (with_stack c (set_ki s ki)).

Fixpoint find_next (fuel : nat) (c : cursor H) : option (scan_state * cursor H) :=
  match fuel with
  | O => None
  | S fuel =>
      let s := stack_ c in
      l ← leaves t !! n_ s;
      let kp := scan_kp s in
      if 0 <=? kp then
        let e := slot l kp in
        let c := with_entry c (lv e) in
        '(keylen, buf) ← (if keylenx e =? ksuf_keylenx then store_suffix (ka_ c) (ksuf e) (buf_ c) else Some (keylenx e, buf_ c));
        let c := with_key c (ka_ c) buf in
        if is_duplicate (helper_ c) (ka_ c) (ikey0 e) (keylenx e) then
          find_next fuel (with_stack c (set_ki s (next (helper_ c) (ki_ s))))
        else
          '(k, buf) ← store_ikey (ka_ c) (ikey0 e) (buf_ c);
          let c := with_helper (with_key c k buf) (found (helper_ c)) in
          if keylenx e =? layer_keylenx then Some (scan_down, with_stack c (push_layer s (lv e)))
          else Some (scan_emit, with_key c (assign_store_length k keylen) buf)
      else
        '(n, k, buf) ← advance (helper_ c) (n_ s) (ka_ c) (buf_ c);
        let c := with_key (with_stack c (set_leaf s n (perm_ s) (ki_ s))) k buf in
        if n =? 0 then Some (scan_up, c)
        else c ← enter_leaf fuel n c; Some (scan_find_next, c)
  end.

(** The loop of [scan_up]: none when the stack is empty, which ends the scan. *)
Fixpoint climb_up (fuel : nat) (c : cursor H) : option (option (cursor H)) :=
  match fuel with
  | O => None
  | S fuel =>
      let s := stack_ c in
      match node_stack_ s with
      | [] => Some None
      | n :: l =>
          root ← head l;
          let s := {| scan_root_ := root; n_ := n; perm_ := perm_ s; ki_ := ki_ s; node_stack_ := tail l |} in
          let c := with_key (with_stack c s) (unshift unaligned 8 (buf_ c) (ka_ c)) (buf_ c) in
          if empty (ka_ c) then climb_up fuel c else Some (Some c)
      end
  end.

Section Visitor.
Context {A : Type} (F : scanner A).

Definition next_case (fuel : nat) (c : cursor H) (a : A) : option (scan_state * cursor H * A) :=
  '(st, c) ← find_next fuel c;
  Some (st, c, match st with scan_up => a | _ => visit_leaf F (stack_ c) (ka_ c) a end).
(** The main loop: the number of values visited, and the scanner at the end. *)
Fixpoint scan_loop (fuel : nat) (st : scan_state) (c : cursor H) (count : Z) (a : A) : option (Z * A) :=
  match fuel with
  | O => None
  | S fuel =>
      match st with
      | scan_emit =>
          let '(a, go) := visit_value F (mem_bytes (buf_ c) (full_string (ka_ c)).1 (full_string (ka_ c)).2) (entry_ c) a in
          if go then
            '(st, c) ← find_next fuel (with_stack c (set_ki (stack_ c) (next (helper_ c) (ki_ (stack_ c)))));
            scan_loop fuel st c (count + 1) a
          else Some (count + 1, a)
      | scan_find_next => '(st, c, a) ← next_case fuel c a; scan_loop fuel st c count a
      | scan_up =>
          up ← climb_up fuel c;
          match up with
          | None => Some (count, a)
          | Some c =>
              c ← enter_leaf fuel (n_ (stack_ c)) c;
              '(st, c, a) ← next_case fuel c a; scan_loop fuel st c count a
          end
      | scan_down =>
          let '(k, h) := helper_shift_clear (helper_ c) (ka_ c) in
          '(st, c) ← find_retry fuel (with_helper (with_key c k (buf_ c)) h); scan_loop fuel st c count a
      | scan_retry => '(st, c) ← find_retry fuel c; scan_loop fuel st c count a
      end
  end.
(** The descent to the first key. *)
Fixpoint initial_loop (fuel : nat) (emit_firstkey : bool) (c : cursor H) (a : A) : option (scan_state * cursor H * A) :=
  match fuel with
  | O => None
  | S fuel' =>
      '(st, c) ← find_initial fuel emit_firstkey c;
      let a := visit_leaf F (stack_ c) (ka_ c) a in
      match st with
      | scan_down => initial_loop fuel' emit_firstkey (with_key c (shift unaligned 8 (buf_ c) (ka_ c)) (buf_ c)) a
      | _ => Some (st, c, a)
      end
  end.
(** [scan]: the first key is [len] bytes at [s]. *)
Definition scan_with (h : H) (fuel : nat) (root : Z) (mem : Z -> Z) (s len : Z) (emit_firstkey : bool) (a : A) : option (Z * A) :=
  if len <=? keybuf_size then
    buf ← store_bytes keybuf (mem_bytes mem s len) mem;
    let st := {| scan_root_ := root; n_ := 0; perm_ := 0; ki_ := 0; node_stack_ := [] |} in
    let c := {| helper_ := h; stack_ := st; ka_ := key_str unaligned 8 buf keybuf len; buf_ := buf; entry_ := 0 |} in
    '(st, c, a) ← initial_loop fuel emit_firstkey c a;
    scan_loop fuel st c 0 a
  else None.
End Visitor.
End Direction.

Definition scan {A} (F : scanner A) : nat -> Z -> (Z -> Z) -> Z -> Z -> bool -> A -> option (Z * A) := scan_with F tt.
Definition rscan {A} (F : scanner A) : nat -> Z -> (Z -> Z) -> Z -> Z -> bool -> A -> option (Z * A) := scan_with F false.
End Scan.

(** kvrow.hh: the scanner of a request for a number of rows.  What it adds to the request is
    a key and a row for each; rows that are markers are passed over. *)
Section Query.
Context (marker : Z -> bool).
Record json_scanner := { nleft_ : Z; rows_ : list (list Z * Z) }.
Definition query_json_scanner : scanner json_scanner := {|
  visit_leaf _ _ a := a;
  visit_value key value a :=
    if marker value then (a, true)
    else
      let a := {| nleft_ := nleft_ a - 1; rows_ := rows_ a ++ [(key, value)] |} in
      (a, negb (nleft_ a =? 0))
|}.
Definition run_scan (bound : key_bound_type) (unaligned : bool) (maxkeylen keybuf : Z) (t : tree) (fuel : nat) (root : Z)
    (mem : Z -> Z) (s len n : Z) : option (list (list Z * Z)) :=
  '(_, a) ← scan bound unaligned maxkeylen keybuf t query_json_scanner fuel root mem s len true {| nleft_ := n; rows_ := [] |};
  Some (rows_ a).
Definition run_rscan (bound : key_bound_type) (unaligned : bool) (maxkeylen keybuf : Z) (t : tree) (fuel : nat) (root : Z)
    (mem : Z -> Z) (s len n : Z) : option (list (list Z * Z)) :=
  '(_, a) ← rscan bound unaligned maxkeylen keybuf t query_json_scanner fuel root mem s len true {| nleft_ := n; rows_ := [] |};
  Some (rows_ a).
End Query.
