(* ===== verification/TreeListing.v ===== *)
(** The bindings of a tree in the order of their keys: what a scan has to visit.

    [lists] follows the tree: the bindings below a layer are those of its entries in order,
    an entry that is a layer standing for the bindings of that layer.  They are sorted and
    they are the bindings of the map, which [in_order] sorts. *)
From Stdlib Require Import Sorted.
From stdpp Require Import sorting.
From S2P Require Import Prelude StringSlice Permuter KSearch Internode LeafSplit MassKey Tree TreeShape TreeMap.

(** * Filters that keep all or none *)
Lemma filter_all {A} (P : A -> Prop) `{forall x, Decision (P x)} (l : list A) : (forall x, x ∈ l -> P x) -> filter P l = l.
Proof.
  induction l as [|x l IH]; intros HP; [done|]. rewrite list.filter_cons_True by (apply HP; left). f_equal. apply IH. intros y Hy. apply HP. by right.
Qed.
Lemma filter_none {A} (P : A -> Prop) `{forall x, Decision (P x)} (l : list A) : (forall x, x ∈ l -> ~ P x) -> filter P l = [].
Proof.
  induction l as [|x l IH]; intros HP; [done|]. rewrite list.filter_cons_False by (apply HP; left). apply IH. intros y Hy. apply HP. by right.
Qed.

(** * The order of strings *)
Definition str_lt (a b : list Z) : Prop := lex_compare a b = -1.
Lemma str_lt_irrefl a : ~ str_lt a a.
Proof. unfold str_lt. by rewrite lex_compare_refl. Qed.
Lemma str_lt_trans a b c : str_lt a b -> str_lt b c -> str_lt a c.
Proof.
  unfold str_lt. revert b c. induction a as [|x a IH]; intros [|y b] [|z c]; cbn; try done.
  intros H1 H2. revert H1 H2. zcases; try done. subst. by apply IH.
Qed.
Lemma str_lt_total a b : str_lt a b \/ a = b \/ str_lt b a.
Proof.
  unfold str_lt. rewrite (lex_antisym a b). destruct (lex_compare_cases a b) as [E|[E|E]]; rewrite E; [|by left|by right; right].
  right. left. by apply lex_compare_eq.
Qed.
Lemma lex_compare_prefix p a b : lex_compare (p ++ a) (p ++ b) = lex_compare a b.
Proof. induction p as [|x p IH]; cbn; [done|]. by rewrite Z.eqb_refl. Qed.

Abbreviation binding := (list Z * Z)%type.
Definition binding_lt (a b : binding) : Prop := str_lt a.1 b.1.
Definition binding_le (a b : binding) : Prop := lex_compare a.1 b.1 <= 0.
#[local] Instance binding_le_dec a b : Decision (binding_le a b).
Proof. unfold binding_le. apply _. Defined.
#[local] Instance binding_le_trans : Transitive binding_le.
Proof.
  intros [a x] [b y] [c z]. unfold binding_le. cbn. intros H1 H2.
  destruct (str_lt_total a b) as [L|[->|L]]; [|done|unfold str_lt in L; rewrite (lex_antisym b a) in H1; lia].
  destruct (str_lt_total b c) as [L'|[->|L']]; [|unfold str_lt in L; lia|unfold str_lt in L'; rewrite (lex_antisym c b) in H2; lia].
  pose proof (str_lt_trans _ _ _ L L') as H. unfold str_lt in H. lia.
Qed.
#[local] Instance binding_le_total : Total binding_le.
Proof.
  intros [a x] [b y]. unfold binding_le. cbn. destruct (str_lt_total a b) as [L|[->|L]].
  - left. unfold str_lt in L. lia.
  - left. rewrite lex_compare_refl. lia.
  - right. unfold str_lt in L. lia.
Qed.

(** The bindings of a map in order, and those a scan from a key is about. *)
Definition in_order (m : gmap (list Z) Z) : list binding := merge_sort binding_le (map_to_list m).
Definition from_key (first : list Z) (emit : bool) (k : list Z) : bool :=
  (lex_compare k first =? 1) || (lex_compare k first =? 0) && emit.
Definition from (first : list Z) (emit : bool) (l : list binding) : list binding := filter (fun b => from_key first emit b.1 = true) l.

Lemma binding_sorted_le L : StronglySorted binding_lt L -> StronglySorted binding_le L.
Proof. induction 1 as [|b L HL IH F]; constructor; [done|]. eapply Forall_impl; [|exact F]. unfold binding_lt, str_lt, binding_le. intros. lia. Qed.
Lemma binding_sorted_nodup L : StronglySorted binding_lt L -> NoDup L.*1.
Proof.
  induction 1 as [|[k v] L HL IH F]; [constructor|]. cbn. constructor; [|done]. intros ([k' v'] & -> & Hin)%list_elem_of_fmap.
  rewrite Forall_forall in F. apply list_elem_of_In, F in Hin. by apply str_lt_irrefl in Hin.
Qed.
Lemma in_order_unique m L : StronglySorted binding_lt L -> (forall k v, (k, v) ∈ L <-> m !! k = Some v) -> in_order m = L.
Proof.
  intros Hs HL. assert (HP : map_to_list m ≡ₚ L).
  { apply NoDup_Permutation; [apply NoDup_map_to_list|by apply NoDup_fmap_1 with fst, binding_sorted_nodup|].
    intros [k v]. by rewrite elem_of_map_to_list, HL. }
  apply (StronglySorted_unique_strong binding_le).
  - intros [k v] [k' v'] H1 H2. unfold binding_le. cbn. intros L1 L2. assert (k = k') as <-.
    { apply lex_compare_eq. rewrite (lex_antisym k k') in L2. lia. }
    unfold in_order in H1. rewrite merge_sort_Permutation, HP, HL in H1. rewrite HL in H2. congruence.
  - apply StronglySorted_merge_sort; apply _.
  - by apply binding_sorted_le.
  - unfold in_order. by rewrite merge_sort_Permutation.
Qed.

(** * The bindings of a layer *)
Section Listing.
Context (lw iw mk : Z) (t : tree) (root : Z) (G : gmap (list Z) glayer) (I : inv lw iw mk t root G).

Inductive lists : list Z -> list entry -> list binding -> Prop :=
| lists_nil p : lists p [] []
| lists_key p e es k L : entry_key e k -> lists p es L -> lists p (e :: es) ((p ++ k, lv e) :: L)
| lists_layer p e es s g L1 L2 : layer_slice e s -> G !! (p ++ s) = Some g -> gptr g = lv e ->
    lists (p ++ s) (items (gshape g)) L1 -> lists p es L2 -> lists p (e :: es) (L1 ++ L2).

Lemma lists_total p g : G !! p = Some g -> exists L, lists p (items (gshape g)) L.
Proof.
  remember (Z.to_nat (mk - Z.of_nat (List.length p))) as n eqn:En. revert p g En. induction n as [n IH] using lt_wf_ind.
  intros p g -> Hg. assert (Hall : forall e, e ∈ items (gshape g) -> e ∈ items (gshape g)) by done. revert Hall.
  generalize (items (gshape g)) at 1 3. intros es. induction es as [|e es IHe]; intros Hall; [exists []; constructor|].
  destruct IHe as [L HL]; [intros e' He'; apply Hall; by right|].
  destruct (lo_items _ _ _ _ _ (inv_layer _ _ _ _ _ _ I _ _ Hg) e) as [[k Hk]|[s Hs]]; [apply Hall; left|exists ((p ++ k, lv e) :: L); by constructor|].
  destruct (inv_sub _ _ _ _ _ _ I p g e s Hg) as (g' & Hg' & Hp); [apply Hall; left|done|].
  pose proof (inv_short _ _ _ _ _ _ I _ _ Hg') as Hlen. rewrite length_app in Hlen. pose proof Hs as (_ & Hs8 & _).
  destruct (IH (Z.to_nat (mk - Z.of_nat (List.length (p ++ s))))) with (p := p ++ s) (g := g') as [L1 HL1]; [rewrite length_app; lia|done|done|].
  exists (L1 ++ L). by apply (lists_layer _ _ _ s g').
Qed.

(** Every binding comes from an entry, whose rank is that of the rest of the key. *)
Lemma lists_from p es L : lists p es L -> forall g, G !! p = Some g -> (forall e, e ∈ es -> e ∈ items (gshape g)) ->
  forall k v, (k, v) ∈ L -> bound G k v /\ exists e k', e ∈ es /\ k = p ++ k' /\ krank k' = erank e /\ Forall byte_ok k' /\ (p <> [] -> k' <> []).
Proof.
  induction 1 as [p|p e es k L Hk HL IH|p e es s g' L1 L2 Hs Hg' Hp HL1 IH1 HL2 IH2]; intros g Hg Hall k0 v0 Hin.
  - by apply elem_of_nil in Hin.
  - apply elem_of_cons in Hin as [[= -> ->]|Hin].
    + split; [exists p, g, e, k; split_and!; try done; apply Hall; left|]. exists e, k. destruct (entry_key_rank _ _ Hk) as (Hb & Hr & _).
      split_and!; [left|done..|]. intros Hpn ->. apply (lo_nonempty _ _ _ _ _ (inv_layer _ _ _ _ _ _ I _ _ Hg) Hpn e); [apply Hall; left|].
      inversion Hk as [? ? E0|? s ? ? ? ? ? E0]; [by rewrite E0|]. by destruct s.
    + destruct (IH g Hg ltac:(intros; apply Hall; by right) _ _ Hin) as (Hb & e' & k' & He' & ?). split; [done|]. exists e', k'. split; [by right|done].
  - apply elem_of_app in Hin as [Hin|Hin].
    + destruct (IH1 g' Hg' ltac:(done) _ _ Hin) as (Hb & e' & k' & He' & -> & Hr & Hbk & Hne). split; [done|]. exists e, (s ++ k').
      pose proof Hs as (_ & Hs8 & Hsb & _). assert (Hk' : k' <> []) by (apply Hne; intros Hd; apply (f_equal List.length) in Hd; rewrite length_app in Hd; cbn in Hd; lia).
      split_and!; [left|by rewrite app_assoc|by apply layer_slice_rank|by apply Forall_app|]. intros _ Hd. by apply app_eq_nil in Hd as [_ ?].
    + destruct (IH2 g Hg ltac:(intros; apply Hall; by right) _ _ Hin) as (Hb & e' & k' & He' & ?). split; [done|]. exists e', k'. split; [by right|done].
Qed.
Lemma lists_cross p g e es (Le L : list binding) : G !! p = Some g -> StronglySorted entry_lt (e :: es) -> (forall e', e' ∈ es -> e' ∈ items (gshape g)) ->
  lists p es L -> (forall k v, (k, v) ∈ Le -> exists k', k = p ++ k' /\ krank k' = erank e /\ Forall byte_ok k') ->
  forall b b', b ∈ Le -> b' ∈ L -> binding_lt b b'.
Proof.
  intros Hg Hs Hall HL HLe [k v] [k' v'] Hb Hb'. destruct (HLe _ _ Hb) as (k1 & -> & R1 & B1).
  destruct (lists_from p es L HL g Hg Hall _ _ Hb') as (_ & e' & k2 & He' & -> & R2 & B2 & _).
  unfold binding_lt, str_lt. cbn. rewrite lex_compare_prefix. apply krank_lt; [done..|]. rewrite R1, R2.
  apply StronglySorted_inv in Hs as [_ Hs]. rewrite Forall_forall in Hs. by apply list_elem_of_In, Hs in He'.
Qed.
Lemma lists_sorted p es L : lists p es L -> forall g, G !! p = Some g -> (forall e, e ∈ es -> e ∈ items (gshape g)) ->
  StronglySorted entry_lt es -> StronglySorted binding_lt L.
Proof.
  induction 1 as [p|p e es k L Hk HL IH|p e es s g' L1 L2 Hs Hg' Hp HL1 IH1 HL2 IH2]; intros g Hg Hall Hes; [constructor| |].
  - assert (Hall' : forall e', e' ∈ es -> e' ∈ items (gshape g)) by (intros; apply Hall; by right).
    constructor; [apply (IH g); [done..|by apply StronglySorted_inv in Hes as [? _]]|]. apply Forall_forall. intros b Hb%list_elem_of_In.
    apply (lists_cross p g e es [(p ++ k, lv e)] L Hg Hes Hall' HL); [|left|done]. intros k0 v0 [= -> ->]%list_elem_of_singleton.
    exists k. destruct (entry_key_rank _ _ Hk) as (? & ? & _). done.
  - assert (Hall' : forall e', e' ∈ es -> e' ∈ items (gshape g)) by (intros; apply Hall; by right).
    apply sorted_app_iff. split_and!.
    + apply (IH1 g'); [done..|]. apply ents_sorted, (inv_layer _ _ _ _ _ _ I _ _ Hg').
    + apply (IH2 g); [done..|]. by apply StronglySorted_inv in Hes as [? _].
    + apply (lists_cross p g e es L1 L2 Hg Hes Hall' HL2). intros k0 v0 H0.
      destruct (lists_from p [e] (L1 ++ []) ltac:(eapply lists_layer; [done..|constructor]) g Hg) with (k := k0) (v := v0) as (_ & e' & k' & He' & ? & ? & ? & _).
      { intros e' ->%list_elem_of_singleton. apply Hall. left. } { by rewrite app_nil_r. }
      apply list_elem_of_singleton in He' as ->. by exists k'.
Qed.

Lemma lists_inner p es L : lists p es L -> forall e s g, e ∈ es -> layer_slice e s -> G !! (p ++ s) = Some g ->
  exists L1, lists (p ++ s) (items (gshape g)) L1 /\ forall b, b ∈ L1 -> b ∈ L.
Proof.
  induction 1 as [p|p e es k L Hk HL IH|p e es s g' L1 L2 Hs Hg' Hp HL1 IH1 HL2 IH2]; intros e0 s0 g0 He0 Hs0 Hg0.
  - by apply elem_of_nil in He0.
  - apply elem_of_cons in He0 as [->|He0]; [by destruct (layer_not_key e s0 k)|]. destruct (IH e0 s0 g0 He0 Hs0 Hg0) as (L1 & ? & HL1).
    exists L1. split; [done|]. intros b Hb. right. by apply HL1.
  - apply elem_of_cons in He0 as [->|He0].
    + rewrite (layer_slice_inj e s s0 Hs Hs0) in *. assert (g' = g0) as -> by congruence. exists L1. split; [done|]. intros b Hb. apply elem_of_app. by left.
    + destruct (IH2 e0 s0 g0 He0 Hs0 Hg0) as (L3 & ? & HL3). exists L3. split; [done|]. intros b Hb. apply elem_of_app. right. by apply HL3.
Qed.
Lemma lists_here p es L : lists p es L -> forall e k, e ∈ es -> entry_key e k -> (p ++ k, lv e) ∈ L.
Proof.
  induction 1 as [p|p e es k L Hk HL IH|p e es s g' L1 L2 Hs Hg' Hp HL1 IH1 HL2 IH2]; intros e0 k0 He0 Hk0.
  - by apply elem_of_nil in He0.
  - apply elem_of_cons in He0 as [->|He0]; [rewrite (entry_key_inj e k k0 Hk Hk0); left|]. right. by apply IH.
  - apply elem_of_cons in He0 as [->|He0]; [by destruct (layer_not_key e s k0)|]. apply elem_of_app. right. by apply IH2.
Qed.
Lemma lists_below p g L q gq e k : G !! p = Some g -> lists p (items (gshape g)) L -> G !! (p ++ q) = Some gq -> e ∈ items (gshape gq) -> entry_key e k ->
  ((p ++ q) ++ k, lv e) ∈ L.
Proof.
  remember (List.length q) as n eqn:En. revert q p g L En. induction n as [n IH] using lt_wf_ind. intros q p g L -> Hg HL Hq He Hk.
  destruct (decide (q = [])) as [->|Hqn].
  - rewrite app_nil_r in *. assert (gq = g) as -> by congruence. by eapply lists_here.
  - destruct (lo_length _ _ _ _ _ (inv_layer _ _ _ _ _ _ I _ _ Hg)) as [mp Hmp], (lo_length _ _ _ _ _ (inv_layer _ _ _ _ _ _ I _ _ Hq)) as [mq Hmq].
    rewrite length_app in Hmq. assert (Hq8 : (8 <= List.length q)%nat) by (destruct q; [done|cbn in *; lia]).
    rewrite <- (take_drop 8 q) in Hq. destruct (layer_way _ _ _ t root G p (take 8 q) (drop 8 q) gq I Hq) as (g1 & e1 & Hg1 & He1 & Hs1); [rewrite length_take; lia|by exists mp|].
    assert (g1 = g) as -> by congruence. destruct (inv_sub _ _ _ _ _ _ I p g e1 _ Hg He1 Hs1) as (g2 & Hg2 & _).
    destruct (lists_inner p _ L HL e1 _ g2 He1 Hs1 Hg2) as (L1 & HL1 & Hsub). rewrite <- (take_drop 8 q), (app_assoc p). apply Hsub.
    apply (IH (List.length (drop 8 q)) ltac:(rewrite length_drop; lia) _ _ g2); [done|done|done| |done|done]. by rewrite <- app_assoc.
Qed.

(** The listing of the root layer is the map in order. *)
Lemma lists_in_order g L m : G !! [] = Some g -> lists [] (items (gshape g)) L -> (forall k v, m !! k = Some v <-> bound G k v) -> in_order m = L.
Proof.
  intros Hg HL Hm. apply in_order_unique.
  - apply (lists_sorted [] _ L HL g Hg); [done|]. apply ents_sorted, (inv_layer _ _ _ _ _ _ I _ _ Hg).
  - intros k v. rewrite Hm. split; [intros Hin; by apply (lists_from [] _ L HL g Hg) in Hin as [? _]|].
    intros (q & gq & e & k' & Hq & He & Hk & -> & <-). by apply (lists_below [] g L q gq e k').
Qed.

(** ** The bindings from a key on *)
Lemma lists_app p a b L : lists p (a ++ b) L -> exists La Lb, L = La ++ Lb /\ lists p a La /\ lists p b Lb.
Proof.
  remember (a ++ b) as es eqn:E. intros H. revert a E. induction H as [p|p e es k L Hk HL IH|p e es s g' L1 L2 Hs Hg' Hp HL1 IH1 HL2 IH2]; intros a E.
  - symmetry in E. apply app_eq_nil in E as [-> ->]. exists [], []. split_and!; [done|constructor..].
  - destruct a as [|e' a]; cbn in E; [subst b; exists [], ((p ++ k, lv e) :: L); split_and!; [done|constructor|by constructor]|].
    injection E as <- ->. destruct (IH a eq_refl) as (La & Lb & -> & Ha & Hb). exists ((p ++ k, lv e) :: La), Lb. split_and!; [done|by constructor|done].
  - destruct a as [|e' a]; cbn in E; [subst b; exists [], (L1 ++ L2); split_and!; [done|constructor|by apply (lists_layer _ _ _ s g')]|].
    injection E as <- ->. destruct (IH2 a eq_refl) as (La & Lb & -> & Ha & Hb). exists (L1 ++ La), Lb. split_and!; [by rewrite app_assoc|by apply (lists_layer _ _ _ s g')|done].
Qed.
Lemma from_app f emit a b : from f emit (a ++ b) = from f emit a ++ from f emit b.
Proof. apply list.filter_app. Qed.
Lemma from_none f emit L : (forall b, b ∈ L -> str_lt b.1 f) -> from f emit L = [].
Proof. intros H. apply filter_none. intros b Hb. apply H in Hb. unfold str_lt in Hb. unfold from_key. by rewrite Hb. Qed.
Lemma from_all f emit L : (forall b, b ∈ L -> str_lt f b.1) -> from f emit L = L.
Proof. intros H. apply filter_all. intros b Hb. apply H in Hb. unfold str_lt in Hb. unfold from_key. rewrite (lex_antisym f b.1). by rewrite Hb. Qed.
Lemma lists_before p g es L k emit : G !! p = Some g -> lists p es L -> (forall e, e ∈ es -> e ∈ items (gshape g)) -> Forall byte_ok k ->
  (forall e, e ∈ es -> rank_lt (erank e) (krank k)) -> from (p ++ k) emit L = [].
Proof.
  intros Hg HL Hall Hk Hr. apply from_none. intros [k0 v0] Hb. destruct (lists_from p es L HL g Hg Hall _ _ Hb) as (_ & e & k' & He & -> & R & B & _).
  unfold str_lt. cbn. rewrite lex_compare_prefix. apply krank_lt; [done..|]. rewrite R. by apply Hr.
Qed.
Lemma lists_after p g es L k emit : G !! p = Some g -> lists p es L -> (forall e, e ∈ es -> e ∈ items (gshape g)) -> Forall byte_ok k ->
  (forall e, e ∈ es -> rank_lt (krank k) (erank e)) -> from (p ++ k) emit L = L.
Proof.
  intros Hg HL Hall Hk Hr. apply from_all. intros [k0 v0] Hb. destruct (lists_from p es L HL g Hg Hall _ _ Hb) as (_ & e & k' & He & -> & R & B & _).
  unfold str_lt. cbn. rewrite lex_compare_prefix. apply krank_lt; [done..|]. rewrite R. by apply Hr.
Qed.
End Listing.
