(* ===== verification/TreeLeaves.v ===== *)
(** The leaves of a layer in order, as a scan walks them; what a scan's key buffer holds. *)
From Stdlib Require Import Sorted.
From S2P Require Import Prelude StringSlice Permuter KSearch Internode LeafSplit MassKey Tree TreeShape TreeMap.

(** * The leaves of a shape *)
Fixpoint leaf_list (g : shape) : list (Z * list entry) :=
  match g with SLeaf n _ es => [(n, es)] | SNode _ _ _ cs => flat_map leaf_list cs end.
Fixpoint llpre (C : list frame) : list (Z * list entry) := match C with [] => [] | f :: C => llpre C ++ flat_map leaf_list (fcl f) end.
Fixpoint llpost (C : list frame) : list (Z * list entry) := match C with [] => [] | f :: C => flat_map leaf_list (fcr f) ++ llpost C end.
Definition all_entries (ls : list (Z * list entry)) : list entry := flat_map snd ls.

Lemma all_entries_app a b : all_entries (a ++ b) = all_entries a ++ all_entries b.
Proof. apply flat_map_app. Qed.
Lemma fst_flat_map {X} (f : X -> list (Z * list entry)) (h : X -> list Z) cs : Forall (fun c => (f c).*1 = h c) cs -> (flat_map f cs).*1 = flat_map h cs.
Proof. induction 1 as [|c cs H _ IH]; [done|]. cbn. by rewrite fmap_app, H, IH. Qed.
Lemma leaf_list_addrs g : (leaf_list g).*1 = leaf_addrs g.
Proof. induction g as [n lo es|n h ks cs IH] using shape_ind'; [done|]. by apply fst_flat_map. Qed.
Lemma leaf_list_fill C g : leaf_list (fill C g) = llpre C ++ leaf_list g ++ llpost C.
Proof.
  revert g. induction C as [|f C IH]; intros g; [cbn; by rewrite app_nil_r|].
  change (fill (f :: C) g) with (fill C (plug f g)). rewrite IH. unfold plug. cbn [leaf_list llpre llpost].
  rewrite flat_map_app. cbn [flat_map]. by rewrite <- !app_assoc.
Qed.
Lemma ents_weave ks ls : List.length ls = S (List.length ks) -> ents (weave ks ls) = flat_map ents ls.
Proof.
  revert ks. induction ls as [|l ls IH]; intros [|k ks] H; cbn [weave flat_map List.length] in *; try lia.
  - destruct ls; [|cbn in H; lia]. by rewrite !app_nil_r.
  - rewrite ents_app. f_equal. change (ents (K k :: ?x)) with (ents x). apply IH. lia.
Qed.
Lemma ents_weave_left ks ls : List.length ks = List.length ls -> ents (weave_left ks ls) = flat_map ents ls.
Proof.
  revert ls. induction ks as [|k ks IH]; intros [|l ls] H; cbn [weave_left flat_map List.length] in *; try done.
  rewrite ents_app. f_equal. change (ents (K k :: ?x)) with (ents x). apply IH. lia.
Qed.
Lemma ents_weave_right ks ls : List.length ks = List.length ls -> ents (weave_right ks ls) = flat_map ents ls.
Proof.
  destruct ks as [|k ks]; intros H; [by destruct ls|]. change (weave_right (k :: ks) ls) with (K k :: weave ks ls).
  change (ents (K k :: ?x)) with (ents x). apply ents_weave. done.
Qed.
Lemma ents_lead h l : ents (lead h ++ l) = ents l.
Proof. by destruct h. Qed.

Section Leaves.
Context (lw iw : Z) (t : tree).
Lemma flat_map_items cs : Forall (fun c => items c = all_entries (leaf_list c)) cs ->
  flat_map ents (map flat cs) = all_entries (flat_map leaf_list cs).
Proof. induction 1 as [|c cs H _ IH]; [done|]. cbn [map flat_map]. rewrite all_entries_app, <- IH, <- H. done. Qed.
Lemma rep_items top g : rep lw iw t top g -> items g = all_entries (leaf_list g).
Proof.
  revert top. induction g as [n lo es|n h ks cs IH] using shape_ind'; intros top Hr.
  - unfold items. cbn. change (ents (Lo lo :: ?x)) with (ents x). by rewrite ents_E, app_nil_r.
  - pose proof (rep_kids _ _ _ _ _ _ _ _ Hr) as Hl. apply rep_SNode in Hr as (_ & _ & F).
    unfold items. cbn [flat leaf_list]. rewrite ents_lead, ents_weave by by rewrite length_map.
    apply flat_map_items. rewrite Forall_forall in *. intros c Hc. destruct (F c Hc) as (_ & _ & Hrc). by apply (IH c Hc false).
Qed.
Lemma rep_ctx_items C a h : rep_ctx lw iw t C a h -> ents (pre C) = all_entries (llpre C) /\ ents (post C) = all_entries (llpost C).
Proof.
  revert a h. induction C as [|f C IH]; intros a h H; [done|]. destruct H as [(_ & _ & Hi & _ & Hl & F) H]. destruct (IH _ _ H) as [E1 E2].
  apply inode_length in Hi. rewrite !length_app, length_cons, !length_fmap, length_hkids in Hi.
  apply Forall_app in F as [F1 F2].
  assert (Hit : forall cs, Forall (child_of lw iw t (fn f)) cs -> Forall (fun c => items c = all_entries (leaf_list c)) cs).
  { intros cs. apply Forall_impl. intros c (_ & _ & Hrc). by eapply rep_items. }
  cbn [pre post llpre llpost]. rewrite !ents_app, !all_entries_app, E1, E2. unfold frame_pre, frame_post.
  rewrite ents_lead, ents_weave_left, ents_weave_right by (rewrite length_map; lia). by rewrite !flat_map_items by by apply Hit.
Qed.
Lemma rep_leaf_list top g n es : rep lw iw t top g -> (n, es) ∈ leaf_list g ->
  exists l, leaves t !! n = Some l /\ leaf_ok lw l /\ entries l = es /\ n ∈ addrs g.
Proof.
  revert top. induction g as [n' lo es'|n' h ks cs IH] using shape_ind'; intros top Hr Hin.
  - apply list_elem_of_singleton in Hin as [= -> ->]. destruct Hr as [(l & ? & ? & _ & ?) _]. exists l. split_and!; [done..|left].
  - apply rep_SNode in Hr as (_ & _ & F). apply elem_of_flat_map in Hin as (c & Hc & Hin). rewrite Forall_forall in F, IH. apply list_elem_of_In in Hc as Hc'.
    destruct (F c Hc') as (_ & _ & Hrc). destruct (IH c Hc' false Hrc Hin) as (l & ? & ? & ? & Ha). exists l. split_and!; [done..|].
    right. apply elem_of_flat_map. by exists c.
Qed.
(** The next leaf. *)
Lemma chain_next pv A n B : chain t pv (A ++ n :: B) -> exists l, leaves t !! n = Some l /\ next_ l = hd 0 B /\ prev_ l = List.last A pv.
Proof.
  revert pv. induction A as [|a A IH]; intros pv; cbn [chain app].
  - intros [(l & Hl & <- & <-) _]. by exists l.
  - intros [_ H]. destruct (IH _ H) as (l & Hl & Hn & Hp). exists l. split_and!; [done..|]. rewrite Hp. clear.
    revert a pv. induction A as [|b A IH]; intros a pv; [done|]. change (List.last (b :: A) a = List.last (b :: A) pv). by rewrite <- !IH.
Qed.
End Leaves.

(** A place in a layer: a leaf, with the leaves before and after it. *)
Record leaf_place (lw : Z) (t : tree) (g : shape) (n : Z) (l : leaf) (A B : list (Z * list entry)) : Prop := {
  pl_leaf : leaves t !! n = Some l;
  pl_ok : leaf_ok lw l;
  pl_list : leaf_list g = A ++ (n, entries l) :: B;
  pl_items : items g = all_entries A ++ entries l ++ all_entries B;
  pl_sorted : StronglySorted entry_lt (all_entries A ++ entries l ++ all_entries B);
  pl_next : next_ l = hd 0 B.*1;
  pl_nonnull : Forall (fun b => b.1 <> 0) B
}.

Section Place.
Context (lw iw mk : Z) (t : tree).
Lemma leaf_place_intro p g n es A B : layer_ok lw iw t p g -> leaf_list (gshape g) = A ++ (n, es) :: B ->
  exists l, entries l = es /\ leaf_place lw t (gshape g) n l A B.
Proof.
  intros L HE. pose proof (lo_rep _ _ _ _ _ L) as Hr.
  destruct (rep_leaf_list lw iw t true _ n es Hr) as (l & Hl & Hok & <- & _).
  { rewrite HE. apply elem_of_app. right. left. }
  exists l. split; [done|]. pose proof (rep_items lw iw t true _ Hr) as Hi. rewrite HE, all_entries_app in Hi. change (all_entries ((n, entries l) :: B)) with (entries l ++ all_entries B) in Hi.
  pose proof (lo_chain _ _ _ _ _ L) as Hc. rewrite <- leaf_list_addrs, HE, fmap_app, fmap_cons in Hc. cbn [fst] in Hc.
  destruct (chain_next t _ _ _ _ Hc) as (l' & Hl' & Hn & _). assert (l' = l) as -> by congruence.
  split; try done.
  - rewrite <- Hi. apply ents_sorted, L.
  - apply Forall_forall. intros [b eb] Hb%list_elem_of_In. cbn. destruct (rep_leaf_list lw iw t true _ b eb Hr) as (_ & _ & _ & _ & Ha).
    { rewrite HE. apply elem_of_app. right. by right. }
    by apply (lo_nonnull _ _ _ _ _ L).
Qed.
(** The leaf that a key leads to. *)
Lemma reach_place bnd p g ka : layer_ok lw iw t p g -> exists n l A B N, leaf_place lw t (gshape g) n l A B /\
  (forall fuel, (N <= fuel)%nat -> reach_leaf bnd t fuel ka (gptr g) = Some n) /\
  Forall (fun e => ikey0 e < ikey ka) (all_entries A) /\ Forall (fun e => ikey ka < ikey0 e) (all_entries B).
Proof.
  intros L. destruct (reach_leaf_ok lw iw bnd t p g ka L) as (C & n & lo & es & N & Hg & HC & HN & Hpre & Hpost).
  destruct (leaf_place_intro p g n es (llpre C) (llpost C) L) as (l & _ & P); [by rewrite Hg, leaf_list_fill|].
  destruct (proj1 (rep_fill lw iw t C (SLeaf n lo es) HC)) as [_ Hctx]; [rewrite <- Hg; split; apply L|].
  destruct (rep_ctx_items lw iw t C _ _ Hctx) as [E1 E2].
  exists n, l, (llpre C), (llpost C), N. split_and!; [done..| |].
  - rewrite <- E1. apply Forall_forall. intros e He%list_elem_of_In. by apply (ents_below _ _ _ Hpre).
  - rewrite <- E2. apply Forall_forall. intros e He%list_elem_of_In. by apply (ents_above _ _ _ Hpost).
Qed.
Lemma next_place p g n l A n' es' B : layer_ok lw iw t p g -> leaf_place lw t (gshape g) n l A ((n', es') :: B) ->
  exists l', entries l' = es' /\ leaf_place lw t (gshape g) n' l' (A ++ [(n, entries l)]) B.
Proof. intros L P. apply (leaf_place_intro p); [done|]. rewrite (pl_list _ _ _ _ _ _ _ P). by rewrite <- app_assoc. Qed.
Lemma place_lower bnd g n l A B ka : leaf_place lw t g n l A B -> 0 <= len_ ka ->
  exists kx, leaf_lower bnd l ka = Some kx /\ 0 <= kx_i kx <= lsize l /\
    (forall e, e ∈ take (Z.to_nat (kx_i kx)) (entries l) -> rank_lt (erank e) (rank_of ka)) /\
    if kx_p kx =? -1 then forall e, e ∈ drop (Z.to_nat (kx_i kx)) (entries l) -> rank_lt (rank_of ka) (erank e)
    else 0 <= kx_p kx /\ kx_i kx < lsize l /\ kx_p kx = elem (permutation_ l) (kx_i kx) /\
         erank (nth_entry l (kx_i kx)) = rank_of ka.
Proof.
  intros P Hlen. pose proof (pl_sorted _ _ _ _ _ _ _ P) as Hs. apply sorted_app_iff in Hs as (_ & Hs & _). apply sorted_app_iff in Hs as (Hs & _).
  destruct (leaf_lower_rank lw bnd l ka (pl_ok _ _ _ _ _ _ _ P) Hs Hlen) as (kx & Hkx & Hi & Hlt & Hge). exists kx. split_and!; [done|lia|lia| |].
  - intros e (i & Hie)%list_elem_of_lookup. apply lookup_take_Some in Hie as [Hie Hlti].
    assert (Hb : Z.of_nat i < lsize l) by lia. pose proof (entries_lookup l (Z.of_nat i) ltac:(lia)) as E. rewrite Nat2Z.id in E. replace e with (nth_entry l (Z.of_nat i)) by congruence.
    apply Hlt. lia.
  - destruct (kx_p kx =? -1); [|done]. intros e (i & Hie)%list_elem_of_lookup. rewrite lookup_drop in Hie.
    pose proof (lookup_lt_Some _ _ _ Hie) as Hlt'. unfold entries in Hlt'. rewrite length_fmap, length_seqZ in Hlt'.
    pose proof (entries_lookup l (Z.of_nat (Z.to_nat (kx_i kx) + i)) ltac:(lia)) as E. rewrite Nat2Z.id in E.
    replace e with (nth_entry l (Z.of_nat (Z.to_nat (kx_i kx) + i))) by congruence. apply Hge. lia.
Qed.
End Place.

(** * Reading what was written *)
Lemma get_some l i x : 0 <= i -> l !! Z.to_nat i = Some x -> get l i = x.
Proof. intros Hi Hx. unfold get. destruct (Z.ltb_spec i 0); [lia|]. by apply nth_lookup_Some. Qed.
Lemma mem_bytes_write_same buf p l : mem_bytes (write_bytes buf p l) p (Z.of_nat (List.length l)) = l.
Proof.
  unfold mem_bytes. apply list_eq. intros i. rewrite list_lookup_fmap. destruct (decide (i < List.length l)%nat) as [Hi|Hi].
  - rewrite lookup_seqZ_lt by lia. cbn. unfold write_bytes. destruct (Z.leb_spec p (p + Z.of_nat i)), (Z.ltb_spec (p + Z.of_nat i) (p + Z.of_nat (List.length l))); cbn; try lia.
    replace (p + Z.of_nat i - p) with (Z.of_nat i) by lia. destruct (lookup_lt_is_Some_2 l i Hi) as [x Hx]. rewrite Hx. f_equal. apply get_some; [lia|]. by rewrite Nat2Z.id.
  - rewrite lookup_seqZ_ge by lia. cbn. symmetry. apply lookup_ge_None. lia.
Qed.
Lemma mem_bytes_write_other buf p l s n : s + n <= p \/ p + Z.of_nat (List.length l) <= s -> mem_bytes (write_bytes buf p l) s n = mem_bytes buf s n.
Proof.
  intros H. unfold mem_bytes. apply list_fmap_ext. intros i a Ha. apply list_elem_of_lookup_2, elem_of_seqZ in Ha. unfold write_bytes.
  destruct (Z.leb_spec p a), (Z.ltb_spec a (p + Z.of_nat (List.length l))); cbn; lia || done.
Qed.
Lemma write_bytes_ok buf p l : (forall a, byte_ok (buf a)) -> Forall byte_ok l -> forall a, byte_ok (write_bytes buf p l a).
Proof.
  intros Hb Hl a. unfold write_bytes. destruct (_ && _) eqn:E; [|apply Hb]. boolify.
  destruct (lookup_lt_is_Some_2 l (Z.to_nat (a - p)) ltac:(lia)) as [x Hx]. rewrite (get_some _ _ x) by (lia || done). rewrite Forall_lookup in Hl. by eapply Hl.
Qed.
(** The stored slice. *)
Lemma slice_stored s : List.length s = 8%nat -> Forall byte_ok s -> le_bytes 8 (host_to_net_order 8 (be_value s)) = s.
Proof.
  intros Hl Hb. unfold host_to_net_order, net_to_host_order, be_value. change (Z.to_nat 8) with 8%nat.
  assert (E : le_bytes 8 (le_value (rev s)) = rev s).
  { rewrite <- Hl, <- length_rev. apply le_bytes_value. by apply Forall_rev. }
  rewrite E, rev_involutive, <- Hl. by apply le_bytes_value.
Qed.
