(* ===== verification/TreeForward.v ===== *)
(** A forward scan visits the bindings of the map in the order of their keys. *)
From Stdlib Require Import Sorted.
From S2P Require Import Prelude StringSlice Permuter KSearch Internode LeafSplit MassKey Tree TreeShape TreeMap TreeScan TreeListing TreeLeaves.

(** The bindings that a scanner is given, until it stops; the number counts them. *)
Fixpoint visit_all {A} (F : scanner A) (L : list binding) (count : Z) (a : A) : Z * A :=
  match L with
  | [] => (count, a)
  | (k, v) :: L => let '(a, go) := visit_value F k v a in if go then visit_all F L (count + 1) a else (count + 1, a)
  end.

Section Forward.
Context (bnd : key_bound_type) (unaligned : bool) (lw iw mk keybuf : Z).
Context (t : tree) (root : Z) (G : gmap (list Z) glayer) (I : inv lw iw mk t root G).
#[local] Instance forward : scan_helper unit := forward_scan_helper bnd t.
Context (Hshort : forall k v, bound G k v -> Z.of_nat (List.length k) <= mk).

(** * The key buffer *)
Definition at_prefix (ka : key) (buf : Z -> Z) (p : list Z) : Prop :=
  first_ ka = keybuf /\ s_ ka = keybuf + Z.of_nat (List.length p) /\ mem_bytes buf keybuf (Z.of_nat (List.length p)) = p /\ forall a, byte_ok (buf a).
Abbreviation size := (keybuf_size mk).

Lemma mk_size : mk <= size.
Proof. unfold keybuf_size. Z.div_mod_to_equations. lia. Qed.
Lemma prefix_room p g : G !! p = Some g -> Z.of_nat (List.length p) + 8 <= size.
Proof.
  intros Hg. pose proof (inv_short _ _ _ _ _ _ I _ _ Hg) as Hs. destruct (lo_length _ _ _ _ _ (inv_layer _ _ _ _ _ _ I _ _ Hg)) as [m Hm].
  unfold keybuf_size. Z.div_mod_to_equations. lia.
Qed.
Lemma key_room p g e k : G !! p = Some g -> e ∈ items (gshape g) -> entry_key e k -> Z.of_nat (List.length (p ++ k)) <= mk.
Proof. intros Hg He Hk. apply (Hshort _ (lv e)). by exists p, g, e, k. Qed.

Lemma store_bytes_ok a l buf : keybuf <= a -> a + Z.of_nat (List.length l) <= keybuf + size -> store_bytes mk keybuf a l buf = Some (write_bytes buf a l).
Proof. intros H1 H2. unfold store_bytes. by rewrite (proj2 (Z.leb_le _ _) H1), (proj2 (Z.leb_le _ _) H2). Qed.
Lemma store_suffix_ok ka buf p sfx : at_prefix ka buf p -> Forall byte_ok sfx -> Z.of_nat (List.length p) + 8 + Z.of_nat (List.length sfx) <= size ->
  exists buf', store_suffix mk keybuf ka sfx buf = Some (8 + Z.of_nat (List.length sfx), buf') /\ at_prefix ka buf' p /\
    mem_bytes buf' (s_ ka + 8) (Z.of_nat (List.length sfx)) = sfx /\ mem_bytes buf' (s_ ka) 8 = mem_bytes buf (s_ ka) 8.
Proof.
  intros (E1 & E2 & E3 & Hb) Hs Hr. exists (write_bytes buf (s_ ka + 8) sfx). unfold store_suffix.
  rewrite (store_bytes_ok (s_ ka + 8)) by lia. split_and!; [done| |by apply mem_bytes_write_same|by apply mem_bytes_write_other; left; lia].
  split_and!; [done..| |by apply write_bytes_ok]. rewrite mem_bytes_write_other; [done|left; lia].
Qed.
Lemma store_ikey_ok ka buf p s : at_prefix ka buf p -> List.length s = 8%nat -> Forall byte_ok s -> Z.of_nat (List.length p) + 8 <= size ->
  exists buf', store_ikey mk keybuf ka (be_value s) buf = Some ({| ikey0_ := be_value s; len_ := len_ ka; s_ := s_ ka; first_ := first_ ka |}, buf') /\
    at_prefix ka buf' p /\ mem_bytes buf' (s_ ka) 8 = s /\ forall n, mem_bytes buf' (s_ ka + 8) n = mem_bytes buf (s_ ka + 8) n.
Proof.
  intros (E1 & E2 & E3 & Hb) Hl Hs Hr. unfold store_ikey. rewrite slice_stored by done. exists (write_bytes buf (s_ ka) s).
  rewrite (store_bytes_ok (s_ ka)) by lia. split_and!; [done| | |].
  - split_and!; [done..| |by apply write_bytes_ok]. rewrite mem_bytes_write_other; [done|left; lia].
  - pose proof (mem_bytes_write_same buf (s_ ka) s) as H1. by rewrite Hl in H1.
  - intros n. rewrite mem_bytes_write_other; [done|right; rewrite Hl; lia].
Qed.
(** The bytes after the prefix. *)
Lemma read_prefix ka buf p n k : at_prefix ka buf p -> 0 <= n -> mem_bytes buf (s_ ka) n = k -> mem_bytes buf keybuf (Z.of_nat (List.length p) + n) = p ++ k.
Proof. intros (E1 & E2 & E3 & _) Hn <-. rewrite mem_bytes_app by lia. by rewrite E2, E3. Qed.

(** * Entries still to visit *)
#[local] Instance rank_lt_dec a b : Decision (rank_lt a b).
Proof. unfold rank_lt. apply _. Defined.
Definition todo (r : rank) (g : shape) : list entry := filter (fun e => rank_lt r (erank e)) (items g).
Lemma todo_split r g X Q : items g = X ++ Q -> (forall e, e ∈ X -> ~ rank_lt r (erank e)) -> (forall e, e ∈ Q -> rank_lt r (erank e)) -> todo r g = Q.
Proof.
  intros E HX HQ. unfold todo. rewrite E, list.filter_app.
  rewrite (filter_none _ X) by done. by apply filter_all.
Qed.
Lemma todo_head r g X e Q : items g = X ++ e :: Q -> StronglySorted entry_lt (items g) -> (forall x, x ∈ X -> ~ rank_lt r (erank x)) -> rank_lt r (erank e) ->
  todo r g = e :: Q /\ todo (erank e) g = Q /\ forall x, x ∈ X ++ [e] -> ~ rank_lt (erank e) (erank x).
Proof.
  intros E Hs HX He. rewrite E in Hs. apply sorted_app_iff in Hs as (_ & Hs & HXs). apply StronglySorted_inv in Hs as [_ F]. rewrite Forall_forall in F.
  assert (HXe : forall x, x ∈ X ++ [e] -> ~ rank_lt (erank e) (erank x)).
  { intros x [Hx| ->%list_elem_of_singleton]%elem_of_app; [|apply rank_lt_irrefl]. intros Hr. apply (rank_lt_irrefl (erank x)). eapply rank_lt_trans; [|exact Hr].
    apply HXs; [done|left]. }
  split_and!; [| |done].
  - apply (todo_split _ _ X); [done..|]. intros x [->|Hx]%elem_of_cons; [done|]. eapply rank_lt_trans; [exact He|]. by apply F, list_elem_of_In.
  - apply (todo_split _ _ (X ++ [e])); [by rewrite <- app_assoc|done|by intros x Hx; apply F, list_elem_of_In].
Qed.

Abbreviation cursor := (cursor unit).
(** A scan between two entries of a leaf: what is before the index has been passed. *)
Record at_place (c : cursor) (p : list Z) (g : glayer) (r : rank) (st : list Z) (n : Z) (l : leaf) (A B : list (Z * list entry)) : Prop := {
  ap_layer : G !! p = Some g;
  ap_place : leaf_place lw t (gshape g) n l A B;
  ap_leaf : n_ (stack_ c) = n;
  ap_perm : perm_ (stack_ c) = permutation_ l;
  ap_index : 0 <= ki_ (stack_ c) <= lsize l;
  ap_stack : node_stack_ (stack_ c) = st;
  ap_prefix : at_prefix (ka_ c) (buf_ c) p;
  ap_rank : rank_of (ka_ c) = r;
  ap_length : 0 <= len_ (ka_ c);
  ap_passed : forall e, e ∈ all_entries A ++ take (Z.to_nat (ki_ (stack_ c))) (entries l) -> ~ rank_lt r (erank e)
}.
(** What [find_next] comes to. *)
Inductive outcome (p : list Z) (g : glayer) (r : rank) (st : list Z) (B : list (Z * list entry)) : scan_state -> cursor -> Prop :=
| out_up c : todo r (gshape g) = [] -> at_prefix (ka_ c) (buf_ c) p -> node_stack_ (stack_ c) = st -> outcome p g r st B scan_up c
| out_next c n l A' B' : at_place c p g r st n l A' B' -> (List.length B' < List.length B)%nat -> outcome p g r st B scan_find_next c
| out_emit c e Q k n l A' : todo r (gshape g) = e :: Q -> todo (erank e) (gshape g) = Q -> entry_key e k -> entry_ c = lv e ->
    mem_bytes (buf_ c) (full_string (ka_ c)).1 (full_string (ka_ c)).2 = p ++ k ->
    at_place (with_stack c (set_ki (stack_ c) (ki_ (stack_ c) + 1))) p g (erank e) st n l A' B -> outcome p g r st B scan_emit c
| out_down c e Q s n l A' root0 : todo r (gshape g) = e :: Q -> todo (erank e) (gshape g) = Q -> layer_slice e s -> scan_root_ (stack_ c) = lv e ->
    node_stack_ (stack_ c) = n :: root0 :: st -> leaf_place lw t (gshape g) n l A' B -> e ∈ entries l ->
    at_prefix (ka_ c) (buf_ c) p -> mem_bytes (buf_ c) (s_ (ka_ c)) 8 = s -> outcome p g r st B scan_down c.

(** ** Steps of [find_next] *)
Lemma read_key buf a k : mem_bytes buf a 8 = pad 8 k -> mem_bytes buf (a + 8) (Z.of_nat (List.length (drop 8 k))) = drop 8 k ->
  mem_bytes buf a (Z.of_nat (List.length k)) = k.
Proof.
  intros H1 H2. destruct (decide (List.length k <= 8)%nat) as [Hl|Hl].
  - replace 8 with (Z.of_nat (List.length k) + (8 - Z.of_nat (List.length k))) in H1 by lia. rewrite mem_bytes_app in H1 by lia.
    apply (f_equal (take (List.length k))) in H1. rewrite take_app_length' in H1 by (rewrite length_mem_bytes; lia). rewrite H1.
    rewrite pad_spec, take_app_le by (rewrite length_take; lia). rewrite take_take. by rewrite take_ge by lia.
  - rewrite length_drop in H2. replace (Z.of_nat (List.length k)) with (8 + Z.of_nat (List.length k - 8)) by lia.
    rewrite mem_bytes_app, H1, H2, pad_take by lia. apply take_drop.
Qed.
Lemma entry_slice e k : entry_key e k -> ikey0 e = be_value (pad 8 k) /\ List.length (pad 8 k) = 8%nat /\ Forall byte_ok (pad 8 k).
Proof.
  intros H. destruct (entry_key_rank _ _ H) as (Hb & Hr & _). split_and!; [|apply length_pad|by apply pad_ok].
  unfold krank, erank in Hr. by injection Hr.
Qed.
(** The suffix of an entry is stored before its slice. *)
Lemma suffix_step ka buf p g e : at_prefix ka buf p -> G !! p = Some g -> e ∈ items (gshape g) ->
  exists keylen buf', (if keylenx e =? ksuf_keylenx then store_suffix mk keybuf ka (ksuf e) buf else Some (keylenx e, buf)) = Some (keylen, buf') /\
    at_prefix ka buf' p /\ forall k, entry_key e k -> keylen = Z.of_nat (List.length k) /\
      mem_bytes buf' (s_ ka + 8) (Z.of_nat (List.length (drop 8 k))) = drop 8 k.
Proof.
  intros Hp Hg He. destruct (lo_items _ _ _ _ _ (inv_layer _ _ _ _ _ _ I _ _ Hg) e He) as [[k Hk]|[s Hs]].
  - pose proof (key_room p g e k Hg He Hk) as Hr. rewrite length_app in Hr. pose proof mk_size as Hms. destruct Hk as [e k E L Hb Ei|e s E L Hb N Ei].
    + exists (keylenx e), buf. rewrite E. destruct (Z.eqb_spec (Z.of_nat (List.length k)) ksuf_keylenx) as [Ek|_]; [unfold ksuf_keylenx in Ek; lia|].
      split_and!; [done..|]. intros k' Hk'. rewrite (entry_key_inj e k' k Hk' ltac:(by constructor)). split; [done|]. by rewrite drop_ge by lia.
    + rewrite E, Z.eqb_refl. rewrite length_app, L in Hr. apply Forall_app in Hb as Hb2. destruct (store_suffix_ok ka buf p (ksuf e) Hp (proj2 Hb2) ltac:(lia)) as (buf' & -> & Hp' & H1 & _).
      exists (8 + Z.of_nat (List.length (ksuf e))), buf'. split_and!; [done..|]. intros k' Hk'. rewrite (entry_key_inj e k' (s ++ ksuf e) Hk' ltac:(by apply key_long)).
      rewrite drop_app_length' by done. split; [rewrite length_app; lia|done].
  - exists (keylenx e), buf. pose proof (proj1 Hs) as E. rewrite E. change (layer_keylenx =? ksuf_keylenx) with false. split_and!; [done..|].
    intros k Hk. exfalso. exact (layer_not_key e s k Hs Hk).
Qed.
Lemma place_in g n l A B i : leaf_place lw t g n l A B -> 0 <= i < lsize l -> nth_entry l i ∈ entries l /\ nth_entry l i ∈ items g.
Proof.
  intros P Hi. assert (H : nth_entry l i ∈ entries l) by (apply entries_elem; by exists i). split; [done|].
  rewrite (pl_items _ _ _ _ _ _ _ P), !elem_of_app. tauto.
Qed.
Lemma entries_around l i : 0 <= i < lsize l -> entries l = take (Z.to_nat i) (entries l) ++ nth_entry l i :: drop (Z.to_nat (i + 1)) (entries l).
Proof.
  intros Hi. pose proof (entries_lookup l i Hi) as E. rewrite <- (take_drop_middle _ _ _ E) at 1. by replace (Z.to_nat (i + 1)) with (S (Z.to_nat i)) by lia.
Qed.
Lemma items_cut g n l A B i : leaf_place lw t g n l A B -> 0 <= i < lsize l ->
  items g = (all_entries A ++ take (Z.to_nat i) (entries l)) ++ nth_entry l i :: drop (Z.to_nat (i + 1)) (entries l) ++ all_entries B.
Proof. intros P Hi. rewrite (pl_items _ _ _ _ _ _ _ P), (entries_around l i Hi) at 1. by rewrite <- !app_assoc. Qed.
Lemma lsize_small l : leaf_ok lw l -> 0 <= lsize l <= 15.
Proof. intros _. unfold lsize. rewrite size_nib. pose proof (nib_range (permutation_ l) 0). lia. Qed.
Lemma scan_kp_at (s : scanstackelt) l : perm_ s = permutation_ l -> 0 <= lsize l <= 15 -> 0 <= ki_ s <= lsize l ->
  scan_kp s = if ki_ s <? lsize l then elem (permutation_ l) (ki_ s) else -1.
Proof.
  intros E Hl Hi. unfold scan_kp, scan_size. rewrite E. change (Permuter.size (permutation_ l)) with (lsize l).
  rewrite !wrap_small by lia. done.
Qed.

(** The index of the first entry that is not before the key, in a leaf that is entered. *)
Lemma lower_place p g n l A B (c : cursor) st : G !! p = Some g -> leaf_place lw t (gshape g) n l A B -> at_prefix (ka_ c) (buf_ c) p -> 0 <= len_ (ka_ c) ->
  node_stack_ (stack_ c) = st -> (forall e, e ∈ all_entries A -> ~ rank_lt (rank_of (ka_ c)) (erank e)) ->
  let s := set_leaf (stack_ c) n (permutation_ l) (ki_ (stack_ c)) in
  exists i, lower tt (ka_ c) s = Some i /\ at_place (with_stack c (set_ki s i)) p g (rank_of (ka_ c)) st n l A B.
Proof.
  intros Hg P Hp Hlen Hst HA s. destruct (place_lower lw t bnd _ n l A B (ka_ c) P Hlen) as (kx & Hkx & Hi & Hlt & _).
  exists (kx_i kx). split.
  - cbn. unfold lower_scan. cbn. rewrite (pl_leaf _ _ _ _ _ _ _ P). cbn. unfold leaf_lower in Hkx. by rewrite Hkx.
  - split; try done. cbn. intros e [He|He]%elem_of_app; [by apply HA|]. intros Hr. apply Hlt in He. apply (rank_lt_irrefl (erank e)). eapply rank_lt_trans; [exact He|exact Hr].
Qed.
Lemma enter_place fuel p g n l A B (c : cursor) st : G !! p = Some g -> leaf_place lw t (gshape g) n l A B -> at_prefix (ka_ c) (buf_ c) p -> 0 <= len_ (ka_ c) ->
  node_stack_ (stack_ c) = st -> (forall e, e ∈ all_entries A -> ~ rank_lt (rank_of (ka_ c)) (erank e)) ->
  exists c', enter_leaf t fuel n c = Some c' /\ at_place c' p g (rank_of (ka_ c)) st n l A B.
Proof.
  intros Hg P Hp Hlen Hst HA. destruct (lower_place p g n l A B c st Hg P Hp Hlen Hst HA) as (i & Hi & Hc). cbv zeta in Hi, Hc.
  eexists. split; [|exact Hc]. unfold enter_leaf. cbn [stable forward forward_scan_helper mbind option_bind].
  rewrite (pl_leaf _ _ _ _ _ _ _ P). cbn [mbind option_bind]. destruct (helper_ c). by rewrite Hi.
Qed.

(** At the end of a leaf the scan goes to the next leaf, or up. *)
Lemma find_next_end c p g r st n l A B : at_place c p g r st n l A B -> ki_ (stack_ c) = lsize l ->
  exists st' c', (forall fuel, (1 <= fuel)%nat -> find_next mk keybuf t fuel c = Some (st', c')) /\ outcome p g r st B st' c'.
Proof.
  intros [Hg P Hn Hpm Hi Hst Hp Hr Hlen Hpass] Hend. pose proof (scan_kp_at (stack_ c) l Hpm (lsize_small l (pl_ok _ _ _ _ _ _ _ P)) Hi) as Hkp.
  rewrite Hend, Z.ltb_irrefl in Hkp.
  assert (Hfull : forall e, e ∈ all_entries A ++ entries l -> ~ rank_lt r (erank e)).
  { intros e He. apply Hpass. rewrite Hend. unfold entries at 1. rewrite take_ge; [done|]. rewrite length_fmap, length_seqZ. lia. }
  set (c1 := with_key (with_stack c (set_leaf (stack_ c) (hd 0 B.*1) (perm_ (stack_ c)) (ki_ (stack_ c)))) (ka_ c) (buf_ c)).
  assert (Hstep : forall fuel, find_next mk keybuf t (S fuel) c =
    if hd 0 B.*1 =? 0 then Some (scan_up, c1) else c2 ← enter_leaf t fuel (hd 0 B.*1) c1; Some (scan_find_next, c2)).
  { intros fuel. cbn [find_next]. rewrite Hn, (pl_leaf _ _ _ _ _ _ _ P). cbn [mbind option_bind]. rewrite Hkp. change (0 <=? -1) with false. cbn match.
    cbn [advance forward forward_scan_helper]. rewrite (pl_leaf _ _ _ _ _ _ _ P). cbn [mbind option_bind]. by rewrite (pl_next _ _ _ _ _ _ _ P). }
  destruct B as [|[n' es'] B].
  - exists scan_up, c1. split; [intros [|fuel] Hf; [lia|]; by rewrite Hstep|]. apply out_up; [|done..].
    apply (todo_split _ _ (all_entries A ++ entries l)); [|done|intros e He; by apply elem_of_nil in He].
    rewrite app_nil_r. rewrite (pl_items _ _ _ _ _ _ _ P). cbn. by rewrite app_nil_r.
  - destruct (next_place lw iw t p g n l A n' es' B (inv_layer _ _ _ _ _ _ I _ _ Hg) P) as (l' & E' & P').
    pose proof (pl_nonnull _ _ _ _ _ _ _ P) as Hnz. apply Forall_inv in Hnz. cbn in Hnz.
    destruct (enter_place 0 p g n' l' _ B c1 st Hg P' Hp Hlen Hst) as (c2 & Hc2 & Hat).
    { intros e He. cbn. rewrite Hr. apply Hfull. by rewrite all_entries_app in He; cbn in He; rewrite app_nil_r in He. }
    exists scan_find_next, c2. split.
    + intros [|fuel] Hf; [lia|]. rewrite Hstep. cbn [hd fmap list_fmap fst]. rewrite (proj2 (Z.eqb_neq _ _) Hnz).
      replace (enter_leaf t fuel n' c1) with (enter_leaf t 0 n' c1) by done. by rewrite Hc2.
    + eapply out_next; [cbn in Hat; rewrite Hr in Hat; exact Hat|cbn; lia].
Qed.

(** What [find_next] does at an entry. *)
Lemma find_next_at c p g r st n l A B fuel : at_place c p g r st n l A B -> ki_ (stack_ c) < lsize l ->
  let e := nth_entry l (ki_ (stack_ c)) in
  find_next mk keybuf t (S fuel) c =
  ('(keylen, buf) ← (if keylenx e =? ksuf_keylenx then store_suffix mk keybuf (ka_ c) (ksuf e) (buf_ c) else Some (keylenx e, buf_ c));
   let c := with_key (with_entry c (lv e)) (ka_ c) buf in
   if 0 <=? key_compare 8 (ka_ c) (ikey0 e) (keylenx e) then find_next mk keybuf t fuel (with_stack c (set_ki (stack_ c) (ki_ (stack_ c) + 1)))
   else
     '(k, buf) ← store_ikey mk keybuf (ka_ c) (ikey0 e) (buf_ c);
     let c := with_helper (with_key c k buf) (helper_ c) in
     if keylenx e =? layer_keylenx then Some (scan_down, with_stack c (push_layer (stack_ c) (lv e)))
     else Some (scan_emit, with_key c (assign_store_length k keylen) buf)).
Proof.
  intros [Hg P Hn Hpm Hi Hst Hp Hr Hlen Hpass] Hlt e. pose proof (scan_kp_at (stack_ c) l Hpm (lsize_small l (pl_ok _ _ _ _ _ _ _ P)) Hi) as Hkp.
  rewrite (proj2 (Z.ltb_lt _ _) Hlt) in Hkp. cbn [find_next]. rewrite Hn, (pl_leaf _ _ _ _ _ _ _ P). cbn [mbind option_bind].
  assert (Hnn : 0 <= elem (permutation_ l) (ki_ (stack_ c))) by apply elem_nonneg. rewrite Hkp, (proj2 (Z.leb_le _ _) Hnn).
  change (slot l (elem (permutation_ l) (ki_ (stack_ c)))) with e. destruct (if keylenx e =? ksuf_keylenx then _ else _) as [[keylen buf]|]; [|done].
  cbn [mbind option_bind]. cbn [is_duplicate next found forward forward_scan_helper ka_ with_key with_entry with_stack helper_ stack_ buf_].
  destruct (0 <=? _); [done|]. by destruct (store_ikey _ _ _ _ _) as [[k buf']|].
Qed.
Lemma rank_order ka e : 0 <= len_ ka -> 0 <= keylenx e -> (0 <=? key_compare 8 ka (ikey0 e) (keylenx e)) = bool_decide (~ rank_lt (rank_of ka) (erank e)).
Proof.
  intros H1 H2. destruct (key_compare_rank ka e H1 H2) as (C1 & _). apply eq_iff_eq_true. rewrite bool_decide_eq_true, Z.leb_le, <- C1. lia.
Qed.
Lemma find_next_ok c p g r st n l A B : at_place c p g r st n l A B ->
  exists st' c' N, (forall fuel, (N <= fuel)%nat -> find_next mk keybuf t fuel c = Some (st', c')) /\ outcome p g r st B st' c'.
Proof.
  remember (Z.to_nat (lsize l - ki_ (stack_ c))) as d eqn:Ed. revert c Ed. induction d as [|d IH]; intros c Ed H; pose proof H as [Hg P Hn Hpm Hi Hst Hp Hr Hlen Hpass].
  { destruct (find_next_end c p g r st n l A B H) as (st' & c' & ? & ?); [lia|]. by exists st', c', 1%nat. }
  destruct (place_in (gshape g) n l A B (ki_ (stack_ c)) P) as [Hel Hei]; [lia|]. pose proof (items_cut (gshape g) n l A B (ki_ (stack_ c)) P) as Hcut.
  set (e := nth_entry l (ki_ (stack_ c))) in *. set (i := ki_ (stack_ c)) in *.
  destruct (suffix_step (ka_ c) (buf_ c) p g e Hp Hg Hei) as (keylen & buf' & Esx & Hp' & Hkl).
  assert (Hkx : 0 <= keylenx e) by (pose proof (proj2 (pl_ok _ _ _ _ _ _ _ P)) as F; rewrite Forall_forall in F; by apply F, list_elem_of_In).
  assert (Hstep : forall fuel, _) by (intros fuel; exact (find_next_at c p g r st n l A B fuel H ltac:(lia))). cbv zeta in Hstep. fold i in Hstep. fold e in Hstep.
  rewrite Esx in Hstep. cbn [mbind option_bind ka_ with_key with_entry] in Hstep. rewrite (rank_order _ _ Hlen Hkx), Hr in Hstep.
  case_bool_decide as Hdup.
  - (* passed over *)
    destruct (IH (with_stack (with_key (with_entry c (lv e)) (ka_ c) buf') (set_ki (stack_ c) (i + 1)))) as (st' & c' & N & HN & Ho); [cbn; lia| |].
    + split; try done; cbn; [lia|]. intros x Hx. replace (Z.to_nat (i + 1)) with (S (Z.to_nat i)) in Hx by lia.
      rewrite (take_S_r _ _ e) in Hx by (apply entries_lookup; lia). rewrite app_assoc in Hx. apply elem_of_app in Hx as [Hx| ->%list_elem_of_singleton]; [by apply Hpass|done].
    + exists st', c', (S N). split; [|done]. intros [|fuel] Hf; [lia|]. rewrite Hstep. apply HN. lia.
  - pose proof (inv_layer _ _ _ _ _ _ I _ _ Hg) as L.
    assert (Hsl : exists s, ikey0 e = be_value s /\ List.length s = 8%nat /\ Forall byte_ok s /\ (forall k, entry_key e k -> s = pad 8 k) /\ forall s', layer_slice e s' -> s = s').
    { destruct (lo_items _ _ _ _ _ L e Hei) as [[k Hk]|[s Hs]].
      - exists (pad 8 k). destruct (entry_slice e k Hk) as (? & ? & ?). split_and!; [done..|by intros k' Hk'; rewrite (entry_key_inj e k k')|]. intros s' Hs'. by destruct (layer_not_key e s' k).
      - exists s. pose proof Hs as (_ & ? & ? & ?). split_and!; [done..|by intros k Hk; destruct (layer_not_key e s k)|]. intros s'. by apply layer_slice_inj. }
    destruct Hsl as (s & Eik & Hs8 & Hsb & Hsk & Hsl). destruct (store_ikey_ok (ka_ c) buf' p s Hp' Hs8 Hsb (prefix_room p g Hg)) as (buf2 & Esi & Hp2 & Hrd & Hrd2).
    rewrite Eik in Hstep. cbn [buf_ with_key with_entry] in Hstep. rewrite Esi in Hstep. cbn [mbind option_bind] in Hstep.
    destruct (todo_head r (gshape g) _ e _ (Hcut ltac:(lia)) (ents_sorted _ (lo_sorted _ _ _ _ _ L)) Hpass Hdup) as (Htd1 & Htd2 & Htd3).
    destruct (lo_items _ _ _ _ _ L e Hei) as [[k Hk]|[s' Hs']].
    + destruct (entry_key_rank e k Hk) as (Hkb & Hkr & Hkn & _). destruct (Hkl k Hk) as [-> Hsfx]. rewrite (proj2 (Z.eqb_neq (keylenx e) layer_keylenx)) in Hstep by lia.
      eexists scan_emit, _, 1%nat. split; [intros [|fuel] Hf; [lia|]; exact (Hstep fuel)|].
      eapply (out_emit p g r st B _ e _ k n l A); [exact Htd1|exact Htd2|done|done| |].
      * pose proof Hp2 as (E1 & E2 & _). cbn. rewrite E1, E2. replace (keybuf + Z.of_nat (List.length p) + Z.of_nat (List.length k) - keybuf) with (Z.of_nat (List.length p) + Z.of_nat (List.length k)) by lia.
        apply (read_prefix (ka_ c)); [done|lia|]. apply read_key; [by rewrite Hrd, (Hsk k Hk)|]. by rewrite Hrd2.
      * split; try done; cbn; [lia| |lia|].
        -- unfold rank_of. cbn. rewrite <- Hkr. unfold krank. by rewrite <- (Hsk k Hk).
        -- intros x Hx. apply Htd3. fold i in Hx. replace (Z.to_nat (i + 1)) with (S (Z.to_nat i)) in Hx by lia.
           by rewrite (take_S_r _ _ e), app_assoc in Hx by (apply entries_lookup; lia).
    + rewrite (proj1 Hs'), Z.eqb_refl in Hstep. eexists scan_down, _, 1%nat. split; [intros [|fuel] Hf; [lia|]; exact (Hstep fuel)|].
      eapply (out_down p g r st B _ e _ s' n l A (scan_root_ (stack_ c))); [exact Htd1|exact Htd2|done|done|cbn; by rewrite Hn, Hst|done|done|done|]. rewrite (Hsl s' Hs') in Hrd. exact Hrd.
Qed.

(** ** Between layers *)
Lemma rank_first e : entry_ok e -> keylenx e <> 0 -> rank_lt (0, 0) (erank e).
Proof.
  intros He Hn. assert (H : 0 <= ikey0 e /\ 0 <= keylenx e).
  { assert (Hbe : forall s, Forall byte_ok s -> 0 <= be_value s) by (intros s Hs; by apply be_value_range).
    destruct He as [[k Hk]|[s (E & _ & Hb & ->)]]; [|split; [by apply Hbe|rewrite E; done]].
    destruct (entry_slice e k Hk) as (-> & _ & Hb). destruct (entry_key_rank e k Hk) as (_ & _ & _ & ?). split; [by apply Hbe|done]. }
  unfold rank_lt, erank. cbn. lia.
Qed.
Lemma down_place (c : cursor) p g n l A B root0 st e s : G !! p = Some g -> leaf_place lw t (gshape g) n l A B -> e ∈ entries l -> layer_slice e s ->
  scan_root_ (stack_ c) = lv e -> node_stack_ (stack_ c) = n :: root0 :: st -> at_prefix (ka_ c) (buf_ c) p -> mem_bytes (buf_ c) (s_ (ka_ c)) 8 = s ->
  exists g' c' n' l' A' B' N, G !! (p ++ s) = Some g' /\ gptr g' = lv e /\
    (forall fuel, (N <= fuel)%nat -> find_retry bnd t fuel (with_key c (shift_clear 8 (ka_ c)) (buf_ c)) = Some (scan_find_next, c')) /\
    at_place c' (p ++ s) g' (0, 0) (n :: root0 :: st) n' l' A' B' /\ todo (0, 0) (gshape g') = items (gshape g').
Proof.
  intros Hg P He Hs Hroot Hst Hp Hb. assert (Hei : e ∈ items (gshape g)) by (rewrite (pl_items _ _ _ _ _ _ _ P), !elem_of_app; tauto).
  destruct (inv_sub _ _ _ _ _ _ I p g e s Hg Hei Hs) as (g' & Hg' & Hptr). pose proof (inv_layer _ _ _ _ _ _ I _ _ Hg') as L'. pose proof Hs as (_ & Hs8 & _).
  set (c1 := with_key c (shift_clear 8 (ka_ c)) (buf_ c)).
  destruct (reach_place lw iw t bnd _ g' (ka_ c1) L') as (n' & l' & A' & B' & N & P' & HN & HA & _).
  assert (Hp1 : at_prefix (ka_ c1) (buf_ c1) (p ++ s)).
  { pose proof Hp as (E1 & E2 & E3 & E4). split_and!; [done| | |done]; cbn; rewrite length_app, Hs8; [lia|].
    rewrite Nat2Z.inj_add. by apply (read_prefix (ka_ c)). }
  destruct (lower_place (p ++ s) g' n' l' A' B' c1 (n :: root0 :: st) Hg' P' Hp1 ltac:(done) Hst) as (i & Hi & Hat).
  { intros x Hx. rewrite Forall_forall in HA. apply list_elem_of_In, HA in Hx. change (rank_of (ka_ c1)) with ((0, 0) : rank). change (ikey (ka_ c1)) with 0 in Hx.
    unfold rank_lt, erank. cbn. lia. }
  exists g', (with_stack c1 (set_ki (set_leaf (stack_ c1) n' (permutation_ l') (ki_ (stack_ c1))) i)), n', l', A', B', N. split_and!; [done..| |exact Hat|].
  - intros fuel Hf. fold c1. unfold find_retry. replace (scan_root_ (stack_ c1)) with (gptr g') by (cbn; congruence). rewrite (HN fuel Hf). cbn [mbind option_bind]. rewrite (pl_leaf _ _ _ _ _ _ _ P'). cbn [mbind option_bind].
    cbv zeta in Hi. destruct (helper_ c1). by rewrite Hi.
  - apply filter_all. intros x Hx. apply rank_first; [by apply (lo_items _ _ _ _ _ L')|]. apply (lo_nonempty _ _ _ _ _ L'); [|done].
    intros Hd. apply (f_equal List.length) in Hd. rewrite length_app, Hs8 in Hd. cbn in Hd. lia.
Qed.
Lemma up_place (c : cursor) p g n l A B root0 st e s : G !! p = Some g -> leaf_place lw t (gshape g) n l A B -> e ∈ entries l -> layer_slice e s ->
  node_stack_ (stack_ c) = n :: root0 :: st -> at_prefix (ka_ c) (buf_ c) (p ++ s) ->
  exists c1 c', (forall fuel, (1 <= fuel)%nat -> climb_up unaligned fuel c = Some (Some c1)) /\ n_ (stack_ c1) = n /\
    (forall fuel, enter_leaf t fuel n c1 = Some c') /\ at_place c' p g (erank e) st n l A B.
Proof.
  intros Hg P He Hs Hst (E1 & E2 & E3 & Hb). pose proof Hs as (Hs1 & Hs8 & Hsb & Hs4).
  set (c1 := with_key (with_stack c {| scan_root_ := root0; n_ := n; perm_ := perm_ (stack_ c); ki_ := ki_ (stack_ c); node_stack_ := st |})
    (unshift unaligned 8 (buf_ c) (ka_ c)) (buf_ c)).
  rewrite length_app, Hs8 in E2, E3. rewrite Nat2Z.inj_add, mem_bytes_app in E3 by lia. apply app_inj_1 in E3 as [E3 E4]; [|rewrite length_mem_bytes; lia].
  assert (Hr : rank_of (ka_ c1) = erank e).
  { unfold rank_of, erank. cbn. rewrite make_comparable_sloppy_eq, make_comparable_be, slice_bytes_pad by done.
    rewrite Hs4, Hs1. change (Z.of_nat 8) with 8 in *. replace (s_ (ka_ c) - 8) with (keybuf + Z.of_nat (List.length p)) by lia. rewrite E4.
    change (Z.to_nat 8) with 8%nat. rewrite pad_take by lia. by rewrite take_ge by lia. }
  assert (Hp : at_prefix (ka_ c1) (buf_ c1) p) by (split_and!; [done| |done..]; cbn; lia).
  destruct (enter_place 0 p g n l A B c1 st Hg P Hp ltac:(done) eq_refl) as (c' & Hc' & Hat).
  { intros x Hx Hlt. rewrite Hr in Hlt. pose proof (pl_sorted _ _ _ _ _ _ _ P) as Hso. apply sorted_app_iff in Hso as (_ & _ & Hso).
    apply (rank_lt_irrefl (erank x)). eapply rank_lt_trans; [|exact Hlt]. apply Hso; [done|]. apply elem_of_app. by left. }
  exists c1, c'. rewrite Hr in Hat. split_and!; [|done|done|done].
  intros [|fuel] Hf; [lia|]. cbn [climb_up]. rewrite Hst. cbn [head mbind option_bind tail]. fold c1.
  replace (empty (ka_ c1)) with false; [done|]. symmetry. unfold empty. apply andb_false_iff. by right.
Qed.

(** * The main loop *)
Section Visitor.
Context {A : Type} (F : scanner A) (Hleaf : forall s k a, visit_leaf F s k a = a).

(** The loop ends with a result, and [find_next] leads to it. *)
Definition ends (st : scan_state) (c : cursor) (count : Z) (a : A) (r : Z * A) : Prop :=
  exists N, forall fuel, (N <= fuel)%nat -> scan_loop bnd unaligned mk keybuf t F fuel st c count a = Some r.
Definition goes (c : cursor) (count : Z) (a : A) (r : Z * A) : Prop :=
  exists st c' N, (forall fuel, (N <= fuel)%nat -> find_next mk keybuf t fuel c = Some (st, c')) /\ ends st c' count a r.

Lemma next_case_goes fuel c a st c' : find_next mk keybuf t fuel c = Some (st, c') -> next_case mk keybuf t F fuel c a = Some (st, c', a).
Proof. intros E. unfold next_case. rewrite E. cbn [mbind option_bind]. rewrite Hleaf. by destruct st. Qed.
Lemma ends_find_next c count a r : goes c count a r -> ends scan_find_next c count a r.
Proof.
  intros (st & c' & N & HN & N' & HN'). exists (S (Nat.max N N')). intros [|fuel] Hf; [lia|]. cbn [scan_loop].
  rewrite (next_case_goes fuel c a st c') by (apply HN; lia). apply HN'. lia.
Qed.
Lemma ends_emit c count a key L : mem_bytes (buf_ c) (full_string (ka_ c)).1 (full_string (ka_ c)).2 = key ->
  (forall a', goes (with_stack c (set_ki (stack_ c) (ki_ (stack_ c) + 1))) (count + 1) a' (visit_all F L (count + 1) a')) ->
  ends scan_emit c count a (visit_all F ((key, entry_ c) :: L) count a).
Proof.
  intros Hkey Hg. cbn [visit_all]. destruct (visit_value F key (entry_ c) a) as [a' go] eqn:E. destruct go.
  - destruct (Hg a') as (st & c' & N & HN & N' & HN'). exists (S (Nat.max N N')). intros [|fuel] Hf; [lia|]. cbn [scan_loop].
    rewrite Hkey, E. cbn [next forward forward_scan_helper]. rewrite HN by lia. apply HN'. lia.
  - exists 1%nat. intros [|fuel] Hf; [lia|]. cbn [scan_loop]. by rewrite Hkey, E.
Qed.
Lemma ends_down (c c' : cursor) count a r N : (forall fuel, (N <= fuel)%nat -> find_retry bnd t fuel (with_key c (shift_clear 8 (ka_ c)) (buf_ c)) = Some (scan_find_next, c')) ->
  goes c' count a r -> ends scan_down c count a r.
Proof.
  intros HN Hg. destruct (ends_find_next c' count a r Hg) as [N' HN']. exists (S (Nat.max N N')). intros [|fuel] Hf; [lia|]. cbn [scan_loop helper_shift_clear forward forward_scan_helper].
  replace (with_helper (with_key c (shift_clear 8 (ka_ c)) (buf_ c)) (helper_ c)) with (with_key c (shift_clear 8 (ka_ c)) (buf_ c)) by done.
  rewrite HN by lia. apply HN'. lia.
Qed.
Lemma ends_up c c1 c' n count a r : (forall fuel, (1 <= fuel)%nat -> climb_up unaligned fuel c = Some (Some c1)) -> n_ (stack_ c1) = n ->
  (forall fuel, enter_leaf t fuel n c1 = Some c') -> goes c' count a r -> ends scan_up c count a r.
Proof.
  intros Hc1 <- Hc' (st & c2 & N & HN & N' & HN'). exists (S (S (Nat.max N N'))). intros [|fuel] Hf; [lia|]. cbn [scan_loop].
  rewrite Hc1 by lia. cbn [mbind option_bind]. rewrite Hc'. cbn [mbind option_bind].
  rewrite (next_case_goes fuel c' a st c2) by (apply HN; lia). apply HN'. lia.
Qed.

(** The leaves without entries to visit are passed. *)
Lemma goes_place c p g r st n l A0 B count a res : at_place c p g r st n l A0 B ->
  (forall st' c' B', outcome p g r st B' st' c' -> st' <> scan_find_next -> ends st' c' count a res) -> goes c count a res.
Proof.
  remember (List.length B) as b eqn:Eb. revert c n l A0 B Eb. induction b as [b IH] using lt_wf_ind. intros c n l A0 B -> Hat Hout.
  destruct (find_next_ok c p g r st n l A0 B Hat) as (st' & c' & N & HN & Ho). exists st', c', N. split; [done|].
  destruct (decide (st' = scan_find_next)) as [->|Hne]; [|by eapply Hout]. inversion Ho as [|? n' l' A' B' Hat' Hlt| |]; subst.
  apply ends_find_next. exact (IH _ Hlt c' n' l' A' B' eq_refl Hat' Hout).
Qed.

(** From a place in a layer the rest of the layer is visited, then what comes after it. *)
Definition climbs (p st : list Z) (R : list binding) : Prop := forall c count a,
  at_prefix (ka_ c) (buf_ c) p -> node_stack_ (stack_ c) = st -> ends scan_up c count a (visit_all F R count a).
Lemma visits p Q L : lists G p Q L -> forall g r c count a n l A0 B st R, at_place c p g r st n l A0 B -> todo r (gshape g) = Q ->
  climbs p st R -> goes c count a (visit_all F (L ++ R) count a).
Proof.
  induction 1 as [p|p e es k L Hk HL IH|p e es s g' L1 L2 Hs Hg' Hp HL1 IH1 HL2 IH2]; intros g r c count a n l A0 B st R Hat Htd Hup;
    apply (goes_place c p g r st n l A0 B count a _ Hat); intros st' c' B' Ho Hne; destruct Ho as [c' Htd' Hpc Hst|c'|c' e' Q k' n' l' A' Htd' Hq Hk' He' Hkey Hat'|c' e' Q s' n' l' A' root0 Htd' Hq Hs' Hroot Hst P' Hel Hpc Hrd]; try congruence.
  - by apply Hup.
  - rewrite Htd' in Htd. injection Htd as -> ->. rewrite (entry_key_inj e k k' Hk Hk'), <- He'. cbn [app]. apply ends_emit; [done|].
    intros a'. by eapply IH.
  - rewrite Htd' in Htd. injection Htd as -> ->. by destruct (layer_not_key e s' k).
  - rewrite Htd' in Htd. injection Htd as -> ->. by destruct (layer_not_key e s k').
  - rewrite Htd' in Htd. injection Htd as -> ->. pose proof (layer_slice_inj e s s' Hs Hs') as <-.
    destruct (down_place c' p g n' l' A' B' root0 st e s (ap_layer _ _ _ _ _ _ _ _ _ Hat) P' Hel Hs Hroot Hst Hpc Hrd) as (g2 & c2 & n2 & l2 & A2 & B2 & N & Hg2 & Hp2 & HN & Hat2 & Htd2).
    assert (g2 = g') as -> by congruence. apply (ends_down c' c2 count a _ N HN). rewrite <- app_assoc. apply (IH1 g' (0, 0) c2 count a n2 l2 A2 B2 (n' :: root0 :: st) (L2 ++ R) Hat2 Htd2).
    intros c3 count3 a3 Hp3 Hst3. destruct (up_place c3 p g n' l' A' B' root0 st e s (ap_layer _ _ _ _ _ _ _ _ _ Hat) P' Hel Hs Hst3 Hp3) as (c4 & c5 & H4 & H4n & H5 & Hat5).
    apply (ends_up c3 c4 c5 n' count3 a3 _ H4 H4n H5). by eapply IH2.
Qed.

(** ** The descent to the first key *)
Inductive stacked : list Z -> list Z -> list binding -> Prop :=
| stacked_nil : stacked [] [] []
| stacked_cons p st R g n l A0 B root0 e s L : G !! p = Some g -> leaf_place lw t (gshape g) n l A0 B -> e ∈ entries l -> layer_slice e s ->
    lists G p (todo (erank e) (gshape g)) L -> stacked p st R -> stacked (p ++ s) (n :: root0 :: st) (L ++ R).
Lemma stacked_climbs p st R : stacked p st R -> climbs p st R.
Proof.
  induction 1 as [|p st R g n l A0 B root0 e s L Hg P He Hs HL HS IH]; intros c count a Hp Hst.
  - exists 2%nat. intros [|[|fuel]] Hf; [lia..|]. cbn [scan_loop climb_up]. by rewrite Hst.
  - destruct (up_place c p g n l A0 B root0 st e s Hg P He Hs Hst Hp) as (c1 & c2 & H1 & H1n & H2 & Hat).
    apply (ends_up c c1 c2 n count a _ H1 H1n H2). by eapply visits.
Qed.
(** Where the first key has its place among the entries of a layer. *)
Lemma from_cut p g L k emit X es Q : G !! p = Some g -> lists G p (items (gshape g)) L -> Forall byte_ok k -> items (gshape g) = X ++ es ++ Q ->
  (forall e, e ∈ X -> rank_lt (erank e) (krank k)) -> (forall e, e ∈ Q -> rank_lt (krank k) (erank e)) ->
  exists Le LQ, lists G p es Le /\ lists G p Q LQ /\ from (p ++ k) emit L = from (p ++ k) emit Le ++ LQ.
Proof.
  intros Hg HL Hk E HX HQ. rewrite E in HL. apply lists_app in HL as (LX & L2 & -> & HLX & HL). apply lists_app in HL as (Le & LQ & -> & HLe & HLQ).
  assert (Hall : forall e, e ∈ X ++ es ++ Q -> e ∈ items (gshape g)) by (by rewrite E).
  exists Le, LQ. split_and!; [done..|]. rewrite !from_app.
  rewrite (lists_before lw iw mk t root G I p g X LX k emit Hg HLX) by (done || intros; apply Hall; rewrite !elem_of_app; tauto).
  by rewrite (lists_after lw iw mk t root G I p g Q LQ k emit Hg HLQ) by (done || intros; apply Hall; rewrite !elem_of_app; tauto).
Qed.
(** What [find_initial] does at an entry with the rank of the first key. *)
Definition at_match (c : cursor) (s : scanstackelt) (e : entry) (emit : bool) : option (scan_state * cursor) :=
  let c := with_entry (with_stack c s) (lv e) in
  let skip := Some (scan_find_next, with_stack c (set_ki s (ki_ s + 1))) in
  if keylenx e =? layer_keylenx then Some (scan_down, with_stack c (push_layer s (lv e)))
  else if keylenx e =? ksuf_keylenx then
    if mk <? Z.of_nat (List.length (ksuf e)) then None
    else
      let x := lex_compare (ksuf e) (mem_bytes (buf_ c) (suffix 8 (ka_ c)).1 (suffix 8 (ka_ c)).2) in
      if (0 <? x) || (x =? 0) && emit then
        '(keylen, buf) ← store_suffix mk keybuf (ka_ c) (ksuf e) (buf_ c); Some (scan_emit, with_key c (assign_store_length (ka_ c) keylen) buf)
      else skip
  else if emit then Some (scan_emit, c) else skip.
Record first_place (c : cursor) (g : glayer) (k : list Z) (n : Z) (l : leaf) (A0 B : list (Z * list entry)) (i : Z) (s : scanstackelt) : Prop := {
  fp_place : leaf_place lw t (gshape g) n l A0 B;
  fp_index : 0 <= i <= lsize l;
  fp_stack : s = set_ki (set_leaf (stack_ c) n (permutation_ l) (ki_ (stack_ c))) i;
  fp_before : forall e, e ∈ all_entries A0 ++ take (Z.to_nat i) (entries l) -> rank_lt (erank e) (krank k)
}.
Lemma find_initial_ok c p g k emit : G !! p = Some g -> key_view (buf_ c) (ka_ c) k -> scan_root_ (stack_ c) = gptr g ->
  exists n l A0 B i s N, first_place c g k n l A0 B i s /\
    ((forall e, e ∈ drop (Z.to_nat i) (entries l) ++ all_entries B -> rank_lt (krank k) (erank e)) /\
       (forall fuel, (N <= fuel)%nat -> find_initial bnd mk keybuf t fuel emit c = Some (scan_find_next, with_stack c s)) \/
     i < lsize l /\ erank (nth_entry l i) = krank k /\
       (forall fuel, (N <= fuel)%nat -> find_initial bnd mk keybuf t fuel emit c = at_match c s (nth_entry l i) emit)).
Proof.
  intros Hg Hk Hroot. pose proof (inv_layer _ _ _ _ _ _ I _ _ Hg) as L. destruct (key_view_rank _ _ _ Hk) as [Hr Hlen].
  destruct (reach_place lw iw t bnd p g (ka_ c) L) as (n & l & A0 & B & N & P & HN & HA & HB).
  destruct (place_lower lw t bnd _ n l A0 B (ka_ c) P Hlen) as (kx & Hkx & Hi & Hlt & Hge). rewrite Hr in Hlt, Hge.
  assert (Hik : ikey (ka_ c) = (krank k).1) by (by rewrite <- Hr).
  set (s := set_ki (set_leaf (stack_ c) n (permutation_ l) (ki_ (stack_ c))) (kx_i kx)). exists n, l, A0, B, (kx_i kx), s, N. split.
  { split; [done|lia|done|]. intros e [He|He]%elem_of_app; [|by apply Hlt]. rewrite Forall_forall in HA. apply list_elem_of_In, HA in He. left. rewrite <- Hik. exact He. }
  assert (Hf : forall fuel, (N <= fuel)%nat -> find_initial bnd mk keybuf t fuel emit c =
    if 0 <=? kx_p kx then at_match c s (slot l (kx_p kx)) emit else Some (scan_find_next, with_stack c s)).
  { intros fuel Hf. unfold find_initial. rewrite Hroot, (HN fuel Hf). cbn [mbind option_bind]. rewrite (pl_leaf _ _ _ _ _ _ _ P). cbn [mbind option_bind].
    cbn [lower_with_position forward forward_scan_helper]. unfold lower_scan. cbn [n_ perm_ set_leaf]. rewrite (pl_leaf _ _ _ _ _ _ _ P). cbn [mbind option_bind].
    unfold leaf_lower in Hkx. rewrite Hkx. reflexivity. }
  destruct (Z.eqb_spec (kx_p kx) (-1)) as [Ep|Ep].
  - left. rewrite Ep in Hf. split; [|exact Hf]. intros e [He|He]%elem_of_app; [by apply Hge|].
    rewrite Forall_forall in HB. apply list_elem_of_In, HB in He. left. rewrite <- Hik. exact He.
  - right. destruct Hge as (H0 & Hlti & Hel & Hre). rewrite (proj2 (Z.leb_le _ _) H0), Hel in Hf. done.
Qed.
Definition starts (emit : bool) (c : cursor) (count : Z) (a : A) (r : Z * A) : Prop :=
  exists st c' N, (forall fuel, (N <= fuel)%nat -> initial_loop bnd unaligned mk keybuf t F fuel emit c a = Some (st, c', a)) /\ ends st c' count a r.
Lemma starts_at emit c count a st c' N r : (forall fuel, (N <= fuel)%nat -> find_initial bnd mk keybuf t fuel emit c = Some (st, c')) ->
  st <> scan_down -> ends st c' count a r -> starts emit c count a r.
Proof.
  intros HN Hst He. exists st, c', (S N). split; [|done]. intros [|fuel] Hf; [lia|]. cbn [initial_loop]. rewrite HN by lia. cbn [mbind option_bind]. rewrite Hleaf.
  by destruct st.
Qed.
Lemma starts_down emit c count a c' N r : (forall fuel, (N <= fuel)%nat -> find_initial bnd mk keybuf t fuel emit c = Some (scan_down, c')) ->
  starts emit (with_key c' (shift unaligned 8 (buf_ c') (ka_ c')) (buf_ c')) count a r -> starts emit c count a r.
Proof.
  intros HN (st & c2 & N2 & HN2 & He). exists st, c2, (S (Nat.max N N2)). split; [|done]. intros [|fuel] Hf; [lia|]. cbn [initial_loop]. rewrite HN by lia. cbn [mbind option_bind]. rewrite Hleaf.
  apply HN2. lia.
Qed.
(** The place after the index, from which the rest is visited. *)
Lemma place_from c g p k n l A0 B i s st (ka : key) buf : G !! p = Some g -> first_place c g k n l A0 B i s -> node_stack_ (stack_ c) = st ->
  at_prefix ka buf p -> 0 <= len_ ka -> rank_of ka = krank k -> forall c' j, ka_ c' = ka -> buf_ c' = buf -> stack_ c' = set_ki s j -> i <= j <= lsize l ->
  (forall e, e ∈ take (Z.to_nat j) (entries l) -> e ∈ take (Z.to_nat i) (entries l) \/ erank e = krank k) ->
  at_place c' p g (krank k) st n l A0 B.
Proof.
  intros Hg [P Hi -> HX] Hst Hp Hlen Hr c' j <- <- Hs Hj Htk. split; rewrite ?Hs; try done; [cbn; lia|].
  assert (Hle : forall e, rank_lt (erank e) (krank k) -> ~ rank_lt (krank k) (erank e)).
  { intros e H1 H2. apply (rank_lt_irrefl (erank e)). eapply rank_lt_trans; [exact H1|exact H2]. }
  cbn. intros e [He|He]%elem_of_app; [apply Hle, HX, elem_of_app; by left|].
  destruct (Htk e He) as [He'|E]; [apply Hle, HX, elem_of_app; by right|]. rewrite E. apply rank_lt_irrefl.
Qed.
Lemma take_next l i e : 0 <= i < lsize l -> e ∈ take (Z.to_nat (i + 1)) (entries l) -> e ∈ take (Z.to_nat i) (entries l) \/ e = nth_entry l i.
Proof.
  intros Hi. replace (Z.to_nat (i + 1)) with (S (Z.to_nat i)) by lia. rewrite (take_S_r _ _ (nth_entry l i)) by (apply entries_lookup; lia).
  rewrite elem_of_app, list_elem_of_singleton. done.
Qed.
Lemma todo_after g k X es Q : items g = X ++ es ++ Q -> (forall e, e ∈ X -> rank_lt (erank e) (krank k)) -> (forall e, e ∈ es -> erank e = krank k) ->
  (forall e, e ∈ Q -> rank_lt (krank k) (erank e)) -> todo (krank k) g = Q.
Proof.
  intros E HX He HQ. apply (todo_split _ _ (X ++ es)); [by rewrite <- app_assoc| |done].
  intros x [Hx|Hx]%elem_of_app; [|rewrite (He x Hx); apply rank_lt_irrefl]. intros Hlt. apply (rank_lt_irrefl (erank x)). eapply rank_lt_trans; [by apply HX|exact Hlt].
Qed.
Lemma from_key_prefix p k k0 emit : from_key (p ++ k) emit (p ++ k0) = (lex_compare k0 k =? 1) || (lex_compare k0 k =? 0) && emit.
Proof. unfold from_key. by rewrite lex_compare_prefix. Qed.
Lemma positive_one x y : (0 <? lex_compare x y) = (lex_compare x y =? 1).
Proof. destruct (lex_compare_cases x y) as [E|[E|E]]; by rewrite E. Qed.
Lemma view_slice buf ka k : key_view buf ka k -> (8 <= List.length k)%nat -> mem_bytes buf (s_ ka) 8 = take 8 k.
Proof.
  intros (_ & El & Es & _) Hl. rewrite <- Es, El. replace (Z.of_nat (List.length k)) with (8 + (Z.of_nat (List.length k) - 8)) by lia.
  rewrite mem_bytes_app, take_app_length' by (rewrite ?length_mem_bytes; lia). done.
Qed.
(** A match with a key that ends in this layer. *)
Lemma match_key c s p g k e k0 emit : G !! p = Some g -> e ∈ items (gshape g) -> entry_key e k0 -> krank k0 = krank k ->
  key_view (buf_ c) (ka_ c) k -> at_prefix (ka_ c) (buf_ c) p ->
  exists c1, at_match c s e emit = Some (if from_key (p ++ k) emit (p ++ k0) then (scan_emit, c1)
                                        else (scan_find_next, with_stack (with_entry (with_stack c s) (lv e)) (set_ki s (ki_ s + 1)))) /\
    stack_ c1 = s /\ entry_ c1 = lv e /\ mem_bytes (buf_ c1) (full_string (ka_ c1)).1 (full_string (ka_ c1)).2 = p ++ k0 /\
    at_prefix (ka_ c1) (buf_ c1) p /\ 0 <= len_ (ka_ c1) /\ rank_of (ka_ c1) = krank k.
Proof.
  intros Hg He Hk0 Hr Hk Hp. destruct (entry_key_rank e k0 Hk0) as (Hb0 & _ & Hnl & _). pose proof (key_room p g e k0 Hg He Hk0) as Hroom. rewrite length_app in Hroom.
  pose proof Hp as (E1 & E2 & _ & Hbb). pose proof Hk as (Ei & El & Es & Hbk). rewrite from_key_prefix.
  unfold at_match. rewrite (proj2 (Z.eqb_neq _ _)) by lia. destruct Hk0 as [e k0 Ek Lk Bk Ik|e s0 Ek Lk Bk N Ik].
  - rewrite (proj2 (Z.eqb_neq _ _)) by (unfold ksuf_keylenx; lia). pose proof (krank_short k0 k Hb0 Hbk Lk Hr) as ->.
    rewrite lex_compare_refl. cbn [Z.eqb orb andb]. exists (with_entry (with_stack c s) (lv e)). split; [by destruct emit|]. split_and!; [done..| |done|cbn; lia|by apply (key_view_rank (buf_ c))].
    cbn. rewrite E1, E2, El. replace (keybuf + Z.of_nat (List.length p) + Z.of_nat (List.length k) - keybuf) with (Z.of_nat (List.length p) + Z.of_nat (List.length k)) by lia.
    apply (read_prefix (ka_ c)); [done|lia|by rewrite <- El].
  - destruct (krank_long s0 (ksuf e) k Lk N Bk Hbk (eq_sym Hr)) as [Ekd Hl]. rewrite length_app, Lk in Hroom. rewrite (proj2 (Z.eqb_eq _ _) Ek), (proj2 (Z.ltb_ge _ _)) by lia.
    cbn [buf_ ka_ with_entry with_stack]. destruct (suffix_bytes (buf_ c) (ka_ c) k Hbb Hk ltac:(lia)) as [_ ->]. rewrite positive_one.
    replace (lex_compare (ksuf e) (drop 8 k)) with (lex_compare (s0 ++ ksuf e) k) by (rewrite Ekd at 1; apply lex_compare_prefix).
    apply Forall_app in Bk as [Bs Bf]. pose proof mk_size as Hms. destruct (store_suffix_ok (ka_ c) (buf_ c) p (ksuf e) Hp Bf ltac:(lia)) as (buf' & -> & Hp' & Hrd & Hrd8).
    cbn [mbind option_bind]. eexists. split; [by destruct (_ || _)|]. split_and!; [done..| |exact Hp'|cbn; lia|].
    + cbn. rewrite E1, E2. replace (keybuf + Z.of_nat (List.length p) + (8 + Z.of_nat (List.length (ksuf e))) - keybuf) with (Z.of_nat (List.length p) + Z.of_nat (List.length (s0 ++ ksuf e))) by (rewrite length_app; lia).
      apply (read_prefix (ka_ c)); [done|lia|]. apply read_key; [|by rewrite drop_app_length'].
      rewrite Hrd8, pad_take, take_app_length' by (rewrite ?length_app; lia). rewrite (view_slice (buf_ c) (ka_ c) k Hk) by lia. by rewrite Ekd, take_app_length'.
    + rewrite <- Hr, krank_app by done. unfold rank_of. cbn. rewrite Ei. f_equal; [|destruct (ksuf e); [done|cbn; lia]].
      rewrite pad_take by lia. by rewrite Ekd, take_app_length'.
Qed.
(** A match with a key: it is visited first, or passed. *)
Lemma starts_key c s p g k n l A0 B i L LQ e k0 emit count a st R : G !! p = Some g -> first_place c g k n l A0 B i s -> i < lsize l -> e = nth_entry l i ->
  entry_key e k0 -> erank e = krank k -> key_view (buf_ c) (ka_ c) k -> at_prefix (ka_ c) (buf_ c) p -> node_stack_ (stack_ c) = st ->
  lists G p (drop (Z.to_nat (i + 1)) (entries l) ++ all_entries B) LQ -> todo (krank k) (gshape g) = drop (Z.to_nat (i + 1)) (entries l) ++ all_entries B ->
  L = from (p ++ k) emit [(p ++ k0, lv e)] ++ LQ -> climbs p st R ->
  (exists N, forall fuel, (N <= fuel)%nat -> find_initial bnd mk keybuf t fuel emit c = at_match c s e emit) ->
  starts emit c count a (visit_all F (L ++ R) count a).
Proof.
  intros Hg FP Hi He Hk0 Hre Hk Hp Hst HLQ Htd -> HR [N HN]. destruct (entry_key_rank e k0 Hk0) as (_ & Hr0 & _).
  pose proof (fp_place _ _ _ _ _ _ _ _ _ FP) as P. pose proof (fp_index _ _ _ _ _ _ _ _ _ FP) as Hi0. pose proof (fp_stack _ _ _ _ _ _ _ _ _ FP) as Es.
  destruct (place_in (gshape g) n l A0 B i P ltac:(lia)) as [_ Hei]. rewrite <- He in Hei.
  destruct (match_key c s p g k e k0 emit Hg Hei Hk0 ltac:(congruence) Hk Hp) as (c1 & Em & Hs1 & He1 & Hfull & Hp1 & Hl1 & Hr1).
  destruct (key_view_rank _ _ _ Hk) as [Hrk Hlk].
  assert (Hpl : forall c' ka buf, at_prefix ka buf p -> 0 <= len_ ka -> rank_of ka = krank k -> ka_ c' = ka -> buf_ c' = buf -> stack_ c' = set_ki s (i + 1) -> at_place c' p g (krank k) st n l A0 B).
  { intros c' ka buf H1 H2 H3 H4 H5 H6. apply (place_from c g p k n l A0 B i s st ka buf Hg FP Hst H1 H2 H3 c' (i + 1) H4 H5 H6 ltac:(lia)).
    intros x [Hx| ->]%take_next; [by left|right|lia]. by rewrite <- He. }
  assert (Hki : ki_ s = i) by (by rewrite Es). unfold from. rewrite list.filter_cons. cbn [fst]. destruct (from_key (p ++ k) emit (p ++ k0)) eqn:Ef.
  - rewrite decide_True by done. rewrite <- He1. cbn [filter list_filter app]. eapply (starts_at emit c count a scan_emit c1 N); [intros fuel Hf; by rewrite HN, Em|done|].
    apply ends_emit; [done|]. intros a'. eapply (visits p _ LQ HLQ g (krank k)); [|exact Htd|exact HR]. apply (Hpl _ (ka_ c1) (buf_ c1)); try done. cbn. by rewrite Hs1, Hki.
  - rewrite decide_False by done. cbn [filter list_filter app]. eapply (starts_at emit c count a scan_find_next _ N); [intros fuel Hf; by rewrite HN, Em|done|].
    apply ends_find_next. eapply (visits p _ LQ HLQ g (krank k)); [|exact Htd|exact HR]. apply (Hpl _ (ka_ c) (buf_ c)); try done. cbn. by rewrite Hki.
Qed.

Lemma initial_visits k : forall p g L c count a st R emit, G !! p = Some g -> lists G p (items (gshape g)) L -> key_view (buf_ c) (ka_ c) k ->
  at_prefix (ka_ c) (buf_ c) p -> scan_root_ (stack_ c) = gptr g -> node_stack_ (stack_ c) = st -> stacked p st R -> (p <> [] -> k <> []) ->
  starts emit c count a (visit_all F (from (p ++ k) emit L ++ R) count a).
Proof.
  remember (List.length k) as len eqn:Elen. revert k Elen. induction len as [len IH] using lt_wf_ind. intros k -> p g L c count a st R emit Hg HL Hk Hp Hroot Hst HS Hne.
  pose proof (inv_layer _ _ _ _ _ _ I _ _ Hg) as Lg. pose proof Hk as (_ & _ & _ & Hbk). destruct (key_view_rank _ _ _ Hk) as [Hrk Hlk].
  destruct (find_initial_ok c p g k emit Hg Hk Hroot) as (n & l & A0 & B & i & s & N & FP & [[HQ HN]|(Hi & Hre & HN)]);
    pose proof (fp_place _ _ _ _ _ _ _ _ _ FP) as P; pose proof (fp_index _ _ _ _ _ _ _ _ _ FP) as Hi0; pose proof (fp_before _ _ _ _ _ _ _ _ _ FP) as HX.
  - assert (Hcut : items (gshape g) = (all_entries A0 ++ take (Z.to_nat i) (entries l)) ++ [] ++ drop (Z.to_nat i) (entries l) ++ all_entries B).
    { cbn [app]. rewrite (pl_items _ _ _ _ _ _ _ P), <- app_assoc. f_equal. by rewrite app_assoc, take_drop. }
    destruct (from_cut p g L k emit _ [] _ Hg HL Hbk Hcut HX HQ) as (Le & LQ & HLe & HLQ & ->). inversion HLe; subst. cbn [from app].
    eapply (starts_at emit c count a scan_find_next _ N); [exact HN|done|]. apply ends_find_next.
    eapply (visits p _ LQ HLQ g (krank k)); [|by eapply todo_after; [exact Hcut|exact HX|intros e He; by apply elem_of_nil in He|]|by apply stacked_climbs].
    apply (place_from c g p k n l A0 B i s _ (ka_ c) (buf_ c) Hg FP eq_refl Hp Hlk Hrk _ i); [done|done|by rewrite (fp_stack _ _ _ _ _ _ _ _ _ FP)|lia|by left].
  - set (e := nth_entry l i) in *. set (Q := drop (Z.to_nat (i + 1)) (entries l) ++ all_entries B).
    destruct (place_in (gshape g) n l A0 B i P ltac:(lia)) as [Hel Hei]. fold e in Hel, Hei.
    assert (Hcut : items (gshape g) = (all_entries A0 ++ take (Z.to_nat i) (entries l)) ++ [e] ++ Q) by (apply (items_cut _ n l A0 B i); [done|lia]).
    assert (HQ : forall x, x ∈ Q -> rank_lt (krank k) (erank x)).
    { pose proof (ents_sorted _ (lo_sorted _ _ _ _ _ Lg)) as Hso. change (ents (flat (gshape g))) with (items (gshape g)) in Hso. rewrite Hcut in Hso.
      apply sorted_app_iff in Hso as (_ & Hso & _). apply StronglySorted_inv in Hso as [_ F1]. rewrite Forall_forall in F1. intros x Hx%list_elem_of_In. rewrite <- Hre. by apply F1. }
    destruct (from_cut p g L k emit _ [e] _ Hg HL Hbk Hcut HX HQ) as (Le & LQ & HLe & HLQ & ->).
    assert (Htd : todo (krank k) (gshape g) = Q) by (eapply todo_after; [exact Hcut|exact HX|by intros x ->%list_elem_of_singleton|exact HQ]).
    inversion HLe as [|? ? ? k0 L0 Hk0 HL0|? ? ? s0 g' L1 L2 Hs0 Hg' Hp' HL1 HL2]; subst.
    + inversion HL0; subst. eapply (starts_key c s p g k n l A0 B i _ LQ e k0); try done; [by apply stacked_climbs|by exists N].
    + inversion HL2; subst. rewrite app_nil_r. destruct (layer_slice_key e s0 k Hs0 Hbk (eq_sym Hre)) as [Ek Hl8]. pose proof Hs0 as (Hkl & Hs8 & _).
      eapply (starts_down emit c count a _ N); [intros fuel Hf; rewrite HN by done; unfold at_match; rewrite Hkl, Z.eqb_refl; reflexivity|].
      rewrite Ek, app_assoc, <- (app_assoc _ LQ). pose proof Hp as (E1 & E2 & E3 & Hb).
      apply (IH (List.length (drop 8 k)) ltac:(rewrite length_drop; lia) (drop 8 k) eq_refl (p ++ s0) g' L1 _ count a (n :: scan_root_ (stack_ c) :: node_stack_ (stack_ c)) (LQ ++ R)); try done.
      * cbn. apply shift_view; [done..|lia].
      * split_and!; [done| | |done]; cbn; rewrite length_app, Hs8; [lia|]. rewrite Nat2Z.inj_add. apply (read_prefix (ka_ c)); [done|lia|].
        change (Z.of_nat 8) with 8. rewrite (view_slice _ _ k Hk) by lia. by rewrite Ek, take_app_length'.
      * cbn. rewrite (fp_stack _ _ _ _ _ _ _ _ _ FP). done.
      * eapply stacked_cons; [exact Hg|exact P|exact Hel|exact Hs0|rewrite Hre, Htd; exact HLQ|exact HS].
      * intros _ Hd. apply (f_equal List.length) in Hd. rewrite length_drop in Hd. cbn in Hd. lia.
Qed.
End Visitor.
End Forward.

(** * Scans of a tree *)

Lemma scan_layers {A} bnd unaligned lw iw mk keybuf t root G m (F : scanner A) mem s len emit a : inv lw iw mk t root G ->
  (forall k v, m !! k = Some v <-> bound G k v) ->
  (forall b, byte_ok (mem b)) -> 0 <= len <= keybuf_size mk -> (forall k v, m !! k = Some v -> Z.of_nat (List.length k) <= mk) ->
  (forall s k a, visit_leaf F s k a = a) ->
  exists N, forall fuel, (N <= fuel)%nat ->
    scan bnd unaligned mk keybuf t F fuel root mem s len emit a = Some (visit_all F (from (mem_bytes mem s len) emit (in_order m)) 0 a).
Proof.
  intros I HG Hm Hlen Hshort Hleaf. destruct (inv_root _ _ _ _ _ _ I) as (g & Hg & Hroot). set (first := mem_bytes mem s len).
  assert (Hfl : Z.of_nat (List.length first) = len) by (unfold first; rewrite length_mem_bytes; lia).
  destruct (lists_total lw iw mk t root G I [] g Hg) as [L HL]. rewrite (lists_in_order lw iw mk t root G I g L m Hg HL HG).
  set (buf := write_bytes mem keybuf first).
  assert (Hb : forall b, byte_ok (buf b)) by (apply write_bytes_ok; [done|by apply mem_bytes_ok]).
  assert (Hrd : mem_bytes buf keybuf len = first) by (rewrite <- Hfl; apply mem_bytes_write_same).
  set (c := {| helper_ := tt; stack_ := {| scan_root_ := root; n_ := 0; perm_ := 0; ki_ := 0; node_stack_ := [] |}; ka_ := key_str unaligned 8 buf keybuf len; buf_ := buf; entry_ := 0 |}).
  assert (Hk : key_view (buf_ c) (ka_ c) first) by (rewrite <- Hrd; apply key_str_view; [done|lia]).
  destruct (initial_visits bnd unaligned lw iw mk keybuf t root G I ltac:(intros k v Hkv; apply (Hshort k v); by apply HG) F Hleaf first [] g L c 0 a [] [] emit Hg HL Hk)
    as (st & c' & N & HN & N' & HN'); [|by rewrite Hroot|done|constructor|done|].
  { split_and!; [done|cbn; lia|done|done]. }
  rewrite app_nil_r in HN'. cbn [app] in HN'. exists (Nat.max N N'). intros fuel Hf. unfold scan, scan_with. rewrite (proj2 (Z.leb_le _ _) (proj2 Hlen)).
  fold first. unfold store_bytes. rewrite Hfl, Z.leb_refl, (proj2 (Z.leb_le _ _)) by lia. cbn [andb mbind option_bind]. fold buf. fold c.
  unfold forward in HN, HN'. rewrite HN by lia. cbn [mbind option_bind]. apply HN'. lia.
Qed.

(** [C4]. A forward scan of a well-formed tree returns, given enough fuel.  The scanner is given
    the bindings of the map that the tree stands for, in the order of their keys as strings,
    each once, from the first key on (with or without it), until it stops; the result is the
    number of bindings it was given.  No write leaves the key buffer. *)
Theorem scan_correct {A} bnd unaligned lw iw mk keybuf t root m (F : scanner A) mem s len emit a : stands_for lw iw mk t root m ->
  (forall b, byte_ok (mem b)) -> 0 <= len <= keybuf_size mk -> (forall k v, m !! k = Some v -> Z.of_nat (List.length k) <= mk) ->
  (forall s k a, visit_leaf F s k a = a) ->
  exists N, forall fuel, (N <= fuel)%nat ->
    scan bnd unaligned mk keybuf t F fuel root mem s len emit a = Some (visit_all F (from (mem_bytes mem s len) emit (in_order m)) 0 a).
Proof.
  intros (G & I & HG) Hm Hlen Hshort Hleaf. exact (scan_layers bnd unaligned lw iw mk keybuf t root G m F mem s len emit a I HG Hm Hlen Hshort Hleaf).
Qed.

(** The rows a request for [n] rows gets. *)
Lemma visit_query marker L n count rows : 0 < n ->
  rows_ (visit_all (query_json_scanner marker) L count {| nleft_ := n; rows_ := rows |}).2 =
  rows ++ take (Z.to_nat n) (filter (fun b => marker b.2 = false) L).
Proof.
  revert n count rows. induction L as [|[k v] L IH]; intros n count rows Hn; cbn [visit_all visit_value query_json_scanner]; [cbn; by rewrite take_nil, app_nil_r|].
  rewrite list.filter_cons. cbn [snd]. destruct (marker v).
  - rewrite decide_False by done. by rewrite IH.
  - rewrite decide_True by done. cbn [nleft_ rows_]. replace (Z.to_nat n) with (S (Z.to_nat (n - 1))) by lia. cbn [take].
    destruct (Z.eqb_spec (n - 1) 0) as [E|E]; cbn [negb]; [rewrite E; done|]. rewrite IH by lia. by rewrite <- app_assoc.
Qed.
Lemma run_scan_rows marker bnd unaligned lw iw mk keybuf t root m mem s len n : stands_for lw iw mk t root m ->
  (forall b, byte_ok (mem b)) -> 0 <= len <= keybuf_size mk -> (forall k v, m !! k = Some v -> Z.of_nat (List.length k) <= mk) -> 0 < n ->
  exists N, forall fuel, (N <= fuel)%nat ->
    run_scan marker bnd unaligned mk keybuf t fuel root mem s len n =
    Some (take (Z.to_nat n) (filter (fun b => marker b.2 = false) (from (mem_bytes mem s len) true (in_order m)))).
Proof.
  intros (G & I & HG) Hm Hlen Hshort Hn.
  destruct (scan_layers bnd unaligned lw iw mk keybuf t root G m (query_json_scanner marker) mem s len true {| nleft_ := n; rows_ := [] |} I HG Hm Hlen Hshort) as [N HN]; [done|].
  exists N. intros fuel Hf. unfold run_scan. rewrite HN by done. cbn [mbind option_bind].
  pose proof (visit_query marker (from (mem_bytes mem s len) true (in_order m)) n 0 [] Hn) as E. destruct (visit_all _ _ _ _) as [c x]. cbn in *. by rewrite E.
Qed.
