(* ===== verification/TreeInsert.v ===== *)
(** Splits in the tree: the loop of [make_split] puts the new sibling of a node into the
    parents, splitting them on the way up, and keeps the layer a shape in token order. *)
From Stdlib Require Import Sorted.
From S2P Require Import Prelude StringSlice Permuter KSearch Internode LeafSplit MassKey Tree TreeShape TreeMap TreeOps.

(** What an operation leaves alone. *)
Definition outside (S : list Z) (t t' : tree) : Prop :=
  forall a, a ∉ S -> same_node t t' a /\ same_parent t t' a.
Lemma outside_refl S t : outside S t t.
Proof. done. Qed.
Lemma outside_trans S t1 t2 t3 : outside S t1 t2 -> outside S t2 t3 -> outside S t1 t3.
Proof.
  intros H1 H2 a Ha. destruct (H1 a Ha) as [(E1 & E2 & E3 & E4) E5], (H2 a Ha) as [(F1 & F2 & F3 & F4) F5].
  unfold same_node, same_parent in *. split_and!; congruence.
Qed.
Lemma outside_sub S S' t t' : outside S t t' -> (forall a, a ∈ S -> a ∈ S') -> outside S' t t'.
Proof. intros H HS a Ha. apply H. intros Ha'. by apply Ha, HS. Qed.

Lemma insert_at_mid {A} (a b : list A) v : insert_at (Z.of_nat (List.length a)) v (a ++ b) = a ++ v :: b.
Proof. unfold insert_at. rewrite Nat2Z.id, take_app_length, drop_app_length. done. Qed.

Lemma app_cut {A} (h k a b : list A) : a ++ b = h ++ k -> (List.length h <= List.length a)%nat -> exists r, a = h ++ r /\ r ++ b = k.
Proof.
  intros E Hl. exists (drop (List.length h) a). assert (Ea : a = h ++ drop (List.length h) a).
  { apply (f_equal (take (List.length h))) in E. rewrite take_app_length, take_app_le in E by done. rewrite <- E at 1. by rewrite take_drop. }
  split; [done|]. rewrite Ea, <- app_assoc in E. by apply app_inv_head in E.
Qed.

Section Split.
Context (bnd : key_bound_type) (lw iw : Z) (un : internode).
Context (Hiw : 1 <= iw).
Abbreviation rep := (rep lw iw).
Abbreviation rep_ctx := (rep_ctx lw iw).
Abbreviation child_of := (child_of lw iw).

(** Shapes whose nodes and inner parent pointers did not change. *)
Lemma child_moved t t' m c : (forall a, a ∈ addrs c -> same_node t t' a) -> (forall a, a ∈ below c -> same_parent t t' a) ->
  parents t' (addr c) = m -> hgt t c < heights t' m -> rep t false c -> child_of t' m c.
Proof.
  intros HN HP Hp Hh Hr. split_and!; [done| |by apply (rep_frame lw iw t)].
  by rewrite (hgt_frame t) by (apply HN, addr_in).
Qed.
Lemma children_moved t t' m cs : (forall c a, c ∈ cs -> a ∈ addrs c -> same_node t t' a) ->
  (forall c a, c ∈ cs -> a ∈ below c -> same_parent t t' a) ->
  (forall c, c ∈ cs -> parents t' (addr c) = m /\ hgt t c < heights t' m /\ rep t false c) -> Forall (child_of t' m) cs.
Proof.
  intros HN HP HC. apply Forall_forall. intros c Hc%list_elem_of_In. destruct (HC c Hc) as (? & ? & ?).
  apply (child_moved t); try done; intros a Ha; [by eapply HN|by eapply HP].
Qed.
Lemma hgt_nonneg t top g : rep t top g -> 0 <= hgt t g.
Proof. destruct g; [done|]. intros ((_ & ? & _) & _). cbn. lia. Qed.

Lemma addr_fill C g g' : addr g = addr g' -> addr (fill C g) = addr (fill C g').
Proof. revert g g'. induction C as [|f C IH]; intros g g' E; [done|]. by apply (IH (plug f g) (plug f g')). Qed.
Lemma addr_fill_cons f C g g' : addr (fill (f :: C) g) = addr (fill (f :: C) g').
Proof. by apply (addr_fill C (plug f g) (plug f g')). Qed.

(** ** No parent, or a parent that is too high: a new node above the two. *)
Lemma rep_above t t' top a x xikey gn gc :
  leaves t' !! a = None -> inodes t' !! a = Some x -> keys x = [xikey] -> kids x = [addr gn; addr gc] -> nkeys_ x = 1 ->
  heights t' a = hgt t gn + 1 -> is_root t' a = top -> rep t false gn -> rep t false gc -> hgt t gc <= hgt t gn ->
  (forall b, b ∈ addrs gn ++ addrs gc -> same_node t t' b) -> (forall b, b ∈ below gn ++ below gc -> same_parent t t' b) ->
  parents t' (addr gn) = a -> parents t' (addr gc) = a -> rep t' top (SNode a None [xikey] [gn; gc]).
Proof.
  intros H1 H2 H3 H4 H5 H6 H7 Hn Hc Hh HN HP Hpn Hpc. apply rep_SNode. pose proof (hgt_nonneg t false gn Hn).
  split_and!; [split_and!; [done|lia|exists x; split_and!; done || lia]|done|].
  apply (children_moved t).
  - intros c b Hb Hb'. apply HN, elem_of_app. repeat (apply elem_of_cons in Hb as [->|Hb]; [tauto|]). by apply elem_of_nil in Hb.
  - intros c b Hb Hb'. apply HP, elem_of_app. repeat (apply elem_of_cons in Hb as [->|Hb]; [tauto|]). by apply elem_of_nil in Hb.
  - intros c Hb. repeat (apply elem_of_cons in Hb as [->|Hb]; [split_and!; done || lia|]). by apply elem_of_nil in Hb.
Qed.
Lemma flat_above a xikey gn gc : flat (SNode a None [xikey] [gn; gc]) = flat gn ++ K xikey :: flat gc.
Proof. cbn. by rewrite app_nil_r. Qed.
Lemma addrs_above a xikey gn gc : addrs (SNode a None [xikey] [gn; gc]) ≡ₚ addrs gn ++ addrs gc ++ [a].
Proof. cbn [addrs flat_map]. rewrite app_nil_r. solve_Permutation. Qed.

(** What one turn needs of the tree around the node [gn] and its new sibling [gc]. *)
Record turn (t : tree) (C : list frame) (gn gc : shape) (xikey : Z) (pool : list Z) : Prop := {
  tn_gn : rep t false gn;
  tn_nonroot : is_root t (addr gn) = false;
  tn_gc : rep t false gc;
  tn_hgt : hgt t gc <= hgt t gn;
  tn_ctx : rep_ctx t C (addr gn) (hgt t gn);
  tn_nodup : NoDup (addrs gn ++ addrs gc ++ ctx_addrs C ++ pool);
  tn_nonnull : forall a, a ∈ addrs gn ++ addrs gc ++ ctx_addrs C ++ pool -> a <> 0;
  tn_sorted : StronglySorted tok_lt (pre C ++ flat gn ++ K xikey :: flat gc ++ post C)
}.
(** The whole layer after the last turn. *)
Record finished (t t' : tree) (C : list frame) (gn gc : shape) (xikey : Z) (used : list Z) (g' : shape) : Prop := {
  fi_rep : rep t' true g';
  fi_parent : parents t' (addr g') = 0;
  fi_flat : flat g' = pre C ++ flat gn ++ K xikey :: flat gc ++ post C;
  fi_addrs : addrs g' ≡ₚ addrs gn ++ addrs gc ++ ctx_addrs C ++ used;
  fi_leaves : leaf_addrs g' = lpre C ++ leaf_addrs gn ++ leaf_addrs gc ++ lpost C;
  fi_top : addr g' ∈ used /\ parents t' (addr (fill C gn)) = addr g' \/ C <> [] /\ addr g' = addr (fill C gn)
}.
Record stepped (t t' : tree) (gn gc : shape) (f : frame) (xikey : Z) (used : list Z) (gp gq : shape) (xk : Z) : Prop := {
  sp_addr : addr gp = fn f;
  sp_gp : rep t' false gp;
  sp_nonroot : is_root t' (addr gp) = false;
  sp_gq : rep t' false gq;
  sp_hgtp : hgt t' gp = hgt t gn + 1;
  sp_hgtq : hgt t' gq = hgt t gn + 1;
  sp_inner : leaves t' !! addr gp = None;
  sp_flat : flat gp ++ K xk :: flat gq = frame_pre f ++ flat gn ++ K xikey :: flat gc ++ frame_post f;
  sp_addrs : addrs gp ++ addrs gq ≡ₚ addrs gn ++ addrs gc ++ frame_addrs f ++ used;
  sp_leaves : leaf_addrs gp ++ leaf_addrs gq =
    flat_map leaf_addrs (fcl f) ++ leaf_addrs gn ++ leaf_addrs gc ++ flat_map leaf_addrs (fcr f)
}.
(** What every turn leaves alone. *)
Record quietly (t t' : tree) (C : list frame) (gn gc : shape) (used : list Z) : Prop := {
  qu_nodes : forall b, (b ∉ ctx_addrs C) -> (b ∉ used) -> same_node t t' b;
  qu_outside : outside (addrs gn ++ addrs gc ++ ctx_addrs C ++ used) t t';
  qu_roots : forall b, (b ∉ used) -> is_root t' b = true -> is_root t b = true;
  qu_leaves : forall b l, (b ∉ used) -> leaves t !! b = Some l -> leaves t' !! b = Some l
}.

Lemma perm_nodup_elem (l l' : list Z) : l ≡ₚ l' -> NoDup l -> NoDup l'.
Proof. by intros ->. Qed.

Lemma turn_nonnull t C gn gc xikey pool : turn t C gn gc xikey pool -> addr gn <> 0 /\ addr gc <> 0.
Proof.
  intros T. split; apply (tn_nonnull _ _ _ _ _ _ T); rewrite !elem_of_app; [left|right; left]; apply addr_in.
Qed.
Lemma insert_up_root t gn gc xikey st a pool : turn t [] gn gc xikey (a :: pool) ->
  exists t' g', insert_up bnd iw un t (a :: pool) (addr gn) (addr gc) xikey st (hgt t gn) = Some (t', pool, None) /\
    finished t t' [] gn gc xikey [a] g' /\ quietly t t' [] gn gc [a].
Proof.
  intros T. destruct (turn_nonnull _ _ _ _ _ _ T) as [Hn0 Hc0]. destruct T as [Hn Hr Hc Hh HC Hnd H0 _]. cbn in HC.
  unfold insert_up. rewrite HC. cbn [Z.eqb].
  assert (Hd : addr gn <> addr gc /\ addr gn <> a /\ addr gc <> a /\ (a ∉ addrs gn) /\ (a ∉ addrs gc) /\
    (forall b, b ∈ below gn ++ below gc -> b <> addr gn /\ b <> addr gc /\ b <> a)).
  { cbn [ctx_addrs flat_map app] in Hnd. rewrite !addrs_below in *.
    apply list.NoDup_app in Hnd as (N1 & N2 & N3). apply list.NoDup_app in N3 as (N3 & N4 & _).
    apply list.NoDup_cons in N1 as [N1 _], N3 as [N3 _]. set_solver. }
  destruct Hd as (D1 & D2 & D3 & D4 & D5 & D6).
  pose proof (new_parent_views a (addr gn) xikey (addr gc) (-1) 0 (set_nkeys un 0) un
    (parents (make_inode un a (hgt t gn + 1) t)) D1 D2 D3) as HV.
  destruct (new_parent a _ _ _ _ _ _ _ _) as [[nn p'] pa]. destruct HV as (V1 & V2 & V3 & V4 & _ & V5 & V6).
  cbn [Z.ltb Z.compare] in V4. eexists _, (SNode a None [xikey] [gn; gc]). split; [done|]. split.
  - split.
    + eapply (rep_above t); try done; cbn [leaves inodes heights is_root parents put_root put_parents put_inode make_inode put_height].
      * by rewrite lookup_delete_eq.
      * by rewrite lookup_insert_eq.
      * by rewrite fn_lookup_insert.
      * by rewrite fn_lookup_insert.
      * intros b Hb. assert (b <> a) by (apply elem_of_app in Hb; set_solver). unfold same_node.
        cbn [leaves inodes heights is_root put_root put_parents put_inode make_inode put_height].
        by rewrite !lookup_delete_ne, !lookup_insert_ne, !fn_lookup_insert_ne by done.
      * intros b Hb. destruct (D6 b Hb) as (? & ? & ?). unfold same_parent. cbn [parents put_root put_parents].
        rewrite V6 by done. cbn. by rewrite fn_lookup_insert_ne.
      * apply V3; [rewrite V2; left|done].
      * apply V3; [rewrite V2; right; left|done].
    + done.
    + rewrite flat_above. cbn [pre post app]. by rewrite app_nil_r.
    + rewrite addrs_above. done.
    + cbn. by rewrite !app_nil_r.
    + left. split; [left|]. apply V3; [rewrite V2; left|done].
  - split.
    + intros b _ Hb. assert (b <> a) by set_solver. unfold same_node.
      cbn [leaves inodes heights is_root put_root put_parents put_inode make_inode put_height].
      by rewrite !lookup_delete_ne, !lookup_insert_ne, !fn_lookup_insert_ne by done.
    + intros b Hb. pose proof (addr_in gn). pose proof (addr_in gc).
      assert (b <> a /\ b <> addr gn /\ b <> addr gc) as (B1 & B2 & B3) by (split_and!; intros ->; apply Hb; set_solver).
      unfold same_node, same_parent.
      cbn [leaves inodes heights is_root parents put_root put_parents put_inode make_inode put_height].
      rewrite V6 by done. cbn. by rewrite !lookup_delete_ne, !lookup_insert_ne, !fn_lookup_insert_ne by done.
    + intros b Hb. assert (b <> a) by set_solver. cbn. by rewrite !fn_lookup_insert_ne by done.
    + intros b l Hb Hbl. assert (b <> a) by set_solver. cbn. by rewrite !lookup_delete_ne by done.
Qed.

(** ** A parent: what the search in it finds. *)
Lemma weave_left_keys ks ls k : List.length ks = List.length ls -> k ∈ ks -> K k ∈ weave_left ks ls.
Proof.
  revert ls. induction ks as [|k0 ks IH]; intros [|l ls] Hl Hk; try done; [by apply elem_of_nil in Hk..|].
  cbn. apply elem_of_app. right. apply elem_of_cons in Hk as [->|Hk]; [left|right]. apply IH; [by injection Hl|done].
Qed.
Lemma weave_right_keys ks ls k : List.length ls = List.length ks -> k ∈ ks -> K k ∈ weave_right ks ls.
Proof.
  intros Hl Hk. destruct ks as [|k0 ks]; [by apply elem_of_nil in Hk|]. cbn in *.
  apply elem_of_cons in Hk as [->|Hk]; [left|right]. by apply weave_keys.
Qed.
Lemma flat_plug f g : List.length (fkl f) = List.length (fcl f) -> flat (plug f g) = frame_pre f ++ flat g ++ frame_post f.
Proof.
  intros Hl. unfold plug, frame_pre. cbn [flat]. rewrite map_app. cbn [map]. rewrite weave_split by by rewrite length_map.
  by rewrite <- app_assoc.
Qed.

Lemma frame_keys f k : List.length (fkl f) = List.length (fcl f) -> k ∈ option_list (fh f) ++ fkl f -> K k ∈ frame_pre f \/ J k ∈ frame_pre f.
Proof.
  intros Hl [Hk|Hk]%elem_of_app; [right|left]; apply elem_of_app.
  - left. by apply list_elem_of_fmap_2.
  - right. apply weave_left_keys; [by rewrite length_map|done].
Qed.

(** The index of the hole among the children. *)
Definition kpos (f : frame) : Z := Z.of_nat (List.length (option_list (fh f) ++ fkl f)).
Lemma kpos_len f : List.length (fkl f) = List.length (fcl f) -> kpos f = Z.of_nat (List.length (hkids (fh f) ++ (addr <$> fcl f))).
Proof. intros H. unfold kpos. by rewrite !length_app, length_hkids, length_fmap, H. Qed.
Record parent_facts (t : tree) (f : frame) (gn : shape) (xikey : Z) (x : internode) : Prop := {
  pf_leaf : leaves t !! fn f = None;
  pf_inode : inodes t !! fn f = Some x;
  pf_nkeys : 0 <= nkeys_ x <= iw;
  pf_keys : keys x = option_list (fh f) ++ fkl f ++ fkr f;
  pf_kids : kids x = hkids (fh f) ++ (addr <$> fcl f) ++ addr gn :: (addr <$> fcr f);
  pf_len : List.length (fkl f) = List.length (fcl f);
  pf_lenr : List.length (fcr f) = List.length (fkr f);
  pf_upper : upper bnd (Sized (nkeys_ x)) (fun i => compare xikey (Internode.ikey0_ x i)) = Some (kpos f);
  pf_children : Forall (child_of t (fn f)) (fcl f ++ fcr f)
}.
Lemma turn_parent t f C gn gc xikey pool : turn t (f :: C) gn gc xikey pool -> exists x, parent_facts t f gn xikey x.
Proof.
  intros [Hn Hr Hc Hh [(F1 & F2 & (F3 & F4 & x & F5 & F6 & F7 & F8) & F9 & F10 & F11) HC] Hnd H0 Hs]. exists x.
  assert (Hlr : List.length (fcr f) = List.length (fkr f)).
  { pose proof (length_keys x ltac:(lia)) as L1. pose proof (length_kids x ltac:(lia)) as L2. rewrite F7, !length_app in L1.
    rewrite F8, !length_app, length_hkids in L2. cbn [List.length] in L2. rewrite !length_fmap in L2. lia. }
  cbn [pre post] in Hs. rewrite <- !app_assoc in Hs. apply sorted_app_iff in Hs as (_ & Hs & _).
  assert (Hs2 : StronglySorted tok_lt (frame_pre f ++ flat gn ++ K xikey :: flat gc ++ frame_post f)).
  { replace (frame_pre f ++ flat gn ++ K xikey :: flat gc ++ frame_post f ++ post C)
      with ((frame_pre f ++ flat gn ++ K xikey :: flat gc ++ frame_post f) ++ post C) in Hs
      by (by rewrite <- !app_assoc; cbn; rewrite <- !app_assoc).
    by apply sorted_app_iff in Hs as (? & _). }
  assert (Hkeys : StronglySorted Z.lt (keys x)).
  { rewrite F7. apply (node_keys_sorted _ _ (map flat (fcl f ++ gn :: fcr f))).
    - change (StronglySorted tok_lt (flat (plug f gn))). rewrite flat_plug by done.
      rewrite app_assoc. apply (sorted_sub _ _ (K xikey :: flat gc)). rewrite <- app_assoc. done.
    - rewrite length_map, !length_app. cbn [List.length]. lia. }
  split; try done. rewrite app_assoc in F7. apply (upper_cut bnd x xikey _ (fkr f) F7); [lia|done| |].
  - apply Forall_forall. intros k Hk%list_elem_of_In. apply sorted_app_iff in Hs2 as (_ & _ & HR).
    apply frame_keys in Hk; [|done]. destruct Hk as [Hk|Hk].
    all: specialize (HR _ (K xikey) Hk ltac:(apply elem_of_app; right; left)); cbn in HR; lia.
  - apply Forall_forall. intros k Hk%list_elem_of_In. apply (weave_right_keys _ (map flat (fcr f))) in Hk; [|by rewrite length_map].
    rewrite app_assoc in Hs2. apply sorted_app_iff in Hs2 as (_ & Hs2 & _). cbn in Hs2. apply StronglySorted_inv in Hs2 as [_ F].
    rewrite Forall_forall in F. apply (F (K k)). apply list_elem_of_In, elem_of_app. by right.
Qed.

(** ** A parent that is too high: a new node between. *)
Lemma kids_set_child x i a l b r : kids x = l ++ b :: r -> i = Z.of_nat (List.length l) -> 0 <= nkeys_ x ->
  kids (set_child x i a) = l ++ a :: r.
Proof.
  intros E -> Hn. assert (Hlen : Z.of_nat (List.length l) < nkeys_ x + 1).
  { pose proof (length_kids x Hn) as L. rewrite E, length_app in L. cbn in L. lia. }
  assert (E2 : kids (set_child x (Z.of_nat (List.length l)) a) = <[List.length l := a]> (kids x)).
  { apply list_eq. intros j. unfold kids. cbn [set_child child_ nkeys_]. destruct (decide (j = List.length l)) as [->|Hj].
    - rewrite list_lookup_insert_eq by (rewrite length_fmap, length_seqZ; lia). rewrite list_lookup_fmap, lookup_seqZ_lt by lia.
      cbn. by rewrite fn_lookup_insert.
    - rewrite list_lookup_insert_ne by done. rewrite !list_lookup_fmap.
      destruct (seqZ 0 (nkeys_ x + 1) !! j) as [z|] eqn:Ez; [|done]. apply lookup_seqZ in Ez as [-> _]. cbn. f_equal.
      rewrite fn_lookup_insert_ne; [done|lia]. }
  rewrite E2, E. rewrite insert_app_r_alt by lia. by rewrite Nat.sub_diag.
Qed.

(** The nodes in play are all different. *)
Lemma turn_disjoint t f C gn gc xikey pool : turn t (f :: C) gn gc xikey pool ->
  let A := addrs gn in let B := addrs gc in let F := flat_map addrs (fcl f ++ fcr f) in let R := ctx_addrs C in
  (forall b, b ∈ A -> (b ∉ B) /\ b <> fn f /\ (b ∉ F) /\ (b ∉ R) /\ (b ∉ pool)) /\
  (forall b, b ∈ B -> b <> fn f /\ (b ∉ F) /\ (b ∉ R) /\ (b ∉ pool)) /\
  ((fn f ∉ F) /\ (fn f ∉ R) /\ (fn f ∉ pool)) /\ (forall b, b ∈ F -> (b ∉ R) /\ (b ∉ pool)) /\ (forall b, b ∈ R -> (b ∉ pool)) /\
  NoDup F /\ NoDup A /\ NoDup B /\ fn f <> 0.
Proof.
  intros [_ _ _ _ _ Hnd H0 _] A B F R.
  assert (EQ : ctx_addrs (f :: C) = fn f :: F ++ R) by done. rewrite EQ in Hnd, H0. clear EQ. cbn [app] in Hnd, H0.
  fold A B in Hnd, H0. rewrite <- app_assoc in Hnd.
  apply list.NoDup_app in Hnd as (NA & D1 & Hnd). apply list.NoDup_app in Hnd as (NB & D2 & Hnd).
  apply list.NoDup_cons in Hnd as [D3 Hnd]. apply list.NoDup_app in Hnd as (NF & D4 & Hnd).
  apply list.NoDup_app in Hnd as (NR & D5 & ND).
  assert (fn f <> 0) by (apply H0; rewrite !elem_of_app; right; right; left).
  rewrite !elem_of_app in D3.
  split_and!; try tauto.
  - intros b Hb. specialize (D1 b Hb). rewrite !elem_of_app, elem_of_cons, !elem_of_app in D1. tauto.
  - intros b Hb. specialize (D2 b Hb). rewrite elem_of_cons, !elem_of_app in D2. tauto.
  - intros b Hb. specialize (D4 b Hb). rewrite elem_of_app in D4. tauto.
Qed.

(** The children of the parent, after a turn that changed only the parent's node, new nodes,
    and the parent pointers of children and of the two nodes. *)
Definition turned (t t' : tree) (f : frame) (gn gc : shape) (used : list Z) : Prop :=
  (forall b, b <> fn f -> b ∉ used -> same_node t t' b) /\
  (forall b, b ∉ used -> b <> addr gn -> b <> addr gc -> b ∉ addr <$> (fcl f ++ fcr f) -> same_parent t t' b) /\
  (forall b, b ∉ used -> is_root t' b = true -> is_root t b = true).
Lemma turned_quietly t t' f C gn gc used : leaves t !! fn f = None -> turned t t' f gn gc used -> quietly t t' (f :: C) gn gc used.
Proof.
  intros HL (HN & HP & HR). assert (HA : forall b, b ∈ addr <$> (fcl f ++ fcr f) -> b ∈ flat_map addrs (fcl f ++ fcr f)).
  { intros b (c & -> & Hc)%list_elem_of_fmap. apply elem_of_flat_map. exists c. split; [done|apply addr_in]. }
  split; [|intros b Hb|done|].
  - intros b Hb Hu. apply HN; [|done]. intros ->. apply Hb. by left.
  - rewrite !elem_of_app in Hb. cbn [ctx_addrs flat_map] in Hb. unfold frame_addrs in Hb.
    rewrite elem_of_app, elem_of_cons in Hb. split.
    + apply HN; [intros ->|]; tauto.
    + apply HP; [tauto|intros ->..|]; [apply Hb; left; apply addr_in|apply Hb; right; left; apply addr_in|].
      intros Hb'%HA. tauto.
  - intros b l Hb Hbl. destruct (HN b) as (-> & _); [intros ->; congruence|done|done].
Qed.
Lemma turned_subtree t t' f C gn gc xikey pool used c : turn t (f :: C) gn gc xikey pool -> (forall b, b ∈ used -> b ∈ pool) ->
  turned t t' f gn gc used -> c ∈ fcl f ++ gn :: gc :: fcr f ->
  (forall a, a ∈ addrs c -> same_node t t' a) /\ (forall a, a ∈ below c -> same_parent t t' a) /\ (addr c ∉ used).
Proof.
  intros T Hu (HN & HP & _) Hc. destruct (turn_disjoint _ _ _ _ _ _ _ T) as (D1 & D2 & (D3 & _) & D4 & _ & NF & NA & NB & _).
  set (F := flat_map addrs (fcl f ++ fcr f)) in *.
  assert (HA : forall b, b ∈ addr <$> (fcl f ++ fcr f) -> b ∈ F).
  { intros b (c' & -> & Hc')%list_elem_of_fmap. apply elem_of_flat_map. exists c'. split; [done|apply addr_in]. }
  assert (Hcase : c = gn \/ c = gc \/ c ∈ fcl f ++ fcr f) by (rewrite elem_of_app, !elem_of_cons in Hc; rewrite elem_of_app; tauto).
  assert (Hnu : forall b, b ∈ addrs c -> b <> fn f /\ b ∉ used).
  { intros b Hb. destruct Hcase as [->|[->|Hcf]].
    - destruct (D1 b Hb) as (_ & ? & _ & _ & ?). split; [done|]. intros ?%Hu. done.
    - destruct (D2 b Hb) as (? & _ & _ & ?). split; [done|]. intros ?%Hu. done.
    - assert (Hf : b ∈ F) by (apply elem_of_flat_map; by exists c). destruct (D4 b Hf). split; [by intros ->|intros ?%Hu; done]. }
  split_and!; [intros b Hb; apply HN; by apply Hnu| |by apply Hnu, addr_in].
  intros b Hb. assert (Hb' : b ∈ addrs c) by (rewrite addrs_below; by right).
  destruct (Hnu b Hb') as [_ ?]. pose proof (addr_in gn). pose proof (addr_in gc).
  destruct Hcase as [->|[->|Hcf]].
  - apply HP; [done| | |intros ?%HA; by destruct (D1 b Hb') as (_ & _ & ? & _)].
    + intros ->. rewrite addrs_below in NA. by apply list.NoDup_cons in NA as [? _].
    + intros ->. by destruct (D1 _ Hb') as (? & _).
  - apply HP; [done| | |intros ?%HA; by destruct (D2 b Hb') as (_ & ? & _)].
    + intros ->. by destruct (D1 (addr gn)) as (? & _).
    + intros ->. rewrite addrs_below in NB. by apply list.NoDup_cons in NB as [? _].
  - assert (Hf : b ∈ F) by (apply elem_of_flat_map; by exists c). apply HP; [done|intros ->; by destruct (D1 (addr gn)) as (_ & _ & ? & _)|intros ->; by destruct (D2 (addr gc)) as (_ & ? & _)|].
    intros (c' & -> & Hc')%list_elem_of_fmap. clear -NF Hcf Hc' Hb Hb'.
    (* two children with a node in common *)
    subst F. induction (fcl f ++ fcr f) as [|d l IH]; [by apply elem_of_nil in Hcf|]. cbn in NF.
    apply list.NoDup_app in NF as (Nd & Dd & Nl). apply elem_of_cons in Hcf as [->|Hcf], Hc' as [->|Hc'].
    + rewrite addrs_below in Nd. by apply list.NoDup_cons in Nd as [? _].
    + apply (Dd (addr c') Hb'). apply elem_of_flat_map. exists c'. split; [done|apply addr_in].
    + apply (Dd (addr d) (addr_in d)). apply elem_of_flat_map. by exists c.
    + by apply IH.
Qed.
Lemma turned_ctx t t' f C gn gc xikey pool used h : turn t (f :: C) gn gc xikey pool -> (forall b, b ∈ used -> b ∈ pool) ->
  turned t t' f gn gc used -> heights t' (fn f) = h -> heights t (fn f) = h -> rep_ctx t C (fn f) h -> rep_ctx t' C (fn f) h.
Proof.
  intros T Hu (HN & HP & _) _ _ HC. destruct (turn_disjoint _ _ _ _ _ _ _ T) as (D1 & D2 & (D3 & D3' & D3'') & D4 & D5 & _).
  assert (HA : forall b, b ∈ addr <$> (fcl f ++ fcr f) -> b ∈ flat_map addrs (fcl f ++ fcr f)).
  { intros b (c' & -> & Hc')%list_elem_of_fmap. apply elem_of_flat_map. exists c'. split; [done|apply addr_in]. }
  assert (Hp : forall b, b = fn f \/ b ∈ ctx_addrs C -> same_parent t t' b).
  { intros b Hb. apply HP.
    - intros ?%Hu. destruct Hb as [->|Hb]; [done|by apply (D5 b)].
    - intros ->. pose proof (addr_in gn) as Hi. destruct (D1 _ Hi) as (_ & ? & _ & ? & _). tauto.
    - intros ->. pose proof (addr_in gc) as Hi. destruct (D2 _ Hi) as (? & _ & ? & _). tauto.
    - intros ?%HA. destruct Hb as [->|Hb]; [done|by destruct (D4 b)]. }
  eapply rep_ctx_frame; [|apply Hp; by left|exact HC]. intros b Hb. split; [|apply Hp; by right].
  apply HN; [by intros ->|]. intros ?%Hu. by apply (D5 b).
Qed.

Lemma hgt_parent t f C gn gc xikey pool : turn t (f :: C) gn gc xikey pool ->
  parents t (addr gn) = fn f /\ hgt t gn < heights t (fn f) /\ rep_ctx t C (fn f) (heights t (fn f)) /\
  is_root t (fn f) = is_nil C /\ 0 <= hgt t gn.
Proof. intros [Hn _ _ _ [(F1 & F2 & _ & F4 & _) HC] _ _ _]. split_and!; try done. by eapply hgt_nonneg. Qed.

Lemma children_ne t f b : Forall (child_of t (fn f)) (fcl f ++ fcr f) -> b ∈ fcl f ++ fcr f ->
  parents t (addr b) = fn f /\ hgt t b < heights t (fn f) /\ rep t false b.
Proof. intros F Hb. rewrite Forall_forall in F. apply F. by apply list_elem_of_In. Qed.

(** A parent that is too high: the new node takes the place of [gn] in it. *)
Lemma insert_up_between t f C gn gc xikey st a pool : turn t (f :: C) gn gc xikey (a :: pool) ->
  hgt t gn + 1 < heights t (fn f) ->
  exists t' g', insert_up bnd iw un t (a :: pool) (addr gn) (addr gc) xikey st (hgt t gn) = Some (t', pool, None) /\
    finished t t' (f :: C) gn gc xikey [a] g' /\ quietly t t' (f :: C) gn gc [a].
Proof.
  intros T Hh. destruct (turn_parent _ _ _ _ _ _ _ T) as [x [P1 P2 P3 P4 P5 P6 P7 P8 P9]].
  destruct (hgt_parent _ _ _ _ _ _ _ T) as (Q1 & Q2 & Q3 & Q4 & Q5). destruct (turn_nonnull _ _ _ _ _ _ T) as [Hn0 Hc0].
  destruct (turn_disjoint _ _ _ _ _ _ _ T) as (D1 & D2 & (D3 & D3' & D3'') & D4 & D5 & _ & _ & _ & D0).
  destruct (D1 _ (addr_in gn)) as (N1 & N2 & N3 & _ & N4). destruct (D2 _ (addr_in gc)) as (M1 & M2 & _ & M3).
  assert (Hgg : addr gn <> addr gc) by (intros E'; apply N1; rewrite E'; apply addr_in).
  assert (Hna : addr gn <> a) by (intros <-; apply N4; left). assert (Hca : addr gc <> a) by (intros <-; apply M3; left).
  assert (Hpa : fn f <> a) by (intros <-; apply D3''; left).
  unfold insert_up. rewrite Q1. destruct (Z.eqb_spec (fn f) 0); [done|]. rewrite P2. cbn [mbind option_bind].
  rewrite P8. cbn [mbind option_bind]. destruct (Z.ltb_spec (hgt t gn + 1) (heights t (fn f))); [|lia].
  pose proof (new_parent_views a (addr gn) xikey (addr gc) (kpos f) (fn f) (set_nkeys un 0) x
    (parents (make_inode un a (hgt t gn + 1) t)) Hgg Hna Hca) as HV.
  destruct (new_parent a _ _ _ _ _ _ _ _) as [[nn x'] pa]. destruct HV as (V1 & V2 & V3 & V4 & V5 & V6 & V7).
  destruct (Z.ltb_spec (kpos f) 0); [unfold kpos in *; lia|]. subst x'.
  set (t' := put_parents pa (put_inode (fn f) _ (put_inode a nn (make_inode un a (hgt t gn + 1) t)))).
  assert (TD : turned t t' f gn gc [a]).
  { split_and!.
    - intros b Hb Hb'. assert (b <> a) by set_solver. unfold same_node, t'.
      cbn [leaves inodes heights is_root put_root put_parents put_inode make_inode put_height].
      by rewrite !lookup_delete_ne, !lookup_insert_ne, !fn_lookup_insert_ne by done.
    - intros b Hb Hbn Hbc _. assert (b <> a) by set_solver. unfold same_parent, t'. cbn [parents put_parents].
      rewrite V7 by done. cbn. by rewrite fn_lookup_insert_ne.
    - intros b Hb. assert (b <> a) by set_solver. cbn. by rewrite !fn_lookup_insert_ne by done. }
  assert (Hu : forall b, b ∈ [a] -> b ∈ a :: pool) by (intros b Hb; apply elem_of_cons; left; by apply list_elem_of_singleton).
  assert (Hha : heights t' a = hgt t gn + 1) by (cbn; by rewrite fn_lookup_insert).
  assert (Hhp : heights t' (fn f) = heights t (fn f)) by (cbn; by rewrite fn_lookup_insert_ne).
  exists t', (fill (f :: C) (SNode a None [xikey] [gn; gc])). split; [done|]. split; [|by apply turned_quietly].
  assert (Hwf : ctx_wf (f :: C)) by (constructor; [done|by eapply rep_ctx_wf]).
  destruct (turned_subtree _ _ _ _ _ _ _ _ _ gn T Hu TD) as (S1 & S2 & _); [apply elem_of_app; right; left|].
  destruct (turned_subtree _ _ _ _ _ _ _ _ _ gc T Hu TD) as (S3 & S4 & _); [apply elem_of_app; right; right; left|].
  assert (HR : rep t' true (fill (f :: C) (SNode a None [xikey] [gn; gc])) /\ parents t' (addr (fill (f :: C) (SNode a None [xikey] [gn; gc]))) = 0).
  { apply rep_fill; [done|]. split.
    - eapply (rep_above t t'); try apply T; try done; try (cbn [leaves inodes is_root t' put_parents put_inode make_inode put_height put_root]).
      + rewrite lookup_delete_ne by done. by rewrite lookup_delete_eq.
      + rewrite lookup_insert_ne by done. by rewrite lookup_insert_eq.
      + by rewrite fn_lookup_insert.
      + intros b [Hb|Hb]%elem_of_app; [by apply S1|by apply S3].
      + intros b [Hb|Hb]%elem_of_app; [by apply S2|by apply S4].
      + apply V3; [rewrite V2; left|done].
      + apply V3; [rewrite V2; right; left|done].
    - cbn [TreeShape.rep_ctx addr hgt]. rewrite Hha, Hhp. split.
      + unfold frame_at, inode_at. rewrite Hhp. split_and!; try done.
        * cbn [leaves t' put_parents put_inode]. by rewrite lookup_delete_eq.
        * lia.
        * eexists. cbn [inodes t' put_parents put_inode]. rewrite lookup_insert_eq. split_and!; [done|cbn; lia..|exact P4|].
          rewrite app_assoc in P5 |- *. apply (kids_set_child x _ a _ _ _ P5); [by apply kpos_len|lia].
        * cbn. rewrite fn_lookup_insert_ne by done. done.
        * apply (children_moved t).
          -- intros c b Hc Hb. apply (turned_subtree _ _ _ _ _ _ _ _ _ c T Hu TD); [|done]. rewrite elem_of_app, !elem_of_cons. rewrite elem_of_app in Hc. tauto.
          -- intros c b Hc Hb. apply (turned_subtree _ _ _ _ _ _ _ _ _ c T Hu TD); [|done]. rewrite elem_of_app, !elem_of_cons. rewrite elem_of_app in Hc. tauto.
          -- intros c Hc. destruct (children_ne _ _ _ P9 Hc) as (C1 & C2 & C3). rewrite Hhp. split_and!; try done.
             assert (Hf : addr c ∈ flat_map addrs (fcl f ++ fcr f)) by (apply elem_of_flat_map; exists c; split; [done|apply addr_in]).
             cbn [parents t' put_parents]. rewrite V7; [cbn; rewrite fn_lookup_insert_ne; [done|]| | |].
             all: intros Ec; first [rewrite Ec in Hf | rewrite <- Ec in Hf].
             ++ destruct (D4 _ Hf) as [_ Hx]. apply Hx. left.
             ++ done.
             ++ by destruct (D2 _ (addr_in gc)) as (_ & Hx & _).
             ++ destruct (D4 _ Hf) as [_ Hx]. apply Hx. left.
      + by eapply turned_ctx. }
  destruct HR as [HR1 HR2]. split; try done.
  - rewrite flat_fill, flat_above by done. cbn [pre post]. by rewrite <- !app_assoc.
  - rewrite addrs_fill, addrs_above. solve_Permutation.
  - rewrite leaf_addrs_fill. cbn [leaf_addrs flat_map]. rewrite app_nil_r, <- !app_assoc. done.
  - right. split; [done|apply addr_fill_cons].
Qed.

(** ** A parent of the right height: the key and the new sibling go into it. *)
Definition all_kids (f : frame) (gn gc : shape) : list shape := fcl f ++ gn :: gc :: fcr f.
Definition all_keys (f : frame) (xikey : Z) : list Z := fkl f ++ xikey :: fkr f.

Lemma nodup_addr cs : NoDup (flat_map addrs cs) -> NoDup (addr <$> cs).
Proof.
  induction cs as [|c cs IH]; cbn; [done|]. intros (N1 & N2 & N3)%list.NoDup_app. apply list.NoDup_cons. split; [|by apply IH].
  intros (c' & E & Hc')%list_elem_of_fmap. apply (N2 (addr c) (addr_in c)). rewrite E. apply elem_of_flat_map.
  exists c'. split; [done|apply addr_in].
Qed.
Lemma all_kids_addrs f gn gc : flat_map addrs (all_kids f gn gc) ≡ₚ addrs gn ++ addrs gc ++ flat_map addrs (fcl f ++ fcr f).
Proof. unfold all_kids. rewrite !flat_map_app. cbn [flat_map]. solve_Permutation. Qed.
Lemma all_kids_nonnull t f C gn gc xikey pool c : turn t (f :: C) gn gc xikey pool -> c ∈ all_kids f gn gc -> addr c <> 0.
Proof.
  intros T Hc. apply (tn_nonnull _ _ _ _ _ _ T).
  assert (Hin : addr c ∈ flat_map addrs (all_kids f gn gc)) by (apply elem_of_flat_map; exists c; split; [done|apply addr_in]).
  rewrite all_kids_addrs, !elem_of_app in Hin. cbn [ctx_addrs flat_map]. unfold frame_addrs. rewrite !elem_of_app, elem_of_cons. tauto.
Qed.
Lemma flat_all_kids f gn gc xikey : List.length (fkl f) = List.length (fcl f) ->
  lead (fh f) ++ weave (all_keys f xikey) (map flat (all_kids f gn gc)) = frame_pre f ++ flat gn ++ K xikey :: flat gc ++ frame_post f.
Proof.
  intros Hl. unfold all_keys, all_kids. rewrite map_app. cbn [map]. rewrite weave_split by by rewrite length_map.
  unfold frame_pre, frame_post. rewrite <- app_assoc. cbn. by destruct (fkr f).
Qed.
Lemma leaves_all_kids f gn gc : flat_map leaf_addrs (all_kids f gn gc) =
  flat_map leaf_addrs (fcl f) ++ leaf_addrs gn ++ leaf_addrs gc ++ flat_map leaf_addrs (fcr f).
Proof. unfold all_kids. by rewrite flat_map_app. Qed.

(** What is known of the parent before the call, with the parent pointers [pa] at the call. *)
Lemma insert_args t f C gn gc xikey pool x : turn t (f :: C) gn gc xikey pool -> parent_facts t f gn xikey x ->
  let kp := kpos f in
  0 <= kp <= nkeys_ x /\ NoDup (addr gc :: kids x) /\
  insert_at kp xikey (keys x) = option_list (fh f) ++ all_keys f xikey /\
  insert_at (kp + 1) (addr gc) (kids x) = hkids (fh f) ++ (addr <$> all_kids f gn gc) /\
  (forall c, c ∈ kids x -> c <> 0 -> c ∉ pool /\ parents t c = fn f).
Proof.
  intros T [P1 P2 P3 P4 P5 P6 P7 P8 P9] kp. pose proof (length_keys x ltac:(lia)) as L. rewrite P4, !length_app in L.
  destruct (turn_disjoint _ _ _ _ _ _ _ T) as (D1 & _ & _ & D4 & _). destruct (hgt_parent _ _ _ _ _ _ _ T) as (Q1 & _).
  assert (Hkids : insert_at (kp + 1) (addr gc) (kids x) = hkids (fh f) ++ (addr <$> all_kids f gn gc)).
  { rewrite P5. unfold kp, all_kids. rewrite (kpos_len f P6).
    replace (Z.of_nat (List.length (hkids (fh f) ++ (addr <$> fcl f))) + 1) with
      (Z.of_nat (List.length (hkids (fh f) ++ (addr <$> fcl f) ++ [addr gn]))) by (rewrite !length_app; cbn; lia).
    rewrite fmap_app, !fmap_cons. change (addr gn :: (addr <$> fcr f)) with ([addr gn] ++ (addr <$> fcr f)).
    rewrite (app_assoc (addr <$> fcl f) [addr gn]), (app_assoc (hkids (fh f)) _ (addr <$> fcr f)).
    rewrite insert_at_mid. by rewrite <- !app_assoc. }
  split_and!; [unfold kp, kpos; rewrite ?length_app in *; lia..| | |done|].
  - apply (perm_nodup_elem (hkids (fh f) ++ (addr <$> all_kids f gn gc))).
    { rewrite <- Hkids. by rewrite insert_at_Permutation. }
    destruct T as [_ _ _ _ _ Hnd H0 _].
    assert (EQ : ctx_addrs (f :: C) = fn f :: flat_map addrs (fcl f ++ fcr f) ++ ctx_addrs C) by done. rewrite EQ in Hnd, H0. clear EQ.
    apply list.NoDup_app. split_and!; [destruct (fh f); cbn; [apply NoDup_singleton|constructor]| |].
    + intros z Hz (c & Ez & Hc)%list_elem_of_fmap. assert (Hz0 : z = 0) by (destruct (fh f); [by apply list_elem_of_singleton in Hz|by apply elem_of_nil in Hz]).
      apply (H0 z); [|done]. pose proof (addr_in c) as Hi. rewrite <- Ez in Hi.
      assert (Hcc : z ∈ flat_map addrs (all_kids f gn gc)) by (apply elem_of_flat_map; by exists c). rewrite all_kids_addrs, !elem_of_app in Hcc.
      rewrite !elem_of_app, elem_of_cons, !elem_of_app. tauto.
    + apply nodup_addr. rewrite all_kids_addrs. set (F := flat_map addrs (fcl f ++ fcr f)) in *.
      apply (perm_nodup_elem _ ((addrs gn ++ addrs gc ++ F) ++ fn f :: ctx_addrs C ++ pool)) in Hnd; [|solve_Permutation].
      by apply list.NoDup_app in Hnd as (? & _).
  - rewrite P4. unfold kp, kpos, all_keys. rewrite (app_assoc _ (fkl f)), insert_at_mid. by rewrite <- app_assoc.
  - intros c Hc Hc0. rewrite P5, !elem_of_app, elem_of_cons in Hc.
    assert (Hc' : c = addr gn \/ exists c', c = addr c' /\ c' ∈ fcl f ++ fcr f).
    { destruct Hc as [Hc|[Hc|[->|Hc]]]; [|right| by left|right]; [|apply list_elem_of_fmap in Hc as (c' & -> & ?);
        exists c'; rewrite elem_of_app; tauto..].
      destruct (fh f); [by apply list_elem_of_singleton in Hc|by apply elem_of_nil in Hc]. }
    destruct Hc' as [->|(c' & -> & Hin)]; [split; [by destruct (D1 _ (addr_in gn)) as (_ & _ & _ & _ & ?)|done]|].
    destruct (children_ne _ _ _ P9 Hin) as (? & _). split; [|done].
    apply D4, elem_of_flat_map. exists c'. split; [done|apply addr_in].
Qed.
Lemma insert_up_children t t' f C gn gc xikey pool used m cs : turn t (f :: C) gn gc xikey pool ->
  (forall b, b ∈ used -> b ∈ pool) -> turned t t' f gn gc used -> heights t (fn f) = hgt t gn + 1 ->
  heights t' m = heights t (fn f) -> (forall c, c ∈ cs -> c ∈ all_kids f gn gc /\ parents t' (addr c) = m) ->
  Forall (child_of t (fn f)) (fcl f ++ fcr f) -> Forall (child_of t' m) cs.
Proof.
  intros T Hu TD Hh Hm Hcs HF. apply (children_moved t).
  - intros c b Hc Hb. destruct (Hcs c Hc) as [Hk _]. by apply (turned_subtree _ _ _ _ _ _ _ _ _ c T Hu TD Hk).
  - intros c b Hc Hb. destruct (Hcs c Hc) as [Hk _]. by apply (turned_subtree _ _ _ _ _ _ _ _ _ c T Hu TD Hk).
  - intros c Hc. destruct (Hcs c Hc) as [Hk Hp]. split; [done|]. rewrite Hm, Hh.
    unfold all_kids in Hk. rewrite elem_of_app, !elem_of_cons in Hk.
    assert (Hk' : c ∈ fcl f ++ fcr f \/ c = gn \/ c = gc) by (rewrite elem_of_app; tauto).
    destruct Hk' as [Hin|[->| ->]].
    + destruct (children_ne _ _ _ HF Hin) as (_ & ? & ?). split; [lia|done].
    + split; [lia|apply T].
    + pose proof (tn_hgt _ _ _ _ _ _ T). split; [lia|apply T].
Qed.

Lemma insert_up_room t f C gn gc xikey st pool x : turn t (f :: C) gn gc xikey pool -> parent_facts t f gn xikey x ->
  heights t (fn f) = hgt t gn + 1 -> nkeys_ x < iw ->
  exists t' g', insert_up bnd iw un t pool (addr gn) (addr gc) xikey st (hgt t gn) = Some (t', pool, None) /\
    finished t t' (f :: C) gn gc xikey [] g' /\ quietly t t' (f :: C) gn gc [].
Proof.
  intros T PF Hh Hx. destruct (hgt_parent _ _ _ _ _ _ _ T) as (Q1 & Q2 & Q3 & Q4 & Q5).
  destruct (insert_args _ _ _ _ _ _ _ _ T PF) as (A1 & A2 & A3 & A4 & A5). pose proof PF as [P1 P2 P3 P4 P5 P6 P7 P8 P9].
  destruct (turn_disjoint _ _ _ _ _ _ _ T) as (_ & _ & _ & _ & _ & _ & _ & _ & D0).
  unfold insert_up. rewrite Q1. destruct (Z.eqb_spec (fn f) 0); [done|]. rewrite P2. cbn [mbind option_bind].
  rewrite P8. cbn [mbind option_bind]. destruct (Z.ltb_spec (hgt t gn + 1) (heights t (fn f))); [lia|].
  unfold Internode.size. destruct (Z.leb_spec iw (nkeys_ x)); [lia|].
  pose proof (insert_child_spec iw (fn f) 0 (kpos f) xikey (addr gc) st x un (parents t) Hiw A1 ltac:(lia) A2
    (fun c Hc Hc0 => proj2 (A5 c Hc Hc0))) as HV.
  destruct (insert_child _ _ _ _ _ _ _ _ _ _) as [[x' [[nr sk]|]] pa]; [destruct HV as [? _]; lia|].
  destruct HV as (_ & V1 & V2 & V3 & V4 & V5). rewrite A3 in V1. rewrite A4 in V2.
  set (t' := put_parents pa (put_inode (fn f) x' t)).
  assert (TD : turned t t' f gn gc []).
  { split_and!; [|intros b _ _ Hb _; by apply V5|done]. intros b Hb _. unfold same_node, t'.
    cbn [leaves inodes heights is_root put_parents put_inode]. by rewrite lookup_delete_ne, lookup_insert_ne by done. }
  assert (Hu : forall b, b ∈ ([] : list Z) -> b ∈ pool) by (intros b Hb; by apply elem_of_nil in Hb).
  exists t', (fill C (SNode (fn f) (fh f) (all_keys f xikey) (all_kids f gn gc))). split; [done|]. split; [|by apply turned_quietly].
  assert (Hwf : ctx_wf C) by (by eapply rep_ctx_wf).
  assert (HR : rep t' true (fill C (SNode (fn f) (fh f) (all_keys f xikey) (all_kids f gn gc))) /\
    parents t' (addr (fill C (SNode (fn f) (fh f) (all_keys f xikey) (all_kids f gn gc)))) = 0).
  { apply rep_fill; [done|]. split; [|by eapply turned_ctx]. apply rep_SNode. unfold inode_at. split_and!.
    - cbn [leaves t' put_parents put_inode]. by rewrite lookup_delete_eq.
    - cbn. lia.
    - exists x'. cbn [inodes t' put_parents put_inode]. rewrite lookup_insert_eq. split_and!; try done; lia.
    - done.
    - eapply insert_up_children; try done. intros c Hc. split; [done|]. apply V3; [|by eapply all_kids_nonnull]. rewrite V2. apply elem_of_app. right. by apply list_elem_of_fmap_2. }
  destruct HR as [HR1 HR2]. split; try done.
  - rewrite flat_fill by done. cbn [flat pre post]. rewrite flat_all_kids by done. rewrite <- !app_assoc. cbn. by rewrite <- !app_assoc.
  - rewrite addrs_fill. cbn [addrs ctx_addrs flat_map]. rewrite all_kids_addrs. unfold frame_addrs. solve_Permutation.
  - rewrite leaf_addrs_fill. cbn [leaf_addrs lpre lpost]. rewrite leaves_all_kids, <- !app_assoc. done.
  - right. split; [done|]. by apply (addr_fill C).
Qed.

Lemma insert_up_split t f C gn gc xikey st a pool x : turn t (f :: C) gn gc xikey (a :: pool) -> parent_facts t f gn xikey x ->
  heights t (fn f) = hgt t gn + 1 -> nkeys_ x = iw ->
  exists t' gp gq xk, insert_up bnd iw un t (a :: pool) (addr gn) (addr gc) xikey st (hgt t gn) = Some (t', pool, Some (addr gq, xk)) /\
    stepped t t' gn gc f xikey [a] gp gq xk /\ rep_ctx t' C (fn f) (hgt t gn + 1) /\ quietly t t' (f :: C) gn gc [a].
Proof.
  intros T PF Hh Hx. destruct (hgt_parent _ _ _ _ _ _ _ T) as (Q1 & Q2 & Q3 & Q4 & Q5).
  destruct (insert_args _ _ _ _ _ _ _ _ T PF) as (A1 & A2 & A3 & A4 & A5). pose proof PF as [P1 P2 P3 P4 P5 P6 P7 P8 P9].
  destruct (turn_disjoint _ _ _ _ _ _ _ T) as (D1 & D2 & (D3 & D3' & D3'') & D4 & _ & _ & _ & _ & D0).
  assert (Hpa : fn f <> a) by (intros <-; apply D3''; left).
  unfold insert_up. rewrite Q1. destruct (Z.eqb_spec (fn f) 0); [done|]. rewrite P2. cbn [mbind option_bind].
  rewrite P8. cbn [mbind option_bind]. destruct (Z.ltb_spec (hgt t gn + 1) (heights t (fn f))); [lia|].
  unfold Internode.size. destruct (Z.leb_spec iw (nkeys_ x)); [|lia].
  set (t1 := make_inode un a (hgt t gn + 1) t).
  assert (HPO : parent_ok (fn f) x (parents t1)).
  { intros c Hc Hc0. destruct (A5 c Hc Hc0) as [Hca ?]. cbn. rewrite fn_lookup_insert_ne; [done|]. intros ->. apply Hca. left. }
  pose proof (insert_child_spec iw (fn f) a (kpos f) xikey (addr gc) st x (set_nkeys un 0) (parents t1)
    Hiw A1 ltac:(lia) A2 HPO) as HV.
  destruct (insert_child _ _ _ _ _ _ _ _ _ _) as [[x' [[nr sk]|]] pa]; [|destruct HV as [? _]; lia].
  destruct HV as (_ & V1 & V2 & V3 & V4 & _ & V5 & V6 & V7). rewrite A3 in V1. rewrite A4 in V2.
  pose proof (mid_range iw Hiw st) as Hmid. unfold split_mid in V3, V4. set (mid := if st =? 2 then iw else (iw + 1) / 2) in *.
  set (t' := put_root (fn f) false (put_parents pa (put_inode (fn f) x' (put_inode a nr t1)))).
  (* the children, cut where the parent was *)
  pose proof (length_kids x' ltac:(lia)) as Lx. pose proof (length_keys x' ltac:(lia)) as Lk.
  assert (Lh : (List.length (hkids (fh f)) <= 1)%nat) by (destruct (fh f); cbn; lia). pose proof (length_hkids (fh f)) as Lh2.
  destruct (app_cut _ _ _ _ V2) as (kA & EkA & EkB); [lia|]. destruct (app_cut _ _ _ _ V1) as (ksA & EA & EK); [lia|].
  set (cA := take (List.length kA) (all_kids f gn gc)). set (cB := drop (List.length kA) (all_kids f gn gc)).
  assert (EAB : all_kids f gn gc = cA ++ cB) by (symmetry; apply take_drop).
  assert (EkA' : kA = addr <$> cA) by (unfold cA; by rewrite fmap_take, <- EkB, take_app_length).
  assert (EB : kids nr = addr <$> cB) by (unfold cB; by rewrite fmap_drop, <- EkB, drop_app_length).
  assert (Hkids : forall b, b ∈ kids nr -> b ∈ addr <$> all_kids f gn gc) by (intros b Hb; rewrite <- EkB; apply elem_of_app; by right).
  assert (TD : turned t t' f gn gc [a]).
  { split_and!.
    - intros b Hb Hb'. assert (b <> a) by set_solver. unfold same_node, t', t1.
      cbn [leaves inodes heights is_root put_root put_parents put_inode make_inode put_height].
      by rewrite !lookup_delete_ne, !lookup_insert_ne, !fn_lookup_insert_ne by done.
    - intros b Hb Hbn Hbc Hbk. assert (b <> a) by set_solver. unfold same_parent, t'. cbn [parents put_parents put_root].
      rewrite V7; [cbn; by rewrite fn_lookup_insert_ne|done|]. intros Hb'%Hkids. unfold all_kids in Hb'.
      rewrite fmap_app, !fmap_cons, elem_of_app, !elem_of_cons in Hb'. rewrite fmap_app, elem_of_app in Hbk. tauto.
    - intros b Hb. assert (b <> a) by set_solver. cbn. destruct (decide (b = fn f)) as [->|]; [by rewrite fn_lookup_insert|].
      by rewrite !fn_lookup_insert_ne by done. }
  assert (Hu : forall b, b ∈ [a] -> b ∈ a :: pool) by (intros b Hb; apply elem_of_cons; left; by apply list_elem_of_singleton).
  assert (Hha : heights t' a = hgt t gn + 1) by (cbn; by rewrite fn_lookup_insert).
  assert (Hhp : heights t' (fn f) = hgt t gn + 1) by (cbn; by rewrite fn_lookup_insert_ne).
  exists t', (SNode (fn f) (fh f) ksA cA), (SNode a None (keys nr) cB), sk. split; [done|]. split; [|split; [|by apply turned_quietly]].
  2: { rewrite <- Hh. eapply turned_ctx; try done; by rewrite Hhp, Hh + by rewrite <- Hh in Hhp. }
  assert (RA : rep t' false (SNode (fn f) (fh f) ksA cA)).
  { apply rep_SNode. unfold inode_at. split_and!; [| |eexists; split_and!| |].
    - cbn. by rewrite lookup_delete_eq.
    - lia.
    - cbn. by rewrite lookup_insert_eq.
    - lia. - lia. - done. - by rewrite EkA, EkA'.
    - cbn. by rewrite fn_lookup_insert.
    - eapply insert_up_children; [done|done|done|done|by rewrite Hhp, Hh| |done]. intros c Hc. rewrite EAB, elem_of_app. split; [by left|].
      apply V5; [|eapply all_kids_nonnull; [exact T|rewrite EAB, elem_of_app; by left]].
      rewrite EkA, EkA'. apply elem_of_app. right. by apply list_elem_of_fmap_2. }
  assert (RB : rep t' false (SNode a None (keys nr) cB)).
  { apply rep_SNode. unfold inode_at. split_and!; [| |eexists; split_and!| |].
    - cbn. rewrite lookup_delete_ne by done. by rewrite lookup_delete_eq.
    - lia.
    - cbn. rewrite lookup_insert_ne by done. by rewrite lookup_insert_eq.
    - lia. - lia. - done. - done.
    - cbn. rewrite fn_lookup_insert_ne by done. by rewrite fn_lookup_insert.
    - eapply insert_up_children; [done|done|done|done|by rewrite Hha, Hh| |done]. intros c Hc. rewrite EAB, elem_of_app. split; [by right|].
      apply V6; [|eapply all_kids_nonnull; [exact T|rewrite EAB, elem_of_app; by right]].
      rewrite EB. by apply list_elem_of_fmap_2. }
  split; try done.
  - cbn. by rewrite fn_lookup_insert.
  - cbn. by rewrite lookup_delete_eq.
  - cbn [flat lead option_list fmap list_fmap app]. rewrite <- flat_all_kids by done. rewrite <- EK, EAB, map_app, weave_cut; [by rewrite <- app_assoc|].
    rewrite length_map. apply (f_equal List.length) in EA, EkA, EkA'. rewrite length_fmap in EkA'. rewrite length_app in EA, EkA. lia.
  - cbn [addrs]. assert (EP : flat_map addrs (all_kids f gn gc) ≡ₚ flat_map addrs cA ++ flat_map addrs cB) by (by rewrite EAB, flat_map_app).
    rewrite all_kids_addrs in EP. unfold frame_addrs. 
    transitivity (fn f :: (flat_map addrs cA ++ flat_map addrs cB) ++ [a]); [solve_Permutation|]. rewrite <- EP. solve_Permutation.
  - cbn [leaf_addrs]. rewrite <- flat_map_app, <- EAB. apply leaves_all_kids.
Qed.

(** ** One turn, and the loop *)
Lemma insert_up_ok t C gn gc xikey st pool : turn t C gn gc xikey pool -> pool <> [] ->
  exists t' used pool' next, pool = used ++ pool' /\ (List.length used <= 1)%nat /\
    insert_up bnd iw un t pool (addr gn) (addr gc) xikey st (hgt t gn) = Some (t', pool', next) /\
    quietly t t' C gn gc used /\
    match next with
    | None => exists g', finished t t' C gn gc xikey used g'
    | Some (nc, xk) => exists f C' gp gq, C = f :: C' /\ nc = addr gq /\ stepped t t' gn gc f xikey used gp gq xk /\
        rep_ctx t' C' (fn f) (hgt t gn + 1)
    end.
Proof.
  intros T Hp. destruct pool as [|a pool]; [done|]. destruct C as [|f C].
  - destruct (insert_up_root t gn gc xikey st a pool T) as (t' & g' & E & F & Q). exists t', [a], pool, None.
    split_and!; try done. by exists g'.
  - destruct (turn_parent _ _ _ _ _ _ _ T) as [x PF]. destruct (hgt_parent _ _ _ _ _ _ _ T) as (_ & Q2 & _).
    destruct (Z.lt_ge_cases (hgt t gn + 1) (heights t (fn f))) as [Hh|Hh].
    + destruct (insert_up_between t f C gn gc xikey st a pool T Hh) as (t' & g' & E & F & Q). exists t', [a], pool, None.
      split_and!; try done. by exists g'.
    + pose proof (pf_nkeys _ _ _ _ _ PF) as Hn. destruct (Z.eq_dec (nkeys_ x) iw) as [Hx|Hx].
      * destruct (insert_up_split t f C gn gc xikey st a pool x T PF ltac:(lia) Hx) as (t' & gp & gq & xk & E & F & HC & Q).
        exists t', [a], pool, (Some (addr gq, xk)). split_and!; try done. by exists f, C, gp, gq.
      * destruct (insert_up_room t f C gn gc xikey st (a :: pool) x T PF ltac:(lia) ltac:(lia)) as (t' & g' & E & F & Q).
        exists t', [], (a :: pool), None. split_and!; try done; [cbn; lia|]. by exists g'.
Qed.

Lemma quietly_trans t t1 t2 f C gn gc gp gq xikey xk used used' : quietly t t1 (f :: C) gn gc used ->
  stepped t t1 gn gc f xikey used gp gq xk -> quietly t1 t2 C gp gq used' -> quietly t t2 (f :: C) gn gc (used ++ used').
Proof.
  intros [A1 A2 A3 A4] S [B1 B2 B3 B4]. split.
  - intros b Hb Hu. rewrite elem_of_app in Hu. cbn [ctx_addrs flat_map] in Hb.
    destruct (A1 b Hb ltac:(tauto)) as (E1 & E2 & E3 & E4). rewrite elem_of_app in Hb.
    destruct (B1 b ltac:(tauto) ltac:(tauto)) as (F1 & F2 & F3 & F4). unfold same_node. split_and!; congruence.
  - eapply outside_trans; [eapply outside_sub; [exact A2|]|eapply outside_sub; [exact B2|]].
    + intros b. rewrite !elem_of_app. tauto.
    + intros b. rewrite app_assoc, elem_of_app, (sp_addrs _ _ _ _ _ _ _ _ _ _ S). cbn [ctx_addrs flat_map].
      rewrite !elem_of_app. unfold ctx_addrs. tauto.
  - intros b Hu Hb. rewrite elem_of_app in Hu. apply A3; [tauto|]. apply B3; [tauto|done].
  - intros b l Hu Hb. rewrite elem_of_app in Hu. apply B4; [tauto|]. apply A4; [tauto|done].
Qed.
Lemma finished_step t t1 t2 f C gn gc gp gq xikey xk used used' g' : stepped t t1 gn gc f xikey used gp gq xk ->
  finished t1 t2 C gp gq xk used' g' -> finished t t2 (f :: C) gn gc xikey (used ++ used') g'.
Proof.
  intros S [F1 F2 F3 F4 F5 F6]. split; try done.
  - rewrite F3. cbn [pre post]. pose proof (sp_flat _ _ _ _ _ _ _ _ _ _ S) as E.
    change (flat gp ++ K xk :: flat gq ++ post C) with (flat gp ++ (K xk :: flat gq) ++ post C). rewrite (app_assoc (flat gp)), E.
    rewrite <- !app_assoc. cbn. by rewrite <- !app_assoc.
  - rewrite F4. pose proof (sp_addrs _ _ _ _ _ _ _ _ _ _ S) as E. rewrite app_assoc, E. cbn [ctx_addrs flat_map].
    change (flat_map frame_addrs C) with (ctx_addrs C). solve_Permutation.
  - rewrite F5. pose proof (sp_leaves _ _ _ _ _ _ _ _ _ _ S) as E. rewrite (app_assoc (leaf_addrs gp)), E. cbn [lpre lpost].
    by rewrite <- !app_assoc.
  - assert (Ea : addr (fill (f :: C) gn) = addr (fill C gp)) by (symmetry; apply (addr_fill C gp (plug f gn)), S).
    rewrite Ea. destruct F6 as [[F6 F7]|[F6 F7]]; [left; split; [apply elem_of_app; by right|done]|by right].
Qed.
Lemma turn_next t t1 f C gn gc gp gq xikey xk used pool : turn t (f :: C) gn gc xikey (used ++ pool) ->
  stepped t t1 gn gc f xikey used gp gq xk -> rep_ctx t1 C (fn f) (hgt t gn + 1) -> turn t1 C gp gq xk pool.
Proof.
  intros [_ _ _ _ _ T6 T7 T8] S HC.
  assert (EP : addrs gn ++ addrs gc ++ ctx_addrs (f :: C) ++ used ++ pool ≡ₚ addrs gp ++ addrs gq ++ ctx_addrs C ++ pool).
  { pose proof (sp_addrs _ _ _ _ _ _ _ _ _ _ S) as E. cbn [ctx_addrs flat_map]. change (flat_map frame_addrs C) with (ctx_addrs C).
    rewrite (app_assoc (addrs gp)), E. solve_Permutation. }
  split; try apply S.
  - rewrite (sp_hgtp _ _ _ _ _ _ _ _ _ _ S), (sp_hgtq _ _ _ _ _ _ _ _ _ _ S). done.
  - rewrite (sp_addr _ _ _ _ _ _ _ _ _ _ S), (sp_hgtp _ _ _ _ _ _ _ _ _ _ S). done.
  - by rewrite <- EP.
  - intros b Hb. apply T7. by rewrite EP.
  - pose proof (sp_flat _ _ _ _ _ _ _ _ _ _ S) as E. cbn [pre post] in T8. rewrite <- app_assoc in T8.
    change (flat gp ++ K xk :: flat gq ++ post C) with (flat gp ++ (K xk :: flat gq) ++ post C). rewrite (app_assoc (flat gp)), E.
    rewrite <- !app_assoc. cbn. rewrite <- !app_assoc. done.
Qed.

Lemma split_loop_ok C st ka cur : forall t gn gc xikey pool fuel, turn t C gn gc xikey pool -> leaves t !! addr gn = None ->
  (List.length C < List.length pool)%nat -> (List.length C < fuel)%nat ->
  exists t' used pool' g', pool = used ++ pool' /\ (List.length used <= S (List.length C))%nat /\
    split_loop bnd lw iw un fuel t pool (addr gn) (addr gc) xikey st (hgt t gn) ka cur = Some (t', pool', cur) /\
    finished t t' C gn gc xikey used g' /\ quietly t t' C gn gc used.
Proof.
  induction C as [|f C IH]; intros t gn gc xikey pool fuel T Hl Hp Hf; (destruct fuel as [|fuel]; [lia|]).
  all: destruct (insert_up_ok t _ gn gc xikey st pool T) as (t1 & used & pool' & next & -> & Hlu & E & Q & Hnext); [by intros ->; cbn in Hp; lia|].
  all: cbn [split_loop]; rewrite E; cbn [mbind option_bind].
  all: assert (Hl1 : leaves t1 !! addr gn = None).
  1,3: pose proof (tn_nodup _ _ _ _ _ _ T) as Hnd; apply list.NoDup_app in Hnd as (_ & D & _); specialize (D _ (addr_in gn));
    rewrite !elem_of_app in D; destruct (qu_nodes _ _ _ _ _ _ Q (addr gn)) as (-> & _); tauto.
  all: rewrite Hl1; cbn [mbind option_bind].
  - destruct next as [[nc xk]|]; [by destruct Hnext as (? & ? & ? & ? & ? & _)|]. destruct Hnext as [g' F].
    exists t1, used, pool', g'. split_and!; done || (cbn; lia).
  - destruct next as [[nc xk]|].
    + destruct Hnext as (f0 & C0 & gp & gq & [= <- <-] & -> & S & HC).
      destruct (hgt_parent _ _ _ _ _ _ _ T) as (-> & _).
      destruct (IH t1 gp gq xk pool' fuel) as (t2 & used' & pool2 & g' & -> & Hlu' & E2 & F2 & Q2).
      * by eapply turn_next. * apply S. * rewrite length_app in Hp. cbn in Hp. lia. * cbn in Hf. lia.
      * rewrite (sp_addr _ _ _ _ _ _ _ _ _ _ S), (sp_hgtp _ _ _ _ _ _ _ _ _ _ S) in E2.
        exists t2, (used ++ used'), pool2, g'. split_and!; [by rewrite app_assoc|rewrite length_app; cbn; lia|done| |].
        -- by eapply finished_step. -- by eapply quietly_trans.
    + destruct Hnext as [g' F]. exists t1, used, pool', g'. split_and!; done || (cbn; lia).
Qed.
End Split.
