(* ===== verification/TreeSplit.v ===== *)
(** The split of a leaf in the tree: [make_split] with the caller's store and [finish].

    The loop writes the parents and not the two leaves, so what is written to the leaves
    during and after it can be taken to be there from the start. *)
From Stdlib Require Import Sorted FunctionalExtensionality.
From S2P Require Import Prelude StringSlice Permuter KSearch Internode LeafSplit MassKey Tree TreeShape TreeMap TreeOps TreeInsert.

Lemma fn_insert_comm {A} (f : Z -> A) a b x y : a <> b -> <[a := x]> (<[b := y]> f) = <[b := y]> (<[a := x]> f).
Proof.
  intros H. apply functional_extensionality. intros c. destruct (decide (c = a)) as [->|]; [|destruct (decide (c = b)) as [->|]].
  - rewrite (fn_lookup_insert_ne _ b) by done. by rewrite !fn_lookup_insert.
  - by rewrite fn_lookup_insert, fn_lookup_insert_ne, fn_lookup_insert by done.
  - by rewrite !fn_lookup_insert_ne by done.
Qed.

Section Commute.
Context (bnd : key_bound_type) (iw : Z) (un : internode).
Abbreviation insert_up := (insert_up bnd iw un).

(** Writing a leaf before or after. *)
Lemma put_inode_put_leaf t a x m l : a <> m -> put_inode a x (put_leaf m l t) = put_leaf m l (put_inode a x t).
Proof. intros H. unfold put_inode, put_leaf. cbn. f_equal; [by rewrite delete_insert_ne|by rewrite delete_insert_ne]. Qed.
Lemma make_inode_put_leaf t a h m l : a <> m -> make_inode un a h (put_leaf m l t) = put_leaf m l (make_inode un a h t).
Proof. intros H. unfold make_inode. by rewrite put_inode_put_leaf. Qed.

Definition map_fst {A B C} (g : A -> A) (r : option (A * B * C)) : option (A * B * C) := (fun '(t, b, c) => (g t, b, c)) <$> r.

Lemma insert_up_put_leaf t pool n child xikey st h m l : inodes t !! m = None -> m ∉ pool ->
  insert_up (put_leaf m l t) pool n child xikey st h = map_fst (put_leaf m l) (insert_up t pool n child xikey st h).
Proof.
  intros Hm Hp. unfold TreeOps.insert_up. change (parents (put_leaf m l t)) with (parents t). cbn [heights put_leaf inodes].
  assert (Hpool : forall a pool', pool = a :: pool' -> a <> m) by (intros a pool' -> ->; apply Hp; left).
  destruct (parents t n =? 0).
  - destruct pool as [|a pool]; [done|]. specialize (Hpool a pool eq_refl). rewrite make_inode_put_leaf by done.
    change (parents (put_leaf m l ?t)) with (parents t).
    destruct (new_parent _ _ _ _ _ _ _ _ _) as [[nn p'] pa]. cbn. by rewrite put_inode_put_leaf.
  - destruct (decide (parents t n = m)) as [E|E].
    { rewrite E, lookup_delete_eq, Hm. done. }
    rewrite lookup_delete_ne by done. destruct (inodes t !! parents t n) as [x|]; [|done]. cbn [mbind option_bind].
    destruct (upper _ _ _) as [kp|]; [|done]. cbn [mbind option_bind]. destruct (h + 1 <? heights t (parents t n)).
    + destruct pool as [|a pool]; [done|]. specialize (Hpool a pool eq_refl). rewrite make_inode_put_leaf by done.
      change (parents (put_leaf m l ?t)) with (parents t).
      destruct (new_parent _ _ _ _ _ _ _ _ _) as [[nn p'] pa]. cbn. by rewrite !put_inode_put_leaf.
    + destruct (iw <=? Internode.size x).
      * destruct pool as [|a pool]; [done|]. specialize (Hpool a pool eq_refl). rewrite make_inode_put_leaf by done.
        change (parents (put_leaf m l ?t)) with (parents t).
        destruct (insert_child _ _ _ _ _ _ _ _ _ _) as [[x' [[nr sk]|]] pa]; [|done]. cbn. by rewrite !put_inode_put_leaf.
      * destruct (insert_child _ _ _ _ _ _ _ _ _ _) as [[x' [[nr sk]|]] pa]; [done|]. cbn. by rewrite put_inode_put_leaf.
Qed.

(** Clearing a root bit before or after. *)
Lemma put_root_comm t a b x y : a <> b \/ x = y -> put_root a x (put_root b y t) = put_root b y (put_root a x t).
Proof.
  intros H. unfold put_root. cbn. f_equal. destruct (decide (a = b)) as [->|]; [|by apply fn_insert_comm].
  destruct H as [H| ->]; done.
Qed.
Lemma insert_up_put_root t pool n child xikey st h m : m ∉ pool ->
  insert_up (put_root m false t) pool n child xikey st h = map_fst (put_root m false) (insert_up t pool n child xikey st h).
Proof.
  intros Hp. unfold TreeOps.insert_up. change (parents (put_root m false t)) with (parents t). cbn [heights inodes put_root].
  assert (Hpool : forall a pool', pool = a :: pool' -> a <> m) by (intros a pool' -> ->; apply Hp; left).
  assert (Hmk : forall a h, a <> m -> make_inode un a h (put_root m false t) = put_root m false (make_inode un a h t)).
  { intros a h' Ha. unfold make_inode. change (put_inode a ?x (put_root m false t)) with (put_root m false (put_inode a x t)).
    change (put_parents ?pa (put_root m false ?t)) with (put_root m false (put_parents pa t)). rewrite put_root_comm by by right. done. }
  destruct (parents t n =? 0).
  - destruct pool as [|a pool]; [done|]. specialize (Hpool a pool eq_refl). rewrite Hmk by done. cbn [parents put_root].
    destruct (new_parent _ _ _ _ _ _ _ _ _) as [[nn p'] pa]. cbn.
    change (put_parents pa (put_inode a nn (put_root m false ?T))) with (put_root m false (put_parents pa (put_inode a nn T))).
    by rewrite (put_root_comm _ a m) by by left.
  - destruct (inodes t !! parents t n) as [x|]; [|done]. cbn [mbind option_bind].
    destruct (upper _ _ _) as [kp|]; [|done]. cbn [mbind option_bind]. destruct (h + 1 <? heights t (parents t n)).
    + destruct pool as [|a pool]; [done|]. specialize (Hpool a pool eq_refl). rewrite Hmk by done. cbn [parents put_root].
      by destruct (new_parent _ _ _ _ _ _ _ _ _) as [[nn p'] pa].
    + destruct (iw <=? Internode.size x).
      * destruct pool as [|a pool]; [done|]. specialize (Hpool a pool eq_refl). rewrite Hmk by done. cbn [parents put_root].
        destruct (insert_child _ _ _ _ _ _ _ _ _ _) as [[x' [[nr sk]|]] pa]; [|done]. cbn.
        change (put_parents pa (put_inode ?p x' (put_inode a nr (put_root m false ?T)))) with
          (put_root m false (put_parents pa (put_inode p x' (put_inode a nr T)))).
        by rewrite (put_root_comm _ _ m) by by right.
      * by destruct (insert_child _ _ _ _ _ _ _ _ _ _) as [[x' [[nr sk]|]] pa].
Qed.

(** What a turn does to nodes it does not know of. *)
Lemma insert_up_facts t pool n child xikey st h t' pool' next :
  insert_up t pool n child xikey st h = Some (t', pool', next) ->
  (forall m, m ∉ pool -> m ∉ pool') /\
  (forall m, inodes t !! m = None -> m ∉ pool -> inodes t' !! m = None /\ leaves t' !! m = leaves t !! m) /\
  (forall b, leaves t !! b = None -> leaves t' !! b = None) /\
  (next <> None -> leaves t' !! parents t n = None /\ inodes t !! parents t n <> None).
Proof.
  assert (HI : forall t a x m L, inodes t !! m = None /\ leaves t !! m = L -> a <> m ->
    inodes (put_inode a x t) !! m = None /\ leaves (put_inode a x t) !! m = L)
    by (intros t0 a x m L [? ?] ?; cbn; by rewrite lookup_insert_ne, lookup_delete_ne).
  assert (HL : forall t a x b, leaves t !! b = None -> leaves (put_inode a x t) !! b = None).
  { intros t0 a x b H. cbn. destruct (decide (a = b)) as [->|]; [by rewrite lookup_delete_eq|by rewrite lookup_delete_ne]. }
  assert (HP : forall a (pool : list Z) m, m ∉ a :: pool -> a <> m /\ m ∉ pool).
  { intros a p m H. split; [intros ->; apply H; left|intros ?; apply H; by right]. }
  unfold TreeOps.insert_up. destruct (parents t n =? 0).
  - destruct pool as [|a pool]; [done|]. destruct (new_parent _ _ _ _ _ _ _ _ _) as [[nn p'] pa]. intros [= <- <- <-].
    split_and!; [by intros m [? ?]%HP|intros m Hm [? ?]%HP; by repeat (apply HI; [|done])|intros b Hb; by repeat apply HL|done].
  - destruct (inodes t !! parents t n) as [x|] eqn:Ex; [|done]. cbn [mbind option_bind].
    assert (HX : forall m, inodes t !! m = None -> parents t n <> m) by (intros m Hm E0; rewrite E0 in Ex; congruence).
    destruct (upper _ _ _) as [kp|]; [|done]. cbn [mbind option_bind]. destruct (h + 1 <? heights t (parents t n)).
    + destruct pool as [|a pool]; [done|]. destruct (new_parent _ _ _ _ _ _ _ _ _) as [[nn p'] pa]. intros [= <- <- <-].
      split_and!; [by intros m [? ?]%HP|intros m Hm [? ?]%HP; repeat (apply HI; [|done || by apply HX]); done|intros b Hb; by repeat apply HL|done].
    + destruct (iw <=? Internode.size x).
      * destruct pool as [|a pool]; [done|]. destruct (insert_child _ _ _ _ _ _ _ _ _ _) as [[x' [[nr sk]|]] pa]; [|done]. intros [= <- <- <-].
        split_and!; [by intros m [? ?]%HP|intros m Hm [? ?]%HP; repeat (apply HI; [|done || by apply HX]); done|intros b Hb; by repeat apply HL|].
        intros _. split; [|done]. cbn. by rewrite lookup_delete_eq.
      * destruct (insert_child _ _ _ _ _ _ _ _ _ _) as [[x' [[nr sk]|]] pa]; [done|]. intros [= <- <- <-].
        split_and!; [done|intros m Hm _; repeat (apply HI; [|done || by apply HX]); done|intros b Hb; by repeat apply HL|done].
Qed.

Lemma split_loop_put_leaf lw st ka cur m l fuel : forall t pool n child xikey h,
  inodes t !! m = None -> m ∉ pool -> leaves t !! n = None -> n <> m ->
  split_loop bnd lw iw un fuel (put_leaf m l t) pool n child xikey st h ka cur =
  map_fst (put_leaf m l) (split_loop bnd lw iw un fuel t pool n child xikey st h ka cur).
Proof.
  induction fuel as [|fuel IH]; intros t pool n child xikey h Hm Hp Hn Hnm; [done|]. cbn [split_loop].
  change (TreeOps.insert_up bnd iw un) with insert_up. rewrite insert_up_put_leaf by done. change (parents (put_leaf m l t)) with (parents t).
  destruct (insert_up t pool n child xikey st h) as [[[t1 pool1] next]|] eqn:E; [|done]. cbn [map_fst fmap option_fmap option_map mbind option_bind].
  destruct (insert_up_facts _ _ _ _ _ _ _ _ _ _ E) as (F1 & F2 & F3 & F4).
  assert (Hn1 : leaves t1 !! n = None) by by apply F3.
  assert (Hn2 : leaves (put_leaf m l t1) !! n = None) by (cbn; by rewrite lookup_insert_ne).
  rewrite Hn1, Hn2. cbn [mbind option_bind]. destruct next as [[nc xk]|]; [|done].
  destruct F4 as [F4 F5]; [done|]. apply IH; [by apply F2|by apply F1|done|]. intros E'. by rewrite E' in F5.
Qed.

Lemma split_loop_leaves lw st ka cur fuel : forall t pool n child xikey h t' pool' cur',
  split_loop bnd lw iw un fuel t pool n child xikey st h ka cur = Some (t', pool', cur') -> leaves t !! n = None ->
  forall b, leaves t !! b = None -> leaves t' !! b = None.
Proof.
  induction fuel as [|fuel IH]; intros t pool n child xikey h t' pool' cur' E Hn b Hb; [done|]. cbn [split_loop] in E.
  change (TreeOps.insert_up bnd iw un) with insert_up in E.
  destruct (insert_up t pool n child xikey st h) as [[[t1 pool1] next]|] eqn:E1; [|done]. cbn [mbind option_bind] in E.
  destruct (insert_up_facts _ _ _ _ _ _ _ _ _ _ E1) as (_ & _ & F3 & F4). rewrite (F3 n Hn) in E. cbn [mbind option_bind] in E.
  destruct next as [[nc xk]|]; [|injection E as <- _ _; by apply F3]. destruct F4 as [F4 _]; [done|].
  eapply IH; [exact E|done|by apply F3].
Qed.
Lemma split_loop_keeps lw st ka cur m fuel : forall t pool n child xikey h t' pool' cur',
  split_loop bnd lw iw un fuel t pool n child xikey st h ka cur = Some (t', pool', cur') -> leaves t !! n = None ->
  inodes t !! m = None -> m ∉ pool -> leaves t' !! m = leaves t !! m.
Proof.
  induction fuel as [|fuel IH]; intros t pool n child xikey h t' pool' cur' E Hn Hm Hp; [done|]. cbn [split_loop] in E.
  change (TreeOps.insert_up bnd iw un) with insert_up in E.
  destruct (insert_up t pool n child xikey st h) as [[[t1 pool1] next]|] eqn:E1; [|done]. cbn [mbind option_bind] in E.
  destruct (insert_up_facts _ _ _ _ _ _ _ _ _ _ E1) as (F1 & F2 & F3 & F4). rewrite (F3 n Hn) in E. cbn [mbind option_bind] in E.
  destruct (F2 m Hm Hp) as [G1 G2]. destruct next as [[nc xk]|]; [|injection E as <- _ _; done]. destruct F4 as [F4 _]; [done|].
  rewrite <- G2. eapply IH; [exact E|done|done|by apply F1].
Qed.
End Commute.

(** * Leaves *)

Lemma rep_root_bits lw iw t top g a : rep lw iw t top g -> a ∈ addrs g -> a <> addr g -> leaves t !! a = None -> is_root t a = false.
Proof.
  revert top. induction g as [n lo es|n h ks cs IH] using shape_ind'; intros top Hr Ha Hne Hl.
  - by apply list_elem_of_singleton in Ha.
  - apply rep_SNode in Hr as (_ & _ & F). cbn [addrs addr] in *. apply elem_of_cons in Ha as [->|Ha]; [done|].
    apply elem_of_flat_map in Ha as (c & Hc & Ha). rewrite Forall_forall in F, IH. apply list_elem_of_In in Hc.
    destruct (F c Hc) as (_ & _ & Hrc). destruct (decide (a = addr c)) as [->|Hac]; [|by eapply IH].
    destruct c as [m lo es|m h' ks' cs']; cbn in *; [destruct Hrc as [(l & Hl' & _) _]; congruence|by destruct Hrc as (_ & -> & _)].
Qed.

(** The new key's slot becomes visible, with the caller's value in it. *)
Definition visible (lw : Z) (l : leaf) (i v : Z) : leaf :=
  set_perm (set_lv l (back lw (permutation_ l)) v) (insert_from_back lw (permutation_ l) i).1.
Lemma finish_value lw l i p v : p = back lw (permutation_ l) -> finish_insert lw (set_lv l p v) i p = Some (visible lw l i v).
Proof. intros ->. unfold finish_insert. cbn [permutation_ set_lv set_slot]. by rewrite Z.eqb_refl. Qed.
Lemma visible_ok lw l i v : 3 <= lw <= 15 -> leaf_ok lw l -> 0 <= i <= lsize l -> lsize l < lw ->
  0 <= keylenx (slot l (back lw (permutation_ l))) ->
  leaf_ok lw (visible lw l i v) /\
  entries (visible lw l i v) = insert_at i (with_lv (slot l (back lw (permutation_ l))) v) (entries l).
Proof.
  intros Hw [Hx Hk] Hi Hs Hb. set (x := permutation_ l) in *. set (p := back lw x) in *.
  destruct (insert_back_wf lw Hw x i Hx ltac:(lia) ltac:(done)) as [W S].
  assert (E : entries (visible lw l i v) = insert_at i (with_lv (slot l p) v) (entries l)).
  { unfold entries. change (lsize (visible lw l i v)) with (Permuter.size (insert_from_back lw x i).1). rewrite S. change (Permuter.size x) with (lsize l).
    rewrite insert_at_arr by lia. rewrite (arr_cut i) by lia. rewrite (arr_cons _ _ (lsize l + 1 - i)) by lia.
    assert (HN : forall k, 0 <= k < lsize l + 1 -> nth_entry (visible lw l i v) k =
      if k <? i then nth_entry l k else if k =? i then with_lv (slot l p) v else nth_entry l (k - 1)).
    { intros k Hk'. unfold nth_entry. cbn [slot permutation_ visible set_perm set_lv set_slot]. fold x p.
      rewrite insert_from_back_elem by (lia || done).
      assert (Hne : forall j, 0 <= j < lsize l -> elem x j <> p).
      { intros j Hj E. unfold p, back in E. apply (elem_inj lw) in E; [lia|lia|done|lia|lia]. }
      zcases; [fold p; by rewrite fn_lookup_insert| |]; apply fn_lookup_insert_ne; intros E0.
      - by apply (Hne k ltac:(lia)).
      - by apply (Hne (k - 1) ltac:(lia)). }
    f_equal; [apply arr_ext0; intros; rewrite HN by lia; zcases; done || lia|].
    f_equal; [rewrite HN by lia; zcases; done || lia|].
    apply arr_ext; [lia|]. intros j Hj. rewrite HN by lia. zcases; try lia. f_equal. lia. }
  split; [|done]. split; [done|]. rewrite E. apply Forall_forall. intros e He%list_elem_of_In.
  apply elem_of_insert_at in He as [->|He]; [done|]. rewrite Forall_forall in Hk. by apply Hk, list_elem_of_In.
Qed.

(** Ten entries at most share a slice. *)
Lemma same_slice_few l s : StronglySorted entry_lt l -> Forall (fun e => 0 <= keylenx e) l -> Forall (fun e => ikey0 e = s) l ->
  (List.length l <= 10)%nat.
Proof.
  intros Hs Hk Hi. set (f := fun e => Z.min (keylenx e) 9).
  assert (HS : StronglySorted Z.lt (f <$> l)).
  { clear Hk. induction Hs as [|e l _ IH F]; [constructor|]. inversion Hi as [|? ? Hi1 Hi2]; subst. cbn. constructor; [by apply IH|].
    apply Forall_fmap, Forall_forall. intros e' He'. rewrite Forall_forall in F, Hi2. specialize (F e' He'). specialize (Hi2 e' He').
    unfold entry_lt, rank_lt, erank in F. cbn in F |- *. unfold f. lia. }
  assert (HN : NoDup (f <$> l)).
  { clear -HS. induction HS as [|z zs _ IH F]; [constructor|]. apply list.NoDup_cons. split; [|done]. intros Hz.
    rewrite Forall_forall in F. apply list_elem_of_In, F in Hz. lia. }
  assert (HI : f <$> l ⊆+ seqZ 0 10).
  { apply NoDup_submseteq; [done|]. intros z (e & -> & He)%list_elem_of_fmap. apply elem_of_seqZ.
    rewrite Forall_forall in Hk. apply list_elem_of_In, Hk in He. unfold f. lia. }
  apply submseteq_length in HI. rewrite length_fmap, length_seqZ in HI. exact HI.
Qed.

(** A separator between two runs of entries, with the leaf that starts behind it. *)
Lemma sorted_separator A (l1 l2 : list entry) B sk : StronglySorted tok_lt (A ++ (E <$> l1 ++ l2) ++ B) -> l1 <> [] -> l2 <> [] ->
  (forall e, e ∈ l1 -> ikey0 e < sk) -> (forall e, e ∈ l2 -> sk <= ikey0 e) ->
  StronglySorted tok_lt (A ++ (E <$> l1) ++ K sk :: Lo (Some sk) :: (E <$> l2) ++ B).
Proof.
  intros Hs H1 H2 HL HR. rewrite fmap_app, <- app_assoc in Hs.
  destruct l1 as [|e1 l1]; [done|]. destruct l2 as [|e2 l2]; [done|].
  set (L1 := E <$> e1 :: l1) in *. set (L2 := E <$> e2 :: l2) in *.
  assert (E1 : E e1 ∈ L1) by left. assert (E2 : E e2 ∈ L2) by left.
  set (M := [K sk; Lo (Some sk)]). change (K sk :: Lo (Some sk) :: L2 ++ B) with (M ++ L2 ++ B).
  assert (HML : forall x y, x ∈ L1 -> y ∈ M -> tok_lt x y).
  { intros x y Hx Hy. apply list_elem_of_fmap in Hx as (e & -> & He). pose proof (HL e He).
    repeat (apply elem_of_cons in Hy as [->|Hy]; [done|]). by apply elem_of_nil in Hy. }
  assert (HMR : forall x y, x ∈ M -> y ∈ L2 -> tok_lt x y).
  { intros x y Hx Hy. apply list_elem_of_fmap in Hy as (e & -> & He). pose proof (HR e He).
    repeat (apply elem_of_cons in Hx as [->|Hx]; [done|]). by apply elem_of_nil in Hx. }
  assert (HM : StronglySorted tok_lt M) by (repeat constructor; cbn; lia).
  rewrite !sorted_app_iff in Hs. destruct Hs as (HsA & (Hs1 & (Hs2 & HsB & R2B) & R12) & RA).
  setoid_rewrite elem_of_app in R12. setoid_rewrite elem_of_app in RA. setoid_rewrite elem_of_app in RA.
  rewrite !sorted_app_iff. split_and!; try done.
  - intros x y Hx [Hy|Hy]%elem_of_app; [by apply HMR|]. etrans; [by apply (HMR x (E e2))|by apply R2B].
  - intros x y Hx Hy. rewrite !elem_of_app in Hy. destruct Hy as [Hy|Hy]; [by apply HML|by apply R12].
  - intros x y Hx Hy. rewrite !elem_of_app in Hy. destruct Hy as [Hy|[Hy|Hy]]; [apply RA; tauto| |apply RA; tauto].
    etrans; [apply (RA x (E e1)); tauto|by apply HML].
Qed.

(** * Links *)
Definition relinked (l l' : leaf) : Prop := permutation_ l' = permutation_ l /\ slot l' = slot l /\ leaf_lo l' = leaf_lo l.
Lemma relinked_entries l l' : relinked l l' -> entries l' = entries l.
Proof. intros (E1 & E2 & _). unfold entries, lsize, nth_entry. by rewrite E1, E2. Qed.
Lemma rep_relink lw iw t top g m l l' : leaves t !! m = Some l -> relinked l l' -> rep lw iw t top g -> rep lw iw (put_leaf m l' t) top g.
Proof.
  intros Hm Hl. revert top. induction g as [n lo es|n h ks cs IH] using shape_ind'; intros top.
  - intros [(l0 & Hl0 & Hok & Hlo & He) Hr]. split; [|done]. cbn [leaves put_leaf]. destruct (decide (n = m)) as [->|].
    + assert (l0 = l) as -> by congruence. exists l'. cbn. rewrite lookup_insert_eq. split_and!; [done| |by rewrite (proj2 (proj2 Hl))|by rewrite (relinked_entries l)].
      destruct Hok as [H1 H2]. split; [by rewrite (proj1 Hl)|by rewrite (relinked_entries l)].
    + exists l0. cbn. by rewrite lookup_insert_ne.
  - rewrite !rep_SNode. intros ((Hn & Hh & x & Hx) & Hr & F). assert (m <> n) by congruence. split_and!; [split_and!|done|].
    + cbn. by rewrite lookup_insert_ne.
    + done.
    + exists x. cbn. by rewrite lookup_delete_ne.
    + apply Forall_forall. intros c Hc. rewrite Forall_forall in F, IH. destruct (F c Hc) as (F1 & F2 & F3).
      split_and!; [done|by destruct c|by apply IH].
Qed.
Lemma rep_ctx_relink lw iw t C a h m l l' : leaves t !! m = Some l -> relinked l l' -> rep_ctx lw iw t C a h ->
  rep_ctx lw iw (put_leaf m l' t) C a h.
Proof.
  intros Hm Hl. revert a h. induction C as [|f C IH]; intros a h; [done|]. cbn. intros [(F1 & F2 & (F3 & F4 & x & F5) & F6 & F7 & F8) HC].
  assert (m <> fn f) by congruence. split; [|by apply IH]. split_and!; try done.
  - split_and!; [cbn; by rewrite lookup_insert_ne|done|]. exists x. cbn. by rewrite lookup_delete_ne.
  - apply Forall_forall. intros c Hc. rewrite Forall_forall in F8. destruct (F8 c Hc) as (G1 & G2 & G3).
    split_and!; [done|by destruct c|by eapply rep_relink].
Qed.

Lemma chain_frame t t' pv ls : (forall a l, a ∈ ls -> leaves t !! a = Some l -> leaves t' !! a = Some l) -> chain t pv ls -> chain t' pv ls.
Proof.
  revert pv. induction ls as [|a ls IH]; intros pv H; [done|]. cbn. intros [(l & Hl & Hp) Hc].
  split; [exists l; split; [by apply H; [left|]|done]|]. apply IH; [|done]. intros b l' Hb. apply H. by right.
Qed.
Lemma chain_at t pv A n B : chain t pv (A ++ n :: B) -> exists l, leaves t !! n = Some l /\ next_ l = hd 0 B /\
  (B <> [] -> exists lb, leaves t !! hd 0 B = Some lb /\ prev_ lb = n /\ next_ lb = hd 0 (tl B)).
Proof.
  revert pv. induction A as [|a A IH]; intros pv; cbn [app chain]; [|intros [_ Hc]; by eapply IH].
  intros [(l & Hl & _ & Hn) Hc]. exists l. split_and!; [done..|]. destruct B as [|b B]; [done|]. intros _. cbn in Hc |- *.
  destruct Hc as [(lb & ? & ? & ?) _]. by exists lb.
Qed.
(** A new leaf [a] behind [n], as [link_split] leaves the memory. *)
Lemma chain_insert t t' pv A n a B l l1 r1 : chain t pv (A ++ n :: B) -> NoDup (A ++ n :: B) -> a ∉ A ++ n :: B ->
  leaves t !! n = Some l -> prev_ l1 = prev_ l -> next_ l1 = a -> prev_ r1 = n -> next_ r1 = next_ l ->
  leaves t' !! n = Some l1 -> leaves t' !! a = Some r1 ->
  (forall b lb, b ∈ A ++ tl B -> leaves t !! b = Some lb -> leaves t' !! b = Some lb) ->
  (B <> [] -> forall lb, leaves t !! hd 0 B = Some lb -> exists lb', leaves t' !! hd 0 B = Some lb' /\ prev_ lb' = a /\ next_ lb' = next_ lb) ->
  chain t' pv (A ++ n :: a :: B).
Proof.
  intros Hc Hnd Ha Hl E1 E2 E3 E4 Hn' Ha' Hs HB. revert pv Hc. induction A as [|x A IH]; intros pv; cbn [app chain].
  - intros [(l0 & Hl0 & Hp & Hnx) Hc]. assert (l0 = l) as -> by congruence.
    split; [exists l1; split_and!; cbn; congruence|]. split; [exists r1; split_and!; cbn; congruence|].
    destruct B as [|b B]; [done|]. cbn [chain hd tl] in *. destruct Hc as [(lb & Hlb & _ & Hnb) Hc].
    destruct (HB ltac:(done) lb Hlb) as (lb' & ? & ? & ?). split; [exists lb'; split_and!; congruence|].
    eapply chain_frame; [|exact Hc]. intros c lc Hc'. by apply Hs.
  - intros [(lx & Hlx & Hp & Hnx) Hc]. split.
    + exists lx. split; [apply Hs; [left|done]|]. split; [done|]. rewrite Hnx. by destruct A.
    + cbn in Hnd, Ha. apply list.NoDup_cons in Hnd as [_ Hnd]. rewrite not_elem_of_cons in Ha.
      apply IH; [done|tauto| |done]. intros b lb Hb. apply Hs. by right.
Qed.

(** * The loop from a leaf *)
Section Loop.
Context (bnd : key_bound_type) (lw iw : Z) (un : internode) (Hiw : 1 <= iw).

(** The state the loop may be taken to start from: both leaves finished, the new key visible. *)
Definition settled (n a : Z) (n2 r2 : leaf) (m : Z) (vis : leaf) (t : tree) : tree :=
  put_leaf m vis (put_root n false (put_leaf a r2 (put_leaf n n2 t))).

Lemma insert_up_settled n a n2 r2 m vis t pool child xikey st h : (m = n \/ m = a) -> n ∉ pool -> a ∉ pool ->
  inodes t !! n = None -> inodes t !! a = None ->
  insert_up bnd iw un (settled n a n2 r2 m vis t) pool n child xikey st h =
  map_fst (settled n a n2 r2 m vis) (insert_up bnd iw un t pool n child xikey st h).
Proof.
  intros Hm Hn Ha In Ia. unfold settled. rewrite insert_up_put_leaf.
  - rewrite insert_up_put_root by done. rewrite insert_up_put_leaf; [| |done].
    + rewrite insert_up_put_leaf by done. by destruct (insert_up bnd iw un t pool n child xikey st h) as [[[? ?] ?]|].
    + cbn. destruct (decide (n = a)) as [->|]; [by rewrite lookup_delete_eq|by rewrite lookup_delete_ne].
  - cbn. destruct (decide (a = m)) as [->|]; [by rewrite lookup_delete_eq|]. rewrite lookup_delete_ne by done.
    destruct Hm as [->| ->]; [by rewrite lookup_delete_eq|done].
  - by destruct Hm as [->| ->].
Qed.

Lemma split_loop_leaf C n a n1 r1 st i e0 n2 r2 (moved : bool) i' p' loL loR esL esR sk vis t pool fuel :
  let m := if moved then a else n in let ts := settled n a n2 r2 m vis t in
  leaves t !! n = Some n1 -> leaves t !! a = Some r1 -> inodes t !! n = None -> inodes t !! a = None -> n <> a ->
  finish_split lw n1 r1 st i e0 = (n2, r2, moved, i', p') ->
  turn lw iw ts C (SLeaf n loL esL) (SLeaf a loR esR) sk pool -> (List.length C < List.length pool)%nat -> (List.length C <= fuel)%nat ->
  exists t' used pool' g', pool = used ++ pool' /\ (List.length used <= S (List.length C))%nat /\
    split_loop bnd lw iw un (S fuel) t pool n a sk st 0 e0 (n, {| kx_i := i; kx_p := 0 |}) =
      Some (t', pool', (m, {| kx_i := i'; kx_p := p' |})) /\
    leaves t' !! m = Some (if moved then r2 else n2) /\
    finished lw iw ts (put_leaf m vis t') C (SLeaf n loL esL) (SLeaf a loR esR) sk used g' /\
    quietly ts (put_leaf m vis t') C (SLeaf n loL esL) (SLeaf a loR esR) used /\
    (forall b, b <> n -> b <> a -> leaves t !! b = None -> leaves (put_leaf m vis t') !! b = None).
Proof.
  intros m ts Hn Ha In Ia Hna Hfs T Hp Hf.
  assert (Hfresh : n ∉ pool /\ a ∉ pool).
  { pose proof (tn_nodup _ _ _ _ _ _ _ _ T) as Hnd. cbn in Hnd. apply list.NoDup_cons in Hnd as [N1 Hnd].
    apply list.NoDup_cons in Hnd as [N2 _]. rewrite elem_of_cons, elem_of_app in N1. rewrite elem_of_app in N2. tauto. }
  destruct Hfresh as [Fn Fa]. assert (Hm : m = n \/ m = a) by (unfold m; destruct moved; tauto).
  destruct (insert_up_ok bnd lw iw un Hiw ts C _ _ sk st pool T) as (ts1 & used & pool' & next & -> & Hlu & E & Q & Hnext);
    [by intros ->; cbn in Hp; lia|].
  cbn [addr hgt] in E. unfold ts in E at 1. rewrite insert_up_settled in E by done.
  destruct (insert_up bnd iw un t (used ++ pool') n a sk st 0) as [[[t1 q1] nx]|] eqn:E1; [|done]. cbn in E. injection E as E Eq En. subst q1 nx.
  destruct (insert_up_facts _ _ _ _ _ _ _ _ _ _ _ _ _ E1) as (F1 & F2 & F3 & F4).
  destruct (F2 n In Fn) as [In1 Ln1], (F2 a Ia Fa) as [Ia1 La1]. rewrite Hn in Ln1. rewrite Ha in La1.
  set (tf := put_root n false (put_leaf a r2 (put_leaf n n2 t1))).
  assert (Ets : ts1 = put_leaf m vis tf) by done.
  assert (Hlm : leaves tf !! m = Some (if moved then r2 else n2)).
  { unfold m. cbn. destruct moved; [by rewrite lookup_insert_eq|]. by rewrite lookup_insert_ne, lookup_insert_eq by done. }
  assert (Hfin : finish_leaves lw t1 n a st i e0 = Some (tf, m, {| kx_i := i'; kx_p := p' |})).
  { unfold finish_leaves. rewrite Ln1, La1. cbn [mbind option_bind]. rewrite Hfs. done. }
  cbn [split_loop]. rewrite E1. cbn [mbind option_bind]. rewrite Ln1. cbn [mbind option_bind snd]. cbn [kx_i]. rewrite Hfin. cbn [mbind option_bind].
  assert (HL0 : forall b, b <> n -> b <> a -> leaves t1 !! b = None -> leaves ts1 !! b = None).
  { intros b B1 B2 Hb. rewrite Ets. cbn. rewrite lookup_insert_ne by (by destruct Hm as [->| ->]). by rewrite !lookup_insert_ne. }
  destruct next as [[nc xk]|].
  - destruct Hnext as (f & C' & gp & gq & -> & -> & S & HC).
    destruct (hgt_parent _ _ _ _ _ _ _ _ _ T) as (Hpar & _). change (parents ts (addr (SLeaf n loL esL))) with (parents t n) in Hpar.
    rewrite Hpar. pose proof (sp_inner _ _ _ _ _ _ _ _ _ _ _ _ S) as Hin. rewrite (sp_addr _ _ _ _ _ _ _ _ _ _ _ _ S) in Hin.
    assert (Hfm : fn f <> m). { intros E'. rewrite E', Ets in Hin. cbn in Hin. by rewrite lookup_insert_eq in Hin. }
    assert (Hinf : leaves tf !! fn f = None). { rewrite Ets in Hin. cbn in Hin |- *. by rewrite lookup_insert_ne in Hin. }
    assert (T2 : turn lw iw ts1 C' gp gq xk pool') by (by eapply turn_next).
    destruct (split_loop_ok bnd lw iw un Hiw C' st e0 (m, {| kx_i := i'; kx_p := p' |}) ts1 gp gq xk pool' fuel T2)
      as (t2 & used' & pool2 & g' & -> & Hlu' & E2 & Fi & Q2).
    { rewrite (sp_addr _ _ _ _ _ _ _ _ _ _ _ _ S). rewrite Ets. cbn. by rewrite lookup_insert_ne. }
    { rewrite length_app in Hp. cbn in Hp. lia. } { cbn in Hf. lia. }
    rewrite (sp_addr _ _ _ _ _ _ _ _ _ _ _ _ S), (sp_hgtp _ _ _ _ _ _ _ _ _ _ _ _ S) in E2. cbn [hgt] in E2. rewrite Ets in E2.
    assert (Hmp : m ∉ used' ++ pool2) by (apply F1; by destruct Hm as [->| ->]).
    rewrite split_loop_put_leaf in E2; [| |done|done|done].
    2: { unfold tf. cbn. destruct Hm as [->| ->]; [|by rewrite lookup_delete_eq]. destruct (decide (a = n)) as [->|]; [by rewrite lookup_delete_eq|].
         rewrite lookup_delete_ne by done. by rewrite lookup_delete_eq. }
    destruct (split_loop bnd lw iw un fuel tf (used' ++ pool2) (fn f) (addr gq) xk st (0 + 1) e0 _) as [[[t5 q5] c5]|] eqn:E5; [|done].
    cbn in E2. injection E2 as E2 -> ->. exists t5, (used ++ used'), pool2, g'.
    assert (HL5 : forall b, leaves tf !! b = None -> leaves t5 !! b = None) by (intros b Hb; by eapply split_loop_leaves).
    split_and!.
    + by rewrite app_assoc.
    + rewrite length_app. cbn. lia.
    + done.
    + rewrite <- Hlm. eapply split_loop_keeps; [exact E5|done| |done].
      unfold tf. cbn. destruct Hm as [->| ->]; [|by rewrite lookup_delete_eq]. destruct (decide (a = n)) as [->|]; [by rewrite lookup_delete_eq|].
      rewrite lookup_delete_ne by done. by rewrite lookup_delete_eq.
    + rewrite E2. by eapply finished_step.
    + rewrite E2. by eapply quietly_trans.
    + intros b B1 B2 Hb. cbn. rewrite lookup_insert_ne by (by destruct Hm as [->| ->]). apply HL5.
      apply F3 in Hb. cbn. by rewrite !lookup_insert_ne.
  - destruct Hnext as [g' Fi]. exists tf, used, pool', g'. rewrite <- Ets. split_and!; try done; [cbn in *; lia|].
    intros b B1 B2 Hb. apply HL0; [done..|]. by apply F3.
Qed.
End Loop.
