(* ===== verification/TreeLayer.v ===== *)
(** Insertion within one layer: what a change of a leaf in place, a new key in a free slot
    and the split of a full leaf, up to the root of the layer, do to the layer. *)
From Stdlib Require Import Sorted.
From S2P Require Import Prelude StringSlice Permuter KSearch Internode LeafSplit MassKey Tree TreeShape TreeMap TreeOps TreeInsert TreeSplit.

Section Layer.
Context (lw iw : Z) (Hlw : 11 <= lw <= 15).
Abbreviation layer_ok := (layer_ok lw iw).
Abbreviation inv := (inv lw iw).

(** What an insertion or a change does to a layer. *)
Record changed (t t' : tree) (p : list Z) (g g' : glayer) (used : list Z) (es : list entry) : Prop := {
  ch_layer : layer_ok t' p g';
  ch_ptr : gptr g' = gptr g;
  ch_items : items (gshape g') ≡ₚ es;
  ch_addrs : addrs (gshape g') ≡ₚ addrs (gshape g) ++ used;
  ch_outside : outside (addrs (gshape g) ++ used) t t'
}.

Lemma chain_same t t' pv ls : (forall a l, a ∈ ls -> leaves t !! a = Some l ->
    exists l', leaves t' !! a = Some l' /\ prev_ l' = prev_ l /\ next_ l' = next_ l) -> chain t pv ls -> chain t' pv ls.
Proof.
  revert pv. induction ls as [|a ls IH]; intros pv H; [done|]. cbn. intros [(l & Hl & Hp & Hn) Hc].
  destruct (H a l ltac:(left) Hl) as (l' & ? & ? & ?).
  split; [exists l'; split_and!; congruence|]. apply IH; [|done]. intros b l0 Hb. apply H. by right.
Qed.

Lemma ents_Lo lo l : ents (Lo lo :: l) = ents l.
Proof. done. Qed.
(** The leaf of a layer, and what surrounds it. *)
Record at_leaf (t : tree) (p : list Z) (g : glayer) (C : list frame) (n : Z) (l : leaf) : Prop := {
  al_layer : layer_ok t p g;
  al_shape : gshape g = fill C (SLeaf n (leaf_lo l) (entries l));
  al_wf : ctx_wf C;
  al_leaf : leaves t !! n = Some l;
  al_ok : leaf_ok lw l;
  al_ctx : rep_ctx lw iw t C n 0;
  al_root : is_nil C = true -> is_root t n = true
}.
Lemma at_leaf_intro t p g C n lo es : layer_ok t p g -> gshape g = fill C (SLeaf n lo es) -> ctx_wf C ->
  exists l, at_leaf t p g C n l /\ entries l = es.
Proof.
  intros L Hg HC. pose proof (lo_rep _ _ _ _ _ L) as Hr. pose proof (lo_parent _ _ _ _ _ L) as Hp. rewrite Hg in Hr, Hp.
  destruct (proj1 (rep_fill lw iw t C (SLeaf n lo es) HC) (conj Hr Hp)) as [[(l & Hl & Hok & <- & <-) Htop] HCx]. by exists l.
Qed.
Lemma at_leaf_addrs t p g C n l : at_leaf t p g C n l -> addrs (gshape g) ≡ₚ n :: ctx_addrs C.
Proof. intros A. rewrite (al_shape _ _ _ _ _ _ A), addrs_fill. done. Qed.
Lemma at_leaf_items t p g C n l : at_leaf t p g C n l -> items (gshape g) = ents (pre C) ++ entries l ++ ents (post C).
Proof. intros A. unfold items. rewrite (al_shape _ _ _ _ _ _ A), flat_fill by apply A. rewrite !ents_app. cbn [flat]. by rewrite ents_Lo, ents_E. Qed.
Lemma at_leaf_out t p g C n l : at_leaf t p g C n l -> n ∉ ctx_addrs C.
Proof.
  intros A. pose proof (lo_nodup _ _ _ _ _ (al_layer _ _ _ _ _ _ A)) as Hn. rewrite (at_leaf_addrs _ _ _ _ _ _ A) in Hn.
  by apply list.NoDup_cons in Hn as [? _].
Qed.

Lemma at_leaf_sorted t p g C n l : at_leaf t p g C n l -> StronglySorted tok_lt (pre C ++ Lo (leaf_lo l) :: (E <$> entries l) ++ post C).
Proof. intros A. pose proof (lo_sorted _ _ _ _ _ (al_layer _ _ _ _ _ _ A)) as HS. by rewrite (al_shape _ _ _ _ _ _ A), flat_fill in HS by apply A. Qed.
(** The slice in slot 0 is a lower bound, but for the first leaf. *)
Lemma at_leaf_lo t p g C n l : at_leaf t p g C n l -> prev_ l <> 0 -> forall x, x ∈ entries l -> ikey0 (slot l 0) <= ikey0 x.
Proof.
  intros A Hp x Hx. pose proof (at_leaf_sorted _ _ _ _ _ _ A) as HS. apply sorted_app_iff in HS as (_ & HS & _).
  apply StronglySorted_inv in HS as [_ F]. rewrite Forall_forall in F. specialize (F (E x)). unfold leaf_lo in F.
  rewrite (proj2 (Z.eqb_neq _ _) Hp) in F. apply F, list_elem_of_In, elem_of_app. left. by apply list_elem_of_fmap_2.
Qed.
Lemma at_leaf_holes t p g C n l : at_leaf t p g C n l -> holes (pre C) (flat (SLeaf n (leaf_lo l) (entries l))).
Proof.
  intros A. pose proof (lo_holes _ _ _ _ _ (al_layer _ _ _ _ _ _ A)) as HH. rewrite (al_shape _ _ _ _ _ _ A), flat_fill, !holes_app in HH by apply A.
  by destruct HH as (_ & HH & _).
Qed.
(** A key that leads to a leaf is not below the leaf's bound. *)
Lemma at_leaf_bound t p g C n l i : at_leaf t p g C n l -> Forall (tok_below i) (pre C) -> tok_below i (Lo (leaf_lo l)).
Proof.
  intros A Hpre. destruct (at_leaf_holes _ _ _ _ _ _ A) as [Hb _]. destruct (leaf_lo l) as [b|]; [|done].
  rewrite Forall_forall in Hpre. by apply list_elem_of_In, Hpre in Hb.
Qed.

(** Changing a leaf in place. *)
Definition reshape (g : glayer) (C : list frame) (n : Z) (lo : option Z) (es : list entry) : glayer :=
  {| gptr := gptr g; gshape := fill C (SLeaf n lo es) |}.
Lemma layer_update t p g C n l l' : at_leaf t p g C n l -> leaf_ok lw l' -> prev_ l' = prev_ l -> next_ l' = next_ l -> leaf_lo l' = leaf_lo l ->
  StronglySorted tok_lt (pre C ++ Lo (leaf_lo l) :: (E <$> entries l') ++ post C) ->
  (forall e, e ∈ entries l' -> entry_ok e /\ (p <> [] -> keylenx e <> 0)) ->
  changed t (put_leaf n l' t) p g (reshape g C n (leaf_lo l) (entries l')) [] (ents (pre C) ++ entries l' ++ ents (post C)).
Proof.
  intros A Hok Hpv Hnx Hlo Hs He. pose proof A as [L Hg HC Hl _ HCx Htop]. pose proof (at_leaf_out _ _ _ _ _ _ A) as Hout.
  set (sh := SLeaf n (leaf_lo l) (entries l')).
  assert (HE : items (fill C sh) = ents (pre C) ++ entries l' ++ ents (post C)).
  { unfold items. rewrite flat_fill by done. rewrite !ents_app. cbn [flat sh]. by rewrite ents_Lo, ents_E. }
  assert (HA : addrs (fill C sh) ≡ₚ addrs (gshape g)) by (rewrite (at_leaf_addrs _ _ _ _ _ _ A); by rewrite addrs_fill).
  assert (Hin : forall e, e ∈ items (fill C sh) -> e ∈ items (gshape g) \/ e ∈ entries l').
  { intros e. rewrite HE, (at_leaf_items _ _ _ _ _ _ A), !elem_of_app. tauto. }
  assert (Hout2 : forall b, b <> n -> same_node t (put_leaf n l' t) b).
  { intros b Hb. unfold same_node. cbn. by rewrite lookup_insert_ne, lookup_delete_ne by done. }
  assert (HR : rep lw iw (put_leaf n l' t) true (fill C sh) /\ parents (put_leaf n l' t) (addr (fill C sh)) = 0).
  { apply rep_fill; [done|]. split.
    - split; [exists l'; cbn; by rewrite lookup_insert_eq|done].
    - apply (rep_ctx_frame lw iw t); [|done|exact HCx]. intros b Hb. split; [|done]. apply Hout2. by intros ->. }
  destruct HR as [HR1 HR2].
  assert (EA : addr (fill C sh) = addr (gshape g)) by (rewrite Hg; by apply addr_fill).
  unfold reshape. fold sh. split; cbn [gptr gshape]; try done.
  - split; cbn [gptr gshape]; try done; try apply L.
    + by rewrite flat_fill.
    + pose proof (lo_holes _ _ _ _ _ L) as HH. rewrite Hg, flat_fill in HH by done. rewrite flat_fill by done.
      eapply holes_change; [|intros k Hk|exact HH].
      { rewrite !holes_app in HH. destruct HH as (_ & [HH _] & _). split; [done|apply holes_plain, plain_entries]. }
      apply elem_of_cons in Hk as [|(? & [=] & _)%list_elem_of_fmap]; done.
    + rewrite HA. apply L.
    + intros a. rewrite HA. apply L.
    + rewrite leaf_addrs_fill. pose proof (lo_chain _ _ _ _ _ L) as Hc. rewrite Hg, leaf_addrs_fill in Hc.
      eapply chain_same; [|exact Hc]. intros a la _ Ha. cbn. destruct (decide (a = n)) as [->|].
      * rewrite lookup_insert_eq. exists l'. assert (la = l) as -> by congruence. done.
      * rewrite lookup_insert_ne by done. by exists la.
    + rewrite HA. apply L.
    + rewrite EA. apply L.
    + intros e Hi. destruct (Hin e Hi) as [?|?]; [by apply L|by apply He].
    + intros Hp e Hi. destruct (Hin e Hi) as [?|?]; [by apply (lo_nonempty _ _ _ _ _ L)|by apply He].
  - by rewrite HE.
  - by rewrite app_nil_r.
  - intros b Hb. split; [|done]. apply Hout2. intros ->. apply Hb. rewrite app_nil_r, (at_leaf_addrs _ _ _ _ _ _ A). left.
Qed.

Lemma length_entries l : Z.of_nat (List.length (entries l)) = lsize l.
Proof. unfold entries. apply length_arr. unfold lsize. rewrite size_nib. pose proof (nib_range (permutation_ l) 0). lia. Qed.
(** An entry in place of one of the same rank. *)
Lemma sorted_replace A e e' B : StronglySorted tok_lt (A ++ E e :: B) -> erank e' = erank e -> StronglySorted tok_lt (A ++ E e' :: B).
Proof.
  intros H R. assert (T : forall x, (tok_lt x (E e) -> tok_lt x (E e')) /\ (tok_lt (E e) x -> tok_lt (E e') x)).
  { pose proof (f_equal fst R) as R1. cbn in R1. intros [k|k|x|[k|]]; cbn; unfold entry_lt; rewrite ?R, ?R1; done. }
  rewrite sorted_app_iff in *. destruct H as (HA & HB & HR). split_and!; [done| |].
  - apply StronglySorted_inv in HB as [HB F]. constructor; [done|]. eapply Forall_impl; [|exact F]. apply T.
  - intros x y Hx Hy. apply elem_of_cons in Hy as [->|Hy]; [apply T, HR; [done|left]|apply HR; [done|by right]].
Qed.
Lemma entries_cut l j : 0 <= j < lsize l ->
  exists A B, entries l = A ++ nth_entry l j :: B /\ Z.of_nat (List.length A) = j.
Proof.
  intros H. exists (take (Z.to_nat j) (entries l)), (drop (S (Z.to_nat j)) (entries l)). pose proof (length_entries l).
  split; [|rewrite length_take; lia]. symmetry. apply take_drop_middle, entries_lookup. lia.
Qed.
Lemma entries_set l j e : leaf_ok lw l -> 0 <= j < lsize l ->
  exists A B, entries l = A ++ nth_entry l j :: B /\ entries (set_slot l (elem (permutation_ l) j) e) = A ++ e :: B.
Proof.
  intros [Hw _] Hj. destruct (entries_cut l j Hj) as (A & B & EA & LA). exists A, B. split; [done|].
  set (l' := set_slot l (elem (permutation_ l) j) e). apply list_eq. intros k.
  assert (Hlen : List.length (entries l') = List.length (entries l)).
  { apply Nat2Z.inj. rewrite !length_entries. done. }
  assert (Hlen2 : List.length (entries l) = List.length (A ++ e :: B)) by (rewrite EA, !length_app; done).
  destruct (decide (k < List.length (entries l))%nat) as [Hk|Hk]; [|rewrite !lookup_ge_None_2 by lia; done].
  pose proof (length_entries l) as Ln. replace k with (Z.to_nat (Z.of_nat k)) by lia. rewrite entries_lookup by (change (lsize l') with (lsize l); lia).
  assert (Ek : entries l !! k = Some (nth_entry l (Z.of_nat k))).
  { rewrite <- entries_lookup by lia. f_equal. lia. }
  rewrite Nat2Z.id. unfold nth_entry. cbn [slot permutation_ l' set_slot]. destruct (decide (Z.of_nat k = j)) as [<-|Hne].
  - rewrite fn_lookup_insert, lookup_app_r by lia. replace (k - List.length A)%nat with 0%nat by lia. done.
  - rewrite fn_lookup_insert_ne; [|intros E0; apply (elem_inj lw) in E0; try done; unfold lsize in *; destruct Hw as (_ & ? & _); lia].
    rewrite EA in Ek. unfold nth_entry in Ek at 2. rewrite <- Ek. destruct (decide (k < List.length A)%nat); [by rewrite !lookup_app_l|].
    rewrite !lookup_app_r by lia. destruct (k - List.length A)%nat eqn:E0; [lia|done].
Qed.
Lemma layer_replace t p g C n l j e' : at_leaf t p g C n l -> 0 <= j < lsize l -> erank e' = erank (nth_entry l j) ->
  entry_ok e' -> (p <> [] -> keylenx e' <> 0) -> 0 <= keylenx e' ->
  let l' := set_slot l (elem (permutation_ l) j) e' in
  exists A B, items (gshape g) = A ++ nth_entry l j :: B /\
    changed t (put_leaf n l' t) p g (reshape g C n (leaf_lo l) (entries l')) [] (A ++ e' :: B).
Proof.
  intros A Hj Hr He Hne Hk l'. destruct (entries_set l j e' (al_ok _ _ _ _ _ _ A) Hj) as (X & Y & E1 & E2). fold l' in E2.
  pose proof (al_layer _ _ _ _ _ _ A) as L. pose proof (lo_sorted _ _ _ _ _ L) as HS. rewrite (al_shape _ _ _ _ _ _ A), flat_fill in HS by apply A.
  cbn [flat] in HS. rewrite E1 in HS.
  assert (Hin : forall x, x ∈ X ++ Y -> x ∈ items (gshape g)).
  { intros x. rewrite (at_leaf_items _ _ _ _ _ _ A), E1, !elem_of_app, elem_of_cons. tauto. }
  assert (Hok' : leaf_ok lw l').
  { destruct (al_ok _ _ _ _ _ _ A) as [Hw HF]. split; [done|]. rewrite E2. rewrite E1 in HF. apply Forall_app in HF as [? HF].
    apply Forall_app. split; [done|]. constructor; [done|]. by inversion HF. }
  assert (Hlo : leaf_lo l' = leaf_lo l).
  { unfold leaf_lo, l'. cbn [prev_ slot set_slot]. destruct (decide (elem (permutation_ l) j = 0)) as [Ej|Ej].
    - rewrite Ej, fn_lookup_insert. injection Hr as Hr _. unfold nth_entry in Hr. by rewrite Hr, Ej.
    - by rewrite fn_lookup_insert_ne. }
  pose proof (layer_update t p g C n l l' A Hok' eq_refl eq_refl Hlo) as U. rewrite E2 in U.
  exists (ents (pre C) ++ X), (Y ++ ents (post C)). split; [by rewrite (at_leaf_items _ _ _ _ _ _ A), E1, <- !app_assoc|].
  rewrite E2. replace ((ents (pre C) ++ X) ++ e' :: Y ++ ents (post C)) with (ents (pre C) ++ (X ++ e' :: Y) ++ ents (post C))
    by (by rewrite <- !app_assoc). apply U.
  - rewrite fmap_app, fmap_cons in HS |- *. cbn [app] in HS. rewrite <- app_assoc in HS |- *.
    rewrite app_comm_cons, app_assoc in HS |- *. by eapply sorted_replace.
  - intros x Hx. rewrite elem_of_app, elem_of_cons in Hx. assert (Hx' : x = e' \/ x ∈ X ++ Y) by (rewrite elem_of_app; tauto).
    destruct Hx' as [->|Hx'%Hin]; [done|]. split; [by apply L|]. intros ?. by apply (lo_nonempty _ _ _ _ _ L).
Qed.

(** ** A free slot *)
Lemma put_leaf_twice n l l' t : put_leaf n l' (put_leaf n l t) = put_leaf n l' t.
Proof. unfold put_leaf. cbn. f_equal; [by rewrite insert_insert_eq|by rewrite delete_delete_eq]. Qed.
Lemma lsize_range l : leaf_ok lw l -> 0 <= lsize l <= lw.
Proof. intros [(_ & Hs & _) _]. unfold lsize. pose proof (nib_range (permutation_ l) 0) as H. rewrite <- size_nib in H. lia. Qed.
(** A slot that is not in use may change, and so may the order of those slots. *)
Lemma entries_free l l' : leaf_ok lw l -> perm_wf lw (permutation_ l') -> lsize l' = lsize l ->
  (forall k, 0 <= k < lsize l -> elem (permutation_ l') k = elem (permutation_ l) k /\
    slot l' (elem (permutation_ l) k) = slot l (elem (permutation_ l) k)) -> leaf_ok lw l' /\ entries l' = entries l.
Proof.
  intros [_ Hk] Hw Hs H. assert (E : entries l' = entries l).
  { unfold entries. rewrite Hs. apply arr_ext0. intros k Hk'. unfold nth_entry. destruct (H k Hk') as [-> ->]. done. }
  split; [|done]. split; [done|]. by rewrite E.
Qed.
Lemma set_back l e : leaf_ok lw l -> lsize l < lw ->
  leaf_ok lw (set_slot l (back lw (permutation_ l)) e) /\ entries (set_slot l (back lw (permutation_ l)) e) = entries l.
Proof.
  intros Hok Hs. pose proof Hok as [Hw _]. apply entries_free; try done. intros k Hk. split; [done|]. cbn.
  apply fn_lookup_insert_ne. intros E. apply (elem_inj lw) in E; try done; unfold lsize in *; lia.
Qed.
Lemma reuse_ok l l' q : leaf_ok lw l -> make_split_reuse lw l = Some (l', q) ->
  leaf_ok lw l' /\ entries l' = entries l /\ lsize l' = lsize l /\ lsize l < lw /\ q = back lw (permutation_ l') /\
  prev_ l' = prev_ l /\ next_ l' = next_ l /\ slot l' = slot l /\ q <> 0.
Proof.
  intros Hok. pose proof (lsize_range l Hok) as Hr. unfold make_split_reuse. destruct (Z.ltb_spec (lsize l) lw) as [Hlt|]; [|done].
  destruct (Z.eqb_spec (back lw (exchange lw (permutation_ l) (lsize l) (lw - 1))) 0) as [|Hq]; [done|]. intros [= <- <-]. pose proof Hok as [Hw _].
  destruct (perm_op_step lw ltac:(lia) (OpExchange (lsize l) (lw - 1)) (permutation_ l) Hw ltac:(cbn; lia)) as [V W]. cbn [op_run] in V, W.
  assert (S : lsize (set_perm l (exchange lw (permutation_ l) (lsize l) (lw - 1))) = lsize l) by exact (f_equal fst V).
  destruct (entries_free l (set_perm l (exchange lw (permutation_ l) (lsize l) (lw - 1))) Hok W S) as [O En]; [|done].
  intros k Hk. split; [|done]. cbn [permutation_ set_perm]. rewrite exchange_elem by lia. zcases; lia || done.
Qed.

Lemma visible_slice l i v q : ikey0 (slot (visible lw l i v) q) = ikey0 (slot l q).
Proof.
  cbn. destruct (decide (q = back lw (permutation_ l))) as [->|]; [by rewrite fn_lookup_insert|by rewrite fn_lookup_insert_ne].
Qed.
Lemma visible_lo l i v : leaf_lo (visible lw l i v) = leaf_lo l.
Proof. unfold leaf_lo. by rewrite visible_slice. Qed.
Lemma set_slot_lo l q e : q <> 0 \/ prev_ l = 0 \/ ikey0 (slot l 0) = ikey0 e -> leaf_lo (set_slot l q e) = leaf_lo l.
Proof.
  intros H. unfold leaf_lo. cbn. destruct (Z.eqb_spec (prev_ l) 0); [done|].
  destruct (decide (q = 0)) as [->|]; [|by rewrite fn_lookup_insert_ne]. rewrite fn_lookup_insert. destruct H as [H|[H|H]]; congruence.
Qed.
(** The new key in a free slot of the leaf. *)
Lemma layer_room t p g C n l l' q i e0 v : at_leaf t p g C n l -> leaf_ok lw l' -> entries l' = entries l -> lsize l' < lw ->
  q = back lw (permutation_ l') -> prev_ l' = prev_ l -> next_ l' = next_ l -> 0 <= i <= lsize l -> lsize l' = lsize l ->
  leaf_lo (set_slot l' q e0) = leaf_lo l -> StronglySorted tok_lt (pre C ++ Lo (leaf_lo l) :: (E <$> insert_at i (with_lv e0 v) (entries l)) ++ post C) ->
  entry_ok (with_lv e0 v) -> (p <> [] -> keylenx e0 <> 0) -> 0 <= keylenx e0 ->
  let lm := set_slot l' q e0 in q = back lw (permutation_ lm) /\
  changed t (put_leaf n (visible lw lm i v) (put_leaf n lm t)) p g (reshape g C n (leaf_lo l) (insert_at i (with_lv e0 v) (entries l))) []
    (ents (pre C) ++ insert_at i (with_lv e0 v) (entries l) ++ ents (post C)).
Proof.
  intros A Hok' He Hs -> Hp Hn Hi Hsz Hlo HS Heok Hene Hk lm. split; [done|].
  destruct (set_back l' e0 Hok' Hs) as [Hok2 He2]. fold lm in Hok2, He2.
  destruct (visible_ok lw lm i v ltac:(lia) Hok2) as [Hvok Hve]; try done; [by change (lsize lm) with (lsize l'); lia| |].
  { cbn. by rewrite fn_lookup_insert. }
  change (permutation_ lm) with (permutation_ l') in Hve. cbn [slot lm set_slot] in Hve. rewrite fn_lookup_insert in Hve.
  rewrite He2, He in Hve. rewrite put_leaf_twice, <- Hve. rewrite <- Hve in HS. apply layer_update with (l := l); try done.
  { rewrite <- Hlo. apply visible_lo. }
  intros x Hx. pose proof (al_layer _ _ _ _ _ _ A) as L. rewrite Hve in Hx. apply elem_of_insert_at in Hx as [->|Hx]; [done|].
  assert (x ∈ items (gshape g)) by (rewrite (at_leaf_items _ _ _ _ _ _ A), !elem_of_app; tauto).
  split; [by apply L|]. intros Hpp. by apply (lo_nonempty _ _ _ _ _ L).
Qed.

(** ** Splitting a leaf *)
Context (bnd : key_bound_type) (mem : Z -> Z) (us : Z -> entry) (un : internode) (Hiw : 1 <= iw).
Lemma ikey_after_insert_lv l e v i j : ikey0 (after_insert l (with_lv e v) i j) = ikey0 (after_insert l e i j).
Proof. unfold after_insert. zcases; done. Qed.
Lemma length_insert_at {A} (i : Z) (x : A) l : List.length (insert_at i x l) = S (List.length l).
Proof. pose proof (insert_at_Permutation i x l) as H. apply Permutation_length in H. done. Qed.

(** A leaf that has to be split has two slices. *)
Lemma split_slices l e v i : leaf_ok lw l -> 0 <= keylenx e -> lw - 1 <= lsize l -> 0 <= i <= lsize l ->
  StronglySorted entry_lt (insert_at i (with_lv e v) (entries l)) ->
  exists a b, 0 <= a <= lsize l /\ 0 <= b <= lsize l /\ ikey0 (after_insert l e i a) <> ikey0 (after_insert l e i b).
Proof.
  intros [_ Hk] He Hs Hi HS. set (e' := with_lv e v) in *. set (s := ikey0 (after_insert l e i 0)).
  pose proof (after_insert_entries l e' i Hi) as EL.
  destruct (decide (Forall (fun x => ikey0 x = s) (insert_at i e' (entries l)))) as [HF|HF].
  - exfalso. assert (List.length (insert_at i e' (entries l)) <= 10)%nat.
    { apply (same_slice_few _ s); [done| |done]. apply Forall_forall. intros x Hx%list_elem_of_In.
      apply elem_of_insert_at in Hx as [->|Hx]; [done|]. rewrite Forall_forall in Hk. by apply Hk, list_elem_of_In. }
    rewrite length_insert_at in H. pose proof (length_entries l). lia.
  - apply not_Forall_Exists in HF; [|tc_solve]. apply List.Exists_exists in HF as (x & Hx & Hne). apply list_elem_of_In in Hx.
    rewrite <- EL in Hx. apply list_elem_of_fmap in Hx as (j & -> & Hj). apply elem_of_seqZ in Hj.
    exists j, 0. split_and!; try lia. intros E0. apply Hne. cbn. unfold e'. by rewrite ikey_after_insert_lv.
Qed.

(** The memory when the loop starts. *)
Definition relink_next (nx a : Z) (t : tree) : option tree :=
  if nx =? 0 then Some t else upd_leaf nx (fun l => set_links l (next_ l) a) t.
Record split_memory (t t2 : tree) (C : list frame) (n a : Z) (l n1 r1 : leaf) : Prop := {
  sm_n : leaves t2 !! n = Some n1 /\ inodes t2 !! n = None;
  sm_a : leaves t2 !! a = Some r1 /\ inodes t2 !! a = None;
  sm_leaves : forall b, b <> n -> b <> a -> (b = next_ l -> b = 0) -> leaves t2 !! b = leaves t !! b;
  sm_next : lpost C <> [] -> forall lb, leaves t !! hd 0 (lpost C) = Some lb -> leaves t2 !! hd 0 (lpost C) = Some (set_links lb (next_ lb) a);
  sm_other : forall b, b <> n -> b <> a -> ((b = next_ l -> b = 0) -> inodes t2 !! b = inodes t !! b) /\ heights t2 b = heights t b /\ is_root t2 b = is_root t b;
  sm_parents : forall b, b <> a -> parents t2 b = parents t b;
  sm_hn : heights t2 n = heights t n;
  sm_ctx : rep_ctx lw iw t2 C n 0
}.
Lemma lpost_in C b : b ∈ lpost C -> b ∈ ctx_addrs C.
Proof.
  assert (HA : forall g b, b ∈ leaf_addrs g -> b ∈ addrs g).
  { intros g. induction g as [n lo es|n h ks cs IH] using shape_ind'; intros b'; [done|]. cbn. intros (c & Hc & Hb)%elem_of_flat_map.
    right. apply elem_of_flat_map. exists c. split; [done|]. rewrite Forall_forall in IH. by apply IH; [apply list_elem_of_In|]. }
  induction C as [|f C IH]; [done|]. change (ctx_addrs (f :: C)) with (frame_addrs f ++ ctx_addrs C). cbn [lpost].
  rewrite !elem_of_app. intros [Hb|Hb]; [left|right; by apply IH].
  right. apply elem_of_flat_map in Hb as (c & Hc & Hb). apply elem_of_flat_map. exists c. rewrite elem_of_app. auto.
Qed.
Lemma split_memory_ok t p g C n l a n1 r1 : at_leaf t p g C n l -> a ∉ addrs (gshape g) -> a <> 0 -> next_ r1 = next_ l ->
  exists t2, relink_next (next_ r1) a (put_leaf a r1 (put_leaf n n1 (put_root a (is_root t n) (make_leaf lw us a t)))) = Some t2 /\
    split_memory t t2 C n a l n1 r1.
Proof.
  intros A Ha H0 Hnx. pose proof A as [L Hg HC Hl _ HCx Htop]. pose proof (at_leaf_out _ _ _ _ _ _ A) as Hout.
  rewrite (at_leaf_addrs _ _ _ _ _ _ A) in Ha. apply not_elem_of_cons in Ha as [Han Hac].
  pose proof (lo_chain _ _ _ _ _ L) as Hch. rewrite Hg, leaf_addrs_fill in Hch. cbn [leaf_addrs app] in Hch.
  destruct (chain_at _ _ _ _ _ Hch) as (l0 & Hl0 & Hn0 & HB). assert (l0 = l) as -> by congruence. clear Hl0.
  assert (Hnxt : lpost C <> [] -> hd 0 (lpost C) ∈ ctx_addrs C) by (intros Hp; apply lpost_in; destruct (lpost C); [done|left]).
  assert (HNz : forall b, b ∈ ctx_addrs C -> b <> 0).
  { intros b Hb. apply (lo_nonnull _ _ _ _ _ L). rewrite (at_leaf_addrs _ _ _ _ _ _ A). by right. }
  set (t1 := put_leaf a r1 (put_leaf n n1 (put_root a (is_root t n) (make_leaf lw us a t)))).
  assert (Hb1 : forall b, b <> n -> b <> a -> same_node t t1 b /\ same_parent t t1 b).
  { intros b B1 B2. unfold same_node, same_parent, t1, make_leaf. cbn.
    by rewrite !lookup_insert_ne, !lookup_delete_ne, !fn_lookup_insert_ne by done. }
  unfold relink_next. rewrite Hnx, Hn0. destruct (lpost C) as [|nx B] eqn:EB; cbn [hd] in *.
  - cbn [Z.eqb]. exists t1. split; [done|]. split; cbn.
    + split; [by rewrite lookup_insert_ne, lookup_insert_eq by done|]. rewrite lookup_delete_ne by done. by rewrite lookup_delete_eq.
    + split; [by rewrite lookup_insert_eq|by rewrite lookup_delete_eq].
    + intros b B1 B2 _. by destruct (Hb1 b B1 B2) as [(? & _) _].
    + by rewrite EB.
    + intros b B1 B2. destruct (Hb1 b B1 B2) as [(? & ? & ? & ?) _]. done.
    + intros b B1. by rewrite fn_lookup_insert_ne.
    + done.
    + apply (rep_ctx_frame lw iw t); [|unfold same_parent; cbn; by rewrite fn_lookup_insert_ne|done].
      intros b Hb. apply Hb1; [by intros ->|by intros ->].
  - specialize (Hnxt ltac:(done)). destruct (HB ltac:(done)) as (lb & Hlb & Hpv & _). pose proof (HNz _ Hnxt) as Hz.
    assert (Hxn : nx <> n) by (by intros ->). assert (Hxa : nx <> a) by (by intros ->).
    destruct (Z.eqb_spec nx 0); [done|]. unfold upd_leaf. destruct (Hb1 nx Hxn Hxa) as [(E1 & _) _]. rewrite E1, Hlb. cbn [mbind option_bind].
    eexists. split; [done|]. split.
    + cbn. rewrite lookup_insert_ne by done. rewrite lookup_insert_ne, lookup_insert_eq by done. split; [done|].
      rewrite !lookup_delete_ne by done. by rewrite lookup_delete_eq.
    + cbn. rewrite lookup_insert_ne, lookup_insert_eq by done. split; [done|]. rewrite lookup_delete_ne by done. by rewrite lookup_delete_eq.
    + intros b B1 B2 B3. rewrite Hn0 in B3. destruct (Hb1 b B1 B2) as [(E & _) _]. cbn -[t1]. rewrite lookup_insert_ne; [done|]. intros ->. by apply n0, B3.
    + intros _ lb'. rewrite EB. cbn [hd]. intros Hlb'. assert (lb' = lb) as -> by congruence. cbn. by rewrite lookup_insert_eq.
    + intros b B1 B2. destruct (Hb1 b B1 B2) as [(_ & ? & ? & ?) _]. split_and!; [|done..]. intros B3. rewrite Hn0 in B3.
      cbn -[t1]. rewrite lookup_delete_ne; [done|]. intros ->. by apply n0, B3.
    + intros b B1. cbn. by rewrite fn_lookup_insert_ne.
    + done.
    + apply (rep_ctx_frame lw iw (put_leaf nx (set_links lb (next_ lb) a) t)).
      * intros b Hb. assert (B1 : b <> n) by (by intros ->). assert (B2 : b <> a) by (by intros ->).
        destruct (Hb1 b B1 B2) as [(E & E2 & E3 & E4) E5]. unfold same_node, same_parent. cbn -[t1]. split; [|done].
        destruct (decide (b = nx)) as [->|]; [by rewrite !lookup_insert_eq, !lookup_delete_eq|by rewrite !lookup_insert_ne, !lookup_delete_ne].
      * unfold same_parent. cbn. by rewrite fn_lookup_insert_ne.
      * apply (rep_ctx_relink lw iw t C n 0 nx lb); try done. split_and!; [done..|]. unfold leaf_lo. cbn. rewrite Hpv.
        assert (n <> 0) by (apply (lo_nonnull _ _ _ _ _ L); rewrite (at_leaf_addrs _ _ _ _ _ _ A); left).
        by rewrite !(proj2 (Z.eqb_neq _ 0)).
Qed.

Lemma insert_at_app_r {A} (i : Z) (x : A) a b : Z.of_nat (List.length a) <= i ->
  insert_at i x (a ++ b) = a ++ insert_at (i - Z.of_nat (List.length a)) x b.
Proof.
  intros H. unfold insert_at. replace (Z.to_nat i) with (List.length a + Z.to_nat (i - Z.of_nat (List.length a)))%nat by lia.
  by rewrite take_app_add, drop_app_add, <- app_assoc.
Qed.

(** The two halves with the new entry, and the key between them. *)
Lemma split_halves l e0 v i m0 esL esR : let e := with_lv e0 v in 0 <= i <= lsize l -> 0 < m0 <= lsize l ->
  ikey0 (after_insert l e0 i (m0 - 1)) <> ikey0 (after_insert l e0 i m0) ->
  StronglySorted entry_lt (insert_at i e (entries l)) ->
  esL ++ esR = insert_at i e (entries l) -> Z.of_nat (List.length esL) = m0 ->
  esL <> [] /\ esR <> [] /\ (forall x, x ∈ esL -> ikey0 x < ikey0 (after_insert l e0 i m0)) /\
  (forall x, x ∈ esR -> ikey0 (after_insert l e0 i m0) <= ikey0 x).
Proof.
  intros e Hi Hm Hne HS HE HL. pose proof (after_insert_entries l e i Hi) as EA.
  rewrite (arr_cut m0) in EA by lia. rewrite <- HE in EA. apply app_inj_1 in EA as [EL ER].
  2: { pose proof (length_arr (after_insert l e i) 0 m0 ltac:(lia)). lia. }
  assert (HSl : slices_sorted (arr (after_insert l e i) 0 (m0 + (lsize l + 1 - m0)))).
  { replace (m0 + (lsize l + 1 - m0)) with (lsize l + 1) by lia. rewrite after_insert_entries by done.
    clear -HS. induction HS as [|x xs _ IH F]; [constructor|]. constructor; [done|].
    apply Forall_forall. intros y Hy. rewrite Forall_forall in F. specialize (F y Hy).
    unfold entry_lt, rank_lt, erank in F. cbn in F. lia. }
  destruct (sorted_split (after_insert l e i) 0 m0 (lsize l + 1 - m0) ltac:(lia) ltac:(lia)) as [S1 S2]; [|done|].
  { unfold e. rewrite !ikey_after_insert_lv. by replace (0 + m0) with m0 by lia. }
  unfold e in S1, S2 at 1. rewrite ikey_after_insert_lv in S1, S2. replace (0 + m0) with m0 in * by lia.
  rewrite Forall_forall in S1, S2. split_and!.
  - intros ->. cbn in HL. lia.
  - intros ->. apply (f_equal List.length) in HE. rewrite app_nil_r, length_insert_at in HE. pose proof (length_entries l). lia.
  - intros x Hx. apply S1, list_elem_of_In. fold e. by rewrite EL.
  - intros x Hx. apply S2, list_elem_of_In. fold e. by rewrite ER.
Qed.

(** The two leaves a split ends with, the caller's value stored and the new key visible. *)
Definition fresh_leaf : leaf := {| permutation_ := make_empty lw; slot := us; next_ := 0; prev_ := 0 |}.
Record halves (n a : Z) (l : leaf) (i : Z) (e0 : entry) (v : Z) (n1 r1 n2 r2 lm ln lr : leaf) (moved : bool) (i' sk st : Z) : Prop := {
  hv_split : LeafSplit.split_into lw n a l fresh_leaf i e0 = Some (n1, r1, sk, st);
  hv_finish : finish_split lw n1 r1 st i e0 = (n2, r2, moved, i', back lw (permutation_ lm));
  hv_next : next_ r1 = next_ l;
  hv_lm : lm = (if moved then r2 else n2);
  hv_ln : ln = (if moved then n2 else visible lw lm i' v);
  hv_lr : lr = (if moved then visible lw lm i' v else r2);
  hv_left : leaf_ok lw ln /\ prev_ ln = prev_ l /\ next_ ln = a /\ entries ln <> [] /\ forall x, x ∈ entries ln -> ikey0 x < sk;
  hv_right : leaf_ok lw lr /\ prev_ lr = n /\ next_ lr = next_ l /\ entries lr <> [] /\ forall x, x ∈ entries lr -> sk <= ikey0 x;
  hv_lo : leaf_lo ln = leaf_lo l /\ ikey0 (slot lr 0) = sk;
  hv_entries : entries ln ++ entries lr = insert_at i (with_lv e0 v) (entries l)
}.
(** The slot that holds the lower bound of a leaf is not the one a split fills on the left. *)
Lemma split_keeps_lo l e0 m0 n2 : leaf_ok lw l -> lsize l = lw \/ back lw (permutation_ l) = 0 -> lw - 1 <= lsize l <= lw -> 0 < m0 <= lsize l ->
  StronglySorted entry_lt (entries l) -> (prev_ l <> 0 -> forall x, x ∈ entries l -> ikey0 (slot l 0) <= ikey0 x) ->
  prev_ n2 = prev_ l -> slot n2 = <[elem (permutation_ l) (if lsize l =? lw then lw - 1 else m0 - 1) := e0]> (slot l) -> leaf_lo n2 = leaf_lo l.
Proof.
  intros [Hpw Hkl] Hfull Hsz Hm0 HS Hlo Hp Hn2. unfold leaf_lo. rewrite Hp, Hn2. destruct (Z.eqb_spec (prev_ l) 0) as [|Hz]; [done|].
  specialize (Hlo Hz). do 2 f_equal. apply fn_lookup_insert_ne. intros Hq. destruct (Z.eqb_spec (lsize l) lw) as [Hl|Hl].
  - assert (HF : Forall (fun x => ikey0 x = ikey0 (slot l 0)) (entries l)).
    { apply Forall_forall. intros x Hx%list_elem_of_In. apply Z.le_antisymm; [|by apply Hlo].
      apply entries_elem in Hx as (j & Hj & ->). destruct (decide (j = lw - 1)) as [->|Hj'].
      - unfold nth_entry. by rewrite Hq.
      - pose proof (entries_sorted l j (lw - 1) HS ltac:(lia) ltac:(lia)) as R. unfold nth_entry at 2 in R. rewrite Hq in R.
        unfold rank_lt, erank in R. cbn in R. lia. }
    pose proof (same_slice_few _ _ HS Hkl HF). pose proof (length_entries l). lia.
  - destruct Hfull as [|Hb]; [done|]. unfold back in Hb. rewrite <- Hb in Hq.
    apply (elem_inj lw) in Hq; [lia|lia|done|unfold lsize in *; lia..].
Qed.
Lemma halves_ok n a l i e0 v : (prev_ l <> 0 -> forall x, x ∈ entries l -> ikey0 (slot l 0) <= ikey0 x) -> leaf_ok lw l -> make_split_reuse lw l = None -> lsize l = lw \/ back lw (permutation_ l) = 0 ->
  0 <= i <= lsize l -> 0 <= keylenx e0 -> StronglySorted entry_lt (insert_at i (with_lv e0 v) (entries l)) ->
  exists n1 r1 n2 r2 lm ln lr moved i' sk st, halves n a l i e0 v n1 r1 n2 r2 lm ln lr moved i' sk st.
Proof.
  intros Hlo Hok Hre Hfull Hi Hk0 HSe. pose proof Hok as [Hpw Hkl].
  pose proof (reuse_or_full lw l ltac:(lia) Hpw Hfull Hre) as Hsz.
  destruct (split_slices l e0 v i Hok Hk0 ltac:(lia) Hi HSe) as (j1 & j2 & Hj1 & Hj2 & Hj).
  destruct (split_parts_ok lw ltac:(lia) n a l fresh_leaf i e0 Hpw Hsz Hi) as (m0 & n1 & r1 & st & n2 & r2 & i' & Esp & Hm0 & Hne & Hsn1 &
    N1 & N2 & N3 & N4 & M1 & M2 & M3 & M4 & W2 & WR & Een & Een1 & Hr0 & Hfin); [by exists j1, j2|].
  set (e := with_lv e0 v) in *. set (sk := ikey0 (after_insert l e0 i m0)) in *.
  assert (HK : leaf_ok lw n2 /\ leaf_ok lw r2).
  { rewrite Een in Hkl. apply Forall_app in Hkl as [K1 K2]. done. }
  destruct HK as [Hok2 HokR]. pose proof (length_entries n2) as Ln2.
  destruct (Z.leb_spec m0 i) as [Hmi|Hmi]; destruct Hfin as (F1 & F2 & F3 & F4 & F5 & F6); rewrite F2 in Ln2.
  - destruct (visible_ok lw r2 i' v ltac:(lia) HokR ltac:(lia) ltac:(lia) ltac:(by rewrite F5)) as [Hvok Hve]. rewrite F5 in Hve. fold e in Hve.
    assert (HE : entries n2 ++ entries (visible lw r2 i' v) = insert_at i e (entries l)).
    { rewrite Hve, Een, insert_at_app_r by lia. by rewrite Ln2, F3. }
    destruct (split_halves l e0 v i m0 _ _ Hi Hm0 Hne HSe HE Ln2) as (HL0 & HR0 & HLt & HRt).
    exists n1, r1, n2, r2, r2, n2, (visible lw r2 i' v), true, i', sk, st. split; try done.
    split; [unfold leaf_lo; by rewrite M2, F6|by rewrite visible_slice].
  - destruct (visible_ok lw n2 i' v ltac:(lia) Hok2 ltac:(lia) ltac:(lia) ltac:(by rewrite F5)) as [Hvok Hve]. rewrite F5 in Hve. fold e in Hve.
    assert (HE : entries (visible lw n2 i' v) ++ entries r2 = insert_at i e (entries l)).
    { rewrite Hve, Een, insert_at_app by lia. by rewrite F3. }
    destruct (split_halves l e0 v i m0 _ _ Hi Hm0 Hne HSe HE) as (HL0 & HR0 & HLt & HRt).
    { rewrite Hve, length_insert_at. lia. }
    exists n1, r1, n2, r2, n2, (visible lw n2 i' v), r2, false, i', sk, st. split; try done.
    split; [rewrite visible_lo|done]. apply (split_keeps_lo l e0 m0); try done. unfold insert_at in HSe. apply (sorted_sub _ _ [e]) in HSe.
    by rewrite take_drop in HSe.
Qed.

(** The tree when the loop starts is in order but for the parents. *)
Lemma split_turn t t2 p g C n a l i e0 v n1 r1 n2 r2 lm ln lr (moved : bool) i' sk st pool :
  let m := if moved then a else n in let ts := settled n a n2 r2 m (visible lw lm i' v) t2 in
  at_leaf t p g C n l -> halves n a l i e0 v n1 r1 n2 r2 lm ln lr moved i' sk st -> split_memory t t2 C n a l n1 r1 ->
  NoDup (addrs (gshape g) ++ a :: pool) -> (forall b, b ∈ a :: pool -> b <> 0) ->
  StronglySorted tok_lt (pre C ++ Lo (leaf_lo l) :: (E <$> insert_at i (with_lv e0 v) (entries l)) ++ post C) ->
  leaves ts !! n = Some ln /\ leaves ts !! a = Some lr /\
  (forall b, b <> n -> b <> a -> same_node t2 ts b /\ same_parent t2 ts b) /\
  turn lw iw ts C (SLeaf n (leaf_lo l) (entries ln)) (SLeaf a (Some sk) (entries lr)) sk pool.
Proof.
  intros m ts A H SM Hnd Hpn HS. pose proof A as [L Hg HC Hl Hok HCx Htop].
  pose proof (at_leaf_addrs _ _ _ _ _ _ A) as EA. rewrite EA in Hnd.
  assert (Hna : n <> a). { intros ->. apply list.NoDup_cons in Hnd as [Hnd _]. apply Hnd, elem_of_app. right. left. }
  pose proof (hv_left _ _ _ _ _ _ _ _ _ _ _ _ _ _ _ _ _ H) as (KL & _ & _ & NL & SL). destruct (hv_lo _ _ _ _ _ _ _ _ _ _ _ _ _ _ _ _ _ H) as [LoL LoR].
  pose proof (hv_right _ _ _ _ _ _ _ _ _ _ _ _ _ _ _ _ _ H) as (KR & PR & _ & NR & SR).
  assert (Hsn : leaves ts !! n = Some ln).
  { rewrite (hv_ln _ _ _ _ _ _ _ _ _ _ _ _ _ _ _ _ _ H). unfold ts, settled, m. cbn.
    destruct moved; [by rewrite !lookup_insert_ne, lookup_insert_eq by done|by rewrite lookup_insert_eq]. }
  assert (Hsa : leaves ts !! a = Some lr).
  { rewrite (hv_lr _ _ _ _ _ _ _ _ _ _ _ _ _ _ _ _ _ H). unfold ts, settled, m. cbn.
    destruct moved; [by rewrite lookup_insert_eq|by rewrite lookup_insert_ne, lookup_insert_eq by done]. }
  assert (Hso : forall b, b <> n -> b <> a -> same_node t2 ts b /\ same_parent t2 ts b).
  { intros b B1 B2. assert (b <> m) by (unfold m; by destruct moved). unfold same_node, same_parent, ts, settled. cbn.
    rewrite !lookup_insert_ne, !lookup_delete_ne, !fn_lookup_insert_ne by done. done. }
  assert (EP : addrs (SLeaf n (leaf_lo l) (entries ln)) ++ addrs (SLeaf a (Some sk) (entries lr)) ++ ctx_addrs C ++ pool ≡ₚ (n :: ctx_addrs C) ++ a :: pool)
    by (cbn [addrs]; solve_Permutation).
  split_and!; [done..|]. split.
  - split; [by exists ln|done].
  - cbn. by rewrite fn_lookup_insert.
  - split; [|done]. exists lr. split_and!; try done. unfold leaf_lo. rewrite PR, LoR.
    assert (n <> 0) by (apply (lo_nonnull _ _ _ _ _ L); rewrite EA; left). by rewrite (proj2 (Z.eqb_neq _ _)).
  - done.
  - apply (rep_ctx_frame lw iw t2); [|done|apply SM]. intros b Hb. apply Hso; intros ->.
    + by apply (at_leaf_out _ _ _ _ _ _ A).
    + apply list.NoDup_app in Hnd as (_ & D & _). apply (D a); [by right|left].
  - by rewrite EP.
  - intros b Hb. rewrite EP, elem_of_app in Hb. destruct Hb as [Hb|Hb]; [|by apply Hpn]. apply (lo_nonnull _ _ _ _ _ L). by rewrite EA.
  - cbn [flat]. rewrite <- (hv_entries _ _ _ _ _ _ _ _ _ _ _ _ _ _ _ _ _ H) in HS.
    rewrite <- app_comm_cons. change (?x :: ?l) with ([x] ++ l) in HS at 1. change (Lo (leaf_lo l) :: ?x) with ([Lo (leaf_lo l)] ++ x).
    rewrite app_assoc in HS |- *. by apply sorted_separator.
Qed.

Lemma leaf_addrs_sublist g : leaf_addrs g `sublist_of` addrs g.
Proof.
  induction g as [n lo es|n h ks cs IH] using shape_ind'; [done|]. cbn [leaf_addrs addrs]. apply sublist_cons.
  induction IH as [|c cs Hc _ IH]; [done|]. cbn. by apply sublist_app.
Qed.
Lemma fill_inner f C g : exists n h ks cs, fill (f :: C) g = SNode n h ks cs.
Proof. revert f g. induction C as [|f' C IH]; intros f g; [by do 4 eexists|]. apply (IH f' (plug f g)). Qed.

(** The chain, the root bits and the rest of the memory after a split. *)
Lemma split_chain t t2 ts t' p g C n a l n1 r1 ln lr gn gc used : at_leaf t p g C n l -> split_memory t t2 C n a l n1 r1 ->
  a ∉ addrs (gshape g) -> (forall b, b ∈ used -> b ∉ n :: a :: addrs (gshape g)) ->
  leaves ts !! n = Some ln -> leaves ts !! a = Some lr -> (forall b, b <> n -> b <> a -> same_node t2 ts b /\ same_parent t2 ts b) ->
  prev_ ln = prev_ l -> next_ ln = a -> prev_ lr = n -> next_ lr = next_ l -> quietly ts t' C gn gc used ->
  chain t' 0 (lpre C ++ n :: a :: lpost C).
Proof.
  intros A SM Ha Hu Hsn Hsa Hso L1 L2 R1 R2 Q. pose proof A as [L Hg HC Hl _ _ _].
  pose proof (lo_chain _ _ _ _ _ L) as Hch. rewrite Hg, leaf_addrs_fill in Hch. cbn [leaf_addrs app] in Hch.
  assert (Hsub : forall b, b ∈ lpre C ++ n :: lpost C -> b ∈ addrs (gshape g)).
  { intros b Hb. eapply elem_of_submseteq; [|apply sublist_submseteq, leaf_addrs_sublist]. by rewrite Hg, leaf_addrs_fill. }
  assert (HND : NoDup (lpre C ++ n :: lpost C)).
  { eapply sublist_NoDup; [apply (lo_nodup _ _ _ _ _ L)|]. pose proof (leaf_addrs_sublist (gshape g)) as S. by rewrite Hg, leaf_addrs_fill in S at 1. }
  assert (HNn : n ∉ lpre C ++ lpost C) by (pose proof HND as HN; rewrite <- Permutation_middle in HN; by apply list.NoDup_cons in HN as [? _]).
  assert (Hkeep : forall b lb, b ∈ n :: a :: addrs (gshape g) -> leaves ts !! b = Some lb -> leaves t' !! b = Some lb).
  { intros b lb Hb. apply (qu_leaves _ _ _ _ _ _ Q). intros Hbu. by apply (Hu b). }
  destruct (chain_at _ _ _ _ _ Hch) as (l0 & Hl0 & Hnx & HB). assert (l0 = l) as -> by congruence.
  eapply chain_insert with (l := l) (l1 := ln) (r1 := lr); try done; try (apply Hkeep; [|done]).
  - intros Hb. by apply Ha, Hsub.
  - left.
  - right. left.
  - intros b lb Hb Hlb. assert (Hb' : b ∈ lpre C ++ lpost C) by (rewrite elem_of_app in *; destruct (lpost C); cbn in Hb; set_solver).
    assert (Hbg : b ∈ addrs (gshape g)) by (apply Hsub; set_solver).
    assert (Bn : b <> n) by (by intros ->).
    assert (Ba : b <> a) by (by intros ->).
    apply Hkeep; [by do 2 right|]. destruct (Hso b Bn Ba) as [(-> & _) _].
    rewrite (sm_leaves _ _ _ _ _ _ _ _ SM b Bn Ba); [done|]. intros E. exfalso. rewrite Hnx in E.
    destruct (lpost C) as [|nx B] eqn:EB; cbn in *; [by apply (lo_nonnull _ _ _ _ _ L b Hbg)|]. subst b.
    apply list.NoDup_app in HND as (_ & D & HND). do 2 apply list.NoDup_cons in HND as [? HND].
    rewrite elem_of_app in Hb. destruct Hb as [Hb|Hb]; [|done]. apply (D nx Hb). right. left.
  - intros HBn lb Hlb. pose proof (sm_next _ _ _ _ _ _ _ _ SM HBn lb Hlb) as E.
    assert (Hd : hd 0 (lpost C) ∈ lpost C) by (destruct (lpost C); [done|left]).
    assert (Bn : hd 0 (lpost C) <> n) by (intros E0; apply HNn, elem_of_app; right; by rewrite <- E0).
    assert (Hbg : hd 0 (lpost C) ∈ addrs (gshape g)) by (apply Hsub; set_solver).
    assert (Ba : hd 0 (lpost C) <> a) by (by intros E0; rewrite E0 in Hbg).
    eexists. split; [apply Hkeep; [by do 2 right|]|]. { destruct (Hso _ Bn Ba) as [(-> & _) _]. exact E. } done.
Qed.

Lemma split_stale t t2 ts t' p g C n a l n1 r1 gn gc sk used g' : at_leaf t p g C n l -> split_memory t t2 C n a l n1 r1 ->
  a ∉ addrs (gshape g) -> (forall b, b ∈ used -> b ∉ n :: a :: addrs (gshape g)) -> is_root ts n = false ->
  (forall b, b <> n -> b <> a -> same_node t2 ts b /\ same_parent t2 ts b) -> addr gn = n ->
  quietly ts t' C gn gc used -> finished lw iw ts t' C gn gc sk used g' -> gptr g ∈ addrs g' -> gptr g = addr (gshape g) ->
  (forall b, b <> n -> b <> a -> leaves t2 !! b = None -> leaves t' !! b = None) ->
  gptr g <> addr g' -> is_root t' (gptr g) = false /\ parents t' (gptr g) = addr g'.
Proof.
  intros A SM Ha Hu Hrn Hso Egn Q F Hin Eb HL0 Hne. pose proof A as [L Hg HC Hl _ _ _]. pose proof (lo_ptr _ _ _ _ _ L) as Hgp.
  assert (Eb' : gptr g = addr (fill C gn)) by (rewrite Eb, Hg; by apply addr_fill).
  destruct (fi_top _ _ _ _ _ _ _ _ _ _ F) as [[Hu' Hpar]|[_ Htop]]; [|congruence]. rewrite <- Eb' in Hpar.
  split; [|done]. set (b := gptr g) in *.
  assert (Hbu : b ∉ used). { intros Hb. apply (Hu b Hb). by do 2 right. }
  destruct (decide (b = n)) as [Bn|Bn].
  { rewrite Bn in *. destruct (is_root t' n) eqn:Er; [|done]. apply (qu_roots _ _ _ _ _ _ Q) in Er; [congruence|done]. }
  assert (Ba : b <> a) by (intros E; by rewrite E in Hgp).
  destruct C as [|f C]. { destruct Bn. by rewrite Eb, Hg. }
  assert (Hlb : leaves t !! b = None).
  { pose proof (lo_rep _ _ _ _ _ L) as Hr. rewrite Eb. destruct (fill_inner f C (SLeaf n (leaf_lo l) (entries l))) as (n0 & h & ks & cs & E).
    rewrite Hg, E in Hr |- *. apply rep_SNode in Hr as ((? & _) & _). done. }
  eapply rep_root_bits; [apply F|done|done|]. apply HL0; [done..|].
  rewrite (sm_leaves _ _ _ _ _ _ _ _ SM b Bn Ba); [done|]. intros E.
  pose proof (lo_chain _ _ _ _ _ L) as Hch. rewrite Hg, leaf_addrs_fill in Hch.
  destruct (chain_at _ _ _ _ _ Hch) as (l0 & Hl0 & Hnx & HB). assert (l0 = l) as -> by congruence.
  rewrite Hnx in E. destruct (lpost (f :: C)) as [|nx B]; [done|]. destruct HB as (lb & Hlb' & _); [done|]. cbn in E, Hlb'. congruence.
Qed.

(** The layer after the loop. *)
Lemma split_changed t t2 ts t' p g C n a l i e n1 r1 ln lr sk used pool' g' : at_leaf t p g C n l -> split_memory t t2 C n a l n1 r1 ->
  leaves ts !! n = Some ln -> leaves ts !! a = Some lr -> (forall b, b <> n -> b <> a -> same_node t2 ts b /\ same_parent t2 ts b) ->
  prev_ ln = prev_ l /\ next_ ln = a -> prev_ lr = n /\ next_ lr = next_ l ->
  entries ln ++ entries lr = insert_at i e (entries l) -> entry_ok e -> (p <> [] -> keylenx e <> 0) ->
  turn lw iw ts C (SLeaf n (leaf_lo l) (entries ln)) (SLeaf a (Some sk) (entries lr)) sk (used ++ pool') ->
  finished lw iw ts t' C (SLeaf n (leaf_lo l) (entries ln)) (SLeaf a (Some sk) (entries lr)) sk used g' ->
  quietly ts t' C (SLeaf n (leaf_lo l) (entries ln)) (SLeaf a (Some sk) (entries lr)) used ->
  (forall b, b <> n -> b <> a -> leaves t2 !! b = None -> leaves t' !! b = None) -> gptr g = addr (gshape g) ->
  changed t t' p g {| gptr := gptr g; gshape := g' |} (a :: used) (ents (pre C) ++ insert_at i e (entries l) ++ ents (post C)).
Proof.
  intros A SM Hsn Hsa Hso [L1 L2] [R1 R2] Hent Heok Hene T F Q HL0 Hfr. pose proof A as [L Hg HC Hl Hok HCx Htop].
  pose proof (at_leaf_addrs _ _ _ _ _ _ A) as EA.
  assert (EP : addrs g' ≡ₚ addrs (gshape g) ++ a :: used).
  { rewrite (fi_addrs _ _ _ _ _ _ _ _ _ _ F), EA. cbn [addrs]. solve_Permutation. }
  assert (EQ : addrs (SLeaf n (leaf_lo l) (entries ln)) ++ addrs (SLeaf a (Some sk) (entries lr)) ++ ctx_addrs C ++ used ++ pool' ≡ₚ addrs g' ++ pool').
  { rewrite EP, EA. cbn [addrs]. solve_Permutation. }
  pose proof (tn_nodup _ _ _ _ _ _ _ _ T) as Hnd. rewrite EQ in Hnd. apply list.NoDup_app in Hnd as (Hnd & _ & _).
  pose proof (tn_nonnull _ _ _ _ _ _ _ _ T) as Hnn.
  pose proof Hnd as Hnd2. rewrite EP in Hnd2. apply list.NoDup_app in Hnd2 as (_ & HD & Hnd2). apply list.NoDup_cons in Hnd2 as [Hau _].
  assert (Ha : a ∉ addrs (gshape g)) by (intros Ha; apply (HD a Ha); left).
  assert (Hu : forall b, b ∈ used -> b ∉ n :: a :: addrs (gshape g)).
  { intros b Hb. rewrite !not_elem_of_cons. split_and!; [intros ->|by intros ->|intros Hb'; apply (HD b Hb'); by right].
    apply (HD n); [rewrite EA; left|by right]. }
  assert (Hgp : gptr g ∈ addrs g') by (rewrite EP; apply elem_of_app; left; apply L).
  assert (Hit : items g' = ents (pre C) ++ insert_at i e (entries l) ++ ents (post C)).
  { unfold items. rewrite (fi_flat _ _ _ _ _ _ _ _ _ _ F), <- Hent, !ents_app. cbn [flat]. rewrite ents_Lo, ents_E.
    change (ents (K sk :: (Lo (Some sk) :: ?x) ++ ?y)) with (ents (x ++ y)). rewrite ents_app, ents_E. by rewrite <- !app_assoc. }
  assert (Hin : forall x, x ∈ items g' -> x = e \/ x ∈ items (gshape g)).
  { intros x. rewrite Hit, (at_leaf_items _ _ _ _ _ _ A), !elem_of_app, elem_of_insert_at. tauto. }
  split; cbn [gptr gshape]; try done.
  - split; cbn [gptr gshape]; try done; try apply L; try apply F.
    + rewrite (fi_flat _ _ _ _ _ _ _ _ _ _ F). apply T.
    + pose proof (lo_holes _ _ _ _ _ L) as HH. rewrite Hg, flat_fill in HH by done. rewrite (fi_flat _ _ _ _ _ _ _ _ _ _ F).
      rewrite app_comm_cons, (app_assoc (flat _)). eapply holes_change; [|intros k Hk|exact HH].
      * rewrite !holes_app in HH. destruct HH as (_ & [HH _] & _). cbn [flat]. rewrite <- app_comm_cons. split; [done|].
        apply holes_app. split; [apply holes_plain, plain_entries|]. split; [done|]. split; [|apply holes_plain, plain_entries].
        rewrite elem_of_app. by right; left.
      * by apply elem_of_cons in Hk as [|(? & [=] & _)%list_elem_of_fmap].
    + intros b Hb. apply Hnn. rewrite EQ, elem_of_app. by left.
    + rewrite (fi_leaves _ _ _ _ _ _ _ _ _ _ F). cbn [leaf_addrs app]. apply (split_chain t t2 ts t' p g C n a l n1 r1 ln lr (SLeaf n (leaf_lo l) (entries ln)) (SLeaf a (Some sk) (entries lr)) used); done.
    + eapply (split_stale t t2 ts t' p g C n a l n1 r1 (SLeaf n (leaf_lo l) (entries ln)) (SLeaf a (Some sk) (entries lr))); try done. apply T.
    + intros x [->|Hx]%Hin; [done|by apply L].
    + intros Hp x [->|Hx]%Hin; [by apply Hene|by apply (lo_nonempty _ _ _ _ _ L)].
  - by rewrite Hit.
  - intros b Hb. rewrite elem_of_app, elem_of_cons, EA, elem_of_cons in Hb.
    assert (Bn : b <> n) by tauto. assert (Ba : b <> a) by tauto.
    destruct (qu_outside _ _ _ _ _ _ Q b) as [(E1 & E2 & E3 & E4) E5].
    { cbn [addrs]. rewrite !elem_of_app, !elem_of_cons, !elem_of_nil. tauto. }
    destruct (Hso b Bn Ba) as [(G1 & G2 & G3 & G4) G5]. destruct (sm_other _ _ _ _ _ _ _ _ SM b Bn Ba) as (K2 & K3 & K4).
    assert (Hx : b = next_ l -> b = 0).
    { pose proof (lo_chain _ _ _ _ _ L) as Hch. rewrite Hg, leaf_addrs_fill in Hch.
      destruct (chain_at _ _ _ _ _ Hch) as (l0 & Hl0 & Hnx & _). assert (l0 = l) as -> by congruence.
      rewrite Hnx. destruct (lpost C) as [|nx B] eqn:EB; [done|]. cbn. intros ->. exfalso. apply Hb. left. right. apply lpost_in. rewrite EB. left. }
    unfold same_node, same_parent. rewrite E1, E2, E3, E4, E5, G1, G2, G3, G4, G5, K2, K3, K4, (sm_leaves _ _ _ _ _ _ _ _ SM), (sm_parents _ _ _ _ _ _ _ _ SM) by done.
    done.
Qed.

(** [make_split] of a leaf without room, then the caller's store and [finish]. *)
Lemma layer_split t p g C n l i e0 v a pool fuel : at_leaf t p g C n l -> make_split_reuse lw l = None ->
  lsize l = lw \/ back lw (permutation_ l) = 0 -> 0 <= i <= lsize l ->
  gptr g = addr (gshape g) -> StronglySorted tok_lt (pre C ++ Lo (leaf_lo l) :: (E <$> insert_at i (with_lv e0 v) (entries l)) ++ post C) ->
  entry_ok (with_lv e0 v) -> (p <> [] -> keylenx e0 <> 0) -> 0 <= keylenx e0 ->
  NoDup (addrs (gshape g) ++ a :: pool) -> (forall b, b ∈ a :: pool -> b <> 0) ->
  (List.length C < List.length pool)%nat -> (List.length C < fuel)%nat ->
  exists t1 used pool' m kx lm g', make_split bnd lw iw us un fuel n i e0 t (a :: pool) = Some (t1, pool', (m, kx)) /\
    pool = used ++ pool' /\ (List.length used <= S (List.length C))%nat /\
    leaves t1 !! m = Some lm /\ kx_p kx = back lw (permutation_ lm) /\
    changed t (put_leaf m (visible lw lm (kx_i kx) v) t1) p g g' (a :: used)
      (ents (pre C) ++ insert_at i (with_lv e0 v) (entries l) ++ ents (post C)).
Proof.
  intros A Hre Hfull Hi Hfr HS Heok Hene Hk0 Hnd Hpn Hpl Hfu. pose proof A as [L Hg HC Hl Hok HCx Htop].
  assert (HSe : StronglySorted entry_lt (insert_at i (with_lv e0 v) (entries l))).
  { apply sorted_app_iff in HS as (_ & HS & _). rewrite app_comm_cons in HS. apply sorted_app_iff in HS as (HS & _).
    apply ents_sorted in HS. by rewrite ents_Lo, ents_E in HS. }
  destruct (halves_ok n a l i e0 v (at_leaf_lo _ _ _ _ _ _ A) Hok Hre Hfull Hi Hk0 HSe) as (n1 & r1 & n2 & r2 & lm & ln & lr & moved & i' & sk & st & H).
  assert (Ha : a ∉ addrs (gshape g)).
  { apply list.NoDup_app in Hnd as (_ & D & _). intros Ha. apply (D a Ha). left. }
  destruct (split_memory_ok t p g C n l a n1 r1 A Ha (Hpn a ltac:(left)) (hv_next _ _ _ _ _ _ _ _ _ _ _ _ _ _ _ _ _ H)) as (t2 & Et2 & SM).
  destruct (split_turn t t2 p g C n a l i e0 v n1 r1 n2 r2 lm ln lr moved i' sk st pool A H SM Hnd Hpn HS) as (Hsn & Hsa & Hso & T).
  set (m := if moved then a else n) in *. set (vis := visible lw lm i' v) in *. set (ts := settled n a n2 r2 m vis t2) in *.
  pose proof H as [Hsp Hfin _ Hlm _ _ (_ & L1 & L2 & _) (_ & R1 & R2 & _) _ Hent].
  assert (Hna : n <> a). { intros <-. apply Ha. rewrite (at_leaf_addrs _ _ _ _ _ _ A). left. }
  destruct fuel as [|fuel]; [lia|].
  destruct (sm_n _ _ _ _ _ _ _ _ SM) as [Sn Si], (sm_a _ _ _ _ _ _ _ _ SM) as [San Sai].
  destruct (split_loop_leaf bnd lw iw un Hiw C n a n1 r1 st i e0 n2 r2 moved i' _ (leaf_lo l) (Some sk) (entries ln) (entries lr) sk vis t2 pool fuel
    Sn San Si Sai Hna Hfin T Hpl ltac:(lia)) as (t1 & used & pool' & g' & -> & Hlu & Eloop & Hlm1 & F & Q & HL0).
  fold m ts in Eloop, Hlm1, F, Q, HL0. rewrite <- Hlm in Hlm1.
  exists t1, used, pool', m, {| kx_i := i'; kx_p := back lw (permutation_ lm) |}, lm, {| gptr := gptr g; gshape := g' |}.
  split_and!; [|done..|].
  { unfold make_split. rewrite Hl. cbn [mbind option_bind]. rewrite Hre.
    assert (Er : leaves (put_root a (is_root t n) (make_leaf lw us a t)) !! a = Some fresh_leaf) by (cbn; by rewrite lookup_insert_eq).
    rewrite Er. cbn [mbind option_bind]. rewrite Hsp. cbn [mbind option_bind].
    change (if next_ r1 =? 0 then Some ?T else upd_leaf (next_ r1) _ ?T) with (relink_next (next_ r1) a T). rewrite Et2. cbn [mbind option_bind].
    exact Eloop. }
  by apply (split_changed t t2 ts _ p g C n a l i (with_lv e0 v) n1 r1 ln lr sk used pool' g').
Qed.

(** The new key of [find_insert], wherever it goes. *)
Lemma layer_place t p g C n l i ka v pool fuel : let e0 := assign_key mem ka in let e := with_lv e0 v in at_leaf t p g C n l -> 0 <= i <= lsize l ->
  gptr g = addr (gshape g) -> StronglySorted tok_lt (pre C ++ Lo (leaf_lo l) :: (E <$> insert_at i e (entries l)) ++ post C) ->
  entry_ok e -> (p <> [] -> keylenx e0 <> 0) -> 0 <= keylenx e0 ->
  NoDup (addrs (gshape g) ++ pool) -> (forall b, b ∈ pool -> b <> 0) ->
  (S (List.length C) < List.length pool)%nat -> (List.length C < fuel)%nat ->
  exists t1 used pool' m kx lm g', place_key bnd lw iw mem us un fuel n i ka t pool = Some (t1, pool', (m, kx)) /\
    pool = used ++ pool' /\ (List.length used <= S (S (List.length C)))%nat /\
    leaves t1 !! m = Some lm /\ kx_p kx = back lw (permutation_ lm) /\
    changed t (put_leaf m (visible lw lm (kx_i kx) v) t1) p g g' used (ents (pre C) ++ insert_at i e (entries l) ++ ents (post C)).
Proof.
  intros e0 e A Hi Hfr HS Heok Hene Hk0 Hnd Hpn Hpl Hfu. pose proof A as [L Hg HC Hl Hok HCx Htop].
  unfold place_key. rewrite Hl. cbn [mbind option_bind]. fold e0. set (q := back lw (permutation_ l)).
  destruct ((lsize l <? lw) && _) eqn:Ec.
  - apply andb_prop in Ec as [Ec Ec0]. apply Z.ltb_lt in Ec.
    destruct (layer_room t p g C n l l q i e0 v A Hok eq_refl Ec) as [Hq Hch]; try done.
    { apply set_slot_lo. rewrite !orb_true_iff, negb_true_iff, Z.eqb_neq, !Z.eqb_eq in Ec0. tauto. }
    eexists _, [], pool, _, _, _, _. split; [done|]. split; [done|]. split; [cbn; lia|]. split; [cbn; by rewrite lookup_insert_eq|].
    split; [done|]. exact Hch.
  - assert (Hfull : lsize l = lw \/ back lw (permutation_ l) = 0).
    { pose proof (lsize_range l Hok). apply andb_false_iff in Ec as [Ec|Ec]; [left; apply Z.ltb_ge in Ec; lia|right].
      rewrite !orb_false_iff in Ec. destruct Ec as [[Ec _] _]. apply negb_false_iff, Z.eqb_eq in Ec. done. }
    destruct (make_split_reuse lw l) as [[l' p']|] eqn:Er.
    + destruct (reuse_ok l l' p' Hok Er) as (K1 & K2 & K3 & K4 & K5 & K6 & K7 & K8 & K9).
      destruct (layer_room t p g C n l l' p' i e0 v A K1 K2 ltac:(lia)) as [Hq Hch]; try done.
      { rewrite set_slot_lo by by left. unfold leaf_lo. by rewrite K6, K8. }
      unfold make_split. rewrite Hl. cbn [mbind option_bind]. rewrite Er.
      eexists _, [], pool, _, _, _, _. split; [done|]. split; [done|]. split; [cbn; lia|]. split; [cbn; by rewrite lookup_insert_eq|].
      split; [done|]. exact Hch.
    + destruct pool as [|a pool]; [cbn in Hpl; lia|]. cbn in Hpl.
      destruct (layer_split t p g C n l i e0 v a pool fuel A Er Hfull Hi Hfr HS Heok Hene Hk0 Hnd Hpn ltac:(lia) Hfu)
        as (t1 & used & pool' & m & kx & lm & g' & Esp & -> & Hlu & Hlm & Hkx & Hch).
      exists t1, (a :: used), pool', m, kx, lm, g'. split_and!; done || (cbn; lia).
Qed.
End Layer.
