(* ===== verification/TreeGrow.v ===== *)
(** The family of layers under changes: one layer changed, a stale pointer redirected, new
    layers below an entry. *)
From Stdlib Require Import Sorted.
From S2P Require Import Prelude StringSlice Permuter KSearch Internode LeafSplit MassKey Tree TreeShape TreeMap TreeOps TreeInsert TreeSplit TreeLayer.

Section Grow.
Context (lw iw mk : Z).
Abbreviation layer_ok := (layer_ok lw iw).
Abbreviation inv := (inv lw iw mk).

Lemma leaf_addrs_in g a : a ∈ leaf_addrs g -> a ∈ addrs g.
Proof. intros H. eapply elem_of_submseteq; [exact H|]. apply sublist_submseteq, leaf_addrs_sublist. Qed.
(** A layer survives changes elsewhere. *)
Lemma layer_frame t t' q g : (forall a, a ∈ addrs (gshape g) -> same_node t t' a /\ same_parent t t' a) -> layer_ok t q g -> layer_ok t' q g.
Proof.
  intros H L. split; try apply L.
  - apply (rep_frame lw iw t); [by intros a Ha; apply H| |apply L]. intros a Ha. apply H. rewrite addrs_below. by right.
  - destruct (H (addr (gshape g)) (addr_in _)) as [_ ->]. apply L.
  - eapply chain_frame; [|apply L]. intros a l Ha Hl. destruct (H a (leaf_addrs_in _ _ Ha)) as [(-> & _) _]. done.
  - intros Hne. destruct (H _ (lo_ptr _ _ _ _ _ L)) as [(_ & _ & _ & ->) ->]. by apply L.
Qed.

(** One step up from a stale pointer. *)
Definition repoint (g : glayer) : glayer := {| gptr := addr (gshape g); gshape := gshape g |}.
Lemma layer_repoint t p g : layer_ok t p g -> layer_ok t p (repoint g) /\
  if is_root t (gptr g) then repoint g = g else maybe_parent t (gptr g) = addr (gshape g).
Proof.
  intros L. split.
  - split; cbn [gptr gshape repoint]; try apply L; [apply addr_in|done].
  - destruct (is_root t (gptr g)) eqn:Hr.
    + destruct g as [a g]. unfold repoint. cbn in *. f_equal. destruct (decide (a = addr g)) as [|Hne]; [done|].
      apply (lo_stale _ _ _ _ _ L) in Hne as [Hne _]. cbn in Hne. congruence.
    + assert (Hne : gptr g <> addr (gshape g)) by (intros E; rewrite E, (rep_top lw iw) in Hr by apply L; done).
      apply (lo_stale _ _ _ _ _ L) in Hne as [_ Hp]. unfold maybe_parent. rewrite Hp.
      by rewrite (proj2 (Z.eqb_neq _ _) (lo_nonnull _ _ _ _ _ L _ (addr_in _))).
Qed.

(** The family after a change of the layer at [p], with other layers kept and new ones. *)
Lemma inv_update t t' root G G' p g g' : inv t root G -> G !! p = Some g -> G' !! p = Some g' -> gptr g' = gptr g ->
  (forall q gq, G' !! q = Some gq -> layer_ok t' q gq) ->
  (forall e s, e ∈ items (gshape g') -> layer_slice e s -> exists gs, G' !! (p ++ s) = Some gs /\ gptr gs = lv e) ->
  (forall e s, e ∈ items (gshape g) -> layer_slice e s -> exists e', e' ∈ items (gshape g') /\ layer_slice e' s) ->
  (forall q gq, q <> p -> G !! q = Some gq -> exists gq', G' !! q = Some gq' /\ items (gshape gq') = items (gshape gq) /\
    (gptr gq' = gptr gq \/ exists s, List.length s = 8%nat /\ q = p ++ s)) ->
  (forall q gq, q <> p -> G' !! q = Some gq -> G !! q = None ->
    (forall e s, e ∈ items (gshape gq) -> layer_slice e s -> exists gs, G' !! (q ++ s) = Some gs /\ gptr gs = lv e) /\
    (exists x s gx e, q = x ++ s /\ G' !! x = Some gx /\ e ∈ items (gshape gx) /\ layer_slice e s) /\
    Z.of_nat (List.length q) < mk) ->
  (forall q r gq gr a, G' !! q = Some gq -> G' !! r = Some gr -> q <> r -> a ∈ addrs (gshape gq) -> a ∉ addrs (gshape gr)) ->
  inv t' root G'.
Proof.
  intros I Hg Hg' Hptr HL Hsub Hkeep Hold Hnew Hdis. split; [| | | |done|]; [|done|..].
  - destruct (inv_root _ _ _ _ _ _ I) as (g0 & Hg0 & Er). destruct (decide ([] = p)) as [<-|Hp].
    + exists g'. split; [done|]. rewrite Hptr. congruence.
    + destruct (Hold [] g0 Hp Hg0) as (g1 & Hg1 & _ & [E|(s & Hs & E)]); [exists g1; split; congruence|].
      symmetry in E. apply app_eq_nil in E as [_ ->]. done.
  - intros q gq e s Hq He Hs. destruct (decide (q = p)) as [->|Hqp]; [assert (gq = g') as -> by congruence; by apply Hsub|].
    destruct (G !! q) as [gq0|] eqn:Eq; [|by destruct (Hnew q gq Hqp Hq Eq) as [Hn _]; apply Hn].
    destruct (Hold q gq0 Hqp Eq) as (gq1 & E1 & E2 & _). assert (gq1 = gq) as -> by congruence. rewrite E2 in He.
    destruct (inv_sub _ _ _ _ _ _ I _ _ _ _ Eq He Hs) as (gs & Egs & Ep). destruct (decide (q ++ s = p)) as [Ex|Hx].
    + exists g'. rewrite Ex in *. split; [done|]. rewrite Hptr. congruence.
    + destruct (Hold _ _ Hx Egs) as (gs' & F1 & _ & [F2|(s' & F3 & F4)]); [exists gs'; split; congruence|].
      destruct Hs as (_ & Ls & _). apply app_inj_2 in F4 as [-> _]; [done|congruence].
  - intros q gq Hq. destruct (decide (q = p)) as [->|Hqp].
    + destruct (inv_up _ _ _ _ _ _ I _ _ Hg) as [?|(x & s & gx & e & E & Hx & He & Hs)]; [by left|right].
      assert (x <> p). { intros ->. destruct Hs as (_ & Ls & _). apply (f_equal List.length) in E. rewrite length_app in E. lia. }
      destruct (Hold x gx ltac:(done) Hx) as (gx' & F1 & F2 & _). exists x, s, gx', e. by rewrite F2.
    + destruct (G !! q) as [gq0|] eqn:Eq; [|right; by destruct (Hnew q gq Hqp Hq Eq) as (_ & Hn & _)].
      destruct (inv_up _ _ _ _ _ _ I _ _ Eq) as [?|(x & s & gx & e & E & Hx & He & Hs)]; [by left|right].
      destruct (decide (x = p)) as [->|Hxp].
      * assert (gx = g) as -> by congruence. destruct (Hkeep e s He Hs) as (e' & He' & Hs'). by exists p, s, g', e'.
      * destruct (Hold x gx Hxp Hx) as (gx' & F1 & F2 & _). exists x, s, gx', e. by rewrite F2.
  - intros q gq Hq. destruct (decide (q = p)) as [->|Hqp]; [by eapply (inv_short _ _ _ _ _ _ I)|].
    destruct (G !! q) as [gq0|] eqn:Eq; [by eapply (inv_short _ _ _ _ _ _ I)|by destruct (Hnew q gq Hqp Hq Eq) as (_ & _ & ?)].
Qed.

(** The nodes of a family. *)
Definition held (G : gmap (list Z) glayer) (b : Z) : Prop := exists q gq, G !! q = Some gq /\ b ∈ addrs (gshape gq).

(** The bindings of one layer and of the others. *)
Definition at_layer (p : list Z) (es : list entry) (k : list Z) (v : Z) : Prop :=
  exists e k', e ∈ es /\ entry_key e k' /\ k = p ++ k' /\ lv e = v.
Definition elsewhere (G : gmap (list Z) glayer) (p k : list Z) (v : Z) : Prop :=
  exists q gq, q <> p /\ G !! q = Some gq /\ at_layer q (items (gshape gq)) k v.
#[global] Instance at_layer_perm : Proper ((=) ==> Permutation ==> (=) ==> (=) ==> iff) at_layer.
Proof. intros p ? <- es es' E k ? <- v ? <-. unfold at_layer. by setoid_rewrite E. Qed.
Lemma at_layer_cons p e es k v : at_layer p (e :: es) k v <-> (exists k', entry_key e k' /\ k = p ++ k' /\ lv e = v) \/ at_layer p es k v.
Proof.
  split.
  - intros (x & k' & [->|Hx]%elem_of_cons & H); [left; by exists k'|right; by exists x, k'].
  - intros [(k' & H)|(x & k' & Hx & H)]; [exists e, k'; split; [left|done]|exists x, k'; split; [by right|done]].
Qed.
Lemma at_layer_layer p e s es k v : layer_slice e s -> (at_layer p (e :: es) k v <-> at_layer p es k v).
Proof. intros Hs. rewrite at_layer_cons. split; [intros [(k' & H & _)|]; [|done]; by destruct (layer_not_key e s k')|by right]. Qed.
Lemma bound_parts (G : gmap (list Z) glayer) p g k v : G !! p = Some g ->
  (bound G k v <-> at_layer p (items (gshape g)) k v \/ elsewhere G p k v).
Proof.
  intros Hg. split.
  - intros (q & gq & e & k' & Hq & H). destruct (decide (q = p)) as [->|Hqp].
    + left. assert (gq = g) as -> by congruence. by exists e, k'.
    + right. exists q, gq. split_and!; [done..|]. by exists e, k'.
  - intros [(e & k' & H)|(q & gq & _ & Hq & e & k' & H)]; [by exists p, g, e, k'|by exists q, gq, e, k'].
Qed.
Lemma elsewhere_insert (G : gmap (list Z) glayer) p g k v : elsewhere (<[p := g]> G) p k v <-> elsewhere G p k v.
Proof. split; intros (q & gq & Hq & E & H); exists q, gq; [rewrite lookup_insert_ne in E by done|rewrite lookup_insert_ne by done]; done. Qed.

(** What storing a value does to the bindings. *)
Definition stored (G G' : gmap (list Z) glayer) (k : list Z) (v : Z) : Prop :=
  forall k' v', bound G' k' v' <-> k' = k /\ v' = v \/ k' <> k /\ bound G k' v'.
Lemma stored_step (t : tree) (root : Z) (G G' : gmap (list Z) glayer) (p : list Z) (g g' : glayer) (e : entry) (es : list entry) (k : list Z) : inv t root G' -> G !! p = Some g -> G' !! p = Some g' ->
  items (gshape g') ≡ₚ e :: es -> entry_key e k -> (p <> [] -> k <> []) ->
  (items (gshape g) ≡ₚ es \/ exists e0, items (gshape g) ≡ₚ e0 :: es /\ entry_key e0 k) ->
  (forall k v, elsewhere G' p k v <-> elsewhere G p k v) -> stored G G' (p ++ k) (lv e).
Proof.
  intros I Hg Hg' He Hk Hne Hes Hel k' v'. destruct (entry_key_rank _ _ Hk) as (Hb & Hr & _).
  assert (Hnk : forall e0, entry_key e0 k -> k' <> p ++ k -> ~ exists k0, entry_key e0 k0 /\ k' = p ++ k0 /\ lv e0 = v').
  { intros e0 H0 Hkk (k0 & Hk0 & -> & _). apply Hkk. f_equal. by eapply entry_key_inj. }
  destruct (decide (k' = p ++ k)) as [->|Hkk].
  - assert (Hin : e ∈ items (gshape g')) by (rewrite He; left).
    destruct (layer_decides lw iw mk t root G' p g' k e I Hg' Hb Hne Hin ltac:(done)) as [(k1 & Hk1 & ->)|(s & _ & Hs & _)].
    + rewrite (entry_key_inj _ _ _ Hk1 Hk). intuition.
    + by destruct (layer_not_key e s k).
  - rewrite (bound_parts G' p g'), (bound_parts G p g), Hel, He, at_layer_cons by done.
    pose proof (Hnk e Hk Hkk). destruct Hes as [->|(e0 & -> & H0)]; [tauto|]. rewrite at_layer_cons. pose proof (Hnk e0 H0 Hkk). tauto.
Qed.

(** ** One layer changed *)
Lemma changed_layers t t' root G p g g' used es : inv t root G -> G !! p = Some g -> changed lw iw t t' p g g' used es ->
  (forall b, b ∈ used -> ~ held G b) ->
  (forall q gq, <[p := g']> G !! q = Some gq -> layer_ok t' q gq) /\
  (forall q r gq gr a, <[p := g']> G !! q = Some gq -> <[p := g']> G !! r = Some gr -> q <> r ->
    a ∈ addrs (gshape gq) -> a ∉ addrs (gshape gr)).
Proof.
  intros I Hg [L _ _ HA HO] Hu. assert (Hd : forall q gq a, q <> p -> G !! q = Some gq -> a ∈ addrs (gshape gq) -> a ∉ addrs (gshape g')).
  { intros q gq a Hq Hgq Ha. rewrite HA, elem_of_app. intros [Ha'|Ha']; [by apply (inv_disj _ _ _ _ _ _ I q p gq g a)|].
    apply (Hu a Ha'). by exists q, gq. }
  split.
  - intros q gq Hq. destruct (decide (q = p)) as [->|Hqp]; [rewrite lookup_insert_eq in Hq; injection Hq as <-; exact L|].
    rewrite lookup_insert_ne in Hq by done. apply (layer_frame t); [|by apply (inv_layer _ _ _ _ _ _ I)].
    intros a Ha. apply HO. rewrite <- HA. by eapply Hd.
  - intros q r gq gr a Hq Hr Hne Ha. destruct (decide (q = p)) as [->|Hqp], (decide (r = p)) as [->|Hrp]; [done| | |].
    + rewrite lookup_insert_eq in Hq. rewrite lookup_insert_ne in Hr by done. injection Hq as <-. intros Ha'. by apply (Hd r gr a Hrp Hr Ha').
    + rewrite lookup_insert_eq in Hr. rewrite lookup_insert_ne in Hq by done. injection Hr as <-. by eapply Hd.
    + rewrite lookup_insert_ne in Hq, Hr by done. by eapply (inv_disj _ _ _ _ _ _ I q r).
Qed.
Lemma inv_changed t t' root G p g g' used es : inv t root G -> G !! p = Some g -> changed lw iw t t' p g g' used es ->
  (forall b, b ∈ used -> ~ held G b) ->
  (forall e s, e ∈ es -> layer_slice e s -> exists e0, e0 ∈ items (gshape g) /\ layer_slice e0 s /\ lv e0 = lv e) ->
  (forall e s, e ∈ items (gshape g) -> layer_slice e s -> exists e0, e0 ∈ es /\ layer_slice e0 s) ->
  inv t' root (<[p := g']> G) /\ (forall b, held (<[p := g']> G) b -> held G b \/ b ∈ used).
Proof.
  intros I Hg Ch Hu He Hk. destruct (changed_layers t t' root G p g g' used es I Hg Ch Hu) as [HL HD].
  destruct Ch as [_ Hp Hit HA _]. split.
  - apply (inv_update t t' root G _ p g g' I Hg); try done; [by rewrite lookup_insert_eq|..].
    + intros e s Hin Hs. rewrite Hit in Hin. destruct (He e s Hin Hs) as (e0 & H0 & Hs0 & E0).
      destruct (inv_sub _ _ _ _ _ _ I _ _ _ _ Hg H0 Hs0) as (gs & Hgs & Eg). exists gs. rewrite lookup_insert_ne; [split; congruence|].
      destruct Hs as (_ & Ls & _). intros E. apply (f_equal List.length) in E. rewrite length_app in E. lia.
    + intros e s Hin Hs. setoid_rewrite Hit. by eapply Hk.
    + intros q gq Hq E. exists gq. rewrite lookup_insert_ne by done. auto.
    + intros q gq Hq E E'. by rewrite lookup_insert_ne, E' in E.
  - intros b (q & gq & Hq & Hb). destruct (decide (q = p)) as [->|Hqp].
    + rewrite lookup_insert_eq in Hq. injection Hq as <-. rewrite HA, elem_of_app in Hb. destruct Hb; [left; by exists p, g|by right].
    + rewrite lookup_insert_ne in Hq by done. left. by exists q, gq.
Qed.

(** A new binding in a layer, and a new value for one. *)
Lemma inv_insert t t' root G p g g' used e es k : inv t root G -> G !! p = Some g -> changed lw iw t t' p g g' used es ->
  (forall b, b ∈ used -> ~ held G b) -> es ≡ₚ e :: items (gshape g) -> entry_key e k -> (p <> [] -> k <> []) ->
  exists G', inv t' root G' /\ stored G G' (p ++ k) (lv e) /\ forall b, held G' b -> held G b \/ b ∈ used.
Proof.
  intros I Hg Ch Hu Hes Hk Hne. destruct (inv_changed t t' root G p g g' used es I Hg Ch Hu) as [I' HH].
  - intros x s Hx Hs. rewrite Hes in Hx. apply elem_of_cons in Hx as [->|Hx]; [by destruct (layer_not_key e s k)|by exists x].
  - intros x s Hx Hs. exists x. split; [|done]. rewrite Hes. by right.
  - exists (<[p := g']> G). split_and!; [done| |done].
    apply (stored_step t' root G _ p g g' e (items (gshape g)) k); try done; [by rewrite lookup_insert_eq|by rewrite (ch_items _ _ _ _ _ _ _ _ _ Ch)| |].
    + by left.
    + intros. apply elsewhere_insert.
Qed.
Lemma same_rank_key e e' k : entry_key e k -> ikey0 e' = ikey0 e -> keylenx e' = keylenx e -> ksuf e' = ksuf e -> entry_key e' k.
Proof.
  intros H E1 E2 E3. destruct H as [e k L1 L2 B I|e s L1 L2 B N I].
  - apply key_short; congruence.
  - rewrite <- E3. apply key_long; congruence.
Qed.
Lemma with_lv_key e k v : entry_key e k <-> entry_key (with_lv e v) k.
Proof. split; intros H; by eapply same_rank_key. Qed.
Lemma with_lv_slice e s v : layer_slice e s <-> layer_slice (with_lv e v) s.
Proof. done. Qed.
Lemma with_lv_ok e v : entry_ok e -> entry_ok (with_lv e v).
Proof. intros [[k H]|[s H]]; [left; exists k; by apply with_lv_key|right; by exists s]. Qed.
Lemma nth_in t p g C n l j : at_leaf lw iw t p g C n l -> 0 <= j < lsize l -> nth_entry l j ∈ items (gshape g).
Proof. intros A Hj. rewrite (at_leaf_items _ _ _ _ _ _ _ _ A), !elem_of_app. right. left. apply entries_elem. by exists j. Qed.
Lemma nth_len t p g C n l j : at_leaf lw iw t p g C n l -> 0 <= j < lsize l -> 0 <= keylenx (nth_entry l j).
Proof.
  intros A Hj. destruct (al_ok _ _ _ _ _ _ _ _ A) as [_ H]. rewrite Forall_forall in H. apply H, list_elem_of_In, entries_elem. by exists j.
Qed.

Context (Hlw : 11 <= lw <= 15).
Lemma inv_store t root G p g C n l j k v : inv t root G -> G !! p = Some g -> at_leaf lw iw t p g C n l -> 0 <= j < lsize l ->
  entry_key (nth_entry l j) k ->
  exists G', inv (put_leaf n (set_lv l (elem (permutation_ l) j) v) t) root G' /\ stored G G' (p ++ k) v /\ forall b, held G' b -> held G b.
Proof.
  intros I Hg A Hj Hk. pose proof (nth_in _ _ _ _ _ _ _ A Hj) as Hin. pose proof (al_layer _ _ _ _ _ _ _ _ A) as L. set (e := nth_entry l j) in *.
  destruct (layer_replace lw iw Hlw t p g C n l j (with_lv e v) A Hj eq_refl) as (X & Y & E1 & Ch).
  { apply with_lv_ok. by apply L. } { intros Hp. apply (lo_nonempty _ _ _ _ _ L Hp e Hin). } { exact (nth_len _ _ _ _ _ _ _ A Hj). }
  fold e in E1. set (g' := reshape _ _ _ _ _) in *. change (set_slot l _ _) with (set_lv l (elem (permutation_ l) j) v) in Ch.
  assert (Hrest : forall x y s, x ∈ X ++ y :: Y -> layer_slice x s -> x = y \/ x ∈ X ++ Y).
  { intros x y s Hx _. rewrite elem_of_app, elem_of_cons in Hx. rewrite elem_of_app. tauto. }
  assert (Hin2 : forall x y, x ∈ X ++ Y -> x ∈ X ++ y :: Y) by (intros x y; rewrite !elem_of_app, elem_of_cons; tauto).
  destruct (inv_changed _ _ root G p g g' [] _ I Hg Ch) as [I' HH].
  - intros b Hb. by apply elem_of_nil in Hb.
  - intros x s Hx Hs. destruct (Hrest _ _ _ Hx Hs) as [->|Hx']; [by destruct (layer_not_key e s k)|]. exists x. rewrite E1. auto.
  - intros x s Hx Hs. rewrite E1 in Hx. destruct (Hrest _ _ _ Hx Hs) as [->|Hx']; [by destruct (layer_not_key e s k)|]. exists x. auto.
  - exists (<[p := g']> G). split_and!; [done| |intros b Hb; destruct (HH b Hb) as [|Hb']; [done|by apply elem_of_nil in Hb']].
    apply (stored_step _ root G _ p g g' (with_lv e v) (X ++ Y) k I' Hg); [by rewrite lookup_insert_eq| | | |right; exists e|].
    + rewrite (ch_items _ _ _ _ _ _ _ _ _ Ch). solve_Permutation.
    + by apply with_lv_key.
    + intros Hp ->. apply (lo_nonempty _ _ _ _ _ L Hp _ Hin). clear -Hk. inversion Hk as [? ? E|? s ? L]; [by rewrite E|]. by destruct s.
    + rewrite E1. split; [solve_Permutation|done].
    + intros. apply elsewhere_insert.
Qed.

(** ** A layer below an entry changed, and the entry's pointer to it *)
Lemma at_leaf_frame t t' p g C n l : (forall a, a ∈ addrs (gshape g) -> same_node t t' a /\ same_parent t t' a) -> at_leaf lw iw t p g C n l -> at_leaf lw iw t' p g C n l.
Proof.
  intros H A. pose proof (at_leaf_addrs _ _ _ _ _ _ _ _ A) as EA. destruct A as [L Hg HC Hl Hok HCx Hr].
  assert (Hn : n ∈ addrs (gshape g)) by (rewrite EA; left). destruct (H n Hn) as [(E1 & _ & _ & E4) E5]. split; try done.
  - by apply (layer_frame t).
  - by rewrite E1.
  - apply (rep_ctx_frame lw iw t); [|done|exact HCx]. intros b Hb. apply H. rewrite EA. by right.
  - by rewrite E4.
Qed.
Lemma same_trans t t1 t2 a : same_node t t1 a /\ same_parent t t1 a -> same_node t1 t2 a /\ same_parent t1 t2 a -> same_node t t2 a /\ same_parent t t2 a.
Proof. unfold same_node, same_parent. intros [(-> & -> & -> & ->) ->]. done. Qed.
Lemma app_not_self {A} (p s : list A) : s <> [] -> p ++ s <> p.
Proof. intros H E. apply H. rewrite <- (app_nil_r p) in E at 2. by apply app_inv_head in E. Qed.
Lemma inv_relayer t t1 root G p g C n l j s gs gs' freed : inv t root G -> G !! p = Some g -> at_leaf lw iw t p g C n l -> 0 <= j < lsize l ->
  layer_slice (nth_entry l j) s -> G !! (p ++ s) = Some gs ->
  outside (addrs (gshape gs)) t t1 -> layer_ok t1 (p ++ s) gs' -> items (gshape gs') = items (gshape gs) -> addrs (gshape gs) ≡ₚ addrs (gshape gs') ++ freed ->
  let l' := set_lv l (elem (permutation_ l) j) (gptr gs') in let t' := put_leaf n l' t1 in
  exists G' g', inv t' root G' /\ G' !! p = Some g' /\ G' !! (p ++ s) = Some gs' /\ at_leaf lw iw t' p g' C n l' /\ gptr g' = gptr g /\
    nth_entry l' j = with_lv (nth_entry l j) (gptr gs') /\
    (forall k v, bound G' k v <-> bound G k v) /\ (forall b, held G' b -> held G b /\ b ∉ freed) /\ outside (addrs (gshape g) ++ addrs (gshape gs)) t t'.
Proof.
  intros I Hg A Hj Hs Hgs Ho Ls Eit Ead l' t'. set (e := nth_entry l j) in *. set (r := gptr gs') in *.
  pose proof (nth_in _ _ _ _ _ _ _ A Hj) as Hin. fold e in Hin. pose proof (al_layer _ _ _ _ _ _ _ _ A) as L.
  assert (Hps : p ++ s <> p) by (apply app_not_self; destruct Hs as (_ & Ls8 & _); by destruct s).
  assert (Hdis : forall a, a ∈ addrs (gshape g) -> a ∉ addrs (gshape gs)) by (intros a; by apply (inv_disj _ _ _ _ _ _ I p (p ++ s) g gs)).
  assert (A1 : at_leaf lw iw t1 p g C n l) by (apply (at_leaf_frame t); [|done]; intros a Ha; by apply Ho, Hdis).
  destruct (layer_replace lw iw Hlw t1 p g C n l j (with_lv e r) A1 Hj eq_refl) as (X & Y & E1 & Ch).
  { apply with_lv_ok. by apply L. } { intros Hp. apply (lo_nonempty _ _ _ _ _ L Hp e Hin). } { exact (nth_len _ _ _ _ _ _ _ A Hj). }
  fold e in E1. set (g' := reshape _ _ _ _ _) in *. change (set_slot l _ _) with l' in Ch. change (put_leaf n l' t1) with t' in Ch.
  assert (EA' : addrs (gshape g') ≡ₚ addrs (gshape g)) by (rewrite (ch_addrs _ _ _ _ _ _ _ _ _ Ch); by rewrite app_nil_r).
  assert (O1 : outside (addrs (gshape g)) t1 t') by (eapply outside_sub; [apply Ch|]; intros a; by rewrite app_nil_r).
  set (G1 := <[p := g']> G). set (G' := <[p ++ s := gs']> G1).
  assert (HGp : G' !! p = Some g') by (unfold G', G1; by rewrite lookup_insert_ne, lookup_insert_eq).
  assert (HGs : G' !! (p ++ s) = Some gs') by (unfold G'; by rewrite lookup_insert_eq).
  assert (HGo : forall q, q <> p -> q <> p ++ s -> G' !! q = G !! q) by (intros q H1 H2; unfold G', G1; by rewrite !lookup_insert_ne).
  (* every layer of the new family is that of the old one but for [p] and [p ++ s] *)
  assert (HG : forall q gq, G' !! q = Some gq -> exists gq0, G !! q = Some gq0 /\ (forall a, a ∈ addrs (gshape gq) -> a ∈ addrs (gshape gq0)) /\
    (q <> p -> items (gshape gq) = items (gshape gq0))).
  { intros q gq Hq. destruct (decide (q = p)) as [->|Hqp].
    - assert (gq = g') as -> by congruence. exists g. split_and!; [done|intros a; by rewrite EA'|done].
    - destruct (decide (q = p ++ s)) as [->|Hqs]; [|rewrite HGo in Hq by done; by exists gq].
      assert (gq = gs') as -> by congruence. exists gs. split_and!; [done| |done]. intros a Ha. rewrite Ead. apply elem_of_app. by left. }
  assert (Hold : forall q gq, q <> p -> G !! q = Some gq -> exists gq', G' !! q = Some gq' /\ items (gshape gq') = items (gshape gq) /\
    (gptr gq' = gptr gq \/ exists s, List.length s = 8%nat /\ q = p ++ s)).
  { intros q gq Hqp Hq. destruct (decide (q = p ++ s)) as [->|Hqs].
    - exists gs'. assert (gq = gs) as -> by congruence. split_and!; [done..|right]. exists s. by destruct Hs as (_ & ? & _).
    - exists gq. rewrite HGo by done. auto. }
  assert (Hx : forall x s', x ∈ X ++ Y -> layer_slice x s' -> s' <> s).
  { intros x s' Hx Hs' ->. pose proof (lo_sorted _ _ _ _ _ L) as HS. apply ents_sorted in HS. change (ents (flat (gshape g))) with (items (gshape g)) in HS.
    assert (Hxg : x ∈ items (gshape g)) by (rewrite E1, elem_of_app, elem_of_cons; apply elem_of_app in Hx; tauto).
    assert (Exe : x = e) by (apply (layer_rank_inj lw iw t p g x e L Hxg Hin); by rewrite <- (layer_slice_rank x s [0]), <- (layer_slice_rank e s [0])).
    subst x. rewrite E1 in HS. apply sorted_app_iff in HS as (_ & HS & HR). apply StronglySorted_inv in HS as [_ F].
    apply elem_of_app in Hx as [Hx|Hx]; [apply (rank_lt_irrefl (erank e)), HR; [done|left]|].
    rewrite Forall_forall in F. apply list_elem_of_In, F in Hx. by apply rank_lt_irrefl in Hx. }
  destruct (at_leaf_intro lw iw t' p g' C n (leaf_lo l) (entries l') (ch_layer _ _ _ _ _ _ _ _ _ Ch) eq_refl (al_wf _ _ _ _ _ _ _ _ A)) as (l0 & A0 & _).
  assert (l0 = l') as -> by (pose proof (al_leaf _ _ _ _ _ _ _ _ A0) as E0; cbn in E0; rewrite lookup_insert_eq in E0; congruence).
  exists G', g'. split_and!; [|done|done|exact A0|done|by unfold nth_entry, l', set_lv; cbn [slot permutation_ set_slot]; rewrite fn_lookup_insert| | |].
  - apply (inv_update t t' root G G' p g g' I Hg HGp eq_refl); try done.
    + intros q gq Hq. destruct (decide (q = p)) as [->|Hqp]; [assert (gq = g') as -> by congruence; apply Ch|].
      destruct (decide (q = p ++ s)) as [->|Hqs].
      * assert (gq = gs') as -> by congruence. apply (layer_frame t1); [|done]. intros a Ha. apply O1. intros Ha'. apply (Hdis a Ha').
        rewrite Ead. apply elem_of_app. by left.
      * rewrite HGo in Hq by done. apply (layer_frame t); [|by apply (inv_layer _ _ _ _ _ _ I)]. intros a Ha. eapply same_trans; [apply Ho|apply O1].
        -- by apply (inv_disj _ _ _ _ _ _ I q (p ++ s) gq gs).
        -- by apply (inv_disj _ _ _ _ _ _ I q p gq g).
    + intros x s' Hxi Hs'. rewrite (ch_items _ _ _ _ _ _ _ _ _ Ch) in Hxi.
      assert (Hx' : x = with_lv e r \/ x ∈ X ++ Y) by (rewrite elem_of_app, elem_of_cons in Hxi; rewrite elem_of_app; tauto).
      destruct Hx' as [->|Hx']; [rewrite (layer_slice_inj _ _ _ Hs' Hs); by exists gs'|].
      assert (Hxg : x ∈ items (gshape g)) by (rewrite E1, elem_of_app, elem_of_cons; apply elem_of_app in Hx'; tauto).
      destruct (inv_sub _ _ _ _ _ _ I _ _ _ _ Hg Hxg Hs') as (gx & Hgx & Ex). exists gx. split; [|done]. rewrite HGo; [done| |].
      * apply app_not_self. destruct Hs' as (_ & L8 & _). by destruct s'.
      * intros E0. apply app_inv_head in E0. by apply (Hx x s').
    + intros x s' Hxi Hs'. setoid_rewrite (ch_items _ _ _ _ _ _ _ _ _ Ch). rewrite E1 in Hxi.
      rewrite elem_of_app, elem_of_cons in Hxi. destruct Hxi as [Hxi|[->|Hxi]]; [exists x|exists (with_lv e r)|exists x]; rewrite elem_of_app, elem_of_cons; auto.
    + intros q gq Hqp Hq E. destruct (HG q gq Hq) as (gq0 & E0 & _). congruence.
    + intros q q' gq gq' a Hq Hq' Hne Ha Ha'. destruct (HG q gq Hq) as (x & Ex & Sx & _), (HG q' gq' Hq') as (y & Ey & Sy & _).
      by apply (inv_disj _ _ _ _ _ _ I q q' x y a Ex Ey Hne); [apply Sx|apply Sy].
  - intros k v. rewrite (bound_parts G' p g'), (bound_parts G p g), (ch_items _ _ _ _ _ _ _ _ _ Ch), E1 by done.
    rewrite <- !Permutation_middle, (at_layer_layer p e s), (at_layer_layer p (with_lv e r) s) by done.
    assert (EE : elsewhere G' p k v <-> elsewhere G p k v); [|by rewrite EE].
    split; intros (q & gq & Hqp & Hq & Hat).
    + destruct (HG q gq Hq) as (x & Ex & _ & Ix). rewrite (Ix Hqp) in Hat. by exists q, x.
    + destruct (Hold q gq Hqp Hq) as (x & Ex & Ix & _). exists q, x. by rewrite Ix.
  - intros b (q & gq & Hq & Hb). destruct (HG q gq Hq) as (x & Ex & Sx & _). split; [exists q, x; auto|]. intros Hf.
    assert (Hbs : b ∈ addrs (gshape gs)) by (rewrite Ead, elem_of_app; by right).
    destruct (decide (q = p ++ s)) as [->|Hqs]; [|by apply (inv_disj _ _ _ _ _ _ I q (p ++ s) x gs b Ex Hgs Hqs (Sx b Hb))].
    assert (gq = gs') as -> by congruence. pose proof (lo_nodup _ _ _ _ _ (inv_layer _ _ _ _ _ _ I _ _ Hgs)) as Hnd.
    rewrite Ead in Hnd. apply list.NoDup_app in Hnd as (_ & Hnd & _). by apply (Hnd b).
  - eapply outside_trans; [eapply outside_sub; [exact Ho|]|eapply outside_sub; [exact O1|]]; intros b Hb; apply elem_of_app; tauto.
Qed.

(** ** A stale pointer redirected *)
Lemma inv_redirect t root G p g C n l j s gs : inv t root G -> G !! p = Some g -> at_leaf lw iw t p g C n l -> 0 <= j < lsize l ->
  layer_slice (nth_entry l j) s -> G !! (p ++ s) = Some gs -> gptr gs = lv (nth_entry l j) -> is_root t (lv (nth_entry l j)) = false ->
  let r := maybe_parent t (lv (nth_entry l j)) in
  exists G', inv (put_leaf n (set_lv l (elem (permutation_ l) j) r) t) root G' /\ G' !! (p ++ s) = Some (repoint gs) /\
    (forall k v, bound G' k v <-> bound G k v) /\ (forall b, held G' b -> held G b).
Proof.
  intros I Hg A Hj Hs Hgs Hgp Hr r. destruct (layer_repoint t (p ++ s) gs (inv_layer _ _ _ _ _ _ I _ _ Hgs)) as [Lr Er]. rewrite Hgp, Hr in Er.
  destruct (inv_relayer t t root G p g C n l j s gs (repoint gs) [] I Hg A Hj Hs Hgs) as (G' & g' & I' & _ & Hgs' & _ & _ & _ & HB & HH & _); try done.
  { by rewrite app_nil_r. }
  exists G'. unfold r. rewrite Er. split_and!; try done. intros b Hb. by apply HH.
Qed.
End Grow.
