(* ===== verification/TreeTwig.v ===== *)
(** New layers: the twig of one-entry leaves that [make_new_layer] puts below an entry whose
    key conflicts, the leaf with both keys at its end, and the family with them. *)
From Stdlib Require Import Sorted.
From S2P Require Import Prelude StringSlice Permuter KSearch Internode LeafSplit MassKey Tree TreeShape TreeMap TreeOps TreeInsert TreeSplit TreeLayer TreeGrow.

(** The two permutations of a leaf with one key in place and one to come. *)
Lemma pair_perm_all : forallb (fun w =>
  let x := kpermuter w (make_sorted w 1) in let y := remove_to_back w (kpermuter w (make_sorted w 2)) 0 in
  (Permuter.size x =? 1) && (elem x 0 =? 0) && (back w x =? 1) && (Permuter.size y =? 1) && (elem y 0 =? 1) && (back w y =? 0)) (seqZ 11 5) = true.
Proof. by vm_compute. Qed.

Section Twig.
Context (lw iw mk : Z) (Hlw : 11 <= lw <= 15).
Abbreviation layer_ok := (layer_ok lw iw).
Abbreviation inv := (inv lw iw mk).

(** A layer that is one leaf. *)
Definition lone (t : tree) (a : Z) (l : leaf) : Prop :=
  leaves t !! a = Some l /\ leaf_ok lw l /\ prev_ l = 0 /\ next_ l = 0 /\ is_root t a = true /\ parents t a = 0.
Definition leaf_layer (a : Z) (l : leaf) : glayer := {| gptr := a; gshape := SLeaf a None (entries l) |}.
Lemma lone_layer t q a l : lone t a l -> a <> 0 -> StronglySorted entry_lt (entries l) ->
  (forall e, e ∈ entries l -> entry_ok e /\ keylenx e <> 0) -> Forall byte_ok q -> (exists m, List.length q = (8 * m)%nat) ->
  layer_ok t q (leaf_layer a l).
Proof.
  intros (Hl & Hok & Hp & Hn & Hr & Hpa) H0 HS He Hq Hm.
  assert (HI : items (SLeaf a None (entries l)) = entries l) by apply ents_E.
  split; cbn [gptr gshape leaf_layer addr addrs leaf_addrs]; try done.
  - split; [|done]. exists l. unfold leaf_lo. by rewrite Hp.
  - cbn [flat]. constructor; [|by apply Forall_fmap, Forall_true].
    clear -HS. induction HS as [|e es _ IH F]; [constructor|]. cbn. constructor; [done|].
    apply Forall_fmap. exact F.
  - apply holes_plain. constructor; [done|apply plain_entries].
  - apply NoDup_singleton.
  - by intros b ->%list_elem_of_singleton.
  - split; [|done]. exists l. done.
  - left.
  - intros e. rewrite HI. apply He.
  - intros _ e. rewrite HI. apply He.
Qed.

(** A family of layers below a prefix. *)
Record deep (t : tree) (q : list Z) (a : Z) (H : gmap (list Z) glayer) (ads : list Z) : Prop := {
  dp_root : exists g, H !! q = Some g /\ gptr g = a;
  dp_layer : forall x g, H !! x = Some g -> layer_ok t x g;
  dp_sub : forall x g e s, H !! x = Some g -> e ∈ items (gshape g) -> layer_slice e s ->
    exists g', H !! (x ++ s) = Some g' /\ gptr g' = lv e;
  dp_up : forall x g, H !! x = Some g -> x = q \/ exists y s g' e,
    x = y ++ s /\ H !! y = Some g' /\ e ∈ items (gshape g') /\ layer_slice e s;
  dp_disj : forall x y g g' a, H !! x = Some g -> H !! y = Some g' -> x <> y -> a ∈ addrs (gshape g) -> a ∉ addrs (gshape g');
  dp_prefix : forall x g, H !! x = Some g -> exists r, x = q ++ r;
  dp_addrs : forall x g b, H !! x = Some g -> b ∈ addrs (gshape g) -> b ∈ ads
}.
Lemma items_leaf a l : items (gshape (leaf_layer a l)) = entries l.
Proof. apply ents_E. Qed.
Lemma deep_one t q a l : layer_ok t q (leaf_layer a l) -> (forall e s, e ∈ entries l -> ~ layer_slice e s) ->
  deep t q a {[q := leaf_layer a l]} [a].
Proof.
  intros L Hn. split.
  - exists (leaf_layer a l). by rewrite lookup_singleton_eq.
  - intros x g [<- <-]%lookup_singleton_Some. done.
  - intros x g e s [<- <-]%lookup_singleton_Some. rewrite items_leaf. intros He Hs. by destruct (Hn e s).
  - intros x g [<- <-]%lookup_singleton_Some. by left.
  - intros x y g g' b [<- <-]%lookup_singleton_Some [<- <-]%lookup_singleton_Some. done.
  - intros x g [<- <-]%lookup_singleton_Some. exists []. by rewrite app_nil_r.
  - intros x g b [<- <-]%lookup_singleton_Some Hb. done.
Qed.
Lemma prefix_ne (q s r : list Z) : List.length s = 8%nat -> (q ++ s) ++ r <> q.
Proof. intros Hs E. apply (f_equal List.length) in E. rewrite !length_app in E. lia. Qed.
Lemma deep_cons t q a b l e s H ads : layer_ok t q (leaf_layer a l) -> entries l = [e] -> layer_slice e s -> lv e = b ->
  deep t (q ++ s) b H ads -> a ∉ ads -> deep t q a (<[q := leaf_layer a l]> H) (a :: ads) /\
  forall k v, bound (<[q := leaf_layer a l]> H) k v <-> bound H k v.
Proof.
  intros L Ee Hs Hb D Ha. pose proof Hs as (_ & Ls & _).
  assert (HN : H !! q = None).
  { destruct (H !! q) as [g|] eqn:E; [|done]. destruct (dp_prefix _ _ _ _ _ D _ _ E) as [r Er]. symmetry in Er. by apply prefix_ne in Er. }
  assert (Hx : forall x g, <[q := leaf_layer a l]> H !! x = Some g -> x = q /\ g = leaf_layer a l \/ x <> q /\ H !! x = Some g).
  { intros x g Hx. destruct (decide (x = q)) as [->|]; [rewrite lookup_insert_eq in Hx; left; split; congruence|].
    rewrite lookup_insert_ne in Hx by done. by right. }
  assert (Hk : forall x g, H !! x = Some g -> <[q := leaf_layer a l]> H !! x = Some g).
  { intros x g E. rewrite lookup_insert_ne; [done|]. intros ->. congruence. }
  destruct (dp_root _ _ _ _ _ D) as (g0 & Hg0 & Eg0). split; [split|].
  - exists (leaf_layer a l). by rewrite lookup_insert_eq.
  - intros x g [[-> ->]|[_ Hg]]%Hx; [done|by apply D].
  - intros x g x' s' [[-> ->]|[_ Hg]]%Hx.
    + rewrite items_leaf, Ee. intros ->%list_elem_of_singleton Hs'. rewrite (layer_slice_inj _ _ _ Hs' Hs). exists g0. split; [by apply Hk|congruence].
    + intros He Hs'. destruct (dp_sub _ _ _ _ _ D _ _ _ _ Hg He Hs') as (g' & Hg' & ?). exists g'. split; [by apply Hk|done].
  - intros x g [[-> ->]|[_ Hg]]%Hx; [by left|right]. destruct (dp_up _ _ _ _ _ D _ _ Hg) as [->|(y & s' & g' & e' & E & Hg' & Hr)].
    + exists q, s, (leaf_layer a l), e. rewrite lookup_insert_eq, items_leaf, Ee. split_and!; [done..|left|done].
    + exists y, s', g', e'. split; [done|]. split; [by apply Hk|done].
  - intros x y g g' c [[-> ->]|[_ Hg]]%Hx [[-> ->]|[_ Hg']]%Hx Hne.
    + done.
    + intros ->%list_elem_of_singleton Hc. apply Ha. by apply (dp_addrs _ _ _ _ _ D _ _ _ Hg').
    + intros Hc ->%list_elem_of_singleton. apply Ha. by apply (dp_addrs _ _ _ _ _ D _ _ _ Hg).
    + by apply (dp_disj _ _ _ _ _ D x y).
  - intros x g [[-> ->]|[_ Hg]]%Hx; [exists []; by rewrite app_nil_r|].
    destruct (dp_prefix _ _ _ _ _ D _ _ Hg) as [r ->]. exists (s ++ r). by rewrite app_assoc.
  - intros x g c [[-> ->]|[_ Hg]]%Hx Hc; [by apply list_elem_of_singleton in Hc as ->; left|right; by eapply dp_addrs].
  - intros k v. split.
    + intros (x & g & e' & k' & [[-> ->]|[_ Hg]]%Hx & He & Hek & R); [|by exists x, g, e', k'].
      rewrite items_leaf, Ee in He. apply list_elem_of_singleton in He as ->. by destruct (layer_not_key e s k').
    + intros (x & g & e' & k' & Hg & R). exists x, g, e', k'. split; [by apply Hk|done].
Qed.

(** The twig in memory: each leaf has one entry, which leads to the next leaf. *)
Definition twig_leaf (t : tree) (a : Z) (s : list Z) (b : Z) : Prop :=
  a <> 0 /\ exists l e, lone t a l /\ elem (permutation_ l) 0 = 0 /\ entries l = [e] /\ layer_slice e s /\ lv e = b.
Fixpoint twigs (t : tree) (ss : list (list Z)) (ads : list Z) (z : Z) : Prop :=
  match ss, ads with
  | [], [] => True
  | s :: ss, a :: ads => twig_leaf t a s (hd z ads) /\ twigs t ss ads z
  | _, _ => False
  end.
Lemma deep_twigs t ss : forall q ads a l, twigs t ss ads a -> layer_ok t (q ++ concat ss) (leaf_layer a l) -> NoDup (ads ++ [a]) ->
  (forall e s, e ∈ entries l -> ~ layer_slice e s) -> Forall byte_ok q -> (exists m, List.length q = (8 * m)%nat) ->
  exists H, deep t q (hd a ads) H (ads ++ [a]) /\ (forall x gx, H !! x = Some gx -> (List.length x <= List.length (q ++ concat ss))%nat) /\
    forall k v, bound H k v <-> at_layer (q ++ concat ss) (entries l) k v.
Proof.
  induction ss as [|s ss IH]; intros q [|b ads] a l T L Hnd Hno Hq [m Hm]; try done.
  - cbn [concat] in *. rewrite app_nil_r in *. exists {[q := leaf_layer a l]}. split; [by apply deep_one|].
    split; [by intros x gx [<- _]%lookup_singleton_Some|]. intros k v. split.
    + intros (x & g & e & k' & [<- <-]%lookup_singleton_Some & R). rewrite items_leaf in R. by exists e, k'.
    + intros (e & k' & R). exists q, (leaf_layer a l), e, k'. rewrite lookup_singleton_eq, items_leaf. done.
  - cbn [twigs] in T. destruct T as [(Hb0 & lb & e & Hlone & _ & Ee & Hs & Hlv) T]. cbn [concat] in *. rewrite app_assoc in L.
    pose proof Hs as (Hk & Ls & Bs & _). cbn in Hnd. apply list.NoDup_cons in Hnd as [Hnb Hnd].
    destruct (IH (q ++ s) ads a l T L Hnd Hno) as (H & D & HS & HB).
    { apply Forall_app. done. } { exists (S m). rewrite length_app. lia. }
    assert (Lb : layer_ok t q (leaf_layer b lb)).
    { apply lone_layer; try done; [rewrite Ee; by repeat constructor| |by exists m].
      intros x Hx. rewrite Ee in Hx. apply list_elem_of_singleton in Hx as ->. split; [right; by exists s|]. by rewrite Hk. }
    destruct (deep_cons t q b _ lb e s H (ads ++ [a]) Lb Ee Hs Hlv D Hnb) as [D' HB'].
    exists (<[q := leaf_layer b lb]> H). split; [exact D'|]. rewrite app_assoc in *. split; [|intros k v; by rewrite HB', HB].
    intros x gx [[<- _]|[_ Hx]]%lookup_insert_Some; [rewrite !length_app; lia|by eapply HS].
Qed.

(** ** An entry that becomes a layer *)
Lemma no_layer_below t root G p g e k0 s r : inv t root G -> G !! p = Some g -> e ∈ items (gshape g) -> entry_key e k0 ->
  List.length s = 8%nat -> (forall e1, layer_slice e1 s -> erank e1 = erank e) -> G !! ((p ++ s) ++ r) = None.
Proof.
  intros I Hg He Hk Hs Hr. destruct (G !! ((p ++ s) ++ r)) as [gx|] eqn:E; [|done]. rewrite <- app_assoc in E.
  pose proof (inv_layer _ _ _ _ _ _ I _ _ Hg) as L.
  destruct (layer_way lw iw mk _ _ _ _ _ _ _ I E Hs (lo_length _ _ _ _ _ L)) as (g1 & e1 & Hg1 & He1 & Hs1).
  assert (g1 = g) as -> by congruence. exfalso.
  apply (layer_not_key e s k0); [|done]. by rewrite <- (layer_rank_inj lw iw t p g e1 e L He1 He (Hr e1 Hs1)).
Qed.

Lemma inv_graft t t' root G p g C n l j e1 s H ads k0 : inv t root G -> G !! p = Some g -> at_leaf lw iw t p g C n l -> 0 <= j < lsize l ->
  entry_key (nth_entry l j) k0 -> layer_slice e1 s -> erank e1 = erank (nth_entry l j) ->
  (forall b, b ∉ ads -> same_node (put_leaf n (set_slot l (elem (permutation_ l) j) e1) t) t' b /\
    same_parent (put_leaf n (set_slot l (elem (permutation_ l) j) e1) t) t' b) ->
  deep t' (p ++ s) (lv e1) H ads -> (forall b, b ∈ ads -> ~ held G b) ->
  (forall x gx, H !! x = Some gx -> Z.of_nat (List.length x) < mk) ->
  exists G' (R : list Z -> Z -> Prop), inv t' root G' /\ (forall b, held G' b -> held G b \/ b ∈ ads) /\
    (forall k v, bound G k v <-> k = p ++ k0 /\ v = lv (nth_entry l j) \/ R k v) /\ (forall k v, bound G' k v <-> R k v \/ bound H k v).
Proof.
  intros I Hg A Hj Hk0 Hs Hr Hsame D Hads Hshort. pose proof (nth_in _ _ _ _ _ _ _ _ _ A Hj) as Hin. set (e0 := nth_entry l j) in *.
  set (t1 := put_leaf n _ t) in *. pose proof Hs as (Ek & Ls & Bs & Is). pose proof (al_layer _ _ _ _ _ _ _ _ A) as L.
  destruct (layer_replace lw iw Hlw t p g C n l j e1 A Hj Hr) as (X & Y & E1 & Ch).
  { right. by exists s. } { by rewrite Ek. } { by rewrite Ek. }
  fold e0 in E1. set (g' := reshape _ _ _ _ _) in *. fold t1 in Ch.
  destruct (changed_layers lw iw mk t t1 root G p g g' [] _ I Hg Ch) as [HL HD]; [intros b Hb; by apply elem_of_nil in Hb|].
  set (G1 := <[p := g']> G) in *.
  assert (HP : forall r, G !! ((p ++ s) ++ r) = None).
  { intros r. apply (no_layer_below t root G p g e0 k0 s r I Hg Hin Hk0 Ls). intros e2 Hs2. rewrite <- Hr, <- (layer_slice_rank e2 s [0]), <- (layer_slice_rank e1 s [0]) by done. done. }
  assert (HP1 : forall x gx, H !! x = Some gx -> G1 !! x = None /\ x <> p).
  { intros x gx Hx. destruct (dp_prefix _ _ _ _ _ D _ _ Hx) as [r ->]. assert ((p ++ s) ++ r <> p) by by apply prefix_ne.
    split; [|done]. unfold G1. by rewrite lookup_insert_ne. }
  assert (Hdis : H ##ₘ G1).
  { apply map_disjoint_spec. intros x y z Hx Hy. destruct (HP1 _ _ Hx). congruence. }
  set (G' := H ∪ G1). assert (HU : forall x gx, G' !! x = Some gx <-> H !! x = Some gx \/ G1 !! x = Some gx) by (intros; by apply lookup_union_Some).
  assert (HG1 : forall x gx, x <> p -> G1 !! x = Some gx <-> G !! x = Some gx) by (intros; unfold G1; by rewrite lookup_insert_ne).
  assert (HGp : G1 !! p = Some g') by (unfold G1; by rewrite lookup_insert_eq).
  assert (Hfar : forall x gx b, G1 !! x = Some gx -> b ∈ addrs (gshape gx) -> b ∉ ads).
  { intros x gx b Hx Hb Hb'. apply (Hads b Hb'). destruct (decide (x = p)) as [->|Hxp]; [|exists x, gx; by rewrite <- HG1].
    assert (gx = g') as -> by congruence. rewrite (ch_addrs _ _ _ _ _ _ _ _ _ Ch), app_nil_r in Hb. by exists p, g. }
  exists G', (fun k v => at_layer p (X ++ Y) k v \/ elsewhere G p k v). split_and!.
  - apply (inv_update lw iw mk t t' root G G' p g g' I Hg); [apply HU; by right|done|..].
    + intros q gq [Hq|Hq]%HU; [by apply D|]. apply (layer_frame lw iw t1); [|by apply HL]. intros b Hb. apply Hsame. by eapply Hfar.
    + intros x s' Hx Hs'. rewrite (ch_items _ _ _ _ _ _ _ _ _ Ch) in Hx.
      assert (Hx' : x = e1 \/ x ∈ X ++ Y) by (rewrite elem_of_app, elem_of_cons in Hx; rewrite elem_of_app; tauto).
      destruct Hx' as [->|Hx'].
      * rewrite (layer_slice_inj _ _ _ Hs' Hs). destruct (dp_root _ _ _ _ _ D) as (gs & Hgs & Egs). exists gs. split; [apply HU; by left|done].
      * assert (Hxg : x ∈ items (gshape g)) by (rewrite E1, elem_of_app, elem_of_cons; apply elem_of_app in Hx'; tauto).
        destruct (inv_sub _ _ _ _ _ _ I _ _ _ _ Hg Hxg Hs') as (gx & Hgx & Ex). exists gx. split; [|done]. apply HU. right. apply HG1; [|done].
        intros E. apply (f_equal List.length) in E. rewrite length_app in E. destruct Hs' as (_ & ? & _). lia.
    + intros x s' Hx Hs'. exists x. split; [|done]. rewrite (ch_items _ _ _ _ _ _ _ _ _ Ch). rewrite E1 in Hx.
      rewrite elem_of_app, elem_of_cons in Hx |- *. destruct Hx as [Hx|[->|Hx]]; [by left| |by do 2 right]. by destruct (layer_not_key e0 s' k0).
    + intros q gq Hqp Hq. exists gq. split; [|auto]. apply HU. right. by apply HG1.
    + intros q gq Hqp [Hq|Hq]%HU Hn; [|apply HG1 in Hq; congruence]. split_and!; [| |by eapply Hshort].
      * intros e s' He Hs'. destruct (dp_sub _ _ _ _ _ D _ _ _ _ Hq He Hs') as (gs & Hgs & E). exists gs. split; [|done]. apply HU. by left.
      * destruct (dp_up _ _ _ _ _ D _ _ Hq) as [->|(y & s' & gy & e & E & Hy & He & Hs')].
        -- exists p, s, g', e1. split_and!; [done|apply HU; by right| |done]. rewrite (ch_items _ _ _ _ _ _ _ _ _ Ch), elem_of_app. right. left.
        -- exists y, s', gy, e. split_and!; [done|apply HU; by left|done..].
    + intros q r gq gr b [Hq|Hq]%HU [Hr'|Hr']%HU Hne Hb.
      * by apply (dp_disj _ _ _ _ _ D q r gq gr b).
      * intros Hb'. apply (Hfar _ _ _ Hr' Hb'). by eapply dp_addrs.
      * intros Hb'. apply (Hfar _ _ _ Hq Hb). by eapply dp_addrs.
      * by apply (HD q r gq gr b).
  - intros b (q & gq & [Hq|Hq]%HU & Hb); [right; by eapply dp_addrs|left].
    destruct (decide (q = p)) as [->|Hqp]; [|exists q, gq; by rewrite <- HG1].
    assert (gq = g') as -> by congruence. rewrite (ch_addrs _ _ _ _ _ _ _ _ _ Ch), app_nil_r in Hb. by exists p, g.
  - intros k v. rewrite (bound_parts G p g), E1, <- Permutation_middle, at_layer_cons by done.
    enough ((exists k', entry_key e0 k' /\ k = p ++ k' /\ lv e0 = v) <-> k = p ++ k0 /\ v = lv e0) by tauto.
    split; [intros (k' & Hk' & -> & <-); by rewrite (entry_key_inj _ _ _ Hk' Hk0)|intros [-> ->]; by exists k0].
  - intros k v. transitivity (bound G1 k v \/ bound H k v).
    + split.
      * intros (q & gq & e & k' & [Hq|Hq]%HU & R); [right|left]; by exists q, gq, e, k'.
      * intros [(q & gq & e & k' & Hq & R)|(q & gq & e & k' & Hq & R)]; exists q, gq, e, k'; (split; [|done]); apply HU; tauto.
    + rewrite (bound_parts G1 p g'), (ch_items _ _ _ _ _ _ _ _ _ Ch), <- Permutation_middle, (at_layer_layer p e1 s) by done.
      unfold G1. by rewrite elsewhere_insert.
Qed.

(** ** The twig in memory *)
Lemma lone_frame t t' a l : same_node t t' a -> same_parent t t' a -> lone t a l -> lone t' a l.
Proof. intros (E1 & _ & _ & E4) E5 (Hl & Hok & Hp & Hn & Hr & Hpa). unfold lone. rewrite E1, E4, E5. done. Qed.
Lemma twigs_frame t t' ss ads z : (forall b, b ∈ ads -> same_node t t' b /\ same_parent t t' b) -> twigs t ss ads z -> twigs t' ss ads z.
Proof.
  revert ads. induction ss as [|s ss IH]; intros [|a ads] H; try done. intros [(H0 & l & e & Hl & R) T]. split.
  - split; [done|]. exists l, e. split; [|done]. destruct (H a ltac:(left)). by apply (lone_frame t).
  - apply IH; [|done]. intros b Hb. apply H. by right.
Qed.
Lemma twigs_length t ss ads z : twigs t ss ads z -> List.length ss = List.length ads.
Proof. revert ads. induction ss as [|s ss IH]; intros [|a ads] T; try done. destruct T as [_ T]. cbn. f_equal. by apply IH. Qed.
Lemma twigs_snoc t ss ads s a z : twigs t ss ads a -> twig_leaf t a s z -> twigs t (ss ++ [s]) (ads ++ [a]) z.
Proof.
  revert ads. induction ss as [|s0 ss IH]; intros [|a0 ads] T Hl; try done; cbn [app twigs hd] in *.
  destruct T as [T0 T]. split; [by destruct ads|by apply IH].
Qed.
Lemma set_first l e v : leaf_ok lw l -> elem (permutation_ l) 0 = 0 -> entries l = [e] ->
  leaf_ok lw (set_lv l 0 v) /\ entries (set_lv l 0 v) = [with_lv e v].
Proof.
  intros Hok E0 Ee. pose proof (length_entries l) as Ln. rewrite Ee in Ln. cbn in Ln.
  assert (E1 : nth_entry l 0 = e). { pose proof (entries_lookup l 0 ltac:(lia)) as H. rewrite Ee in H. change ([e] !! Z.to_nat 0) with (Some e) in H. congruence. }
  destruct (entries_set lw Hlw l 0 (with_lv e v) Hok ltac:(lia)) as (A & B & EA & EB). rewrite E0 in EB. rewrite Ee in EA.
  assert (A = [] /\ B = []) as [-> ->]. { apply (f_equal List.length) in EA. rewrite length_app in EA. cbn in EA. destruct A, B; cbn in EA; done || lia. }
  unfold nth_entry in E1. rewrite E0 in E1. unfold set_lv. rewrite E1. split; [|done]. split; [apply Hok|]. rewrite EB.
  destruct Hok as [_ HF]. rewrite Ee in HF. constructor; [by inversion HF|done].
Qed.
Lemma last_in (l : list Z) d : l <> [] -> List.last l d ∈ l.
Proof. induction l as [|x [|y l] IH]; [done|left|]. intros _. right. by apply IH. Qed.
Lemma outside_put_leaf t a l : outside [a] t (put_leaf a l t).
Proof.
  intros b Hb. assert (b <> a) by (intros ->; apply Hb; left). unfold same_node, same_parent. cbn.
  by rewrite lookup_insert_ne, lookup_delete_ne.
Qed.
Lemma twigs_relink t ss ads z d a : twigs t ss ads z -> ads <> [] -> NoDup ads ->
  exists l, leaves t !! List.last ads d = Some l /\ twigs (put_leaf (List.last ads d) (set_lv l 0 a) t) ss ads a.
Proof.
  revert ads. induction ss as [|s ss IH]; intros [|b [|c ads]] T Hne Hnd; try done; destruct T as [T1 T].
  - destruct ss; [|done]. cbn [List.last]. destruct T1 as (Hb & l & e & (Hl & Hok & Hp & Hn & Hr & Hpa) & E0 & Ee & Hs & Hv).
    destruct (set_first l e a Hok E0 Ee) as [Hok' Ee']. exists l. split; [done|]. split; [|done]. split; [done|].
    exists (set_lv l 0 a), (with_lv e a). split_and!; try done. unfold lone. cbn [leaves put_leaf]. rewrite lookup_insert_eq. done.
  - cbn in Hnd. apply list.NoDup_cons in Hnd as [Hb Hnd]. destruct (IH (c :: ads) T ltac:(done) Hnd) as (l & Hl & T2).
    change (List.last (b :: c :: ads) d) with (List.last (c :: ads) d). exists l. split; [done|]. split; [|exact T2].
    assert (Hbl : b ∉ [List.last (c :: ads) d]). { intros ->%list_elem_of_singleton. by apply Hb, last_in. }
    destruct T1 as (Hb0 & lb & e & Hlone & R). split; [done|]. exists lb, e. split; [|done].
    destruct (outside_put_leaf t (List.last (c :: ads) d) (set_lv l 0 a) b Hbl). by apply (lone_frame t).
Qed.
Lemma outside_make_root us t a l : outside [a] t (make_root lw us a l t).
Proof.
  intros b Hb. assert (b <> a) by (intros ->; apply Hb; left). unfold same_node, same_parent. cbn.
  by rewrite !lookup_insert_ne, !lookup_delete_ne, !fn_lookup_insert_ne.
Qed.

(** Keys of entries that are made from keys. *)
Lemma assign_key_ok mem ka k : (forall a, byte_ok (mem a)) -> key_view mem ka k -> entry_key (assign_key mem ka) k.
Proof.
  intros Hm Hv. pose proof Hv as (Ei & El & Es & Hb). unfold assign_key, has_suffix. rewrite El.
  destruct (Z.ltb_spec 8 (Z.of_nat (List.length k))) as [H8|H8].
  - destruct (suffix_bytes mem ka k Hm Hv ltac:(lia)) as [_ S2]. rewrite S2.
    assert (Ek : take 8 k ++ drop 8 k = k) by apply take_drop.
    assert (entry_key {| ikey0 := ikey ka; keylenx := ksuf_keylenx; lv := 0; ksuf := drop 8 k |} (take 8 k ++ drop 8 k)); [|by rewrite Ek in H].
    apply (key_long {| ikey0 := ikey ka; keylenx := ksuf_keylenx; lv := 0; ksuf := drop 8 k |}); cbn [keylenx ksuf ikey0]; try done.
    + rewrite length_take. lia.
    + by rewrite Ek.
    + intros E. apply (f_equal List.length) in E. rewrite length_drop in E. cbn in E. lia.
    + unfold ikey. rewrite Ei, pad_take by lia. done.
  - apply key_short; [exact El|lia|done|exact Ei].
Qed.
Lemma layer_entry_ok mem e oka ro : key_view mem oka ro -> (8 < List.length ro)%nat ->
  layer_slice (assign_initialize_for_layer e oka) (take 8 ro).
Proof.
  intros (Ei & El & _ & Hb) Hl. split_and!; [done|rewrite length_take; lia|by apply Forall_take|].
  cbn. unfold ikey. rewrite Ei, pad_take by lia. done.
Qed.
(** The comparison of two keys. *)
Lemma compare_keys_rank m1 m2 oka ka ro rn : key_view m1 oka ro -> key_view m2 ka rn ->
  let c := compare_keys 8 oka ka in
  (c < 0 <-> rank_lt (krank ro) (krank rn)) /\ (c = 0 <-> krank ro = krank rn) /\ (0 < c <-> rank_lt (krank rn) (krank ro)).
Proof.
  intros V1 (Ei & El & _).
  destruct (key_view_rank m1 oka ro V1) as [<- Ho].
  pose proof (key_compare_rank oka {| ikey0 := ikey ka; keylenx := MassKey.length ka; lv := 0; ksuf := [] |} Ho) as H.
  cbn [ikey0 keylenx] in H. unfold erank in H. cbn [ikey0 keylenx] in H. unfold compare_keys, MassKey.length, ikey in *. rewrite Ei, El in *. apply H. lia.
Qed.
Lemma krank_both ro rn : Forall byte_ok ro -> Forall byte_ok rn -> ro <> rn -> krank ro = krank rn ->
  (8 < List.length ro)%nat /\ (8 < List.length rn)%nat /\ take 8 ro = take 8 rn.
Proof.
  intros Bo Bn Hne E. apply krank_eq in E as E2; [|done..]. destruct E2 as [E1 E2].
  destruct (decide (List.length ro <= 8)%nat) as [Hl|Hl]; [by apply krank_short in E|].
  rewrite !pad_take in E1 by lia. split_and!; [lia..|done].
Qed.

Context (unaligned : bool) (smem mem : Z -> Z) (us : Z -> entry).
Context (Hsm : forall a, byte_ok (smem a)) (Hm : forall a, byte_ok (mem a)).

Definition twig_node (oka : key) : leaf :=
  {| permutation_ := make_empty lw; slot := <[0 := assign_initialize_for_layer (us 0) oka]> us; next_ := 0; prev_ := 0 |}.
Definition twig_linked (n tail a : Z) (b : bool) (t : tree) : option tree :=
  if b then upd_leaf tail (fun l => set_lv l 0 a) t else Some t.
Definition sorted_one : Z := kpermuter lw (make_sorted lw 1).
Lemma sorted_one_ok : perm_wf lw sorted_one /\ Permuter.size sorted_one = 1 /\ elem sorted_one 0 = 0.
Proof.
  destruct (make_sorted_facts lw 1 ltac:(lia) ltac:(lia)) as (W & V & _). split_and!; [done|exact (f_equal fst V)|].
  apply make_sorted_elem; lia.
Qed.
Lemma one_entry l : permutation_ l = sorted_one -> entries l = [slot l 0].
Proof.
  destruct sorted_one_ok as (_ & S & E0). intros E. unfold entries, lsize, nth_entry. rewrite E, S.
  change (seqZ 0 1) with [0]. cbn. by rewrite E0.
Qed.
Lemma twig_node_ok t a oka ro : key_view smem oka ro -> (8 < List.length ro)%nat -> a <> 0 -> is_root t a = true -> parents t a = 0 ->
  twig_leaf (put_leaf a (set_perm (twig_node oka) sorted_one) t) a (take 8 ro) (lv (us 0)).
Proof.
  intros V Hl Ha Hr Hp. set (l := set_perm (twig_node oka) sorted_one). destruct sorted_one_ok as (W & _ & E0).
  assert (El : entries l = [assign_initialize_for_layer (us 0) oka]) by by rewrite one_entry.
  split; [done|]. exists l, (assign_initialize_for_layer (us 0) oka). split_and!; [|done|done|by eapply layer_entry_ok|done].
  split; [cbn; by rewrite lookup_insert_eq|]. split_and!; try done. split; [done|]. rewrite El. by repeat constructor.
Qed.

(** One turn of the loop. *)
Lemma twig_step ss ads z t n a oka ro : twigs t ss ads z -> NoDup (ads ++ [a]) -> a <> 0 -> n ∉ ads -> key_view smem oka ro -> (8 < List.length ro)%nat ->
  exists t2, twig_linked n (List.last ads n) a (negb (hd n ads =? n)) (make_root lw us a (twig_node oka) t) = Some t2 /\
    let t3 := put_leaf a (set_perm (twig_node oka) sorted_one) t2 in
    twigs t3 (ss ++ [take 8 ro]) (ads ++ [a]) (lv (us 0)) /\ outside (ads ++ [a]) t t3.
Proof.
  intros T Hnd Ha Hn V Hl. set (t1 := make_root _ _ _ _ t). apply list.NoDup_app in Hnd as (Hnd & Hda & _).
  assert (Hna : forall b, b ∈ ads -> b ∉ [a]). { intros b Hb ->%list_elem_of_singleton. apply (Hda a Hb). left. }
  assert (T1 : twigs t1 ss ads z). { apply (twigs_frame t); [|done]. intros b Hb. apply outside_make_root. by apply Hna. }
  assert (Hr1 : is_root t1 a = true /\ parents t1 a = 0) by (cbn; by rewrite !fn_lookup_insert).
  assert (HT : exists t2, twig_linked n (List.last ads n) a (negb (hd n ads =? n)) t1 = Some t2 /\ twigs t2 ss ads a /\
    is_root t2 a = true /\ parents t2 a = 0 /\ outside ads t1 t2).
  { destruct ads as [|b ads'].
    - cbn [hd]. rewrite Z.eqb_refl. exists t1. split_and!; try done; try apply Hr1. by destruct ss.
    - cbn [hd]. destruct (Z.eqb_spec b n) as [->|_]; [exfalso; apply Hn; left|]. cbn [negb twig_linked].
      destruct (twigs_relink t1 ss (b :: ads') z n a T1 ltac:(done) Hnd) as (l & El & T2). unfold upd_leaf. rewrite El. cbn [mbind option_bind].
      eexists. split; [done|]. split; [exact T2|]. split_and!; try apply Hr1.
      eapply outside_sub; [apply outside_put_leaf|]. intros c ->%list_elem_of_singleton. by apply last_in. }
  destruct HT as (t2 & E2 & T2 & R2 & P2 & O2). exists t2. split; [done|]. cbv zeta.
  set (t3 := put_leaf a _ t2). assert (O3 : outside [a] t2 t3) by apply outside_put_leaf. split.
  - apply twigs_snoc; [|by apply twig_node_ok]. apply (twigs_frame t2); [|done]. intros b Hb. by apply O3, Hna.
  - eapply outside_trans; [eapply outside_sub; [apply outside_make_root|]|eapply outside_trans; [eapply outside_sub; [exact O2|]|eapply outside_sub; [exact O3|]]];
      intros b; rewrite elem_of_app; auto.
Qed.

Lemma twig_ok n : forall fuel ss ads z t pool oka ka ro rn, twigs t ss ads z -> NoDup (ads ++ pool) -> (forall a, a ∈ pool -> a <> 0) ->
  n ∉ ads ++ pool -> key_view smem oka ro -> key_view mem ka rn -> ro <> rn -> (List.length ro < fuel)%nat -> (List.length ro <= 8 * List.length pool)%nat ->
  (ro <> [] /\ rn <> []) ->
  exists ss' ads' pool' z' t' oka' ka' ro' rn',
    twig unaligned lw mem us fuel smem n (hd n ads) (List.last ads n) oka ka t pool =
      Some (hd n (ads ++ ads'), List.last (ads ++ ads') n, oka', ka', t', pool') /\
    pool = ads' ++ pool' /\ twigs t' (ss ++ ss') (ads ++ ads') z' /\ outside (ads ++ ads') t t' /\
    ro = concat ss' ++ ro' /\ rn = concat ss' ++ rn' /\ key_view smem oka' ro' /\ key_view mem ka' rn' /\
    ro' <> [] /\ rn' <> [] /\ krank ro' <> krank rn' /\ (8 * List.length ads' <= List.length ro)%nat.
Proof.
  induction fuel as [|fuel IH]; intros ss ads z t pool oka ka ro rn T Hnd H0 Hn Vo Vn Hne Hf Hp [No Nn]; [lia|]. cbn [twig].
  destruct (compare_keys_rank smem mem oka ka ro rn Vo Vn) as (_ & C0 & _). cbv zeta in C0.
  destruct (Z.eqb_spec (compare_keys 8 oka ka) 0) as [E|E].
  - pose proof Vo as (_ & _ & _ & Bo). pose proof Vn as (_ & _ & _ & Bn).
    destruct (krank_both ro rn Bo Bn Hne (proj1 C0 E)) as (Lo & Ln & Et). destruct pool as [|a pool]; [cbn in Hp; lia|].
    assert (Hnd1 : NoDup (ads ++ [a])). { change (a :: pool) with ([a] ++ pool) in Hnd. rewrite app_assoc in Hnd. by apply list.NoDup_app in Hnd as (? & _). }
    assert (Hn1 : n ∉ ads) by (intros ?; apply Hn, elem_of_app; by left).
    destruct (twig_step ss ads z t n a oka ro T Hnd1 (H0 a ltac:(left)) Hn1 Vo Lo) as (t2 & E2 & T3 & O3). cbv zeta in T3, O3.
    unfold twig_linked in E2. fold (twig_node oka). rewrite E2. cbn [mbind option_bind]. fold sorted_one. set (t3 := put_leaf a _ t2) in *.
    assert (Eh : (if negb (hd n ads =? n) then hd n ads else a) = hd n (ads ++ [a])).
    { destruct ads as [|b ads]; cbn; [by rewrite Z.eqb_refl|]. destruct (Z.eqb_spec b n) as [->|]; [|done]. exfalso. apply Hn1. left. }
    rewrite Eh.
    destruct (IH (ss ++ [take 8 ro]) (ads ++ [a]) _ t3 pool (shift unaligned 8 smem oka) (shift unaligned 8 mem ka) (drop 8 ro) (drop 8 rn) T3)
      as (ss' & ads' & pool' & z' & t' & oka' & ka' & ro' & rn' & Etw & Epool & T' & O' & Eo & En & Vo' & Vn' & No' & Nn' & Hk & Hlen).
    { rewrite <- app_assoc. exact Hnd. } { intros b Hb. apply H0. by right. } { rewrite <- app_assoc. exact Hn. }
    { apply shift_view; done || lia. } { apply shift_view; done || lia. }
    { intros Ed. apply Hne. rewrite <- (take_drop 8 ro), <- (take_drop 8 rn). by rewrite Et, Ed. }
    { rewrite length_drop. lia. } { rewrite length_drop. cbn in Hp. lia. }
    { split; intros Ed; apply (f_equal List.length) in Ed; rewrite length_drop in Ed; cbn in Ed; lia. }
    rewrite last_last in Etw. rewrite Etw. rewrite <- !app_assoc in *. exists (take 8 ro :: ss'), (a :: ads'), pool', z', t', oka', ka', ro', rn'. rewrite Epool in *. split_and!; try done.
    + eapply outside_trans; [eapply outside_sub; [exact O3|]|exact O']. intros b. rewrite !elem_of_app, !elem_of_cons, elem_of_nil. tauto.
    + cbn [concat]. rewrite <- app_assoc, <- Eo. by rewrite take_drop.
    + cbn [concat]. rewrite <- app_assoc, <- En, Et. by rewrite take_drop.
    + rewrite length_drop in Hlen. cbn. lia.
  - exists [], [], pool, z, t, oka, ka, ro, rn. rewrite !app_nil_r. split_and!; try done; [tauto|cbn; lia].
Qed.

(** ** The leaf at the end of the twig *)
Definition pair_perm (kcmp : Z) : Z :=
  if kcmp <? 0 then kpermuter lw (make_sorted lw 1) else remove_to_back lw (kpermuter lw (make_sorted lw 2)) 0.
Lemma pair_perm_ok kcmp : kcmp <> 0 -> perm_wf lw (pair_perm kcmp) /\ Permuter.size (pair_perm kcmp) = 1 /\
  elem (pair_perm kcmp) 0 = b2z (0 <? kcmp) /\ back lw (pair_perm kcmp) = b2z (kcmp <? 0).
Proof.
  intros Hk. pose proof (forallb_seqZ _ _ _ pair_perm_all lw ltac:(lia)) as H. cbv beta zeta in H. boolify.
  unfold pair_perm. destruct (Z.ltb_spec kcmp 0), (Z.ltb_spec 0 kcmp); try lia; cbn [b2z].
  - split_and!; try done. apply make_sorted_facts; lia.
  - split_and!; try done. destruct (make_sorted_facts lw 2 ltac:(lia) ltac:(lia)) as (W & V & _).
    apply (perm_op_step lw ltac:(lia) (OpRemoveToBack 0)); [done|]. pose proof (f_equal fst V) as S. cbn in S |- *. rewrite S. lia.
Qed.
Definition pair_leaf (kcmp old : Z) (eo ek : entry) : leaf :=
  let s := <[0 := if kcmp <? 0 then eo else ek]> us in
  let s := <[1 := if kcmp <? 0 then ek else eo]> s in
  let q := b2z (0 <? kcmp) in
  {| permutation_ := pair_perm kcmp; slot := <[q := with_lv (s q) old]> s; next_ := 0; prev_ := 0 |}.
Lemma pair_leaf_ok kcmp old eo ek v : kcmp <> 0 -> 0 <= keylenx eo -> 0 <= keylenx ek ->
  (kcmp < 0 -> entry_lt eo ek) -> (0 < kcmp -> entry_lt ek eo) ->
  let l := pair_leaf kcmp old eo ek in let i := b2z (kcmp <? 0) in let l' := visible lw l i v in
  back lw (permutation_ l) = i /\ leaf_ok lw l' /\ entries l' ≡ₚ [with_lv eo old; with_lv ek v] /\ StronglySorted entry_lt (entries l').
Proof.
  intros Hk Ho He Hlt Hgt l i l'. destruct (pair_perm_ok kcmp Hk) as (W & S & E0 & Eb).
  assert (Sl : slot l (b2z (0 <? kcmp)) = with_lv eo old /\ slot l i = ek).
  { unfold l, i, pair_leaf. cbn [slot]. destruct (Z.ltb_spec kcmp 0), (Z.ltb_spec 0 kcmp); try lia; cbn [b2z].
    - rewrite !fn_lookup_insert, (fn_lookup_insert_ne _ 0 1), fn_lookup_insert_ne, fn_lookup_insert by done. done.
    - rewrite !fn_lookup_insert, (fn_lookup_insert_ne _ 1 0), fn_lookup_insert_ne, fn_lookup_insert by done. done. }
  destruct Sl as [So Sn]. assert (El : entries l = [with_lv eo old]).
  { unfold entries. change (lsize l) with (Permuter.size (pair_perm kcmp)). rewrite S. change (seqZ 0 1) with [0]. cbn. unfold nth_entry.
    change (permutation_ l) with (pair_perm kcmp). rewrite E0. f_equal. exact So. }
  assert (Hokl : leaf_ok lw l) by (split; [done|]; rewrite El; by repeat constructor).
  assert (Hls : lsize l = 1) by exact S. assert (Hi : 0 <= i <= 1) by (unfold i; destruct (kcmp <? 0); cbn; lia).
  assert (Ebl : back lw (permutation_ l) = i) by exact Eb.
  destruct (visible_ok lw l i v ltac:(lia) Hokl ltac:(lia) ltac:(lia)) as [Hok' Hent]; [by rewrite Ebl, Sn|].
  fold l' in Hok', Hent. rewrite Ebl, Sn, El in Hent. split_and!; [done|done| |].
  - rewrite Hent, insert_at_Permutation. apply Permutation_swap.
  - rewrite Hent. unfold i. destruct (Z.ltb_spec kcmp 0); cbn; (constructor; [by repeat constructor|]); (constructor; [|constructor]).
    + by apply Hlt. + apply Hgt. lia.
Qed.
End Twig.

(** * [make_new_layer] *)
Lemma suffix_mem_bytes l : mem_bytes (suffix_mem l) 0 (Z.of_nat (List.length l)) = l.
Proof.
  unfold mem_bytes. apply list_eq. intros i. rewrite list_lookup_fmap. destruct (decide (i < List.length l)%nat) as [Hi|Hi].
  - rewrite lookup_seqZ_lt by lia. cbn. unfold suffix_mem, get. destruct (Z.ltb_spec (0 + Z.of_nat i) 0); [lia|].
    destruct (lookup_lt_is_Some_2 l i Hi) as [x Hx]. rewrite Hx. f_equal. replace (Z.to_nat (0 + Z.of_nat i)) with i by lia.
    by apply nth_lookup_Some.
  - rewrite (lookup_ge_None_2 l) by lia. rewrite lookup_seqZ_ge by lia. done.
Qed.
Lemma suffix_mem_ok l : Forall byte_ok l -> forall a, byte_ok (suffix_mem l a).
Proof.
  intros H a. unfold suffix_mem, get. destruct (a <? 0); [unfold byte_ok; lia|].
  destruct (nth_in_or_default (Z.to_nat a) l 0) as [Hin| ->]; [|unfold byte_ok; lia]. rewrite Forall_forall in H. by apply H.
Qed.

Section NewLayer.
Context (lw iw mk : Z) (Hlw : 11 <= lw <= 15) (unaligned : bool) (mem : Z -> Z) (us : Z -> entry).
Context (Hm : forall a, byte_ok (mem a)).

Lemma outside_put_cong S t t' n l : outside S t t' -> n ∉ S -> outside S (put_leaf n l t) (put_leaf n l t').
Proof.
  intros H Hn a Ha. destruct (H a Ha) as [(E1 & E2 & E3 & E4) E5]. unfold same_node, same_parent. cbn. split_and!; try done.
  - destruct (decide (n = a)) as [->|]; [by rewrite !lookup_insert_eq|by rewrite !lookup_insert_ne].
  - destruct (decide (n = a)) as [->|]; [by rewrite !lookup_delete_eq|by rewrite !lookup_delete_ne].
Qed.

(** What the two keys and the memory are after [make_new_layer] and the caller's store. *)
Record layered (t t' : tree) (n p a : Z) (l vis : leaf) (ss : list (list Z)) (ads : list Z) : Prop := {
  ly_twigs : twigs lw t' ss ads a;
  ly_lone : lone lw t' a vis;
  ly_outside : outside (ads ++ [a]) (put_leaf n (set_slot l p (as_layer (slot l p) (hd a ads))) t) t'
}.

Lemma make_new_layer_ok t n p l ka k ro v pool fuel : leaves t !! n = Some l -> ksuf (slot l p) = ro -> Forall byte_ok ro ->
  key_view mem ka k -> (8 < List.length k)%nat -> ro <> [] -> ro <> drop 8 k -> 
  NoDup (n :: pool) -> (forall a, a ∈ pool -> a <> 0) -> (List.length ro < fuel)%nat -> (List.length ro < 8 * List.length pool)%nat ->
  exists ss ads a pool' t1 kx lm ro' rn' old new,
    make_new_layer unaligned lw mem us fuel n p ka t pool = Some (t1, pool', a, kx) /\ pool = ads ++ a :: pool' /\
    leaves t1 !! a = Some lm /\ kx_p kx = back lw (permutation_ lm) /\
    ro = concat ss ++ ro' /\ drop 8 k = concat ss ++ rn' /\ ro' <> [] /\ rn' <> [] /\
    entry_key old ro' /\ entry_key new rn' /\ lv old = lv (slot l p) /\ lv new = v /\
    let vis := visible lw lm (kx_i kx) v in
    entries vis ≡ₚ [old; new] /\ StronglySorted entry_lt (entries vis) /\ layered t (put_leaf a vis t1) n p a l vis ss ads.
Proof.
  intros Hl Hro Bo Vk Hk8 No Hne Hnd H0 Hf Hp. unfold make_new_layer. rewrite Hl. cbn [mbind option_bind]. rewrite Hro.
  set (smem := suffix_mem ro). assert (Hsm : forall a, byte_ok (smem a)) by (by apply suffix_mem_ok).
  assert (Vo : key_view smem (key_str unaligned 8 smem 0 (Z.of_nat (List.length ro))) ro).
  { pose proof (key_str_view unaligned smem 0 (Z.of_nat (List.length ro)) Hsm ltac:(lia)) as V. unfold smem in V at 3. by rewrite suffix_mem_bytes in V. }
  assert (Vn : key_view mem (shift unaligned 8 mem ka) (drop 8 k)) by (apply shift_view; done || lia).
  assert (Nn : drop 8 k <> []). { intros E. apply (f_equal List.length) in E. rewrite length_drop in E. cbn in E. lia. }
  apply list.NoDup_cons in Hnd as [Hn Hnd].
  destruct (twig_ok lw Hlw unaligned smem mem us Hsm Hm n fuel [] [] 0 t pool _ _ ro (drop 8 k) I Hnd H0 Hn Vo Vn Hne Hf ltac:(lia) (conj No Nn))
    as (ss & ads & pool1 & z' & t2 & oka & ka' & ro' & rn' & Etw & -> & T2 & O2 & Eo & En & Vo' & Vn' & No' & Nn' & Hkr & Hlen).
  cbn [app hd List.last] in Etw, T2, O2. rewrite Etw. cbn [mbind option_bind].
  destruct pool1 as [|a pool']; [rewrite app_nil_r in Hp; lia|].
  destruct (compare_keys_rank smem mem oka ka' ro' rn' Vo' Vn') as (Clt & C0 & Cgt). cbv zeta in Clt, C0, Cgt.
  set (kcmp := compare_keys 8 oka ka') in *. assert (Hkc : kcmp <> 0) by (by rewrite C0).
  pose proof (assign_key_ok smem oka ro' Hsm Vo') as Ko. pose proof (assign_key_ok mem ka' rn' Hm Vn') as Kn.
  destruct (entry_key_rank _ _ Ko) as (_ & Ro & _ & Lo), (entry_key_rank _ _ Kn) as (_ & Rn & _ & Ln).
  set (eo := assign_key smem oka) in *. set (ek := assign_key mem ka') in *.
  set (lm := pair_leaf lw us kcmp (lv (slot l p)) eo ek). fold (pair_perm lw kcmp).
  change (make_root lw us a _ t2) with (make_root lw us a lm t2). set (t3 := make_root lw us a lm t2).
  destruct (pair_leaf_ok lw Hlw us kcmp (lv (slot l p)) eo ek v Hkc Lo Ln) as (Eb & Hvok & Hent & Hsrt).
  { intros H. unfold entry_lt. rewrite <- Ro, <- Rn. by apply Clt. } { intros H. unfold entry_lt. rewrite <- Ro, <- Rn. by apply Cgt. }
  fold lm in Eb, Hvok, Hent, Hsrt. set (i := b2z (kcmp <? 0)) in *. set (vis := visible lw lm i v) in *.
  apply list.NoDup_app in Hnd as (Hndads & Hda & Hnda). apply list.NoDup_cons in Hnda as [Hap _].
  assert (Hna : a ∉ ads) by (intros Ha; apply (Hda a Ha); left).
  rewrite elem_of_app, elem_of_cons in Hn. assert (Hnads : n ∉ ads) by tauto. assert (Hnea : n <> a) by tauto.
  assert (Hads1 : forall b, b ∈ ads -> b ∉ [a]) by (by intros b Hb ->%list_elem_of_singleton).
  assert (T3 : twigs lw t3 ss ads z') by (apply (twigs_frame lw t2); [intros b Hb; by apply outside_make_root, Hads1|done]).
  assert (H4 : exists t4, (if negb (List.last ads n =? n) then upd_leaf (List.last ads n) (fun l => set_lv l 0 a) t3 else Some t3) = Some t4 /\
    twigs lw t4 ss ads a /\ outside ads t3 t4 /\ leaves t4 !! a = Some lm).
  { destruct ads as [|b ads].
    - cbn [List.last]. rewrite Z.eqb_refl. exists t3. split_and!; try done; [by destruct ss|]. unfold t3. cbn. by rewrite lookup_insert_eq.
    - pose proof (last_in (b :: ads) n ltac:(done)) as Hlast. destruct (Z.eqb_spec (List.last (b :: ads) n) n) as [E|_]; [by rewrite E in Hlast|]. cbn [negb].
      destruct (twigs_relink lw Hlw t3 ss (b :: ads) z' n a T3 ltac:(done) Hndads) as (lt & El & T4). unfold upd_leaf. rewrite El. cbn [mbind option_bind].
      eexists. split; [done|]. split_and!; [done| |].
      + eapply outside_sub; [apply outside_put_leaf|]. by intros c ->%list_elem_of_singleton.
      + assert (Hal : List.last (b :: ads) n <> a) by (intros E; by rewrite E in Hlast). unfold t3. cbn [leaves put_leaf].
        rewrite lookup_insert_ne by done. cbn. by rewrite lookup_insert_eq. }
  destruct H4 as (t4 & E4 & T4 & O4 & La). rewrite E4. cbn [mbind option_bind].
  assert (O24 : outside (ads ++ [a]) t t4).
  { eapply outside_trans; [eapply outside_sub; [exact O2|]|eapply outside_trans; [eapply outside_sub; [apply outside_make_root|]|eapply outside_sub; [exact O4|]]];
      intros b; rewrite elem_of_app; auto. }
  assert (Hnn : n ∉ ads ++ [a]) by (rewrite elem_of_app, elem_of_cons, elem_of_nil; tauto).
  destruct (O24 n Hnn) as [(Ln4 & _) _]. unfold upd_leaf. rewrite Ln4, Hl. cbn [mbind option_bind].
  assert (Eh : (if negb (hd n ads =? n) then hd n ads else a) = hd a ads).
  { destruct ads as [|b ads]; cbn; [by rewrite Z.eqb_refl|]. destruct (Z.eqb_spec b n) as [->|]; [|done]. exfalso. apply Hnads. left. }
  rewrite Eh. set (l1 := set_slot l p _).
  do 11 eexists. split; [reflexivity|]. split; [reflexivity|]. split; [cbn; rewrite lookup_insert_ne by done; exact La|].
  split; [cbn [kx_p]; symmetry; exact Eb|]. split; [exact Eo|]. split; [exact En|]. do 2 (split; [done|]).
  split; [by apply with_lv_key|]. split; [by apply with_lv_key|]. split; [reflexivity|]. split; [reflexivity|].
  cbn [kx_i]. fold vis. split; [exact Hent|]. split; [done|].
  assert (Hfr : forall b, b ∈ ads -> same_node t4 (put_leaf a vis (put_leaf n l1 t4)) b /\ same_parent t4 (put_leaf a vis (put_leaf n l1 t4)) b).
  { intros b Hb. apply (outside_trans [a; n] _ (put_leaf n l1 t4)).
    - eapply outside_sub; [apply outside_put_leaf|]. intros c ->%list_elem_of_singleton. right. left.
    - eapply outside_sub; [apply outside_put_leaf|]. intros c ->%list_elem_of_singleton. left.
    - rewrite !elem_of_cons, elem_of_nil. intros [->|[->|[]]]; done. }
  split.
  - by apply (twigs_frame lw t4).
  - split; [cbn; by rewrite lookup_insert_eq|]. split_and!; try done. all: unfold put_leaf; cbn [is_root parents].
    all: assert (Hra : is_root t4 a = true /\ parents t4 a = 0); [|tauto].
    all: destruct (O4 a Hna) as [(_ & _ & _ & ->) ->]; unfold t3; cbn; by rewrite !fn_lookup_insert.
  - eapply outside_trans; [by apply outside_put_cong|]. eapply outside_sub; [apply outside_put_leaf|]. intros b Hb. apply elem_of_app. by right.
Qed.

(** The family and the nodes an operation may touch. *)
Definition grown (t t' : tree) (G G' : gmap (list Z) glayer) (used : list Z) : Prop :=
  (forall b, held G' b -> held G b \/ b ∈ used) /\
  (forall b, ~ held G b -> b ∉ used -> same_node t t' b /\ same_parent t t' b).

Lemma deep_nodes_nz t ss ads z a : twigs lw t ss ads z -> a ∈ ads -> a <> 0.
Proof.
  revert ads. induction ss as [|s ss IH]; intros [|b ads] T Ha; try done; [by apply elem_of_nil in Ha|].
  destruct T as [[Hb _] T]. apply elem_of_cons in Ha as [->|Ha]; [done|by apply (IH ads)].
Qed.

(** A conflict is between two long keys with one slice. *)
Lemma conflict_long e k0 k : entry_key e k0 -> erank e = krank k -> Forall byte_ok k -> k0 <> k ->
  exists s, k0 = s ++ ksuf e /\ keylenx e = ksuf_keylenx /\ List.length s = 8%nat /\ Forall byte_ok (s ++ ksuf e) /\ ksuf e <> [] /\
    ikey0 e = be_value s /\ k = s ++ drop 8 k /\ (8 < List.length k)%nat.
Proof.
  intros H Hr Bk Hne. destruct (entry_key_rank _ _ H) as (Bk0 & R0 & _). destruct H as [e k0 E0 L0 B0 I0|e s E0 L0 B0 N0 I0].
  - exfalso. apply Hne. apply krank_short; [done..|]. by rewrite R0.
  - destruct (krank_long s (ksuf e) k L0 N0 B0 Bk) as [Ek Hk8]; [by rewrite R0|]. by exists s.
Qed.
Lemma inv_new_layer t root G p g C n l j ka k k0 v pool fuel : inv lw iw mk t root G -> G !! p = Some g -> at_leaf lw iw t p g C n l ->
  Z.of_nat (List.length (p ++ k)) <= mk -> 0 <= j < lsize l -> entry_key (nth_entry l j) k0 -> key_view mem ka k -> erank (nth_entry l j) = krank k -> k0 <> k ->
  NoDup pool -> (forall a, a ∈ pool -> a <> 0 /\ ~ held G a) -> (List.length k0 < fuel)%nat -> (List.length k0 < 8 * List.length pool)%nat ->
  exists t1 pool' used a kx lm G', make_new_layer unaligned lw mem us fuel n (elem (permutation_ l) j) ka t pool = Some (t1, pool', a, kx) /\
    pool = used ++ pool' /\ leaves t1 !! a = Some lm /\ kx_p kx = back lw (permutation_ lm) /\
    let t' := put_leaf a (visible lw lm (kx_i kx) v) t1 in
    inv lw iw mk t' root G' /\ stored G G' (p ++ k) v /\ grown t t' G G' used.
Proof.
  intros I Hg A Hmk Hj Hk0 Vk Hr Hne Hnd Hpool Hf Hp. pose proof (nth_in _ _ _ _ _ _ _ _ _ A Hj) as Hin. pose proof Vk as (_ & _ & _ & Bk).
  pose proof (al_layer _ _ _ _ _ _ _ _ A) as L. set (e0 := nth_entry l j) in *. destruct (entry_key_rank _ _ Hk0) as (Bk0 & R0 & _).
  assert (Hnb : p <> [] -> k <> []).
  { intros Hpn ->. apply (lo_nonempty _ _ _ _ _ L Hpn e0 Hin). injection Hr as _ Hr. cbn in Hr. pose proof (nth_len _ _ _ _ _ _ _ _ _ A Hj). fold e0 in H. lia. }
  destruct (conflict_long e0 k0 k Hk0 Hr Bk Hne) as (s & -> & E0 & L0 & B0 & N0 & I0 & Ek & Hk8).
  apply Forall_app in B0 as [Bs Bo].
  assert (Hnh : held G n). { exists p, g. split; [done|]. rewrite (at_leaf_addrs _ _ _ _ _ _ _ _ A). left. }
  assert (Hnd' : NoDup (n :: pool)) by (apply list.NoDup_cons; split; [intros Hn; by apply (Hpool n Hn)|done]).
  rewrite length_app in Hf, Hp.
  destruct (make_new_layer_ok t n (elem (permutation_ l) j) l ka k (ksuf e0) v pool fuel (al_leaf _ _ _ _ _ _ _ _ A) eq_refl Bo Vk Hk8 N0)
    as (ss & ads & a & pool' & t1 & kx & lm & ro' & rn' & old & new & Emk & Epool & Hlm & Hkx & Eo & En & No' & Nn' & Kold & Knew & Lold & Lnew & H); try done; try lia.
  { intros E. apply Hne. rewrite Ek. by rewrite E. } { intros b Hb. by apply Hpool. }
  set (vis := visible lw lm (kx_i kx) v) in *. destruct H as (Hent & Hsrt & [HT HL HO]). set (t' := put_leaf a vis t1) in *.
  exists t1, pool', (ads ++ [a]), a, kx, lm. assert (Epool2 : pool = (ads ++ [a]) ++ pool') by (by rewrite <- app_assoc).
  assert (Hused : forall b, b ∈ ads ++ [a] -> b <> 0 /\ ~ held G b) by (intros b Hb; apply Hpool; rewrite Epool2; apply elem_of_app; by left).
  rewrite Epool2 in Hnd. apply list.NoDup_app in Hnd as (Hnd & _).
  set (e1 := as_layer (slot l (elem (permutation_ l) j)) (hd a ads)) in *.
  assert (Hs1 : layer_slice e1 s) by done.
  assert (Er1 : erank e1 = erank e0). { unfold erank. cbn. fold (nth_entry l j). fold e0. rewrite E0. done. }
  destruct (lo_length _ _ _ _ _ L) as [m Hmp].
  assert (Hbp : Forall byte_ok (p ++ s)) by (apply Forall_app; split; [apply L|done]).
  assert (Lvis : layer_ok lw iw t' ((p ++ s) ++ concat ss) (leaf_layer a vis)).
  { apply lone_layer; [done|apply Hused, elem_of_app; right; left|done| | |].
    - intros e. rewrite Hent, elem_of_cons, list_elem_of_singleton. assert (HNE : forall x kk, entry_key x kk -> kk <> [] -> entry_ok x /\ keylenx x <> 0).
      { intros x kk Hx Hkk. split; [left; by exists kk|]. destruct Hx as [x kk Ex _ _ _|x s' Ex]; rewrite Ex; [|done]. destruct kk; [done|cbn; lia]. }
      intros [->| ->]; [by apply (HNE old ro')|by apply (HNE new rn')].
    - apply Forall_app. split; [done|]. rewrite Eo in Bo. by apply Forall_app in Bo as [? _].
    - assert (Hcs : exists m', List.length (concat ss) = (8 * m')%nat); [|destruct Hcs as [m' Hm']; exists (m + 1 + m')%nat; rewrite !length_app; lia].
      clear -HT. revert ads HT. induction ss as [|s0 ss IH]; intros [|b ads] T; try done; [by exists 0%nat|]. cbn in T.
      destruct T as [(_ & lb & e & _ & _ & _ & (_ & Ls0 & _) & _) T]. destruct (IH ads T) as [m' Hm']. exists (S m'). cbn [concat]. rewrite length_app. lia. }
  destruct (deep_twigs lw iw t' ss (p ++ s) ads a vis HT Lvis Hnd) as (H & D & HS & HB); [|done|exists (S m); rewrite length_app; lia|].
  { intros e s'. rewrite Hent, elem_of_cons, list_elem_of_singleton. intros [->| ->] Hs'; [by apply (layer_not_key old s' ro')|by apply (layer_not_key new s' rn')]. }
  destruct (inv_graft lw iw mk Hlw t t' root G p g C n l j e1 s H (ads ++ [a]) (s ++ ksuf e0) I Hg A Hj Hk0 Hs1 Er1 HO D) as (G' & R & I' & HH & HB0 & HB1);
    [intros b Hb; by apply Hused| |].
  { intros x gx Hx. apply HS in Hx. rewrite Ek, En in Hmk. rewrite !length_app in Hx, Hmk. destruct rn'; [done|]. rewrite length_app in Hmk. cbn [List.length] in Hmk. lia. }
  exists G'. cbv zeta. fold vis t'. split_and!; try done.
  - assert (Hnob : forall v', ~ bound G (p ++ k) v').
    { intros v' Hb. destruct (layer_decides lw iw mk t root G p g k e0 I Hg Bk Hnb Hin Hr) as [(k1 & Hk1 & HX)|(s' & _ & Hs' & _)].
      - destruct (proj1 (HX v') Hb) as [Eb _]. apply Hne. by rewrite (entry_key_inj _ _ _ Hk0 Hk1).
      - by apply (layer_not_key e0 s' (s ++ ksuf e0)). }
    intros k' v'. rewrite HB1, HB. rewrite Hent, !at_layer_cons. pose proof (Hnob v') as Hv'. rewrite HB0 in Hv'. fold e0 in HB0, Lold, Hv'.
    assert (E1 : (exists k1, entry_key old k1 /\ k' = ((p ++ s) ++ concat ss) ++ k1 /\ lv old = v') <-> k' = p ++ s ++ ksuf e0 /\ v' = lv e0).
    { rewrite Lold. split; [intros (k1 & K1 & -> & <-)|intros [-> ->]; exists ro'].
      - rewrite (entry_key_inj _ _ _ K1 Kold), Eo. by rewrite <- !app_assoc.
      - rewrite Eo at 1. by rewrite <- !app_assoc. }
    assert (E2 : (exists k1, entry_key new k1 /\ k' = ((p ++ s) ++ concat ss) ++ k1 /\ lv new = v') <-> k' = p ++ k /\ v' = v).
    { rewrite Lnew. split; [intros (k1 & K1 & -> & <-)|intros [-> ->]; exists rn'].
      - rewrite (entry_key_inj _ _ _ K1 Knew), Ek, En. by rewrite <- !app_assoc.
      - rewrite Ek, En at 1. by rewrite <- !app_assoc. }
    assert (E3 : ~ at_layer ((p ++ s) ++ concat ss) [] k' v') by (intros (x & _ & Hx & _); by apply elem_of_nil in Hx).
    rewrite E1, E2, HB0. destruct (decide (k' = p ++ k)) as [->|Hkk]; [|tauto]. tauto.
  - split; [done|]. intros b Hb Hbu. destruct (HO b Hbu) as [(F1 & F2 & F3 & F4) F5]. unfold same_node, same_parent in *.
    cbn [put_leaf leaves inodes parents is_root heights] in F1, F2, F3, F4, F5.
    rewrite lookup_insert_ne in F1 by (by intros ->). rewrite lookup_delete_ne in F2 by (by intros ->). done.
Qed.
End NewLayer.
