(* ===== verification/TreeMono.v ===== *)
(** More fuel and more free addresses do not change the results of the tree's operations. *)
From S2P Require Import Prelude StringSlice Permuter KSearch Internode LeafSplit MassKey Tree TreeOps TreeRemove TreeScan.

(** Cases on the steps of an option computation that returned. *)
Ltac bind_some H := lazymatch type of H with
  | (?o ≫= _) = Some _ => let x := fresh "x" in let E := fresh "E" in destruct o as [x|] eqn:E; [cbn [mbind option_bind] in H |- *|discriminate H]
  end.

Section Lookup.
Context (bnd : key_bound_type) (unaligned : bool) (mem : Z -> Z).

Lemma true_root_mono t f f' n r : true_root t f n = Some r -> (f <= f')%nat -> true_root t f' n = Some r.
Proof.
  revert f' n. induction f as [|f IH]; intros [|f'] n H Hf; try done; [lia|]. cbn in *. destruct (is_root t n); [done|]. apply IH; [done|lia].
Qed.
Lemma descend_mono t ka f f' n r : descend bnd t f ka n = Some r -> (f <= f')%nat -> descend bnd t f' ka n = Some r.
Proof.
  revert f' n. induction f as [|f IH]; intros [|f'] n H Hf; try done; [lia|]. cbn in *. destruct (leaves t !! n); [done|].
  bind_some H. bind_some H. destruct (child_ _ _ =? 0); [done|]. apply IH; [done|lia].
Qed.
Lemma reach_leaf_mono t ka f f' n r : reach_leaf bnd t f ka n = Some r -> (f <= f')%nat -> reach_leaf bnd t f' ka n = Some r.
Proof.
  unfold reach_leaf. intros H Hf. bind_some H. rewrite (true_root_mono t f f' n _ E Hf). cbn [mbind option_bind]. by eapply descend_mono.
Qed.
Lemma find_unlocked_mono t f f' ka n r : find_unlocked bnd unaligned mem t f ka n = Some r -> (f <= f')%nat ->
  find_unlocked bnd unaligned mem t f' ka n = Some r.
Proof.
  revert f' ka n. induction f as [|f IH]; intros [|f'] ka n H Hf; try done; [lia|]. cbn [find_unlocked] in *.
  bind_some H. rewrite (reach_leaf_mono _ _ _ _ _ _ E Hf). cbn [mbind option_bind]. bind_some H. bind_some H.
  destruct (if 0 <=? kx_p _ then _ else _) as [m v]. destruct (m <? 0); [|done]. apply IH; [done|lia].
Qed.
Lemma get_value_mono t f f' n s len r : get_value bnd unaligned mem t f n s len = Some r -> (f <= f')%nat ->
  get_value bnd unaligned mem t f' n s len = Some r.
Proof. unfold get_value. intros H Hf. bind_some H. by rewrite (find_unlocked_mono _ _ _ _ _ _ E Hf). Qed.
End Lookup.

Section Ops.
Context (bnd : key_bound_type) (unaligned : bool) (lw iw : Z) (mem : Z -> Z) (us : Z -> entry) (un : internode).

Lemma find_locked_mono f f' ka n t r : find_locked bnd unaligned mem f ka n t = Some r -> (f <= f')%nat ->
  find_locked bnd unaligned mem f' ka n t = Some r.
Proof.
  revert f' ka n t. induction f as [|f IH]; intros [|f'] ka n t H Hf; try done; [lia|]. cbn [find_locked] in *.
  bind_some H. rewrite (reach_leaf_mono _ _ _ _ _ _ _ E Hf). cbn [mbind option_bind]. bind_some H. bind_some H.
  destruct (0 <=? kx_p _); [|done]. cbv zeta in *. destruct (_ <? 0); [|done]. destruct (is_root t _); (apply IH; [done|lia]).
Qed.
Lemma twig_mono f f' smem n h tl oka ka t pool x h' tl' oka' ka' t' pool' :
  twig unaligned lw mem us f smem n h tl oka ka t pool = Some (h', tl', oka', ka', t', pool') -> (f <= f')%nat ->
  twig unaligned lw mem us f' smem n h tl oka ka t (pool ++ x) = Some (h', tl', oka', ka', t', pool' ++ x).
Proof.
  revert f' h tl oka ka t pool. induction f as [|f IH]; intros [|f'] h tl oka ka t pool H Hf; try done; [lia|]. cbn [twig] in *.
  destruct (compare_keys 8 oka ka =? 0).
  - destruct pool as [|a pool]; [done|]. cbn [app]. bind_some H. cbn [mbind option_bind]. apply IH; [done|lia].
  - by injection H as <- <- <- <- <- <-.
Qed.
Lemma make_new_layer_mono f f' n p ka t pool x t' pool' a kx :
  make_new_layer unaligned lw mem us f n p ka t pool = Some (t', pool', a, kx) -> (f <= f')%nat ->
  make_new_layer unaligned lw mem us f' n p ka t (pool ++ x) = Some (t', pool' ++ x, a, kx).
Proof.
  unfold make_new_layer. intros H Hf. bind_some H. cbn [mbind option_bind]. bind_some H. destruct x1 as [[[[[h' tl'] oka'] ka'] t1] pool1].
  rewrite (twig_mono _ _ _ _ _ _ _ _ _ _ x _ _ _ _ _ _ E0 Hf). cbn [mbind option_bind]. destruct pool1 as [|b pool1]; [done|]. cbn [app].
  bind_some H. cbn [mbind option_bind]. bind_some H. cbn [mbind option_bind]. by injection H as <- <- <- <-.
Qed.
Lemma insert_up_more t pool x n child xikey st h t' pool' next : insert_up bnd iw un t pool n child xikey st h = Some (t', pool', next) ->
  insert_up bnd iw un t (pool ++ x) n child xikey st h = Some (t', pool' ++ x, next).
Proof.
  unfold insert_up. destruct (parents t n =? 0).
  - destruct pool as [|a pool]; [done|]. cbn [app]. destruct (new_parent _ _ _ _ _ _ _ _ _) as [[? ?] ?]. by intros [= <- <- <-].
  - intros H. bind_some H. cbn [mbind option_bind]. bind_some H. cbn [mbind option_bind]. destruct (h + 1 <? _).
    + destruct pool as [|a pool]; [done|]. cbn [app]. destruct (new_parent _ _ _ _ _ _ _ _ _) as [[? ?] ?]. by injection H as <- <- <-.
    + destruct (iw <=? _).
      * destruct pool as [|a pool]; [done|]. cbn [app]. destruct (insert_child _ _ _ _ _ _ _ _ _ _) as [[? [[? ?]|]] ?]; [|done]. by injection H as <- <- <-.
      * destruct (insert_child _ _ _ _ _ _ _ _ _ _) as [[? [[? ?]|]] ?]; [done|]. by injection H as <- <- <-.
Qed.
Lemma split_loop_mono f f' t pool x n child xikey st h ka cur t' pool' cur' :
  split_loop bnd lw iw un f t pool n child xikey st h ka cur = Some (t', pool', cur') -> (f <= f')%nat ->
  split_loop bnd lw iw un f' t (pool ++ x) n child xikey st h ka cur = Some (t', pool' ++ x, cur').
Proof.
  revert f' t pool n child xikey h cur. induction f as [|f IH]; intros [|f'] t pool n child xikey h cur H Hf; try done; [lia|]. cbn [split_loop] in *.
  bind_some H. destruct x0 as [[t1 pool1] next]. rewrite (insert_up_more _ _ x _ _ _ _ _ _ _ _ E). cbn [mbind option_bind]. bind_some H.
  destruct x0 as [t2 cur2]. cbn [mbind option_bind]. destruct next as [[nc xk]|]; [apply IH; [done|lia]|]. by injection H as <- <- <-.
Qed.
Lemma make_split_mono f f' n i ka t pool x t' pool' cur :
  make_split bnd lw iw us un f n i ka t pool = Some (t', pool', cur) -> (f <= f')%nat ->
  make_split bnd lw iw us un f' n i ka t (pool ++ x) = Some (t', pool' ++ x, cur).
Proof.
  unfold make_split. intros H Hf. bind_some H. cbn [mbind option_bind]. destruct (make_split_reuse lw x0) as [[l p]|]; [by injection H as <- <- <-|].
  destruct pool as [|a pool]; [done|]. cbn [app]. bind_some H. cbn [mbind option_bind]. bind_some H. destruct x2 as [[[l r] xk] st]. cbn [mbind option_bind].
  bind_some H. cbn [mbind option_bind]. by eapply split_loop_mono.
Qed.
Lemma place_key_mono f f' n i ka t pool x t' pool' cur :
  place_key bnd lw iw mem us un f n i ka t pool = Some (t', pool', cur) -> (f <= f')%nat ->
  place_key bnd lw iw mem us un f' n i ka t (pool ++ x) = Some (t', pool' ++ x, cur).
Proof.
  unfold place_key. intros H Hf. bind_some H. cbn [mbind option_bind]. destruct (_ && _); [by injection H as <- <- <-|by eapply make_split_mono].
Qed.
Lemma find_insert_mono f f' ka n t pool x t' pool' m kx st :
  find_insert bnd unaligned lw iw mem us un f ka n t pool = Some (t', pool', m, kx, st) -> (f <= f')%nat ->
  find_insert bnd unaligned lw iw mem us un f' ka n t (pool ++ x) = Some (t', pool' ++ x, m, kx, st).
Proof.
  unfold find_insert. intros H Hf. bind_some H. destruct x0 as [[[[t1 n1] kx1] st1] ka1]. rewrite (find_locked_mono _ _ _ _ _ _ E Hf). cbn [mbind option_bind].
  destruct (negb (st1 =? 0)); [by injection H as <- <- <- <- <-|]. destruct (0 <=? kx_p kx1).
  - bind_some H. destruct x0 as [[[t2 pool2] n2] kx2]. rewrite (make_new_layer_mono _ _ _ _ _ _ _ x _ _ _ _ E0 Hf). cbn [mbind option_bind].
    by injection H as <- <- <- <- <-.
  - bind_some H. destruct x0 as [[t2 pool2] [n2 kx2]]. rewrite (place_key_mono _ _ _ _ _ _ _ x _ _ _ E0 Hf). cbn [mbind option_bind].
    by injection H as <- <- <- <- <-.
Qed.
Lemma put_mono f f' root s len v t pool x t' pool' root' found :
  put bnd unaligned lw iw mem us un f root s len v t pool = Some (t', pool', root', found) -> (f <= f')%nat ->
  put bnd unaligned lw iw mem us un f' root s len v t (pool ++ x) = Some (t', pool' ++ x, root', found).
Proof.
  unfold put. intros H Hf. bind_some H. destruct x0 as [[[[t1 pool1] n1] kx1] st1]. rewrite (find_insert_mono _ _ _ _ _ _ x _ _ _ _ _ E Hf). cbn [mbind option_bind].
  bind_some H. cbn [mbind option_bind]. destruct (st1 =? 2); [|by injection H as <- <- <- <-]. bind_some H. cbn [mbind option_bind]. bind_some H. cbn [mbind option_bind].
  by injection H as <- <- <- <-.
Qed.

(** ** Removal *)
Lemma redirect_mono f f' n ik y t r : redirect bnd f n ik y t = Some r -> (f <= f')%nat -> redirect bnd f' n ik y t = Some r.
Proof.
  revert f' n t. induction f as [|f IH]; intros [|f'] n t H Hf; try done; [lia|]. cbn [redirect] in *. bind_some H. bind_some H.
  destruct (_ || _); [|done]. apply IH; [done|lia].
Qed.
Lemma remove_turn_mono f f' n c ik t r : remove_turn bnd f n c ik t = Some r -> (f <= f')%nat -> remove_turn bnd f' n c ik t = Some r.
Proof.
  unfold remove_turn. intros H Hf. bind_some H. bind_some H. destruct ((_ <=? 1) && _ && _); [|done].
  bind_some H. bind_some E1. rewrite (redirect_mono _ _ _ _ _ _ _ E2 Hf). cbn [mbind option_bind]. injection E1 as <-. exact H.
Qed.
Lemma remove_loop_mono f f' n c ik t r : remove_loop bnd f n c ik t = Some r -> (f <= f')%nat -> remove_loop bnd f' n c ik t = Some r.
Proof.
  revert f' n c ik t r. induction f as [|f IH]; intros [|f'] n c ik t r H Hf; try done; [lia|]. cbn [remove_loop] in *. bind_some H.
  rewrite (remove_turn_mono _ _ _ _ _ _ _ E Hf). cbn [mbind option_bind]. destruct x as [[t1 ik1] [[p c1]|]]; [|done].
  bind_some H. by rewrite (IH f' _ _ _ _ _ E0 ltac:(lia)).
Qed.
Lemma finish_remove_mono f f' n i root prefix t r : finish_remove bnd lw f n i root prefix t = Some r -> (f <= f')%nat ->
  finish_remove bnd lw f' n i root prefix t = Some r.
Proof.
  unfold finish_remove, remove_leaf. intros H Hf. bind_some H. destruct (lsize _ =? 0); [|done]. bind_some H. destruct (prev_ _ =? 0); [done|].
  bind_some H. bind_some H. by rewrite (remove_loop_mono _ _ _ _ _ _ _ E2 Hf).
Qed.
Lemma remove_key_mono f f' root s len t r : remove_key bnd unaligned lw mem f root s len t = Some r -> (f <= f')%nat ->
  remove_key bnd unaligned lw mem f' root s len t = Some r.
Proof.
  unfold remove_key. intros H Hf. bind_some H. rewrite (find_locked_mono _ _ _ _ _ _ E Hf). cbn [mbind option_bind].
  destruct x as [[[[t1 n] kx] st] ka]. destruct (st =? 1); [|done]. bind_some H. bind_some H. by rewrite (finish_remove_mono _ _ _ _ _ _ _ _ E1 Hf).
Qed.
End Ops.

(** ** Scans *)
Lemma stable_reverse_mono t f f' n k r : stable_reverse t f n k = Some r -> (f <= f')%nat -> stable_reverse t f' n k = Some r.
Proof.
  revert f' n. induction f as [|f IH]; intros [|f'] n H Hf; try done; [lia|]. cbn [stable_reverse] in *. bind_some H. destruct (next_ _ =? 0); [done|].
  bind_some H. cbv zeta in *. destruct (_ || _); [done|]. apply IH; [done|lia].
Qed.

Section Scans.
Context (bnd : key_bound_type) (unaligned : bool) (mk keybuf : Z) (t : tree) {H : Type} `{!scan_helper H}.
Context (Hst : forall (h : H) f f' n k r, stable h f n k = Some r -> (f <= f')%nat -> stable h f' n k = Some r).
Lemma enter_leaf_mono f f' n (c : cursor H) r : enter_leaf t f n c = Some r -> (f <= f')%nat -> enter_leaf t f' n c = Some r.
Proof. unfold enter_leaf. intros E Hf. bind_some E. by rewrite (Hst _ _ _ _ _ _ E0 Hf). Qed.
Lemma find_initial_mono f f' e (c : cursor H) r : find_initial bnd mk keybuf t f e c = Some r -> (f <= f')%nat -> find_initial bnd mk keybuf t f' e c = Some r.
Proof. unfold find_initial. intros E Hf. bind_some E. by rewrite (reach_leaf_mono _ _ _ _ _ _ _ E0 Hf). Qed.
Lemma find_retry_mono f f' (c : cursor H) r : find_retry bnd t f c = Some r -> (f <= f')%nat -> find_retry bnd t f' c = Some r.
Proof. unfold find_retry. intros E Hf. bind_some E. by rewrite (reach_leaf_mono _ _ _ _ _ _ _ E0 Hf). Qed.
Lemma find_next_mono f f' (c : cursor H) r : find_next mk keybuf t f c = Some r -> (f <= f')%nat -> find_next mk keybuf t f' c = Some r.
Proof.
  revert f' c. induction f as [|f IH]; intros [|f'] c E Hf; try done; [lia|]. cbn [find_next] in *. bind_some E. destruct (0 <=? scan_kp _).
  - bind_some E. destruct x0 as [keylen buf]. destruct (is_duplicate _ _ _ _); [apply IH; [done|lia]|done].
  - bind_some E. destruct x0 as [[n k] buf]. destruct (n =? 0); [done|]. bind_some E. by rewrite (enter_leaf_mono f f' _ _ _ E2) by lia.
Qed.
Lemma climb_up_mono f f' (c : cursor H) r : climb_up unaligned f c = Some r -> (f <= f')%nat -> climb_up unaligned f' c = Some r.
Proof.
  revert f' c. induction f as [|f IH]; intros [|f'] c E Hf; try done; [lia|]. cbn [climb_up] in *. destruct (node_stack_ _); [done|]. bind_some E.
  destruct (empty _); [apply IH; [done|lia]|done].
Qed.
Context {A : Type} (F : scanner A).
Lemma next_case_mono f f' (c : cursor H) (a : A) r : next_case mk keybuf t F f c a = Some r -> (f <= f')%nat -> next_case mk keybuf t F f' c a = Some r.
Proof. unfold next_case. intros E Hf. bind_some E. by rewrite (find_next_mono _ _ _ _ E0 Hf). Qed.
Lemma scan_loop_mono f f' st (c : cursor H) n a r : scan_loop bnd unaligned mk keybuf t F f st c n a = Some r -> (f <= f')%nat ->
  scan_loop bnd unaligned mk keybuf t F f' st c n a = Some r.
Proof.
  revert f' st c n a. induction f as [|f IH]; intros [|f'] st c n a E Hf; try done; [lia|]. assert (Hf' : (f <= f')%nat) by lia. cbn [scan_loop] in *. destruct st.
  - destruct (visit_value F _ _ a) as [a' go]. destruct go; [|done]. bind_some E. destruct x as [st c1]. rewrite (find_next_mono _ _ _ _ E0 Hf'). by apply IH.
  - bind_some E. destruct x as [[st c1] a1]. rewrite (next_case_mono _ _ _ _ _ E0 Hf'). by apply IH.
  - destruct (helper_shift_clear _ _) as [k h]. bind_some E. destruct x as [st c1]. rewrite (find_retry_mono _ _ _ _ E0 Hf'). by apply IH.
  - bind_some E. rewrite (climb_up_mono _ _ _ _ E0 Hf'). cbn [mbind option_bind]. destruct x as [c1|]; [|done]. bind_some E.
    rewrite (enter_leaf_mono _ _ _ _ _ E1 Hf'). cbn [mbind option_bind]. bind_some E. destruct x0 as [[st c2] a1]. rewrite (next_case_mono _ _ _ _ _ E2 Hf'). by apply IH.
  - bind_some E. destruct x as [st c1]. rewrite (find_retry_mono _ _ _ _ E0 Hf'). by apply IH.
Qed.
Lemma initial_loop_mono f f' e (c : cursor H) a r : initial_loop bnd unaligned mk keybuf t F f e c a = Some r -> (f <= f')%nat ->
  initial_loop bnd unaligned mk keybuf t F f' e c a = Some r.
Proof.
  revert f' c a. induction f as [|f IH]; intros [|f'] c a E Hf; try done; [lia|]. cbn [initial_loop] in *. bind_some E. destruct x as [st c1].
  rewrite (find_initial_mono _ _ _ _ _ E0 Hf). cbn [mbind option_bind]. destruct st; try done. apply IH; [done|lia].
Qed.
Lemma scan_with_mono f f' h root mem s len e a r : scan_with bnd unaligned mk keybuf t F h f root mem s len e a = Some r -> (f <= f')%nat ->
  scan_with bnd unaligned mk keybuf t F h f' root mem s len e a = Some r.
Proof.
  unfold scan_with. intros E Hf. destruct (len <=? _); [|done]. bind_some E. bind_some E. destruct x0 as [[st c] a1].
  rewrite (initial_loop_mono _ _ _ _ _ _ E1 Hf). cbn [mbind option_bind]. by eapply scan_loop_mono.
Qed.
End Scans.
Lemma run_scan_mono marker bnd unaligned mk keybuf t f f' root mem s len n r : run_scan marker bnd unaligned mk keybuf t f root mem s len n = Some r -> (f <= f')%nat ->
  run_scan marker bnd unaligned mk keybuf t f' root mem s len n = Some r.
Proof.
  unfold run_scan, scan. intros E Hf. bind_some E. destruct x as [count a].
  rewrite (scan_with_mono bnd unaligned mk keybuf t (H := unit) (scan_helper0 := forward_scan_helper bnd t) (fun _ _ _ _ _ _ E _ => E) _ f f' _ _ _ _ _ _ _ _ E0 Hf). exact E.
Qed.
