(* ===== verification/TreePut.v ===== *)
(** Insertion into the tree: the search through the layers, with stale pointers redirected,
    and [put] as an update of the map the tree stands for. *)
From Stdlib Require Import Sorted.
From S2P Require Import Prelude StringSlice Permuter KSearch Internode LeafSplit MassKey Tree TreeShape TreeMap TreeOps TreeInsert TreeSplit TreeLayer TreeGrow TreeTwig.

(** [make_empty] fits the word. *)
Lemma empty_perm_all : forallb (fun w => kpermuter w (make_empty w) =? make_empty w) (seqZ 11 5) = true.
Proof. by vm_compute. Qed.

Section Put.
Context (bnd : key_bound_type) (unaligned : bool) (lw iw mk : Z) (mem : Z -> Z) (us : Z -> entry) (un : internode).
Context (Hlw : 11 <= lw <= 15) (Hiw : 1 <= iw) (Hm : forall a, byte_ok (mem a)).
Abbreviation inv := (inv lw iw mk).
Abbreviation at_leaf := (at_leaf lw iw).

Lemma grown_refl t G : grown t t G G [].
Proof. split; [by left|done]. Qed.
Lemma grown_trans t1 t2 t3 G1 G2 G3 used : grown t1 t2 G1 G2 [] -> grown t2 t3 G2 G3 used -> grown t1 t3 G1 G3 used.
Proof.
  intros [A1 A2] [B1 B2]. split.
  - intros b [Hb|Hb]%B1; [|by right]. apply A1 in Hb as [Hb|Hb]; [by left|by apply elem_of_nil in Hb].
  - intros b Hb Hu. destruct (A2 b Hb) as [(E1 & E2 & E3 & E4) E5]; [apply not_elem_of_nil|].
    destruct (B2 b) as [(F1 & F2 & F3 & F4) F5]; [|done|unfold same_node, same_parent in *; split_and!; congruence].
    intros Hb'. apply A1 in Hb' as [?|Hb']; [done|by apply elem_of_nil in Hb'].
Qed.

(** Where [find_locked] ends: the key's place in its leaf, and what is there. *)
Record located (C : list frame) (l : leaf) (kx : key_indexed_position) (state : Z) (ka : key) (k : list Z) : Prop := {
  lc_pre : Forall (tok_below (ikey ka)) (pre C);
  lc_post : Forall (tok_above (ikey ka)) (post C);
  lc_i : 0 <= kx_i kx <= lsize l;
  lc_below : forall j, 0 <= j < kx_i kx -> rank_lt (erank (nth_entry l j)) (krank k);
  lc_here : if 0 <=? kx_p kx
    then kx_i kx < lsize l /\ kx_p kx = elem (permutation_ l) (kx_i kx) /\ erank (nth_entry l (kx_i kx)) = krank k /\
      exists k0, entry_key (nth_entry l (kx_i kx)) k0 /\ state = b2z (bool_decide (k0 = k))
    else state = 0 /\ forall j, kx_i kx <= j < lsize l -> rank_lt (krank k) (erank (nth_entry l j))
}.

(** One layer of the search. *)
Lemma layer_locate t p g ka k : layer_ok lw iw t p g -> key_view mem ka k ->
  exists C n l kx N, at_leaf t p g C n l /\ leaf_lower bnd l ka = Some kx /\
    (forall fuel, (N <= fuel)%nat -> reach_leaf bnd t fuel ka (gptr g) = Some n) /\
    Forall (tok_below (ikey ka)) (pre C) /\ Forall (tok_above (ikey ka)) (post C) /\ 0 <= kx_i kx <= lsize l /\
    (forall j, 0 <= j < kx_i kx -> rank_lt (erank (nth_entry l j)) (krank k)) /\
    if 0 <=? kx_p kx then kx_i kx < lsize l /\ kx_p kx = elem (permutation_ l) (kx_i kx) /\ erank (nth_entry l (kx_i kx)) = krank k
    else forall j, kx_i kx <= j < lsize l -> rank_lt (krank k) (erank (nth_entry l j)).
Proof.
  intros L Hk. destruct (reach_leaf_ok lw iw bnd t p g ka L) as (C & n & lo & es & N & Hg & HC & HN & Hpre & Hpost).
  destruct (at_leaf_intro lw iw t p g C n lo es L Hg HC) as (l & A & El).
  destruct (leaf_in_layer lw iw t p g C n lo es L Hg HC) as (_ & _ & Hs). rewrite <- El in Hs.
  destruct (leaf_lower_ok lw bnd mem l ka k (al_ok _ _ _ _ _ _ _ _ A) Hs Hk) as (kx & Hlow & Hi & Hlt & Hkx).
  exists C, n, l, kx, N. do 7 (split; [done|]). destruct (Z.eqb_spec (kx_p kx) (-1)) as [E|E].
  - rewrite E. exact Hkx.
  - destruct Hkx as (Hp & ? & ? & ?). destruct (Z.leb_spec 0 (kx_p kx)); [done|lia].
Qed.
Lemma key_view_ikey ka k : key_view mem ka k -> ikey ka = (krank k).1.
Proof. intros (E & _). exact E. Qed.

(** The whole search. *)
Record search_end (t t' : tree) (root : Z) (G : gmap (list Z) glayer) (K : list Z) (n : Z) (kx : key_indexed_position) (state : Z) (ka : key)
    (G' : gmap (list Z) glayer) (p : list Z) (g : glayer) (k : list Z) (C : list frame) (l : leaf) : Prop := {
  se_inv : inv t' root G';
  se_bound : forall k v, bound G' k v <-> bound G k v;
  se_grown : grown t t' G G' [];
  se_layer : G' !! p = Some g;
  se_fresh : gptr g = addr (gshape g);
  se_key : K = p ++ k;
  se_view : key_view mem ka k;
  se_nonempty : p <> [] -> k <> [];
  se_leaf : at_leaf t' p g C n l;
  se_located : located C l kx state ka k
}.
Lemma find_locked_ok root : forall len k p g ka t G, len = List.length k -> inv t root G -> G !! p = Some g -> gptr g = addr (gshape g) ->
  key_view mem ka k -> (p <> [] -> k <> []) ->
  exists N t' n kx state ka' G' p' g' k' C l,
    (forall fuel, (N <= fuel)%nat -> find_locked bnd unaligned mem fuel ka (gptr g) t = Some (t', n, kx, state, ka')) /\
    search_end t t' root G (p ++ k) n kx state ka' G' p' g' k' C l.
Proof.
  induction len as [len IH] using lt_wf_ind. intros k p g ka t G -> I Hg Hfr Vk Hne. pose proof Vk as (_ & _ & _ & Bk).
  pose proof (inv_layer _ _ _ _ _ _ I _ _ Hg) as L.
  destruct (layer_locate t p g ka k L Vk) as (C & n & l & kx & N & A & Elow & HN & Hpre & Hpost & Hi & Hlt & Hhere).
  assert (Hstep : forall fuel, (S N <= fuel)%nat -> find_locked bnd unaligned mem fuel ka (gptr g) t =
    if 0 <=? kx_p kx then
      let e := slot l (kx_p kx) in let state := ksuf_matches mem e ka in
      if state <? 0 then
        if is_root t (lv e) then find_locked bnd unaligned mem (pred fuel) (shift_by unaligned 8 mem (- state) ka) (lv e) t
        else find_locked bnd unaligned mem (pred fuel) (shift_by unaligned 8 mem (- state) ka) (maybe_parent t (lv e))
               (put_leaf n (set_lv l (kx_p kx) (maybe_parent t (lv e))) t)
      else Some (t, n, kx, state, ka)
    else Some (t, n, kx, 0, ka)).
  { intros [|fuel] Hf; [lia|]. cbn [find_locked pred]. rewrite HN by lia. cbn [mbind option_bind].
    rewrite (al_leaf _ _ _ _ _ _ _ _ A). cbn [mbind option_bind]. rewrite Elow. done. }
  destruct (Z.leb_spec 0 (kx_p kx)) as [Hp|Hp].
  - destruct Hhere as (Hsz & Hel & Hr). set (j := kx_i kx) in *. assert (Hj : 0 <= j < lsize l) by lia.
    pose proof (nth_in _ _ _ _ _ _ _ _ _ A Hj) as Hin. assert (Esl : slot l (kx_p kx) = nth_entry l j) by (by rewrite Hel).
    cbv zeta in Hstep. rewrite Esl in Hstep.
    destruct (layer_decides lw iw mk t root G p g k _ I Hg Bk Hne Hin Hr) as [(k0 & Hk0 & _)|(s & gs & Hs & Ek & Hk8 & Hgs & Hgp)].
    + pose proof (ksuf_matches_key mem _ ka k k0 Hm Vk Hk0 Hr) as M. rewrite M in Hstep.
      exists (S N), t, n, kx, (b2z (bool_decide (k0 = k))), ka, G, p, g, k, C, l. split.
      { intros fuel Hf. rewrite Hstep by done. by case_bool_decide. }
      split; try done; [apply grown_refl|]. split; try done. rewrite (proj2 (Z.leb_le _ _) Hp). split_and!; try done. by exists k0.
    + rewrite (ksuf_matches_layer mem _ ka s Hs) in Hstep. change (-8 <? 0) with true in Hstep. change (- -8) with 8 in Hstep. cbn match in Hstep.
      pose proof (shift_view unaligned mem ka k Hm Vk ltac:(lia)) as Vs.
      assert (Hne' : p ++ s <> [] -> drop 8 k <> []).
      { intros _ E. apply (f_equal List.length) in E. rewrite length_drop in E. cbn in E. lia. }
      assert (Epk : p ++ k = (p ++ s) ++ drop 8 k) by (rewrite <- app_assoc; by rewrite <- Ek). rewrite Epk.
      destruct (is_root t (lv (nth_entry l j))) eqn:Er.
      * assert (Hfs : gptr gs = addr (gshape gs)).
        { destruct (layer_repoint lw iw t _ gs (inv_layer _ _ _ _ _ _ I _ _ Hgs)) as [_ Hrp]. rewrite Hgp, Er in Hrp. by rewrite <- Hrp. }
        destruct (IH (List.length (drop 8 k)) ltac:(rewrite length_drop; lia) (drop 8 k) (p ++ s) gs _ t G eq_refl I Hgs Hfs Vs Hne')
          as (N' & t' & n' & kx' & st' & ka' & G' & p' & g' & k' & C' & l' & HN' & SE).
        exists (S (Nat.max N N')), t', n', kx', st', ka', G', p', g', k', C', l'. split; [|done].
        intros fuel Hf. rewrite Hstep by lia. rewrite <- Hgp. apply HN'. lia.
      * destruct (inv_redirect lw iw mk Hlw t root G p g C n l j s gs I Hg A Hj Hs Hgs Hgp Er) as (G1 & I1 & Hg1 & HB1 & HH1).
        assert (Hr1 : maybe_parent t (lv (nth_entry l j)) = addr (gshape gs)).
        { destruct (layer_repoint lw iw t _ gs (inv_layer _ _ _ _ _ _ I _ _ Hgs)) as [_ Hrp]. by rewrite Hgp, Er in Hrp. }
        rewrite <- Hel in I1. set (t1 := put_leaf n _ t) in *.
        destruct (IH (List.length (drop 8 k)) ltac:(rewrite length_drop; lia) (drop 8 k) (p ++ s) _ _ t1 G1 eq_refl I1 Hg1 eq_refl Vs Hne')
          as (N' & t' & n' & kx' & st' & ka' & G' & p' & g' & k' & C' & l' & HN' & SE).
        exists (S (Nat.max N N')), t', n', kx', st', ka', G', p', g', k', C', l'. split.
        { intros fuel Hf. rewrite Hstep by lia. rewrite Hr1. apply HN'. lia. }
        destruct SE. split; try done; [intros; by rewrite se_bound0, HB1|]. eapply grown_trans; [|done]. split; [intros b Hb; left; by apply HH1|].
        intros b Hb _. apply outside_put_leaf. intros ->%list_elem_of_singleton. apply Hb. exists p, g. split; [done|].
        rewrite (at_leaf_addrs _ _ _ _ _ _ _ _ A). left.
  - exists (S N), t, n, kx, 0, ka, G, p, g, k, C, l. split; [intros fuel Hf; by apply Hstep|].
    split; try done; [apply grown_refl|]. split; try done. rewrite (proj2 (Z.leb_gt _ _) Hp). done.
Qed.

(** [fix_root]. *)
Lemma fix_root_ok t root G : inv t root G -> exists G', inv t (fix_root root t) G' /\
  (forall k v, bound G' k v <-> bound G k v) /\ grown t t G G' [] /\ exists g, G' !! [] = Some g /\ gptr g = addr (gshape g).
Proof.
  intros I. destruct (inv_root _ _ _ _ _ _ I) as (g & Hg & <-). pose proof (inv_layer _ _ _ _ _ _ I _ _ Hg) as L.
  destruct (layer_repoint lw iw t [] g L) as [Lr Er]. set (G' := <[[] := repoint g]> G).
  assert (Efix : fix_root (gptr g) t = gptr (repoint g)) by (unfold fix_root; destruct (is_root t (gptr g)); [by rewrite Er|done]). rewrite Efix.
  assert (HG : forall q gq, G' !! q = Some gq -> exists gq0, G !! q = Some gq0 /\ gshape gq0 = gshape gq /\ (q <> [] -> gq = gq0)).
  { intros q gq Hq. unfold G' in Hq. destruct (decide (q = [])) as [->|Hqn].
    - rewrite lookup_insert_eq in Hq. injection Hq as <-. by exists g.
    - rewrite lookup_insert_ne in Hq by done. by exists gq. }
  assert (HG' : forall q gq, G !! q = Some gq -> exists gq0, G' !! q = Some gq0 /\ gshape gq0 = gshape gq /\ (q <> [] -> gq0 = gq)).
  { intros q gq Hq. unfold G'. destruct (decide (q = [])) as [->|Hqn].
    - rewrite lookup_insert_eq. exists (repoint g). split_and!; [done|cbn; congruence|done].
    - rewrite lookup_insert_ne by done. by exists gq. }
  exists G'. split_and!; [split| |split; [|done]|exists (repoint g); unfold G'; by rewrite lookup_insert_eq].
  - exists (repoint g). unfold G'. by rewrite lookup_insert_eq.
  - intros q gq Hq. unfold G' in Hq. destruct (decide (q = [])) as [->|Hqn].
    + rewrite lookup_insert_eq in Hq. by injection Hq as <-.
    + rewrite lookup_insert_ne in Hq by done. by apply (inv_layer _ _ _ _ _ _ I).
  - intros q gq e s Hq He Hs. destruct (HG q gq Hq) as (g0 & H0 & E0 & _). rewrite <- E0 in He.
    destruct (inv_sub _ _ _ _ _ _ I _ _ _ _ H0 He Hs) as (gs & Hgs & Ep). destruct (HG' _ _ Hgs) as (g1 & H1 & _ & E1).
    exists g1. split; [done|]. rewrite E1; [done|]. destruct Hs as (_ & Ls & _). intros E. apply app_eq_nil in E as [_ ->]. done.
  - intros q gq Hq. destruct (HG q gq Hq) as (g0 & H0 & _). destruct (inv_up _ _ _ _ _ _ I _ _ H0) as [?|(x & s & gx & e & E & Hx & He & Hs)]; [by left|right].
    destruct (HG' _ _ Hx) as (g1 & H1 & E1 & _). exists x, s, g1, e. by rewrite E1.
  - intros q q' gq gq' a Hq Hq' Hne Ha. destruct (HG q gq Hq) as (x & Hx & Ex & _), (HG q' gq' Hq') as (y & Hy & Ey & _).
    rewrite <- Ex in Ha. rewrite <- Ey. by apply (inv_disj _ _ _ _ _ _ I q q' x y).
  - intros q gq Hq. destruct (HG q gq Hq) as (x & Hx & _). by eapply (inv_short _ _ _ _ _ _ I).
  - intros k v. split; intros (q & gq & e & k' & Hq & He & R).
    + destruct (HG q gq Hq) as (x & Hx & Ex & _). exists q, x, e, k'. by rewrite Ex.
    + destruct (HG' q gq Hq) as (x & Hx & Ex & _). exists q, x, e, k'. by rewrite Ex.
  - intros b (q & gq & Hq & Hb). left. destruct (HG q gq Hq) as (x & Hx & Ex & _). exists q, x. by rewrite Ex.
Qed.

(** The place [find_locked] found keeps the layer in order. *)
Lemma located_sorted t p g C n l kx state ka k e : at_leaf t p g C n l -> located C l kx state ka k -> kx_p kx < 0 ->
  erank e = krank k -> ikey ka = (krank k).1 ->
  StronglySorted tok_lt (pre C ++ Lo (leaf_lo l) :: (E <$> insert_at (kx_i kx) e (entries l)) ++ post C).
Proof.
  intros A [Lpre Lpost Li Lb Lh] Hp Hr Hik. rewrite (proj2 (Z.leb_gt _ _) Hp) in Lh. destruct Lh as [_ La].
  pose proof (at_leaf_sorted lw iw t p g C n l A) as HS.
  assert (Eik : ikey0 e = ikey ka) by (rewrite Hik, <- Hr; done).
  set (i := kx_i kx) in *. unfold insert_at. set (X := take (Z.to_nat i) (entries l)). set (Y := drop (Z.to_nat i) (entries l)).
  assert (EXY : entries l = X ++ Y) by (symmetry; apply take_drop). pose proof (length_entries l) as Ln. rewrite EXY in HS.
  assert (HX : forall x, x ∈ X -> entry_lt x e).
  { intros x (jj & Hjj)%list_elem_of_lookup. apply lookup_take_Some in Hjj as [Hjj Hji].
    rewrite <- (Nat2Z.id jj), entries_lookup in Hjj by lia. injection Hjj as <-. unfold entry_lt. rewrite Hr. apply Lb. lia. }
  assert (HY : forall x, x ∈ Y -> entry_lt e x).
  { intros x (jj & Hjj)%list_elem_of_lookup. unfold Y in Hjj. rewrite lookup_drop in Hjj. pose proof (lookup_lt_Some _ _ _ Hjj) as Hlt.
    rewrite <- (Nat2Z.id (Z.to_nat i + jj)), entries_lookup in Hjj by lia. injection Hjj as <-. unfold entry_lt. rewrite Hr. apply La. lia. }
  pose proof (at_leaf_bound lw iw t p g C n l (ikey ka) A Lpre) as HB.
  rewrite fmap_app, <- (app_assoc (E <$> X)), app_comm_cons, app_assoc in HS.
  rewrite fmap_app, fmap_cons, <- (app_assoc (E <$> X)), app_comm_cons, app_assoc. cbn [app].
  apply sorted_app_iff in HS as (HS1 & HS2 & HS3). apply sorted_app_iff. split_and!; [done| |].
  - constructor; [done|]. apply Forall_forall. intros x Hx%list_elem_of_In. apply elem_of_app in Hx as [Hx|Hx].
    + apply list_elem_of_fmap in Hx as (x' & -> & Hx). by apply HY.
    + rewrite Forall_forall in Lpost. apply list_elem_of_In, Lpost in Hx.
      destruct x as [k1|k1|x|[k1|]]; cbn in *; [lia..|unfold entry_lt, rank_lt, erank; cbn; lia|lia|done].
  - intros x y Hx Hy. apply elem_of_cons in Hy as [->|Hy]; [|by apply HS3]. rewrite elem_of_app, elem_of_cons in Hx. destruct Hx as [Hx|[->|Hx]].
    + rewrite Forall_forall in Lpre. apply list_elem_of_In, Lpre in Hx.
      destruct x as [k1|k1|x|[k1|]]; cbn in *; [lia..|unfold entry_lt, rank_lt, erank; cbn; lia|lia|done].
    + destruct (leaf_lo l); cbn in *; [lia|done].
    + apply list_elem_of_fmap in Hx as (x' & -> & Hx). by apply HX.
Qed.

(** Addresses that are free. *)
Definition fresh (t : tree) (b : Z) : Prop := b <> 0 /\ leaves t !! b = None /\ inodes t !! b = None.
Lemma rep_there t top g b : rep lw iw t top g -> b ∈ addrs g -> leaves t !! b <> None \/ inodes t !! b <> None.
Proof.
  revert top. induction g as [n lo es|n h ks cs IH] using shape_ind'; intros top Hr Hb.
  - apply list_elem_of_singleton in Hb as ->. destruct Hr as [(l & Hl & _) _]. left. congruence.
  - apply rep_SNode in Hr as ((_ & _ & x & Hx & _) & _ & F). cbn [addrs] in Hb. apply elem_of_cons in Hb as [->|Hb]; [right; congruence|].
    apply elem_of_flat_map in Hb as (c & Hc & Hb). rewrite Forall_forall in F, IH. apply list_elem_of_In in Hc.
    destruct (F c Hc) as (_ & _ & Hrc). by eapply IH.
Qed.
Lemma fresh_not_held t root G b : inv t root G -> fresh t b -> ~ held G b.
Proof.
  intros I (_ & H1 & H2) (q & gq & Hq & Hb). destruct (rep_there t true (gshape gq) b) as [?|?]; try done.
  apply (inv_layer _ _ _ _ _ _ I _ _ Hq).
Qed.
Lemma grown_fresh t t' root G G' used b : inv t root G -> grown t t' G G' used -> fresh t b -> b ∉ used -> fresh t' b.
Proof.
  intros I [_ Hg] Hb Hu. pose proof (fresh_not_held _ _ _ _ I Hb) as Hn. destruct Hb as (H0 & H1 & H2).
  destruct (Hg b Hn Hu) as [(E1 & E2 & _) _]. split_and!; congruence.
Qed.

(** The caller's store and [finish] after an insertion. *)
Lemma finish_put t1 m lm kx v : leaves t1 !! m = Some lm -> kx_p kx = back lw (permutation_ lm) ->
  exists t2 l2 l3, upd_leaf m (fun l => set_lv l (kx_p kx) v) t1 = Some t2 /\ leaves t2 !! m = Some l2 /\
    finish_insert lw l2 (kx_i kx) (kx_p kx) = Some l3 /\ put_leaf m l3 t2 = put_leaf m (visible lw lm (kx_i kx) v) t1.
Proof.
  intros Hl Hk. unfold upd_leaf. rewrite Hl. cbn [mbind option_bind]. do 3 eexists. split; [reflexivity|].
  split; [cbn; by rewrite lookup_insert_eq|]. rewrite (finish_value lw lm _ _ v Hk). split; [reflexivity|]. apply put_leaf_twice.
Qed.

(** What [find_insert] does after the search: the new key's leaf, slot and tree. *)
Definition inserted (t : tree) (root : Z) (G : gmap (list Z) glayer) (K : list Z) (v : Z) (pool : list Z)
    (r : option (tree * list Z * Z * key_indexed_position)) : Prop :=
  exists t1 pool' used m kx lm G', r = Some (t1, pool', m, kx) /\ pool = used ++ pool' /\ leaves t1 !! m = Some lm /\
    kx_p kx = back lw (permutation_ lm) /\ let t' := put_leaf m (visible lw lm (kx_i kx) v) t1 in
    inv t' root G' /\ stored G G' K v /\ grown t t' G G' used.
Lemma insert_new t root G p g C n l kx state ka k v pool fuel : inv t root G -> G !! p = Some g -> gptr g = addr (gshape g) -> at_leaf t p g C n l -> located C l kx state ka k ->
  key_view mem ka k -> (p <> [] -> k <> []) -> kx_p kx < 0 -> NoDup pool -> (forall b, b ∈ pool -> b <> 0 /\ ~ held G b) ->
  (S (List.length C) < List.length pool)%nat -> (List.length C < fuel)%nat ->
  inserted t root G (p ++ k) v pool ('(t, pool, (n, kx)) ← place_key bnd lw iw mem us un fuel n (kx_i kx) ka t pool; Some (t, pool, n, kx)).
Proof.
  intros I Hg Hfr A Loc Vk Hne Hp Hnd Hpool Hlen Hf. pose proof (assign_key_ok mem ka k Hm Vk) as Kn. set (e0 := assign_key mem ka) in *.
  destruct (entry_key_rank _ _ Kn) as (_ & Rn & _ & Ln).
  assert (HS : StronglySorted tok_lt (pre C ++ Lo (leaf_lo l) :: (E <$> insert_at (kx_i kx) (with_lv e0 v) (entries l)) ++ post C)).
  { eapply located_sorted; try done. by apply key_view_ikey. }
  destruct (layer_place lw iw Hlw bnd mem us un Hiw t p g C n l (kx_i kx) ka v pool fuel A (lc_i _ _ _ _ _ _ Loc) Hfr HS)
    as (t1 & used & pool' & m & kx' & lm & g' & Epl & Epool & _ & Hlm & Hkx & Ch).
  - left. exists k. by apply with_lv_key.
  - intros Hpn E0. specialize (Hne Hpn). fold e0 in E0. destruct Kn as [e k E1|e s E1]; [|rewrite E1 in E0; done].
    rewrite E1 in E0. destruct k; [done|cbn in E0; lia].
  - done.
  - apply list.NoDup_app. split; [apply (lo_nodup _ _ _ _ _ (al_layer _ _ _ _ _ _ _ _ A))|]. split; [|done].
    intros b Hb Hb'. apply (Hpool b Hb'). by exists p, g.
  - intros b Hb. by apply Hpool.
  - done.
  - done.
  - destruct (inv_insert lw iw mk _ _ root G p g g' used (with_lv e0 v) _ k I Hg Ch) as (G' & I' & HS' & HH).
    { intros b Hb. apply Hpool. rewrite Epool, elem_of_app. by left. }
    { rewrite (at_leaf_items _ _ _ _ _ _ _ _ A), insert_at_Permutation. solve_Permutation. }
    { by apply with_lv_key. } { done. }
    exists t1, pool', used, m, kx', lm, G'. rewrite Epl. cbn [mbind option_bind]. split_and!; try done. split; [done|].
    intros b Hb Hu. apply (ch_outside _ _ _ _ _ _ _ _ _ Ch). rewrite elem_of_app. intros [Hb'|Hb']; [|done]. apply Hb. by exists p, g.
Qed.

(** The search has redirected pointers and changed nothing else. *)
Record searched (t : tree) (root : Z) (G : gmap (list Z) glayer) (t2 : tree) (root2 : Z) (G2 : gmap (list Z) glayer) : Prop := {
  sd_inv : inv t root G;
  sd_inv2 : inv t2 root2 G2;
  sd_bound : forall k v, bound G2 k v <-> bound G k v;
  sd_grown : grown t t2 G G2 []
}.
Lemma searched_free t root G t2 root2 G2 pool : searched t root G t2 root2 G2 -> Forall (fresh t) pool ->
  forall b, b ∈ pool -> b <> 0 /\ ~ held G2 b.
Proof.
  intros [I _ _ [HG _]] Hp b Hb. rewrite Forall_forall in Hp. apply list_elem_of_In, Hp in Hb. split; [by destruct Hb|].
  intros [Hh|Hh]%HG; [by apply (fresh_not_held t root G b)|by apply elem_of_nil in Hh].
Qed.
Lemma searched_fresh t root G t2 root2 G2 t' G' used pool' : searched t root G t2 root2 G2 -> grown t2 t' G2 G' used ->
  Forall (fresh t) (used ++ pool') -> NoDup (used ++ pool') -> Forall (fresh t') pool'.
Proof.
  intros [I _ _ HG] Hgr [_ Hp]%Forall_app Hnd. apply list.NoDup_app in Hnd as (_ & D & _). apply Forall_forall. intros b Hb.
  rewrite Forall_forall in Hp. eapply grown_fresh; [exact I|by eapply grown_trans|by apply Hp|]. apply list_elem_of_In in Hb. intros Hu. by apply (D b).
Qed.

(** The caller's part, and what it ends with. *)
Definition store_finish (root v : Z) (r : option (tree * list Z * Z * key_indexed_position * Z)) : option (tree * list Z * Z * bool) :=
  '(t, pool, n, kx, state) ← r;
  t ← upd_leaf n (fun l => set_lv l (kx_p kx) v) t;
  if state =? 2 then
    l ← leaves t !! n;
    l ← finish_insert lw l (kx_i kx) (kx_p kx);
    Some (put_leaf n l t, pool, root, false)
  else Some (t, pool, root, true).
Lemma put_eq fuel root s len v t pool : put bnd unaligned lw iw mem us un fuel root s len v t pool =
  store_finish (fix_root root t) v (find_insert bnd unaligned lw iw mem us un fuel (key_str unaligned 8 mem s len) (fix_root root t) t pool).
Proof. done. Qed.
Definition completes (G : gmap (list Z) glayer) (K : list Z) (v : Z) (pool : list Z) (root : Z) (r : option (tree * list Z * Z * bool)) (found : bool) : Prop :=
  exists t' pool' used G', r = Some (t', pool', root, found) /\ pool = used ++ pool' /\ inv t' root G' /\ stored G G' K v /\ Forall (fresh t') pool' /\
    forall b, held G' b -> held G b \/ b ∈ used.

Lemma inserted_completes t root G t2 root2 G2 K v pool r : searched t root G t2 root2 G2 -> inserted t2 root2 G2 K v pool r ->
  Forall (fresh t) pool -> NoDup pool -> completes G K v pool root2 (store_finish root2 v ('(t, pool, n, kx) ← r; Some (t, pool, n, kx, 2))) false.
Proof.
  intros S (t1 & pool' & used & m & kx & lm & G' & -> & -> & Hlm & Hkx & I' & HS & Hgr) Hp Hnd. unfold store_finish. cbn [mbind option_bind].
  destruct (finish_put t1 m lm kx v Hlm Hkx) as (t3 & l2 & l3 & -> & E2 & E3 & E4). cbn [mbind option_bind]. change (2 =? 2) with true. cbn match.
  rewrite E2. cbn [mbind option_bind]. rewrite E3. cbn [mbind option_bind]. rewrite E4.
  do 2 eexists. exists used, G'. split; [reflexivity|]. split_and!; [done|done| |by eapply searched_fresh|].
  - intros k' v'. by rewrite (HS k' v'), (sd_bound _ _ _ _ _ _ S).
  - intros b [Hb|Hb]%(proj1 Hgr); [left|by right]. destruct (proj1 (sd_grown _ _ _ _ _ _ S) b Hb) as [?|Hn]; [done|by apply elem_of_nil in Hn].
Qed.
Lemma found_completes t root G t2 root2 G2 p g C n l kx k v pool : searched t root G t2 root2 G2 -> G2 !! p = Some g -> at_leaf t2 p g C n l ->
  0 <= kx_i kx < lsize l -> kx_p kx = elem (permutation_ l) (kx_i kx) -> entry_key (nth_entry l (kx_i kx)) k ->
  Forall (fresh t) pool -> NoDup pool -> completes G (p ++ k) v pool root2 (store_finish root2 v (Some (t2, pool, n, kx, 1))) true.
Proof.
  intros S Hg A Hj Hel Hk Hp Hnd. unfold store_finish. cbn [mbind option_bind]. unfold upd_leaf. rewrite (al_leaf _ _ _ _ _ _ _ _ A). cbn [mbind option_bind].
  change (1 =? 2) with false. cbn match.
  destruct (inv_store lw iw mk Hlw t2 root2 G2 p g C n l (kx_i kx) k v (sd_inv2 _ _ _ _ _ _ S) Hg A Hj Hk) as (G' & I' & HS & HH). rewrite <- Hel in I'.
  do 2 eexists. exists [], G'. split; [reflexivity|]. split_and!; [done|done| | |].
  - intros k' v'. by rewrite (HS k' v'), (sd_bound _ _ _ _ _ _ S).
  - eapply (searched_fresh _ _ _ _ _ _ _ G' []); [done|split; [intros b Hb; left; by apply HH|]|done..].
    intros b Hb _. apply outside_put_leaf. intros ->%list_elem_of_singleton. apply Hb. exists p, g. split; [done|].
    rewrite (at_leaf_addrs _ _ _ _ _ _ _ _ A). left.
  - intros b Hb%HH. destruct (proj1 (sd_grown _ _ _ _ _ _ S) b Hb) as [?|Hn]; [by left|by apply elem_of_nil in Hn].
Qed.
Lemma located_absent t p g C n l kx state ka k : at_leaf t p g C n l -> located C l kx state ka k -> kx_p kx < 0 -> ikey ka = (krank k).1 ->
  forall e, e ∈ items (gshape g) -> erank e <> krank k.
Proof.
  intros A [Lpre Lpost Li Lb Lh] Hp Hik e He Ee. rewrite (proj2 (Z.leb_gt _ _) Hp) in Lh. destruct Lh as [_ La].
  assert (Ei : ikey0 e = ikey ka) by (rewrite Hik, <- Ee; done).
  rewrite (at_leaf_items _ _ _ _ _ _ _ _ A), !elem_of_app in He. destruct He as [He|[He|He]].
  - apply (ents_below _ _ _ Lpre) in He. lia.
  - apply entries_elem in He as (j & Hj & ->). destruct (Z.lt_ge_cases j (kx_i kx)).
    + specialize (Lb j ltac:(lia)). rewrite Ee in Lb. by apply rank_lt_irrefl in Lb.
    + specialize (La j ltac:(lia)). rewrite Ee in La. by apply rank_lt_irrefl in La.
  - apply (ents_above _ _ _ Lpost) in He. lia.
Qed.

(** [put], on the level of the layers. *)
Lemma put_layers t root G s len v : inv t root G -> 0 <= len <= mk ->
  exists N found root', forall fuel pool, (N <= fuel)%nat -> (N <= List.length pool)%nat -> NoDup pool -> Forall (fresh t) pool ->
  completes G (mem_bytes mem s len) v pool root' (put bnd unaligned lw iw mem us un fuel root s len v t pool) found /\
  (found = true <-> exists v0, bound G (mem_bytes mem s len) v0).
Proof.
  intros I0 Hl0. destruct (fix_root_ok t root G I0) as (G1 & I1 & HB1 & HG1 & g1 & Hg1 & Hf1). set (root1 := fix_root root t) in *.
  assert (Er1 : gptr g1 = root1) by (destruct (inv_root _ _ _ _ _ _ I1) as (g2 & Hg2 & E2); congruence).
  destruct (find_locked_ok root1 _ (mem_bytes mem s len) [] g1 _ t G1 eq_refl I1 Hg1 Hf1 (key_str_view unaligned mem s len Hm (proj1 Hl0)))
    as (N & t2 & n & kx & state & ka & G2 & p & g & k & C & l & HN & [I2 HB2 HG2 Hg Hfr Ek Vk Hne A Loc]); [done|].
  rewrite Er1 in HN. cbn [app] in Ek. rewrite Ek. pose proof Vk as (_ & _ & _ & Bk).
  assert (S : searched t root G t2 root1 G2) by (split; [done|done|intros; by rewrite HB2, HB1|by eapply grown_trans]).
  setoid_rewrite <- (sd_bound _ _ _ _ _ _ S). setoid_rewrite put_eq. fold root1. unfold find_insert.
  assert (HKm : Z.of_nat (List.length (p ++ k)) <= mk) by (rewrite <- Ek, length_mem_bytes; lia).
  pose proof (lc_here _ _ _ _ _ _ Loc) as Hhere. pose proof (lc_i _ _ _ _ _ _ Loc) as Hj. destruct (Z.leb_spec 0 (kx_p kx)) as [Hp|Hp].
  - destruct Hhere as (Hsz & Hel & Hr & k0 & Hk0 & Est). assert (Hj' : 0 <= kx_i kx < lsize l) by lia. pose proof (nth_in _ _ _ _ _ _ _ _ _ A Hj') as Hin.
    assert (Hfound : (exists v0, bound G2 (p ++ k) v0) <-> k0 = k).
    { destruct (layer_decides lw iw mk t2 root1 G2 p g k _ I2 Hg Bk Hne Hin Hr) as [(k1 & Hk1 & HX)|(s' & _ & Hs' & _)].
      - setoid_rewrite HX. rewrite (entry_key_inj _ _ _ Hk1 Hk0). split; [by intros (_ & ? & _)|intros ->; by eexists].
      - by destruct (layer_not_key _ _ _ Hs' Hk0). }
    setoid_rewrite Hfound. case_bool_decide as Hkk; cbn [b2z] in Est.
    + subst k0. exists N, true, root1. intros fuel pool Hf _ Hnd Hfp. split; [|done]. rewrite HN by done. cbn [mbind option_bind]. rewrite Est.
      by eapply found_completes.
    + exists (Nat.max N (Datatypes.S (List.length k0))), false, root1. intros fuel pool Hf Hlp Hnd Hfp. split; [|done].
      rewrite HN by lia. cbn [mbind option_bind]. rewrite Est, (proj2 (Z.leb_le _ _) Hp), Hel. eapply inserted_completes; try done.
      destruct (inv_new_layer lw iw mk Hlw unaligned mem us Hm t2 root1 G2 p g C n l (kx_i kx) ka k k0 v pool fuel I2 Hg A HKm Hj' Hk0 Vk Hr Hkk Hnd) as
        (t1 & pool' & used & a & kx' & lm & G' & R); [by eapply searched_free|lia|lia|]. by exists t1, pool', used, a, kx', lm, G'.
  - destruct Hhere as [Est Hgt]. exists (Nat.max N (Datatypes.S (Datatypes.S (List.length C)))), false, root1. intros fuel pool Hf Hlp Hnd Hfp. split.
    + rewrite HN by lia. cbn [mbind option_bind]. rewrite Est, (proj2 (Z.leb_gt _ _) Hp).
      assert (HI : inserted t2 root1 G2 (p ++ k) v pool ('(t, pool, (n, kx)) ← place_key bnd lw iw mem us un fuel n (kx_i kx) ka t2 pool; Some (t, pool, n, kx))).
      { eapply insert_new; try done; [by eapply searched_free|lia|lia]. }
      pose proof (inserted_completes _ _ _ _ _ _ _ _ _ _ S HI Hfp Hnd) as HC.
      by destruct (place_key _ _ _ _ _ _ _ _ _ _ _ _) as [[[? ?] [? ?]]|].
    + split; [done|]. intros (v0 & Hb). exfalso. revert Hb. apply (layer_absent lw iw mk t2 root1 G2 p g k v0 I2 Hg Bk Hne).
      eapply located_absent; [done..|by eapply key_view_ikey].
Qed.

(** * Maps *)
Abbreviation stands_for := (stands_for lw iw mk).
Lemma stored_map (G G' : gmap (list Z) glayer) (m : gmap (list Z) Z) K v : (forall k v, m !! k = Some v <-> bound G k v) -> stored G G' K v ->
  forall k v', <[K := v]> m !! k = Some v' <-> bound G' k v'.
Proof.
  intros Hb HS k v'. rewrite (HS k v'), lookup_insert_Some, Hb. intuition congruence.
Qed.
Lemma found_map (G : gmap (list Z) glayer) (m : gmap (list Z) Z) K found : (forall k v, m !! k = Some v <-> bound G k v) ->
  (found = true <-> exists v0, bound G K v0) -> found = bool_decide (is_Some (m !! K)).
Proof.
  intros Hb Hf. setoid_rewrite <- Hb in Hf. case_bool_decide as H; [by apply Hf|]. destruct found; [|done]. exfalso. by apply H, Hf.
Qed.
(** A tree, the map it stands for, and addresses that are not part of it. *)
Definition stands_without (t : tree) (root : Z) (m : gmap (list Z) Z) (out : list Z) : Prop :=
  exists G, inv t root G /\ (forall k v, m !! k = Some v <-> bound G k v) /\ forall b, b ∈ out -> b <> 0 /\ ~ held G b.
Lemma stands_without_nil t root m : stands_without t root m [] <-> stands_for t root m.
Proof. split; [intros (G & I & H & _); by exists G|]. intros (G & I & H). exists G. split_and!; [done|done|]. intros b Hb. by apply elem_of_nil in Hb. Qed.
Lemma put_stands t root m out s len v : stands_without t root m out -> 0 <= len <= mk ->
  exists N root', forall fuel pool, (N <= fuel)%nat -> (N <= List.length pool)%nat -> NoDup (pool ++ out) -> Forall (fresh t) pool ->
  exists t' used pool', put bnd unaligned lw iw mem us un fuel root s len v t pool =
    Some (t', pool', root', bool_decide (is_Some (m !! mem_bytes mem s len))) /\
    stands_without t' root' (<[mem_bytes mem s len := v]> m) out /\ pool = used ++ pool' /\ Forall (fresh t') pool'.
Proof.
  intros (G & I & HG & Hout) Hl. destruct (put_layers t root G s len v I Hl) as (N & found & root' & H). exists N, root'.
  intros fuel pool Hf Hp Hnd Hfr. pose proof Hnd as Hnd0. apply list.NoDup_app in Hnd as (Hnd & Hdis & _).
  destruct (H fuel pool Hf Hp Hnd Hfr) as [(t' & pool' & used & G' & E & Ep & I' & HS & Hfr' & HH) Hfound].
  exists t', used, pool'. rewrite E, (found_map G m _ found HG Hfound). split_and!; try done. exists G'. split; [done|]. split; [by eapply stored_map|].
  intros b Hb. destruct (Hout b Hb) as [Hb0 Hbh]. split; [done|]. intros [?|Hu]%HH; [done|]. apply (Hdis b); [|done]. rewrite Ep. apply elem_of_app. by left.
Qed.

(** [C2]. [put] of any string, in a tree of any number of layers and levels, returns given
    enough fuel and free addresses.  It says whether the key was there, and leaves a
    well-formed tree that stands for the old map with the new binding: whether the value is
    replaced in place, goes to a free slot, splits leaves and interior nodes up to a new
    root, or moves the other key of a conflict into new layers. *)
Theorem put_correct t root m s len v : stands_for t root m -> 0 <= len <= mk ->
  exists N, forall fuel pool, (N <= fuel)%nat -> (N <= List.length pool)%nat -> NoDup pool -> Forall (fresh t) pool ->
  exists t' pool' root', put bnd unaligned lw iw mem us un fuel root s len v t pool =
    Some (t', pool', root', bool_decide (is_Some (m !! mem_bytes mem s len))) /\
    stands_for t' root' (<[mem_bytes mem s len := v]> m) /\ Forall (fresh t') pool'.
Proof.
  intros Hs%stands_without_nil Hl. destruct (put_stands t root m [] s len v Hs Hl) as (N & root' & H). exists N. intros fuel pool Hf Hp Hnd Hfr.
  rewrite <- (app_nil_r pool) in Hnd. destruct (H fuel pool Hf Hp Hnd Hfr) as (t' & used & pool' & E & Hs' & _ & Hfr').
  exists t', pool', root'. by rewrite <- stands_without_nil.
Qed.

(** The new tree of [initialize] stands for the empty map. *)
Lemma initialize_empty a : a <> 0 -> 0 < mk -> stands_for (initialize lw us a) a ∅.
Proof.
  intros Ha Hmk. set (l := {| permutation_ := make_empty lw; slot := us; next_ := 0; prev_ := 0 |}).
  destruct (make_sorted_facts lw 0 ltac:(lia) ltac:(lia)) as (W & V & E0). rewrite E0 in W, V.
  pose proof (forallb_seqZ _ _ _ empty_perm_all lw ltac:(lia)) as Ek. apply Z.eqb_eq in Ek. rewrite Ek in W, V.
  assert (El : entries l = []). { unfold entries, lsize. change (Permuter.size (permutation_ l)) with (perm_view lw (make_empty lw)).1. by rewrite V. }
  assert (HL : layer_ok lw iw (initialize lw us a) [] (leaf_layer a l)).
  { apply lone_layer; try done; [|by rewrite El; constructor|intros e; rewrite El; intros He; by apply elem_of_nil in He|by exists 0%nat].
    split; [cbn; by rewrite lookup_insert_eq|]. split_and!; try done; [split; [done|by rewrite El]|cbn; by rewrite fn_lookup_insert..]. }
  assert (Hno : forall e, e ∈ items (gshape (leaf_layer a l)) -> False) by (intros e; rewrite items_leaf, El; apply elem_of_nil).
  exists {[ [] := leaf_layer a l ]}. split; [split|].
  - exists (leaf_layer a l). by rewrite lookup_singleton_eq.
  - by intros p g [<- <-]%lookup_singleton_Some.
  - intros p g e s [<- <-]%lookup_singleton_Some He. by apply Hno in He.
  - intros p g [<- <-]%lookup_singleton_Some. by left.
  - intros p q g g' b [<- <-]%lookup_singleton_Some [<- <-]%lookup_singleton_Some. done.
  - by intros p g [<- <-]%lookup_singleton_Some.
  - intros k v. rewrite lookup_empty. split; [done|]. intros (p & g & e & k' & [<- <-]%lookup_singleton_Some & He & _). by apply Hno in He.
Qed.
End Put.
