(* ===== verification/TreePrune.v ===== *)
(** Removal within one layer: the tokens and the memory of the layer after [redirect] and
    after the loop of [remove_leaf]. *)
From Stdlib Require Import Sorted.
From S2P Require Import Prelude StringSlice Permuter KSearch Internode LeafSplit MassKey Tree TreeShape TreeMap TreeOps TreeInsert TreeRemove.

(** * Tokens *)
Lemma tok_lt_KJ k x : tok_lt (K k) x <-> tok_lt (J k) x.
Proof. by destruct x as [| | |[|]]. Qed.
(** A key may be repeated behind null children. *)
Lemma sorted_repeat A k m R : StronglySorted tok_lt (A ++ K k :: R) -> StronglySorted tok_lt (A ++ K k :: replicate m (J k) ++ R).
Proof.
  intros H. apply sorted_app_iff in H as (HA & HR & HAR). apply StronglySorted_inv in HR as [HR F].
  assert (FJ : Forall (tok_lt (J k)) R) by (eapply Forall_impl; [|exact F]; intros x; by rewrite tok_lt_KJ).
  assert (HJ : StronglySorted tok_lt (replicate m (J k) ++ R)).
  { induction m as [|m IH]; [done|]. cbn. constructor; [done|]. apply Forall_app. split; [|done].
    apply Forall_replicate. cbn. lia. }
  apply sorted_app_iff. split_and!; [done| |].
  - constructor; [done|]. apply Forall_app. split; [|done]. apply Forall_replicate. cbn. lia.
  - intros x y Hx Hy. rewrite elem_of_cons, elem_of_app in Hy. destruct Hy as [->|[Hy|Hy]].
    + apply HAR; [done|left].
    + apply elem_of_replicate in Hy as [-> _]. transitivity (K k); [apply HAR; [done|left]|cbn; lia].
    + apply HAR; [done|by right].
Qed.
Lemma sorted_drop {A} (R : A -> A -> Prop) a x b : StronglySorted R (a ++ x :: b) -> StronglySorted R (a ++ b).
Proof. apply (sorted_sub R a [x] b). Qed.

(** Keys that no hole and no leaf refers to may go, and holes may go and come. *)
Lemma holes_sub s a x b : holes s (a ++ x :: b) -> match x with K k => Forall (tok_above k) b | _ => True end -> holes s (a ++ b).
Proof.
  rewrite !holes_app. intros (Ha & Hx & Hb) H. split; [done|]. revert Hb. generalize (s ++ a) as s'. clear Ha Hx s a. intros s'.
  assert (G : forall s1 s2, (forall k, K k ∈ s1 -> x = K k \/ K k ∈ s2) -> holes s1 b -> holes s2 b).
  { induction b as [|y b IH]; intros s1 s2 HK; [done|]. cbn. intros [Hy Hb].
    assert (Hxb : match x with K k => tok_above k y /\ Forall (tok_above k) b | _ => True end)
      by (destruct x; try done; by inversion H).
    split.
    - destruct y as [k|k|e|[k|]]; try done; apply HK in Hy as [->|Hy]; try done; cbn in Hxb; lia.
    - apply (IH ltac:(destruct x; tauto) (s1 ++ [y]) (s2 ++ [y])); [|done]. intros k. rewrite !elem_of_app. intros [Hk|Hk]; [apply HK in Hk; tauto|tauto]. }
  apply G. intros k. rewrite elem_of_app. intros [?|?%list_elem_of_singleton]; [by right|by left].
Qed.
Lemma holes_repeat s a k m b : holes s (a ++ K k :: b) -> holes s (a ++ K k :: replicate m (J k) ++ b).
Proof.
  rewrite !holes_app. cbn [holes]. rewrite holes_app. intros (Ha & _ & Hb). split_and!; [done|done| |].
  - assert (Hk : K k ∈ (s ++ a) ++ [K k]) by (apply elem_of_app; right; left). revert Hk. generalize ((s ++ a) ++ [K k]) as s'.
    induction m as [|m IH]; intros s' Hk; [done|]. cbn. split; [done|]. apply IH, elem_of_app. by left.
  - eapply holes_mono; [|exact Hb]. intros k'. rewrite !elem_of_app. tauto.
Qed.

Definition ordered (l : list tok) : Prop := StronglySorted tok_lt l /\ holes [] l.
Lemma ordered_drop a x b : ordered (a ++ x :: b) -> match x with K k => Forall (tok_above k) b | _ => True end -> ordered (a ++ b).
Proof. intros [Hs Hh] H. split; [by eapply sorted_drop|by eapply holes_sub]. Qed.
Lemma ordered_drop_holes a m k b : ordered (a ++ replicate m (J k) ++ b) -> ordered (a ++ b).
Proof. induction m as [|m IH]; [done|]. cbn. intros H. apply IH. by apply (ordered_drop a (J k)). Qed.
Lemma ordered_repeat a k m b : ordered (a ++ K k :: b) -> ordered (a ++ K k :: replicate m (J k) ++ b).
Proof. intros [Hs Hh]. split; [by apply sorted_repeat|by apply holes_repeat]. Qed.
(** A key moves up over the one before it. *)
Lemma ordered_move a i m k n b : ordered (a ++ K i :: replicate m (J i) ++ K k :: b) -> Forall (tok_above i) (K k :: b) ->
  ordered (a ++ K k :: replicate n (J k) ++ b).
Proof.
  intros H Hk. apply ordered_repeat. apply (ordered_drop a (K i)); [|done].
  pose proof (ordered_drop_holes (a ++ [K i]) m i (K k :: b)) as D. rewrite <- !app_assoc in D. by apply D.
Qed.

(** What is before a node ends in a key, with the holes that repeat it. *)
Definition separates (x : tok) : Prop := match x with K _ | J _ => True | _ => False end.
Lemma weave_left_snoc ks k ls l : List.length ks = List.length ls -> weave_left (ks ++ [k]) (ls ++ [l]) = weave_left ks ls ++ l ++ [K k].
Proof.
  revert ls. induction ks as [|k0 ks IH]; intros [|l0 ls] Hl; try done. cbn. rewrite IH by (by injection Hl).
  by rewrite <- app_assoc.
Qed.
Lemma frame_pre_cases f : List.length (fkl f) = List.length (fcl f) ->
  fkl f = [] /\ fcl f = [] /\ frame_pre f = lead (fh f) \/
  exists ks k cs c, fkl f = ks ++ [k] /\ fcl f = cs ++ [c] /\ List.length ks = List.length cs /\
    frame_pre f = (lead (fh f) ++ weave_left ks (map flat cs) ++ flat c) ++ [K k].
Proof.
  intros Hl. unfold frame_pre. destruct (fkl f) as [|k ks _] eqn:Ek using rev_ind; [left; destruct (fcl f); [cbn; by rewrite app_nil_r|done]|right].
  destruct (fcl f) as [|c cs _] eqn:Ec using rev_ind; [rewrite length_app in Hl; cbn in Hl; lia|]. rewrite !length_app in Hl. cbn in Hl.
  exists ks, k, cs, c. split_and!; [done|done|lia|]. rewrite map_app. cbn [map]. rewrite weave_left_snoc by (rewrite length_map; lia).
  by rewrite <- !app_assoc.
Qed.
Lemma pre_last C : ctx_wf C -> pre C = [] \/ exists Q x, pre C = Q ++ [x] /\ separates x.
Proof.
  induction 1 as [|f C Hf _ IH]; [by left|]. cbn [pre]. destruct (frame_pre_cases f Hf) as [(_ & _ & ->)|(ks & k & cs & c & _ & _ & _ & ->)].
  - destruct (fh f) as [k|]; cbn; [right; by exists (pre C), (J k)|by rewrite app_nil_r].
  - right. rewrite app_assoc. by eexists _, (K k).
Qed.
Lemma pre_tail C i : ctx_wf C -> StronglySorted tok_lt (pre C) -> K i ∈ pre C -> Forall (tok_below i) (pre C) ->
  exists A m, pre C = A ++ K i :: replicate m (J i).
Proof.
  intros HC Hs (A & B & E)%list_elem_of_split Hb. exists A. rewrite E in Hs, Hb. apply sorted_app_iff in Hs as (_ & Hs & _).
  apply Forall_app in Hb as [_ Hb]. apply list.Forall_cons in Hb as [_ Hb]. apply StronglySorted_inv in Hs as [Hs F].
  assert (HB : exists m, B = replicate m (J i)); [|destruct HB as [m ->]; by exists m].
  assert (Hl : B = [] \/ exists Q x, B = Q ++ [x] /\ separates x).
  { destruct (pre_last C HC) as [E0|(Q & x & E0 & Hx)]; [by rewrite E in E0; destruct A|]. rewrite E in E0.
    destruct B as [|y B _] using rev_ind; [by left|right]. rewrite app_comm_cons, app_assoc in E0. apply app_inj_tail in E0 as [_ ->]. by eexists _, _. }
  clear E HC. induction B as [|y B IH]; [by exists 0%nat|]. apply StronglySorted_inv in Hs as [Hs Hy]. inversion F as [|? ? Fy F']; subst.
  inversion Hb as [|? ? Hby Hb']; subst. destruct y as [k|k|e|[k|]]; cbn in Fy, Hby; try lia.
  - assert (k = i) as -> by lia. destruct IH as [m ->]; try done; [|by exists (S m)].
    destruct Hl as [?|(Q & x & E & Hx)]; [done|]. destruct Q as [|q Q]; cbn in E; [injection E as _ ->; by left|injection E as _ ->; right; by exists Q, x].
  - assert (k = i) as -> by lia. exfalso. destruct B as [|z B].
    + destruct Hl as [?|(Q & x & E & Hx)]; [done|]. destruct Q as [|q Q]; [by injection E as <-|]. injection E as _ E. by destruct Q.
    + inversion Hy as [|? ? Hz _]; subst. inversion Hb' as [|? ? Hbz _]; subst. destruct z as [| | |[|]]; cbn in Hz, Hbz; lia.
Qed.

(** The context after [redirect]. *)
Fixpoint redir (y : Z) (C : list frame) : list frame :=
  match C with
  | [] => []
  | f :: C =>
      match fkl f with
      | [] => {| fn := fn f; fh := (fun _ => y) <$> fh f; fkl := []; fcl := fcl f; fkr := fkr f; fcr := fcr f |} :: redir y C
      | k :: ks => {| fn := fn f; fh := fh f; fkl := removelast (k :: ks) ++ [y]; fcl := fcl f; fkr := fkr f; fcr := fcr f |} :: C
      end
  end.
Lemma redir_pre y C : ctx_wf C -> forall A i m, pre C = A ++ K i :: replicate m (J i) -> pre (redir y C) = A ++ K y :: replicate m (J y).
Proof.
  induction 1 as [|f C Hf HC IH]; intros A i m E; [by destruct A|]. cbn [pre] in E.
  destruct (frame_pre_cases f Hf) as [(E1 & E2 & E3)|(ks & k & cs & c & E1 & E2 & El & E3)]; rewrite E3 in E.
  - cbn [redir]. rewrite E1. cbn [pre]. unfold frame_pre. cbn [fh fkl fcl]. rewrite E2. cbn [map weave_left]. rewrite app_nil_r.
    destruct (fh f) as [k|]; cbn in E |- *.
    + destruct m as [|m]; [by apply app_inj_tail in E as [_ ?]|]. rewrite replicate_S_end, app_comm_cons, app_assoc in E |- *.
      apply app_inj_tail in E as [E _]. by rewrite (IH _ _ _ E).
    + rewrite app_nil_r in E |- *. by apply (IH _ _ _ E).
  - cbn [redir]. destruct (fkl f) as [|k0 ks0] eqn:Ek; [by destruct ks|]. cbn [pre].
    assert (Hy : frame_pre {| fn := fn f; fh := fh f; fkl := removelast (k0 :: ks0) ++ [y]; fcl := fcl f; fkr := fkr f; fcr := fcr f |} =
      (lead (fh f) ++ weave_left ks (map flat cs) ++ flat c) ++ [K y]).
    { unfold frame_pre. cbn [fh fkl fcl]. rewrite E1, removelast_last, E2, map_app. cbn [map].
      rewrite weave_left_snoc by (by rewrite length_map). by rewrite <- !app_assoc. }
    rewrite Hy, app_assoc in *. destruct m as [|m]; [by apply app_inj_tail in E as [-> _]|].
    rewrite replicate_S_end, app_comm_cons, (app_assoc A) in E. by apply app_inj_tail in E as [_ ?].
Qed.
Lemma redir_same y C : lpre (redir y C) = lpre C /\ lpost (redir y C) = lpost C /\ post (redir y C) = post C /\
  ctx_addrs (redir y C) = ctx_addrs C /\ is_nil (redir y C) = is_nil C.
Proof.
  induction C as [|f C (I1 & I2 & I3 & I4 & I5)]; [done|]. cbn [redir]. unfold ctx_addrs in *.
  destruct (fkl f) eqn:E; cbn; rewrite ?I1, ?I2, ?I3, ?I4; done.
Qed.
Lemma redir_wf y C : ctx_wf C -> ctx_wf (redir y C).
Proof.
  induction 1 as [|f C Hf HC IH]; [constructor|]. cbn [redir]. destruct (fkl f) as [|k ks] eqn:E; constructor; try done.
  cbn [fkl fcl]. rewrite <- Hf, length_app, (app_removelast_last 0 (l := k :: ks)), length_app by done. cbn. by rewrite removelast_last.
Qed.
Lemma redir_addr y C g : addr (fill (redir y C) g) = addr (fill C g).
Proof.
  revert g. induction C as [|f C IH]; intros g; [done|]. cbn [redir]. destruct (fkl f).
  - change (addr (fill (redir y C) (plug {| fn := fn f; fh := (fun _ => y) <$> fh f; fkl := []; fcl := fcl f; fkr := fkr f; fcr := fcr f |} g)) = addr (fill C (plug f g))).
    rewrite IH. by apply addr_fill.
  - by apply (addr_fill C (plug _ g) (plug f g)).
Qed.

(** * Nodes *)
Lemma arr_parts (f : Z -> Z) n A k B : 0 <= n -> arr f 0 n = A ++ k :: B ->
  let a := Z.of_nat (List.length A) in a < n /\ A = arr f 0 a /\ k = f a /\ B = arr f (a + 1) (n - a - 1).
Proof.
  intros Hn E a. pose proof (length_arr f 0 n Hn) as L. rewrite E, length_app in L. cbn in L. assert (Ha : 0 <= a < n) by lia.
  rewrite (arr_cut a) in E by lia. apply app_inj_1 in E as [EA E]; [|pose proof (length_arr f 0 a); lia].
  rewrite arr_cons in E by lia. injection E as Ek EB. split_and!; [lia|done|by rewrite Z.add_0_l in Ek|by rewrite Z.add_0_l in EB].
Qed.
Lemma keys_set_key x A k B y : 0 <= nkeys_ x -> keys x = A ++ k :: B -> keys (set_key x (Z.of_nat (List.length A)) y) = A ++ y :: B.
Proof.
  intros Hn E. destruct (arr_parts _ _ _ _ _ Hn E) as (Ha & EA & _ & EB). set (a := Z.of_nat (List.length A)) in *.
  unfold keys. cbn [set_key nkeys_ Internode.ikey0_]. rewrite (arr_cut a), (arr_cons _ (0 + a)) by lia. rewrite EA, EB, Z.add_0_l, fn_lookup_insert.
  f_equal; [|f_equal]; apply arr_ext0; intros i Hi; rewrite fn_lookup_insert_ne; [done|lia|done|lia].
Qed.
(** A key and the child to its right go. *)
Definition drop_child (x : internode) (kp : Z) : internode :=
  set_nkeys (shift_down (kp - 1) kp (nkeys_ x - kp) (set_child x kp 0)) (nkeys_ x - 1).
Lemma drop_child_views x A k B A' c B' : 0 <= nkeys_ x -> keys x = A ++ k :: B -> kids x = A' ++ c :: B' -> List.length A' = S (List.length A) ->
  keys (drop_child x (Z.of_nat (List.length A'))) = A ++ B /\ kids (drop_child x (Z.of_nat (List.length A'))) = A' ++ B'.
Proof.
  intros Hn Ek Ec Hl. destruct (arr_parts _ _ _ _ _ Hn Ek) as (Ha & EA & _ & EB). destruct (arr_parts _ (nkeys_ x + 1) _ _ _ ltac:(lia) Ec) as (Ha' & EA' & _ & EB').
  rewrite Hl in *. set (a := Z.of_nat (List.length A)) in *. replace (Z.of_nat (S (List.length A))) with (a + 1) in * by lia.
  unfold keys, kids, drop_child. cbn [set_nkeys shift_down set_child nkeys_ Internode.ikey0_ child_]. rewrite EA, EB, EA', EB'. split.
  - rewrite (arr_cut a) by lia. f_equal.
    + apply arr_ext0. intros i Hi. by rewrite blit_out by lia.
    + apply arr_ext; [lia|]. intros i Hi. rewrite blit_in by lia. f_equal. lia.
  - rewrite (arr_cut (a + 1)) by lia. f_equal.
    + apply arr_ext0. intros i Hi. rewrite copy_up_blit, blit_out by lia. by rewrite fn_lookup_insert_ne by lia.
    + apply arr_ext; [lia|]. intros i Hi. rewrite copy_up_blit, blit_in by lia. rewrite fn_lookup_insert_ne by lia. f_equal. lia.
Qed.

Lemma post_first C : post C = [] \/ exists k R, post C = K k :: R.
Proof.
  induction C as [|f C IH]; [by left|]. cbn [post]. unfold frame_post, weave_right. destruct (fkr f) as [|k ks]; [done|right]. by eexists k, _.
Qed.
Lemma post_above k X C : StronglySorted tok_lt (K k :: X ++ post C) -> Forall (tok_above k) (post C).
Proof.
  intros [Hs Hk]%StronglySorted_inv. apply Forall_app in Hk as [_ Hk]. apply sorted_app_iff in Hs as (_ & Hs & _).
  destruct (post_first C) as [->|(k1 & R & E)]; [constructor|]. rewrite E in *. apply StronglySorted_inv in Hs as [_ F].
  inversion Hk as [|? ? H1 _]; subst. constructor; [exact H1|]. eapply Forall_impl; [|exact F]. intros [k2|k2|e|[k2|]] Hx; cbn in *; done || lia.
Qed.
Lemma above_mono i j l : i <= j -> Forall (tok_above j) l -> Forall (tok_above i) l.
Proof. intros H. apply Forall_impl. intros [k|k|e|[k|]]; cbn; done || lia. Qed.
Lemma below_mono i j l : i <= j -> Forall (tok_below i) l -> Forall (tok_below j) l.
Proof. intros H. apply Forall_impl. intros [k|k|e|[k|]]; cbn; done || lia. Qed.
(** What is before a key is not above it. *)
Lemma sorted_below l k R : StronglySorted tok_lt (l ++ J k :: R) -> Forall (tok_below k) l.
Proof.
  intros (_ & _ & H)%sorted_app_iff. apply Forall_forall. intros x Hx%list_elem_of_In. specialize (H x (J k) Hx ltac:(left)).
  destruct x as [| | |[|]]; cbn in *; done || lia.
Qed.

Section Prune.
Context (bnd : key_bound_type) (lw iw : Z).
Abbreviation rep := (rep lw iw).
Abbreviation rep_ctx := (rep_ctx lw iw).
Abbreviation child_of := (child_of lw iw).

(** The node of a frame, and what the search in it finds. *)
Record node_facts (t : tree) (f : frame) (a ik : Z) (x : internode) : Prop := {
  nf_leaf : leaves t !! fn f = None;
  nf_inode : inodes t !! fn f = Some x;
  nf_hgt : 0 < heights t (fn f);
  nf_nkeys : 0 <= nkeys_ x <= iw;
  nf_keys : keys x = option_list (fh f) ++ fkl f ++ fkr f;
  nf_kids : kids x = hkids (fh f) ++ (addr <$> fcl f) ++ a :: (addr <$> fcr f);
  nf_len : List.length (fkl f) = List.length (fcl f);
  nf_lenr : List.length (fcr f) = List.length (fkr f);
  nf_size : nkeys_ x = kpos f + Z.of_nat (List.length (fkr f));
  nf_upper : upper bnd (Sized (nkeys_ x)) (fun i => compare ik (Internode.ikey0_ x i)) = Some (kpos f);
  nf_children : Forall (child_of t (fn f)) (fcl f ++ fcr f)
}.
Lemma node_known t f D top a h X ik : frame_at lw iw t f top a h -> StronglySorted tok_lt (pre (f :: D) ++ X ++ post (f :: D)) ->
  Forall (tok_below ik) (pre (f :: D)) -> Forall (tok_above ik) (post (f :: D)) -> exists x, node_facts t f a ik x.
Proof.
  intros (F1 & F2 & (F3 & F4 & x & F5 & F6 & F7 & F8) & F9 & F10 & F11) Hs Hb Ha. exists x.
  assert (Hsz : nkeys_ x = kpos f + Z.of_nat (List.length (fkr f)) /\ List.length (fcr f) = List.length (fkr f)).
  { pose proof (length_keys x ltac:(lia)) as L1. pose proof (length_kids x ltac:(lia)) as L2. rewrite F7, !length_app in L1.
    rewrite F8, !length_app, length_hkids in L2. cbn [List.length] in L2. rewrite !length_fmap in L2. unfold kpos. rewrite length_app. lia. }
  destruct Hsz as [Hsz Hlr]. cbn [pre post] in Hs, Hb, Ha. apply Forall_app in Hb as [_ Hb]. apply Forall_app in Ha as [Ha _].
  rewrite <- !app_assoc in Hs. apply sorted_app_iff in Hs as (_ & Hs & _). rewrite !app_assoc in Hs. apply sorted_app_iff in Hs as (Hs & _ & _).
  assert (Hkeys : StronglySorted Z.lt (keys x)).
  { rewrite F7. apply (node_keys_sorted _ _ (map flat (fcl f) ++ X :: map flat (fcr f))).
    - rewrite weave_split by by rewrite length_map. unfold frame_pre, frame_post in Hs. by rewrite <- !app_assoc in Hs.
    - rewrite !length_app. cbn [List.length]. rewrite !length_map. lia. }
  split; try done. rewrite app_assoc in F7. apply (upper_cut bnd x ik _ (fkr f) F7); [lia|done| |].
  - apply Forall_forall. intros k Hk%list_elem_of_In. apply frame_keys in Hk; [|done]. rewrite Forall_forall in Hb.
    destruct Hk as [Hk|Hk]; apply list_elem_of_In, Hb in Hk; exact Hk.
  - apply Forall_forall. intros k Hk%list_elem_of_In. apply (weave_right_keys _ (map flat (fcr f))) in Hk; [|by rewrite length_map].
    rewrite Forall_forall in Ha. by apply list_elem_of_In, Ha in Hk.
Qed.
(** The first child of a node is null just when it has a key for that. *)
Lemma first_child x h cs : kids x = hkids h ++ cs -> (forall c, c ∈ cs -> c <> 0) -> 0 <= nkeys_ x ->
  (child_ x 0 =? 0) = match h with Some _ => true | None => false end.
Proof.
  intros E H0 Hn. unfold kids in E. rewrite arr_cons in E by lia. destruct h as [k|]; cbn in E; [by injection E as ->|].
  destruct cs as [|c cs]; [done|]. injection E as -> _. apply Z.eqb_neq, H0. left.
Qed.

(** Writing an interior node. *)
Lemma put_inode_same p x t b : b <> p -> same_node t (put_inode p x t) b.
Proof. intros Hb. unfold same_node. cbn. by rewrite lookup_delete_ne, lookup_insert_ne by done. Qed.
Lemma put_inode_children p x t cs : (p ∉ flat_map addrs cs) -> Forall (child_of t p) cs -> Forall (child_of (put_inode p x t) p) cs.
Proof.
  intros Hp F. rewrite !Forall_forall in *. intros c Hc. pose proof (F c Hc) as H. apply list_elem_of_In in Hc.
  apply (child_frame lw iw t); [|done..]. intros b Hb. apply put_inode_same. intros ->. apply Hp, elem_of_flat_map. by exists c.
Qed.
Lemma put_inode_at p x t ks cs : 0 < heights t p -> 0 <= nkeys_ x <= iw -> keys x = ks -> kids x = cs -> inode_at iw (put_inode p x t) p ks cs.
Proof.
  intros Hh Hn Hk Hc. split_and!; cbn; [by rewrite lookup_delete_eq|done|]. exists x. by rewrite lookup_insert_eq.
Qed.
Lemma put_inode_ctx p x t D a h : (p ∉ ctx_addrs D) -> rep_ctx t D a h -> rep_ctx (put_inode p x t) D a h.
Proof.
  intros Hp. apply rep_ctx_frame; [|done]. intros b Hb. split; [|done]. apply put_inode_same. by intros ->.
Qed.

(** Only the keys and children of some nodes change. *)
Definition rekeyed (S : list Z) (t t' : tree) : Prop :=
  forall b, leaves t' !! b = leaves t !! b /\ parents t' b = parents t b /\ is_root t' b = is_root t b /\ heights t' b = heights t b /\
    (b ∉ S -> inodes t' !! b = inodes t !! b).
Lemma rekeyed_refl S t : rekeyed S t t.
Proof. done. Qed.
Lemma rekeyed_trans S t1 t2 t3 : rekeyed S t1 t2 -> rekeyed S t2 t3 -> rekeyed S t1 t3.
Proof.
  intros H1 H2 b. destruct (H1 b) as (A1 & A2 & A3 & A4 & A5), (H2 b) as (B1 & B2 & B3 & B4 & B5).
  split_and!; try congruence. intros Hb. rewrite B5, A5; done.
Qed.
Lemma rekeyed_sub S S' t t' : rekeyed S t t' -> (forall b, b ∈ S -> b ∈ S') -> rekeyed S' t t'.
Proof. intros H HS b. destruct (H b) as (A1 & A2 & A3 & A4 & A5). split_and!; try done. intros Hb. apply A5. intros Hb'. by apply Hb, HS. Qed.
Lemma rekeyed_same S t t' b : rekeyed S t t' -> (b ∉ S) -> same_node t t' b /\ same_parent t t' b.
Proof. intros H Hb. destruct (H b) as (A1 & A2 & A3 & A4 & A5). split; [|done]. split_and!; auto. Qed.
Lemma rekeyed_put p x t S : leaves t !! p = None -> p ∈ S -> rekeyed S t (put_inode p x t).
Proof.
  intros Hl Hp b. cbn. split_and!; try done.
  - destruct (decide (b = p)) as [->|]; [by rewrite lookup_delete_eq|by rewrite lookup_delete_ne].
  - intros Hb. rewrite lookup_insert_ne; [done|]. by intros ->.
Qed.

(** [redirect] in the context of a node. *)
Lemma redirect_ok ik y D : forall t n h fuel, rep_ctx t D n h -> StronglySorted tok_lt (pre D ++ post D) ->
  Forall (tok_below ik) (pre D) -> Forall (tok_above ik) (post D) -> NoDup (ctx_addrs D) -> (forall b, b ∈ ctx_addrs D -> b <> 0) -> n <> 0 ->
  (exists i, K i ∈ pre D) -> (List.length D < fuel)%nat ->
  exists t', redirect bnd fuel n ik y t = Some t' /\ rep_ctx t' (redir y D) n h /\ rekeyed (ctx_addrs D) t t'.
Proof.
  induction D as [|f D IH]; intros t n h fuel HC Hs Hb Ha Hnd H0 Hn [i Hi] Hf; [by apply elem_of_nil in Hi|]. destruct fuel as [|fuel]; [lia|].
  destruct HC as [HF HC]. pose proof HF as (Fp & Fh & _ & Fr & Fl & Fc).
  destruct (node_known t f D _ n h [] ik HF Hs Hb Ha) as [x [N1 N2 N0 N3 N4 N5 N6 N7 N8 N9 N10]].
  cbn [ctx_addrs flat_map] in Hnd, H0. unfold frame_addrs in Hnd, H0. cbn [app] in Hnd, H0.
  apply list.NoDup_cons in Hnd as [Hfn Hnd]. apply list.NoDup_app in Hnd as (_ & HD & Hnd). rewrite not_elem_of_app in Hfn. destruct Hfn as [Hfc HfD].
  change (flat_map frame_addrs D) with (ctx_addrs D) in *.
  assert (H0' : fn f <> 0 /\ (forall c, c ∈ (addr <$> fcl f) ++ n :: (addr <$> fcr f) -> c <> 0) /\ forall b, b ∈ ctx_addrs D -> b <> 0).
  { split_and!; [apply H0; left| |intros b Hbd; apply H0; right; apply elem_of_app; by right].
    intros c Hc. rewrite elem_of_app, elem_of_cons in Hc. assert (Hc' : c = n \/ c ∈ addr <$> (fcl f ++ fcr f)) by (rewrite fmap_app, elem_of_app; tauto).
    destruct Hc' as [->|(g & -> & Hg)%list_elem_of_fmap]; [done|]. apply H0. right. apply elem_of_app. left. apply elem_of_flat_map.
    exists g. split; [done|apply addr_in]. }
  destruct H0' as (H01 & H02 & H03). pose proof (first_child x _ _ N5 H02 ltac:(lia)) as Hfirst.
  cbn [pre post] in Hs, Hb, Ha, Hi. apply Forall_app in Hb as [Hb _]. apply Forall_app in Ha as [_ Ha].
  assert (HsD : StronglySorted tok_lt (pre D ++ post D)).
  { rewrite <- app_assoc in Hs. apply (sorted_sub _ _ (frame_pre f ++ frame_post f)). by rewrite <- !app_assoc. }
  cbn [redirect]. rewrite Fp, N2. cbn [mbind option_bind]. rewrite N9. cbn [mbind option_bind]. rewrite Hfirst.
  cbn [redir]. unfold kpos. destruct (fkl f) as [|k ks] eqn:Ek.
  - (* no child before the node *)
    assert (Ecl : fcl f = []) by (by destruct (fcl f)). rewrite Ecl in *.
    assert (HiD : K i ∈ pre D).
    { unfold frame_pre in Hi. rewrite Ek, Ecl in Hi. cbn in Hi. rewrite app_nil_r, elem_of_app in Hi. destruct Hi as [?|Hi]; [done|].
      by apply list_elem_of_fmap in Hi as (? & ? & _). }
    set (x' := set_key x 0 y). set (t1 := if fh f then put_inode (fn f) x' t else t).
    assert (R1 : rekeyed [fn f] t t1) by (unfold t1; destruct (fh f); [apply rekeyed_put; [done|left]|done]).
    assert (HC1 : rep_ctx t1 D (fn f) (heights t1 (fn f))).
    { unfold t1. destruct (fh f); [|done]. by apply put_inode_ctx. }
    destruct (IH t1 (fn f) _ fuel HC1 HsD Hb Ha Hnd H03 H01 (ex_intro _ i HiD) ltac:(cbn in Hf; lia)) as (t' & Et & HC' & R').
    exists t'. split_and!.
    + destruct (fh f) as [k|]; cbn [option_list app List.length Z.of_nat Z.ltb Z.eqb Z.compare Pos.compare orb andb Pos.of_succ_nat]; exact Et.
    + cbn [TreeShape.rep_ctx fn]. rewrite (proj2 (proj2 (proj2 (proj2 (redir_same y D))))).
      destruct (R' (fn f)) as (_ & _ & _ & -> & _). split; [|exact HC'].
      apply (frame_frame lw iw t1).
      * intros b Hbf. apply (rekeyed_same _ _ _ _ R'). intros Hbd. unfold frame_addrs in Hbf. cbn in Hbf.
        apply elem_of_cons in Hbf as [->|Hbf]; [done|]. by apply (HD b).
      * destruct (R' n) as (_ & ? & _). done.
      * unfold frame_at. cbn [fn fh fkl fcl fkr fcr]. destruct (R1 n) as (_ & -> & _), (R1 (fn f)) as (_ & _ & -> & -> & _).
        cbn in N10 |- *. unfold t1. destruct (fh f) as [k|] eqn:Eh; cbn in *; split_and!; try done.
        -- apply put_inode_at; [done|cbn; lia| |done]. exact (keys_set_key x [] k (fkr f) y ltac:(lia) N4).
        -- by apply put_inode_children.
        -- split_and!; [done|done|]. exists x. split_and!; try done; lia.
    + eapply rekeyed_trans; [eapply rekeyed_sub; [exact R1|intros b ->%list_elem_of_singleton; left]|].
      eapply rekeyed_sub; [exact R'|]. intros b Hbd. cbn [ctx_addrs flat_map]. apply elem_of_app. by right.
  - (* a key of this node *)
    set (kp := Z.of_nat _). assert (Hkp : 0 < kp) by (unfold kp; rewrite length_app; cbn; lia).
    rewrite (proj2 (Z.ltb_lt _ _) Hkp), (proj2 (Z.eqb_neq kp 0)) by lia. cbn [orb].
    assert (Hstop : (kp =? 1) && match fh f with Some _ => true | None => false end = false).
    { destruct (fh f) as [k0|]; [|by rewrite andb_false_r]. rewrite andb_true_r. apply Z.eqb_neq. unfold kp. rewrite length_app. cbn. lia. }
    rewrite Hstop. set (x' := set_key x (kp - 1) y). exists (put_inode (fn f) x' t). split; [done|].
    assert (Ekeys : keys x' = option_list (fh f) ++ (removelast (k :: ks) ++ [y]) ++ fkr f).
    { pose proof (app_removelast_last 0 (l := k :: ks) ltac:(done)) as Er. rewrite Er in N4. rewrite <- (app_assoc (removelast (k :: ks))), (app_assoc (option_list (fh f))) in N4 |- *.
      cbn [app] in N4 |- *. rewrite <- (keys_set_key x _ _ _ y ltac:(lia) N4). unfold x'. f_equal. f_equal. unfold kp. clear -Er. apply (f_equal List.length) in Er. rewrite !length_app in *. rewrite Er. cbn [List.length]. lia. }
    split; [|apply rekeyed_put; [done|left]]. cbn [TreeShape.rep_ctx]. split; [|by apply put_inode_ctx].
    unfold frame_at. cbn [fn fh fkl fcl fkr fcr]. split_and!; try done.
    + apply put_inode_at; [done|cbn; lia|done|done].
    + rewrite <- Fl. rewrite length_app, (app_removelast_last 0 (l := k :: ks)) by done. rewrite length_app. cbn. by rewrite removelast_last.
    + apply put_inode_children; done.
Qed.

(** * The loop *)

(** What takes the place of a removed node: a shape or nothing. *)
Definition oflat (r : option shape) : list tok := from_option flat [] r.
Definition oaddr (r : option shape) : Z := from_option addr 0 r.
Definition oaddrs (r : option shape) : list Z := from_option addrs [] r.
Definition oleaves (r : option shape) : list Z := from_option leaf_addrs [] r.

(** Before a turn: the node [a] of height [h] goes, and [r] takes its place. *)
Record cut (t : tree) (C : list frame) (a h : Z) (r : option shape) (ik top : Z) : Prop := {
  ct_rep : forall g, r = Some g -> rep t false g /\ hgt t g <= h;
  ct_ctx : rep_ctx t C a h;
  ct_null : a <> 0;
  ct_context : C <> [];
  ct_nodup : NoDup (oaddrs r ++ ctx_addrs C);
  ct_nonnull : forall b, b ∈ oaddrs r ++ ctx_addrs C -> b <> 0;
  ct_ordered : ordered (pre C ++ oflat r ++ post C);
  ct_pre : Forall (tok_below ik) (pre C);
  ct_post : Forall (tok_above ik) (post C);
  ct_sep : r = None -> K ik ∈ pre C;
  ct_top : addr (fill C (SLeaf a None [])) = top
}.
(** After a turn: the shape [g] in its context. *)
Record placed (t : tree) (D : list frame) (g : shape) (top : Z) : Prop := {
  pl_rep : rep t (is_nil D) g;
  pl_ctx : rep_ctx t D (addr g) (hgt t g);
  pl_nodup : NoDup (addrs g ++ ctx_addrs D);
  pl_nonnull : forall b, b ∈ addrs g ++ ctx_addrs D -> b <> 0;
  pl_ordered : ordered (pre D ++ flat g ++ post D);
  pl_top : addr (fill D g) = top
}.
(** What is lost on the way: no entry and no leaf. *)
Record lost (C : list frame) (r : option shape) (D : list frame) (r' : option shape) (freed : list Z) : Prop := {
  ls_ents : ents (pre C) ++ ents (oflat r) ++ ents (post C) = ents (pre D) ++ ents (oflat r') ++ ents (post D);
  ls_addrs : oaddrs r ++ ctx_addrs C ≡ₚ oaddrs r' ++ ctx_addrs D ++ freed;
  ls_leaves : lpre C ++ oleaves r ++ lpost C = lpre D ++ oleaves r' ++ lpost D
}.
Lemma lost_trans C1 r1 C2 r2 C3 r3 l l' : lost C1 r1 C2 r2 l -> lost C2 r2 C3 r3 l' -> lost C1 r1 C3 r3 (l' ++ l).
Proof.
  intros [E1 P1 L1] [E2 P2 L2]. split; [congruence| |congruence]. rewrite P1, app_assoc, P2. by rewrite <- !app_assoc.
Qed.
Lemma lost_refl C r : lost C r C r [].
Proof. split; [done| |done]. by rewrite app_nil_r. Qed.
(** Leaves, root bits and heights stay. *)
Definition inner (S : list Z) (t t' : tree) : Prop :=
  forall b, leaves t' !! b = leaves t !! b /\ is_root t' b = is_root t b /\ heights t' b = heights t b /\
    (b ∉ S -> inodes t' !! b = inodes t !! b /\ parents t' b = parents t b).
Lemma inner_rekeyed S t t' : rekeyed S t t' -> inner S t t'.
Proof. intros H b. destruct (H b) as (A1 & A2 & A3 & A4 & A5). split_and!; auto. Qed.
Lemma inner_trans S t1 t2 t3 : inner S t1 t2 -> inner S t2 t3 -> inner S t1 t3.
Proof.
  intros H1 H2 b. destruct (H1 b) as (A1 & A2 & A3 & A4), (H2 b) as (B1 & B2 & B3 & B4).
  split_and!; try congruence. intros Hb. destruct (A4 Hb), (B4 Hb). split; congruence.
Qed.
Lemma inner_sub S S' t t' : inner S t t' -> (forall b, b ∈ S -> b ∈ S') -> inner S' t t'.
Proof. intros H HS b. destruct (H b) as (A1 & A2 & A3 & A4). split_and!; try done; intros Hb; apply A4; intros Hb'; by apply Hb, HS. Qed.
Lemma inner_outside S t t' : inner S t t' -> outside S t t'.
Proof. intros H b Hb. destruct (H b) as (A1 & A2 & A3 & A4). destruct (A4 Hb). by split. Qed.

(** The rest of a turn, once the node has been changed. *)
Definition turn_rest (fuel : nat) (p kp ikey : Z) (x : internode) (t : tree) : option (tree * Z * option (Z * Z)) :=
  '(t, ikey) ← if (kp <=? 1) && (0 <? nkeys_ x) && (child_ x 0 =? 0)
               then t ← redirect bnd fuel p ikey (Internode.ikey0_ x 0) t; Some (t, Internode.ikey0_ x 0)
               else Some (t, ikey);
  if (b2z (child_ x 0 =? 0) <? nkeys_ x) || is_root t p then Some (t, ikey, None)
  else Some (put_inode p (set_child x (nkeys_ x) 0) t, ikey, Some (p, child_ x (nkeys_ x))).

(** How a turn ends. *)
Definition turn_ends (t0 : tree) (C : list frame) (r : option shape) (p hp top : Z) (n : nat) (res : option (tree * Z * option (Z * Z))) : Prop :=
  exists t' ik' D, List.length D = n /\ inner (oaddrs r ++ ctx_addrs C) t0 t' /\
    ((exists g, res = Some (t', ik', None) /\ placed t' D g top /\ lost C r D (Some g) []) \/
     (exists r', res = Some (t', ik', Some (p, oaddr r')) /\ cut t' D p hp r' ik' top /\ lost C r D r' [p])).

Lemma ents_keys A i m : ents (A ++ K i :: replicate m (J i)) = ents A.
Proof. rewrite ents_app. replace (ents (K i :: replicate m (J i))) with ([] : list entry); [by rewrite app_nil_r|]. cbn. by induction m. Qed.
Lemma redir_ents y D : ctx_wf D -> StronglySorted tok_lt (pre D) -> forall i, K i ∈ pre D -> Forall (tok_below i) (pre D) ->
  ents (pre (redir y D)) = ents (pre D).
Proof.
  intros HD Hs i Hi Hb. destruct (pre_tail D i HD Hs Hi Hb) as (A & m & E). pose proof (redir_pre y D HD A i m E) as E'.
  by rewrite E, E', !ents_keys.
Qed.

(** The child that is left takes the place of the node. *)
Lemma collapse_ends t D n h1 c top ik : placed t D (SNode n h1 [] [c]) top -> D <> [] -> Forall (tok_below ik) (pre D) -> Forall (tok_above ik) (post D) ->
  forall x, inodes t !! n = Some x ->
  cut (put_inode n (set_child x (nkeys_ x) 0) t) D n (heights t n) (Some c) ik top /\ child_ x (nkeys_ x) = addr c /\
    lost D (Some (SNode n h1 [] [c])) D (Some c) [n].
Proof.
  intros [Hr HC Hnd H0 Ho Ht] HD Hb Ha x Hx. cbn [addr hgt] in HC. apply rep_SNode in Hr as ((Hl & Hh & x' & Hx' & Hn & Ek & Ec) & Hroot & F).
  assert (x' = x) as -> by congruence. cbn [addrs flat_map] in Hnd, H0. rewrite app_nil_r in Hnd, H0.
  assert (Ef : flat (SNode n h1 [] [c]) = lead h1 ++ flat c) by (cbn; by rewrite app_nil_r). rewrite Ef in Ho.
  cbn [app] in Hnd. apply list.NoDup_cons in Hnd as [Hnn Hnd]. rewrite elem_of_app in Hnn. pose proof (List.Forall_inv F) as (Fp & Fh & Fr).
  split; [|split].
  - split.
    + intros g [= <-]. assert (HN : forall b, b ∈ addrs c -> same_node t (put_inode n (set_child x (nkeys_ x) 0) t) b).
      { intros b Hbc. apply put_inode_same. intros ->. tauto. }
      split; [apply (rep_frame lw iw t); done|]. rewrite (hgt_frame t) by apply HN, addr_in. lia.
    + apply put_inode_ctx; [tauto|done].
    + apply H0. left.
    + exact HD.
    + exact Hnd.
    + intros b Hbc. apply H0. cbn. by right.
    + destruct h1 as [k|]; [|exact Ho]. cbn in Ho |- *. by apply (ordered_drop (pre D) (J k)).
    + done. + done. + done.
    + rewrite <- Ht. by apply addr_fill.
  - pose proof (length_keys x ltac:(lia)) as L. rewrite Ek, app_nil_r in L. unfold kids in Ec. rewrite (arr_cut (nkeys_ x)) in Ec by lia.
    replace (nkeys_ x + 1 - nkeys_ x) with 1 in Ec by lia. rewrite arr_one, Z.add_0_l in Ec. by apply app_inj_tail in Ec as [_ Ec].
  - split; cbn [oflat oaddrs oleaves from_option].
    + rewrite Ef, ents_app. by replace (ents (lead h1)) with ([] : list entry) by (by destruct h1).
    + cbn [addrs flat_map]. rewrite app_nil_r. solve_Permutation.
    + cbn. by rewrite app_nil_r.
Qed.

Lemma turn_rest_ends t0 C r t1 D n h1 ks1 cs1 x1 kp ik top fuel : let g := SNode n h1 ks1 cs1 in
  rep t1 (is_nil D) g -> inodes t1 !! n = Some x1 -> rep_ctx t1 D n (heights t1 n) ->
  NoDup (addrs g ++ ctx_addrs D) -> (forall b, b ∈ addrs g ++ ctx_addrs D -> b <> 0) -> addr (fill D g) = top ->
  lost C r D (Some g) [] -> inner (oaddrs r ++ ctx_addrs C) t0 t1 -> (forall b, b ∈ ctx_addrs D -> b ∈ oaddrs r ++ ctx_addrs C) -> (n ∈ oaddrs r ++ ctx_addrs C) ->
  StronglySorted tok_lt (pre D ++ post D) -> Forall (tok_below ik) (pre D) -> Forall (tok_above ik) (post D) ->
  match (if kp <=? 1 then h1 else None) with
  | Some k => (exists i, K i ∈ pre D /\ Forall (tok_below i) (pre D)) /\ ordered (pre (redir k D) ++ flat g ++ post D) /\
      Forall (tok_below k) (pre (redir k D)) /\ Forall (tok_above k) (post D)
  | None => ordered (pre D ++ flat g ++ post D)
  end -> (List.length D < fuel)%nat ->
  turn_ends t0 C r n (heights t1 n) top (List.length D) (turn_rest fuel n kp ik x1 t1).
Proof.
  intros g Hr Hx HC Hnd H0 Htop HL HI HDs Hns Hs Hb Ha Hk Hf. pose proof Hr as Hr0. apply rep_SNode in Hr0 as ((Hl & Hh & x & Hx' & Hn & Ek & Ec) & Hroot & F).
  assert (x = x1) as -> by congruence. set (rd := (kp <=? 1) && match h1 with Some _ => true | None => false end).
  assert (Hfirst : (child_ x1 0 =? 0) = match h1 with Some _ => true | None => false end).
  { apply (first_child x1 h1 _ Ec); [|lia]. intros c (c' & -> & Hc)%list_elem_of_fmap. apply H0. right. apply elem_of_app. left.
    apply elem_of_flat_map. exists c'. split; [done|apply addr_in]. }
  assert (Hnn : n ∉ flat_map addrs cs1 ++ ctx_addrs D) by (by apply list.NoDup_cons in Hnd as [? _]).
  assert (Hn0 : n <> 0) by (apply H0; left). rewrite not_elem_of_app in Hnn. destruct Hnn as [Hnc HnD].
  assert (HD : forall b, b ∈ ctx_addrs D -> b ∉ addrs g).
  { apply list.NoDup_app in Hnd as (_ & Hd & _). intros b Hbd Hbg. by apply (Hd b). }
  (* the tree after redirect *)
  assert (Hmid : exists t2 ik2 D2, (if (kp <=? 1) && (0 <? nkeys_ x1) && (child_ x1 0 =? 0)
      then t ← redirect bnd fuel n ik (Internode.ikey0_ x1 0) t1; Some (t, Internode.ikey0_ x1 0) else Some (t1, ik)) = Some (t2, ik2) /\
      rekeyed (ctx_addrs D) t1 t2 /\ placed t2 D2 g top /\ Forall (tok_below ik2) (pre D2) /\ Forall (tok_above ik2) (post D2) /\
      is_nil D2 = is_nil D /\ List.length D2 = List.length D /\ lost D (Some g) D2 (Some g) []).
  { rewrite Hfirst. destruct (kp <=? 1) eqn:Ekp; [destruct h1 as [k|]|]; cbn [andb].
    - destruct Hk as ((i & Hi & Hbi) & Ho & Hb2 & Ha2). pose proof (lookup_keys x1 0) as L0. rewrite Ek in L0.
      assert (Hn1 : 0 < nkeys_ x1) by (pose proof (length_keys x1 ltac:(lia)) as L; rewrite Ek in L; cbn in L; lia).
      specialize (L0 ltac:(lia)). injection L0 as L0. rewrite <- L0, andb_true_r, (proj2 (Z.ltb_lt _ _) Hn1).
      assert (HwD : ctx_wf D) by (by eapply rep_ctx_wf).
      destruct (redirect_ok ik k D t1 n _ fuel HC Hs Hb Ha) as (t2 & -> & HC2 & R2); [..|done|by exists i|done|].
      { by apply list.NoDup_app in Hnd as (_ & _ & ?). } { intros b Hbd. apply H0, elem_of_app. by right. }
      destruct (redir_same k D) as (S1 & S2 & S3 & S4 & S5). exists t2, k, (redir k D). split; [done|]. split; [done|]. split; [|rewrite S3; split_and!; try done].
      + split; try done; [| |by rewrite S4..|by rewrite S3|by rewrite redir_addr].
        * rewrite S5. apply (rep_frame lw iw t1); [..|done]; intros b Hbg; eapply rekeyed_same; try exact R2; [intros HbD; by apply (HD b)|].
          intros HbD. apply (HD b HbD). rewrite addrs_below. by right.
        * cbn [addr hgt g]. by destruct (R2 n) as (_ & _ & _ & -> & _).
      + clear. induction D as [|f D IH]; [done|]. cbn. destruct (fkl f); cbn; congruence.
      + split; [|by rewrite S4, app_nil_r|by rewrite S1, S2]. rewrite S3. f_equal. symmetry. apply sorted_app_iff in Hs as (Hs & _ & _). by eapply redir_ents.
    - exists t1, ik, D. rewrite andb_false_r. split_and!; try done. apply lost_refl.
    - exists t1, ik, D. split_and!; try done. apply lost_refl. }
  destruct Hmid as (t2 & ik2 & D2 & E2 & R2 & P2 & Hb2 & Ha2 & En & El & L2). unfold turn_rest. rewrite E2. cbn [mbind option_bind].
  assert (I2 : inner (oaddrs r ++ ctx_addrs C) t0 t2) by (eapply inner_trans; [exact HI|]; apply inner_rekeyed; by eapply rekeyed_sub).
  destruct (R2 n) as (Hl2 & _ & Hr2 & Hh2 & Hx2). rewrite Hl in Hl2. rewrite Hx in Hx2. specialize (Hx2 HnD). rewrite Hfirst, Hr2, Hroot.
  destruct ((b2z _ <? nkeys_ x1) || is_nil D) eqn:Estop.
  - exists t2, ik2, D2. split_and!; [done|done|left]. exists g. split_and!; [done|done|]. exact (lost_trans _ _ _ _ _ _ _ _ HL L2).
  - apply orb_false_iff in Estop as [Es1 Es2]. apply Z.ltb_ge in Es1.
    pose proof (length_keys x1 ltac:(lia)) as Lk. rewrite Ek, length_app in Lk.
    assert (ks1 = []) as ->. { destruct ks1; [done|]. destruct h1; cbn in Lk, Es1; lia. }
    assert (exists c, cs1 = [c]) as [c ->].
    { pose proof (rep_kids lw iw t1 _ n h1 [] cs1 Hr) as Lc. destruct cs1 as [|c [|]]; cbn in Lc; try lia. by exists c. }
    destruct (collapse_ends t2 D2 n h1 c top ik2 P2 ltac:(by destruct D, D2) Hb2 Ha2 x1 Hx2) as (Hcut & -> & L3).
    eexists _, ik2, D2. split; [done|]. split; [|right; exists (Some c); split; [done|]; split; [by rewrite <- Hh2|]].
    + eapply inner_trans; [exact I2|]. apply inner_rekeyed, rekeyed_put; done.
    + apply (lost_trans _ _ _ _ _ _ [] [n] (lost_trans _ _ _ _ _ _ [] [] HL L2) L3).
Qed.

(** What is known at the start of a turn. *)
Record turning (t : tree) (f : frame) (D : list frame) (a h : Z) (r : option shape) (ik : Z) (x : internode) : Prop := {
  tu_node : node_facts t f a ik x;
  tu_parent : parents t a = fn f;
  tu_hgt : h < heights t (fn f);
  tu_ctx : rep_ctx t D (fn f) (heights t (fn f));
  tu_root : is_root t (fn f) = is_nil D;
  tu_wf : ctx_wf D;
  tu_sorted : StronglySorted tok_lt (pre D ++ post D);
  tu_pre : Forall (tok_below ik) (pre D);
  tu_post : Forall (tok_above ik) (post D);
  tu_own : (fn f ∉ oaddrs r) /\ (fn f ∉ flat_map addrs (fcl f ++ fcr f)) /\ (fn f ∉ ctx_addrs D);
  tu_nodup : NoDup (oaddrs r ++ fn f :: flat_map addrs (fcl f ++ fcr f) ++ ctx_addrs D)
}.
Lemma cut_turning t f D a h r ik top : cut t (f :: D) a h r ik top -> exists x, turning t f D a h r ik x.
Proof.
  intros [Hr [HF HC] Ha0 _ Hnd H0 [Hs _] Hb Ha Hsep Ht]. pose proof HF as (F1 & F2 & _ & F4 & _).
  destruct (node_known t f D _ a h (oflat r) ik HF Hs Hb Ha) as [x N]. exists x.
  assert (EQ : ctx_addrs (f :: D) = fn f :: flat_map addrs (fcl f ++ fcr f) ++ ctx_addrs D) by done. rewrite EQ in Hnd, H0.
  split; try done.
  - by eapply rep_ctx_wf.
  - cbn [pre post] in Hs. rewrite <- !app_assoc in Hs. apply (sorted_sub _ _ (frame_pre f ++ oflat r ++ frame_post f)). by rewrite <- !app_assoc.
  - by apply Forall_app in Hb as [? _].
  - by apply Forall_app in Ha as [_ ?].
  - apply list.NoDup_app in Hnd as (_ & H1 & H2). apply list.NoDup_cons in H2 as [H2 _]. rewrite not_elem_of_app in H2.
    split; [|done]. intros H. apply (H1 _ H). left.
Qed.

Lemma fn_addrs f D S : (fn f ∈ S ++ ctx_addrs (f :: D)) /\ forall b, b ∈ ctx_addrs D -> b ∈ S ++ ctx_addrs (f :: D).
Proof.
  assert (EQ : ctx_addrs (f :: D) = fn f :: flat_map addrs (fcl f ++ fcr f) ++ ctx_addrs D) by done. rewrite EQ.
  split; [apply elem_of_app; right; left|]. intros b Hb. rewrite elem_of_app, elem_of_cons, elem_of_app. tauto.
Qed.

(** A child takes the place of the node. *)
Lemma turn_child t f D a h c ik top fuel x : cut t (f :: D) a h (Some c) ik top -> turning t f D a h (Some c) ik x -> (List.length D < fuel)%nat ->
  turn_ends t (f :: D) (Some c) (fn f) (heights t (fn f)) top (List.length D) (remove_turn bnd fuel a (addr c) ik t).
Proof.
  intros CT [[N1 N2 N0 N3 N4 N5 N6 N7 N8 N9 N10] Fp Fh HC Fr HwD HsD HbD HaD (O1 & O2 & O3) Hnd] Hf.
  destruct CT as [Hrep _ Ha0 _ _ H0 Ho Hb Ha _ Ht]. destruct (Hrep c eq_refl) as [Hrc Hhc]. cbn [oaddrs oflat from_option] in *.
  destruct (fn_addrs f D (addrs c)) as [Fn FD].
  assert (Hc0 : addr c <> 0) by (apply H0, elem_of_app; left; apply addr_in).
  set (x1 := set_child x (kpos f) (addr c)). set (tp := put_parents (set_parent (addr c) (fn f) (parents t)) t). set (t1 := put_inode (fn f) x1 tp).
  unfold remove_turn. rewrite Fp, N2. cbn [mbind option_bind]. rewrite N9. cbn [mbind option_bind]. fold x1.
  rewrite (proj2 (Z.eqb_neq _ _) Hc0). cbn [negb]. fold tp t1.
  assert (Hnode : forall b, b <> fn f -> same_node t t1 b) by (intros b Hbf; apply (put_inode_same (fn f) x1 tp b Hbf)).
  assert (Hpar : forall b, b <> addr c -> same_parent t t1 b) by (intros b Hbc; unfold same_parent; cbn; unfold set_parent; by rewrite fn_lookup_insert_ne).
  assert (Hnd' : NoDup (addrs (plug f c) ++ ctx_addrs D)).
  { rewrite addrs_plug. unfold frame_addrs. by rewrite <- app_assoc. }
  apply list.NoDup_app in Hnd as (Nc & Dc & _). rewrite addrs_below in Nc. apply list.NoDup_cons in Nc as [Nc _].
  assert (Hkids : kids x1 = hkids (fh f) ++ (addr <$> fcl f) ++ addr c :: (addr <$> fcr f)).
  { rewrite app_assoc in N5 |- *. apply (kids_set_child x _ _ _ a _ N5); [by apply kpos_len|lia]. }
  assert (HF : frame_at lw iw t1 f (is_nil D) (addr c) (hgt t1 c)).
  { assert (Hh1 : hgt t1 c = hgt t c) by (apply hgt_frame, Hnode; intros E; rewrite <- E in O1; apply O1, addr_in).
    unfold frame_at. rewrite Hh1. split_and!; try done.
    - cbn. unfold set_parent. by rewrite fn_lookup_insert.
    - cbn. lia.
    - by apply put_inode_at.
    - apply put_inode_children; [done|]. rewrite !Forall_forall in *. intros c' Hc'. pose proof (N10 c' Hc') as H'. apply list_elem_of_In in Hc'.
      apply (child_frame lw iw t); [done| |done|done]. intros b Hbc. apply Hpar. intros ->. apply (Dc (addr c) (addr_in c)).
      right. apply elem_of_app. left. apply elem_of_flat_map. by exists c'. }
  assert (Hrc1 : rep t1 false c).
  { apply (rep_frame lw iw t); [..|done]; intros b Hbc; [apply Hnode; by intros ->|apply Hpar; by intros ->]. }
  change (turn_ends t (f :: D) (Some c) (fn f) (heights t1 (fn f)) top (List.length D) (turn_rest fuel (fn f) (kpos f) ik x1 t1)).
  assert (Eflat : pre D ++ flat (plug f c) ++ post D = pre (f :: D) ++ flat c ++ post (f :: D)).
  { rewrite flat_plug by done. cbn [pre post]. by rewrite <- !app_assoc. }
  apply (turn_rest_ends t (f :: D) (Some c) t1 D (fn f) (fh f) (fkl f ++ fkr f) (fcl f ++ c :: fcr f) x1); try done.
  - change (rep t1 (is_nil D) (plug f c)). by apply rep_plug.
  - cbn. by rewrite lookup_insert_eq.
  - apply put_inode_ctx; [done|]. apply (rep_ctx_frame lw iw t); [|apply Hpar|done].
    + intros b Hbd. split; [done|]. apply Hpar. intros ->. apply (Dc (addr c) (addr_in c)). right. apply elem_of_app. by right.
    + intros E. rewrite E in O1. apply O1, addr_in.
  - intros b Hbp. apply H0. revert Hbp. change (SNode _ _ _ _) with (plug f c). rewrite !elem_of_app, addrs_plug, elem_of_app.
    change (ctx_addrs (f :: D)) with (frame_addrs f ++ ctx_addrs D). rewrite elem_of_app. tauto.
  - rewrite <- Ht. by apply (addr_fill D).
  - split; cbn [oflat oaddrs oleaves from_option].
    + pose proof (f_equal ents Eflat) as E. rewrite !ents_app in E. symmetry. exact E.
    + change (SNode _ _ _ _) with (plug f c). rewrite addrs_plug, app_nil_r. change (ctx_addrs (f :: D)) with (frame_addrs f ++ ctx_addrs D). by rewrite app_assoc.
    + cbn [leaf_addrs lpre lpost]. rewrite flat_map_app. cbn [flat_map]. by rewrite <- !app_assoc.
  - intros b. cbn. split_and!; try done.
    + destruct (decide (b = fn f)) as [->|]; [by rewrite lookup_delete_eq|by rewrite lookup_delete_ne].
    + intros Hbn. rewrite lookup_insert_ne by (intros E; apply Hbn; rewrite <- E; exact Fn). split; [done|]. apply Hpar. intros ->. apply Hbn, elem_of_app. left. apply addr_in.
  - change (SNode _ _ _ _) with (plug f c). rewrite Eflat. destruct (kpos f <=? 1) eqn:Ekp; [|done]. destruct (fh f) as [k|] eqn:Eh; [|done].
    (* the key behind the null child repeats the one that separates the node *)
    assert (Ekl : fkl f = []). { apply Z.leb_le in Ekp. unfold kpos in Ekp. rewrite Eh, length_app in Ekp. destruct (fkl f); [done|]. cbn in Ekp. lia. }
    assert (Ecl : fcl f = []) by (destruct (fcl f); [done|]; by rewrite Ekl in N6).
    assert (Epre : pre (f :: D) = pre D ++ [J k]) by (cbn [pre]; unfold frame_pre; by rewrite Eh, Ekl, Ecl).
    rewrite Epre in *. destruct Ho as [HoS HoH]. pose proof HoH as Hk. rewrite <- app_assoc, holes_app in Hk. destruct Hk as (_ & Hk & _). cbn [app] in Hk.
    assert (Hbk : Forall (tok_below k) (pre D)) by (rewrite <- app_assoc in HoS; by eapply sorted_below).
    destruct (pre_tail D k HwD) as (A & m & EA); [by apply sorted_app_iff in HsD as (? & _)|exact Hk|done|]. rewrite (redir_pre k D HwD A k m EA), <- EA.
    split; [by exists k|]. split; [rewrite Eflat; exact (conj HoS HoH)|]. split; [done|]. apply (above_mono k ik); [|done]. apply Forall_app in Hb as [_ Hb]. by apply list.Forall_cons in Hb as [? _].
Qed.

(** A key and the child behind it go. *)
Lemma turn_key t f D a h ik top fuel x ks k cs c : cut t (f :: D) a h None ik top -> turning t f D a h None ik x -> (List.length D < fuel)%nat ->
  fkl f = ks ++ [k] -> fcl f = cs ++ [c] ->
  turn_ends t (f :: D) None (fn f) (heights t (fn f)) top (List.length D) (remove_turn bnd fuel a 0 ik t).
Proof.
  intros CT [[N1 N2 N0 N3 N4 N5 N6 N7 N8 N9 N10] Fp Fh HC Fr HwD HsD HbD HaD (_ & O2 & O3) Hnd] Hf Ek Ec.
  destruct CT as [_ _ Ha0 _ _ H0 Ho Hb Ha _ Ht]. cbn [oaddrs oflat from_option app] in *.
  destruct (fn_addrs f D []) as [Fn FD].
  assert (Hkp : kpos f = Z.of_nat (List.length (option_list (fh f) ++ ks)) + 1) by (unfold kpos; rewrite Ek, !length_app; cbn; lia).
  set (x1 := drop_child x (kpos f)). set (t1 := put_inode (fn f) x1 t).
  unfold remove_turn. rewrite Fp, N2. cbn [mbind option_bind]. rewrite N9. cbn [mbind option_bind].
  change (negb (0 =? 0)) with false. cbn match. rewrite (proj2 (Z.ltb_lt 0 (kpos f))) by lia. fold (drop_child x (kpos f)). fold x1 t1.
  change (turn_ends t (f :: D) None (fn f) (heights t1 (fn f)) top (List.length D) (turn_rest fuel (fn f) (kpos f) ik x1 t1)).
  assert (Hlen : List.length ks = List.length cs) by (rewrite Ek, Ec, !length_app in N6; cbn in N6; lia).
  assert (Hx1 : keys x1 = option_list (fh f) ++ ks ++ fkr f /\ kids x1 = hkids (fh f) ++ (addr <$> fcl f ++ fcr f)).
  { rewrite Ek, <- app_assoc, app_assoc in N4. rewrite app_assoc in N5. cbn [app] in N4.
    destruct (drop_child_views x _ k _ _ a _ ltac:(lia) N4 N5) as [V1 V2].
    { rewrite !length_app, length_hkids, length_fmap, Ec, length_app. cbn. lia. }
    assert (Ep : Z.of_nat (List.length (hkids (fh f) ++ (addr <$> fcl f))) = kpos f) by (by rewrite kpos_len).
    rewrite Ep in V1, V2. split; [by rewrite app_assoc|by rewrite fmap_app, app_assoc]. }
  destruct Hx1 as [Hk1 Hc1].
  assert (Eg : pre D ++ flat (SNode (fn f) (fh f) (ks ++ fkr f) (fcl f ++ fcr f)) ++ post D =
    (pre D ++ lead (fh f) ++ weave_left ks (map flat cs) ++ flat c) ++ post (f :: D)).
  { cbn [flat post]. rewrite Ec, <- (app_assoc cs), map_app. cbn [app map]. rewrite weave_split by (by rewrite length_map). unfold frame_post. by rewrite <- !app_assoc. }
  assert (Ep : pre (f :: D) = (pre D ++ lead (fh f) ++ weave_left ks (map flat cs) ++ flat c) ++ [K k]).
  { cbn [pre]. unfold frame_pre. rewrite Ek, Ec, map_app. cbn [map]. rewrite weave_left_snoc by (by rewrite length_map). by rewrite <- !app_assoc. }
  apply (turn_rest_ends t (f :: D) None t1 D (fn f) (fh f) (ks ++ fkr f) (fcl f ++ fcr f) x1); try done.
  - apply rep_SNode. split_and!; [|done|by apply put_inode_children]. apply put_inode_at; try done.
    unfold x1, drop_child. cbn. lia.
  - cbn. by rewrite lookup_insert_eq.
  - by apply put_inode_ctx.
  - rewrite <- Ht. by apply (addr_fill D).
  - split; cbn [oflat oaddrs oleaves from_option].
    + pose proof (f_equal ents Eg) as E. rewrite !ents_app in E. rewrite E, Ep, !ents_app. cbn. by rewrite app_nil_r.
    + rewrite app_nil_r. done.
    + cbn [leaf_addrs lpre lpost]. rewrite flat_map_app. by rewrite <- !app_assoc.
  - apply inner_rekeyed, rekeyed_put; done.
  - assert (HO : ordered (pre D ++ flat (SNode (fn f) (fh f) (ks ++ fkr f) (fcl f ++ fcr f)) ++ post D)).
    { rewrite Eg. rewrite Ep, <- app_assoc in Ho. apply (ordered_drop _ (K k)); [exact Ho|]. rewrite Ep in Hb. apply Forall_app in Hb as [_ Hb].
      apply list.Forall_cons in Hb as [Hb _]. by apply (above_mono k ik). }
    destruct (Z.leb_spec (kpos f) 1) as [Hk|Hk]; [|exact HO]. destruct (fh f) as [k0|]; [|exact HO].
    rewrite Hkp, length_app in Hk. cbn in Hk. lia.
Qed.

(** The first child goes: the key after it moves up, and its place is null. *)
Lemma turn_first t f D a h ik top fuel x k0 ks : cut t (f :: D) a h None ik top -> turning t f D a h None ik x -> (List.length D < fuel)%nat ->
  fkl f = [] -> fkr f = k0 :: ks ->
  turn_ends t (f :: D) None (fn f) (heights t (fn f)) top (List.length D) (remove_turn bnd fuel a 0 ik t).
Proof.
  intros CT [[N1 N2 N0 N3 N4 N5 N6 N7 N8 N9 N10] Fp Fh HC Fr HwD HsD HbD HaD (_ & O2 & O3) Hnd] Hf Ek Er.
  destruct CT as [_ _ Ha0 _ _ H0 Ho Hb Ha Hsep Ht]. specialize (Hsep eq_refl). cbn [oaddrs oflat from_option app] in *.
  destruct (fn_addrs f D []) as [Fn FD]. assert (Ec : fcl f = []) by (destruct (fcl f); [done|]; by rewrite Ek in N6).
  rewrite Ek, Ec, Er in *. cbn [app fmap list_fmap] in *.
  set (x1 := if 0 <? kpos f then drop_child x (kpos f) else set_child x (kpos f) 0). set (t1 := put_inode (fn f) x1 t).
  unfold remove_turn. rewrite Fp, N2. cbn [mbind option_bind]. rewrite N9. cbn [mbind option_bind].
  change (negb (0 =? 0)) with false. cbn match. fold (drop_child x (kpos f)). fold x1 t1.
  change (turn_ends t (f :: D) None (fn f) (heights t1 (fn f)) top (List.length D) (turn_rest fuel (fn f) (kpos f) ik x1 t1)).
  assert (Hx1 : keys x1 = k0 :: ks /\ kids x1 = 0 :: (addr <$> fcr f) /\ 0 <= nkeys_ x1 <= iw /\ kpos f <= 1).
  { unfold x1, kpos in *. rewrite Ek, app_nil_r in *. destruct (fh f) as [k|]; cbn [option_list hkids app List.length] in *.
    - destruct (drop_child_views x [] k (k0 :: ks) [0] a (addr <$> fcr f) ltac:(lia) N4 N5 eq_refl) as [V1 V2].
      cbn in N8. change (List.length (option_list (Some k))) with 1%nat. change (Z.of_nat 1) with 1 in *. change (0 <? 1) with true.
      split_and!; [exact V1|exact V2|unfold drop_child; cbn [nkeys_ set_nkeys]; lia..|lia].
    - change (List.length (option_list None)) with 0%nat in *. change (Z.of_nat 0) with 0 in *. change (0 <? 0) with false.
      split_and!; [exact N4|exact (kids_set_child x 0 0 [] a _ N5 eq_refl ltac:(lia))|cbn [nkeys_ set_child]; lia..|lia]. }
  destruct Hx1 as (Hk1 & Hc1 & Hn1 & Hkp).
  assert (Ep : pre (f :: D) = pre D ++ lead (fh f)) by (cbn [pre]; unfold frame_pre; rewrite Ek, Ec; cbn; by rewrite app_nil_r).
  assert (Eq : post (f :: D) = K k0 :: weave ks (map flat (fcr f)) ++ post D) by (cbn [post]; unfold frame_post; by rewrite Er).
  rewrite Ep, Eq in *.
  assert (HK : K ik ∈ pre D).
  { apply elem_of_app in Hsep as [?|Hsep]; [done|]. by apply list_elem_of_fmap in Hsep as (? & ? & _). }
  destruct (pre_tail D ik HwD) as (A & m & EA); [by apply sorted_app_iff in HsD as (? & _)|exact HK|done|].
  pose proof (redir_pre k0 D HwD A ik m EA) as ER.
  assert (Ho' : ordered (A ++ K ik :: replicate m (J ik) ++ K k0 :: weave ks (map flat (fcr f)) ++ post D)).
  { change (A ++ K ik :: replicate m (J ik) ++ ?z) with (A ++ (K ik :: replicate m (J ik)) ++ z). rewrite app_assoc, <- EA.
    destruct (fh f) as [k|]; cbn [lead option_list fmap list_fmap] in Ho; [|by rewrite app_nil_r in Ho].
    rewrite <- app_assoc in Ho. by apply (ordered_drop _ (J k)). }
  assert (Hik : ik < k0) by (apply list.Forall_cons in Ha as [Ha _]; exact Ha).
  apply (turn_rest_ends t (f :: D) None t1 D (fn f) (Some k0) ks (fcr f) x1); try done.
  - apply rep_SNode. split_and!; [|done|by apply put_inode_children]. by apply put_inode_at.
  - cbn. by rewrite lookup_insert_eq.
  - by apply put_inode_ctx.
  - intros b Hbg. apply H0. change (ctx_addrs (f :: D)) with (fn f :: flat_map addrs (fcl f ++ fcr f) ++ ctx_addrs D). by rewrite Ec.
  - rewrite <- Ht. by apply (addr_fill D).
  - split; cbn [oflat oaddrs oleaves from_option].
    + rewrite Ep, Eq. cbn [flat]. rewrite !ents_app. change (ents (K k0 :: ?z)) with (ents z). rewrite ents_app.
      assert (EL : forall o, ents (lead o) = []) by (by intros []). rewrite !EL. cbn. by rewrite app_nil_r.
    + change (ctx_addrs (f :: D)) with (fn f :: flat_map addrs (fcl f ++ fcr f) ++ ctx_addrs D). by rewrite Ec, app_nil_r.
    + cbn [leaf_addrs lpre lpost]. rewrite Ec. cbn. by rewrite app_nil_r.
  - apply inner_rekeyed, rekeyed_put; done.
  - rewrite (proj2 (Z.leb_le _ _) Hkp). rewrite ER. split_and!.
    + by exists ik.
    + cbn [flat lead option_list fmap list_fmap app]. pose proof (ordered_move A ik m k0 (S m) _ Ho') as M. rewrite replicate_S_end in M.
      rewrite <- !app_assoc in M |- *. apply M. exact Ha.
    + rewrite EA in HbD. apply Forall_app in HbD as [HbD _]. apply Forall_app. split; [apply (below_mono ik); [lia|done]|].
      constructor; [cbn; lia|]. apply Forall_replicate. cbn. lia.
    + apply (post_above k0 (weave ks (map flat (fcr f)))). destruct Ho' as [Ho' _].
      change (A ++ K ik :: replicate m (J ik) ++ ?z) with (A ++ (K ik :: replicate m (J ik)) ++ z) in Ho'. rewrite app_assoc in Ho'.
      by apply sorted_app_iff in Ho' as (_ & Ho' & _).
Qed.

(** The only child goes, and the node with it. *)
Lemma turn_last t f D a h ik top fuel x : cut t (f :: D) a h None ik top -> turning t f D a h None ik x ->
  fkl f = [] -> fkr f = [] ->
  turn_ends t (f :: D) None (fn f) (heights t (fn f)) top (List.length D) (remove_turn bnd fuel a 0 ik t).
Proof.
  intros CT [[N1 N2 N0 N3 N4 N5 N6 N7 N8 N9 N10] Fp Fh HC Fr HwD HsD HbD HaD (_ & O2 & O3) Hnd] Ek Er.
  destruct CT as [_ _ Ha0 _ _ H0 Ho Hb Ha Hsep Ht]. specialize (Hsep eq_refl). cbn [oaddrs oflat from_option app] in *.
  destruct (fn_addrs f D []) as [Fn FD]. assert (Ec : fcl f = []) by (destruct (fcl f); [done|]; by rewrite Ek in N6).
  assert (Ecr : fcr f = []) by (destruct (fcr f); [done|]; by rewrite Er in N7). rewrite Ek, Ec, Er, Ecr in *. cbn [app fmap list_fmap] in *.
  set (x1 := if 0 <? kpos f then drop_child x (kpos f) else set_child x (kpos f) 0). set (t1 := put_inode (fn f) x1 t).
  unfold remove_turn. rewrite Fp, N2. cbn [mbind option_bind]. rewrite N9. cbn [mbind option_bind].
  change (turn_ends t (f :: D) None (fn f) (heights t (fn f)) top (List.length D) (turn_rest fuel (fn f) (kpos f) ik x1 t1)).
  assert (Hx1 : nkeys_ x1 = 0 /\ child_ x1 0 = 0).
  { unfold x1, kpos in *. rewrite Ek, app_nil_r in *. destruct (fh f) as [k|]; cbn [option_list hkids app List.length] in *.
    - destruct (drop_child_views x [] k [] [0] a [] ltac:(lia) N4 N5 eq_refl) as [_ V2].
      change (List.length (option_list (Some k))) with 1%nat in *. cbn in N8. change (Z.of_nat (List.length [0])) with 1 in V2.
      change (Z.of_nat 1) with 1 in *. change (0 <? 1) with true. assert (E1 : nkeys_ (drop_child x 1) = 0) by (unfold drop_child; cbn [nkeys_ set_nkeys]; lia).
      split; [exact E1|]. unfold kids in V2. rewrite E1, Z.add_0_l, arr_one in V2. by injection V2.
    - change (List.length (option_list None)) with 0%nat in *. cbn in N8. change (Z.of_nat 0) with 0 in *. change (0 <? 0) with false.
      cbn [nkeys_ set_child child_]. split; [lia|]. by rewrite fn_lookup_insert. }
  destruct Hx1 as [Hn1 Hc1]. unfold turn_rest. rewrite Hn1, Hc1. rewrite andb_false_r, andb_false_l. cbn [mbind option_bind].
  assert (Ep : pre (f :: D) = pre D ++ lead (fh f)) by (cbn [pre]; unfold frame_pre; rewrite Ek, Ec; cbn; by rewrite app_nil_r).
  assert (Eq : post (f :: D) = post D) by (cbn [post]; unfold frame_post; by rewrite Er).
  rewrite Ep, Eq in *.
  assert (HK : K ik ∈ pre D).
  { apply elem_of_app in Hsep as [?|Hsep]; [done|]. by apply list_elem_of_fmap in Hsep as (? & ? & _). }
  assert (Hnil : is_nil D = false) by (destruct D; [by apply elem_of_nil in HK|done]).
  change (is_root t1 (fn f)) with (is_root t (fn f)). rewrite Fr, Hnil. change ((b2z (0 =? 0) <? 0) || false) with false. cbn match.
  assert (EQ : ctx_addrs (f :: D) = fn f :: ctx_addrs D).
  { change (ctx_addrs (f :: D)) with (fn f :: flat_map addrs (fcl f ++ fcr f) ++ ctx_addrs D). by rewrite Ec, Ecr. }
  eexists _, ik, D. split; [done|]. split; [|right; exists None; split; [done|]; split].
  - eapply inner_trans; apply inner_rekeyed, rekeyed_put; try done. cbn. by rewrite lookup_delete_eq.
  - split; cbn [oaddrs oflat from_option app]; try done.
    + apply put_inode_ctx; [done|]. by apply put_inode_ctx.
    + apply H0. rewrite EQ. left.
    + intros ->. by apply elem_of_nil in HK.
    + cbn in Hnd. by apply list.NoDup_cons in Hnd as [_ ?].
    + intros b Hbd. apply H0. rewrite EQ. by right.
    + destruct (fh f) as [k|]; cbn [lead option_list fmap list_fmap] in Ho; [|by rewrite app_nil_r in Ho].
      rewrite <- app_assoc in Ho. by apply (ordered_drop _ (J k)).
    + rewrite <- Ht. by apply (addr_fill D).
  - split; cbn [oflat oaddrs oleaves from_option].
    + rewrite Ep, Eq, ents_app. assert (EL : ents (lead (fh f)) = []) by (by destruct (fh f)). by rewrite EL, app_nil_r.
    + rewrite EQ. cbn. solve_Permutation.
    + cbn [lpre lpost]. rewrite Ec, Ecr. cbn. by rewrite app_nil_r.
Qed.
Lemma turn_ok t f D a h r ik top fuel : cut t (f :: D) a h r ik top -> (List.length D < fuel)%nat ->
  parents t a = fn f /\ turn_ends t (f :: D) r (fn f) (heights t (fn f)) top (List.length D) (remove_turn bnd fuel a (oaddr r) ik t).
Proof.
  intros CT Hf. destruct (cut_turning _ _ _ _ _ _ _ _ CT) as [x T]. split; [apply T|]. destruct r as [c|]; [by eapply turn_child|].
  destruct (frame_pre_cases f (nf_len _ _ _ _ _ (tu_node _ _ _ _ _ _ _ _ T))) as [(Ek & _)|(ks & k & cs & c & Ek & Ec & _)]; [|by eapply turn_key].
  destruct (fkr f) as [|k0 ks] eqn:Er; [by eapply turn_last|by eapply turn_first].
Qed.

(** The loop: the layer that is left, and the nodes that are not part of it any more. *)
Lemma remove_loop_ok : forall n C t a h r ik top fuel, List.length C = n -> cut t C a h r ik top -> (List.length C < fuel)%nat ->
  exists t' D g freed, remove_loop bnd fuel a (oaddr r) ik t = Some (t', Node <$> freed) /\ placed t' D g top /\
    lost C r D (Some g) (rev freed) /\ inner (oaddrs r ++ ctx_addrs C) t t'.
Proof.
  induction n as [|n IH]; intros C t a h r ik top fuel Hn CT Hf.
  { exfalso. apply (ct_context _ _ _ _ _ _ _ CT). by destruct C. }
  destruct C as [|f C]; [done|]. destruct fuel as [|fuel]; [lia|]. cbn in Hf, Hn. injection Hn as Hn.
  destruct (turn_ok t f C a h r ik top (S fuel) CT ltac:(lia)) as (_ & t1 & ik1 & D & HlD & HI & [(g & E & HP & HL)|(r' & E & CT1 & HL)]); cbn [remove_loop]; rewrite E; cbn [mbind option_bind].
  - by exists t1, D, g, [].
  - destruct (IH D t1 (fn f) _ r' ik1 top fuel ltac:(lia) CT1 ltac:(lia)) as (t2 & D2 & g & freed & E2 & HP2 & HL2 & HI2).
    rewrite E2. cbn [mbind option_bind]. exists t2, D2, g, (fn f :: freed). split_and!; [done|done| |].
    + cbn [rev]. by eapply lost_trans.
    + eapply inner_trans; [exact HI|]. eapply inner_sub; [exact HI2|]. intros b Hb. rewrite (ls_addrs _ _ _ _ _ HL), app_assoc. apply elem_of_app. by left.
Qed.
End Prune.
