(* ===== verification/TreeDelete.v ===== *)
(** Removal from the tree: an empty leaf leaves its layer, and [remove_key] deletes from the
    map the tree stands for. *)
From Stdlib Require Import Sorted.
From S2P Require Import Prelude StringSlice Permuter KSearch Internode LeafSplit MassKey Tree TreeShape TreeMap TreeOps TreeInsert TreeSplit TreeLayer TreeGrow TreeTwig TreePut TreeRemove TreePrune.

(** * Links *)
Lemma chain_prev t A n B : forall pv, chain t pv (A ++ n :: B) -> forall l, leaves t !! n = Some l ->
  A = [] /\ prev_ l = pv \/ exists A' q lq, A = A' ++ [q] /\ prev_ l = q /\ leaves t !! q = Some lq.
Proof.
  induction A as [|a A IH]; intros pv; cbn [app chain].
  - intros [(l0 & Hl0 & Hp & _) _] l Hl. left. split; [done|congruence].
  - intros [(la & Hla & _) Hc] l Hl. right. destruct (IH _ Hc l Hl) as [[-> Hp]|(A' & q & lq & -> & H)]; [by exists [], a, la|by exists (a :: A'), q, lq].
Qed.
Lemma chain_unlink t t' A q n B l lq : forall pv, chain t pv (A ++ q :: n :: B) -> NoDup (A ++ q :: n :: B) -> leaves t !! n = Some l ->
  leaves t !! q = Some lq -> leaves t' !! q = Some (set_links lq (next_ l) (prev_ lq)) ->
  (forall b lb, b ∈ A ++ tl B -> leaves t !! b = Some lb -> leaves t' !! b = Some lb) ->
  (B <> [] -> forall lb, leaves t !! hd 0 B = Some lb -> leaves t' !! hd 0 B = Some (set_links lb (next_ lb) q)) ->
  chain t' pv (A ++ q :: B).
Proof.
  induction A as [|x A IH]; intros pv Hc Hnd Hl Hq Hq' Hs HB; cbn [app chain] in Hc |- *.
  - destruct Hc as [(l0 & Hl0 & Hp & _) [(l1 & Hl1 & _ & Hnx) Hc]]. assert (l0 = lq) as -> by congruence. assert (l1 = l) as -> by congruence.
    split; [by exists (set_links lq (next_ l) (prev_ lq))|]. destruct B as [|b B]; [done|]. cbn [chain hd tl] in *.
    destruct Hc as [(lb & Hlb & _ & Hnb) Hc]. split; [exists (set_links lb (next_ lb) q); split_and!; [by apply HB|done|done]|].
    eapply chain_frame; [|exact Hc]. intros c lc Hc'. by apply Hs.
  - destruct Hc as [(lx & Hlx & Hp & Hnx) Hc]. cbn in Hnd. apply list.NoDup_cons in Hnd as [_ Hnd]. split.
    + exists lx. split_and!; [apply Hs; [left|done]|done|]. rewrite Hnx. by destruct A.
    + apply IH; try done. intros b lb Hb. apply Hs. by right.
Qed.

Section Delete.
Context (bnd : key_bound_type) (lw iw : Z).
Abbreviation layer_ok := (layer_ok lw iw).
Abbreviation at_leaf := (at_leaf lw iw).

(** What [unlink] does to the memory. *)
Record unlinked (t t1 : tree) (n : Z) (l : leaf) (q : Z) (lq : leaf) : Prop := {
  ul_prev : leaves t1 !! q = Some (set_links lq (next_ l) (prev_ lq));
  ul_next : next_ l <> 0 -> forall lx, leaves t !! next_ l = Some lx -> leaves t1 !! next_ l = Some (set_links lx (next_ lx) q);
  ul_leaves : forall b, b <> q -> (b <> next_ l \/ b = 0) -> leaves t1 !! b = leaves t !! b;
  ul_inodes : forall b, b <> q -> (b <> next_ l \/ b = 0) -> inodes t1 !! b = inodes t !! b;
  ul_others : parents t1 = parents t /\ is_root t1 = is_root t /\ heights t1 = heights t
}.
Lemma unlink_ok t p g C n l : at_leaf t p g C n l -> prev_ l <> 0 ->
  exists t1 A q lq, unlink n t = Some t1 /\ lpre C = A ++ [q] /\ leaves t !! q = Some lq /\ unlinked t t1 n l q lq /\
    rep_ctx lw iw t1 C n 0 /\ chain t1 0 (lpre C ++ lpost C).
Proof.
  intros [L Hg HC Hl Hok HCx Htop] Hp. pose proof (lo_chain _ _ _ _ _ L) as Hch. rewrite Hg, leaf_addrs_fill in Hch. cbn [leaf_addrs] in Hch.
  assert (Hnd : NoDup (lpre C ++ [n] ++ lpost C)).
  { pose proof (lo_nodup _ _ _ _ _ L) as Hnd. eapply sublist_NoDup; [exact Hnd|].
    change [n] with (leaf_addrs (SLeaf n (leaf_lo l) (entries l))). rewrite Hg, <- leaf_addrs_fill. apply leaf_addrs_sublist. }
  destruct (chain_prev _ _ _ _ _ Hch l Hl) as [[_ ?]|(A & q & lq & EA & Eq & Hq)]; [done|].
  destruct (chain_at _ _ _ _ _ Hch) as (l0 & Hl0 & Hnx & HB). assert (l0 = l) as -> by congruence.
  rewrite EA in Hnd, Hch. rewrite <- app_assoc in Hnd, Hch. cbn [app] in Hnd, Hch.
  pose proof Hnd as Hnd0. apply list.NoDup_app in Hnd0 as (_ & HAq & Hnd0). apply list.NoDup_cons in Hnd0 as [Hqn Hnd0]. apply list.NoDup_cons in Hnd0 as [Hnn Hnd0].
  rewrite not_elem_of_cons in Hqn. destruct Hqn as [Hqn HqB].
  assert (Hq0 : q <> 0) by congruence.
  unfold unlink. rewrite Hl. cbn [mbind option_bind]. rewrite Eq.
  destruct (Z.eqb_spec (next_ l) 0) as [E0|E0].
  - (* the last leaf *)
    assert (HB0 : lpost C = []).
    { destruct (lpost C) as [|b B] eqn:EB; [done|]. exfalso. apply (lo_nonnull _ _ _ _ _ L b); [|by rewrite Hnx in E0].
      rewrite Hg, addrs_fill. cbn. right. apply lpost_in. rewrite EB. left. }
    cbn [mbind option_bind]. unfold upd_leaf. rewrite Hq. cbn [mbind option_bind]. eexists _, A, q, lq. split; [done|]. split; [done|]. split; [done|].
    split; [|split].
    + split; cbn; [by rewrite lookup_insert_eq|done| | |done].
      * intros b Hb _. by rewrite lookup_insert_ne.
      * intros b Hb _. by rewrite lookup_delete_ne.
    + eapply rep_ctx_relink; [exact Hq| |done]. done.
    + rewrite EA, HB0 in *. rewrite <- app_assoc. eapply (chain_unlink t _ A q n [] l lq); try done; cbn; [by rewrite lookup_insert_eq|].
      intros b lb Hb Hlb. rewrite lookup_insert_ne; [done|]. intros <-. rewrite app_nil_r in Hb. apply (HAq q Hb). left.
  - destruct (lpost C) as [|b B] eqn:EB; [done|]. cbn in Hnx. destruct (HB ltac:(done)) as (lb & Hlb & Hpb & Hnb). cbn in Hlb, Hnb.
    assert (Hbq : b <> q) by (intros ->; apply HqB; left).
    cbn [mbind option_bind]. unfold upd_leaf. rewrite Hnx, Hlb. cbn [mbind option_bind leaves put_leaf]. rewrite lookup_insert_ne, Hq by done. cbn [mbind option_bind].
    eexists _, A, q, lq. split; [done|]. split; [done|]. split; [done|]. split; [|split].
    + split; cbn; rewrite ?Hnx; [by rewrite lookup_insert_eq| | | |done].
      * intros _ lx Hlx. rewrite lookup_insert_ne, lookup_insert_eq by done. congruence.
      * intros c Hcq Hcb. assert (c <> b) by (destruct Hcb as [?| ->]; [done|congruence]). by rewrite !lookup_insert_ne.
      * intros c Hcq Hcb. assert (c <> b) by (destruct Hcb as [?| ->]; [done|congruence]). by rewrite !lookup_delete_ne.
    + eapply rep_ctx_relink; [cbn; rewrite lookup_insert_ne; done|done|]. eapply rep_ctx_relink; [exact Hlb| |done].
      unfold relinked, leaf_lo. cbn. rewrite Hpb. rewrite (proj2 (Z.eqb_neq q 0)) by done. rewrite (proj2 (Z.eqb_neq n 0)); [done|].
      apply (lo_nonnull _ _ _ _ _ L). rewrite Hg, addrs_fill. left.
    + rewrite EA. rewrite <- app_assoc. eapply (chain_unlink t _ A q n (b :: B) l lq); try done; cbn; rewrite ?Hnx; [by rewrite lookup_insert_eq| |].
      * intros c lc Hc Hlc. rewrite lookup_insert_ne; [rewrite lookup_insert_ne; [done|]|].
        -- intros <-. apply elem_of_app in Hc as [Hc|Hc]; [apply (HAq _ Hc); do 2 right; left|by apply list.NoDup_cons in Hnd0 as [? _]].
        -- intros <-. apply elem_of_app in Hc as [Hc|Hc]; [apply (HAq _ Hc); left|apply HqB; by right].
      * intros _ lx Hlx. rewrite lookup_insert_ne, lookup_insert_eq by done. congruence.
Qed.

(** What a removal does to a layer. *)
Record shrunk (t t' : tree) (p : list Z) (g g' : glayer) (freed : list Z) (es : list entry) : Prop := {
  sh_layer : layer_ok t' p g';
  sh_ptr : gptr g' = gptr g;
  sh_items : items (gshape g') = es;
  sh_addrs : addrs (gshape g) ≡ₚ addrs (gshape g') ++ freed;
  sh_outside : outside (addrs (gshape g)) t t'
}.
Lemma lpre_in C b : b ∈ lpre C -> b ∈ ctx_addrs C.
Proof.
  induction C as [|f C IH]; [done|]. cbn [lpre ctx_addrs flat_map]. rewrite !elem_of_app. intros [Hb|Hb]; [right; by apply IH|left].
  right. apply elem_of_flat_map in Hb as (c & Hc & Hb). apply elem_of_flat_map. exists c. split; [apply elem_of_app; by left|].
  by apply leaf_addrs_in.
Qed.
(** The tokens around a leaf that is going. *)
Lemma gone_cut t t1 p g C n l b : at_leaf t p g C n l -> entries l = [] -> leaf_lo l = Some b -> rep_ctx lw iw t1 C n 0 ->
  cut lw iw t1 C n 0 None b (addr (gshape g)).
Proof.
  intros A He Hlo HCx. pose proof (at_leaf_sorted lw iw _ _ _ _ _ _ A) as HS. pose proof (at_leaf_holes lw iw _ _ _ _ _ _ A) as [HK _].
  pose proof (al_layer _ _ _ _ _ _ _ _ A) as L. pose proof (lo_holes _ _ _ _ _ L) as HH. rewrite (al_shape _ _ _ _ _ _ _ _ A), flat_fill in HH by apply A.
  cbn [flat] in HH. rewrite He, Hlo in *. cbn in HS, HH. split; cbn [oflat oaddrs from_option app]; try done.
  - apply (lo_nonnull _ _ _ _ _ L). rewrite (at_leaf_addrs _ _ _ _ _ _ _ _ A). left.
  - intros ->. by apply elem_of_nil in HK.
  - pose proof (lo_nodup _ _ _ _ _ L) as Hnd. rewrite (at_leaf_addrs _ _ _ _ _ _ _ _ A) in Hnd. by apply list.NoDup_cons in Hnd as [_ ?].
  - intros a Ha. apply (lo_nonnull _ _ _ _ _ L). rewrite (at_leaf_addrs _ _ _ _ _ _ _ _ A). by right.
  - by apply (ordered_drop _ (Lo (Some b))).
  - apply sorted_app_iff in HS as (_ & _ & HS). apply Forall_forall. intros x Hx%list_elem_of_In. specialize (HS x _ Hx ltac:(left)).
    destruct x as [| | |[|]]; cbn in *; done || lia.
  - apply sorted_app_iff in HS as (_ & HS & _). apply StronglySorted_inv in HS as [HS F].
    destruct (post_first C) as [->|(k & R & E)]; [constructor|]. rewrite E in *. apply StronglySorted_inv in HS as [_ FR].
    inversion F as [|? ? H1 _]; subst. constructor; [exact H1|]. eapply Forall_impl; [|exact FR]. intros [k2|k2|e|[k2|]] Hx; cbn in *; done || lia.
  - rewrite (al_shape _ _ _ _ _ _ _ _ A). by apply addr_fill.
Qed.
(** [remove_leaf] of an empty leaf that is not the first. *)
Lemma leaf_gone t p g C n l root prefix fuel : at_leaf t p g C n l -> entries l = [] -> prev_ l <> 0 -> gptr g = addr (gshape g) ->
  (List.length C < fuel)%nat ->
  exists t' g' freed, remove_leaf bnd fuel n root prefix t = Some (t', Node n :: (Node <$> freed)) /\
    shrunk t t' p g g' (n :: rev freed) (items (gshape g)).
Proof.
  intros A He Hp Hfr Hf. pose proof (al_layer _ _ _ _ _ _ _ _ A) as L. pose proof (at_leaf_addrs _ _ _ _ _ _ _ _ A) as EA.
  destruct (unlink_ok t p g C n l A Hp) as (t1 & X & q & lq & E1 & EX & Hq & UL & HCx & Hch).
  assert (Hlo : leaf_lo l = Some (ikey0 (slot l 0))) by (unfold leaf_lo; by rewrite (proj2 (Z.eqb_neq _ _) Hp)).
  destruct (remove_loop_ok bnd lw iw _ C t1 n 0 None _ (addr (gshape g)) fuel eq_refl (gone_cut t t1 p g C n l _ A He Hlo HCx) Hf)
    as (t2 & D & g' & freed & E2 & [P1 P2 P3 P4 [P5 P5'] P6] & [LE LA LL] & HI).
  cbn [oaddr oflat oaddrs oleaves from_option app] in *.
  exists t2, {| gptr := gptr g; gshape := fill D g' |}, freed. split.
  { unfold remove_leaf. rewrite (al_leaf _ _ _ _ _ _ _ _ A). cbn [mbind option_bind]. rewrite (proj2 (Z.eqb_neq _ _) Hp), E1. cbn [mbind option_bind]. by rewrite E2. }
  assert (HD : ctx_wf D) by (by eapply rep_ctx_wf).
  assert (EP : addrs (gshape g) ≡ₚ addrs (fill D g') ++ n :: rev freed).
  { rewrite EA, addrs_fill, LA. solve_Permutation. }
  assert (EI : items (fill D g') = items (gshape g)).
  { rewrite (at_leaf_items _ _ _ _ _ _ _ _ A), He. unfold items. rewrite flat_fill, !ents_app by done. symmetry. exact LE. }
  destruct (proj2 (rep_fill lw iw t2 D g' HD) (conj P1 P2)) as [HR1 HR2].
  split; cbn [gptr gshape]; try done.
  - split; cbn [gptr gshape]; try done; try apply L.
    + by rewrite flat_fill.
    + by rewrite flat_fill.
    + by rewrite addrs_fill.
    + intros b Hb. apply P4. by rewrite <- addrs_fill.
    + rewrite leaf_addrs_fill, <- LL. eapply chain_frame; [|exact Hch]. intros b lb _ Hlb. by destruct (HI b) as (-> & _).
    + rewrite Hfr, <- P6. apply addr_in.
    + intros Hne. destruct Hne. congruence.
    + intros e Hin. rewrite EI in Hin. by apply L.
    + intros Hpn e Hin. rewrite EI in Hin. by apply (lo_nonempty _ _ _ _ _ L).
  - intros b Hb. rewrite EA, elem_of_cons in Hb. destruct (inner_outside _ _ _ HI b ltac:(tauto)) as [(F1 & F2 & F3 & F4) F5].
    pose proof (ul_others _ _ _ _ _ _ UL) as (G3 & G4 & G5).
    assert (Hbq : b <> q). { intros ->. apply Hb. right. apply lpre_in. rewrite EX. apply elem_of_app. right. left. }
    assert (Hbn : b <> next_ l \/ b = 0).
    { pose proof (lo_chain _ _ _ _ _ L) as Hc. rewrite (al_shape _ _ _ _ _ _ _ _ A), leaf_addrs_fill in Hc.
      destruct (chain_at _ _ _ _ _ Hc) as (l0 & Hl0 & Hnx & _). assert (l0 = l) as -> by (pose proof (al_leaf _ _ _ _ _ _ _ _ A); congruence).
      rewrite Hnx. destruct (lpost C) as [|nx B] eqn:EB; cbn; [destruct (decide (b = 0)); tauto|left]. intros ->. apply Hb. right. apply lpost_in. rewrite EB. left. }
    pose proof (ul_leaves _ _ _ _ _ _ UL b Hbq Hbn). pose proof (ul_inodes _ _ _ _ _ _ UL b Hbq Hbn).
    unfold same_node, same_parent. rewrite F1, F2, F3, F4, F5, G3, G4, G5. split_and!; done.
Qed.

Context (Hlw : 11 <= lw <= 15).
Lemma remove_entries l i : leaf_ok lw l -> 0 <= i < lsize l -> let l' := set_perm l (remove lw (permutation_ l) i) in
  leaf_ok lw l' /\ lsize l' = lsize l - 1 /\ exists A B, entries l = A ++ nth_entry l i :: B /\ entries l' = A ++ B.
Proof.
  intros Hok Hi l'. pose proof Hok as [Hw Hk]. destruct (perm_op_step lw ltac:(lia) (OpRemove i) (permutation_ l) Hw ltac:(cbn; exact Hi)) as [V W]. cbn [op_run] in V, W.
  assert (S : lsize l' = lsize l - 1) by exact (f_equal fst V). pose proof (lsize_range lw l Hok).
  assert (HN : forall k, 0 <= k < lsize l - 1 -> nth_entry l' k = nth_entry l (if k <? i then k else k + 1)).
  { intros k Hk'. unfold nth_entry. cbn [slot permutation_ l' set_perm]. f_equal. unfold lsize in *. rewrite !elem_nib, remove_nib by lia. zcases; lia || done. }
  assert (E : entries l = arr (nth_entry l) 0 i ++ nth_entry l i :: arr (nth_entry l) (i + 1) (lsize l - i - 1)).
  { unfold entries. rewrite (arr_cut i) by lia. f_equal. rewrite arr_cons by lia. cbn [Z.add]. done. }
  assert (E' : entries l' = arr (nth_entry l) 0 i ++ arr (nth_entry l) (i + 1) (lsize l - i - 1)).
  { unfold entries. rewrite S, (arr_cut i) by lia. f_equal; [apply arr_ext0|apply arr_ext; [lia|]]; intros k Hk'; rewrite HN by lia; zcases; lia || (f_equal; lia). }
  split_and!; [|done|by eexists _, _]. split; [done|]. rewrite E'. rewrite E in Hk. apply Forall_app in Hk as [H1 H2]. apply list.Forall_cons in H2 as [_ H2].
  by apply Forall_app.
Qed.
Definition garbage_nodes (l : list garbage) : list Z := omap (fun x => match x with Node a => Some a | _ => None end) l.
Lemma garbage_app a b : garbage_nodes (a ++ b) = garbage_nodes a ++ garbage_nodes b.
Proof. apply omap_app. Qed.
Lemma garbage_nodes_map l : garbage_nodes (Node <$> l) = l.
Proof. induction l as [|a l IH]; [done|]. cbn in *. by f_equal. Qed.

(** [finish_remove]: the entry is gone, and with the last one the leaf. *)
Lemma layer_erase t p g C n l i root prefix fuel : at_leaf t p g C n l -> 0 <= i < lsize l -> gptr g = addr (gshape g) -> (List.length C < fuel)%nat ->
  exists t' gs g' X Y, finish_remove bnd lw fuel n i root prefix t = Some (t', gs) /\ items (gshape g) = X ++ nth_entry l i :: Y /\
    shrunk t t' p g g' (rev (garbage_nodes gs)) (X ++ Y).
Proof.
  intros A Hi Hfr Hf. pose proof (al_layer _ _ _ _ _ _ _ _ A) as L. destruct (remove_entries l i (al_ok _ _ _ _ _ _ _ _ A) Hi) as (Hok & Hsz & X & Y & E1 & E2).
  set (l' := set_perm l _) in *. pose proof (at_leaf_sorted lw iw _ _ _ _ _ _ A) as HS. rewrite E1 in HS.
  pose proof (at_leaf_items _ _ _ _ _ _ _ _ A) as EI. rewrite E1 in EI.
  assert (Hin : forall e, e ∈ entries l' -> e ∈ items (gshape g)) by (intros e; rewrite E2, EI, !elem_of_app, elem_of_cons; tauto).
  pose proof (layer_update lw iw Hlw t p g C n l l' A Hok eq_refl eq_refl eq_refl) as Ch. rewrite E2 in Ch.
  assert (Ch' := Ch ltac:(rewrite fmap_app, fmap_cons, <- app_assoc in HS; cbn [app] in HS; rewrite app_comm_cons, app_assoc in HS;
      apply sorted_drop in HS; rewrite fmap_app, <- (app_assoc (E <$> X)), app_comm_cons, app_assoc; exact HS)
    ltac:(intros e He; rewrite <- E2 in He; split; [by apply L, Hin|intros Hpn; by apply (lo_nonempty _ _ _ _ _ L Hpn), Hin])). clear Ch.
  set (t1 := put_leaf n l' t) in *. set (g1 := reshape _ _ _ _ _) in *. destruct Ch' as [L1 P1 I1 A1 O1]. rewrite app_nil_r in A1, O1.
  destruct (at_leaf_intro lw iw t1 p g1 C n (leaf_lo l) (X ++ Y) L1 eq_refl (al_wf _ _ _ _ _ _ _ _ A)) as (l0 & A0 & E0).
  assert (Hl1 : leaves t1 !! n = Some l') by (cbn; by rewrite lookup_insert_eq).
  assert (l0 = l') as -> by (pose proof (al_leaf _ _ _ _ _ _ _ _ A0); congruence).
  assert (Ig : items (gshape g1) = (ents (pre C) ++ X) ++ Y ++ ents (post C)) by (rewrite (at_leaf_items _ _ _ _ _ _ _ _ A0), E2, <- !app_assoc; done).
  assert (Hstay : shrunk t t1 p g g1 [] ((ents (pre C) ++ X) ++ Y ++ ents (post C))).
  { split; try done. by rewrite A1, app_nil_r. }
  assert (EI' : items (gshape g) = (ents (pre C) ++ X) ++ nth_entry l i :: Y ++ ents (post C)) by (rewrite EI, <- !app_assoc; done).
  unfold finish_remove. rewrite (al_leaf _ _ _ _ _ _ _ _ A). cbn [mbind option_bind]. fold l' t1. destruct (Z.eqb_spec (lsize l') 0) as [Hz|Hz].
  - assert (He : entries l' = []) by (unfold entries; by rewrite Hz). destruct (Z.eqb_spec (prev_ l') 0) as [Hp|Hp].
    + unfold remove_leaf. rewrite Hl1. cbn [mbind option_bind]. rewrite Hp. change (0 =? 0) with true. cbn match.
      eexists t1, _, g1, _, _. split; [done|]. split; [exact EI'|]. by destruct (_ && _).
    + destruct (leaf_gone t1 p g1 C n l' root prefix fuel A0 He Hp) as (t2 & g2 & freed & E & [S1 S2 S3 S4 S5]); [|done|].
      { cbn [gptr g1 reshape]. rewrite Hfr, (al_shape _ _ _ _ _ _ _ _ A). by apply addr_fill. }
      eexists t2, _, g2, _, _. split; [exact E|]. split; [exact EI'|]. split; [done|by rewrite S2|by rewrite S3| |].
      * change (garbage_nodes (Node n :: ?x)) with (n :: garbage_nodes x). rewrite garbage_nodes_map. cbn [rev]. rewrite <- A1, S4. solve_Permutation.
      * eapply outside_trans; [exact O1|]. eapply outside_sub; [exact S5|]. intros b Hb. by rewrite <- A1.
  - by eexists t1, [], g1, _, _.
Qed.

(** ** The family of layers *)
Context (mk : Z).
Abbreviation inv := (inv lw iw mk).
Definition erased (G G' : gmap (list Z) glayer) (k : list Z) : Prop := forall k' v, bound G' k' v <-> k' <> k /\ bound G k' v.
Lemma shrunk_layers t t' root G p g g' freed es : inv t root G -> G !! p = Some g -> shrunk t t' p g g' freed es ->
  (forall q gq, <[p := g']> G !! q = Some gq -> layer_ok t' q gq) /\
  (forall q r gq gr a, <[p := g']> G !! q = Some gq -> <[p := g']> G !! r = Some gr -> q <> r ->
    a ∈ addrs (gshape gq) -> a ∉ addrs (gshape gr)) /\
  (forall b, held (<[p := g']> G) b -> held G b /\ b ∉ freed).
Proof.
  intros I Hg [L _ _ HA HO].
  assert (HG : forall q gq a, <[p := g']> G !! q = Some gq -> a ∈ addrs (gshape gq) -> exists gq0, G !! q = Some gq0 /\ a ∈ addrs (gshape gq0) /\ a ∉ freed).
  { intros q gq a Hq Ha. pose proof (lo_nodup _ _ _ _ _ (inv_layer _ _ _ _ _ _ I _ _ Hg)) as Hnd. rewrite HA in Hnd. apply list.NoDup_app in Hnd as (_ & Hnd & _).
    destruct (decide (q = p)) as [->|Hqp].
    - rewrite lookup_insert_eq in Hq. injection Hq as <-. exists g. split_and!; [done|rewrite HA; apply elem_of_app; by left|by apply Hnd].
    - rewrite lookup_insert_ne in Hq by done. exists gq. split_and!; [done..|]. intros Hf.
      apply (inv_disj _ _ _ _ _ _ I q p gq g a Hq Hg Hqp Ha). rewrite HA. apply elem_of_app. by right. }
  split_and!.
  - intros q gq Hq. destruct (decide (q = p)) as [->|Hqp]; [rewrite lookup_insert_eq in Hq; injection Hq as <-; exact L|].
    rewrite lookup_insert_ne in Hq by done. apply (layer_frame lw iw t); [|by apply (inv_layer _ _ _ _ _ _ I)].
    intros a Ha. apply HO. by apply (inv_disj _ _ _ _ _ _ I q p gq g).
  - intros q r gq gr a Hq Hr Hne Ha Hb. destruct (HG q gq a Hq Ha) as (x & Hx & Hax & _), (HG r gr a Hr Hb) as (y & Hy & Hay & _).
    by apply (inv_disj _ _ _ _ _ _ I q r x y a).
  - intros b (q & gq & Hq & Hb). destruct (HG q gq b Hq Hb) as (x & Hx & Hbx & ?). split; [by exists q, x|done].
Qed.
Lemma inv_erase t t' root G p g g' freed e k X Y : inv t root G -> G !! p = Some g -> shrunk t t' p g g' freed (X ++ Y) ->
  items (gshape g) = X ++ e :: Y -> entry_key e k -> (p <> [] -> k <> []) ->
  exists G', inv t' root G' /\ erased G G' (p ++ k) /\ forall b, held G' b -> held G b /\ b ∉ freed.
Proof.
  intros I Hg Sh EI Hk Hne. destruct (shrunk_layers t t' root G p g g' freed _ I Hg Sh) as (HL & HD & HH). exists (<[p := g']> G).
  pose proof (sh_items _ _ _ _ _ _ _ Sh) as Hit. pose proof (sh_ptr _ _ _ _ _ _ _ Sh) as Hp.
  assert (I' : inv t' root (<[p := g']> G)).
  { apply (inv_update lw iw mk t t' root G _ p g g' I Hg); try done; [by rewrite lookup_insert_eq|..].
    - intros x s Hin Hs. assert (Hx : x ∈ items (gshape g)) by (rewrite Hit in Hin; rewrite EI, elem_of_app, elem_of_cons; apply elem_of_app in Hin; tauto).
      destruct (inv_sub _ _ _ _ _ _ I _ _ _ _ Hg Hx Hs) as (gs & Hgs & Eg). exists gs. rewrite lookup_insert_ne; [done|].
      destruct Hs as (_ & Ls & _). intros E. apply (f_equal List.length) in E. rewrite length_app in E. lia.
    - intros x s Hin Hs. rewrite EI, elem_of_app, elem_of_cons in Hin. exists x. rewrite Hit, elem_of_app.
      destruct Hin as [?|[->|?]]; [tauto| |tauto]. by destruct (layer_not_key e s k).
    - intros q gq Hq E. exists gq. rewrite lookup_insert_ne by done. auto.
    - intros q gq Hq E E'. by rewrite lookup_insert_ne, E' in E. }
  split_and!; [exact I'| |exact HH]. intros k' v. destruct (entry_key_rank _ _ Hk) as (Hb & Hr & _).
  assert (Hg' : <[p := g']> G !! p = Some g') by (by rewrite lookup_insert_eq). destruct (decide (k' = p ++ k)) as [->|Hkk].
  - split; [|by intros [? _]]. intros HB. exfalso. revert HB. apply (layer_absent lw iw mk t' root _ p g' k v I' Hg' Hb Hne).
    rewrite Hit. intros x Hx Ex. pose proof (lo_sorted _ _ _ _ _ (inv_layer _ _ _ _ _ _ I _ _ Hg)) as HS. apply ents_sorted in HS.
    change (ents (flat (gshape g))) with (items (gshape g)) in HS. rewrite EI in HS.
    apply sorted_app_iff in HS as (_ & HS & HR). apply StronglySorted_inv in HS as [_ F].
    apply elem_of_app in Hx as [Hx|Hx].
    + specialize (HR x e Hx ltac:(left)). unfold entry_lt in HR. rewrite Ex, Hr in HR. by apply rank_lt_irrefl in HR.
    + rewrite Forall_forall in F. apply list_elem_of_In, F in Hx. unfold entry_lt in Hx. rewrite Ex, Hr in Hx. by apply rank_lt_irrefl in Hx.
  - rewrite (bound_parts _ p g' k' v Hg'), (bound_parts G p g k' v Hg), elsewhere_insert, Hit, EI, <- Permutation_middle, at_layer_cons.
    split; [tauto|]. intros [_ [[(k0 & Hk0 & Ek & _)|?]|?]]; [|tauto..]. destruct Hkk. by rewrite Ek, (entry_key_inj _ _ _ Hk Hk0).
Qed.

(** ** The whole removal *)
Context (unaligned : bool) (mem : Z -> Z) (Hm : forall a, byte_ok (mem a)).

(** What [remove_key] leaves: a well-formed tree without the key, and garbage that is not
    part of it any more. *)
Definition removes (t : tree) (G : gmap (list Z) glayer) (K : list Z) (root : Z) (r : option (tree * Z * bool * list garbage)) (found : bool) : Prop :=
  exists t' gs G', r = Some (t', root, found, gs) /\ inv t' root G' /\ erased G G' K /\ grown t t' G G' [] /\
    NoDup (garbage_nodes gs) /\ forall b, b ∈ garbage_nodes gs -> held G b /\ ~ held G' b.

Lemma removed t root G t2 root2 G2 p g C n l i k rt prefix fuel row : searched lw iw mk t root G t2 root2 G2 -> G2 !! p = Some g -> at_leaf t2 p g C n l ->
  gptr g = addr (gshape g) -> 0 <= i < lsize l -> entry_key (nth_entry l i) k -> (p <> [] -> k <> []) -> (List.length C < fuel)%nat ->
  removes t G (p ++ k) root2 ('(t, freed) ← finish_remove bnd lw fuel n i rt prefix t2; Some (t, root2, true, Row row :: freed)) true.
Proof.
  intros [I I2 HB HG] Hg A Hfr Hi Hk Hne Hf. destruct (layer_erase t2 p g C n l i rt prefix fuel A Hi Hfr Hf) as (t' & gs & g' & X & Y & -> & EI & Sh).
  destruct (inv_erase t2 t' root2 G2 p g g' _ _ k X Y I2 Hg Sh EI Hk Hne) as (G' & I' & HE & HH). cbn [mbind option_bind].
  eexists t', _, G'. split; [done|]. split; [exact I'|]. change (garbage_nodes (Row row :: gs)) with (garbage_nodes gs). split_and!.
  - intros k' v. by rewrite (HE k' v), HB.
  - eapply grown_trans; [exact HG|]. split; [intros b Hb; left; by apply HH|]. intros b Hb _. apply (sh_outside _ _ _ _ _ _ _ Sh). intros Hb'. apply Hb. by exists p, g.
  - pose proof (lo_nodup _ _ _ _ _ (inv_layer _ _ _ _ _ _ I2 _ _ Hg)) as Hnd. rewrite (sh_addrs _ _ _ _ _ _ _ Sh) in Hnd.
    apply list.NoDup_app in Hnd as (_ & _ & Hnd). by rewrite <- Permutation_rev in Hnd.
  - intros b Hb. assert (Hbr : b ∈ rev (garbage_nodes gs)) by (by rewrite <- Permutation_rev). split.
    + destruct (proj1 HG b) as [?|Hn]; [|done|by apply elem_of_nil in Hn]. exists p, g. split; [done|].
      rewrite (sh_addrs _ _ _ _ _ _ _ Sh). apply elem_of_app. by right.
    + intros Hh. by destruct (HH b Hh).
Qed.
Lemma not_removed t root G t2 root2 G2 K : searched lw iw mk t root G t2 root2 G2 -> (forall v, ~ bound G2 K v) ->
  removes t G K root2 (Some (t2, root2, false, [])) false.
Proof.
  intros [I I2 HB HG] Hn. exists t2, [], G2. split_and!; try done.
  - intros k v. rewrite <- HB. split; [|by intros [_ ?]]. intros Hb. split; [|done]. intros ->. by apply (Hn v).
  - constructor.
  - intros b Hb. by apply elem_of_nil in Hb.
Qed.
Lemma remove_layers t root G s len : inv t root G -> 0 <= len ->
  exists N found root', forall fuel, (N <= fuel)%nat ->
  removes t G (mem_bytes mem s len) root' (remove_key bnd unaligned lw mem fuel root s len t) found /\
  (found = true <-> exists v0, bound G (mem_bytes mem s len) v0).
Proof.
  intros I0 Hl0. destruct (fix_root_ok lw iw mk t root G I0) as (G1 & I1 & HB1 & HG1 & g1 & Hg1 & Hf1). set (root1 := fix_root root t) in *.
  assert (Er1 : gptr g1 = root1) by (destruct (inv_root _ _ _ _ _ _ I1) as (g2 & Hg2 & E2); congruence).
  destruct (find_locked_ok bnd unaligned lw iw mk mem Hlw Hm root1 _ (mem_bytes mem s len) [] g1 _ t G1 eq_refl I1 Hg1 Hf1 (key_str_view unaligned mem s len Hm Hl0))
    as (N & t2 & n & kx & state & ka & G2 & p & g & k & C & l & HN & [I2 HB2 HG2 Hg Hfr Ek Vk Hne A Loc]); [done|].
  rewrite Er1 in HN. cbn [app] in Ek. rewrite Ek. pose proof Vk as (_ & _ & _ & Bk).
  assert (S : searched lw iw mk t root G t2 root1 G2) by (split; [done|done|intros; by rewrite HB2, HB1|by eapply grown_trans]).
  setoid_rewrite <- (sd_bound _ _ _ _ _ _ _ _ _ S).
  pose proof (lc_here _ _ _ _ _ _ Loc) as Hhere. pose proof (lc_i _ _ _ _ _ _ Loc) as Hj. destruct (Z.leb_spec 0 (kx_p kx)) as [Hp|Hp].
  - destruct Hhere as (Hsz & Hel & Hr & k0 & Hk0 & Est). assert (Hj' : 0 <= kx_i kx < lsize l) by lia. pose proof (nth_in _ _ _ _ _ _ _ _ _ A Hj') as Hin.
    assert (HX : forall v0, bound G2 (p ++ k) v0 <-> k0 = k /\ lv (nth_entry l (kx_i kx)) = v0).
    { destruct (layer_decides lw iw mk t2 root1 G2 p g k _ I2 Hg Bk Hne Hin Hr) as [(k1 & Hk1 & HX)|(s' & _ & Hs' & _)].
      - by rewrite (entry_key_inj _ _ _ Hk1 Hk0) in HX.
      - by destruct (layer_not_key _ _ _ Hs' Hk0). }
    setoid_rewrite HX. exists (Nat.max N (Datatypes.S (List.length C))), (bool_decide (k0 = k)), root1. intros fuel Hf.
    split; [|case_bool_decide; split; [by eexists|done|done|by intros (_ & ? & _)]].
    unfold remove_key. fold root1. rewrite HN by lia. cbn [mbind option_bind]. rewrite Est.
    case_bool_decide as Hkk; cbn [b2z Z.eqb Pos.eqb negb].
    + subst k0. rewrite (al_leaf _ _ _ _ _ _ _ _ A). cbn [mbind option_bind]. eapply removed; try done. lia.
    + apply (not_removed _ _ _ _ _ _ _ S). intros v0 Hb. by apply HX in Hb as [? _].
  - destruct Hhere as [Est Hgt].
    assert (Hn : forall v0, ~ bound G2 (p ++ k) v0).
    { intros v0. apply (layer_absent lw iw mk t2 root1 G2 p g k v0 I2 Hg Bk Hne). eapply located_absent; [done..|by eapply key_view_ikey]. }
    exists N, false, root1. intros fuel Hf. split; [|split; [done|]; intros (v0 & Hb); by apply Hn in Hb].
    unfold remove_key. fold root1. rewrite HN by lia. cbn [mbind option_bind]. rewrite Est. by apply (not_removed _ _ _ _ _ _ _ S).
Qed.

(** A removal, for a tree that stands without the addresses [out]. *)
Lemma remove_stands t root m out s len : stands_without lw iw mk t root m out -> 0 <= len ->
  exists N root', forall fuel, (N <= fuel)%nat -> exists t' gs,
    remove_key bnd unaligned lw mem fuel root s len t = Some (t', root', bool_decide (is_Some (m !! mem_bytes mem s len)), gs) /\
    stands_without lw iw mk t' root' (delete (mem_bytes mem s len) m) (garbage_nodes gs ++ out) /\ NoDup (garbage_nodes gs) /\
    (forall b, b ∈ garbage_nodes gs -> b ∉ out /\ ~ fresh t b) /\ forall b, fresh t b -> fresh t' b.
Proof.
  intros (G & I & HG & Hout) Hl. destruct (remove_layers t root G s len I Hl) as (N & found & root' & H). exists N, root'. intros fuel Hf.
  destruct (H fuel Hf) as [(t' & gs & G' & E & I' & HE & Hgr & Hnd & Hgs) Hfound]. exists t', gs.
  rewrite E, (found_map G m _ found HG Hfound).
  assert (Hh : forall b, held G' b -> held G b) by (intros b Hb; destruct (proj1 Hgr b Hb) as [?|Hn]; [done|by apply elem_of_nil in Hn]).
  split_and!; [done| |done| |].
  - exists G'. split_and!; [done|intros k v; rewrite (HE k v), lookup_delete_Some, HG; intuition congruence|].
    intros b [Hb|Hb]%elem_of_app; [|destruct (Hout b Hb); split; [done|by intros ?%Hh]].
    destruct (Hgs b Hb) as [(p & g & Hg & Hbg) ?]. split; [|done]. by apply (lo_nonnull _ _ _ _ _ (inv_layer _ _ _ _ _ _ I _ _ Hg)).
  - intros b Hb. destruct (Hgs b Hb) as [Hg _]. split; [intros Hb'; by apply (Hout b Hb')|].
    intros Hfr. by apply (fresh_not_held lw iw mk _ _ _ _ I Hfr).
  - intros b Hb. eapply (grown_fresh lw iw mk t); [exact I|exact Hgr|done|apply not_elem_of_nil].
Qed.

End Delete.
