(* ===== verification/TreeGc.v ===== *)
(** The collection of empty layers: proofs.

    A callback that was registered for a layer finds the entry that points to it, takes away
    the interior nodes that are left with a single child and, if the last leaf is empty, the
    leaf and the entry.  The map that the tree stands for does not change. *)
From Stdlib Require Import Sorted.
From S2P Require Import Prelude StringSlice Permuter KSearch Internode LeafSplit MassKey Tree TreeShape TreeMap TreeOps TreeRemove TreeInsert TreeLayer TreeGrow TreeTwig TreePut TreePrune TreeDelete.

(** An empty layer: interior nodes with one child each over an empty leaf. *)
Fixpoint bare (g : shape) : bool :=
  match g with
  | SLeaf _ _ es => match es with [] => true | _ => false end
  | SNode _ None [] [c] => bare c
  | SNode _ _ _ _ => false
  end.

Section Gc.
Context (bnd : key_bound_type) (lw iw : Z) (Hlw : 11 <= lw <= 15) (mk : Z).
Abbreviation layer_ok := (layer_ok lw iw).
Abbreviation at_leaf := (at_leaf lw iw).
Abbreviation inv := (inv lw iw mk).

Lemma bare_items g : bare g = true -> items g = [].
Proof.
  induction g as [n lo es|n h ks cs IH] using shape_ind'; cbn; [by destruct es|].
  destruct h, ks, cs as [|c []]; try done. intros Hb. inversion IH as [|? ? Hc _]; subst. rewrite <- (Hc Hb). unfold items. cbn. by rewrite app_nil_r.
Qed.

(** The only child of a root takes its place. *)
Definition collapse (a c : Z) (t : tree) : tree :=
  let t := make_layer_root c t in put_parents (<[a := c]> (parents t)) t.
Lemma layer_collapse t q gp a c : layer_ok t q {| gptr := gp; gshape := SNode a None [] [c] |} ->
  layer_ok (collapse a (addr c) t) q {| gptr := addr c; gshape := c |} /\ outside (a :: addrs c) t (collapse a (addr c) t).
Proof.
  intros L. pose proof (lo_rep _ _ _ _ _ L) as HR. cbn [gshape] in HR. apply rep_SNode in HR as (_ & _ & F).
  apply list.Forall_cons in F as [(Hp & Hh & Hr) _]. pose proof (lo_nodup _ _ _ _ _ L) as Hnd. cbn [gshape addrs flat_map] in Hnd.
  rewrite app_nil_r in Hnd. apply list.NoDup_cons in Hnd as [Hna Hnd].
  assert (Ef : flat (SNode a None [] [c]) = flat c) by (cbn; by rewrite app_nil_r).
  assert (Hac : addr c <> a) by (intros E; apply Hna; rewrite <- E; apply addr_in).
  set (t' := collapse a (addr c) t).
  assert (Hpar : forall b, b <> a -> b <> addr c -> parents t' b = parents t b).
  { intros b H1 H2. unfold t', collapse. cbn. by rewrite !fn_lookup_insert_ne. }
  assert (Hroot : forall b, b <> addr c -> is_root t' b = is_root t b) by (intros b Hb; unfold t', collapse; cbn; by rewrite fn_lookup_insert_ne).
  assert (Hbelow : forall b, b ∈ below c -> b <> a /\ b <> addr c).
  { intros b Hb. rewrite addrs_below in Hna, Hnd. apply list.NoDup_cons in Hnd as [Hnc _]. split; intros ->; [apply Hna; by right|done]. }
  assert (HR' : rep lw iw t' true c).
  { assert (Top : is_root t' (addr c) = true) by (unfold t', collapse; cbn; by rewrite fn_lookup_insert).
    destruct c as [n lo es|n h ks cs]; [split; [by destruct Hr|done]|]. rewrite rep_SNode in *. destruct Hr as (Hi & _ & Fc).
    split_and!; [exact Hi|done|]. rewrite Forall_forall in *. intros x Hx. specialize (Fc x Hx). apply list_elem_of_In in Hx.
    assert (Hin : forall b, b ∈ addrs x -> b ∈ below (SNode n h ks cs)) by (intros b Hb; apply elem_of_flat_map; by exists x).
    apply (child_frame lw iw t); [| |done|exact Fc]; intros b Hb; apply Hin, Hbelow in Hb as [H1 H2]; [|by apply Hpar].
    split_and!; [done..|by apply Hroot]. }
  split.
  - split; cbn [gptr gshape]; try done; try apply L.
    + unfold t', collapse. cbn. rewrite fn_lookup_insert_ne by done. by rewrite fn_lookup_insert.
    + rewrite <- Ef. apply L.
    + rewrite <- Ef. apply L.
    + intros b Hb. apply (lo_nonnull _ _ _ _ _ L). cbn. right. by rewrite app_nil_r.
    + pose proof (lo_chain _ _ _ _ _ L) as Hc. cbn in Hc. rewrite app_nil_r in Hc. eapply (chain_same t); [|exact Hc].
      intros b lb _ Hb. by exists lb.
    + apply addr_in.
    + intros e He. apply (lo_items _ _ _ _ _ L). unfold items. cbn [gshape]. by rewrite Ef.
    + intros Hq e He. apply (lo_nonempty _ _ _ _ _ L Hq). unfold items. cbn [gshape]. by rewrite Ef.
  - intros b Hb. rewrite elem_of_cons in Hb. assert (b <> a) by tauto. assert (b <> addr c) by (intros ->; apply Hb; right; apply addr_in).
    split; [split_and!; [done..|by apply Hroot]|by apply Hpar].
Qed.

(** The interior node at the top of a layer: with a key, or with a single child. *)
Lemma top_inode t q g x : layer_ok t q g -> leaves t !! addr (gshape g) = None -> inodes t !! addr (gshape g) = Some x ->
  exists a h ks cs, gshape g = SNode a h ks cs /\ if 0 <? nkeys_ x then bare (gshape g) = false
    else exists c, gshape g = SNode a None [] [c] /\ child_ x 0 = addr c.
Proof.
  intros L Hl Hx. pose proof (lo_rep _ _ _ _ _ L) as HR. destruct (gshape g) as [n lo es|a h ks cs] eqn:Eg.
  { destruct HR as [(l & Hl' & _) _]. cbn in Hl. congruence. }
  exists a, h, ks, cs. split; [done|]. apply rep_SNode in HR as ((_ & _ & x' & Hx' & Hn & Ek & Ec) & _ & _). cbn in Hx. assert (x' = x) as -> by congruence.
  pose proof (length_keys x ltac:(lia)) as Lk. rewrite Ek in Lk. pose proof (length_kids x ltac:(lia)) as Lc. rewrite Ec in Lc.
  destruct (Z.ltb_spec 0 (nkeys_ x)) as [H|H].
  - destruct h, ks; cbn in *; try done; lia.
  - destruct h; [cbn in Lk; lia|]. destruct ks; [|cbn in Lk; lia]. cbn in Lc. rewrite length_fmap in Lc. destruct cs as [|c [|]]; cbn in Lc; try lia.
    exists c. split; [done|]. cbn in Ec. assert (E0 : nkeys_ x = 0) by lia. unfold kids in Ec. rewrite E0 in Ec. cbn in Ec. by injection Ec.
Qed.

(** What the loop leaves: the layer gone but for an empty leaf, or as it is. *)
Record looped (t : tree) (root : Z) (G : gmap (list Z) glayer) (p s : list Z) (n : Z) (l : leaf) (j : Z) (t' : tree) (gone : bool) (freed : list Z)
    (G' : gmap (list Z) glayer) (g g' gs' : glayer) (l' : leaf) (C : list frame) : Prop := {
  lp_inv : inv t' root G';
  lp_layer : G' !! p = Some g';
  lp_sub : G' !! (p ++ s) = Some gs';
  lp_leaf : at_leaf t' p g' C n l';
  lp_ptr : gptr g' = gptr g;
  lp_perm : permutation_ l' = permutation_ l;
  lp_slice : layer_slice (nth_entry l' j) s;
  lp_bound : forall k v, bound G' k v <-> bound G k v;
  lp_held : forall b, held G' b -> held G b;
  lp_freed : NoDup freed /\ forall b, b ∈ freed -> held G b /\ (if gone then b <> addr (gshape gs') -> ~ held G' b else ~ held G' b);
  lp_outside : forall b, ~ held G b -> same_node t t' b /\ same_parent t t' b;
  lp_gone : if gone then (exists lo, gshape gs' = SLeaf (addr (gshape gs')) lo []) /\ addr (gshape gs') ∈ freed else bare (gshape gs') = false
}.
Lemma looped_step t root G p s n l j t1 G1 g g1 l1 C fr t' gone freed G' g' gs' l' : inv t root G -> G !! p = Some g ->
  (forall k v, bound G1 k v <-> bound G k v) -> (forall b, held G1 b -> held G b /\ b ∉ fr) -> (forall b, ~ held G b -> same_node t t1 b /\ same_parent t t1 b) ->
  (forall b, b ∈ fr -> held G b) -> NoDup fr -> gptr g1 = gptr g -> permutation_ l1 = permutation_ l ->
  looped t1 root G1 p s n l1 j t' gone freed G' g1 g' gs' l' C -> looped t root G p s n l j t' gone (fr ++ freed) G' g g' gs' l' C.
Proof.
  intros I Hg HB HH HO Hfr Hnd Hp Hpm [I' Hg' Hs' A Hp' Hpm' Hsl HB' HH' [Hnd' Hf'] HO' Hgone]. split; try done.
  - congruence.
  - congruence.
  - intros k v. by rewrite HB', HB.
  - intros b Hb. by apply HH, HH'.
  - split.
    + apply list.NoDup_app. split_and!; [done| |done]. intros b Hb Hb'. apply Hf' in Hb' as [Hb' _]. by apply HH in Hb' as [_ ?].
    + intros b [Hb|Hb]%elem_of_app; [|destruct (Hf' b Hb) as [H1 H2]; split; [by apply HH|done]]. split; [by apply Hfr|].
      assert (~ held G' b) by (intros Hh; apply HH', HH in Hh; tauto). by destruct gone.
  - intros b Hb. eapply same_trans; [by apply HO|]. apply HO'. intros Hb'. by apply HH in Hb' as [? _].
  - destruct gone; [|exact Hgone]. destruct Hgone as [? Hin]. split; [done|]. apply elem_of_app. by right.
Qed.

Lemma looped_stop t root G p s n l j g gs C : inv t root G -> G !! p = Some g -> G !! (p ++ s) = Some gs -> at_leaf t p g C n l ->
  layer_slice (nth_entry l j) s -> bare (gshape gs) = false -> looped t root G p s n l j t false [] G g g gs l C.
Proof.
  intros I Hg Hgs A Hs Hb0. split; try done. split; [constructor|]. intros b Hb. by apply elem_of_nil in Hb.
Qed.
Lemma looped_empty t root G p s n l j g gs C lo : inv t root G -> G !! p = Some g -> G !! (p ++ s) = Some gs -> at_leaf t p g C n l ->
  layer_slice (nth_entry l j) s -> gshape gs = SLeaf (addr (gshape gs)) lo [] -> looped t root G p s n l j t true [addr (gshape gs)] G g g gs l C.
Proof.
  intros I Hg Hgs A Hs Eg. split; try done.
  - split; [apply NoDup_singleton|]. intros b ->%list_elem_of_singleton. split; [|done]. exists (p ++ s), gs. split; [done|apply addr_in].
  - split; [by exists lo|left].
Qed.

Definition measure (t : tree) (gs : glayer) : nat := List.length (addrs (gshape gs)) + if is_root t (gptr gs) then 0 else 1.
Lemma gc_loop_ok : forall m t root G p g C n l j s gs, m = measure t gs -> inv t root G -> G !! p = Some g -> at_leaf t p g C n l -> 0 <= j < lsize l ->
  layer_slice (nth_entry l j) s -> G !! (p ++ s) = Some gs ->
  exists N t' freed G' g' gs' l', (forall fuel, (N <= fuel)%nat -> gc_loop fuel n (elem (permutation_ l) j) t = Some (t', bare (gshape gs), Node <$> freed)) /\
    looped t root G p s n l j t' (bare (gshape gs)) freed G' g g' gs' l' C.
Proof.
  induction m as [m IH] using lt_wf_ind. intros t root G p g C n l j s gs -> I Hg A Hj Hs Hgs.
  pose proof (inv_layer _ _ _ _ _ _ I _ _ Hgs) as Ls. pose proof (nth_in _ _ _ _ _ _ _ _ _ A Hj) as Hin. set (e := nth_entry l j) in *.
  destruct (inv_sub _ _ _ _ _ _ I _ _ _ _ Hg Hin Hs) as (gs0 & Hgs0 & Ep). assert (gs0 = gs) as -> by congruence. clear Hgs0.
  assert (Hps : p ++ s <> p) by (apply app_not_self; destruct Hs as (_ & Ls8 & _); by destruct s).
  assert (Hstep : forall fuel, gc_loop (S fuel) n (elem (permutation_ l) j) t =
    let layer := lv e in
    if negb (is_root t layer) then gc_loop fuel n (elem (permutation_ l) j) (put_leaf n (set_lv l (elem (permutation_ l) j) (maybe_parent t layer)) t)
    else match leaves t !! layer with
         | Some lf => Some (t, lsize lf =? 0, if lsize lf =? 0 then [Node layer] else [])
         | None => x ← inodes t !! layer;
             if 0 <? nkeys_ x then Some (t, false, [])
             else '(t, done, freed) ← gc_loop fuel n (elem (permutation_ l) j) (put_leaf n (set_lv l (elem (permutation_ l) j) (child_ x 0)) (collapse layer (child_ x 0) t));
                  Some (t, done, Node layer :: freed)
         end).
  { intros fuel. cbn [gc_loop]. rewrite (al_leaf _ _ _ _ _ _ _ _ A). done. }
  destruct (layer_repoint lw iw t _ gs Ls) as [Lr Er]. rewrite Ep in Er. cbv zeta in Hstep. destruct (is_root t (lv e)) eqn:Hroot; cbn [negb] in Hstep.
  2: { (* the pointer is stale *)
    destruct (inv_relayer lw iw mk Hlw t t root G p g C n l j s gs (repoint gs) [] I Hg A Hj Hs Hgs)
      as (G1 & g1 & I1 & Hg1 & Hgs1 & A1 & Hp1 & En1 & HB1 & HH1 & HO1); try done; [by rewrite app_nil_r|].
    fold e in Er, En1, Hstep. rewrite Er in Hstep. set (l1 := set_lv l _ _) in *. set (t1 := put_leaf n l1 t) in *.
    destruct (IH (measure t1 (repoint gs))) with (t := t1) (root := root) (G := G1) (p := p) (g := g1) (C := C) (n := n) (l := l1) (j := j) (s := s) (gs := repoint gs)
      as (N & t' & freed & G' & g' & gs' & l' & HN & Lp); try done.
    { unfold measure. cbn [gptr gshape repoint]. change (is_root t1) with (is_root t). rewrite (rep_top lw iw t (gshape gs)) by apply Ls.
      rewrite Ep. fold e. rewrite Hroot. lia. }
    { rewrite En1. exact Hs. }
    exists (S N), t', freed, G', g', gs', l'. split.
    - intros [|fuel] Hf; [lia|]. rewrite Hstep. apply HN. lia.
    - change freed with ([] ++ freed). apply (looped_step t root G p s n l j t1 G1 g g1 l1 C [] t' _ freed G' g' gs' l' I Hg HB1); try done.
      + intros b Hb. apply HO1. rewrite elem_of_app. intros [Hb'|Hb']; apply Hb; [by exists p, g|by exists (p ++ s), gs].
      + intros b Hb. by apply elem_of_nil in Hb.
      + constructor. }
  assert (Ea : lv e = addr (gshape gs)) by (rewrite <- Ep, <- Er; done). destruct (leaves t !! lv e) as [lf|] eqn:Hlf.
  - (* the last leaf *)
    exists 1%nat. destruct (gshape gs) as [a lo es|a h ks cs] eqn:Eg.
    2: { pose proof (lo_rep _ _ _ _ _ Ls) as HR. rewrite Eg in HR. apply rep_SNode in HR as ((Hn & _) & _). rewrite Ea in Hlf. cbn in Hlf. congruence. }
    pose proof (lo_rep _ _ _ _ _ Ls) as HR. rewrite Eg in HR. destruct HR as [(l0 & Hl0 & Hok & _ & Ees) _]. cbn in Ea. rewrite Ea in Hlf. assert (l0 = lf) as -> by congruence.
    assert (Hz : (lsize lf =? 0) = match es with [] => true | _ => false end).
    { pose proof (length_entries lf) as Hlen. rewrite Ees in Hlen. destruct es; cbn in Hlen; zcases; lia || done. }
    cbn [bare]. exists t, (if lsize lf =? 0 then [a] else []), G, g, gs, l. rewrite Hz. split.
    + intros [|fuel] Hf; [lia|]. rewrite Hstep, Hz, Ea. by destruct es.
    + destruct es; [|apply looped_stop; try done; by rewrite Eg]. pose proof (looped_empty t root G p s n l j g gs C lo I Hg Hgs A Hs) as H. rewrite Eg in H. by apply H.
  - (* an interior node *)
    pose proof Hlf as Hlf'. rewrite Ea in Hlf'. assert (Hx : exists x, inodes t !! addr (gshape gs) = Some x).
    { pose proof (lo_rep _ _ _ _ _ Ls) as HR. destruct (gshape gs) as [a lo es|a h ks cs]; [destruct HR as [(l0 & Hl0 & _) _]; cbn in Hlf'; congruence|].
      apply rep_SNode in HR as ((_ & _ & x & Hx & _) & _). by exists x. }
    destruct Hx as [x Hx]. destruct (top_inode t _ gs x Ls Hlf' Hx) as (a & h & ks & cs & Eg & Hcase). rewrite Ea, Hx in Hstep. cbn [mbind option_bind] in Hstep.
    destruct (0 <? nkeys_ x) eqn:Hk.
    + exists 1%nat, t, [], G, g, gs, l. rewrite Hcase. split; [|by apply looped_stop]. intros [|fuel] Hf; [lia|]. by rewrite Hstep.
    + destruct Hcase as (c & Ec & Ecc). rewrite Ecc in Hstep. rewrite Eg in Ec. injection Ec as -> -> ->. destruct gs as [gp sh]. cbn [gshape gptr] in *. subst sh.
      destruct (layer_collapse t (p ++ s) gp a c Ls) as [Lc Oc]. cbn [addr] in *. set (tc := collapse a (addr c) t) in *. set (gc := {| gptr := addr c; gshape := c |}) in *.
      destruct (inv_relayer lw iw mk Hlw t tc root G p g C n l j s _ gc [a] I Hg A Hj Hs Hgs)
        as (G1 & g1 & I1 & Hg1 & Hgs1 & A1 & Hp1 & En1 & HB1 & HH1 & HO1).
      { eapply outside_sub; [exact Oc|]. intros b. cbn. by rewrite app_nil_r. } { exact Lc. } { unfold items. cbn. by rewrite app_nil_r. }
      { cbn. rewrite app_nil_r. solve_Permutation. }
      cbn [gptr gc] in *. set (l1 := set_lv l _ _) in *. set (t1 := put_leaf n l1 tc) in *.
      destruct (IH (measure t1 gc)) with (t := t1) (root := root) (G := G1) (p := p) (g := g1) (C := C) (n := n) (l := l1) (j := j) (s := s) (gs := gc)
        as (N & t' & freed & G' & g' & gs' & l' & HN & Lp); try done.
      { unfold measure. cbn [gptr gshape gc]. change (is_root t1) with (is_root tc). rewrite (rep_top lw iw tc c) by apply Lc.
        cbn [addrs flat_map]. rewrite app_nil_r. cbn. lia. }
      { rewrite En1. exact Hs. }
      exists (S N), t', (a :: freed), G', g', gs', l'. cbn [gshape gc bare] in *. split.
      * intros [|fuel] Hf; [lia|]. rewrite Hstep, HN by lia. done.
      * change (a :: freed) with ([a] ++ freed). apply (looped_step t root G p s n l j t1 G1 g g1 l1 C [a] t' _ freed G' g' gs' l' I Hg HB1); try done.
        -- intros b Hb. apply HO1. rewrite elem_of_app. intros [Hb'|Hb']; apply Hb; [by exists p, g|by eexists (p ++ s), _].
        -- intros b ->%list_elem_of_singleton. eexists (p ++ s), _. split; [exact Hgs|left].
        -- apply NoDup_singleton.
Qed.

(** ** The entry of an empty layer goes, and the layer with it *)
Lemma slice_once t q g X e Y s x : layer_ok t q g -> items (gshape g) = X ++ e :: Y -> layer_slice e s -> x ∈ X ++ Y -> ~ layer_slice x s.
Proof.
  intros L EI Hs Hx Hs'. pose proof (lo_sorted _ _ _ _ _ L) as HS. apply ents_sorted in HS. change (ents (flat (gshape g))) with (items (gshape g)) in HS.
  rewrite EI in HS. apply sorted_app_iff in HS as (_ & HS & HR). apply StronglySorted_inv in HS as [_ F].
  assert (Er : erank x = erank e) by (by rewrite <- (layer_slice_rank x s [0]), <- (layer_slice_rank e s [0])).
  apply elem_of_app in Hx as [Hx|Hx].
  - specialize (HR x e Hx ltac:(left)). unfold entry_lt in HR. rewrite Er in HR. by apply rank_lt_irrefl in HR.
  - rewrite Forall_forall in F. apply list_elem_of_In, F in Hx. unfold entry_lt in Hx. rewrite Er in Hx. by apply rank_lt_irrefl in Hx.
Qed.
Lemma inv_unlayer t t' root G p g g' freed e s X Y gs : inv t root G -> G !! p = Some g -> shrunk lw iw t t' p g g' freed (X ++ Y) ->
  items (gshape g) = X ++ e :: Y -> layer_slice e s -> G !! (p ++ s) = Some gs -> items (gshape gs) = [] ->
  exists G', inv t' root G' /\ G' !! (p ++ s) = None /\ (forall k v, bound G' k v <-> bound G k v) /\
    forall b, held G' b -> held G b /\ b ∉ freed /\ b ∉ addrs (gshape gs).
Proof.
  intros I Hg Sh EI Hs Hgs Hno. destruct (shrunk_layers lw iw mk t t' root G p g g' freed _ I Hg Sh) as (HL & HD & HH).
  pose proof (inv_layer _ _ _ _ _ _ I _ _ Hg) as L. pose proof (sh_items _ _ _ _ _ _ _ _ _ Sh) as Hit. pose proof (sh_ptr _ _ _ _ _ _ _ _ _ Sh) as Hp.
  assert (Hself : forall q s', layer_slice s' q -> forall p' : list Z, p' ++ q <> p') by (intros q s' (_ & L8 & _) p'; apply app_not_self; by destruct q).
  pose proof (Hself s e Hs p) as Hps. set (G1 := <[p := g']> G). set (G' := delete (p ++ s) G1).
  assert (HG' : forall q gq, G' !! q = Some gq <-> q <> p ++ s /\ if decide (q = p) then gq = g' else G !! q = Some gq).
  { intros q gq. unfold G', G1. rewrite lookup_delete_Some. destruct (decide (q = p)) as [->|Hqp]; [rewrite lookup_insert_eq|rewrite lookup_insert_ne by done]; split; intros [? ?]; split; congruence || done. }
  assert (Hat : G' !! p = Some g') by (apply HG'; split; [done|by rewrite decide_True]).
  assert (Hsub : forall x, x ∈ items (gshape g') -> x ∈ items (gshape g)) by (intros x; rewrite Hit, EI, !elem_of_app, elem_of_cons; tauto).
  assert (Hkeep : forall x, x ∈ items (gshape g) -> x <> e -> x ∈ items (gshape g')) by (intros x; rewrite Hit, EI, !elem_of_app, elem_of_cons; tauto).
  (* an entry for another layer leads to it still *)
  assert (Hdown : forall q gq x s', q <> p ++ s -> G !! q = Some gq -> x ∈ items (gshape gq) -> layer_slice x s' -> (q = p -> s' <> s) ->
    exists gs', G' !! (q ++ s') = Some gs' /\ gptr gs' = lv x).
  { intros q gq x s' Hq Hgq Hx Hs' Hne. destruct (inv_sub _ _ _ _ _ _ I _ _ _ _ Hgq Hx Hs') as (g1 & Hg1 & E1). setoid_rewrite HG'.
    assert (q ++ s' <> p ++ s) by (intros E; apply app_inj_2 in E as [-> ->]; [by apply Hne|destruct Hs as (_ & ? & _), Hs' as (_ & ? & _); congruence]).
    destruct (decide (q ++ s' = p)) as [E|E]; [|by exists g1]. exists g'. split_and!; [done..|]. rewrite Hp. rewrite E in Hg1. congruence. }
  assert (I' : inv t' root G').
  { split.
    - destruct (inv_root _ _ _ _ _ _ I) as (g0 & Hg0 & Er). setoid_rewrite HG'. destruct (decide ([] = p)) as [<-|Hn].
      + exists g'. split_and!; [by destruct Hs as (_ & L8 & _); destruct s|done|congruence].
      + exists g0. split_and!; [|done|done]. intros E. symmetry in E. apply app_eq_nil in E as [-> _]. done.
    - intros q gq Hq. apply (HL q). by apply lookup_delete_Some in Hq as [_ ?].
    - intros q gq x s' Hq Hx Hs'. apply HG' in Hq as [Hqs Hq]. destruct (decide (q = p)) as [->|Hqp]; [subst gq|by apply (Hdown q gq)].
      apply (Hdown p g); try done; [by apply Hsub|]. intros _ ->. rewrite Hit in Hx. by apply (slice_once t p g X e Y s x L EI Hs Hx).
    - intros q gq Hq. apply HG' in Hq as [Hqs Hq].
      assert (Hq0 : exists g0, G !! q = Some g0) by (destruct (decide (q = p)) as [->|]; eauto). destruct Hq0 as [g0 Hq0].
      destruct (inv_up _ _ _ _ _ _ I _ _ Hq0) as [?|(x & s' & gx & ex & -> & Hx & Hex & Hsx)]; [by left|right].
      assert (Hxs : x <> p ++ s) by (intros ->; rewrite Hgs in Hx; injection Hx as <-; rewrite Hno in Hex; by apply elem_of_nil in Hex).
      destruct (decide (x = p)) as [->|Hxp].
      + assert (gx = g) as -> by congruence. exists p, s', g', ex. split_and!; [done..| |done]. apply Hkeep; [done|]. intros ->.
        apply Hqs. f_equal. by eapply layer_slice_inj.
      + exists x, s', gx, ex. split_and!; [done| |done..]. apply HG'. by rewrite decide_False.
    - intros q r gq gr b Hq Hr. apply (HD q r gq gr b); [by apply lookup_delete_Some in Hq as [_ ?]|by apply lookup_delete_Some in Hr as [_ ?]].
    - intros q gq Hq. apply HG' in Hq as [_ Hq]. destruct (decide (q = p)) as [->|]; by eapply (inv_short _ _ _ _ _ _ I). }
  exists G'. split_and!; [exact I'|by apply lookup_delete_eq| |].
  - intros k v. split; intros (q & gq & x & k' & Hq & Hx & Hk & E).
    + apply HG' in Hq as [_ Hq]. destruct (decide (q = p)) as [->|Hqp]; [subst gq; exists p, g, x, k'; auto|by exists q, gq, x, k'].
    + assert (Hqs : q <> p ++ s) by (intros ->; rewrite Hgs in Hq; injection Hq as <-; rewrite Hno in Hx; by apply elem_of_nil in Hx).
      destruct (decide (q = p)) as [->|Hqp]; [|exists q, gq, x, k'; split; [apply HG'; by rewrite decide_False|done]].
      assert (gq = g) as -> by congruence. exists p, g', x, k'. split_and!; [done| |done|apply E..]. apply Hkeep; [done|]. intros ->. by eapply layer_not_key.
  - intros b (q & gq & Hq & Hb). apply lookup_delete_Some in Hq as [Hqs Hq]. destruct (HH b) as [H1 H2]; [by exists q, gq|]. split_and!; [done..|].
    intros Hbs. apply (HD q (p ++ s) gq gs b Hq); [unfold G1; by rewrite lookup_insert_ne|done..].
Qed.

(** ** The search for the entry *)
Lemma is_layer_slice t q g e : layer_ok t q g -> e ∈ items (gshape g) -> (is_layer e = true <-> exists s, layer_slice e s).
Proof.
  intros L He. unfold is_layer. split.
  - intros H%Z.ltb_lt. destruct (lo_items _ _ _ _ _ L e He) as [[k Hk]|?]; [|done]. destruct (entry_key_rank _ _ Hk) as (_ & _ & Hlt & _). unfold layer_keylenx in Hlt. lia.
  - intros (s & -> & _). done.
Qed.
Definition gc_index (kx : key_indexed_position) : Z := kx_i kx + b2z (0 <=? kx_p kx).
Lemma gc_entry t p g C n l kx state ka k : at_leaf t p g C n l -> located C l kx state ka k -> ikey ka = be_value k -> List.length k = 8%nat -> Forall byte_ok k ->
  (gc_index kx < lsize l /\ ikey0 (nth_entry l (gc_index kx)) = ikey ka /\ is_layer (nth_entry l (gc_index kx)) = true <->
   exists e, e ∈ items (gshape g) /\ layer_slice e k) /\ 0 <= gc_index kx /\
  (gc_index kx < lsize l -> ikey0 (nth_entry l (gc_index kx)) = ikey ka -> is_layer (nth_entry l (gc_index kx)) = true -> layer_slice (nth_entry l (gc_index kx)) k).
Proof.
  intros A [Hpre Hpost Hi Hlt Hhere] Ek L8 Bk. pose proof (al_layer _ _ _ _ _ _ _ _ A) as L. set (i := gc_index kx).
  assert (Rk : krank k = (be_value k, 8)) by (unfold krank; rewrite pad_take by lia; rewrite L8; by rewrite take_ge by lia).
  assert (Hi0 : 0 <= i) by (unfold i, gc_index, b2z; destruct (0 <=? kx_p kx); lia).
  assert (Hget : i < lsize l -> ikey0 (nth_entry l i) = ikey ka -> is_layer (nth_entry l i) = true -> layer_slice (nth_entry l i) k).
  { intros H1 H2 H3. apply (is_layer_slice t p g _ L) in H3 as [s Hs]; [|by apply (nth_in _ _ _ _ _ _ _ _ _ A)].
    replace k with s; [done|]. destruct Hs as (_ & L8' & B' & E'). apply be_inj; [done..|]. congruence. }
  split_and!; [|done|done]. split.
  - intros (H1 & H2 & H3). exists (nth_entry l i). split; [by apply (nth_in _ _ _ _ _ _ _ _ _ A)|by apply Hget].
  - intros (e & He & Hs). pose proof Hs as (Ekl & _ & _ & Eik).
    rewrite (at_leaf_items _ _ _ _ _ _ _ _ A), !elem_of_app in He.
    destruct He as [He|[He|He]]; [apply (ents_below _ _ _ Hpre) in He; lia| |apply (ents_above _ _ _ Hpost) in He; lia].
    apply entries_elem in He as (j & Hj & ->). assert (Rj : erank (nth_entry l j) = (be_value k, 9)) by (unfold erank; by rewrite Ekl, Eik).
    pose proof (at_leaf_sorted lw iw _ _ _ _ _ _ A) as HS. apply ents_sorted in HS. rewrite !ents_app in HS.
    change (ents (Lo (leaf_lo l) :: ?x)) with (ents x) in HS. rewrite ents_app, ents_E in HS.
    apply sorted_app_iff in HS as (_ & HS & _). apply sorted_app_iff in HS as (HS & _).
    assert (Hij : i = j); [|rewrite Hij; split_and!; [lia|congruence|unfold is_layer; by rewrite Ekl]].
    assert (Hbetween : ~ (i < j /\ rank_lt (krank k) (erank (nth_entry l i)))).
    { intros [H1 H2]. pose proof (entries_sorted l i j HS ltac:(lia) ltac:(lia)) as H3. rewrite Rj in H3. rewrite Rk in H2. unfold rank_lt in *. cbn [fst snd] in *. lia. }
    assert (Hlow : kx_i kx <= j).
    { destruct (Z.lt_ge_cases j (kx_i kx)); [|done]. pose proof (Hlt j ltac:(lia)) as H1. rewrite Rj, Rk in H1. unfold rank_lt in H1. cbn [fst snd] in H1. lia. }
    unfold i, gc_index, b2z in *. destruct (0 <=? kx_p kx).
    + destruct Hhere as (Hsz & _ & Hr & _). assert (j <> kx_i kx) by (intros ->; rewrite Rj, Rk in Hr; congruence).
      destruct (Z.eq_dec (kx_i kx + 1) j) as [|]; [done|]. exfalso. apply Hbetween. split; [lia|]. rewrite <- Hr. apply entries_sorted; [done|lia|lia].
    + destruct Hhere as [_ Hgt]. destruct (Z.eq_dec (kx_i kx + 0) j) as [|]; [done|]. exfalso. apply Hbetween. split; [lia|]. apply Hgt. lia.
Qed.

(** ** The whole callback *)
Context (unaligned : bool) (mem : Z -> Z) (Hm : forall a, byte_ok (mem a)).

(** What a collection leaves: the same bindings, and no empty layer at [K]. *)
Definition collects (t : tree) (G : gmap (list Z) glayer) (K : list Z) (root : Z) (r : option (tree * list garbage)) : Prop :=
  exists t' gs G', r = Some (t', gs) /\ inv t' root G' /\ (forall k v, bound G' k v <-> bound G k v) /\
    (forall g, G' !! K = Some g -> bare (gshape g) = false) /\ grown t t' G G' [] /\
    NoDup (garbage_nodes gs) /\ forall b, b ∈ garbage_nodes gs -> held G b /\ ~ held G' b.

Lemma collects_after t root G t2 root2 G2 K r : searched lw iw mk t root G t2 root2 G2 -> collects t2 G2 K root2 r -> collects t G K root2 r.
Proof.
  intros [I I2 HB HG] (t' & gs & G' & -> & I' & HB' & Hn & HG' & Hnd & Hgs). exists t', gs, G'. split_and!; try done.
  - intros k v. by rewrite HB', HB.
  - by eapply grown_trans.
  - intros b Hb. destruct (Hgs b Hb) as [H1 H2]. split; [|done]. destruct (proj1 HG b H1) as [?|Hn']; [done|by apply elem_of_nil in Hn'].
Qed.
Lemma collects_none t root G K : inv t root G -> G !! K = None -> collects t G K root (Some (t, [])).
Proof.
  intros I HK. exists t, [], G. split_and!; try done; [intros g; congruence|apply grown_refl|constructor|]. intros b Hb. by apply elem_of_nil in Hb.
Qed.

(** The entry was found. *)
Lemma collects_found t root G p g C n l i k rt prefix : inv t root G -> G !! p = Some g -> gptr g = addr (gshape g) -> at_leaf t p g C n l -> 0 <= i < lsize l ->
  layer_slice (nth_entry l i) k ->
  exists N, forall fuel, (N <= fuel)%nat -> collects t G (p ++ k) root ('(t, gone, freed) ← gc_loop fuel n (elem (permutation_ l) i) t;
    if gone : bool then '(t, l) ← finish_remove bnd lw fuel n i rt prefix t; Some (t, l ++ freed) else Some (t, freed)).
Proof.
  intros I Hg Hfr A Hi Hs. pose proof (nth_in _ _ _ _ _ _ _ _ _ A Hi) as Hin.
  destruct (inv_sub _ _ _ _ _ _ I _ _ _ _ Hg Hin Hs) as (gs & Hgs & _).
  destruct (gc_loop_ok _ t root G p g C n l i k gs eq_refl I Hg A Hi Hs Hgs) as (N & t1 & freed & G1 & g1 & gs1 & l1 & HN & Lp).
  pose proof Lp as [I1 Hg1 Hgs1 A1 Hp1 Hpm Hs1 HB HH [Hnd Hfreed] HO Hgone]. exists (Nat.max N (S (List.length C))). intros fuel Hf. rewrite HN by lia. cbn [mbind option_bind].
  assert (Hgr1 : grown t t1 G G1 []) by (split; [intros b Hb; left; by apply HH|intros b Hb _; by apply HO]).
  destruct (bare (gshape gs)).
  2: { exists t1, (Node <$> freed), G1. rewrite garbage_nodes_map. split_and!; try done. intros g0 E0. congruence. }
  destruct Hgone as [[lo Eg] Hroot].
  assert (Hfr1 : gptr g1 = addr (gshape g1)).
  { rewrite Hp1, Hfr, (al_shape _ _ _ _ _ _ _ _ A), (al_shape _ _ _ _ _ _ _ _ A1). by apply addr_fill. }
  assert (Hi1 : 0 <= i < lsize l1) by (unfold lsize; rewrite Hpm; exact Hi).
  destruct (layer_erase bnd lw iw Hlw t1 p g1 C n l1 i rt prefix fuel A1 Hi1 Hfr1 ltac:(lia)) as (t2 & gs2 & g2 & X & Y & -> & EI & Sh). cbn [mbind option_bind].
  destruct (inv_unlayer t1 t2 root G1 p g1 g2 _ _ k X Y gs1 I1 Hg1 Sh EI Hs1 Hgs1) as (G2 & I2 & HK & HB2 & HH2); [by rewrite Eg|].
  assert (Hgar : forall b, b ∈ garbage_nodes gs2 -> b ∈ addrs (gshape g1)).
  { intros b Hb. rewrite (sh_addrs _ _ _ _ _ _ _ _ _ Sh). apply elem_of_app. right. by rewrite <- Permutation_rev. }
  exists t2, (gs2 ++ (Node <$> freed)), G2. rewrite garbage_app, garbage_nodes_map. split_and!; try done.
  - intros k0 v0. by rewrite HB2, HB.
  - intros g0 E0. congruence.
  - eapply grown_trans; [exact Hgr1|]. split; [intros b Hb; left; by apply HH2|]. intros b Hb _. apply (sh_outside _ _ _ _ _ _ _ _ _ Sh). intros Hb'. apply Hb. by exists p, g1.
  - apply list.NoDup_app. split_and!; [| |done].
    + pose proof (lo_nodup _ _ _ _ _ (inv_layer _ _ _ _ _ _ I1 _ _ Hg1)) as H. rewrite (sh_addrs _ _ _ _ _ _ _ _ _ Sh) in H.
      apply list.NoDup_app in H as (_ & _ & H). by rewrite <- Permutation_rev in H.
    + intros b Hb%Hgar Hb'. destruct (Hfreed b Hb') as [_ Hnh]. destruct (decide (b = addr (gshape gs1))) as [->|Hne]; [|apply Hnh; [done|by exists p, g1]].
      apply (inv_disj _ _ _ _ _ _ I1 p (p ++ k) g1 gs1 (addr (gshape gs1)) Hg1 Hgs1); [|done|apply addr_in].
      intros E. symmetry in E. revert E. apply app_not_self. destruct Hs as (_ & L8 & _). by destruct k.
  - intros b [Hb|Hb]%elem_of_app.
    + split; [apply HH; exists p, g1; auto|]. intros Hh. apply HH2 in Hh as (_ & Hn & _). apply Hn. by rewrite <- Permutation_rev.
    + destruct (Hfreed b Hb) as [H1 H2]. split; [done|]. intros Hh. apply HH2 in Hh as (Hh & _ & Hn).
      destruct (decide (b = addr (gshape gs1))) as [->|Hne]; [apply Hn, addr_in|by apply H2].
Qed.

Lemma gc_layers t root G r0 s len : inv t root G -> 0 < len -> len mod 8 = 0 ->
  (exists N, forall fuel, (N <= fuel)%nat -> true_root t fuel r0 = Some (fix_root root t)) ->
  exists N, forall fuel, (N <= fuel)%nat -> collects t G (mem_bytes mem s len) (fix_root root t) (gc_callback bnd unaligned lw mem fuel r0 s len t).
Proof.
  intros I0 Hl0 Hl8 [N0 HN0]. destruct (fix_root_ok lw iw mk t root G I0) as (G1 & I1 & HB1 & HG1 & g1 & Hg1 & Hf1). set (root1 := fix_root root t) in *.
  assert (Er1 : gptr g1 = root1) by (destruct (inv_root _ _ _ _ _ _ I1) as (g2 & Hg2 & E2); congruence).
  destruct (find_locked_ok bnd unaligned lw iw mk mem Hlw Hm root1 _ (mem_bytes mem s len) [] g1 _ t G1 eq_refl I1 Hg1 Hf1 (key_str_view unaligned mem s len Hm ltac:(lia)))
    as (N & t2 & n & kx & state & ka & G2 & p & g & k & C & l & HN & [I2 HB2 HG2 Hg Hfr Ek Vk Hne A Loc]); [done|].
  rewrite Er1 in HN. cbn [app] in Ek. pose proof Vk as (Eik & Elen & _ & Bk).
  assert (S : searched lw iw mk t root G t2 root1 G2) by (split; [done|done|intros; by rewrite HB2, HB1|by eapply grown_trans]).
  assert (Hlen : Z.of_nat (List.length p + List.length k) = len) by (rewrite <- length_app, <- Ek, length_mem_bytes; lia).
  destruct (lo_length _ _ _ _ _ (inv_layer _ _ _ _ _ _ I2 _ _ Hg)) as [m Hpm].
  assert (Hstep : forall fuel, (Nat.max N0 N <= fuel)%nat -> gc_callback bnd unaligned lw mem fuel r0 s len t =
    '(t, n, i, ka, gone, freed) ←
      (if has_suffix 8 ka then Some (t2, n, kx_i kx, ka, false, [])
       else let i := gc_index kx in
         if (lsize l <=? i) || negb (ikey0 (nth_entry l i) =? ikey ka) || negb (is_layer (nth_entry l i)) then Some (t2, n, i, ka, false, [])
         else '(t, gone, freed) ← gc_loop fuel n (elem (permutation_ l) i) t2; Some (t, n, i, ka, gone, freed));
    if gone : bool then '(t, l) ← finish_remove bnd lw fuel n i root1 (mem_bytes mem (prefix_string ka).1 (prefix_string ka).2) t; Some (t, l ++ freed) else Some (t, freed)).
  { intros fuel Hf. unfold gc_callback, gc_layer. rewrite HN0 by lia. cbn [mbind option_bind]. rewrite HN by lia. cbn [mbind option_bind].
    destruct (has_suffix 8 ka); [done|]. rewrite (al_leaf _ _ _ _ _ _ _ _ A). done. }
  assert (Hway : forall gs s' r, k = s' ++ r -> List.length s' = 8%nat -> G2 !! (p ++ k) = Some gs -> exists e, e ∈ items (gshape g) /\ layer_slice e s').
  { intros gs s' r -> L8 Hgs. destruct (layer_way _ _ _ _ _ _ p s' r gs I2 Hgs L8) as (gq & e & Hgq & He & Hs); [by exists m|]. assert (gq = g) as -> by congruence. by exists e. }
  unfold has_suffix in Hstep. rewrite Elen in Hstep. destruct (Z.ltb_spec 8 (Z.of_nat (List.length k))) as [H8|H8].
  - (* the search stopped above *)
    exists (Nat.max N0 N). intros fuel Hf. rewrite (Hstep fuel Hf). cbn [mbind option_bind]. rewrite Ek. eapply collects_after; [exact S|]. apply collects_none; [done|].
    destruct (G2 !! (p ++ k)) as [gs|] eqn:E; [|done]. exfalso. destruct (Hway gs (take 8 k) (drop 8 k)) as (e & He & Hs); [by rewrite take_drop|rewrite length_take; lia|done|].
    assert (Re : erank e = krank k).
    { rewrite <- (layer_slice_rank e (take 8 k) (drop 8 k) Hs); [by rewrite take_drop|]. intros E0. apply (f_equal List.length) in E0. rewrite length_drop in E0. cbn in E0. lia. }
    destruct (Z.leb_spec 0 (kx_p kx)) as [Hp|Hp].
    + pose proof (lc_here _ _ _ _ _ _ Loc) as Hh. rewrite (proj2 (Z.leb_le _ _) Hp) in Hh. destruct Hh as (Hsz & _ & Hr & k0 & Hk0 & _).
      pose proof (lc_i _ _ _ _ _ _ Loc). apply (layer_not_key e _ k0 Hs). replace e with (nth_entry l (kx_i kx)); [done|].
      apply (layer_rank_inj _ _ _ _ _ _ _ (inv_layer _ _ _ _ _ _ I2 _ _ Hg)); [by apply (nth_in _ _ _ _ _ _ _ _ _ A); lia|done|congruence].
    + revert Re. eapply located_absent; [exact A|exact Loc|done|by eapply key_view_ikey|done].
  - assert (L8 : List.length k = 8%nat).
    { destruct (decide (List.length k = 0%nat)) as [Hz|Hz].
      - destruct k; [|done]. destruct p; [cbn in Hlen; lia|]. by destruct Hne.
      - apply Nat2Z.inj. rewrite <- Hlen, Hpm in Hl8. rewrite Nat2Z.inj_add, Nat2Z.inj_mul, Z.mul_comm, Z.add_comm, Z.mod_add in Hl8 by lia.
        apply Z.mod_divide in Hl8 as [x Hx]; lia. }
    assert (Eik' : ikey ka = be_value k) by (unfold ikey; rewrite Eik, pad_take by lia; by rewrite take_ge by lia).
    destruct (gc_entry t2 p g C n l kx state ka k A Loc Eik' L8 Bk) as (Hiff & Hi0 & Hget). cbv zeta in Hstep.
    destruct ((lsize l <=? gc_index kx) || negb (ikey0 (nth_entry l (gc_index kx)) =? ikey ka) || negb (is_layer (nth_entry l (gc_index kx)))) eqn:Ec.
    + exists (Nat.max N0 N). intros fuel Hf. rewrite (Hstep fuel Hf). cbn [mbind option_bind]. rewrite Ek. eapply collects_after; [exact S|]. apply collects_none; [done|].
      destruct (G2 !! (p ++ k)) as [gs|] eqn:E; [|done]. exfalso. destruct (Hway gs k []) as (e & He); [by rewrite app_nil_r|done|done|].
      destruct (proj2 Hiff (ex_intro _ e He)) as (H1 & H2 & H3). rewrite H3, H2, Z.eqb_refl in Ec. apply Z.leb_gt in H1. by rewrite H1 in Ec.
    + apply orb_false_iff in Ec as [[Ec1 Ec2]%orb_false_iff Ec3]. apply Z.leb_gt in Ec1. apply negb_false_iff, Z.eqb_eq in Ec2. apply negb_false_iff in Ec3.
      destruct (collects_found t2 root1 G2 p g C n l (gc_index kx) k root1 (mem_bytes mem (prefix_string ka).1 (prefix_string ka).2) I2 Hg Hfr A) as [N' HN']; [lia|by apply Hget|].
      exists (Nat.max N' (Nat.max N0 N)). intros fuel Hf. rewrite Hstep by lia. rewrite Ek. eapply collects_after; [exact S|].
      specialize (HN' fuel ltac:(lia)). destruct (gc_loop fuel n (elem (permutation_ l) (gc_index kx)) t2) as [[[t3 gone] freed]|]; exact HN'.
Qed.

(** [C5]. The callback for an empty layer, in a tree of any number of layers and levels, with
    the prefix of any layer and a root from which the parents lead to the root of the tree,
    returns given enough fuel.  The tree is well formed and stands for the same map; when the
    layer of the prefix had no entry and its nodes one child each, it is gone, with its entry
    in the layer above, and with the leaf and the nodes above it that this left empty.  What
    is registered to be freed is not part of the new tree and is registered once. *)
Theorem gc_callback_correct t root m r0 s len : stands_for lw iw mk t root m -> 0 < len -> len mod 8 = 0 ->
  (exists N, forall fuel, (N <= fuel)%nat -> true_root t fuel r0 = Some (fix_root root t)) ->
  exists N, forall fuel, (N <= fuel)%nat -> exists t' gs G,
    gc_callback bnd unaligned lw mem fuel r0 s len t = Some (t', gs) /\
    inv t' (fix_root root t) G /\ (forall k v, m !! k = Some v <-> bound G k v) /\
    (forall g, G !! mem_bytes mem s len = Some g -> bare (gshape g) = false) /\
    NoDup (garbage_nodes gs) /\ (forall b, b ∈ garbage_nodes gs -> ~ held G b) /\ forall b, fresh t b -> fresh t' b.
Proof.
  intros (G & I & HG) Hl Hl8 Hr. destruct (gc_layers t root G r0 s len I Hl Hl8 Hr) as [N HN]. exists N. intros fuel Hf.
  destruct (HN fuel Hf) as (t' & gs & G' & E & I' & HB & Hn & Hgr & Hnd & Hgs). exists t', gs, G'. split_and!; try done.
  - intros k v. by rewrite HG, HB.
  - intros b Hb. by apply Hgs.
  - intros b Hb. eapply (grown_fresh lw iw mk t); [exact I|exact Hgr|done|apply not_elem_of_nil].
Qed.
End Gc.
