(* ===== verification/TreeDestroy.v ===== *)
(** The destruction of a tree: proofs.

    When no slot names a root that has a root above it, the queue meets every node of every
    layer once. *)
From Stdlib Require Import Sorted.
From S2P Require Import Prelude StringSlice Permuter KSearch Internode LeafSplit MassKey Tree TreeShape TreeMap TreeLeaves TreeOps TreeRemove TreeInsert TreeLayer TreeGrow TreePut TreeDelete.

(** The nodes that the queue meets from a node on. *)
Inductive covers (t : tree) : Z -> list Z -> Prop :=
| covers_node n cs ls : enqueued t n = Some cs -> Forall2 (covers t) cs ls -> covers t n (n :: concat ls).

Lemma destroy_loop_ok t fuel : forall ns ls, Forall2 (covers t) ns ls -> (List.length (concat ls) <= fuel)%nat ->
  exists gs, destroy_loop fuel ns t = Some (Node <$> gs) /\ gs ≡ₚ concat ls.
Proof.
  induction fuel as [|fuel IH]; intros ns ls H Hf.
  - exists []. destruct H as [|n l ns ls [n' cs ls' _ _] _]; [done|]. cbn in Hf. lia.
  - destruct H as [|n l ns ls [n' cs ls' He Hc] H]; [by exists []|]. cbn [concat] in *. cbn in Hf.
    destruct (IH (ns ++ cs) (ls ++ ls')) as (gs & E & Ep).
    { by apply Forall2_app. } { rewrite concat_app. rewrite !length_app in *. lia. }
    exists (n' :: gs). cbn [destroy_loop]. rewrite He. cbn [mbind option_bind]. rewrite E. split; [done|].
    rewrite Ep, concat_app. solve_Permutation.
Qed.
(** The lists of several nodes whose nodes are apart. *)
Lemma covers_list {A} (t : tree) (f : A -> Z) (D : A -> Z -> Prop) (L : list A) :
  (forall x, x ∈ L -> exists l, covers t (f x) l /\ NoDup l /\ forall b, b ∈ l <-> D x b) ->
  (forall i j x y b, L !! i = Some x -> L !! j = Some y -> i <> j -> D x b -> ~ D y b) ->
  exists ls, Forall2 (covers t) (f <$> L) ls /\ NoDup (concat ls) /\ forall b, b ∈ concat ls <-> exists x, x ∈ L /\ D x b.
Proof.
  induction L as [|x L IH]; intros HL HD.
  - exists []. split_and!; [constructor|constructor|]. intros b. split; [by intros ?%elem_of_nil|]. by intros (y & ?%elem_of_nil & _).
  - destruct (HL x ltac:(left)) as (l & Hl & Hnd & Hb). destruct IH as (ls & Hls & Hnds & Hbs).
    { intros y Hy. apply HL. by right. } { intros i j y z b Hi Hj Hij. apply (HD (S i) (S j)); [done..|lia]. }
    exists (l :: ls). split_and!; [by constructor| |].
    + cbn. apply list.NoDup_app. split_and!; [done| |done]. intros b Hbl%Hb Hbs'%Hbs. destruct Hbs' as (y & Hy & HDy).
      apply list_elem_of_lookup in Hy as [j Hj]. by apply (HD 0%nat (S j) x y b).
    + intros b. cbn. rewrite elem_of_app, Hb, Hbs. setoid_rewrite elem_of_cons. split; [intros [?|(y & ? & ?)]; eauto|intros (y & [->|?] & ?); eauto].
Qed.

Section Destroy.
Context (lw iw mk : Z) (t : tree) (root : Z) (G : gmap (list Z) glayer) (I : inv lw iw mk t root G).
(** No pointer to a layer is stale. *)
Context (Hfresh : forall p g, G !! p = Some g -> p <> [] -> gptr g = addr (gshape g)).

(** The nodes of the layers at a path and below. *)
Definition under (p : list Z) (b : Z) : Prop := exists q g, G !! (p ++ q) = Some g /\ b ∈ addrs (gshape g).
Definition beneath (p : list Z) (es : list entry) (b : Z) : Prop := exists e s, e ∈ es /\ layer_slice e s /\ under (p ++ s) b.

Lemma under_apart p s s' b : List.length s = 8%nat -> List.length s' = 8%nat -> under (p ++ s) b -> under (p ++ s') b -> s = s'.
Proof.
  intros Ls Ls' (q & g & Hg & Hb) (q' & g' & Hg' & Hb'). destruct (decide (p ++ s ++ q = p ++ s' ++ q')) as [E|N].
  - apply app_inv_head in E. apply app_inj_1 in E as [? _]; [done|congruence].
  - rewrite <- !app_assoc in *. by destruct (inv_disj _ _ _ _ _ _ I _ _ _ _ _ Hg Hg' N Hb).
Qed.
Lemma under_below p g s b : G !! p = Some g -> List.length s = 8%nat -> b ∈ addrs (gshape g) -> ~ under (p ++ s) b.
Proof.
  intros Hg Ls Hb (q & g' & Hg' & Hb'). rewrite <- app_assoc in Hg'. apply (inv_disj _ _ _ _ _ _ I p (p ++ s ++ q) g g' b Hg Hg'); [|done..].
  intros E. symmetry in E. revert E. apply app_not_self. by destruct s.
Qed.
Lemma slice_len e s : layer_slice e s -> List.length s = 8%nat.
Proof. by intros (_ & ? & _). Qed.

(** The entries of a leaf that are layers, and the children of an interior node. *)
Lemma enqueued_leaf n lo es : leaf_at lw t n lo es -> enqueued t n = Some (lv <$> filter (fun e => is_layer e = true) es).
Proof.
  intros (l & Hl & _ & _ & <-). unfold enqueued. rewrite Hl. f_equal. unfold entries, arr.
  generalize (seqZ 0 (lsize l)). intros js. induction js as [|i js IH]; [done|]. cbn [fmap list_fmap]. rewrite !list.filter_cons.
  destruct (decide (is_layer (nth_entry l i) = true)); cbn; by rewrite IH.
Qed.
Lemma enqueued_inode n h ks cs : inode_at iw t n ks (hkids h ++ (addr <$> cs)) -> (forall c, c ∈ cs -> addr c <> 0) -> enqueued t n = Some (addr <$> cs).
Proof.
  intros (Hn & _ & x & Hx & _ & _ & Ec) H0. unfold enqueued. rewrite Hn, Hx. cbn [mbind option_bind]. rewrite Ec. f_equal.
  assert (Hcs : filter (fun c => c <> 0) (addr <$> cs) = addr <$> cs).
  { clear -H0. induction cs as [|c cs IH]; [done|]. rewrite fmap_cons, list.filter_cons, decide_True by (apply H0; left).
    rewrite IH; [done|intros d Hd; apply H0; by right]. }
  destruct h; [|done]. cbn [hkids app]. rewrite list.filter_cons, decide_False by (intros H; by apply H). exact Hcs.
Qed.
Lemma flat_map_lookup_apart {A B} (f : A -> list B) l i j x y b : NoDup (flat_map f l) -> l !! i = Some x -> l !! j = Some y -> i <> j -> b ∈ f x -> b ∉ f y.
Proof.
  revert i j. induction l as [|z l IH]; intros i j Hnd Hi Hj Hij Hx Hy; [done|]. cbn in Hnd. apply list.NoDup_app in Hnd as (_ & Hd & Hnd).
  assert (Hin : forall w k, l !! k = Some w -> b ∈ f w -> b ∈ flat_map f l).
  { intros w k Hk Hb. apply elem_of_flat_map. exists w. split; [by eapply list_elem_of_lookup_2|done]. }
  destruct i as [|i], j as [|j]; cbn in Hi, Hj; simplify_eq; [by apply (Hd b Hx), (Hin y j)|by apply (Hd b Hy), (Hin x i)|].
  apply (IH i j); auto.
Qed.
Lemma items_node n h ks cs : List.length cs = S (List.length ks) -> items (SNode n h ks cs) = flat_map items cs.
Proof.
  intros H. unfold items at 1. cbn [flat]. rewrite ents_lead, ents_weave by by rewrite length_map. induction cs as [|c cs IH] in ks, H |- *; [done|].
  cbn. f_equal. clear. induction cs as [|c cs IH]; [done|]. cbn. by f_equal.
Qed.

(** One layer, when the layers below are covered. *)
Section Layer.
Context (p : list Z) (g : glayer) (Hg : G !! p = Some g).
Context (Hsub : forall e s, e ∈ items (gshape g) -> layer_slice e s -> exists l, covers t (lv e) l /\ NoDup l /\ forall b, b ∈ l <-> under (p ++ s) b).

Lemma beneath_apart c d b : (forall e, e ∈ items c -> e ∈ items (gshape g)) -> (forall e, e ∈ items d -> e ∈ items (gshape g)) ->
  (forall e, e ∈ items c -> e ∉ items d) -> beneath p (items c) b -> ~ beneath p (items d) b.
Proof.
  intros Hc Hd Hcd (e & s & He & Hs & Hu) (e' & s' & He' & Hs' & Hu'). assert (s = s') as <- by (eapply under_apart; eauto using slice_len).
  assert (e = e') as <-; [|by apply (Hcd e)]. apply (layer_rank_inj lw iw t p g); [by apply (inv_layer _ _ _ _ _ _ I)|auto..|].
  by rewrite <- (layer_slice_rank e s [0]), <- (layer_slice_rank e' s [0]).
Qed.
Lemma shape_covered c : forall top, rep lw iw t top c -> (forall a, a ∈ addrs c -> a <> 0) -> (forall a, a ∈ addrs c -> a ∈ addrs (gshape g)) -> NoDup (addrs c) ->
  (forall e, e ∈ items c -> e ∈ items (gshape g)) -> NoDup (items c) ->
  exists l, covers t (addr c) l /\ NoDup l /\ forall b, b ∈ l <-> b ∈ addrs c \/ beneath p (items c) b.
Proof.
  pose proof (inv_layer _ _ _ _ _ _ I _ _ Hg) as L.
  assert (Hbelow : forall b es, b ∈ addrs (gshape g) -> ~ beneath p es b) by (intros b es Hb (e & s & _ & Hs & Hu); by apply (under_below p g s b Hg (slice_len e s Hs) Hb)).
  induction c as [n lo es|n h ks cs IH] using shape_ind'; intros top Hr H0 Ha Hnd Hit Hnd'.
  - destruct Hr as [Hl _]. assert (Ei : items (SLeaf n lo es) = es) by (unfold items; cbn [flat]; change (ents (Lo lo :: ?x)) with (ents x); apply ents_E).
    rewrite Ei in *. set (L' := filter (fun e => is_layer e = true) es).
    assert (HL' : forall e, e ∈ L' -> e ∈ items (gshape g) /\ exists s, layer_slice e s).
    { intros e [Hlay He]%list_elem_of_filter. split; [by apply Hit|]. unfold is_layer in Hlay. apply Z.ltb_lt in Hlay.
      destruct (lo_items _ _ _ _ _ L e (Hit e He)) as [[k Hk]|?]; [|done]. destruct (entry_key_rank _ _ Hk) as (_ & _ & Hlt & _). unfold layer_keylenx in Hlt. lia. }
    destruct (covers_list t lv (fun e b => exists s, layer_slice e s /\ under (p ++ s) b) L') as (ls & Hls & Hn & Hb).
    + intros e He. destruct (HL' e He) as [Hin [s Hs]]. destruct (Hsub e s Hin Hs) as (l & ? & ? & Hb). exists l. split_and!; try done.
      intros b. rewrite Hb. split; [by exists s|]. intros (s' & Hs' & ?). by rewrite (layer_slice_inj _ _ _ Hs Hs').
    + intros i j e e' b Hi Hj Hij (s & Hs & Hu) (s' & Hs' & Hu'). assert (s = s') as <- by (eapply under_apart; eauto using slice_len).
      apply Hij. assert (HnL : NoDup L') by by apply list.NoDup_filter. eapply NoDup_lookup; [exact HnL|exact Hi|].
      replace e with e'; [done|]. apply (layer_rank_inj lw iw t p g _ _ L); [apply HL'; by eapply list_elem_of_lookup_2..|].
      by rewrite <- (layer_slice_rank e s [0]), <- (layer_slice_rank e' s [0]).
    + assert (Hmem : forall b, b ∈ concat ls <-> beneath p es b).
      { intros b. rewrite Hb. split.
        - intros (e & [_ He]%list_elem_of_filter & s & Hs & Hu). by exists e, s.
        - intros (e & s & He & Hs & Hu). exists e. split; [|by exists s]. apply list_elem_of_filter. split; [|done]. destruct Hs as (Ek & _). unfold is_layer. by rewrite Ek. }
      exists (n :: concat ls). cbn [addr addrs]. split_and!.
      * econstructor; [by apply (enqueued_leaf n lo es)|exact Hls].
      * apply list.NoDup_cons. split; [|done]. rewrite Hmem. apply Hbelow, Ha. left.
      * intros b. rewrite elem_of_cons, Hmem, list_elem_of_singleton. done.
  - pose proof (rep_kids lw iw t top n h ks cs Hr) as Hlen. apply rep_SNode in Hr as (Hi & _ & F). rewrite (items_node n h ks cs Hlen) in *.
    cbn [addrs] in *. apply list.NoDup_cons in Hnd as [Hnn Hnd].
    assert (Hina : forall c b, c ∈ cs -> b ∈ addrs c -> b ∈ flat_map addrs cs) by (intros c b Hc Hb; apply elem_of_flat_map; by exists c).
    assert (Hini : forall c e, c ∈ cs -> e ∈ items c -> e ∈ flat_map items cs) by (intros c e Hc He; apply elem_of_flat_map; by exists c).
    destruct (covers_list t addr (fun c b => b ∈ addrs c \/ beneath p (items c) b) cs) as (ls & Hls & Hn & Hb).
    + intros c Hc. rewrite Forall_forall in IH, F. assert (Hc' : In c cs) by by apply list_elem_of_In. destruct (F c Hc') as (_ & _ & Hrc).
      apply (IH c Hc' false Hrc).
      * intros a Hac. apply H0. right. by apply (Hina c).
      * intros a Hac. apply Ha. right. by apply (Hina c).
      * apply list_elem_of_In, list_elem_of_In in Hc'. clear -Hc Hnd. induction cs as [|d cs IH]; [by apply elem_of_nil in Hc|]. cbn in Hnd.
        apply list.NoDup_app in Hnd as (H1 & _ & H2). apply elem_of_cons in Hc as [->|Hc]; auto.
      * intros e He. apply Hit. by apply (Hini c).
      * clear -Hc Hnd'. induction cs as [|d cs IH]; [by apply elem_of_nil in Hc|]. cbn in Hnd'.
        apply list.NoDup_app in Hnd' as (H1 & _ & H2). apply elem_of_cons in Hc as [->|Hc]; auto.
    + intros i j c d b Hci Hdj Hij Hc Hd. pose proof (list_elem_of_lookup_2 _ _ _ Hci) as Hc'. pose proof (list_elem_of_lookup_2 _ _ _ Hdj) as Hd'.
      assert (Hag : forall x a, x ∈ cs -> a ∈ addrs x -> a ∈ addrs (gshape g)) by (intros x a Hx Hax; apply Ha; right; by apply (Hina x)).
      destruct Hc as [Hc|Hc], Hd as [Hd|Hd].
      * by apply (flat_map_lookup_apart addrs cs i j c d b Hnd).
      * by apply (Hbelow b (items d)); [by apply (Hag c)|].
      * by apply (Hbelow b (items c)); [by apply (Hag d)|].
      * apply (beneath_apart c d b); try done; [by intros e He; apply Hit, (Hini c)|by intros e He; apply Hit, (Hini d)|].
        intros e. by apply (flat_map_lookup_apart items cs i j c d e Hnd').
    + exists (n :: concat ls). cbn [addr]. split_and!.
      * econstructor; [apply (enqueued_inode n h _ cs Hi)|exact Hls]. intros c Hc. apply H0. right. apply (Hina c); [done|apply addr_in].
      * apply list.NoDup_cons. split; [|done]. rewrite Hb. intros (c & Hc & [Hac|Hbe]); [by apply Hnn, (Hina c)|]. apply (Hbelow n (items c)); [apply Ha; left|done].
      * intros b. rewrite !elem_of_cons, Hb, elem_of_flat_map. split.
        -- intros [->|(c & Hc & [?|(e & s & He & Hs & Hu)])]; [by left; left|left; right; by exists c|right; exists e, s; split; [by apply (Hini c)|done]].
        -- intros [[->|(c & Hc & Hb')]|(e & s & (c & Hc & He)%elem_of_flat_map & Hs & Hu)]; [by left|right; exists c; by eauto|].
           right. exists c. split; [done|]. right. by exists e, s.
Qed.
End Layer.

Lemma layer_covered n : forall p g, Z.to_nat (mk - Z.of_nat (List.length p)) = n -> G !! p = Some g -> exists l, covers t (addr (gshape g)) l /\ NoDup l /\ forall b, b ∈ l <-> under p b.
Proof.
  induction n as [n IH] using lt_wf_ind. intros p g Hn Hg. pose proof (inv_layer _ _ _ _ _ _ I _ _ Hg) as L.
  destruct (shape_covered p g Hg) with (c := gshape g) (top := true) as (l & Hl & Hnd & Hb); try done; try apply L.
  - intros e s He Hs. destruct (inv_sub _ _ _ _ _ _ I _ _ _ _ Hg He Hs) as (gs & Hgs & Ep). pose proof (inv_short _ _ _ _ _ _ I _ _ Hgs) as Hshort.
    pose proof (slice_len e s Hs) as Ls. assert (Hne : p ++ s <> []) by (destruct p; [by destruct s|done]). rewrite (Hfresh _ _ Hgs Hne) in Ep. rewrite <- Ep.
    apply (IH (Z.to_nat (mk - Z.of_nat (List.length (p ++ s))))); [|done|done]. rewrite length_app in *. lia.
  - assert (HS : StronglySorted entry_lt (items (gshape g))) by apply ents_sorted, L. clear -HS. induction HS as [|e es HS IH F]; constructor; [|done].
    intros He. rewrite Forall_forall in F. apply list_elem_of_In, F in He. by apply rank_lt_irrefl in He.
  - exists l. split_and!; try done. intros b. rewrite Hb. split.
    + intros [?|(e & s & _ & _ & q & g' & Hg' & ?)]; [exists [], g; by rewrite app_nil_r|]. exists (s ++ q), g'. by rewrite app_assoc.
    + intros (q & g' & Hg' & Hb'). destruct (decide (q = [])) as [->|Hq]; [rewrite app_nil_r in Hg'; left; congruence|right].
      destruct (lo_length _ _ _ _ _ L) as [m Hm], (lo_length _ _ _ _ _ (inv_layer _ _ _ _ _ _ I _ _ Hg')) as [m' Hm']. rewrite length_app in Hm'.
      assert (8 <= List.length q)%nat by (destruct q; [done|cbn in *; lia]). rewrite <- (take_drop 8 q) in Hg'.
      destruct (layer_way lw iw mk t root G p (take 8 q) (drop 8 q) g' I Hg') as (g0 & e & Hg0 & He & Hs); [rewrite length_take; lia|by exists m|].
      exists e, (take 8 q). assert (g0 = g) as -> by congruence. split_and!; [done..|]. exists (drop 8 q), g'. split; [|done]. by rewrite <- app_assoc.
Qed.

Lemma destroy_held : exists N, forall fuel, (N <= fuel)%nat -> exists gs, destroy fuel root t = Some (Node <$> gs) /\ NoDup gs /\ forall b, b ∈ gs <-> held G b.
Proof.
  destruct (inv_root _ _ _ _ _ _ I) as (g & Hg & Er). pose proof (inv_layer _ _ _ _ _ _ I _ _ Hg) as L.
  destruct (true_root_climb t (gptr g) (addr (gshape g))) as [N HN]; [eapply climb_to_root; apply L|apply (rep_top lw iw), L|].
  destruct (layer_covered _ [] g eq_refl Hg) as (l & Hl & Hnd & Hb). exists (Nat.max N (List.length l)). intros fuel Hf.
  destruct (destroy_loop_ok t fuel [addr (gshape g)] [l]) as (gs & E & Ep); [by repeat constructor|cbn; rewrite app_nil_r; lia|].
  cbn in Ep. rewrite app_nil_r in Ep. exists gs. split_and!.
  - unfold destroy. rewrite <- Er, HN by lia. exact E.
  - by rewrite Ep.
  - intros b. rewrite Ep, Hb. split; [intros (q & g' & Hg' & ?); by exists q, g'|intros (q & g' & Hg' & ?); by exists q, g'].
Qed.
End Destroy.

(** Every slot that is a layer names its root. *)
Definition roots_known (t : tree) : Prop :=
  map_Forall (fun _ l => Forall (fun e => is_layer e = true -> is_root t (lv e) = true) (entries l)) (leaves t).
#[export] Instance roots_known_decision t : Decision (roots_known t).
Proof. unfold roots_known. apply _. Defined.
Lemma known_fresh lw iw mk t root G : inv lw iw mk t root G -> roots_known t -> forall p g, G !! p = Some g -> p <> [] -> gptr g = addr (gshape g).
Proof.
  intros I Hk p g Hg Hp. destruct (inv_up _ _ _ _ _ _ I _ _ Hg) as [?|(q & s & gq & e & -> & Hq & He & Hs)]; [done|].
  destruct (inv_sub _ _ _ _ _ _ I _ _ _ _ Hq He Hs) as (g' & Hg' & Ep). assert (g' = g) as -> by congruence.
  pose proof (lo_rep _ _ _ _ _ (inv_layer _ _ _ _ _ _ I _ _ Hq)) as HR. rewrite (rep_items lw iw t true (gshape gq) HR) in He.
  apply list_elem_of_In, in_flat_map in He as ([n es] & Hin & Hes). apply list_elem_of_In in Hin.
  destruct (rep_leaf_list lw iw t true (gshape gq) n es HR Hin) as (l & Hl & _ & <- & _). specialize (Hk n l Hl). cbn in Hk.
  rewrite Forall_forall in Hk. specialize (Hk e Hes). destruct (layer_repoint lw iw t _ g (inv_layer _ _ _ _ _ _ I _ _ Hg)) as [_ Hr].
  rewrite Ep, Hk in Hr; [by rewrite <- Hr|]. destruct Hs as (Ek & _). unfold is_layer. by rewrite Ek.
Qed.

(** [C18]. The destruction of a well-formed tree in which every slot with a layer names the
    layer's root frees every node of every layer, each once, and nothing else. *)
Theorem destroy_correct lw iw mk t root m : stands_for lw iw mk t root m -> roots_known t ->
  exists G, inv lw iw mk t root G /\ (forall k v, m !! k = Some v <-> bound G k v) /\
  exists N, forall fuel, (N <= fuel)%nat -> exists gs, destroy fuel root t = Some (Node <$> gs) /\ NoDup gs /\ forall b, b ∈ gs <-> held G b.
Proof.
  intros (G & I & HG) Hk. exists G. split_and!; [done..|]. exact (destroy_held lw iw mk t root G I (known_fresh lw iw mk t root G I Hk)).
Qed.
