(* ===== verification/TreeTable.v ===== *)
(** The table as a finite map: sequences of requests. *)
From Stdlib Require Import Sorted.
From S2P Require Import Prelude StringSlice Permuter KSearch Internode LeafSplit MassKey Tree TreeShape TreeMap TreeOps TreeRemove TreeScan TreeListing TreeForward TreeMono TreeLayer TreeGrow TreeTwig TreePut TreePrune TreeDelete TreeGc TreeDestroy.

(** A request names its key by the memory it is in, its address and its length. *)
Inductive request := Get (mem : Z -> Z) (s len : Z) | Put (mem : Z -> Z) (s len v : Z) | Remove (mem : Z -> Z) (s len : Z) | Scan (mem : Z -> Z) (s len n : Z) | Reclaim.
Inductive answer := Value (v : option Z) | Was (found : bool) | Rows (l : list (list Z * Z)) | Done.
Definition request_ok (mk : Z) (r : request) : Prop :=
  match r with
  | Get mem s len | Remove mem s len => (forall a, byte_ok (mem a)) /\ 0 <= len
  | Put mem s len _ => (forall a, byte_ok (mem a)) /\ 0 <= len <= mk
  | Scan mem s len n => (forall a, byte_ok (mem a)) /\ 0 <= len <= mk /\ 0 < n
  | Reclaim => True
  end.

(** The specification: requests to a map.  A scan gets the first rows, in the order of the
    keys and from a key on, that are not markers. *)
Section Map.
Context (marker : Z -> bool).
Definition map_step (m : gmap (list Z) Z) (r : request) : answer * gmap (list Z) Z :=
  match r with
  | Get mem s len => (Value (m !! mem_bytes mem s len), m)
  | Put mem s len v => (Was (bool_decide (is_Some (m !! mem_bytes mem s len))), <[mem_bytes mem s len := v]> m)
  | Remove mem s len => (Was (bool_decide (is_Some (m !! mem_bytes mem s len))), delete (mem_bytes mem s len) m)
  | Scan mem s len n => (Rows (take (Z.to_nat n) (filter (fun b => marker b.2 = false) (from (mem_bytes mem s len) true (in_order m)))), m)
  | Reclaim => (Done, m)
  end.
Definition map_after (m : gmap (list Z) Z) (rs : list request) : gmap (list Z) Z := foldl (fun m r => (map_step m r).2) m rs.
Fixpoint map_run (m : gmap (list Z) Z) (rs : list request) : list answer :=
  match rs with
  | [] => []
  | r :: rs => let '(a, m) := map_step m r in a :: map_run m rs
  end.
End Map.

Section Table.
Context (bnd : key_bound_type) (unaligned : bool) (lw iw mk keybuf : Z) (us : Z -> entry) (un : internode) (marker : Z -> bool).

(** The nodes that the read-copy-update frees: their memory is free for new nodes. *)
Definition free_nodes (l : list Z) (t : tree) : tree :=
  {| leaves := foldr delete (leaves t) l; inodes := foldr delete (inodes t) l; parents := parents t; is_root := is_root t; heights := heights t |}.
(** The table: its tree, its root pointer, the free addresses and what is to be freed. *)
Record table := { tree_ : tree; root_ : Z; pool_ : list Z; limbo_ : list garbage }.
Definition table_step (fuel : nat) (T : table) (r : request) : option (answer * table) :=
  match r with
  | Get mem s len => v ← get_value bnd unaligned mem (tree_ T) fuel (root_ T) s len; Some (Value v, T)
  | Put mem s len v =>
      '(t, pool, root, found) ← put bnd unaligned lw iw mem us un fuel (root_ T) s len v (tree_ T) (pool_ T);
      Some (Was found, {| tree_ := t; root_ := root; pool_ := pool; limbo_ := limbo_ T |})
  | Remove mem s len =>
      '(t, root, found, gs) ← remove_key bnd unaligned lw mem fuel (root_ T) s len (tree_ T);
      Some (Was found, {| tree_ := t; root_ := root; pool_ := pool_ T; limbo_ := gs ++ limbo_ T |})
  | Scan mem s len n => l ← run_scan marker bnd unaligned mk keybuf (tree_ T) fuel (root_ T) mem s len n; Some (Rows l, T)
  | Reclaim =>
      let l := garbage_nodes (limbo_ T) in
      Some (Done, {| tree_ := free_nodes l (tree_ T); root_ := root_ T; pool_ := l ++ pool_ T; limbo_ := [] |})
  end.
Fixpoint table_run (fuel : nat) (T : table) (rs : list request) : option (list answer) :=
  match rs with
  | [] => Some []
  | r :: rs =>
      '(a, T) ← table_step fuel T r;
      l ← table_run fuel T rs;
      Some (a :: l)
  end.

(** The table after the requests. *)
Fixpoint table_after (fuel : nat) (T : table) (rs : list request) : option table :=
  match rs with
  | [] => Some T
  | r :: rs => '(_, T) ← table_step fuel T r; table_after fuel T rs
  end.

Definition more (T : table) (x : list Z) : table := {| tree_ := tree_ T; root_ := root_ T; pool_ := pool_ T ++ x; limbo_ := limbo_ T |}.
Lemma table_step_mono f f' T x r a T' : table_step f T r = Some (a, T') -> (f <= f')%nat -> table_step f' (more T x) r = Some (a, more T' x).
Proof.
  intros H Hf. destruct r as [mem s len|mem s len v|mem s len|mem s len n|]; cbn [table_step tree_ root_ pool_ limbo_ more] in *; [bind_some H..|].
  - rewrite (get_value_mono _ _ _ _ _ _ _ _ _ _ E Hf). cbn. by injection H as <- <-.
  - destruct x0 as [[[t1 pool1] root1] found]. rewrite (put_mono _ _ _ _ _ _ _ _ _ _ _ _ _ _ _ x _ _ _ _ E Hf). cbn. by injection H as <- <-.
  - rewrite (remove_key_mono _ _ _ _ _ _ _ _ _ _ _ E Hf). cbn [mbind option_bind]. destruct x0 as [[[t1 root1] found] gs]. by injection H as <- <-.
  - rewrite (run_scan_mono _ _ _ _ _ _ _ _ _ _ _ _ _ _ E Hf). cbn. by injection H as <- <-.
  - injection H as <- <-. unfold more. cbn. by rewrite <- app_assoc.
Qed.
Lemma table_run_mono f f' rs : forall T x l, table_run f T rs = Some l -> (f <= f')%nat -> table_run f' (more T x) rs = Some l.
Proof.
  induction rs as [|r rs IH]; intros T x l H Hf; [done|]. cbn [table_run] in *. bind_some H. destruct x0 as [a T1].
  rewrite (table_step_mono _ _ _ x _ _ _ E Hf). cbn [mbind option_bind]. bind_some H. by rewrite (IH _ x _ E0 Hf).
Qed.

Context (Hlw : 11 <= lw <= 15) (Hiw : 1 <= iw).
Abbreviation request_ok := (request_ok mk).

(** A table that stands for a map: no node of the tree is free or garbage. *)
Record table_ok (T : table) (m : gmap (list Z) Z) : Prop := {
  tb_tree : stands_without lw iw mk (tree_ T) (root_ T) m (garbage_nodes (limbo_ T));
  tb_nodup : NoDup (pool_ T ++ garbage_nodes (limbo_ T));
  tb_fresh : Forall (fresh (tree_ T)) (pool_ T);
  tb_short : forall k v, m !! k = Some v -> Z.of_nat (List.length k) <= mk
}.
Lemma lookup_free {A} (m : gmap Z A) l b : foldr delete m l !! b = if decide (b ∈ l) then None else m !! b.
Proof.
  induction l as [|a l IH]; cbn; [by rewrite decide_False by apply not_elem_of_nil|].
  destruct (decide (b = a)) as [->|Hb]; [rewrite lookup_delete_eq, decide_True by left; done|].
  rewrite lookup_delete_ne, IH by done. destruct (decide (b ∈ l)) as [Hl|Hl]; [by rewrite decide_True by by right|].
  rewrite decide_False; [done|]. rewrite not_elem_of_cons. done.
Qed.
Lemma reclaim_ok T m : table_ok T m -> table_ok {| tree_ := free_nodes (garbage_nodes (limbo_ T)) (tree_ T); root_ := root_ T;
    pool_ := garbage_nodes (limbo_ T) ++ pool_ T; limbo_ := [] |} m.
Proof.
  intros [(G & I & HG & Hout) Hnd Hfr Hsh]. set (l := garbage_nodes (limbo_ T)) in *. split; cbn [tree_ root_ pool_ limbo_].
  - exists G. split_and!; [|done|by intros b Hb; apply elem_of_nil in Hb]. destruct I as [I1 I2 I3 I4 I5 I6]. split; try done.
    intros p g Hg. apply (layer_frame lw iw (tree_ T)); [|by apply I2]. intros b Hb.
    assert (Hl : b ∉ l) by (intros Hl; apply (Hout b Hl); by exists p, g). split; [|done]. unfold same_node. cbn.
    by rewrite !lookup_free, !decide_False.
  - cbn. rewrite app_nil_r. by rewrite Permutation_app_comm.
  - apply Forall_app. split; apply Forall_forall; intros b Hb%list_elem_of_In.
    + split; [by apply Hout|]. cbn. by rewrite !lookup_free, !decide_True.
    + rewrite Forall_forall in Hfr. apply list_elem_of_In, Hfr in Hb as (H0 & H1 & H2). split; [done|]. cbn. rewrite !lookup_free, H1, H2.
      by destruct (decide _).
  - exact Hsh.
Qed.

(** A request, with enough fuel and addresses. *)
Lemma step_total T m r : table_ok T m -> request_ok r ->
  exists N, forall fuel x, (N <= fuel)%nat -> (N <= List.length (pool_ T ++ x))%nat -> table_ok (more T x) m ->
  exists T', table_step fuel (more T x) r = Some ((map_step marker m r).1, T') /\ table_ok T' (map_step marker m r).2.
Proof.
  intros [Hs _ _ Hsh]. destruct r as [mem s len|mem s len v|mem s len|mem s len n|]; intros Hr; cbn [map_step table_step tree_ root_ pool_ limbo_ more fst snd].
  - destruct Hr as [Hm Hl]. destruct Hs as (G & I & HG & _). destruct (get_layers lw iw mk bnd unaligned mem (tree_ T) (root_ T) G s len Hm Hl I) as (N & a & HN & Ha).
    exists N. intros fuel x Hf _ Hok. rewrite HN, (lookup_bound G m _ a HG Ha) by done. by exists (more T x).
  - destruct Hr as [Hm Hl]. destruct (put_stands bnd unaligned lw iw mk mem us un Hlw Hiw Hm _ _ m _ s len v Hs Hl) as (N & root' & H). exists N.
    intros fuel x Hf Hp [_ Hnd Hfr _]. destruct (H fuel (pool_ T ++ x) Hf Hp Hnd Hfr) as (t' & used & pool' & -> & Hs' & Ep & Hfr').
    cbn [mbind option_bind]. eexists. split; [done|]. split; cbn [tree_ root_ pool_ limbo_]; try done.
    + cbn in Hnd. rewrite Ep, <- app_assoc in Hnd. by apply list.NoDup_app in Hnd as (_ & _ & ?).
    + intros k v0 [[<- _]|[_ Hk]]%lookup_insert_Some; [rewrite length_mem_bytes; lia|by apply (Hsh k v0)].
  - destruct Hr as [Hm Hl]. destruct (remove_stands bnd lw iw Hlw mk unaligned mem Hm _ _ m _ s len Hs Hl) as (N & root' & H).
    exists N. intros fuel x Hf _ [_ Hnd Hfr _]. destruct (H fuel Hf) as (t' & gs & -> & Hs' & Hndg & Hgs & Hfr').
    cbn [mbind option_bind]. eexists. split; [done|]. split; cbn [tree_ root_ pool_ limbo_ more] in *; [by rewrite garbage_app| | |].
    + rewrite garbage_app. apply list.NoDup_app in Hnd as (H1 & H2 & H3). apply list.NoDup_app. split_and!; [done| |].
      * intros b Hb. rewrite elem_of_app. intros [Hb'|Hb']; [|by apply (H2 b)]. apply (Hgs b Hb'). rewrite Forall_forall in Hfr. by apply Hfr, list_elem_of_In.
      * apply list.NoDup_app. split_and!; [done|intros b Hb; by apply Hgs|done].
    + eapply Forall_impl; [|exact Hfr]. exact Hfr'.
    + intros k v [_ Hk]%lookup_delete_Some. by apply (Hsh k v).
  - destruct Hr as (Hm & Hl & Hn). destruct Hs as (G & I & HG & _).
    destruct (run_scan_rows marker bnd unaligned lw iw mk keybuf (tree_ T) (root_ T) m mem s len n ltac:(by exists G) Hm) as [N HN]; [pose proof (mk_size mk); lia|done|done|].
    exists N. intros fuel x Hf _ Hok. rewrite HN by done. by exists (more T x).
  - exists 0%nat. intros fuel x _ _ Hok. eexists. split; [done|]. exact (reclaim_ok (more T x) m Hok).
Qed.

(** Fresh addresses, as many as wanted. *)
Lemma more_fresh (t : tree) (avoid : list Z) (n : nat) : exists x : list Z, List.length x = n /\ NoDup x /\ Forall (fresh t) x /\ forall b, b ∈ x -> b ∉ avoid.
Proof.
  set (X := {[0]} ∪ dom (leaves t) ∪ dom (inodes t) ∪ list_to_set avoid : gset Z).
  exists (fresh_list n X). split; [apply length_fresh_list|]. split; [apply NoDup_fresh_list|].
  assert (HX : forall b, b ∈ fresh_list n X -> b ∉ X) by (intros b; apply fresh_list_is_fresh).
  split.
  - apply Forall_forall. intros b Hb%list_elem_of_In%HX. unfold X in Hb. rewrite !not_elem_of_union, not_elem_of_singleton, !not_elem_of_dom in Hb. split_and!; tauto.
  - intros b Hb%HX. unfold X in Hb. rewrite !not_elem_of_union, not_elem_of_list_to_set in Hb. tauto.
Qed.

Lemma more_ok T m (avoid : list Z) n : table_ok T m -> exists x : list Z, List.length x = n /\ table_ok (more T x) m /\ forall b, b ∈ x -> b <> 0 /\ b ∉ avoid.
Proof.
  intros [Hs Hnd Hfr Hsh]. destruct (more_fresh (tree_ T) (avoid ++ pool_ T ++ garbage_nodes (limbo_ T)) n) as (x & Hx & Hxn & Hxf & Hxa). exists x.
  split; [done|]. split; [split; cbn; try done|].
  - rewrite <- app_assoc, (Permutation_app_comm x), app_assoc. apply list.NoDup_app. split_and!; [done| |done]. intros b Hb Hb'. apply (Hxa b Hb').
    rewrite elem_of_app. by right.
  - by apply Forall_app.
  - intros b Hb. split; [|intros Ha; apply (Hxa b Hb); rewrite elem_of_app; by left]. rewrite Forall_forall in Hxf. by apply list_elem_of_In, Hxf in Hb as [? _].
Qed.

(** A request that is answered is answered as the map answers it. *)
Lemma step_refines T m r fuel a T' : table_ok T m -> request_ok r -> table_step fuel T r = Some (a, T') ->
  a = (map_step marker m r).1 /\ table_ok T' (map_step marker m r).2.
Proof.
  intros HT Hr H. destruct (step_total T m r HT Hr) as (N & Htot). destruct (more_ok T m [] N HT) as (x & Hx & HTx & _).
  destruct (Htot (Nat.max N fuel) x) as (T2 & E & H2); [lia|rewrite length_app; lia|done|].
  rewrite (table_step_mono fuel (Nat.max N fuel) _ x _ _ _ H ltac:(lia)) in E. injection E as -> <-. split; [done|].
  destruct H2 as [H1 H2 H3 H4]. split; [exact H1| | |exact H4]; cbn in *.
  - rewrite <- app_assoc, (Permutation_app_comm x), app_assoc in H2. by apply list.NoDup_app in H2 as (? & _).
  - by apply Forall_app in H3 as [? _].
Qed.
Lemma run_refines rs : forall T m fuel l, table_ok T m -> Forall request_ok rs -> table_run fuel T rs = Some l -> l = map_run marker m rs.
Proof.
  induction rs as [|r rs IH]; intros T m fuel l HT Hok H; cbn [table_run map_run] in *; [by injection H as <-|].
  inversion Hok as [|? ? Hr Hok']; subst. bind_some H. destruct x as [a T1]. bind_some H. injection H as <-.
  destruct (step_refines _ _ _ _ _ _ HT Hr E) as (-> & HT1). destruct (map_step marker m r) as [a m'] eqn:Em. cbn in *.
  f_equal. by eapply IH.
Qed.
Lemma after_stands rs : forall T m fuel T', table_ok T m -> Forall request_ok rs -> table_after fuel T rs = Some T' -> table_ok T' (map_after marker m rs).
Proof.
  induction rs as [|r rs IH]; intros T m fuel T' HT Hok H; cbn [table_after] in *; [by injection H as <-|].
  inversion Hok as [|? ? Hr Hok']; subst. bind_some H. destruct x as [a T1].
  destruct (step_refines _ _ _ _ _ _ HT Hr E) as (-> & HT1). by eapply IH.
Qed.
Lemma run_total rs : forall T m, table_ok T m -> Forall request_ok rs ->
  forall avoid : list Z, exists fuel x l, NoDup x /\ (forall b, b ∈ x -> b <> 0 /\ b ∉ avoid) /\ table_run fuel (more T x) rs = Some l.
Proof.
  induction rs as [|r rs IH]; intros T m HT Hok avoid.
  - exists 0%nat, [], []. split_and!; [constructor| |done]. intros b Hb. by apply elem_of_nil in Hb.
  - inversion Hok as [|? ? Hr Hok']; subst. destruct (step_total T m r HT Hr) as (N & Htot).
    destruct (more_ok T m avoid N HT) as (x & Hx & HTx & Hxa).
    destruct (Htot N x) as (T1 & E & HT1); [done|rewrite length_app; lia|done|].
    destruct (IH T1 _ HT1 Hok' (avoid ++ x)) as (fuel & y & l & Hnd & Hya & E2).
    exists (Nat.max N fuel), (x ++ y). eexists. split_and!; [| |].
    + apply list.NoDup_app. split_and!; [| |done].
      * pose proof (tb_nodup _ _ HTx) as H. cbn in H. apply list.NoDup_app in H as (H & _). by apply list.NoDup_app in H as (_ & _ & ?).
      * intros b Hb Hb'. destruct (Hya b Hb') as [_ Hn]. apply Hn, elem_of_app. by right.
    + intros b [Hb|Hb]%elem_of_app; [by apply Hxa|]. destruct (Hya b Hb) as [? Hn]. split; [done|]. intros Ha. apply Hn, elem_of_app. by left.
    + cbn [table_run]. replace (more T (x ++ y)) with (more (more T x) y) by (unfold more; cbn; by rewrite app_assoc).
      rewrite (table_step_mono N (Nat.max N fuel) _ y _ _ _ E ltac:(lia)). cbn [mbind option_bind].
      pose proof (table_run_mono fuel (Nat.max N fuel) _ _ [] _ E2 ltac:(lia)) as E3. unfold more in E3 at 1. cbn in E3. rewrite app_nil_r in E3.
      unfold more in E3. cbn in E3. unfold more. cbn. by rewrite E3.
Qed.
End Table.

Lemma initialize_fresh lw us a (pool : list Z) : NoDup (a :: pool) -> (forall b, b ∈ pool -> b <> 0) -> Forall (fresh (initialize lw us a)) pool.
Proof.
  intros [Ha _]%list.NoDup_cons H0. apply Forall_forall. intros b Hb%list_elem_of_In. split; [by apply H0|]. cbn.
  assert (a <> b) by (by intros ->). by rewrite !lookup_insert_ne, !lookup_delete_ne, !lookup_empty.
Qed.
(** A new table. *)
Definition new_table (lw : Z) (us : Z -> entry) (a : Z) (pool : list Z) : table :=
  {| tree_ := initialize lw us a; root_ := a; pool_ := pool; limbo_ := [] |}.
Lemma new_table_ok lw iw mk us a pool : 11 <= lw <= 15 -> 0 < mk -> a <> 0 -> NoDup (a :: pool) -> (forall b, b ∈ pool -> b <> 0) ->
  table_ok lw iw mk (new_table lw us a pool) ∅.
Proof.
  intros Hlw Hmk Ha Hnd H0. split; cbn.
  - apply stands_without_nil. by apply initialize_empty.
  - rewrite app_nil_r. by apply list.NoDup_cons in Hnd as [_ ?].
  - by apply initialize_fresh.
  - intros k v Hk. by rewrite lookup_empty in Hk.
Qed.

(** [C1]. A new table refines a finite map: whatever requests are made, of whatever strings
    that are not longer than a bound, the answers that the table gives are the answers that a
    map from strings to values gives that starts empty; a scan for a number of rows gets the
    first rows from its key on in the order of the keys.  The requests run through all that
    the tree does: values replaced, leaves and interior nodes split, new roots, new layers,
    stale layer roots redirected, entries, leaves and interior nodes removed, and the memory
    of removed nodes used for new ones. *)
Theorem table_refines_map bnd unaligned lw iw mk keybuf us un marker a pool fuel rs l : 11 <= lw <= 15 -> 1 <= iw -> 0 < mk -> a <> 0 ->
  NoDup (a :: pool) -> (forall b, b ∈ pool -> b <> 0) -> Forall (request_ok mk) rs ->
  table_run bnd unaligned lw iw mk keybuf us un marker fuel (new_table lw us a pool) rs = Some l -> l = map_run marker ∅ rs.
Proof. intros. eapply (run_refines _ _ lw iw mk); try done. by apply new_table_ok. Qed.

(** [C30]. Every sequence of requests to a new table is answered: some fuel and some free
    addresses are enough, and more of either gives the same answers. *)
Theorem table_answers bnd unaligned lw iw mk keybuf us un marker a rs : 11 <= lw <= 15 -> 1 <= iw -> 0 < mk -> a <> 0 -> Forall (request_ok mk) rs ->
  exists fuel pool l, NoDup (a :: pool) /\ (forall b, b ∈ pool -> b <> 0) /\
    forall fuel' extra, (fuel <= fuel')%nat ->
      table_run bnd unaligned lw iw mk keybuf us un marker fuel' (new_table lw us a (pool ++ extra)) rs = Some l.
Proof.
  intros Hlw Hiw Hmk Ha Hok. assert (HT : table_ok lw iw mk (new_table lw us a []) ∅).
  { apply new_table_ok; try done; [apply NoDup_singleton|]. intros b Hb. by apply elem_of_nil in Hb. }
  destruct (run_total bnd unaligned lw iw mk keybuf us un marker Hlw Hiw rs _ ∅ HT Hok [a]) as (fuel & x & l & Hnd & Hx & HR).
  exists fuel, x, l. split_and!.
  - apply list.NoDup_cons. split; [|done]. intros Hin. apply (Hx a Hin). left.
  - intros b Hb. by apply Hx.
  - intros fuel' extra Hle. exact (table_run_mono bnd unaligned lw iw mk keybuf us un marker fuel fuel' rs _ extra l HR Hle).
Qed.

(** ** An example *)

(** Strings of 32 bytes: the eighth byte differs between most, and some differ only further on. *)
Definition table_mem (a : Z) : Z :=
  let i := a / 32 in let o := a mod 32 in
  if o <? 7 then 65 else if o =? 7 then (if i <? 20 then 5 * i mod 41 else 7) else if o <? 20 then 66 else i mod 256.
Lemma table_mem_ok a : byte_ok (table_mem a).
Proof.
  unfold table_mem, byte_ok. pose proof (Z.mod_pos_bound (5 * (a / 32)) 41). pose proof (Z.mod_pos_bound (a / 32) 256).
  repeat match goal with |- context [if ?b then _ else _] => destruct b end; lia.
Qed.
Definition example_len (i : Z) : Z := if i <? 20 then 8 else 24.
Definition example_puts : list request := map (fun i => Put table_mem (32 * i) (example_len i) (100 + i)) (seqZ 0 23).
Definition example_removes (l : list Z) : list request := map (fun i => Remove table_mem (32 * i) (example_len i)) l.
Definition example_gets : list request := map (fun i => Get table_mem (32 * i) (example_len i)) [0; 7; 19; 21; 30] ++ [Scan table_mem 0 7 4; Scan table_mem (32 * 21) 24 3].
Definition no_marker (v : Z) : bool := false.
(** Most keys are removed, a leaf with them, and some are put again, in memory used before. *)
Definition example_all : list request :=
  example_puts ++ example_removes (seqZ 3 15) ++ Reclaim :: example_removes [22; 30] ++ example_puts ++ example_removes [0; 7] ++ example_gets.
Definition blank_entry : entry := {| ikey0 := 0; keylenx := 0; lv := 0; ksuf := [] |}.
Definition blank_node : internode := {| nkeys_ := 0; Internode.ikey0_ := fun _ => 0; child_ := fun _ => 0 |}.
Abbreviation example_start := (new_table 15 (fun _ => blank_entry) 1 (seqZ 2 20)).
Abbreviation example_run := (table_run key_bound_binary true 15 15 255 0 (fun _ => blank_entry) blank_node no_marker 40 example_start).
Abbreviation example_after := (table_after key_bound_binary true 15 15 255 0 (fun _ => blank_entry) blank_node no_marker 40 example_start).

Lemma example_requests_ok : Forall (request_ok 255) example_all /\ Forall (request_ok 255) example_puts.
Proof.
  assert (HL : forall i, 0 <= example_len i <= 255) by (intros i; unfold example_len; destruct (i <? 20); lia).
  assert (HP : Forall (request_ok 255) example_puts).
  { apply Forall_forall. intros r (i & <- & _)%in_map_iff. split; [apply table_mem_ok|apply HL]. }
  assert (HR : forall l, Forall (request_ok 255) (example_removes l)).
  { intros l. apply Forall_forall. intros r (i & <- & _)%in_map_iff. split; [apply table_mem_ok|apply HL]. }
  assert (HG : Forall (request_ok 255) example_gets).
  { apply Forall_app. split; [apply Forall_forall; intros r (i & <- & _)%in_map_iff; split; [apply table_mem_ok|apply HL]|].
    repeat constructor; try apply table_mem_ok; lia. }
  split; [|done]. unfold example_all. repeat first [done|apply Forall_app; split|apply list.Forall_cons; split].
Qed.
Lemma example_pool : NoDup (1 :: seqZ 2 20) /\ forall b, b ∈ seqZ 2 20 -> b <> 0.
Proof. split; [apply (NoDup_seqZ 1 21)|]. intros b Hb%elem_of_seqZ. lia. Qed.
Lemma table_refines_map_witness : exists l, example_run example_all = Some l /\
  take 5 (drop 66 l) = [Value None; Value None; Value (Some 119); Value (Some 121); Value None] /\
  (fun a => match a with Rows rows => rows.*2 | _ => [] end) <$> drop 71 l = [[117; 109; 101; 120]; [121; 122; 118]] /\
  l = map_run no_marker ∅ example_all.
Proof.
  eexists. split; [vm_compute; reflexivity|]. split; [reflexivity|]. split; [reflexivity|]. destruct example_pool as [P1 P2].
  eapply (table_refines_map key_bound_binary true 15 15 255 0 (fun _ => blank_entry) blank_node no_marker 1 (seqZ 2 20) 40); [lia..|exact P1|exact P2|exact (proj1 example_requests_ok)|].
  vm_compute; reflexivity.
Defined.
Lemma table_answers_witness : exists fuel pool l, NoDup (1 :: pool) /\ (forall b, b ∈ pool -> b <> 0) /\ forall fuel' extra, (fuel <= fuel')%nat ->
  table_run key_bound_linear false 14 15 255 0 (fun _ => blank_entry) blank_node no_marker fuel' (new_table 14 (fun _ => blank_entry) 1 (pool ++ extra)) example_all = Some l.
Proof. apply (table_answers _ _ _ _ 255); [lia..|exact (proj1 example_requests_ok)]. Defined.

(** The tree of the example: two leaves under a new root, and two layers. *)
Lemma example_stands : exists T, example_after example_puts = Some T /\ stands_for 15 15 255 (tree_ T) (root_ T) (map_after no_marker ∅ example_puts).
Proof.
  assert (H : match example_after example_puts with Some _ => true | None => false end = true) by (vm_compute; reflexivity).
  destruct (example_after example_puts) as [T|] eqn:E; [|done]. exists T. split; [done|]. destruct example_pool as [P1 P2].
  assert (HT : table_ok 15 15 255 T (map_after no_marker ∅ example_puts)).
  { refine (after_stands key_bound_binary true 15 15 255 0 (fun _ => blank_entry) blank_node no_marker ltac:(lia) ltac:(lia) example_puts _ ∅ 40%nat T _ (proj2 example_requests_ok) E).
    apply new_table_ok; [lia..|exact P1|exact P2]. }
  destruct HT as [(G & I & HG & _) _ _ _]. exists G. exact (conj I HG).
Qed.
Lemma get_correct_witness : exists T, example_after example_puts = Some T /\
  exists N, forall fuel, (N <= fuel)%nat -> get_value key_bound_linear false table_mem (tree_ T) fuel (root_ T) (32 * 21) 24 = Some (Some 121).
Proof.
  destruct example_stands as (T & E & Hs). exists T. split; [exact E|].
  destruct (get_correct 15 15 255 key_bound_linear false table_mem (tree_ T) (root_ T) _ (32 * 21) 24 table_mem_ok ltac:(lia) Hs) as [N HN].
  exists N. intros fuel Hf. rewrite (HN fuel Hf). vm_compute. reflexivity.
Defined.
Lemma put_correct_witness : exists T, example_after example_puts = Some T /\
  exists N, forall fuel pool, (N <= fuel)%nat -> (N <= List.length pool)%nat -> NoDup pool -> Forall (fresh (tree_ T)) pool ->
  exists t' pool' root', put key_bound_binary true 15 15 table_mem (fun _ => blank_entry) blank_node fuel (root_ T) (32 * 30) 24 5 (tree_ T) pool =
    Some (t', pool', root', false) /\
    stands_for 15 15 255 t' root' (<[mem_bytes table_mem (32 * 30) 24 := 5]> (map_after no_marker ∅ example_puts)) /\ Forall (fresh t') pool'.
Proof.
  destruct example_stands as (T & E & Hs). exists T. split; [exact E|].
  exact (put_correct key_bound_binary true 15 15 255 table_mem (fun _ => blank_entry) blank_node ltac:(lia) ltac:(lia) table_mem_ok (tree_ T) (root_ T) _ (32 * 30) 24 5 Hs ltac:(lia)).
Defined.
Lemma scan_correct_witness : exists T, example_after example_puts = Some T /\
  exists N, forall fuel, (N <= fuel)%nat ->
    scan key_bound_binary true 255 1000 (tree_ T) (query_json_scanner no_marker) fuel (root_ T) table_mem (32 * 20) 24 false {| nleft_ := 3; rows_ := [] |} =
    Some (visit_all (query_json_scanner no_marker) (from (mem_bytes table_mem (32 * 20) 24) false (in_order (map_after no_marker ∅ example_puts))) 0 {| nleft_ := 3; rows_ := [] |}).
Proof.
  destruct example_stands as (T & E & Hs). exists T. split; [exact E|].
  refine (scan_correct key_bound_binary true 15 15 255 1000 (tree_ T) (root_ T) _ (query_json_scanner no_marker) table_mem (32 * 20) 24 false {| nleft_ := 3; rows_ := [] |} Hs table_mem_ok _ _ (fun _ _ _ => eq_refl)).
  - split; vm_compute; discriminate.
  - assert (HF : map_Forall (fun k (_ : Z) => Z.of_nat (List.length k) <= 255) (map_after no_marker ∅ example_puts)) by (apply (bool_decide_unpack _); vm_compute; reflexivity).
    exact HF.
Defined.

(** A layer that has become empty is there until its collection runs. *)
Definition empty_layer : list request :=
  map (fun i => Put table_mem (32 * i) 8 (100 + i)) [0; 1; 2; 10] ++ [Put table_mem (32 * 20) 9 120; Put table_mem (32 * 20) 10 121] ++
  [Remove table_mem (32 * 20) 9; Remove table_mem (32 * 20) 10].

(** ** Collections *)

(** The callbacks of a list of garbage, first to last: the memory of a callback is its prefix. *)
Fixpoint collect (fuel : nat) (l : list garbage) (t : tree) : option (tree * list garbage) :=
  match l with
  | [] => Some (t, [])
  | Layer r p :: l =>
      '(t, a) ← gc_callback key_bound_binary true 15 (suffix_mem p) fuel r 0 (Z.of_nat (List.length p)) t;
      '(t, b) ← collect fuel l t;
      Some (t, a ++ b)
  | _ :: l => collect fuel l t
  end.

(** The empty layer of the example above is collected: its leaf is freed, and a reverse scan
    gives every row once. *)
Lemma empty_layer_stands : exists T, example_after empty_layer = Some T /\ stands_for 15 15 255 (tree_ T) (root_ T) (map_after no_marker ∅ empty_layer).
Proof.
  assert (H : match example_after empty_layer with Some _ => true | None => false end = true) by (vm_compute; reflexivity).
  destruct (example_after empty_layer) as [T|] eqn:E; [|done]. exists T. split; [done|]. destruct example_pool as [P1 P2].
  assert (HR : Forall (request_ok 255) empty_layer).
  { repeat constructor; try apply table_mem_ok; lia. }
  assert (HT : table_ok 15 15 255 T (map_after no_marker ∅ empty_layer)).
  { refine (after_stands key_bound_binary true 15 15 255 0 (fun _ => blank_entry) blank_node no_marker ltac:(lia) ltac:(lia) empty_layer _ ∅ 40%nat T _ HR E).
    apply new_table_ok; [lia..|exact P1|exact P2]. }
  destruct HT as [(G & I & HG & _) _ _ _]. exists G. exact (conj I HG).
Qed.
Lemma gc_callback_correct_witness : exists T, example_after empty_layer = Some T /\
  In (Layer 1 (mem_bytes table_mem (32 * 20) 8)) (limbo_ T) /\
  (exists N, forall fuel, (N <= fuel)%nat -> exists t' gs G,
    gc_callback key_bound_binary true 15 table_mem fuel 1 (32 * 20) 8 (tree_ T) = Some (t', gs) /\
    inv 15 15 255 t' (fix_root (root_ T) (tree_ T)) G /\ (forall k v, map_after no_marker ∅ empty_layer !! k = Some v <-> bound G k v) /\
    (forall g, G !! mem_bytes table_mem (32 * 20) 8 = Some g -> bare (gshape g) = false) /\
    NoDup (garbage_nodes gs) /\ (forall b, b ∈ garbage_nodes gs -> ~ held G b) /\ forall b, fresh (tree_ T) b -> fresh t' b) /\
  ('(t, gs) ← gc_callback key_bound_binary true 15 table_mem 40 1 (32 * 20) 8 (tree_ T);
   rows ← run_rscan no_marker key_bound_binary true 255 1000 t 50 (root_ T) table_mem (32 * 2) 8 9; Some (gs, rows.*2)) = Some ([Node 2], [102; 110; 101; 100]).
Proof.
  destruct empty_layer_stands as (T & E & Hs). exists T. split; [exact E|].
  assert (F : option_map (fun T => (limbo_ T, is_root (tree_ T) 1, root_ T)) (example_after empty_layer) =
    Some ([Row 121; Layer 1 (mem_bytes table_mem (32 * 20) 8); Row 120], true, 1)).
  { vm_compute. reflexivity. }
  assert (B : (T ← example_after empty_layer; '(t, gs) ← gc_callback key_bound_binary true 15 table_mem 40 1 (32 * 20) 8 (tree_ T);
   rows ← run_rscan no_marker key_bound_binary true 255 1000 t 50 (root_ T) table_mem (32 * 2) 8 9; Some (gs, rows.*2)) = Some ([Node 2], [102; 110; 101; 100])) by (vm_compute; reflexivity).
  rewrite E in F, B. cbn [option_map] in F. injection F as F1 F2 F3. split; [rewrite F1; right; by left|]. split; [|exact B].
  refine (gc_callback_correct key_bound_binary 15 15 ltac:(lia) 255 true table_mem table_mem_ok (tree_ T) (root_ T) _ 1 (32 * 20) 8 Hs ltac:(lia) eq_refl _).
  exists 1%nat. intros [|fuel] Hf; [lia|]. cbn [true_root]. unfold fix_root. by rewrite F3, F2.
Defined.

Lemma destroy_correct_witness : exists T, example_after example_puts = Some T /\
  (gs ← destroy 40 (root_ T) (tree_ T); Some (garbage_nodes gs)) = Some [3; 1; 2; 4; 5] /\
  exists G, inv 15 15 255 (tree_ T) (root_ T) G /\ (forall k v, map_after no_marker ∅ example_puts !! k = Some v <-> bound G k v) /\
  exists N, forall fuel, (N <= fuel)%nat -> exists gs, destroy fuel (root_ T) (tree_ T) = Some (Node <$> gs) /\ NoDup gs /\ forall b, b ∈ gs <-> held G b.
Proof.
  destruct example_stands as (T & E & Hs). exists T. split; [exact E|].
  assert (K : option_map (fun T => bool_decide (roots_known (tree_ T))) (example_after example_puts) = Some true) by (vm_compute; reflexivity).
  assert (D : (T ← example_after example_puts; gs ← destroy 40 (root_ T) (tree_ T); Some (garbage_nodes gs)) = Some [3; 1; 2; 4; 5]) by (vm_compute; reflexivity).
  rewrite E in K, D. cbn [option_map] in K. injection K as K. apply bool_decide_eq_true in K. split; [exact D|].
  exact (destroy_correct 15 15 255 (tree_ T) (root_ T) _ Hs K).
Defined.

(** Sixteen leaves under a full root.  All but three lose their entries but one; that one gets
    a layer, which is emptied.  Then a put splits a leaf and the root. *)
Definition many_mem (a : Z) : Z :=
  let i := a / 16 in let o := a mod 16 in
  if o <? 6 then 65 else if o =? 6 then i / 512 else if o =? 7 then i / 2 mod 256 else 66 + i mod 2.
Definition many_len (i : Z) : Z := if i mod 15 =? 3 then 9 else 8.
Definition many_put (i : Z) : request := Put many_mem (32 * i) (many_len i) i.
Definition many_other (i : Z) : request := Put many_mem (32 * i + 16) 9 i.
Definition thin_leaf (n : Z) : list request :=
  map (fun i => Remove many_mem (32 * i) (many_len i)) (filter (fun i => i mod 15 <> 3) (seqZ (15 * n) 15)).
Definition leave_layer (n : Z) : list request :=
  let i := 15 * n + 3 in [many_other i; Remove many_mem (32 * i) 9; Remove many_mem (32 * i + 16) 9].
Definition thin_leaves : list Z := seqZ 1 11 ++ [13; 14].
Definition stale_root : list request :=
  map many_put (seqZ 0 240) ++ flat_map thin_leaf thin_leaves ++ flat_map leave_layer thin_leaves ++ [many_other 185].
Abbreviation many_after := (table_after key_bound_binary true 15 15 255 0 (fun _ => blank_entry) blank_node no_marker 40 (new_table 15 (fun _ => blank_entry) 1 (seqZ 2 40))).

(** A stale layer root: sixteen long keys under one slice. *)
Definition deep_mem (a : Z) : Z := if a mod 32 =? 8 then a / 32 else 65.
Definition stale_layer : list request := map (fun i => Put deep_mem (32 * i) 9 i) (seqZ 0 16).
